(* ===== verification/_CoqProject ===== *)
-Q . S2P
Prelude.v
RaftTypes.v
RaftStore.v
RaftNode.v
RaftAbs.v
RaftSafety.v
RaftInvariant.v
RaftNet.v
RaftRefine.v
Sim.v
Epaxos.v
EpaxosExample.v
Tarjan.v
EpaxosExec.v
EpaxosOrder.v
EpaxosNet.v
EpaxosSafety.v
Codec.v
Net.v
Driver.v
RaftExample.v
RaftCluster.v
Float64.v
BigNum.v
Number.v
NumberFacts.v
Trial.v
TrialFacts.v
GcHeap.v
GcFacts.v
GcMutate.v
GcDetect.v
GcSweep.v
GcRing.v
GcExample.v
Equal.v
EqualFacts.v
Table.v
TableFacts.v
TableMutate.v
TableExample.v
Text.v
Symbols.v
Diag.v
Lexer.v
Spelling.v
LexerFacts.v
Reader.v
ReaderFacts.v
LexerText.v
LexerAtoms.v
ReaderText.v
Writer.v
WriterFacts.v
WriterText.v
ReaderExample.v
Rir.v
RirValues.v
RirSem.v
RirFacts.v
Opt.v
OptFacts.v
Ssa.v
OptScan.v
RirRuns.v
OptCons.v
OptRegion.v
OptPipeline.v
Inline.v
InlineFacts.v
OptExample.v
Findings.v
