(* ===== verification/Prelude.v ===== *)
(** * CrabScheme: a verification development

    A model in Rocq of parts of CrabScheme, a Scheme system written in Rust,
    with the theorems that make those parts correct.  All paths are relative to
    the crates of the repository: [cs-core/src/eq.rs] is
    [src/crates/cs-core/src/eq.rs].

    ** The program and the parts that are modelled

    CrabScheme reads source text into data, expands and compiles them, and runs
    them on a virtual machine or as native code over a reference-counted heap;
    actors on several nodes can share state through replicated logs.  Modelled
    are the layers at the two ends, and one in the middle: the reader, the
    values with their heap, collector, numbers, equality, tables and external
    representation; the register code with its optimiser and inliner; and the
    consensus protocols with their codec, transport and drivers.

    - Text to data.  [cs-lex] turns the text of a file into tokens with spans of
      [cs-diag], interning names in the table of [cs-core/src/symbol.rs];
      [cs-parse] turns tokens into data, and data into values of the heap.
    - Values.  [cs-core/src/value.rs] and [cs-gc] implement pairs, vectors and
      hashtables as counted cells.  A mutation runs the cycle detector, which
      may demote a slot to a weak one, and registers candidates with the cycle
      collector.  [cs-core/src/number.rs] and [eq.rs] give the numeric tower,
      the equivalence predicates and the hashes that the builtins of
      [cs-runtime] use.
    - Register code.  [cs-vm/src/jit_translate.rs] translates the bytecode of a
      hot procedure into the register IR of [cs-rir], splices in leaf callees
      with [cs-rir/src/inline.rs], and hands the function to the pipeline of
      [cs-opt] before native code is generated from it.
    - Consensus.  [cs-consensus] has two sans-I/O cores, Raft and EPaxos.  A
      driver owns a core and one transport of [cs-net] per peer, encodes what
      the core sends, feeds it what arrives, and reports what was applied.

    ** Files

    Foundations.  [Prelude]: record update in the notation of Rust's
    assignments, tactics, hint databases and generic lemmas.  [Text]: [char] and
    [str] of the standard library.  [Float64]: [f64].  [BigNum]: the crates
    [num-bigint] and [num-rational], which are not part of the repository, as
    classes of operations with their documented laws, and the integers and
    canonical rationals as instances.

    Raft ([cs-consensus/src/lib.rs], [raft.rs], [store.rs], [sim.rs]).
    [RaftTypes]: messages, entries, configurations.  [RaftStore]: the trait
    [RaftLogStore] with its laws, and the store in memory.  [RaftNode]: the
    record [RaftNode] and a function per method.  [RaftAbs], [RaftSafety],
    [RaftInvariant]: the abstract protocol, its invariant over a ghost history,
    and its safety.  [RaftNet]: replicas over a lossy network, with crashes;
    [nstep] has what a replica does with a fixed membership and no explicit
    compaction, [api_step] the whole interface.
    [RaftRefine], [RaftCluster]: every run of the replicas is a run of the
    abstract protocol, and what follows.  [Sim]: the harness of [sim.rs], with
    closures of a test as functions on replicas.
    [RaftExample]: concrete runs.

    EPaxos ([cs-consensus/src/epaxos.rs]).  [Epaxos]: the replica.  [Tarjan]:
    correctness of its iterative algorithm for strongly connected components.
    [EpaxosExec], [EpaxosOrder]: what is executed and in what order.
    [EpaxosNet], [EpaxosSafety]: replicas over a network.  [EpaxosExample]:
    concrete groups.

    Wire and drivers.  [Codec] ([cs-consensus/src/codec.rs]), [Net]
    ([cs-net/src/lib.rs], [framing.rs]), [Driver] ([cs-consensus/src/driver.rs]).

    Numbers ([cs-core/src/number.rs]).  [Number], proved in [NumberFacts].

    Heap and collector.  [Trial] ([cs-gc/src/cycle_registry.rs],
    [cycle_collector.rs]) over the interface [AnyWeak], proved in [TrialFacts];
    [GcHeap] ([cs-gc/src/rc_only.rs], [cycle.rs], the containers of
    [cs-core/src/value.rs], [set-car!] and [set-cdr!]), the instance of that
    interface; [GcFacts], [GcMutate], [GcDetect], [GcSweep], [GcRing]:
    reference counts, assignment, cycle detection, sweeps; [GcExample].

    Equality and tables.  [Equal] ([cs-core/src/eq.rs]), proved in [EqualFacts];
    [Table] (vectors and hashtables of [cs-runtime/src/builtins/mod.rs]), proved
    in [TableFacts] and [TableMutate]; [TableExample].

    Reading and writing.  [Symbols] ([cs-core/src/symbol.rs]), [Diag]
    ([cs-diag/src/lib.rs]), [Lexer] ([cs-lex/src/lib.rs]) with [LexerFacts],
    [LexerText] and [LexerAtoms], [Spelling] (which text spells which
    token), [Reader] ([cs-parse/src/lib.rs]) with [ReaderFacts] and [ReaderText],
    [Writer] ([Value::write_to] of [cs-core/src/value.rs] and [Datum::to_value])
    with [WriterFacts] and [WriterText]; [ReaderExample].

    Register code.  [Rir] ([cs-rir/src/lib.rs], [verify.rs] and the walkers of
    [inline.rs]): instructions, blocks and functions, and the verifier.
    [RirValues]: the registers of each of the 311 instructions.  [RirSem]: what
    a function computes, a specification over an interface to the
    runtime; [RirFacts] and [RirRuns]: walkers, memory safety, runs.  [Opt]
    ([cs-opt/src/lib.rs] and [passes]): the passes, registry and pipeline.
    [Ssa]: single-assignment form; [OptFacts]: constant folding and dead blocks;
    [OptScan]: the scans for uses; [OptCons]: scalar replacement; [OptRegion]:
    promotion to regions; [OptPipeline]: their composition.  [Inline]
    ([inline.rs] and the driver in [cs-vm/src/jit_translate.rs]), proved in
    [InlineFacts]; [OptExample].

    [Findings]: runs on which the consensus code falls short of its
    documentation.  [GcExample], [TableExample], [ReaderExample] and
    [OptExample] end with such facts about their parts.

    ** How the code is represented

    A struct is a record and an enum an inductive type, with the source's names
    (a prefix per record keeps field names apart); a method is a function from
    the state to the state and the result.  What can panic returns an option,
    and what can fail a sum with the source's error type.  Hash maps are finite
    maps; where the code iterates over one, the order is ascending for B-trees
    and a parameter for hash maps.  Integers are [Z] or [N], and wrap-around is
    written out where it can happen: timers, codec positions, spans, symbol
    numbers, fixnums and shifts.  Strings are lists of bytes.  Addresses are
    keys of the heap.

    Code outside of the repository is a class or a variable with its documented
    laws: state machines, big numbers ([BigNum]), the standard hasher
    ([DefaultHasher]), the order of a hash map's keys ([KeyOrder]), the shortest
    decimal of a flonum, the quoted form of a path.  The instructions of the
    register IR that call into the runtime are operations of a class too
    ([Runtime]), of which memory safety is assumed ([RuntimeLaws]): an operation
    reads and changes only what it can reach, and frees nothing.

    ** What is shown

    - Raft.  A cluster refines the abstract protocol; hence one leader per term,
      matching logs, leader completeness, agreement of what is committed
      at any two points of a run and of applied states, and durability over
      crashes.  In these theorems membership is fixed ([nstep] has no
      [propose_conf] and no [compact]), [snapshot_threshold] is zero and the
      stores are empty at first; [Findings] has a run with compaction on in
      which the acknowledgement of a stale snapshot commits what a majority
      does not hold.
    - EPaxos.  Agreement on attributes, one order of execution for interfering
      commands, and convergence, for groups of odd size, more than one, and an
      interference relation that is symmetric and the same in every state;
      [tarjan_scc] and the
      pruning of the executable set are correct.
    - Wire and harness.  Messages decode to what was encoded and what decodes is
      well-formed; frames survive any chunking; a run of the harness, with
      tests that call the whole interface of the replicas, is a run of the
      network, and one that the Raft theorems are about when the tests change
      no membership and do not compact.
    - Numbers.  Exact arithmetic, comparison, division, roots, bit operations
      and decimal text agree with the rationals and integers.
    - Collector.  Trial deletion ends with white exactly the greatest closed
      group of suspects; a sweep keeps the counts exact and everything that
      strong slots lead to, and a demoted slot reads as before unless no strong
      slots led to its cell; garbage rings within the detector's limit are
      freed; the cycle detector decides cycles within its limit; assignments
      read back.
    - Equality and tables.  [equal?] decides equality of unfoldings; hashes
      respect equality; hashtables of the built-in kinds refine finite maps on
      keys without NaN and negative zero.
    - Reading and writing.  The lexer and the reader return on every text, and
      the text is cut up into the spelling of the tokens and what separates
      them; printed data and written values are read back as
      themselves; the writer ends on cyclic data; symbol tables refine lists of
      names; line tables agree with counting; diagnostics do not panic.
    - Register code.  Every pass, and every pipeline of them, returns without a
      panic a function in single-assignment form with the same results; dead
      blocks are exactly the unreachable ones; the pairs that are promoted are
      exactly those that are only read (in functions of instructions that the
      walker covers; others are left alone), and nothing refers to them when
      the function ends; a spliced callee does what a call does, and the
      numbers that the driver hands out twice after it are exactly those of
      instructions that the analyser does not know.  The verifier accepts
      exactly what it is meant to, for the destinations it knows.

    ** Bounds

    Recursion that is not structural takes fuel, and a theorem shows that the
    fuel the definition passes is enough: the turns of [tarjan_scc]
    ([tarjan_scc_correct]), the passes of [prune_loop] ([eligible_greatest]),
    Newton's iteration ([exact_integer_sqrt_correct]), the worklists of trial
    deletion ([trial_deletion_exact]) and sweeps ([sweep_preserves_live]), the
    steps of [equal?] without vectors that contain themselves
    ([equal_decides_same_tree]), a byte per round of the lexer
    ([lex_all_covers_text]), three calls per byte of the reader
    ([read_all_returns]), two calls per cell of the writer
    ([writing_terminates]), and two targets per block of the search for
    reachable blocks ([dead_block_elim_correct]).  The limit of the cycle detector is the code's own
    and a parameter.

    ** Not modelled

    - The macro expander, the type checker, the compilers to bytecode and to
      the register IR, the virtual machine and most builtins of [cs-runtime]:
      with the evaluator they are by far the largest part of the repository and
      need a semantics of the whole language.  The register IR is given the
      meaning that its comments state for the tier in which every register
      holds a whole value.
    - Native code generation ([cs-jit], [cs-jit-cranelift], [cs-aot]), which is
      calls of the Cranelift library, and the foreign-function interface.
    - Regions, pointer-tagged values and the raw entry points of compiled code,
      which are unsafe code over addresses; procedures and the contents of ports
      as values, which need the evaluator.
    - Sockets, TLS and QUIC, RocksDB, the actor runtime and distribution, the
      web server, the command line, the package manager and language server, and
      the standard-library crates, which bind operating-system and third-party
      libraries.
    - Timing (the wall clock of statistics), allocation failure and the depth of
      the machine stack. *)

From stdpp Require Import base numbers gmap sorting list.
From Stdlib Require Import Strings.Byte.

(** ** Scope *)

Declare Scope crab_scope.
Delimit Scope crab_scope with crab.

(** ** Record update

    [r <| f := v |>] is Rust's [r.f = v] and [r <| f ::= g |>] its
    [r.f = g(r.f)].  A record type declares how it is rebuilt from its
    fields ([Eta]); the setter of one field is then found by abstracting
    the projection out of that expression. *)

Class Eta (R : Type) := eta : R → R.

Class Setter {R T : Type} (proj : R → T) := set_field : (T → T) → R → R.

Arguments set_field {R T} proj {_} _ _ : simpl never.

Ltac solve_setter :=
  lazymatch goal with
  | |- @Setter ?R ?T ?proj =>
      let i := constr:(_ : Eta R) in
      let e := eval hnf in i in
      let e := eval pattern proj in e in
      lazymatch e with
      | (fun _ => ?b) _ => fail "not a field of the record:" proj
      | ?f _ =>
          let s := eval cbv beta in
            (fun (g : T → T) (r : R) => f (fun r0 => g (proj r0)) r) in
          exact s
      end
  end.

#[export] Hint Extern 1 (Setter _) => solve_setter : typeclass_instances.

Notation "r <| proj ::= g |>" := (set_field proj g r)
  (at level 1, left associativity, proj at level 11) : crab_scope.
Notation "r <| proj := v |>" := (set_field proj (fun _ => v) r)
  (at level 1, left associativity, proj at level 11) : crab_scope.

(** [p (r <| q := v |>)] is [v] when [p] is [q] and [p r] otherwise.  Only
    field accesses are reduced: a record itself keeps its updates, since
    writing it out would copy it once per field.  The equation is checked
    once for a variable record and then instantiated. *)
Ltac field_law R T p q i :=
  let e := constr:(_ : Eta R) in
  let e := eval hnf in e in
  lazymatch e with
  | context [p] =>
      lazymatch p with
      | q => constr:(fun (g : T → T) (r : R) =>
                       (eq_refl : p (@set_field R T q i g r) = g (p r)))
      | _ => constr:(fun (g : T → T) (r : R) =>
                       (eq_refl : p (@set_field R T q i g r) = p r))
      end
  end.

Ltac fields_goal :=
  repeat match goal with
  | |- context [?p (@set_field ?R ?T ?q ?i ?g ?r)] =>
      let l := field_law R T p q i in rewrite (l g r)
  end; cbv beta.

Ltac fields_in H :=
  repeat match type of H with
  | context [?p (@set_field ?R ?T ?q ?i ?g ?r)] =>
      let l := field_law R T p q i in rewrite (l g r) in H
  end; cbv beta in H.

Ltac fields :=
  repeat match goal with
  | H : context [_ (@set_field _ _ _ _ _ _)] |- _ => progress fields_in H
  end; fields_goal.

(** ** Machine words *)

(** Wrap-around at the width of [u32] and [u64]. *)
Definition wrap32 (x : N) : N := (x mod 2 ^ 32)%N.
Definition wrap64 (x : N) : N := (x mod 2 ^ 64)%N.

Arguments wrap32 : simpl never.
Arguments wrap64 : simpl never.

(** The descending order [sort_unstable_by(|a, b| b.cmp(a))] sorts by. *)
Definition desc (a b : N) : Prop := (b ≤ a)%N.

#[export] Instance desc_dec : RelDecision desc := λ a b, N.le_dec b a.

(** ** Lists: [Vec::dedup], inclusive ranges *)

(** [Vec::dedup]: drop every element equal to its predecessor. *)
Fixpoint dedup {A} `{EqDecision A} (l : list A) : list A :=
  match l with
  | x :: (y :: _) as t => if decide (x = y) then dedup t else x :: dedup t
  | _ => l
  end.

(** [lo..=hi] over [u64]. *)
Definition range_incl (lo hi : N) : list N :=
  (λ k : nat, (lo + N.of_nat k)%N) <$> seq 0 (N.to_nat (hi + 1 - lo)).

(** [iter().rev().find(p)]: the last element that satisfies [p]. *)
Definition find_last {A} (p : A → bool) (l : list A) : option A :=
  List.find p (reverse l).

(** Membership in a list written out with [++] and [::]. *)
Ltac elems :=
  repeat first [rewrite elem_of_app | rewrite elem_of_cons | rewrite elem_of_nil]; tauto.

(** ** Generic lemmas on lists *)

Lemma find_last_None {A} (p : A → bool) (l : list A) :
  (∀ x, x ∈ l → p x = false) → find_last p l = None.
Proof.
  intros Hp. unfold find_last.
  assert (∀ x, x ∈ reverse l → p x = false) as Hr.
  { intros x Hx. by apply Hp, elem_of_reverse. }
  clear Hp. induction (reverse l) as [|x r IH]; cbn; [done |].
  rewrite Hr by left. apply IH. intros y Hy. apply Hr. by right.
Qed.

(** Two filters that agree on the members of a list select the same list. *)
Lemma list_filter_ext_elem {A} (P Q : A → Prop)
    `{!∀ x, Decision (P x), !∀ x, Decision (Q x)} (l : list A) :
  (∀ x, x ∈ l → P x ↔ Q x) → filter P l = filter Q l.
Proof.
  induction l as [|x l IH]; intros Hiff; [done |].
  rewrite !filter_cons, IH by (intros; apply Hiff; by right).
  apply decide_ext, Hiff. by left.
Qed.

Lemma length_filter_fmap {A B} (f : A → B) (P : B → Prop) (Q : A → Prop)
    `{!∀ b, Decision (P b), !∀ a, Decision (Q a)} l :
  (∀ a, P (f a) ↔ Q a) → length (filter P (f <$> l)) = length (filter Q l).
Proof.
  intros Hf. induction l as [|a l IH]; [done |]. cbn [fmap list_fmap]. rewrite !filter_cons.
  rewrite (decide_ext (P (f a)) (Q a)) by apply Hf. case_decide; cbn; by rewrite IH.
Qed.

Lemma alter_as_insert `{Countable K} {A} (f : A → A) (m : gmap K A) i x :
  m !! i = Some x → alter f i m = <[i := f x]> m.
Proof.
  intros Hi. apply map_eq. intros j. destruct (decide (j = i)) as [->|Hne].
  - by rewrite lookup_alter_eq, lookup_insert_eq, Hi.
  - by rewrite lookup_alter_ne, lookup_insert_ne.
Qed.

Lemma list_filter_all {A} (P : A → Prop) `{!∀ x, Decision (P x)} (l : list A) :
  (∀ x, x ∈ l → P x) → filter P l = l.
Proof.
  induction l as [|x l IH]; intros HP; [done |].
  rewrite filter_cons_True by (apply HP; by left). f_equal. apply IH. intros. apply HP. by right.
Qed.

Lemma elem_of_concat {A} (x : A) (ls : list (list A)) : x ∈ concat ls ↔ ∃ l, x ∈ l ∧ l ∈ ls.
Proof.
  induction ls as [|l ls IH]; cbn.
  - split; [by intros ?%elem_of_nil | by intros (? & _ & ?%elem_of_nil)].
  - rewrite elem_of_app, IH. split.
    + intros [?|(k & ? & ?)]; [exists l | exists k]; by rewrite elem_of_cons; auto.
    + intros (k & Hx & [->|Hk]%elem_of_cons); eauto.
Qed.

Lemma StronglySorted_weaken {A} (R R' : relation A) (l : list A) :
  (∀ x y, R x y → R' x y) → StronglySorted R l → StronglySorted R' l.
Proof.
  intros HR. induction 1 as [|x l _ IH Hx]; constructor; [done |].
  eapply Forall_impl; [exact Hx | intros; by apply HR].
Qed.

(** Prefixes of one list are ordered by length. *)
Lemma prefix_by_length {A} (a b x : list A) :
  a `prefix_of` x → b `prefix_of` x → (length a ≤ length b)%nat → a `prefix_of` b.
Proof.
  intros Ha Hb Hlen. destruct (prefix_weak_total a b x Ha Hb) as [|Hba]; [done |].
  assert (b = a) as ->; [|done].
  apply prefix_length_eq; [done |]. lia.
Qed.

Lemma prefix_take_take {A} (l : list A) n m :
  (n ≤ m)%nat → take n l `prefix_of` take m l.
Proof.
  intros. replace n with (n `min` m)%nat by lia.
  rewrite <-take_take. apply prefix_take.
Qed.

Lemma prefix_take_l {A} (a b : list A) n :
  a `prefix_of` b → take n a `prefix_of` b.
Proof. intros Hab. etrans; [apply prefix_take | done]. Qed.

Lemma prefix_take_eq {A} (a b : list A) n :
  a `prefix_of` b → (n ≤ length a)%nat → take n b = take n a.
Proof. intros [k ->] ?. by rewrite take_app_le. Qed.

Lemma prefix_is_take {A} (a b : list A) :
  a `prefix_of` b → a = take (length a) b.
Proof. intros [k ->]. by rewrite take_app_length. Qed.

Lemma list_bind_ext_in {A B} (f g : A → list B) (l : list A) :
  (∀ x, x ∈ l → f x = g x) → l ≫= f = l ≫= g.
Proof.
  induction l as [|x l IH]; intros Hfg; cbn; [done |].
  rewrite Hfg, IH; [done | intros; apply Hfg; by constructor | by constructor].
Qed.

Lemma list_fmap_of_bind {A B C} (f : A → list B) (g : B → C) (l : list A) :
  g <$> (l ≫= f) = l ≫= λ x, g <$> f x.
Proof. induction l as [|x l IH]; cbn; [done |]. by rewrite fmap_app, IH. Qed.

Lemma prefix_take_agree {A} (l l' : list A) a c :
  take c l `prefix_of` l' → (a ≤ c)%nat → (c ≤ length l)%nat → take a l' = take a l.
Proof.
  intros Hp Ha Hc. rewrite (prefix_take_eq _ _ _ Hp) by (rewrite length_take; lia).
  rewrite take_take. f_equal. lia.
Qed.

(** Two counts that add up to more than the length meet in an element. *)
Lemma filter_overlap {A} (P Q : A → Prop)
    `{!∀ x, Decision (P x), !∀ x, Decision (Q x)} (l : list A) :
  (length l < length (filter P l) + length (filter Q l))%nat →
  ∃ x, x ∈ l ∧ P x ∧ Q x.
Proof.
  induction l as [|x l IH]; rewrite ?filter_nil, ?filter_cons; cbn; [lia |].
  intros Hlt. destruct (decide (P x)), (decide (Q x)); cbn in *;
    [by exists x; split; [left |] | ..];
    (destruct IH as (y & ? & ?); [lia | exists y; split; [by right | done]]).
Qed.

Lemma elem_of_range_incl x lo hi : x ∈ range_incl lo hi ↔ (lo ≤ x ∧ x ≤ hi)%N.
Proof.
  unfold range_incl. rewrite list_elem_of_fmap. split.
  - intros (k & -> & Hk%elem_of_seq). lia.
  - intros ?. exists (N.to_nat (x - lo)). split; [lia |]. apply elem_of_seq. lia.
Qed.

Lemma range_incl_sorted lo hi : StronglySorted N.lt (range_incl lo hi).
Proof.
  unfold range_incl. generalize (N.to_nat (hi + 1 - lo)) as m. generalize 0%nat as k.
  intros k m. revert k. induction m as [|m IH]; intros k; cbn; constructor; [done |].
  apply Forall_fmap, Forall_forall. intros j Hj%elem_of_seq. cbn. lia.
Qed.

(** [a] occurs before [b]. *)
Definition before {A} (l : list A) (a b : A) : Prop :=
  ∃ l1 l2 l3, l = l1 ++ a :: l2 ++ b :: l3.

Lemma before_elem {A} (l : list A) a b : before l a b → a ∈ l ∧ b ∈ l.
Proof. intros (l1 & l2 & l3 & ->). split; elems. Qed.

Lemma before_cons {A} (x : A) l a b : before (x :: l) a b ↔ x = a ∧ b ∈ l ∨ before l a b.
Proof.
  split.
  - intros ([|y l1] & l2 & l3 & Heq); cbn in Heq; simplify_eq.
    + left. split; [done |]. elems.
    + right. by exists l1, l2, l3.
  - intros [[-> Hb]|(l1 & l2 & l3 & ->)].
    + apply list_elem_of_split in Hb as (l2 & l3 & ->). by exists [], l2, l3.
    + by exists (x :: l1), l2, l3.
Qed.

Lemma before_app {A} (l k : list A) a b :
  before (l ++ k) a b ↔ before l a b ∨ before k a b ∨ a ∈ l ∧ b ∈ k.
Proof.
  induction l as [|x l IH]; cbn [app].
  - split; [tauto |]. intros [(l1 & l2 & l3 & Heq)|[?|[Ha _]]]; [| done |].
    + by destruct l1.
    + by apply elem_of_nil in Ha.
  - rewrite !before_cons, IH, elem_of_app, elem_of_cons. intuition congruence.
Qed.

Lemma before_total {A} (l : list A) a b :
  a ∈ l → b ∈ l → a ≠ b → before l a b ∨ before l b a.
Proof.
  induction l as [|x l IH]; [by intros ?%elem_of_nil |].
  rewrite !before_cons, !elem_of_cons. intros [->|Ha] [->|Hb] Hne; try done; [tauto | tauto |].
  destruct (IH Ha Hb Hne); tauto.
Qed.

Lemma before_sorted {A} (R : relation A) (l : list A) a b :
  StronglySorted R l → before l a b → R a b.
Proof.
  induction 1 as [|x l Hs IH Hx]; [by intros ([] & ? & ? & ?) |].
  rewrite before_cons. intros [[-> Hb]|Hb]; [| by apply IH]. rewrite Forall_forall in Hx. by apply Hx.
Qed.

Lemma before_NoDup {A} (l : list A) a b : NoDup l → before l a b → ¬ before l b a.
Proof.
  induction 1 as [|x l Hx Hnd IH]; [by intros ([] & ? & ? & ?) |].
  rewrite !before_cons. intros [[-> Hb]|Hb] [[-> Ha]|Ha].
  - done.
  - by apply Hx, (before_elem _ _ _ Ha).
  - by apply Hx, (before_elem _ _ _ Hb).
  - by apply IH.
Qed.

(** Two elements of a concatenation are in one list or in two. *)
Lemma before_concat {A} (ls : list (list A)) a b :
  before (concat ls) a b →
  (∃ l, l ∈ ls ∧ before l a b) ∨
  (∃ pre l post, ls = pre ++ l :: post ∧ a ∈ l ∧ b ∈ concat post).
Proof.
  induction ls as [|l ls IH]; cbn; [by intros ([] & ? & ? & ?) |].
  rewrite before_app. intros [Hb|[Hb|[Ha Hb]]].
  - left. exists l. by split; [left |].
  - destruct (IH Hb) as [(k & Hk & ?)|(pre & k & post & -> & ? & ?)].
    + left. exists k. by split; [right |].
    + right. by exists (l :: pre), k, post.
  - right. by exists [], l, ls.
Qed.
