(* ===== verification/RaftTypes.v ===== *)
(** * Data model of [cs-consensus]

    The types of [crates/cs-consensus/src/lib.rs] and [src/raft.rs]:
    replica identities, the replicated state machine interface, the log
    entries, membership configurations, RPC messages and the small records
    a [RaftNode] keeps.

    A [u64] that only counts events (a term, an index, a heartbeat counter)
    is an [N]: each event adds one to it, so no run of fewer than [2^64] events
    wraps one.  Arithmetic that does wrap (the timer PRNG) is written out at
    its width in [RaftNode]. *)

From stdpp Require Import base numbers gmap sorting list.
From Stdlib Require Import Strings.Byte.
From S2P Require Import Prelude.

Local Open Scope N_scope.

(** [struct ReplicaId(pub u64)]. *)
Notation ReplicaId := N (only parsing).
Notation Term := N (only parsing).
Notation Index := N (only parsing).
Notation bytes := (list byte) (only parsing).

(** [n as u8]. *)
Definition byte_of (n : N) : byte := default x00 (Byte.of_N (n mod 256)).

Lemma byte_of_spec n : Byte.to_N (byte_of n) = n mod 256.
Proof.
  unfold byte_of. destruct (Byte.of_N (n mod 256)) as [b|] eqn:Hb.
  - by apply Byte.to_of_N in Hb.
  - apply Byte.of_N_None_iff in Hb. pose proof (N.mod_upper_bound n 256). lia.
Qed.

(** [trait StateMachine]: supplied by the embedding program, hence a
    parameter of everything below.  [apply] mutates [&mut self], so it
    returns the new state beside its result. *)
Class StateMachine (SM : Type) := {
  sm_apply : SM → bytes → SM * bytes;
  sm_query : SM → bytes → bytes;
  sm_snapshot : SM → bytes;
  sm_restore : SM → bytes → SM;
}.

(** What [trait StateMachine] documents of [snapshot] and [restore]: "replace
    the state with a snapshot produced by [snapshot]". *)
Class SnapshotRestores (SM : Type) `{StateMachine SM} :=
  snapshot_restores : ∀ s s' : SM, sm_restore s' (sm_snapshot s) = s.

(** [enum ConfState]. *)
Inductive ConfState :=
  | Simple (v : list ReplicaId)
  | Joint (old new : list ReplicaId).

(** [enum EntryPayload]. *)
Inductive EntryPayload :=
  | Command (c : bytes)
  | Noop
  | PConfig (c : ConfState).

(** [struct Entry]. *)
Record Entry := MkEntry {
  e_term : Term;
  e_index : Index;
  e_payload : EntryPayload;
}.

(** [enum Message]: the Raft RPCs. *)
Inductive Message :=
  | RequestVote (term : Term) (candidate : ReplicaId)
      (last_log_index : Index) (last_log_term : Term)
  | RequestVoteResp (term : Term) (granted : bool)
  | AppendEntries (term : Term) (leader : ReplicaId)
      (prev_log_index : Index) (prev_log_term : Term)
      (entries : list Entry) (leader_commit : Index) (read_seq : N)
  | AppendEntriesResp (term : Term) (success : bool)
      (match_index conflict_index : Index) (read_seq : N)
  | InstallSnapshot (term : Term) (leader : ReplicaId)
      (last_included_index : Index) (last_included_term : Term)
      (last_included_config : ConfState) (data : bytes) (read_seq : N).

(** [enum Role]. *)
Inductive Role := Follower | Candidate | Leader.

(** [enum ReadResult]. *)
Inductive ReadResult :=
  | ReadValue (v : bytes)
  | NotLeader.

(** [struct PendingRead]. *)
Record PendingRead := MkPendingRead {
  pr_req_id : N;
  pr_query : bytes;
  pr_read_index : Index;
  pr_min_seq : N;
}.

(** [struct Config]. *)
Record Config := MkConfig {
  election_timeout_min : N;
  election_timeout_max : N;
  heartbeat_interval : N;
  snapshot_threshold : N;
}.

(** [impl Default for Config]. *)
Definition Config_default : Config := MkConfig 5 10 1 0.

(** [struct Applied]. *)
Record Applied := MkApplied {
  ap_index : Index;
  ap_command : bytes;
  ap_result : bytes;
}.

(** [type Out = (ReplicaId, Message)]. *)
Notation Out := (ReplicaId * Message)%type (only parsing).

(** ** Decidable equality *)

#[export] Instance byte_eq_dec : EqDecision byte := Byte.byte_eq_dec.

#[export] Instance byte_countable : Countable byte.
Proof.
  apply (inj_countable Byte.to_N Byte.of_N). apply Byte.of_to_N.
Defined.

#[export] Instance ConfState_eq_dec : EqDecision ConfState.
Proof. solve_decision. Defined.

#[export] Instance EntryPayload_eq_dec : EqDecision EntryPayload.
Proof. solve_decision. Defined.

#[export] Instance Entry_eq_dec : EqDecision Entry.
Proof. solve_decision. Defined.

#[export] Instance Message_eq_dec : EqDecision Message.
Proof. solve_decision. Defined.

#[export] Instance Role_eq_dec : EqDecision Role.
Proof. solve_decision. Defined.

#[export] Instance ReadResult_eq_dec : EqDecision ReadResult.
Proof. solve_decision. Defined.

(** ** Membership configurations *)

(** [ConfState::sorted]: [sort_unstable] followed by [dedup]. *)
Definition sorted (v : list ReplicaId) : list ReplicaId :=
  dedup (merge_sort N.le v).

(** [ConfState::voters]. *)
Definition voters (c : ConfState) : list ReplicaId :=
  match c with
  | Simple v => v
  | Joint old new => sorted (old ++ new)
  end.

(** The closure [maj] of [ConfState::is_quorum]. *)
Definition maj (acked : gset ReplicaId) (set : list ReplicaId) : bool :=
  bool_decide (length set / 2 < length (filter (.∈ acked) set))%nat.

(** [ConfState::is_quorum]. *)
Definition conf_is_quorum (c : ConfState) (acked : gset ReplicaId) : bool :=
  match c with
  | Simple v => maj acked v
  | Joint old new => maj acked old && maj acked new
  end.

(** [matches!(payload, EntryPayload::Config(_))]. *)
Definition is_config (p : EntryPayload) : bool :=
  match p with PConfig _ => true | _ => false end.
