(* ===== verification/RaftStore.v ===== *)
(** * The Raft log store

    [crates/cs-consensus/src/store.rs]: the persistence interface
    [RaftLogStore] the Raft core is generic over, the in-memory
    [MemLogStore], and the contract [LawfulStore] that the protocol proofs
    use.  The contract gives every store an abstract live log and says how
    each operation reads or changes it; [MemLogStore] is shown to satisfy
    it. *)

From stdpp Require Import base numbers gmap list.
From S2P Require Import Prelude RaftTypes.

Local Open Scope N_scope.
Local Open Scope crab_scope.

(** [struct HardState]. *)
Record HardState := MkHardState {
  hs_term : Term;
  hs_voted_for : option ReplicaId;
  hs_commit_index : Index;
}.

(** [struct SnapshotMeta]. *)
Record SnapshotMeta := MkSnapshotMeta {
  sn_last_included_index : Index;
  sn_last_included_term : Term;
  sn_data : bytes;
}.

(** [trait RaftLogStore]. *)
Class RaftLogStore (S : Type) := {
  append : S → list Entry → S;
  entries : S → Index → Index → list Entry;
  entry_term : S → Index → option Term;
  entry : S → Index → option Entry;
  last_index : S → Index;
  last_term : S → Term;
  truncate_suffix : S → Index → S;
  save_hard_state : S → HardState → S;
  load_hard_state : S → HardState;
  save_snapshot : S → SnapshotMeta → S;
  load_snapshot : S → option SnapshotMeta;
  base_index : S → Index;
  base_term : S → Term;
  snapshot_data : S → bytes;
}.

(** [struct MemLogStore]. *)
Record MemLogStore := MkMemLogStore {
  ms_log : list Entry;
  ms_base_index : Index;
  ms_base_term : Term;
  ms_snapshot_data : bytes;
  ms_hard_state : HardState;
  ms_has_snapshot : bool;
}.

#[export] Instance MemLogStore_eta : Eta MemLogStore := λ s,
  MkMemLogStore (ms_log s) (ms_base_index s) (ms_base_term s)
    (ms_snapshot_data s) (ms_hard_state s) (ms_has_snapshot s).

(** [MemLogStore::new], the derived [Default]. *)
Definition MemLogStore_new : MemLogStore :=
  MkMemLogStore [] 0 0 [] (MkHardState 0 None 0) false.

(** [MemLogStore::slot]. *)
Definition mem_slot (s : MemLogStore) (idx : Index) : option nat :=
  if decide (idx ≤ ms_base_index s) then None
  else
    let off := N.to_nat (idx - ms_base_index s - 1) in
    if decide (off < length (ms_log s))%nat then Some off else None.

Definition mem_append (s : MemLogStore) (es : list Entry) : MemLogStore :=
  s <| ms_log ::= (λ l, l ++ es) |>.

Definition mem_entries (s : MemLogStore) (lo hi : Index) : list Entry :=
  filter (λ e, lo ≤ e_index e ∧ e_index e ≤ hi ∧ ms_base_index s < e_index e)
    (ms_log s).

Definition mem_entry (s : MemLogStore) (idx : Index) : option Entry :=
  off ← mem_slot s idx; ms_log s !! off.

Definition mem_entry_term (s : MemLogStore) (idx : Index) : option Term :=
  off ← mem_slot s idx; e_term <$> ms_log s !! off.

Definition mem_last_index (s : MemLogStore) : Index :=
  from_option e_index (ms_base_index s) (last (ms_log s)).

Definition mem_last_term (s : MemLogStore) : Term :=
  from_option e_term (ms_base_term s) (last (ms_log s)).

Definition mem_truncate_suffix (s : MemLogStore) (from_idx : Index) : MemLogStore :=
  if decide (from_idx ≤ ms_base_index s) then s <| ms_log := [] |>
  else
    let keep := N.to_nat (from_idx - ms_base_index s - 1) in
    if decide (keep < length (ms_log s))%nat
    then s <| ms_log ::= take keep |> else s.

Definition mem_save_hard_state (s : MemLogStore) (hs : HardState) : MemLogStore :=
  s <| ms_hard_state := hs |>.

Definition mem_save_snapshot (s : MemLogStore) (meta : SnapshotMeta) : MemLogStore :=
  s <| ms_log ::= filter (λ e, sn_last_included_index meta < e_index e) |>
    <| ms_base_index := sn_last_included_index meta |>
    <| ms_base_term := sn_last_included_term meta |>
    <| ms_snapshot_data := sn_data meta |>
    <| ms_has_snapshot := true |>.

Definition mem_load_snapshot (s : MemLogStore) : option SnapshotMeta :=
  if ms_has_snapshot s
  then Some (MkSnapshotMeta (ms_base_index s) (ms_base_term s) (ms_snapshot_data s))
  else None.

(** [impl RaftLogStore for MemLogStore]. *)
#[export] Instance MemLogStore_store : RaftLogStore MemLogStore := {
  append := mem_append;
  entries := mem_entries;
  entry_term := mem_entry_term;
  entry := mem_entry;
  last_index := mem_last_index;
  last_term := mem_last_term;
  truncate_suffix := mem_truncate_suffix;
  save_hard_state := mem_save_hard_state;
  load_hard_state := ms_hard_state;
  save_snapshot := mem_save_snapshot;
  load_snapshot := mem_load_snapshot;
  base_index := ms_base_index;
  base_term := ms_base_term;
  snapshot_data := ms_snapshot_data;
}.

(** ** The contract *)

(** Entry [i] of a live log that starts after [base] has index [base+1+i]. *)
Definition contiguous (base : Index) (l : list Entry) : Prop :=
  ∀ i e, l !! i = Some e → e_index e = base + 1 + N.of_nat i.

(** Live entry at a 1-based index. *)
Definition log_at (base : Index) (l : list Entry) (idx : Index) : option Entry :=
  if decide (idx ≤ base) then None else l !! N.to_nat (idx - base - 1).

(** What the core may rely on: a well-formedness predicate kept by every
    operation, and an abstract live log in terms of which each operation is
    specified.  [append] asks for entries contiguous with the tail ("the
    core only ever appends at the tail"), [save_snapshot] for a boundary not
    below the current base. *)
Class LawfulStore (S : Type) `{RaftLogStore S} := {
  store_wf : S → Prop;
  live : S → list Entry;
  live_contiguous s : store_wf s → contiguous (base_index s) (live s);
  entries_spec s lo hi : store_wf s →
    entries s lo hi = filter (λ e, lo ≤ e_index e ∧ e_index e ≤ hi) (live s);
  entry_spec s i : store_wf s → entry s i = log_at (base_index s) (live s) i;
  entry_term_spec s i : store_wf s →
    entry_term s i = e_term <$> log_at (base_index s) (live s) i;
  last_index_spec s : store_wf s →
    last_index s = base_index s + N.of_nat (length (live s));
  last_term_spec s : store_wf s →
    last_term s = from_option e_term (base_term s) (last (live s));
  append_spec s es : store_wf s → contiguous (last_index s) es →
    let s' := append s es in
    store_wf s' ∧ live s' = live s ++ es ∧ base_index s' = base_index s ∧
    base_term s' = base_term s ∧ load_hard_state s' = load_hard_state s ∧
    load_snapshot s' = load_snapshot s ∧ snapshot_data s' = snapshot_data s;
  truncate_suffix_spec s i : store_wf s →
    let s' := truncate_suffix s i in
    store_wf s' ∧ live s' = take (N.to_nat (i - base_index s - 1)) (live s) ∧
    base_index s' = base_index s ∧ base_term s' = base_term s ∧
    load_hard_state s' = load_hard_state s ∧
    load_snapshot s' = load_snapshot s ∧ snapshot_data s' = snapshot_data s;
  save_hard_state_spec s hs : store_wf s →
    let s' := save_hard_state s hs in
    store_wf s' ∧ live s' = live s ∧ base_index s' = base_index s ∧
    base_term s' = base_term s ∧ load_hard_state s' = hs ∧
    load_snapshot s' = load_snapshot s ∧ snapshot_data s' = snapshot_data s;
  save_snapshot_spec s meta : store_wf s →
    base_index s ≤ sn_last_included_index meta →
    let s' := save_snapshot s meta in
    store_wf s' ∧
    live s' = drop (N.to_nat (sn_last_included_index meta - base_index s)) (live s) ∧
    base_index s' = sn_last_included_index meta ∧
    base_term s' = sn_last_included_term meta ∧
    load_hard_state s' = load_hard_state s ∧
    load_snapshot s' = Some meta ∧ snapshot_data s' = sn_data meta;
}.

(** ** Contiguous logs *)

Lemma contiguous_nil base : contiguous base [].
Proof. intros i e He. done. Qed.

Lemma contiguous_app base l k :
  contiguous base l → contiguous (base + N.of_nat (length l)) k →
  contiguous base (l ++ k).
Proof.
  intros Hl Hk i e [He | [Hi He]]%lookup_app_Some; [by apply Hl |].
  rewrite (Hk _ _ He). lia.
Qed.

Lemma contiguous_app_inv base l k :
  contiguous base (l ++ k) →
  contiguous base l ∧ contiguous (base + N.of_nat (length l)) k.
Proof.
  intros H. split; intros i e He.
  - apply H. by apply lookup_app_l_Some.
  - rewrite (H (length l + i)%nat e); [lia |].
    rewrite lookup_app_r by lia. by replace (length l + i - length l)%nat with i by lia.
Qed.

Lemma contiguous_take base l n : contiguous base l → contiguous base (take n l).
Proof. intros H. rewrite <-(take_drop n l) in H. by apply contiguous_app_inv in H as [? _]. Qed.

Lemma contiguous_drop base l n :
  (n ≤ length l)%nat → contiguous base l → contiguous (base + N.of_nat n) (drop n l).
Proof.
  intros Hn H i e He. rewrite lookup_drop in He. rewrite (H _ _ He). lia.
Qed.

Lemma contiguous_single base e : e_index e = base + 1 → contiguous base [e].
Proof. intros He [|i] e' ?; simplify_eq/=; lia. Qed.

(** In a contiguous log, filtering on the index is dropping a prefix. *)
Lemma contiguous_filter_gt base l i :
  contiguous base l →
  filter (λ e, i < e_index e) l = drop (N.to_nat (i - base)) l.
Proof.
  revert base. induction l as [|e l IH]; intros base Hc; [by rewrite drop_nil |].
  assert (e_index e = base + 1) as He by (rewrite (Hc 0%nat e); [lia | done]).
  assert (contiguous (base + 1) l) as Hl.
  { intros j e' Hj. rewrite (Hc (S j) e'); [lia | done]. }
  specialize (IH _ Hl). rewrite filter_cons. case_decide.
  - replace (N.to_nat (i - (base + 1))) with 0%nat in IH by lia.
    replace (N.to_nat (i - base)) with 0%nat by lia. by rewrite IH.
  - replace (N.to_nat (i - base)) with (S (N.to_nat (i - (base + 1)))) by lia. done.
Qed.

Lemma log_at_Some base l i e :
  contiguous base l → log_at base l i = Some e →
  e_index e = i ∧ base < i ∧ i ≤ base + N.of_nat (length l).
Proof.
  unfold log_at. case_decide; [done |]. intros Hc He.
  pose proof (Hc _ _ He). apply lookup_lt_Some in He. lia.
Qed.

Lemma log_at_is_Some base l i :
  base < i → i ≤ base + N.of_nat (length l) → is_Some (log_at base l i).
Proof. unfold log_at. intros. rewrite decide_False by lia. apply lookup_lt_is_Some. lia. Qed.

Lemma log_at_None base l i :
  log_at base l i = None ↔ i ≤ base ∨ base + N.of_nat (length l) < i.
Proof.
  unfold log_at. case_decide; [naive_solver lia |]. rewrite lookup_ge_None. lia.
Qed.

(** ** [MemLogStore] satisfies the contract *)

Lemma mem_slot_lookup s i :
  (off ← mem_slot s i; ms_log s !! off) = log_at (ms_base_index s) (ms_log s) i.
Proof.
  unfold mem_slot, log_at. case_decide; [done |]. cbn.
  case_decide as Hlt; [done |]. cbn. symmetry. apply lookup_ge_None. lia.
Qed.

Lemma mem_last_index_spec s :
  contiguous (ms_base_index s) (ms_log s) →
  mem_last_index s = ms_base_index s + N.of_nat (length (ms_log s)).
Proof.
  intros Hc. unfold mem_last_index. rewrite last_lookup.
  destruct (ms_log s !! pred (length (ms_log s))) as [e|] eqn:He; cbn.
  - rewrite (Hc _ _ He). apply lookup_lt_Some in He. lia.
  - apply lookup_ge_None in He. lia.
Qed.

Lemma mem_truncate_log s i :
  ms_log (mem_truncate_suffix s i) = take (N.to_nat (i - ms_base_index s - 1)) (ms_log s).
Proof.
  unfold mem_truncate_suffix. case_decide.
  - by replace (N.to_nat (i - ms_base_index s - 1)) with 0%nat by lia.
  - case_decide; [done |]. by rewrite take_ge by lia.
Qed.

Lemma mem_truncate_rest s i :
  let s' := mem_truncate_suffix s i in
  ms_base_index s' = ms_base_index s ∧ ms_base_term s' = ms_base_term s ∧
  ms_hard_state s' = ms_hard_state s ∧
  mem_load_snapshot s' = mem_load_snapshot s ∧
  ms_snapshot_data s' = ms_snapshot_data s.
Proof. unfold mem_truncate_suffix. repeat case_decide; done. Qed.

Lemma mem_save_snapshot_log s meta :
  contiguous (ms_base_index s) (ms_log s) →
  ms_log (mem_save_snapshot s meta) =
    drop (N.to_nat (sn_last_included_index meta - ms_base_index s)) (ms_log s).
Proof. intros Hc. cbn. by apply contiguous_filter_gt. Qed.

#[export] Program Instance MemLogStore_lawful : LawfulStore MemLogStore := {
  store_wf s := contiguous (ms_base_index s) (ms_log s);
  live := ms_log;
}.
Next Obligation. done. Qed.
Next Obligation.
  intros s lo hi Hc. cbn. unfold mem_entries.
  apply list_filter_ext_elem. intros e [i He]%list_elem_of_lookup.
  pose proof (Hc _ _ He). lia.
Qed.
Next Obligation. intros s i _. apply mem_slot_lookup. Qed.
Next Obligation.
  intros s i _. cbn. rewrite <-mem_slot_lookup. unfold mem_entry_term.
  by destruct (mem_slot s i).
Qed.
Next Obligation. intros s Hc. by apply mem_last_index_spec. Qed.
Next Obligation. done. Qed.
Next Obligation.
  intros s es Hc Hes. cbn. split_and!; try done.
  apply (contiguous_app (ms_base_index s)); [done |].
  change (last_index s) with (mem_last_index s) in Hes.
  by rewrite mem_last_index_spec in Hes.
Qed.
Next Obligation.
  intros s i Hc. cbn. destruct (mem_truncate_rest s i) as (Hb & ? & ? & ? & ?).
  split_and!; try done; [|apply mem_truncate_log].
  rewrite Hb, mem_truncate_log. by apply contiguous_take.
Qed.
Next Obligation. done. Qed.
Next Obligation.
  intros s meta Hc Hle. cbn. pose proof (mem_save_snapshot_log s meta Hc) as Hlog.
  split_and!; try done; [|by destruct meta].
  rewrite Hlog. intros i e. rewrite lookup_drop. intros He.
  rewrite (Hc _ _ He). unfold mem_save_snapshot. fields_goal. cbn in Hle. lia.
Qed.
