(* ===== verification/RaftNode.v ===== *)
(** * The Raft replica

    [crates/cs-consensus/src/raft.rs]: [RaftNode] and every operation of it,
    as functions that take the node and return the node together with what
    the Rust method returns.  The node is generic over its state machine
    [SM] and its log store [S], as in the source. *)

From stdpp Require Import base numbers gmap sorting list.
From S2P Require Import Prelude RaftTypes RaftStore.

Local Open Scope N_scope.
Local Open Scope crab_scope.

(** [struct RaftNode<SM, S>]. *)
Record RaftNode (SM S : Type) := MkRaftNode {
  rn_id : ReplicaId;
  rn_config : ConfState;
  rn_base_config : ConfState;
  rn_cfg : Config;
  rn_current_term : Term;
  rn_voted_for : option ReplicaId;
  rn_store : S;
  rn_role : Role;
  rn_leader_id : option ReplicaId;
  rn_commit_index : Index;
  rn_last_applied : Index;
  rn_applied_outbox : list Applied;
  rn_votes : gset ReplicaId;
  rn_next_index : gmap ReplicaId Index;
  rn_match_index : gmap ReplicaId Index;
  rn_read_seq : N;
  rn_acked_seq : gmap ReplicaId N;
  rn_pending_reads : list PendingRead;
  rn_ready_reads : list (N * ReadResult);
  rn_election_elapsed : N;
  rn_heartbeat_elapsed : N;
  rn_election_timeout : N;
  rn_rng : N;
  rn_sm : SM;
}.

Arguments MkRaftNode {SM S}.
Arguments rn_id {SM S}.
Arguments rn_config {SM S}.
Arguments rn_base_config {SM S}.
Arguments rn_cfg {SM S}.
Arguments rn_current_term {SM S}.
Arguments rn_voted_for {SM S}.
Arguments rn_store {SM S}.
Arguments rn_role {SM S}.
Arguments rn_leader_id {SM S}.
Arguments rn_commit_index {SM S}.
Arguments rn_last_applied {SM S}.
Arguments rn_applied_outbox {SM S}.
Arguments rn_votes {SM S}.
Arguments rn_next_index {SM S}.
Arguments rn_match_index {SM S}.
Arguments rn_read_seq {SM S}.
Arguments rn_acked_seq {SM S}.
Arguments rn_pending_reads {SM S}.
Arguments rn_ready_reads {SM S}.
Arguments rn_election_elapsed {SM S}.
Arguments rn_heartbeat_elapsed {SM S}.
Arguments rn_election_timeout {SM S}.
Arguments rn_rng {SM S}.
Arguments rn_sm {SM S}.

#[export] Instance RaftNode_eta {SM S} : Eta (RaftNode SM S) := λ n,
  MkRaftNode (rn_id n) (rn_config n) (rn_base_config n) (rn_cfg n)
    (rn_current_term n) (rn_voted_for n) (rn_store n) (rn_role n)
    (rn_leader_id n) (rn_commit_index n) (rn_last_applied n)
    (rn_applied_outbox n) (rn_votes n) (rn_next_index n) (rn_match_index n)
    (rn_read_seq n) (rn_acked_seq n) (rn_pending_reads n) (rn_ready_reads n)
    (rn_election_elapsed n) (rn_heartbeat_elapsed n) (rn_election_timeout n)
    (rn_rng n) (rn_sm n).

(** One step of the xorshift64 generator of [next_rand]: [u64] shifts drop
    the bits shifted out. *)
Definition xorshift64 (x : N) : N :=
  let x := N.lxor x (wrap64 (N.shiftl x 13)) in
  let x := N.lxor x (N.shiftr x 7) in
  N.lxor x (wrap64 (N.shiftl x 17)).

Arguments xorshift64 : simpl never.

Section node.
Context {SM S : Type} `{StateMachine SM} `{RaftLogStore S}.

Notation node := (RaftNode SM S).

(** ** Log helpers *)

Definition live_entries (n : node) : list Entry :=
  let base := base_index (rn_store n) in
  entries (rn_store n) (base + 1) (last_index (rn_store n)).

Definition last_log_index (n : node) : Index := last_index (rn_store n).

Definition last_log_term (n : node) : Term := last_term (rn_store n).

Definition term_at (n : node) (index : Index) : option Term :=
  if decide (index = 0) then Some 0
  else
    let base := base_index (rn_store n) in
    if decide (index = base) then Some (base_term (rn_store n))
    else if decide (index < base) then None
    else entry_term (rn_store n) index.

Definition entry_at (n : node) (index : Index) : option Entry :=
  if decide (index ≤ base_index (rn_store n)) then None
  else entry (rn_store n) index.

Definition peers (n : node) : list ReplicaId :=
  filter (λ v, v ≠ rn_id n) (voters (rn_config n)).

Definition is_quorum (n : node) (acked : gset ReplicaId) : bool :=
  conf_is_quorum (rn_config n) acked.

(** ** Membership tracking *)

Definition last_config_index (n : node) : option Index :=
  e_index <$> find_last (λ e, is_config (e_payload e)) (live_entries n).

Definition payload_config (e : Entry) : option ConfState :=
  match e_payload e with PConfig c => Some c | _ => None end.

Definition config_at (n : node) (index : Index) : ConfState :=
  default (rn_base_config n)
    (find_last (λ e, bool_decide (e_index e ≤ index) && is_config (e_payload e))
       (live_entries n) ≫= payload_config).

Definition recompute_config (n : node) : node :=
  n <| rn_config :=
    default (rn_base_config n) (head (omap payload_config (reverse (live_entries n)))) |>.

(** ** Hard state and timers *)

Definition persist_hard_state (n : node) : node :=
  n <| rn_store ::= λ s,
    save_hard_state s
      (MkHardState (rn_current_term n) (rn_voted_for n) (rn_commit_index n)) |>.

Definition next_rand (n : node) : N * node :=
  let x := xorshift64 (rn_rng n) in (x, n <| rn_rng := x |>).

(** The [u32] arithmetic wraps as in a release build; it is exact for a
    configuration with [election_timeout_min <= election_timeout_max]. *)
Definition reset_election_timer (n : node) : node :=
  let span := wrap32 (2 ^ 32 + election_timeout_max (rn_cfg n)
                      - election_timeout_min (rn_cfg n) + 1) in
  let '(x, n) := next_rand n in
  let r := wrap32 (x mod span) in
  n <| rn_election_timeout := wrap32 (election_timeout_min (rn_cfg n) + r) |>
    <| rn_election_elapsed := 0 |>.

(** ** Construction and recovery *)

Definition new_with_store (id : ReplicaId) (vs : list ReplicaId) (cfg : Config)
    (sm : SM) (store : S) : node :=
  let initial := Simple (sorted vs) in
  reset_election_timer
    (MkRaftNode id initial initial cfg 0 None store Follower None 0 0 [] ∅ ∅ ∅
       0 ∅ [] [] 0 0 0 (N.lor (wrap64 (id * 0x9E3779B97F4A7C15)) 1) sm).

(** ** Reads *)

(** The closure [eff] of [confirmed_read_seq]. *)
Definition eff_read_seq (n : node) (v : ReplicaId) : N :=
  if decide (v = rn_id n) then rn_read_seq n
  else default 0 (rn_acked_seq n !! v).

Definition confirmed_read_seq (n : node) : N :=
  let vs := voters (rn_config n) in
  let cands := dedup (merge_sort desc (eff_read_seq n <$> vs)) in
  default 0
    (List.find
       (λ s, conf_is_quorum (rn_config n)
               (list_to_set (filter (λ v, s ≤ eff_read_seq n v) vs)))
       cands).

Definition read_servable (confirmed : N) (applied : Index) (pr : PendingRead) : bool :=
  bool_decide (pr_min_seq pr ≤ confirmed) && bool_decide (pr_read_index pr ≤ applied).

Definition serve_reads (n : node) : node :=
  match rn_role n with
  | Leader =>
      let confirmed := confirmed_read_seq n in
      let applied := rn_last_applied n in
      let ready := filter (λ pr, read_servable confirmed applied pr) (rn_pending_reads n) in
      n <| rn_ready_reads ::= λ rs,
             rs ++ ((λ pr, (pr_req_id pr, ReadValue (sm_query (rn_sm n) (pr_query pr)))) <$> ready) |>
        <| rn_pending_reads ::=
             filter (λ pr, ¬ read_servable confirmed applied pr) |>
  | _ => n
  end.

(** ** Compaction *)

(** [compact].  [term_at(new_base).expect(..)] panics when the last applied
    entry is neither the base nor in the live log; [compact_panics] is that
    condition, and under it the definition leaves the node as it is. *)
Definition compact_panics (n : node) : bool :=
  bool_decide (base_index (rn_store n) < rn_last_applied n) &&
  bool_decide (term_at n (rn_last_applied n) = None).

Definition compact (n : node) : node :=
  if decide (rn_last_applied n ≤ base_index (rn_store n)) then n
  else
    let new_base := rn_last_applied n in
    match term_at n new_base with
    | None => n
    | Some new_base_term =>
        let new_base_config := config_at n new_base in
        let data := sm_snapshot (rn_sm n) in
        recompute_config
          (n <| rn_store ::= λ s,
                  save_snapshot s (MkSnapshotMeta new_base new_base_term data) |>
             <| rn_base_config := new_base_config |>)
    end.

Definition maybe_compact (n : node) : node :=
  let thr := snapshot_threshold (rn_cfg n) in
  if decide (0 < thr ∧ thr ≤ rn_last_applied n - base_index (rn_store n))
  then compact n else n.

(** ** Applying committed entries *)

(** The body of the [while] loop of [apply_committed], for the entry at
    [idx]. *)
Definition apply_entry (n : node) (idx : Index) : node :=
  match entry_at n idx with
  | Some e =>
      match e_payload e with
      | Command cmd =>
          let '(sm', result) := sm_apply (rn_sm n) cmd in
          n <| rn_sm := sm' |>
            <| rn_applied_outbox ::= λ o, o ++ [MkApplied idx cmd result] |>
      | Noop | PConfig _ =>
          n <| rn_applied_outbox ::= λ o, o ++ [MkApplied idx [] []] |>
      end
  | None => n
  end.

Fixpoint apply_loop (fuel : nat) (n : node) : node :=
  match fuel with
  | O => n
  | Datatypes.S fuel =>
      if decide (rn_last_applied n < rn_commit_index n) then
        let idx := rn_last_applied n + 1 in
        apply_loop fuel (apply_entry (n <| rn_last_applied := idx |>) idx)
      else n
  end.

(** Each iteration advances [last_applied] by one towards [commit_index],
    which the loop does not change: their distance is enough fuel. *)
Definition apply_committed (n : node) : node :=
  let n := apply_loop (N.to_nat (rn_commit_index n - rn_last_applied n)) n in
  maybe_compact (serve_reads n).

(** [restore_from]. *)
Definition restore_from (id : ReplicaId) (vs : list ReplicaId) (cfg : Config)
    (sm : SM) (store : S) : node :=
  let n := new_with_store id vs cfg sm store in
  let hs := load_hard_state (rn_store n) in
  let n := n <| rn_current_term := hs_term hs |>
             <| rn_voted_for := hs_voted_for hs |> in
  let n :=
    match load_snapshot (rn_store n) with
    | Some snap =>
        n <| rn_sm ::= λ sm, sm_restore sm (sn_data snap) |>
          <| rn_last_applied := sn_last_included_index snap |>
    | None => n
    end in
  let n := n <| rn_base_config := config_at n (base_index (rn_store n)) |> in
  let n := n <| rn_commit_index := N.max (hs_commit_index hs) (base_index (rn_store n)) |>
             <| rn_last_applied ::= λ a, N.max a (base_index (rn_store n)) |> in
  apply_committed (recompute_config n).

(** ** Role transitions and log mutation *)

Definition become_follower (term : Term) (leader : option ReplicaId) (n : node) : node :=
  let term_changed := bool_decide (term ≠ rn_current_term n) in
  let n := n <| rn_role := Follower |>
             <| rn_current_term := term |>
             <| rn_leader_id := leader |> in
  let n := if term_changed then n <| rn_voted_for := None |> else n in
  let n := n <| rn_votes := ∅ |>
             <| rn_ready_reads ::= λ rs,
                  rs ++ ((λ pr, (pr_req_id pr, NotLeader)) <$> rn_pending_reads n) |>
             <| rn_pending_reads := [] |>
             <| rn_acked_seq := ∅ |> in
  let n := reset_election_timer n in
  if term_changed then persist_hard_state n else n.

Definition append_local (payload : EntryPayload) (n : node) : Index * node :=
  let index := last_log_index n + 1 in
  let n := n <| rn_store ::= λ s, append s [MkEntry (rn_current_term n) index payload] |>
             <| rn_match_index ::= λ m, alter (λ _, index) (rn_id n) m |> in
  (index, if is_config payload then recompute_config n else n).

Definition append_for (n : node) (peer : ReplicaId) : Message :=
  let next := default 1 (rn_next_index n !! peer) in
  if decide (next ≤ base_index (rn_store n)) then
    InstallSnapshot (rn_current_term n) (rn_id n) (base_index (rn_store n))
      (base_term (rn_store n)) (rn_base_config n) (snapshot_data (rn_store n))
      (rn_read_seq n)
  else
    let prev_log_index := next - 1 in
    AppendEntries (rn_current_term n) (rn_id n) prev_log_index
      (default 0 (term_at n prev_log_index))
      (entries (rn_store n) next (last_index (rn_store n)))
      (rn_commit_index n) (rn_read_seq n).

Definition broadcast_append (n : node) : node * list Out :=
  let n := n <| rn_read_seq ::= λ s, s + 1 |> in
  (n, (λ p, (p, append_for n p)) <$> peers n).

(** [finalize_joint_if_committed]. *)
Definition finalize_joint_if_committed (n : node) : node :=
  match rn_role n, rn_config n with
  | Leader, Joint _ new =>
      match last_config_index n with
      | Some joint_idx =>
          if decide (joint_idx ≤ rn_commit_index n)
          then (append_local (PConfig (Simple new)) n).2 else n
      | None => n
      end
  | _, _ => n
  end.

(** The [acked] set of one iteration of [maybe_advance_commit]. *)
Definition commit_acked (n : node) (idx : Index) : gset ReplicaId :=
  {[ rn_id n ]} ∪
  list_to_set (filter (λ p, idx ≤ default 0 (rn_match_index n !! p)) (peers n)).

Definition advance_one (n : node) (idx : Index) : node :=
  if decide (term_at n idx = Some (rn_current_term n)) then
    if is_quorum n (commit_acked n idx) then n <| rn_commit_index := idx |> else n
  else n.

Definition maybe_advance_commit (n : node) : node :=
  match rn_role n with
  | Leader =>
      let n' := foldl advance_one n
                  (range_incl (rn_commit_index n + 1) (last_log_index n)) in
      if decide (rn_commit_index n' = rn_commit_index n) then n'
      else finalize_joint_if_committed (apply_committed (persist_hard_state n'))
  | _ => n
  end.

Definition become_leader (n : node) : node * list Out :=
  let n := n <| rn_role := Leader |>
             <| rn_leader_id := Some (rn_id n) |>
             <| rn_heartbeat_elapsed := 0 |> in
  let next := last_log_index n + 1 in
  let n := n <| rn_next_index := list_to_map ((λ p, (p, next)) <$> peers n) |>
             <| rn_match_index := list_to_map ((λ p, (p, 0)) <$> peers n) |> in
  let n := (append_local Noop n).2 in
  broadcast_append (maybe_advance_commit n).

Definition start_election (n : node) : node * list Out :=
  let n := n <| rn_role := Candidate |>
             <| rn_current_term ::= λ t, t + 1 |>
             <| rn_voted_for := Some (rn_id n) |>
             <| rn_leader_id := None |>
             <| rn_votes := {[ rn_id n ]} |> in
  let n := persist_hard_state (reset_election_timer n) in
  if is_quorum n (rn_votes n) then become_leader n
  else
    let msg := RequestVote (rn_current_term n) (rn_id n) (last_log_index n) (last_log_term n) in
    (n, (λ p, (p, msg)) <$> peers n).

(** ** Message handlers *)

Definition log_ok (n : node) (cand_last_index : Index) (cand_last_term : Term) : bool :=
  bool_decide (last_log_term n < cand_last_term) ||
  (bool_decide (cand_last_term = last_log_term n) &&
   bool_decide (last_log_index n ≤ cand_last_index)).

Definition can_vote (n : node) (candidate : ReplicaId) : bool :=
  match rn_voted_for n with
  | None => true
  | Some v => bool_decide (v = candidate)
  end.

Definition handle_request_vote (term : Term) (candidate : ReplicaId)
    (cand_last_index : Index) (cand_last_term : Term) (n : node) : node * list Out :=
  let n := if decide (rn_current_term n < term) then become_follower term None n else n in
  let '(n, granted) :=
    if decide (term = rn_current_term n) then
      if log_ok n cand_last_index cand_last_term && can_vote n candidate then
        (persist_hard_state
           (reset_election_timer (n <| rn_voted_for := Some candidate |>)), true)
      else (n, false)
    else (n, false) in
  (n, [(candidate, RequestVoteResp (rn_current_term n) granted)]).

Definition handle_request_vote_resp (from : ReplicaId) (term : Term) (granted : bool)
    (n : node) : node * list Out :=
  if decide (rn_current_term n < term) then (become_follower term None n, [])
  else if decide (rn_role n ≠ Candidate ∨ term ≠ rn_current_term n) then (n, [])
  else if granted then
    let n := n <| rn_votes ::= λ vs, {[ from ]} ∪ vs |> in
    if is_quorum n (rn_votes n) then become_leader n else (n, [])
  else (n, []).

(** One iteration of the splice loop of [handle_append_entries]. *)
Definition splice_one (n : node) (e : Entry) : node :=
  if decide (e_index e ≤ base_index (rn_store n)) then n
  else
    match term_at n (e_index e) with
    | Some t =>
        if decide (t = e_term e) then n
        else n <| rn_store ::= λ s, append (truncate_suffix s (e_index e)) [e] |>
    | None => n <| rn_store ::= λ s, append s [e] |>
    end.

Definition prev_ok (n : node) (prev_log_index : Index) (prev_log_term : Term) : bool :=
  match term_at n prev_log_index with
  | Some t => bool_decide (t = prev_log_term)
  | None => false
  end.

Definition handle_append_entries (term : Term) (leader : ReplicaId)
    (prev_log_index : Index) (prev_log_term : Term) (es : list Entry)
    (leader_commit : Index) (read_seq : N) (n : node) : node * list Out :=
  if decide (term < rn_current_term n) then
    (n, [(leader, AppendEntriesResp (rn_current_term n) false 0 0 read_seq)])
  else
    let n := become_follower term (Some leader) n in
    if prev_ok n prev_log_index prev_log_term then
      let match_index := prev_log_index + N.of_nat (length es) in
      let n := recompute_config (foldl splice_one n es) in
      let n :=
        if decide (rn_commit_index n < leader_commit) then
          apply_committed
            (persist_hard_state
               (n <| rn_commit_index := N.min leader_commit (last_log_index n) |>))
        else n in
      (n, [(leader, AppendEntriesResp (rn_current_term n) true match_index 0 read_seq)])
    else
      let conflict_index :=
        if decide (last_log_index n < prev_log_index)
        then last_log_index n + 1 else prev_log_index in
      (n, [(leader, AppendEntriesResp (rn_current_term n) false 0 conflict_index read_seq)]).

Definition handle_install_snapshot (term : Term) (leader : ReplicaId)
    (last_included_index : Index) (last_included_term : Term)
    (last_included_config : ConfState) (data : bytes) (read_seq : N)
    (n : node) : node * list Out :=
  let ack (n : node) (success : bool) (match_index : Index) :=
    [(leader, AppendEntriesResp (rn_current_term n) success match_index 0 read_seq)] in
  if decide (term < rn_current_term n) then (n, ack n false 0)
  else
    let n := become_follower term (Some leader) n in
    if decide (last_included_index ≤ base_index (rn_store n)) then
      (n, ack n true (last_log_index n))
    else
      let n :=
        if decide (term_at n last_included_index ≠ Some last_included_term) then
          n <| rn_store ::= λ s, truncate_suffix s (base_index s + 1) |>
        else n in
      let n := n <| rn_sm ::= λ sm, sm_restore sm data |>
                 <| rn_store ::= λ s, save_snapshot s
                      (MkSnapshotMeta last_included_index last_included_term data) |>
                 <| rn_base_config := last_included_config |>
                 <| rn_commit_index ::= N.max last_included_index |>
                 <| rn_last_applied ::= N.max last_included_index |> in
      let n := recompute_config (persist_hard_state n) in
      (n, ack n true last_included_index).

Definition handle_append_entries_resp (from : ReplicaId) (term : Term) (success : bool)
    (match_index conflict_index : Index) (read_seq : N) (n : node) : node * list Out :=
  if decide (rn_current_term n < term) then (become_follower term None n, [])
  else if decide (rn_role n ≠ Leader ∨ term ≠ rn_current_term n) then (n, [])
  else
    let prev := default 0 (rn_acked_seq n !! from) in
    let n := n <| rn_acked_seq ::= <[from := N.max read_seq prev]> |> in
    if success then
      let n := n <| rn_match_index ::= <[from := match_index]> |>
                 <| rn_next_index ::= <[from := match_index + 1]> |> in
      (serve_reads (maybe_advance_commit n), [])
    else
      let ni := default 1 (rn_next_index n !! from) in
      let backed :=
        if decide (0 < conflict_index)
        then N.max (N.min conflict_index (ni - 1)) 1
        else N.max (ni - 1) 1 in
      let n := serve_reads (n <| rn_next_index ::= <[from := backed]> |>) in
      (n, [(from, append_for n from)]).

(** ** The driving API *)

Definition on_tick (n : node) : node * list Out :=
  match rn_role n with
  | Leader =>
      let n := n <| rn_heartbeat_elapsed ::= λ t, t + 1 |> in
      if decide (heartbeat_interval (rn_cfg n) ≤ rn_heartbeat_elapsed n)
      then broadcast_append (n <| rn_heartbeat_elapsed := 0 |>)
      else (n, [])
  | Follower | Candidate =>
      if decide (rn_id n ∈ voters (rn_config n)) then
        let n := n <| rn_election_elapsed ::= λ t, t + 1 |> in
        if decide (rn_election_timeout n ≤ rn_election_elapsed n)
        then start_election n else (n, [])
      else (n, [])
  end.

Definition propose (command : bytes) (n : node) : option Index * node * list Out :=
  match rn_role n with
  | Leader =>
      let '(index, n) := append_local (Command command) n in
      let '(n, outs) := broadcast_append n in
      (Some index, maybe_advance_commit n, outs)
  | _ => (None, n, [])
  end.

Definition propose_conf (new_voters : list ReplicaId) (n : node) : bool * node * list Out :=
  match rn_role n, rn_config n with
  | Leader, Simple old =>
      let n := (append_local (PConfig (Joint old (sorted new_voters))) n).2 in
      let '(n, outs) := broadcast_append n in (true, n, outs)
  | _, _ => (false, n, [])
  end.

Definition in_joint_config (n : node) : bool :=
  match rn_config n with Joint _ _ => true | Simple _ => false end.

Definition read (req_id : N) (query : bytes) (n : node) : node * list Out :=
  match rn_role n with
  | Leader =>
      let '(n, outs) := broadcast_append n in
      let pr := MkPendingRead req_id query (rn_commit_index n) (rn_read_seq n) in
      (serve_reads (n <| rn_pending_reads ::= λ ps, ps ++ [pr] |>), outs)
  | _ => (n <| rn_ready_reads ::= λ rs, rs ++ [(req_id, NotLeader)] |>, [])
  end.

Definition take_ready_reads (n : node) : list (N * ReadResult) * node :=
  (rn_ready_reads n, n <| rn_ready_reads := [] |>).

Definition take_applied (n : node) : list Applied * node :=
  (rn_applied_outbox n, n <| rn_applied_outbox := [] |>).

Definition on_message (from : ReplicaId) (msg : Message) (n : node) : node * list Out :=
  match msg with
  | RequestVote term candidate last_log_index last_log_term =>
      handle_request_vote term candidate last_log_index last_log_term n
  | RequestVoteResp term granted => handle_request_vote_resp from term granted n
  | AppendEntries term leader prev_log_index prev_log_term es leader_commit read_seq =>
      handle_append_entries term leader prev_log_index prev_log_term es leader_commit read_seq n
  | AppendEntriesResp term success match_index conflict_index read_seq =>
      handle_append_entries_resp from term success match_index conflict_index read_seq n
  | InstallSnapshot term leader lii lit lic data read_seq =>
      handle_install_snapshot term leader lii lit lic data read_seq n
  end.

End node.
