(* ===== verification/RaftAbs.v ===== *)
(** * The Raft protocol, abstractly

    The specification the replicas of [RaftNode] are shown to implement for
    a fixed membership: a state per replica that keeps only what the safety
    argument talks about, a set of packets that were ever sent (any of which
    can be delivered at any time, any number of times, or never), and the
    atomic steps a handler is made of.  [RaftRefine] proves that every
    handler of [RaftNode] is a sequence of these steps. *)

From stdpp Require Import base numbers gmap sorting list.
From S2P Require Import Prelude RaftTypes RaftStore.

Local Open Scope N_scope.
Local Open Scope crab_scope.

(** ** Logs *)

Definition len (l : list Entry) : N := N.of_nat (length l).

(** Term of the last entry, [0] for the empty log. *)
Definition lastterm (l : list Entry) : Term := from_option e_term 0 (list.last l).

(** Term at a 1-based index; index [0] has term [0]. *)
Definition log_term (l : list Entry) (idx : Index) : option Term :=
  if decide (idx = 0) then Some 0 else e_term <$> l !! N.to_nat (idx - 1).

(** The election restriction: [lc] is at least as up to date as [lv]. *)
Definition uptodate (lc lv : list Entry) : Prop :=
  lastterm lv < lastterm lc ∨ (lastterm lc = lastterm lv ∧ (length lv ≤ length lc)%nat).

(** Taking one replicated entry: keep the log when it already holds an entry
    of that term there, else cut the conflicting suffix and take it. *)
Definition splice_log (l : list Entry) (e : Entry) : list Entry :=
  match log_term l (e_index e) with
  | Some t => if decide (t = e_term e) then l else take (N.to_nat (e_index e - 1)) l ++ [e]
  | None => l ++ [e]
  end.

(** ** Replicas and the network *)

Record view := MkView {
  v_term : Term;
  v_vote : option ReplicaId;
  v_role : Role;
  v_votes : gset ReplicaId;
  v_log : list Entry;
  v_commit : Index;
  v_match : gmap ReplicaId Index;
}.

#[export] Instance view_eta : Eta view := λ v,
  MkView (v_term v) (v_vote v) (v_role v) (v_votes v) (v_log v) (v_commit v) (v_match v).

(** [(from, to, message)]. *)
Notation packet := (ReplicaId * ReplicaId * Message)%type (only parsing).

Record anet := MkAnet {
  a_nodes : ReplicaId → view;
  a_sent : list packet;
}.

Definition upd (i : ReplicaId) (v : view) (σ : ReplicaId → view) : ReplicaId → view :=
  λ j, if decide (j = i) then v else σ j.

(** Packets no safety argument depends on: refusals, negative acks, and an
    [AppendEntries] whose predecessor lies beyond its sender's log. *)
Definition harmless (m : Message) : Prop :=
  match m with
  | RequestVoteResp _ granted => granted = false
  | AppendEntriesResp _ success _ _ _ => success = false
  | AppendEntries _ _ prev pt es _ _ => 0 < prev ∧ pt = 0 ∧ es = []
  | _ => False
  end.

Section protocol.
Context (V : list ReplicaId).

(** The replicas that a leader with match table [m] counts for index [n]. *)
Definition acked_by (i : ReplicaId) (m : gmap ReplicaId Index) (n : Index) : gset ReplicaId :=
  {[ i ]} ∪ list_to_set (filter (λ p, n ≤ default 0 (m !! p)) (filter (λ p, p ≠ i) V)).

(** The atomic steps of replica [i] from view [v], given the packets sent so
    far, with the packets the step sends. *)
Inductive astep (M : list packet) (i : ReplicaId) (v : view) : view → list packet → Prop :=
  | a_bump t :
      v_term v < t →
      astep M i v (v <| v_term := t |> <| v_vote := None |>
                     <| v_role := Follower |> <| v_votes := ∅ |>) []
  | a_down :
      astep M i v (v <| v_role := Follower |> <| v_votes := ∅ |>) []
  | a_restart :
      astep M i v (v <| v_role := Follower |> <| v_votes := ∅ |> <| v_match := ∅ |>) []
  | a_campaign :
      astep M i v (v <| v_role := Candidate |> <| v_term ::= λ t, t + 1 |>
                     <| v_vote := Some i |> <| v_votes := {[ i ]} |>) []
  | a_solicit j :
      v_role v = Candidate →
      astep M i v v [(i, j, RequestVote (v_term v) i (len (v_log v)) (lastterm (v_log v)))]
  | a_vote from c lli llt :
      (from, i, RequestVote (v_term v) c lli llt) ∈ M →
      lastterm (v_log v) < llt ∨ (llt = lastterm (v_log v) ∧ len (v_log v) ≤ lli) →
      v_vote v = None ∨ v_vote v = Some c →
      astep M i v (v <| v_vote := Some c |>) [(i, c, RequestVoteResp (v_term v) true)]
  | a_count from :
      (from, i, RequestVoteResp (v_term v) true) ∈ M →
      v_role v = Candidate →
      astep M i v (v <| v_votes ::= λ vs, {[ from ]} ∪ vs |>) []
  | a_elect m :
      v_role v = Candidate → maj (v_votes v) V = true →
      (∀ p x, m !! p = Some x → x = 0) →
      astep M i v (v <| v_role := Leader |> <| v_match := m |>) []
  | a_append p :
      v_role v = Leader →
      astep M i v
        (v <| v_log ::= λ l, l ++ [MkEntry (v_term v) (len (v_log v) + 1) p] |>) []
  | a_replicate j prev rs :
      v_role v = Leader → prev ≤ len (v_log v) →
      astep M i v v
        [(i, j, AppendEntries (v_term v) i prev (lastterm (take (N.to_nat prev) (v_log v)))
                  (drop (N.to_nat prev) (v_log v)) (v_commit v) rs)]
  | a_accept from l prev pt es lc rs log' :
      (from, i, AppendEntries (v_term v) l prev pt es lc rs) ∈ M →
      v_role v = Follower →
      log_term (v_log v) prev = Some pt →
      log' = foldl splice_log (v_log v) es →
      astep M i v
        (v <| v_log := log' |>
           <| v_commit := if decide (v_commit v < lc) then N.min lc (len log') else v_commit v |>)
        [(i, l, AppendEntriesResp (v_term v) true (prev + N.of_nat (length es)) 0 rs)]
  | a_match from m ci rs :
      (from, i, AppendEntriesResp (v_term v) true m ci rs) ∈ M →
      v_role v = Leader →
      astep M i v (v <| v_match ::= <[from := m]> |>) []
  | a_commit n :
      v_role v = Leader → v_commit v < n →
      log_term (v_log v) n = Some (v_term v) →
      maj (acked_by i (v_match v) n) V = true →
      astep M i v (v <| v_commit := n |>) []
  | a_noise j m :
      harmless m → astep M i v v [(i, j, m)].

(** A step of the system: one replica moves. *)
Inductive anstep : anet → anet → Prop :=
  | anstep_intro s i v' ps :
      astep (a_sent s) i (a_nodes s i) v' ps →
      anstep s (MkAnet (upd i v' (a_nodes s)) (ps ++ a_sent s)).

(** Every replica starts as a follower in term [0] with an empty log. *)
Definition view_init : view := MkView 0 None Follower ∅ [] 0 ∅.

Definition ainit : anet := MkAnet (λ _, view_init) [].

Definition areach (s : anet) : Prop := rtc anstep ainit s.

End protocol.
