(* ===== verification/RaftSafety.v ===== *)
(** * Safety of the abstract Raft protocol

    The invariant of [RaftAbs] and the protocol's safety theorems.  The
    invariant is stated against a ghost history [ghost]: who voted for whom
    in each term (and the voter's log then), the log each candidate
    campaigned with, the leader of each term with the log it was elected
    with and the entries it appended, and the highest index each replica
    acknowledged in each term. *)

From stdpp Require Import base numbers gmap sorting list.
From S2P Require Import Prelude RaftTypes RaftStore RaftAbs.

Local Open Scope N_scope.
Local Open Scope crab_scope.

Record ghost := MkGhost {
  (** (voter, term) to the candidate, and the voter's log when it voted
      unless that term already had a leader *)
  g_cast : gmap (ReplicaId * Term) (ReplicaId * option (list Entry));
  (** (term, candidate) to the log it campaigned with *)
  g_camp : gmap (Term * ReplicaId) (list Entry);
  (** term to its leader, its log when elected, the entries it appended *)
  g_lead : gmap Term (ReplicaId * list Entry * list Entry);
  (** (replica, term) to the highest index acknowledged in that term *)
  g_ack : gmap (ReplicaId * Term) Index;
}.

#[export] Instance ghost_eta : Eta ghost := λ g,
  MkGhost (g_cast g) (g_camp g) (g_lead g) (g_ack g).

(** Entry [e] at position [k] of a valid log was created by the leader of
    [e]'s term, and the log agrees with that leader's up to it. *)
Definition valid (g : ghost) (l : list Entry) : Prop :=
  ∀ k e, l !! k = Some e →
    ∃ c el app, g_lead g !! e_term e = Some (c, el, app) ∧
      take (S k) l `prefix_of` el ++ app.

(** The first [n] entries of the log of the leader of term [t]. *)
Definition pfx (g : ghost) (t : Term) (n : Index) : list Entry :=
  match g_lead g !! t with
  | Some (_, el, app) => take (N.to_nat n) (el ++ app)
  | None => []
  end.

(** A leader of a term in [(t, u]] was elected without [pfx g t n]. *)
Definition overwritten (g : ghost) (t : Term) (n : Index) (u : Term) : Prop :=
  ∃ t' c el app, t < t' ∧ t' ≤ u ∧ g_lead g !! t' = Some (c, el, app) ∧
    ¬ pfx g t n `prefix_of` el.

Section safety.
Context (V : list ReplicaId).

(** Index [n] was acknowledged by a majority in term [t], and its entry is of
    that term. *)
Definition committed (g : ghost) (t : Term) (n : Index) : Prop :=
  ∃ c el app Q, g_lead g !! t = Some (c, el, app) ∧
    len el < n ∧ n ≤ len (el ++ app) ∧ maj Q V = true ∧
    ∀ v, v ∈ Q → ∃ m, g_ack g !! (v, t) = Some m ∧ n ≤ m.

(** [l] is part of a prefix committed in a term up to [T]. *)
Definition cpfx (g : ghost) (T : Term) (l : list Entry) : Prop :=
  l = [] ∨ ∃ t n, committed g t n ∧ t ≤ T ∧ l `prefix_of` pfx g t n.

Record node_ok (g : ghost) (i : ReplicaId) (v : view) : Prop := {
  no_vote c : v_vote v = Some c → ∃ o, g_cast g !! (i, v_term v) = Some (c, o);
  no_cast t c o : g_cast g !! (i, t) = Some (c, o) →
    t < v_term v ∨ (t = v_term v ∧ v_vote v = Some c);
  no_votes w : v_role v ≠ Follower → w ∈ v_votes v →
    ∃ o, g_cast g !! (w, v_term v) = Some (i, o);
  no_camp t lc : g_camp g !! (t, i) = Some lc → t ≤ v_term v;
  no_cand : v_role v = Candidate →
    g_camp g !! (v_term v, i) = Some (v_log v) ∧
    ∀ el app, g_lead g !! v_term v ≠ Some (i, el, app);
  no_leader : v_role v = Leader → ∃ el app,
    g_lead g !! v_term v = Some (i, el, app) ∧ v_log v = el ++ app;
  no_self : v_role v = Leader → g_ack g !! (i, v_term v) = Some (len (v_log v));
  no_match p m : v_role v = Leader → v_match v !! p = Some m →
    m = 0 ∨ ∃ m', g_ack g !! (p, v_term v) = Some m' ∧ m ≤ m';
  no_valid : valid g (v_log v);
  no_contig : contiguous 0 (v_log v);
  no_terms : Forall (λ e, e_term e ≤ v_term v) (v_log v);
  no_ack t m : g_ack g !! (i, t) = Some m → t ≤ v_term v ∧
    ∀ n, n ≤ m → pfx g t n `prefix_of` v_log v ∨ overwritten g t n (v_term v);
  no_commit : v_commit v ≤ len (v_log v) ∧
    cpfx g (v_term v) (take (N.to_nat (v_commit v)) (v_log v));
}.

Record ghost_ok (g : ghost) : Prop := {
  go_cast w t c lv : g_cast g !! (w, t) = Some (c, Some lv) →
    valid g lv ∧ ∃ lc, g_camp g !! (t, c) = Some lc ∧ uptodate lc lv;
  go_late w t c : g_cast g !! (w, t) = Some (c, None) → is_Some (g_lead g !! t);
  go_camp t c lc : g_camp g !! (t, c) = Some lc →
    1 ≤ t ∧ valid g lc ∧ contiguous 0 lc ∧ Forall (λ e, e_term e < t) lc;
  go_lead t c el app : g_lead g !! t = Some (c, el, app) →
    g_camp g !! (t, c) = Some el ∧ contiguous 0 (el ++ app) ∧
    Forall (λ e, e_term e = t) app ∧ valid g (el ++ app) ∧
    ∃ Q, maj Q V = true ∧
      ∀ w, w ∈ Q → ∃ lv, g_cast g !! (w, t) = Some (c, Some lv);
  go_ack w t m : g_ack g !! (w, t) = Some m →
    ∃ c el app, g_lead g !! t = Some (c, el, app) ∧ m ≤ len (el ++ app);
  go_ack_cast w t t' c lv m n :
    g_ack g !! (w, t) = Some m → g_cast g !! (w, t') = Some (c, Some lv) →
    t < t' → n ≤ m → pfx g t n `prefix_of` lv ∨ overwritten g t n (t' - 1);
}.

Definition msg_ok (g : ghost) (p : ReplicaId * ReplicaId * Message) : Prop :=
  let '(i, j, m) := p in
  match m with
  | RequestVote t c lli llt =>
      ∃ lc, g_camp g !! (t, c) = Some lc ∧ lli = len lc ∧ llt = lastterm lc
  | RequestVoteResp t granted =>
      granted = true → ∃ o, g_cast g !! (i, t) = Some (j, o)
  | AppendEntries t l prev pt es lc rs =>
      (0 < prev ∧ pt = 0 ∧ es = []) ∨
      ∃ el app pre, g_lead g !! t = Some (l, el, app) ∧
        pre ++ es `prefix_of` el ++ app ∧ len pre = prev ∧ pt = lastterm pre ∧
        lc ≤ len (pre ++ es) ∧ cpfx g t (take (N.to_nat lc) (pre ++ es))
  | AppendEntriesResp t success m ci rs =>
      success = true → ∃ m', g_ack g !! (i, t) = Some m' ∧ m ≤ m'
  | InstallSnapshot _ _ _ _ _ _ _ => False
  end.

Definition ginv (s : anet) (g : ghost) : Prop :=
  (∀ i, node_ok g i (a_nodes s i)) ∧ ghost_ok g ∧
  ∀ p, p ∈ a_sent s → msg_ok g p.

(** ** Growing histories *)

Record gext (g g' : ghost) : Prop := {
  ge_cast : g_cast g ⊆ g_cast g';
  ge_camp : g_camp g ⊆ g_camp g';
  ge_lead t c el app : g_lead g !! t = Some (c, el, app) →
    ∃ app', g_lead g' !! t = Some (c, el, app') ∧ app `prefix_of` app';
  ge_ack k m : g_ack g !! k = Some m → ∃ m', g_ack g' !! k = Some m' ∧ m ≤ m';
}.

(** The histories agree on what concerns replica [j] alone. *)
Record gsame (j : ReplicaId) (g g' : ghost) : Prop := {
  gs_cast t : g_cast g' !! (j, t) = g_cast g !! (j, t);
  gs_camp t : g_camp g' !! (t, j) = g_camp g !! (t, j);
  gs_lead t el app : g_lead g' !! t = Some (j, el, app) → g_lead g !! t = Some (j, el, app);
  gs_ack t : g_ack g' !! (j, t) = g_ack g !! (j, t);
}.

(** ** Quorums *)

Lemma maj_meet (Q Q' : gset ReplicaId) :
  maj Q V = true → maj Q' V = true → ∃ v, v ∈ Q ∧ v ∈ Q'.
Proof.
  unfold maj. rewrite !bool_decide_eq_true. intros H1 H2.
  destruct (filter_overlap (.∈ Q) (.∈ Q') V) as (v & _ & ?); [|by exists v].
  pose proof (Nat.div_mod_eq (length V) 2).
  pose proof (Nat.mod_upper_bound (length V) 2). lia.
Qed.

(** ** Valid logs *)

Lemma gext_tl g g' t c el app :
  gext g g' → g_lead g !! t = Some (c, el, app) →
  ∃ app', g_lead g' !! t = Some (c, el, app') ∧ el ++ app `prefix_of` el ++ app'.
Proof.
  intros He Hl. destruct (ge_lead _ _ He _ _ _ _ Hl) as (app' & ? & ?).
  exists app'. split; [done |]. by apply prefix_app.
Qed.

Lemma valid_mono g g' l : gext g g' → valid g l → valid g' l.
Proof.
  intros He Hv k e Hk. destruct (Hv _ _ Hk) as (c & el & app & Hl & Hp).
  destruct (gext_tl _ _ _ _ _ _ He Hl) as (app' & ? & ?).
  exists c, el, app'. split; [done |]. by etrans.
Qed.

Lemma valid_prefix g l l' : l `prefix_of` l' → valid g l' → valid g l.
Proof.
  intros Hp Hv k e Hk.
  destruct (Hv k e) as (c & el & app & ? & Hp'); [by eapply prefix_lookup_Some |].
  exists c, el, app. split; [done |].
  apply lookup_lt_Some in Hk. by rewrite <-(prefix_take_eq _ _ _ Hp) by lia.
Qed.

Lemma valid_nil g : valid g [].
Proof. intros k e ?. done. Qed.

(** Log matching: valid logs with entries of one term at one position agree
    up to there. *)
Lemma valid_agree g l l' k e e' :
  valid g l → valid g l' → l !! k = Some e → l' !! k = Some e' →
  e_term e = e_term e' → take (S k) l = take (S k) l'.
Proof.
  intros Hv Hv' Hk Hk' Ht.
  destruct (Hv _ _ Hk) as (c & el & app & Hl & Hp).
  destruct (Hv' _ _ Hk') as (c' & el' & app' & Hl' & Hp').
  rewrite Ht in Hl. simplify_eq.
  apply lookup_lt_Some in Hk, Hk'.
  eapply prefix_length_eq.
  - eapply prefix_by_length; [done.. |]. rewrite !length_take. lia.
  - rewrite !length_take. lia.
Qed.

Lemma valid_agree_entry g l l' k e e' :
  valid g l → valid g l' → l !! k = Some e → l' !! k = Some e' →
  e_term e = e_term e' → e = e'.
Proof.
  intros Hv Hv' Hk Hk' Ht. pose proof (valid_agree _ _ _ _ _ _ Hv Hv' Hk Hk' Ht) as Heq.
  apply (f_equal (.!! k)) in Heq. rewrite !lookup_take_lt in Heq by lia. congruence.
Qed.

(** ** Stability of the ghost facts *)

Lemma pfx_ext g g' t c el app n :
  gext g g' → g_lead g !! t = Some (c, el, app) → n ≤ len (el ++ app) →
  pfx g' t n = pfx g t n.
Proof.
  intros He Hl Hn. destruct (gext_tl _ _ _ _ _ _ He Hl) as (app' & Hl' & Hp).
  unfold pfx. rewrite Hl, Hl'. apply prefix_take_eq; [done |]. unfold len in Hn. lia.
Qed.

Lemma pfx_mono g t n m : n ≤ m → pfx g t n `prefix_of` pfx g t m.
Proof.
  intros. unfold pfx. destruct (g_lead g !! t) as [[[c el] app]|]; [|done].
  apply prefix_take_take. lia.
Qed.

Lemma overwritten_ext g g' t c el app n u u' :
  gext g g' → g_lead g !! t = Some (c, el, app) → n ≤ len (el ++ app) → u ≤ u' →
  overwritten g t n u → overwritten g' t n u'.
Proof.
  intros He Hl Hn Hu (t' & c' & el' & app' & ? & ? & Hl' & Hnp).
  destruct (gext_tl _ _ _ _ _ _ He Hl') as (app'' & ? & _).
  exists t', c', el', app''. split_and!; [done | lia | done |].
  by rewrite (pfx_ext g g' t c el app).
Qed.

Lemma overwritten_le g t n u u' : u ≤ u' → overwritten g t n u → overwritten g t n u'.
Proof.
  intros Hu (t' & c' & el' & app' & ? & ? & ? & ?).
  exists t', c', el', app'. split_and!; [done | lia | done | done].
Qed.

Lemma committed_ext g g' t n : gext g g' → committed g t n → committed g' t n.
Proof.
  intros He (c & el & app & Q & Hl & ? & ? & ? & HQ).
  destruct (gext_tl _ _ _ _ _ _ He Hl) as (app' & Hl' & Hp).
  exists c, el, app', Q. split_and!; try done.
  - apply prefix_length in Hp. unfold len in *. lia.
  - intros v Hv. destruct (HQ v Hv) as (m & Hm & ?).
    destruct (ge_ack _ _ He _ _ Hm) as (m' & ? & ?). exists m'. split; [done | lia].
Qed.

Lemma cpfx_ext g g' T T' l : gext g g' → T ≤ T' → cpfx g T l → cpfx g' T' l.
Proof.
  intros He HT [-> | (t & n & Hc & ? & Hp)]; [by left | right].
  exists t, n. split_and!; [by eapply committed_ext | lia |].
  destruct Hc as (c & el & app & Q & Hl & ? & ? & _).
  by rewrite (pfx_ext g g' t c el app).
Qed.

Lemma cpfx_prefix g T l l' : l `prefix_of` l' → cpfx g T l' → cpfx g T l.
Proof.
  intros Hp [-> | (t & n & ? & ? & ?)].
  - left. by apply prefix_nil_inv.
  - right. exists t, n. split_and!; [done.. |]. by etrans.
Qed.

Lemma gext_refl g : gext g g.
Proof. split; [done | done | |]; eauto. Qed.

Lemma gsame_refl j g : gsame j g g.
Proof. by split. Qed.

Lemma msg_ok_ext g g' p : gext g g' → msg_ok g p → msg_ok g' p.
Proof.
  intros He. destruct p as [[i j] m]. destruct m; cbn; [..| done].
  - intros (lc & ? & ? & ?). exists lc. split_and!; [|done..].
    by eapply lookup_weaken, ge_camp.
  - intros Hg Ht. destruct (Hg Ht) as (o & ?). exists o. by eapply lookup_weaken, ge_cast.
  - intros [? | (el & app & pre & Hl & ? & ? & ? & ? & ?)]; [by left | right].
    destruct (gext_tl _ _ _ _ _ _ He Hl) as (app' & ? & ?).
    exists el, app', pre. split_and!; try done; [by etrans |]. by eapply cpfx_ext.
  - intros Hg Ht. destruct (Hg Ht) as (m' & Hm & ?).
    destruct (ge_ack _ _ He _ _ Hm) as (m'' & ? & ?). exists m''. split; [done | lia].
Qed.

Lemma ack_ext g g' w t m n l u u' :
  ghost_ok g → gext g g' → g_ack g !! (w, t) = Some m → n ≤ m → u ≤ u' →
  pfx g t n `prefix_of` l ∨ overwritten g t n u →
  pfx g' t n `prefix_of` l ∨ overwritten g' t n u'.
Proof.
  intros Hok He Hm Hn Hu. destruct (go_ack _ Hok _ _ _ Hm) as (c & el & app & Hl & ?).
  rewrite (pfx_ext g g' t c el app) by (done || lia).
  intros [?|?]; [by left | right]. eapply overwritten_ext; try done. lia.
Qed.

Lemma node_ok_ext g g' j v :
  ghost_ok g → gext g g' → gsame j g g' → node_ok g j v → node_ok g' j v.
Proof.
  intros Hok He Hs Hn. split.
  - intros c Hc. rewrite (gs_cast _ _ _ Hs). by apply Hn.
  - intros t c o. rewrite (gs_cast _ _ _ Hs). apply Hn.
  - intros w Hr Hw. destruct (no_votes _ _ _ Hn w Hr Hw) as (o & ?).
    exists o. by eapply lookup_weaken, ge_cast.
  - intros t lc. rewrite (gs_camp _ _ _ Hs). apply Hn.
  - intros Hr. destruct (no_cand _ _ _ Hn Hr) as [Hc Hl]. split.
    + by eapply lookup_weaken, ge_camp.
    + intros el app Hl'. by apply (gs_lead _ _ _ Hs), Hl in Hl'.
  - intros Hr. destruct (no_leader _ _ _ Hn Hr) as (el & app & Hl & ->).
    destruct (ge_lead _ _ He _ _ _ _ Hl) as (app' & Hl' & _).
    pose proof (gs_lead _ _ _ Hs _ _ _ Hl'). simplify_eq. eauto.
  - intros Hr. rewrite (gs_ack _ _ _ Hs). by apply Hn.
  - intros p m Hr Hm. destruct (no_match _ _ _ Hn p m Hr Hm) as [?|(m' & Hm' & ?)]; [by left | right].
    destruct (ge_ack _ _ He _ _ Hm') as (m'' & ? & ?). exists m''. split; [done | lia].
  - by eapply valid_mono, Hn.
  - apply Hn.
  - apply Hn.
  - intros t m. rewrite (gs_ack _ _ _ Hs). intros Hm.
    destruct (no_ack _ _ _ Hn _ _ Hm) as [? Ha]. split; [done |].
    intros n Hle. eapply (ack_ext g g' j t m n _ (v_term v)); try done. by apply Ha.
  - destruct (no_commit _ _ _ Hn). split; [done |]. by eapply cpfx_ext.
Qed.

(** ** Leader completeness *)

Lemma valid_entry_term g l k e :
  ghost_ok g → valid g l → l !! k = Some e → 1 ≤ e_term e.
Proof.
  intros Hok Hv Hk. destruct (Hv _ _ Hk) as (c & el & app & Hl & _).
  destruct (go_lead _ Hok _ _ _ _ Hl) as [Hc _]. by apply (go_camp _ Hok) in Hc as [? _].
Qed.

Lemma lead_entry_term g t c el app k e :
  ghost_ok g → g_lead g !! t = Some (c, el, app) → (el ++ app) !! k = Some e →
  (e_term e < t ∧ (k < length el)%nat) ∨ (e_term e = t ∧ (length el ≤ k)%nat).
Proof.
  intros Hok Hl Hk. destruct (go_lead _ Hok _ _ _ _ Hl) as (Hc & _ & Happ & _).
  apply (go_camp _ Hok) in Hc as (_ & _ & _ & Hel).
  apply lookup_app_Some in Hk as [Hk | [? Hk]].
  - left. split; [|by eapply lookup_lt_Some].
    rewrite Forall_forall in Hel. apply Hel. by eapply list_elem_of_lookup_2.
  - right. split; [|done].
    rewrite Forall_forall in Happ. apply Happ. by eapply list_elem_of_lookup_2.
Qed.

(** Terms do not decrease along a valid log. *)
Lemma valid_sorted g l k k' e e' :
  ghost_ok g → valid g l → l !! k = Some e → l !! k' = Some e' → (k ≤ k')%nat →
  e_term e ≤ e_term e'.
Proof.
  intros Hok Hv Hk Hk' Hle. destruct (Hv _ _ Hk') as (c & el & app & Hl & Hp).
  destruct (lead_entry_term g (e_term e') c el app k e) as [[? _]|[? _]]; [done | done | | lia | lia].
  eapply prefix_lookup_Some; [|done]. by rewrite lookup_take_lt by lia.
Qed.

(** A non-empty valid log is a prefix of the log of its last term's leader. *)
Lemma valid_last g l :
  valid g l → 0 < lastterm l →
  ∃ c el app e, g_lead g !! lastterm l = Some (c, el, app) ∧ l `prefix_of` el ++ app ∧
    l !! pred (length l) = Some e ∧ e_term e = lastterm l.
Proof.
  unfold lastterm. rewrite last_lookup. intros Hv.
  destruct (l !! pred (length l)) as [e|] eqn:He; cbn; [|lia]. intros _.
  destruct (Hv _ _ He) as (c & el & app & Hl & Hp). exists c, el, app, e.
  apply lookup_lt_Some in He. rewrite take_ge in Hp by lia. done.
Qed.

Lemma lastterm_ge g l k e :
  ghost_ok g → valid g l → l !! k = Some e → e_term e ≤ lastterm l.
Proof.
  intros Hok Hv Hk. unfold lastterm. rewrite last_lookup.
  pose proof (lookup_lt_Some _ _ _ Hk) as Hlt.
  destruct (lookup_lt_is_Some_2 l (pred (length l))) as [e' He']; [lia |].
  rewrite He'. cbn. eapply valid_sorted; try done. lia.
Qed.

(** An election won by an up-to-date log against a voter that holds [P]. *)
Lemma uptodate_keeps g t n t' c' el' app' lv :
  ghost_ok g → committed g t n →
  (∀ u c el app, u < t' → t < u → g_lead g !! u = Some (c, el, app) →
     pfx g t n `prefix_of` el) →
  g_lead g !! t' = Some (c', el', app') → valid g lv →
  pfx g t n `prefix_of` lv → uptodate el' lv → pfx g t n `prefix_of` el'.
Proof.
  intros Hok (c & el & app & Q & Hl & Hn & Hn' & _) IH Hl' Hv Hp Hup.
  destruct (go_lead _ Hok _ _ _ _ Hl') as (Hc' & _).
  apply (go_camp _ Hok) in Hc' as (_ & Hv' & _ & Hlt').
  assert (∃ e, lv !! pred (N.to_nat n) = Some e ∧ e_term e = t) as (e & Hke & Ht).
  { unfold len in *. destruct (lookup_lt_is_Some_2 (el ++ app) (pred (N.to_nat n))) as [e He]; [lia |].
    exists e. split.
    - eapply prefix_lookup_Some; [|done]. unfold pfx. rewrite Hl.
      by rewrite lookup_take_lt by lia.
    - destruct (lead_entry_term _ _ _ _ _ _ _ Hok Hl He) as [[_ ?]|[? _]]; [lia | done]. }
  pose proof (lastterm_ge _ _ _ _ Hok Hv Hke) as Hge.
  pose proof (valid_entry_term _ _ _ _ Hok Hv Hke).
  destruct (valid_last g lv) as (c1 & el1 & app1 & e1 & Hl1 & Hp1 & _); [done | lia |].
  destruct (valid_last g el') as (c2 & el2 & app2 & e2 & Hl2 & Hp2 & He2 & Ht2);
    [done | unfold uptodate in Hup; lia |].
  destruct Hup as [Hlt | [Heq Hle]].
  - (* the leader of the last term of [el'] already had the prefix *)
    assert (lastterm el' < t').
    { rewrite <-Ht2. rewrite Forall_forall in Hlt'. apply Hlt'. by eapply list_elem_of_lookup_2. }
    etrans; [eapply IH; [..| exact Hl2]; lia |].
    eapply prefix_by_length; [by apply prefix_app_r | done |].
    destruct (lead_entry_term g _ c2 el2 app2 (pred (length el')) e2 Hok Hl2) as [[? ?]|[? ?]];
      [by eapply prefix_lookup_Some | lia |].
    apply lookup_lt_Some in He2. lia.
  - rewrite Heq in Hl2. simplify_eq. etrans; [exact Hp |]. by eapply prefix_by_length.
Qed.

Lemma leader_complete g t n t' c' el' app' :
  ghost_ok g → committed g t n → t < t' → g_lead g !! t' = Some (c', el', app') →
  pfx g t n `prefix_of` el'.
Proof.
  intros Hok Hc. revert c' el' app'. induction (N.lt_wf_0 t') as [t' _ IH].
  intros c' el' app' Hlt Hl'.
  pose proof Hc as (c & el & app & Q & Hl & Hn & Hn' & HQ & Hack).
  destruct (go_lead _ Hok _ _ _ _ Hl') as (Hcamp & _ & _ & _ & Q' & HQ' & Hcast).
  destruct (maj_meet Q Q' HQ HQ') as (w & Hw & Hw').
  destruct (Hack w Hw) as (m & Hm & Hnm). destruct (Hcast w Hw') as (lv & Hlv).
  destruct (go_cast _ Hok _ _ _ _ Hlv) as (Hval & lc & Hlc & Hup). simplify_eq.
  destruct (go_ack_cast _ Hok _ _ _ _ _ _ n Hm Hlv Hlt Hnm) as [Hp | Hover].
  - eapply (uptodate_keeps g t n t'); try done.
    intros u cu elu appu Hu Htu Hlu. by eapply IH.
  - destruct Hover as (u & cu & elu & appu & ? & ? & Hlu & Hnp).
    destruct Hnp. eapply (IH u); [lia | done..].
Qed.

End safety.
