(* ===== verification/RaftInvariant.v ===== *)
(** * The invariant of the abstract Raft protocol is inductive

    Every step of [RaftAbs] preserves [RaftSafety.ginv], for a history that
    only grows; the safety theorems of the protocol follow. *)

From stdpp Require Import base numbers gmap sorting list.
From S2P Require Import Prelude RaftTypes RaftStore RaftAbs RaftSafety.

Local Open Scope N_scope.
Local Open Scope crab_scope.

(** The four ways a step extends the history. *)
Definition add_cast (i : ReplicaId) (t : Term) (c : ReplicaId)
    (o : option (list Entry)) (g : ghost) : ghost :=
  g <| g_cast ::= <[(i, t) := (c, o)]> |>.

Definition add_camp (t : Term) (c : ReplicaId) (lc : list Entry) (g : ghost) : ghost :=
  g <| g_camp ::= <[(t, c) := lc]> |>.

Definition add_lead (t : Term) (c : ReplicaId) (el app : list Entry) (g : ghost) : ghost :=
  g <| g_lead ::= <[t := (c, el, app)]> |>
    <| g_ack ::= <[(c, t) := len (el ++ app)]> |>.

Definition add_ack (i : ReplicaId) (t : Term) (m : Index) (g : ghost) : ghost :=
  g <| g_ack ::= <[(i, t) := N.max m (default 0 (g_ack g !! (i, t)))]> |>.

Lemma g_cast_add_cast i t c o g :
  g_cast (add_cast i t c o g) = <[(i, t) := (c, o)]> (g_cast g).
Proof. done. Qed.

Lemma g_camp_add_camp t c lc g :
  g_camp (add_camp t c lc g) = <[(t, c) := lc]> (g_camp g).
Proof. done. Qed.

Lemma g_lead_add_lead t c el app g :
  g_lead (add_lead t c el app g) = <[t := (c, el, app)]> (g_lead g).
Proof. done. Qed.

Lemma g_ack_add_lead t c el app g :
  g_ack (add_lead t c el app g) = <[(c, t) := len (el ++ app)]> (g_ack g).
Proof. done. Qed.

Lemma g_ack_add_ack i t m g :
  g_ack (add_ack i t m g) =
    <[(i, t) := N.max m (default 0 (g_ack g !! (i, t)))]> (g_ack g).
Proof. done. Qed.

(** Look up what a step added to the history. *)
Ltac ghost_lookup H :=
  rewrite ?g_cast_add_cast, ?g_camp_add_camp, ?g_lead_add_lead,
    ?g_ack_add_lead, ?g_ack_add_ack in H;
  apply lookup_insert_Some in H as [[? ?]|[_ H]]; simplify_eq.

Section invariant.
Context (V : list ReplicaId).

Notation node_ok := (node_ok V).
Notation ghost_ok := (ghost_ok V).
Notation msg_ok := (msg_ok V).
Notation ginv := (ginv V).

Lemma ginv_step s g g' i v' ps :
  ginv s g → gext g g' → (∀ j, j ≠ i → gsame j g g') → ghost_ok g' →
  node_ok g' i v' → (∀ p, p ∈ ps → msg_ok g' p) →
  ginv (MkAnet (upd i v' (a_nodes s)) (ps ++ a_sent s)) g'.
Proof.
  intros (Hn & Hg & Hm) He Hs Hg' Hn' Hps. split_and!; [|done |].
  - intros j. cbn. unfold upd. case_decide; [by subst |].
    eapply (node_ok_ext V g); [done | done | by apply Hs | by apply Hn].
  - intros p [Hp | Hp]%elem_of_app; [by apply Hps |]. by eapply msg_ok_ext, Hm.
Qed.

(** A step that leaves the history alone. *)
Lemma ginv_step_same s g i v' ps :
  ginv s g → node_ok g i v' → (∀ p, p ∈ ps → msg_ok g p) →
  ∃ g', gext g g' ∧ ginv (MkAnet (upd i v' (a_nodes s)) (ps ++ a_sent s)) g'.
Proof.
  intros Hi Hn Hps. exists g. split; [apply gext_refl |].
  apply (ginv_step s g); auto using gext_refl, gsame_refl. apply Hi.
Qed.

(** Falling back to follower, in the same term or in a newer one. *)
Lemma node_ok_follower g i v v' :
  node_ok g i v → v_role v' = Follower → v_log v' = v_log v →
  v_commit v' = v_commit v →
  (v_vote v' = None ∧ v_term v < v_term v') ∨
  (v_vote v' = v_vote v ∧ v_term v' = v_term v) →
  node_ok g i v'.
Proof.
  intros Hn Hr Hlog Hcom Hcase.
  assert (v_term v ≤ v_term v') as Hle by lia.
  split; rewrite ?Hr, ?Hlog, ?Hcom; try done; try apply Hn.
  - intros c Hc. destruct Hcase as [[Hv _]|[Hv ->]]; rewrite Hv in Hc; [done |].
    by apply Hn.
  - intros t c o Ht. apply (no_cast _ _ _ _ Hn) in Ht.
    destruct Hcase as [[_ ?]|[-> ->]]; [left; lia | done].
  - intros t lc Ht. apply (no_camp _ _ _ _ Hn) in Ht. lia.
  - eapply Forall_impl; [apply Hn |]. cbn. lia.
  - intros t m Ht. destruct (no_ack _ _ _ _ Hn _ _ Ht) as [? Ha].
    split; [lia |]. intros n Hnm. destruct (Ha n Hnm); [by left | right].
    by eapply overwritten_le.
  - destruct (no_commit _ _ _ _ Hn). split; [done |].
    eapply cpfx_ext; [apply gext_refl | done | done].
Qed.

(** ** Votes *)

Lemma gext_add_cast i t c o g :
  g_cast g !! (i, t) = None → gext g (add_cast i t c o g).
Proof. intros Hf. split; [by apply insert_subseteq | done | |]; eauto. Qed.

Lemma gsame_add_cast j i t c o g : j ≠ i → gsame j g (add_cast i t c o g).
Proof. intros Hne. split; try done. intros t'. cbn. apply lookup_insert_ne. congruence. Qed.

Lemma ghost_ok_add_cast i t c o g :
  ghost_ok g → g_cast g !! (i, t) = None →
  (o = None → is_Some (g_lead g !! t)) →
  (∀ lv, o = Some lv → valid g lv ∧
     (∃ lc, g_camp g !! (t, c) = Some lc ∧ uptodate lc lv) ∧
     ∀ t0 m n, g_ack g !! (i, t0) = Some m → t0 < t → n ≤ m →
       pfx g t0 n `prefix_of` lv ∨ overwritten g t0 n (t - 1)) →
  ghost_ok (add_cast i t c o g).
Proof.
  intros Hg Hf Hlate Hlv. split.
  - intros w t' c' lv Hc. ghost_lookup Hc.
    + destruct (Hlv lv) as (? & ? & _); done.
    + by apply (go_cast _ _ Hg) in Hc.
  - intros w t' c' Hc. ghost_lookup Hc.
    + by apply Hlate.
    + by apply (go_late _ _ Hg) in Hc.
  - apply Hg.
  - intros t' c' el app Hl. destruct (go_lead _ _ Hg _ _ _ _ Hl) as (? & ? & ? & ? & Q & ? & HQ).
    split_and!; try done. exists Q. split; [done |]. intros w Hw.
    destruct (HQ w Hw) as (lv & ?). exists lv.
    rewrite g_cast_add_cast, lookup_insert_ne; [done | congruence].
  - apply Hg.
  - intros w t0 t' c' lv m n Hm Hc ? ?.
    ghost_lookup Hc.
    + destruct (Hlv lv) as (_ & _ & Hk); [done |]. by eapply Hk.
    + by eapply (go_ack_cast _ _ Hg).
Qed.

(** The history of a vote by a replica in term [v_term v] that did not vote
    yet: its log is recorded unless the term already has a leader. *)
Lemma vote_ghost g i v c lc :
  ghost_ok g → node_ok g i v → v_vote v = None →
  g_camp g !! (v_term v, c) = Some lc → uptodate lc (v_log v) →
  ∃ o, let g' := add_cast i (v_term v) c o g in
    gext g g' ∧ (∀ j, j ≠ i → gsame j g g') ∧ ghost_ok g'.
Proof.
  intros Hg Hn Hv Hlc Hup.
  assert (g_cast g !! (i, v_term v) = None) as Hf.
  { destruct (g_cast g !! (i, v_term v)) as [[c' o]|] eqn:Hc; [|done].
    apply (no_cast _ _ _ _ Hn) in Hc as [?|[_ ?]]; [lia | congruence]. }
  exists (match g_lead g !! v_term v with Some _ => None | None => Some (v_log v) end).
  split_and!; [by apply gext_add_cast | intros; by apply gsame_add_cast |].
  apply ghost_ok_add_cast; try done.
  - by destruct (g_lead g !! v_term v).
  - destruct (g_lead g !! v_term v) as [|] eqn:Hl; intros lv ?; simplify_eq.
    split_and!; [apply Hn | by exists lc |]. intros t0 m n Hm Hlt Hle.
    destruct (no_ack _ _ _ _ Hn _ _ Hm) as [_ Ha].
    destruct (Ha n Hle) as [?|(t' & c' & el & app & ? & ? & Hl' & ?)]; [by left | right].
    exists t', c', el, app. split_and!; try done.
    assert (t' ≠ v_term v) by congruence. lia.
Qed.

Lemma gext_trans g1 g2 g3 : gext g1 g2 → gext g2 g3 → gext g1 g3.
Proof.
  intros H1 H2. split.
  - etrans; [apply H1 | apply H2].
  - etrans; [apply H1 | apply H2].
  - intros t c el app Hl. destruct (ge_lead _ _ H1 _ _ _ _ Hl) as (app' & Hl' & ?).
    destruct (ge_lead _ _ H2 _ _ _ _ Hl') as (app'' & ? & ?).
    exists app''. split; [done |]. by etrans.
  - intros k m Hm. destruct (ge_ack _ _ H1 _ _ Hm) as (m' & Hm' & ?).
    destruct (ge_ack _ _ H2 _ _ Hm') as (m'' & ? & ?). exists m''. split; [done | lia].
Qed.

Lemma gsame_trans j g1 g2 g3 : gsame j g1 g2 → gsame j g2 g3 → gsame j g1 g3.
Proof.
  intros H1 H2. split; intros.
  - rewrite (gs_cast _ _ _ H2). apply H1.
  - rewrite (gs_camp _ _ _ H2). apply H1.
  - by apply (gs_lead _ _ _ H1), (gs_lead _ _ _ H2).
  - rewrite (gs_ack _ _ _ H2). apply H1.
Qed.

Lemma step_vote s g i from c lli llt v :
  ginv s g → v = a_nodes s i →
  (from, i, RequestVote (v_term v) c lli llt) ∈ a_sent s →
  lastterm (v_log v) < llt ∨ (llt = lastterm (v_log v) ∧ len (v_log v) ≤ lli) →
  v_vote v = None ∨ v_vote v = Some c →
  ∃ g', gext g g' ∧
    ginv (MkAnet (upd i (v <| v_vote := Some c |>) (a_nodes s))
            ([(i, c, RequestVoteResp (v_term v) true)] ++ a_sent s)) g'.
Proof.
  intros Hi -> Hin Hup Hv. destruct (Hi) as (Hns & Hg & Hms).
  pose proof (Hns i) as Hn. set (v := a_nodes s i) in *.
  destruct (Hms _ Hin) as (lc & Hlc & -> & ->).
  assert (uptodate lc (v_log v)) as Hut by (unfold uptodate, len in *; lia).
  destruct Hv as [Hv | Hv].
  - destruct (vote_ghost g i v c lc Hg Hn Hv Hlc Hut) as (o & He & Hs & Hg').
    set (g' := add_cast i (v_term v) c o g) in *. exists g'. split; [done |].
    apply (ginv_step s g); try done.
    + pose proof Hn as []. split; try done.
      * intros c' ?. simplify_eq/=. exists o. apply lookup_insert_eq.
      * intros t c' o' Hc. unfold g' in Hc. ghost_lookup Hc; [by right |].
        apply no_cast in Hc as [?|[? ?]]; [by left | congruence].
      * intros w Hr Hw. destruct (no_votes w Hr Hw) as (o' & ?).
        exists o'. by eapply lookup_weaken, ge_cast.
    + intros p ->%list_elem_of_singleton. intros _. exists o. apply lookup_insert_eq.
  - apply ginv_step_same; [done | |].
    + pose proof Hn as []. split; try done.
      * intros c' ?. simplify_eq/=. by apply no_vote.
      * intros t c' o' Hc. apply no_cast in Hc. cbn. by rewrite <-Hv.
    + intros p ->%list_elem_of_singleton. intros _. by apply (no_vote _ _ _ _ Hn).
Qed.

(** ** Campaigns *)

Lemma ghost_ok_add_camp t c lc g :
  ghost_ok g → g_camp g !! (t, c) = None → 1 ≤ t → valid g lc → contiguous 0 lc →
  Forall (λ e, e_term e < t) lc → ghost_ok (add_camp t c lc g).
Proof.
  intros Hg Hf ? ? ? ?. pose proof Hg as []. split; try done.
  - intros w t' c' lv Hc. destruct (go_cast _ _ _ _ Hc) as (? & lc' & ? & ?).
    split; [done |]. exists lc'. split; [|done].
    rewrite g_camp_add_camp, lookup_insert_ne; [done | congruence].
  - intros t' c' lc' Hc. ghost_lookup Hc; [done |]. by apply go_camp in Hc.
  - intros t' c' el app Hl. destruct (go_lead _ _ _ _ Hl) as (? & ? & ? & ? & ?).
    split_and!; try done. rewrite g_camp_add_camp, lookup_insert_ne; [done | congruence].
Qed.

Lemma step_campaign s g i v :
  ginv s g → v = a_nodes s i →
  ∃ g', gext g g' ∧
    ginv (MkAnet (upd i (v <| v_role := Candidate |> <| v_term ::= λ t, t + 1 |>
                           <| v_vote := Some i |> <| v_votes := {[ i ]} |>) (a_nodes s))
            ([] ++ a_sent s)) g'.
Proof.
  intros Hi ->. destruct (Hi) as (Hns & Hg & Hms).
  pose proof (Hns i) as Hn. set (v := a_nodes s i) in *.
  set (t := v_term v + 1). pose proof Hn as [].
  assert (g_camp g !! (t, i) = None) as Hf1.
  { destruct (g_camp g !! (t, i)) as [lc|] eqn:Hc; [|done]. apply no_camp in Hc. lia. }
  assert (g_cast g !! (i, t) = None) as Hf2.
  { destruct (g_cast g !! (i, t)) as [[c o]|] eqn:Hc; [|done]. apply no_cast in Hc. lia. }
  set (g1 := add_camp t i (v_log v) g).
  set (g' := add_cast i t i (Some (v_log v)) g1). exists g'.
  assert (gext g g1) as He1.
  { split; [done | by apply insert_subseteq | |]; eauto. }
  assert (gext g1 g') as He2 by by apply gext_add_cast.
  assert (gext g g') as He by by eapply gext_trans.
  assert (∀ j, j ≠ i → gsame j g g') as Hs.
  { intros j Hj. eapply gsame_trans; [|by apply gsame_add_cast].
    split; try done. intros t'. cbn. apply lookup_insert_ne. congruence. }
  split; [done |]. apply (ginv_step s g); try done.
  - apply ghost_ok_add_cast; try done.
    + apply ghost_ok_add_camp; try done; [lia |].
      eapply Forall_impl; [exact no_terms |]. cbn. lia.
    + intros lv ?. simplify_eq. split_and!; [done | |].
      * exists (v_log v). split; [apply lookup_insert_eq |]. by right.
      * intros t0 m n Hm _ Hle. destruct (no_ack _ _ Hm) as [_ Ha].
        replace (t - 1) with (v_term v) by lia. by apply Ha.
  - split; fields_goal; try done.
    + intros c ?. simplify_eq. exists (Some (v_log v)). apply lookup_insert_eq.
    + intros t0 c o Hc. unfold g' in Hc. ghost_lookup Hc; [by right |].
      apply no_cast in Hc. left. lia.
    + intros w _ ->%elem_of_singleton. exists (Some (v_log v)). apply lookup_insert_eq.
    + intros t0 lc Hc. change (g_camp g') with (g_camp g1) in Hc. unfold g1 in Hc.
      ghost_lookup Hc; [done |]. apply no_camp in Hc. lia.
    + intros _. split; [apply lookup_insert_eq |]. intros el app Hl.
      apply (go_lead _ _ Hg) in Hl as [Hl _]. fold t in Hl. congruence.
    + eapply Forall_impl; [exact no_terms |]. cbn. lia.
    + intros t0 m Hm. destruct (no_ack _ _ Hm) as [? Ha]. split; [lia |].
      intros n Hle. destruct (Ha n Hle); [by left | right].
      eapply overwritten_le; [|done]. lia.
    + destruct no_commit. split; [done |].
      eapply cpfx_ext; [exact He | | done]. lia.
  - intros p Hp. by apply not_elem_of_nil in Hp.
Qed.

Lemma step_solicit s g i j v :
  ginv s g → v = a_nodes s i → v_role v = Candidate →
  ∃ g', gext g g' ∧
    ginv (MkAnet (upd i v (a_nodes s))
      ([(i, j, RequestVote (v_term v) i (len (v_log v)) (lastterm (v_log v)))] ++ a_sent s)) g'.
Proof.
  intros Hi -> Hr. pose proof (proj1 Hi i) as Hn.
  apply ginv_step_same; [done.. |]. intros p ->%list_elem_of_singleton.
  exists (v_log (a_nodes s i)). by destruct (no_cand _ _ _ _ Hn Hr) as [? _].
Qed.

Lemma step_count s g i from v :
  ginv s g → v = a_nodes s i →
  (from, i, RequestVoteResp (v_term v) true) ∈ a_sent s →
  v_role v = Candidate →
  ∃ g', gext g g' ∧
    ginv (MkAnet (upd i (v <| v_votes ::= λ vs, {[ from ]} ∪ vs |>) (a_nodes s))
            ([] ++ a_sent s)) g'.
Proof.
  intros Hi -> Hin Hr. destruct (Hi) as (Hns & Hg & Hms). pose proof (Hns i) as [].
  apply ginv_step_same; [done | |].
  - split; try done. fields_goal. intros w Hr' [->%elem_of_singleton | Hw]%elem_of_union.
    + by apply (Hms _ Hin).
    + by apply no_votes.
  - intros p Hp. by apply not_elem_of_nil in Hp.
Qed.

(** ** Leaders *)

(** A term has one leader: two majorities share a voter. *)
Lemma elect_fresh g i v :
  ghost_ok g → node_ok g i v → v_role v = Candidate → maj (v_votes v) V = true →
  g_lead g !! v_term v = None.
Proof.
  intros Hg Hn Hr HQ. destruct (g_lead g !! v_term v) as [[[c el] app]|] eqn:Hl; [|done].
  destruct (go_lead _ _ Hg _ _ _ _ Hl) as (_ & _ & _ & _ & Q & HQ' & Hcast).
  destruct (maj_meet V _ _ HQ HQ') as (w & Hw & Hw').
  destruct (no_votes _ _ _ _ Hn w) as (o & Ho); [congruence | done |].
  destruct (Hcast w Hw') as (lv & Hlv). simplify_eq.
  by apply (no_cand _ _ _ _ Hn Hr) in Hl.
Qed.

(** Electing [c] or letting the leader [c] append: the history where the log
    of the leader of [t] is [el ++ app]. *)
Lemma gext_add_lead t c el app g :
  (g_lead g !! t = None ∨ ∃ app0, g_lead g !! t = Some (c, el, app0) ∧ app0 `prefix_of` app) →
  (∀ m, g_ack g !! (c, t) = Some m → m ≤ len (el ++ app)) →
  gext g (add_lead t c el app g).
Proof.
  intros Hl Ha. split; [done | done | |].
  - intros t' c' el' app' Hl'. rewrite g_lead_add_lead, lookup_insert.
    case_decide; [|by eauto]. subst.
    destruct Hl as [|(app0 & ? & ?)]; [congruence |]. simplify_eq. eauto.
  - intros [w t'] m Hm. rewrite g_ack_add_lead, lookup_insert.
    case_decide; simplify_eq; eauto.
Qed.

Lemma gsame_add_lead j t c el app g : j ≠ c → gsame j g (add_lead t c el app g).
Proof.
  intros Hne. split; try done.
  - intros t' el' app' Hl. by ghost_lookup Hl.
  - intros t'. rewrite g_ack_add_lead. apply lookup_insert_ne. congruence.
Qed.

Lemma ghost_ok_add_lead t c el app g :
  let g' := add_lead t c el app g in
  ghost_ok g → gext g g' → g_camp g !! (t, c) = Some el →
  (∃ Q, maj Q V = true ∧ ∀ w, w ∈ Q → ∃ lv, g_cast g !! (w, t) = Some (c, Some lv)) →
  contiguous 0 (el ++ app) → Forall (λ e, e_term e = t) app → valid g' (el ++ app) →
  (∀ t' c' o, g_cast g !! (c, t') = Some (c', o) → t' ≤ t) →
  ghost_ok g'.
Proof.
  intros g' Hg He Hc HQ Hcon Happ Hval Hlast. pose proof Hg as []. split.
  - intros w t' c' lv Hw. destruct (go_cast _ _ _ _ Hw). split; [|done].
    by eapply valid_mono.
  - intros w t' c' Hw. destruct (go_late _ _ _ Hw) as [[[c1 el1] app1] Hl1].
    destruct (ge_lead _ _ He _ _ _ _ Hl1) as (? & ? & _). by eexists.
  - intros t' c' lc Hlc. destruct (go_camp _ _ _ Hlc) as (? & ? & ? & ?).
    split_and!; try done. by eapply valid_mono.
  - intros t' c' el' app' Hl. unfold g' in Hl. ghost_lookup Hl; [done |].
    destruct (go_lead _ _ _ _ Hl) as (? & ? & ? & ? & ?).
    split_and!; try done. by eapply valid_mono.
  - intros w t' m Hm. unfold g' in Hm. ghost_lookup Hm.
    + eexists _, el, app. split; [apply lookup_insert_eq | done].
    + destruct (go_ack _ _ _ Hm) as (c1 & el1 & app1 & Hl1 & ?).
      destruct (gext_tl _ _ _ _ _ _ He Hl1) as (app' & ? & Hp). exists c1, el1, app'.
      split; [done |]. apply prefix_length in Hp. unfold len in *. lia.
  - intros w t1 t' c' lv m n Hm Hw Hlt Hle. unfold g' in Hm. ghost_lookup Hm.
    + apply Hlast in Hw. lia.
    + eapply (ack_ext V g); [done | done | done | done | reflexivity |].
      by eapply go_ack_cast.
Qed.

Lemma node_ok_leader g i v v' el app :
  let g' := add_lead (v_term v) i el app g in
  ghost_ok g → gext g g' → node_ok g i v → v_role v ≠ Follower →
  v_role v' = Leader → v_term v' = v_term v → v_vote v' = v_vote v →
  v_votes v' = v_votes v → v_commit v' = v_commit v → v_log v' = el ++ app →
  v_log v `prefix_of` el ++ app → valid g' (el ++ app) → contiguous 0 (el ++ app) →
  Forall (λ e, e_term e ≤ v_term v) (el ++ app) →
  (∀ p m, v_match v' !! p = Some m →
     m = 0 ∨ ∃ m', g_ack g !! (p, v_term v) = Some m' ∧ m ≤ m') →
  node_ok g' i v'.
Proof.
  intros g' Hg He Hn Hr Hr' Ht Hvote Hvotes Hcom Hlog Hp Hval Hcon Hterms Hmatch.
  pose proof Hn as [].
  split; rewrite ?Hr', ?Ht, ?Hvote, ?Hvotes, ?Hcom, ?Hlog; try done.
  - intros w _ Hw. by apply no_votes.
  - intros _. exists el, app. split; [apply lookup_insert_eq | done].
  - intros _. apply lookup_insert_eq.
  - intros p m _ Hm. destruct (Hmatch p m Hm) as [?|(m' & Hm' & ?)]; [by left | right].
    destruct (ge_ack _ _ He _ _ Hm') as (m'' & ? & ?). exists m''. split; [done | lia].
  - intros t m Hm. unfold g' in Hm. ghost_lookup Hm.
    + split; [done |]. intros n _. left. unfold pfx, g'. rewrite g_lead_add_lead, lookup_insert_eq.
      apply prefix_take.
    + destruct (no_ack _ _ Hm) as [? Ha]. split; [done |]. intros n Hle.
      destruct (ack_ext V g g' i t m n (v_log v) (v_term v) (v_term v)) as [?|?];
        [done.. | by apply Ha | left; by etrans | by right].
  - destruct no_commit as [Hle Hc]. pose proof (prefix_length _ _ Hp). unfold len in *.
    split; [lia |]. rewrite (prefix_take_eq _ _ _ Hp) by lia. by eapply cpfx_ext.
Qed.

Lemma step_elect s g i v m :
  ginv s g → v = a_nodes s i → v_role v = Candidate → maj (v_votes v) V = true →
  (∀ p x, m !! p = Some x → x = 0) →
  ∃ g', gext g g' ∧
    ginv (MkAnet (upd i (v <| v_role := Leader |> <| v_match := m |>) (a_nodes s))
            ([] ++ a_sent s)) g'.
Proof.
  intros Hi -> Hr HQ Hm. destruct (Hi) as (Hns & Hg & Hms). pose proof (Hns i) as Hn.
  set (v := a_nodes s i) in *. pose proof (elect_fresh g i v Hg Hn Hr HQ) as Hf.
  destruct (no_cand _ _ _ _ Hn Hr) as [Hcamp _].
  set (g' := add_lead (v_term v) i (v_log v) [] g).
  assert (gext g g') as He.
  { apply gext_add_lead; [by left |]. intros m' Hm'.
    apply (go_ack _ _ Hg) in Hm' as (? & ? & ? & ? & _). congruence. }
  assert (valid g' (v_log v ++ [])) as Hval.
  { rewrite app_nil_r. by eapply valid_mono, Hn. }
  exists g'. split; [done |]. apply (ginv_step s g); try done.
  - intros j Hj. by apply gsame_add_lead.
  - apply ghost_ok_add_lead; try done.
    + exists (v_votes v). split; [done |]. intros w Hw.
      destruct (no_votes _ _ _ _ Hn w) as ([lv|] & Ho); [congruence | done | by eauto |].
      apply (go_late _ _ Hg) in Ho as [? ?]. congruence.
    + rewrite app_nil_r. apply Hn.
    + intros t' c' o Hc. apply (no_cast _ _ _ _ Hn) in Hc. lia.
  - eapply (node_ok_leader g i v); try done; rewrite ?app_nil_r; try done; try apply Hn.
    + congruence.
    + intros p x Hx. left. by eapply Hm.
  - intros p Hp. by apply not_elem_of_nil in Hp.
Qed.

Lemma step_append s g i v p :
  ginv s g → v = a_nodes s i → v_role v = Leader →
  ∃ g', gext g g' ∧
    ginv (MkAnet (upd i (v <| v_log ::= λ l, l ++ [MkEntry (v_term v) (len (v_log v) + 1) p] |>)
                    (a_nodes s))
            ([] ++ a_sent s)) g'.
Proof.
  intros Hi -> Hr. destruct (Hi) as (Hns & Hg & Hms). pose proof (Hns i) as Hn.
  set (v := a_nodes s i) in *. set (e := MkEntry (v_term v) (len (v_log v) + 1) p).
  destruct (no_leader _ _ _ _ Hn Hr) as (el & app & Hl & Hlog).
  pose proof (no_self _ _ _ _ Hn Hr) as Hself.
  destruct (go_lead _ _ Hg _ _ _ _ Hl) as (Hcamp & Hcon & Happ & Hval & HQ).
  set (g' := add_lead (v_term v) i el (app ++ [e]) g).
  assert (gext g g') as He.
  { apply gext_add_lead.
    - right. exists app. split; [done |]. by apply prefix_app_r.
    - intros m Hm. rewrite Hself in Hm. simplify_eq. rewrite Hlog. unfold len.
      rewrite !length_app. lia. }
  assert (contiguous 0 (el ++ app ++ [e])) as Hcon'.
  { rewrite app_assoc. apply contiguous_app; [done |]. apply contiguous_single.
    cbn. rewrite Hlog. unfold len. lia. }
  assert (valid g' (el ++ app ++ [e])) as Hval'.
  { intros k e' Hk. rewrite app_assoc in Hk.
    apply lookup_app_Some in Hk as [Hk | [Hk He']].
    - destruct (valid_mono g g' _ He Hval _ _ Hk) as (c1 & el1 & app1 & ? & ?).
      exists c1, el1, app1. split; [done |].
      apply lookup_lt_Some in Hk. by rewrite app_assoc, take_app_le by lia.
    - apply list_lookup_singleton_Some in He' as [? <-].
      exists i, el, (app ++ [e]). split; [apply lookup_insert_eq | apply prefix_take]. }
  exists g'. split; [done |]. apply (ginv_step s g); try done.
  - intros j Hj. by apply gsame_add_lead.
  - apply ghost_ok_add_lead; try done.
    + apply Forall_app. split; [done |]. by apply Forall_singleton.
    + intros t' c' o Hc. apply (no_cast _ _ _ _ Hn) in Hc. lia.
  - eapply (node_ok_leader g i v); try done.
    + congruence.
    + change (v_log v ++ [e] = el ++ app ++ [e]). by rewrite Hlog, app_assoc.
    + rewrite Hlog, app_assoc. by apply prefix_app_r.
    + rewrite app_assoc, <-Hlog. apply Forall_app.
      split; [apply Hn |]. by apply Forall_singleton.
    + intros q m. by apply (no_match _ _ _ _ Hn).
  - intros q Hq. by apply not_elem_of_nil in Hq.
Qed.

Lemma step_replicate s g i j prev rs v :
  ginv s g → v = a_nodes s i → v_role v = Leader → prev ≤ len (v_log v) →
  ∃ g', gext g g' ∧
    ginv (MkAnet (upd i v (a_nodes s))
      ([(i, j, AppendEntries (v_term v) i prev (lastterm (take (N.to_nat prev) (v_log v)))
                 (drop (N.to_nat prev) (v_log v)) (v_commit v) rs)] ++ a_sent s)) g'.
Proof.
  intros Hi -> Hr Hle. pose proof (proj1 Hi i) as Hn.
  apply ginv_step_same; [done.. |]. intros p ->%list_elem_of_singleton. right.
  destruct (no_leader _ _ _ _ Hn Hr) as (el & app & Hl & Hlog).
  destruct (no_commit _ _ _ _ Hn) as [Hc1 Hc2].
  exists el, app, (take (N.to_nat prev) (v_log (a_nodes s i))).
  rewrite take_drop. split_and!; try done; [by rewrite <-Hlog |].
  unfold len in *. rewrite length_take. lia.
Qed.

Lemma step_match s g i from m ci rs v :
  ginv s g → v = a_nodes s i →
  (from, i, AppendEntriesResp (v_term v) true m ci rs) ∈ a_sent s →
  v_role v = Leader →
  ∃ g', gext g g' ∧
    ginv (MkAnet (upd i (v <| v_match ::= <[from := m]> |>) (a_nodes s)) ([] ++ a_sent s)) g'.
Proof.
  intros Hi -> Hin Hr. destruct (Hi) as (Hns & Hg & Hms). pose proof (Hns i) as [].
  apply ginv_step_same; [done | |].
  - split; try done. intros p x _. fields_goal.
    intros [[-> ->]|[_ Hx]]%lookup_insert_Some; [right | by apply no_match].
    by apply (Hms _ Hin).
  - intros p Hp. by apply not_elem_of_nil in Hp.
Qed.

Lemma step_noise s g i j m v :
  ginv s g → v = a_nodes s i → harmless m →
  ∃ g', gext g g' ∧ ginv (MkAnet (upd i v (a_nodes s)) ([(i, j, m)] ++ a_sent s)) g'.
Proof.
  intros Hi -> Hm. apply ginv_step_same; [done | apply Hi |].
  intros p ->%list_elem_of_singleton. destruct m; cbn in *; try done; subst; try done.
  by left.
Qed.

(** ** Commitment *)

Lemma commit_committed g i v n :
  ghost_ok g → node_ok g i v → v_role v = Leader → 0 < n →
  log_term (v_log v) n = Some (v_term v) →
  maj (acked_by V i (v_match v) n) V = true →
  committed V g (v_term v) n ∧ n ≤ len (v_log v) ∧
  take (N.to_nat n) (v_log v) = pfx g (v_term v) n.
Proof.
  intros Hg Hn Hr Hpos Hterm HQ.
  destruct (no_leader _ _ _ _ Hn Hr) as (el & app & Hl & Hlog).
  unfold log_term in Hterm. rewrite decide_False in Hterm by lia.
  apply fmap_Some in Hterm as (e & He & Ht).
  pose proof (lookup_lt_Some _ _ _ He) as Hlt.
  assert (n ≤ len (v_log v)) as Hle by (unfold len; lia).
  split_and!; [|done | by unfold pfx; rewrite Hl, Hlog].
  exists i, el, app, (acked_by V i (v_match v) n). split_and!; try done.
  - rewrite Hlog in He.
    destruct (lead_entry_term _ _ _ _ _ _ _ _ Hg Hl He) as [[? _]|[_ ?]]; [lia |].
    unfold len. lia.
  - by rewrite <-Hlog.
  - intros w. unfold acked_by. intros [->%elem_of_singleton | Hw]%elem_of_union.
    + exists (len (v_log v)). split; [by apply (no_self _ _ _ _ Hn) | done].
    + apply elem_of_list_to_set, list_elem_of_filter in Hw as [Hm _].
      destruct (v_match v !! w) as [m|] eqn:Hw; cbn in Hm; [|lia].
      destruct (no_match _ _ _ _ Hn w m Hr Hw) as [?|(m' & ? & ?)]; [lia |].
      exists m'. split; [done | lia].
Qed.

Lemma step_commit s g i v n :
  ginv s g → v = a_nodes s i → v_role v = Leader → v_commit v < n →
  log_term (v_log v) n = Some (v_term v) →
  maj (acked_by V i (v_match v) n) V = true →
  ∃ g', gext g g' ∧
    ginv (MkAnet (upd i (v <| v_commit := n |>) (a_nodes s)) ([] ++ a_sent s)) g'.
Proof.
  intros Hi -> Hr Hlt Hterm HQ. destruct (Hi) as (Hns & Hg & Hms).
  pose proof (Hns i) as Hn.
  destruct (commit_committed g i _ n Hg Hn Hr) as (Hc & Hle & Hp); [lia | done | done |].
  apply ginv_step_same; [done | |].
  - pose proof Hn as []. split; try done. fields_goal. split; [done |].
    right. exists (v_term (a_nodes s i)), n. split_and!; [done | done |]. by rewrite Hp.
  - intros p Hp'. by apply not_elem_of_nil in Hp'.
Qed.

(** ** Replication *)

(** The splice loop, on logs where equal terms at a position mean equal
    entries: the log is kept when it already extends the replicated entries,
    and is cut to them otherwise. *)
Lemma splice_spec es pre rest :
  contiguous 0 (pre ++ rest) → contiguous (len pre) es →
  (∀ k e e', rest !! k = Some e → es !! k = Some e' → e_term e = e_term e' → e = e') →
  (es `prefix_of` rest ∧ foldl splice_log (pre ++ rest) es = pre ++ rest) ∨
  (¬ es `prefix_of` rest ∧ foldl splice_log (pre ++ rest) es = pre ++ es).
Proof.
  revert pre rest. induction es as [|e es IH]; intros pre rest Hc Hes Hm.
  { left. split; [apply prefix_nil | done]. }
  assert (e_index e = len pre + 1) as Hidx by (rewrite (Hes 0%nat e); [lia | done]).
  assert (contiguous (len (pre ++ [e])) es) as Hes'.
  { intros k e' Hk. rewrite (Hes (S k) e') by done. unfold len. rewrite length_app. cbn. lia. }
  assert (N.to_nat (len pre + 1 - 1) = length pre) as Hpos by (unfold len; lia).
  assert (contiguous 0 (pre ++ [e])) as Hce.
  { apply contiguous_app_inv in Hc as [? _]. apply contiguous_app; [done |].
    apply contiguous_single. rewrite Hidx. unfold len. lia. }
  assert (∀ rest', log_term (pre ++ rest') (e_index e) = e_term <$> head rest') as Hlt.
  { intros rest'. unfold log_term. rewrite Hidx, decide_False by lia.
    rewrite Hpos, lookup_app_r, Nat.sub_diag by lia. by destruct rest'. }
  cbn [foldl]. unfold splice_log at 2 4. rewrite Hlt, Hidx, Hpos.
  destruct rest as [|r rest]; cbn [head fmap option_fmap option_map].
  - rewrite app_nil_r. right. split; [apply prefix_nil_not |].
    destruct (IH (pre ++ [e]) []) as [[Hp Heq]|[_ Heq]];
      rewrite ?app_nil_r in *; try done.
    + apply prefix_nil_inv in Hp as ->. done.
    + by rewrite Heq, <-app_assoc.
  - destruct (decide (e_term r = e_term e)) as [Ht | Ht].
    + assert (r = e) as -> by by apply (Hm 0%nat).
      replace (pre ++ e :: rest) with ((pre ++ [e]) ++ rest) in * by by rewrite <-app_assoc.
      destruct (IH (pre ++ [e]) rest) as [[Hp Heq]|[Hp Heq]]; try done.
      * intros k e1 e2 ? ?. by apply (Hm (S k)).
      * left. split; [by apply prefix_cons | done].
      * right. split; [intros ?%prefix_cons_inv_2; done |]. by rewrite Heq, <-app_assoc.
    + rewrite take_app_length. right.
      split; [intros ?%prefix_cons_inv_1; congruence |].
      destruct (IH (pre ++ [e]) []) as [[Hp Heq]|[_ Heq]];
        rewrite ?app_nil_r in *; try done.
      * apply prefix_nil_inv in Hp as ->. done.
      * by rewrite Heq, <-app_assoc.
Qed.

Lemma contiguous_prefix base a b : a `prefix_of` b → contiguous base b → contiguous base a.
Proof. intros [k ->] Hc. by apply contiguous_app_inv in Hc as [? _]. Qed.

(** A follower that passes the consistency check agrees with the leader up
    to the predecessor index. *)
Lemma prev_agrees g l prev pt t c el app pre :
  ghost_ok g → valid g l → g_lead g !! t = Some (c, el, app) →
  pre `prefix_of` el ++ app → len pre = prev → pt = lastterm pre →
  log_term l prev = Some pt → take (length pre) l = pre.
Proof.
  intros Hg Hv Hl Hp Hprev Hpt Hlt.
  destruct (go_lead _ _ Hg _ _ _ _ Hl) as (_ & _ & _ & Hval & _).
  unfold log_term in Hlt. case_decide as H0.
  { destruct pre; [done |]. unfold len in Hprev. cbn in Hprev. lia. }
  apply fmap_Some in Hlt as (e & He & Ht). unfold len in Hprev.
  replace (N.to_nat (prev - 1)) with (pred (length pre)) in He by lia.
  assert (0 < lastterm pre) as Hpos.
  { rewrite <-Hpt, Ht. pose proof (valid_entry_term _ _ _ _ _ Hg Hv He). lia. }
  destruct (valid_last g pre) as (_ & _ & _ & e' & _ & _ & He' & Ht');
    [by eapply valid_prefix | done |].
  pose proof (prefix_lookup_Some _ _ _ _ He' Hp) as He''.
  assert (S (pred (length pre)) = length pre) as HS by lia.
  pose proof (valid_agree g l (el ++ app) _ e e' Hv Hval He He'') as Heq.
  rewrite HS in Heq. rewrite Heq by congruence.
  by rewrite <-(prefix_is_take pre).
Qed.

Lemma accept_facts g i from v l prev pt es lc rs :
  ghost_ok g → node_ok g i v →
  msg_ok g (from, i, AppendEntries (v_term v) l prev pt es lc rs) →
  log_term (v_log v) prev = Some pt →
  let log' := foldl splice_log (v_log v) es in
  ∃ el app pre, g_lead g !! v_term v = Some (l, el, app) ∧
    pre ++ es `prefix_of` el ++ app ∧ len pre = prev ∧ lc ≤ len (pre ++ es) ∧
    cpfx V g (v_term v) (take (N.to_nat lc) (pre ++ es)) ∧
    pre ++ es `prefix_of` log' ∧ valid g log' ∧ contiguous 0 log' ∧
    Forall (λ e, e_term e ≤ v_term v) log' ∧
    ∀ X, X `prefix_of` v_log v → X `prefix_of` el ++ app → X `prefix_of` log'.
Proof.
  intros Hg Hn Hm Hlt log'. pose proof Hn as [].
  destruct Hm as [(Hpos & -> & ->) | (el & app & pre & Hl & Hp & Hprev & Hpt & Hlc & Hcp)].
  { unfold log_term in Hlt. rewrite decide_False in Hlt by lia.
    apply fmap_Some in Hlt as (e & He & Ht).
    pose proof (valid_entry_term _ _ _ _ _ Hg no_valid He). lia. }
  destruct (go_lead _ _ Hg _ _ _ _ Hl) as (_ & Hcon & _ & Hval & _).
  assert (take (length pre) (v_log v) = pre) as Hpre.
  { eapply prev_agrees; try done. by eapply prefix_app_l. }
  set (rest := drop (length pre) (v_log v)).
  assert (v_log v = pre ++ rest) as Hlog.
  { rewrite <-(take_drop (length pre) (v_log v)) at 1. by rewrite Hpre. }
  assert (contiguous (len pre) es) as Hces.
  { by apply (contiguous_prefix _ _ _ Hp), contiguous_app_inv in Hcon as [_ ?]. }
  exists el, app, pre. unfold log'. rewrite Hlog.
  destruct (splice_spec es pre rest) as [[Hes ->]|[Hes ->]]; [by rewrite <-Hlog | done | ..].
  - intros k e e' Hk Hk' Ht.
    eapply (valid_agree_entry g (v_log v) (el ++ app) (length pre + k)); try done.
    + rewrite Hlog, lookup_app_r by lia. by replace (length pre + k - length pre)%nat with k by lia.
    + eapply prefix_lookup_Some; [|done]. rewrite lookup_app_r by lia.
      by replace (length pre + k - length pre)%nat with k by lia.
  - rewrite <-Hlog. split_and!; try done. rewrite Hlog. by apply prefix_app.
  - split_and!; try done; [by eapply valid_prefix | by eapply contiguous_prefix | |].
    + apply Forall_forall. intros e He.
      eapply elem_of_prefix in He; [|done]. apply list_elem_of_lookup in He as [k Hk].
      destruct (lead_entry_term _ _ _ _ _ _ _ _ Hg Hl Hk) as [[? _]|[? _]]; lia.
    + intros X HX HX'. destruct (decide (length X ≤ length (pre ++ es))%nat) as [|Hgt].
      * by eapply prefix_by_length.
      * destruct Hes. apply (prefix_app_inv pre). etrans; [|exact HX].
        eapply prefix_by_length; [done.. |]. lia.
Qed.

(** ** Acknowledgements *)

Lemma gext_add_ack i t m g : gext g (add_ack i t m g).
Proof.
  split; [done | done | by eauto |]. intros k x Hx. rewrite g_ack_add_ack, lookup_insert.
  case_decide; [subst | by eauto]. rewrite Hx. eexists. split; [done |]. cbn. lia.
Qed.

Lemma gsame_add_ack j i t m g : j ≠ i → gsame j g (add_ack i t m g).
Proof.
  intros Hne. split; try done. intros t'. rewrite g_ack_add_ack.
  apply lookup_insert_ne. congruence.
Qed.

(** What a bound on [m] and on the previous acknowledgement says of the new
    one. *)
Lemma ack_cases i t m g (P : Index → Prop) x :
  g_ack (add_ack i t m g) !! (i, t) = Some x →
  P m → (∀ y, g_ack g !! (i, t) = Some y → P y) → P x.
Proof.
  rewrite g_ack_add_ack, lookup_insert_eq. intros ? Hm Hy. simplify_eq.
  destruct (g_ack g !! (i, t)) as [y|]; cbn.
  - destruct (N.max_spec m y) as [[_ ->]|[_ ->]]; auto.
  - by rewrite N.max_0_r.
Qed.

Lemma ghost_ok_add_ack i t m g c el app :
  ghost_ok g → g_lead g !! t = Some (c, el, app) → m ≤ len (el ++ app) →
  (∀ t' c' o, g_cast g !! (i, t') = Some (c', o) → t' ≤ t) →
  ghost_ok (add_ack i t m g).
Proof.
  intros Hg Hl Hm Hlast. pose proof Hg as []. split; try done.
  - intros w t' x Hx. destruct (decide ((w, t') = (i, t))) as [?|Hne]; simplify_eq.
    + eapply (ack_cases i t m g (λ x, ∃ c el app, g_lead g !! t = Some (c, el, app) ∧
        x ≤ len (el ++ app))); [done | by eauto |]. intros y Hy. by apply go_ack in Hy.
    + rewrite g_ack_add_ack, lookup_insert_ne in Hx by congruence. by apply go_ack in Hx.
  - intros w t0 t' c' lv x n Hx Hc Hlt Hle.
    destruct (decide ((w, t0) = (i, t))) as [?|Hne]; simplify_eq.
    + apply Hlast in Hc. lia.
    + rewrite g_ack_add_ack, lookup_insert_ne in Hx by congruence.
      by eapply go_ack_cast.
Qed.

Lemma step_accept s g i from l prev pt es lc rs log' v :
  ginv s g → v = a_nodes s i →
  (from, i, AppendEntries (v_term v) l prev pt es lc rs) ∈ a_sent s →
  v_role v = Follower → log_term (v_log v) prev = Some pt →
  log' = foldl splice_log (v_log v) es →
  ∃ g', gext g g' ∧
    ginv (MkAnet
      (upd i (v <| v_log := log' |>
                <| v_commit := if decide (v_commit v < lc) then N.min lc (len log')
                               else v_commit v |>) (a_nodes s))
      ([(i, l, AppendEntriesResp (v_term v) true (prev + N.of_nat (length es)) 0 rs)]
         ++ a_sent s)) g'.
Proof.
  intros Hi -> Hin Hr Hlt ->. destruct (Hi) as (Hns & Hg & Hms). pose proof (Hns i) as Hn.
  destruct (accept_facts _ _ _ _ _ _ _ _ _ _ Hg Hn (Hms _ Hin) Hlt)
    as (el & app & pre & Hl & Hp & Hprev & Hlc & Hcp & Hp' & Hval & Hcon & Hterms & Hkeep).
  set (v := a_nodes s i) in *. set (log' := foldl splice_log (v_log v) es) in *.
  set (m := prev + N.of_nat (length es)).
  assert (m = len (pre ++ es)) as Hm by (unfold m, len in *; rewrite length_app; lia).
  set (g' := add_ack i (v_term v) m g). exists g'.
  assert (gext g g') as He by apply gext_add_ack. split; [done |].
  pose proof (prefix_length _ _ Hp). pose proof (prefix_length _ _ Hp').
  assert (∀ t0 n, committed V g t0 n → t0 ≤ v_term v → pfx g t0 n `prefix_of` el ++ app) as HLC.
  { intros t0 n Hc Hle. destruct (decide (t0 = v_term v)) as [->|].
    - unfold pfx. rewrite Hl. apply prefix_take.
    - apply prefix_app_r. eapply leader_complete; [done | done | | done]. lia. }
  apply (ginv_step s g); try done.
  - intros j Hj. by apply gsame_add_ack.
  - eapply ghost_ok_add_ack; [done | done | rewrite Hm; unfold len; lia |].
    intros t' c' o Hc. apply (no_cast _ _ _ _ Hn) in Hc. lia.
  - pose proof Hn as []. split; fields_goal; rewrite ?Hr; try done.
    + intros t x Hx. destruct (decide (t = v_term v)) as [->|Hne].
      * split; [done |]. eapply (ack_cases i (v_term v) m g
          (λ x, ∀ n, n ≤ x → pfx g (v_term v) n `prefix_of` log' ∨ _)); [exact Hx | |].
        -- intros n Hle. left. unfold pfx. rewrite Hl.
           etrans; [|exact Hp']. eapply prefix_by_length; [apply prefix_take | done |].
           rewrite length_take. unfold len in *. lia.
        -- intros y Hy n Hle. destruct (no_ack _ _ Hy) as [_ Ha].
           destruct (Ha n Hle); [left | by right]. apply Hkeep; [done |].
           unfold pfx. rewrite Hl. apply prefix_take.
      * unfold g' in Hx. rewrite g_ack_add_ack, lookup_insert_ne in Hx by congruence.
        destruct (no_ack _ _ Hx) as [? Ha]. split; [done |]. intros n Hle.
        destruct (Ha n Hle) as [Hpre|]; [|by right].
        destruct (decide (pfx g t n `prefix_of` el)) as [Hel | Hel].
        -- left. apply Hkeep; [done |]. by apply prefix_app_r.
        -- right. exists (v_term v), l, el, app. split_and!; try done. lia.
    + case_decide as Hcom.
      * replace (N.min lc (len log')) with lc by (unfold len in *; lia).
        split; [unfold len in *; lia |].
        rewrite (prefix_take_eq _ _ _ Hp') by (unfold len in *; lia).
        by eapply cpfx_ext.
      * destruct no_commit as [Hle Hc].
        assert (take (N.to_nat (v_commit v)) (v_log v) `prefix_of` log') as Hpc.
        { apply Hkeep; [apply prefix_take |].
          destruct Hc as [-> | (t0 & n & Hc & ? & Hpn)]; [apply prefix_nil |].
          etrans; [exact Hpn |]. by apply HLC. }
        pose proof (prefix_length _ _ Hpc) as Hlen. rewrite length_take in Hlen.
        split; [unfold len in *; lia |].
        rewrite (prefix_take_eq _ _ _ Hpc), take_idemp by (rewrite length_take; unfold len in *; lia).
        by eapply cpfx_ext.
  - intros p ->%list_elem_of_singleton. intros _. eexists.
    split; [apply lookup_insert_eq |]. lia.
Qed.

(** ** Reachable states *)

Theorem anstep_ginv s s' g : ginv s g → anstep V s s' → ∃ g', gext g g' ∧ ginv s' g'.
Proof.
  intros Hi Hs. destruct Hs as [s i v' ps Ha]. destruct Ha.
  - apply ginv_step_same; [done | |].
    + eapply node_ok_follower; [apply Hi | done | done | done |]. left. done.
    + intros p Hp. by apply not_elem_of_nil in Hp.
  - apply ginv_step_same; [done | |].
    + eapply node_ok_follower; [apply Hi | done | done | done |]. right. done.
    + intros p Hp. by apply not_elem_of_nil in Hp.
  - apply ginv_step_same; [done | |].
    + eapply node_ok_follower; [apply Hi | done | done | done |]. right. done.
    + intros p Hp. by apply not_elem_of_nil in Hp.
  - by apply step_campaign.
  - by apply step_solicit.
  - by eapply step_vote.
  - by eapply step_count.
  - by apply step_elect.
  - by apply step_append.
  - by apply step_replicate.
  - by eapply step_accept.
  - by eapply step_match.
  - by apply step_commit.
  - by apply step_noise.
Qed.

(** Taking entries from the leader of the replica's term never cuts below its
    commit index. *)
Lemma accept_keeps_commit s g i from l prev pt es lc rs :
  ginv s g → let v := a_nodes s i in
  (from, i, AppendEntries (v_term v) l prev pt es lc rs) ∈ a_sent s →
  log_term (v_log v) prev = Some pt →
  take (N.to_nat (v_commit v)) (v_log v) `prefix_of` foldl splice_log (v_log v) es.
Proof.
  intros (Hns & Hg & Hms) v Hin Hlt. pose proof (Hns i) as Hn. fold v in Hn.
  destruct (accept_facts _ _ _ _ _ _ _ _ _ _ Hg Hn (Hms _ Hin) Hlt)
    as (el & app & pre & Hl & _ & _ & _ & _ & _ & _ & _ & _ & Hkeep).
  apply Hkeep; [apply prefix_take |].
  destruct (no_commit _ _ _ _ Hn) as [_ [-> | (t & n & Hc & Hle & Hp)]];
    [apply prefix_nil |].
  etrans; [exact Hp |]. destruct (decide (t = v_term v)) as [->|].
  - unfold pfx. rewrite Hl. apply prefix_take.
  - apply prefix_app_r. eapply leader_complete; [done | done | | done]. lia.
Qed.

Definition ghost_init : ghost := MkGhost ∅ ∅ ∅ ∅.

Lemma ginv_init : ginv ainit ghost_init.
Proof.
  split_and!.
  - intros i. split; cbn; try done.
    + split; [done |]. by left.
  - split; cbn; try done.
  - intros p Hp. by apply not_elem_of_nil in Hp.
Qed.

Lemma areach_ginv s : areach V s → ∃ g, ginv s g.
Proof.
  intros Hr. unfold areach in Hr.
  refine (rtc_ind_r (λ s, ∃ g, ginv s g) ainit _ _ s Hr).
  - exists ghost_init. apply ginv_init.
  - intros s1 s2 _ Hs [g Hg]. destruct (anstep_ginv _ _ _ Hg Hs) as (g' & _ & ?). eauto.
Qed.

(** ** The safety theorems *)

(** A later state has a history that extends the earlier one's. *)
Lemma asteps_ginv s s' g :
  ginv s g → rtc (anstep V) s s' → ∃ g', gext g g' ∧ ginv s' g'.
Proof.
  intros Hg Hr. revert g Hg. induction Hr as [s|s1 s2 s3 Hs Hr IH]; intros g Hg.
  - exists g. split; [apply gext_refl | done].
  - destruct (anstep_ginv _ _ _ Hg Hs) as (g2 & He & Hg2).
    destruct (IH _ Hg2) as (g3 & He' & Hg3). exists g3. split; [|done].
    by eapply gext_trans.
Qed.

Lemma election_safety_ginv s s' g i j :
  ginv s g → rtc (anstep V) s s' →
  v_role (a_nodes s i) = Leader → v_role (a_nodes s' j) = Leader →
  v_term (a_nodes s i) = v_term (a_nodes s' j) → i = j.
Proof.
  intros Hg Hr Hi Hj Ht. destruct (asteps_ginv _ _ _ Hg Hr) as (g' & He & Hg').
  destruct (no_leader _ _ _ _ (proj1 Hg i) Hi) as (el & app & Hl & _).
  destruct (no_leader _ _ _ _ (proj1 Hg' j) Hj) as (el' & app' & Hl' & _).
  destruct (ge_lead _ _ He _ _ _ _ Hl) as (app'' & Hl'' & _).
  rewrite Ht in Hl''. congruence.
Qed.

Lemma log_matching_ginv s g i j k e e' :
  ginv s g → v_log (a_nodes s i) !! k = Some e → v_log (a_nodes s j) !! k = Some e' →
  e_term e = e_term e' →
  take (S k) (v_log (a_nodes s i)) = take (S k) (v_log (a_nodes s j)).
Proof.
  intros (Hn & _ & _) He He' Ht.
  eapply valid_agree; [apply (Hn i) | apply (Hn j) | done..].
Qed.

(** Two committed prefixes are comparable. *)
Lemma cpfx_total g T T' l l' :
  ghost_ok g → cpfx V g T l → cpfx V g T' l' → l `prefix_of` l' ∨ l' `prefix_of` l.
Proof.
  intros Hg [-> | (t & n & Hc & _ & Hp)]; [left; apply prefix_nil |].
  intros [-> | (t' & n' & Hc' & _ & Hp')]; [right; apply prefix_nil |].
  pose proof Hc as (c & el & app & Q & Hl & _).
  pose proof Hc' as (c' & el' & app' & Q' & Hl' & _).
  assert (∀ t n c el app, g_lead g !! t = Some (c, el, app) → pfx g t n `prefix_of` el ++ app)
    as Hpt by (intros ????? Hx; unfold pfx; rewrite Hx; apply prefix_take).
  destruct (N.lt_trichotomy t t') as [Hlt | [-> | Hlt]].
  - apply (prefix_weak_total _ _ (el' ++ app')).
    + etrans; [exact Hp |]. apply prefix_app_r. by eapply leader_complete.
    + etrans; [exact Hp' |]. by eapply Hpt.
  - apply (prefix_weak_total _ _ (el ++ app)).
    + etrans; [exact Hp |]. by eapply Hpt.
    + etrans; [exact Hp' |]. by eapply Hpt.
  - apply (prefix_weak_total _ _ (el ++ app)).
    + etrans; [exact Hp |]. by eapply Hpt.
    + etrans; [exact Hp' |]. apply prefix_app_r. by eapply leader_complete.
Qed.

Lemma state_machine_safety_ginv s g i j k :
  ginv s g → k ≤ v_commit (a_nodes s i) → k ≤ v_commit (a_nodes s j) →
  take (N.to_nat k) (v_log (a_nodes s i)) = take (N.to_nat k) (v_log (a_nodes s j)).
Proof.
  intros (Hn & Hg & _) Hi Hj.
  destruct (no_commit _ _ _ _ (Hn i)) as [Hli Hci].
  destruct (no_commit _ _ _ _ (Hn j)) as [Hlj Hcj]. unfold len in *.
  pose proof (prefix_take_take (v_log (a_nodes s i)) (N.to_nat k)
    (N.to_nat (v_commit (a_nodes s i))) ltac:(lia)) as Hpi.
  pose proof (prefix_take_take (v_log (a_nodes s j)) (N.to_nat k)
    (N.to_nat (v_commit (a_nodes s j))) ltac:(lia)) as Hpj.
  destruct (cpfx_total _ _ _ _ _ Hg (cpfx_prefix _ _ _ _ _ Hpi Hci)
    (cpfx_prefix _ _ _ _ _ Hpj Hcj)) as [Hp | Hp]; [|symmetry];
    (apply prefix_length_eq; [done |]; rewrite !length_take; lia).
Qed.

(** What a replica has committed is in the log of every leader of its term
    or of a later one, then or later. *)
Lemma leader_completeness_ginv s s' g i j :
  ginv s g → rtc (anstep V) s s' → v_role (a_nodes s' j) = Leader →
  v_term (a_nodes s i) ≤ v_term (a_nodes s' j) →
  take (N.to_nat (v_commit (a_nodes s i))) (v_log (a_nodes s i))
    `prefix_of` v_log (a_nodes s' j).
Proof.
  intros Hg Hr Hj Ht. destruct (asteps_ginv _ _ _ Hg Hr) as (g' & He & (Hn' & Hg' & _)).
  destruct (no_leader _ _ _ _ (Hn' j) Hj) as (el & app & Hl & ->).
  destruct (no_commit _ _ _ _ (proj1 Hg i)) as [_ Hc].
  apply (cpfx_ext _ _ g' _ _ _ He Ht) in Hc as [-> | (t & n & Hc & Hle & Hp)];
    [apply prefix_nil |].
  etrans; [exact Hp |].
  destruct (decide (t = v_term (a_nodes s' j))) as [->|].
  - unfold pfx. rewrite Hl. apply prefix_take.
  - apply prefix_app_r. eapply leader_complete; [done | done | | done]. lia.
Qed.

(** A replica's term and commit index never go back, its vote never changes
    within a term, and what it has committed stays in its log. *)
Record grows (v v' : view) : Prop := {
  gr_term : v_term v ≤ v_term v';
  gr_vote c : v_term v' = v_term v → v_vote v = Some c → v_vote v' = Some c;
  gr_commit : v_commit v ≤ v_commit v';
  gr_log : take (N.to_nat (v_commit v)) (v_log v) `prefix_of` v_log v';
}.

Lemma grows_refl v : grows v v.
Proof. split; [done | done | done | apply prefix_take]. Qed.

Lemma grows_trans v1 v2 v3 : grows v1 v2 → grows v2 v3 → v_commit v2 ≤ len (v_log v2) →
  grows v1 v3.
Proof.
  intros [] [] Hlen. split; [lia | | lia |].
  - intros c Ht Hv. apply gr_vote1; [lia |]. apply gr_vote0; [lia | done].
  - etrans; [|exact gr_log1]. eapply prefix_by_length; [exact gr_log0 | apply prefix_take |].
    rewrite !length_take. unfold len in Hlen. lia.
Qed.

Lemma astep_grows s g i v' ps :
  ginv s g → astep V (a_sent s) i (a_nodes s i) v' ps → grows (a_nodes s i) v'.
Proof.
  intros Hg Ha. pose proof (no_commit _ _ _ _ (proj1 Hg i)) as [Hlen _].
  pose proof (accept_keeps_commit s g i) as Hkeep.
  destruct Ha; split; fields_goal; try done; try lia; try apply prefix_take.
  - intros c0 _ Hc. destruct_or!; congruence.
  - apply prefix_app_r, prefix_take.
  - case_decide; [|done].
    pose proof (prefix_length _ _ (Hkeep _ _ _ _ _ _ _ Hg ltac:(done) ltac:(done))) as Hl.
    subst log'. rewrite length_take in Hl. unfold len in *. lia.
  - subst log'. by eapply Hkeep.
Qed.

Lemma asteps_grows s g s' i :
  ginv s g → rtc (anstep V) s s' → grows (a_nodes s i) (a_nodes s' i).
Proof.
  intros Hg Hr. revert g Hg.
  induction Hr as [s|s1 s2 s3 Hs Hr IH]; intros g Hg; [apply grows_refl |].
  destruct (anstep_ginv _ _ _ Hg Hs) as (g2 & _ & Hg2). specialize (IH _ Hg2).
  eapply grows_trans; [|exact IH | apply (no_commit _ _ _ _ (proj1 Hg2 i))].
  destruct Hs as [s j v' ps Ha]. cbn. unfold upd. case_decide as Hj; [|apply grows_refl].
  subst j. by eapply astep_grows.
Qed.

(** The committed prefixes agree across time: what a replica has committed
    at one point of a run is what another has committed at a later one. *)
Lemma state_machine_safety_steps s g s' i j k :
  ginv s g → rtc (anstep V) s s' →
  k ≤ v_commit (a_nodes s i) → k ≤ v_commit (a_nodes s' j) →
  take (N.to_nat k) (v_log (a_nodes s i)) = take (N.to_nat k) (v_log (a_nodes s' j)).
Proof.
  intros Hg Hr Hi Hj. destruct (asteps_ginv _ _ _ Hg Hr) as (g' & _ & Hg').
  pose proof (asteps_grows s g s' i Hg Hr) as [_ _ Hc Hl].
  destruct (no_commit _ _ _ _ (proj1 Hg i)) as [Hlen _].
  rewrite <-(state_machine_safety_ginv s' g' i j k Hg' ltac:(lia) Hj).
  destruct Hl as [rest ->]. rewrite take_app_le, take_take by
    (rewrite length_take; unfold len in *; lia).
  f_equal. lia.
Qed.

(** A replica grants its vote of a term to one candidate only. *)
Lemma vote_once_ginv s g i j j' t :
  ginv s g → (i, j, RequestVoteResp t true) ∈ a_sent s →
  (i, j', RequestVoteResp t true) ∈ a_sent s → j = j'.
Proof.
  intros (_ & _ & Hm) H1 H2. destruct (Hm _ H1 eq_refl) as [o Ho].
  destruct (Hm _ H2 eq_refl) as [o' Ho']. congruence.
Qed.

End invariant.
