(* ===== verification/RaftNet.v ===== *)
(** * A cluster of Raft replicas

    The replicas of one group, connected by a network that may delay,
    reorder, duplicate and drop packets, driven the way
    [crates/cs-consensus/src/driver.rs] and [src/sim.rs] drive them: ticks,
    deliveries, client proposals and reads, drains of the outboxes, and
    crashes from which a replica comes back by [RaftNode::restore_from] on
    its own store.

    In the runs of [netstep], which the theorems are about, membership is
    fixed ([propose_conf] is not called) and [compact] is not called; the
    theorems also ask for [snapshot_threshold = 0], the default, so that
    nothing is compacted. [api_step] has the two operations left out. *)

From stdpp Require Import base numbers gmap sorting list.
From S2P Require Import Prelude RaftTypes RaftStore RaftNode RaftAbs.

Local Open Scope N_scope.
Local Open Scope crab_scope.

Section net.
Context {SM S : Type} `{StateMachine SM} `{LawfulStore S}.
Context (V : list ReplicaId) (cfg : Config) (sm0 : SM) (s0 : S).

Notation node := (RaftNode SM S).

Record net := MkNet {
  n_nodes : ReplicaId → node;
  n_sent : list (ReplicaId * ReplicaId * Message);
}.

(** The packets replica [i] puts on the wire for its outputs. *)
Definition packets (i : ReplicaId) (outs : list (ReplicaId * Message)) :
    list (ReplicaId * ReplicaId * Message) :=
  (λ o, (i, o.1, o.2)) <$> outs.

(** What one replica can be made to do, given the packets sent so far. *)
Inductive nstep (M : list (ReplicaId * ReplicaId * Message)) (i : ReplicaId) (n : node) :
    node → list (ReplicaId * Message) → Prop :=
  | n_tick : nstep M i n (on_tick n).1 (on_tick n).2
  | n_deliver from m :
      (from, i, m) ∈ M → nstep M i n (on_message from m n).1 (on_message from m n).2
  | n_propose c : nstep M i n (propose c n).1.2 (propose c n).2
  | n_read req q : nstep M i n (read req q n).1 (read req q n).2
  | n_take_ready_reads : nstep M i n (take_ready_reads n).2 []
  | n_take_applied : nstep M i n (take_applied n).2 []
  | n_restart : nstep M i n (restore_from i V cfg sm0 (rn_store n)) [].

(** The whole interface of a replica: [propose_conf] and [compact] too. No
    theorem on the cluster covers these two steps; they are what a client of
    the harness of [Sim] can also call. *)
Inductive api_step (M : list (ReplicaId * ReplicaId * Message)) (i : ReplicaId) (n : node) :
    node → list (ReplicaId * Message) → Prop :=
  | api_plain n' outs : nstep M i n n' outs → api_step M i n n' outs
  | api_propose_conf vs : api_step M i n (propose_conf vs n).1.2 (propose_conf vs n).2
  | api_compact : api_step M i n (compact n) [].

Inductive netstep : net → net → Prop :=
  | netstep_intro s i n' outs :
      nstep (n_sent s) i (n_nodes s i) n' outs →
      netstep s (MkNet (λ j, if decide (j = i) then n' else n_nodes s j)
                   (packets i outs ++ n_sent s)).

(** The network whose replicas move by [R]. *)
Inductive net_by (R : list (ReplicaId * ReplicaId * Message) → ReplicaId → node → node →
    list (ReplicaId * Message) → Prop) : net → net → Prop :=
  | net_by_intro s i n' outs :
      R (n_sent s) i (n_nodes s i) n' outs →
      net_by R s (MkNet (λ j, if decide (j = i) then n' else n_nodes s j)
                   (packets i outs ++ n_sent s)).

Lemma net_by_nstep s s' : net_by nstep s s' ↔ netstep s s'.
Proof. split; intros []; by constructor. Qed.

Definition net_init : net := MkNet (λ i, new_with_store i V cfg sm0 s0) [].

Definition net_reach (s : net) : Prop := rtc netstep net_init s.

(** The state machine after the commands of a log. *)
Definition apply_payload (sm : SM) (e : Entry) : SM :=
  match e_payload e with Command c => (sm_apply sm c).1 | _ => sm end.

Definition replay (l : list Entry) : SM := foldl apply_payload sm0 l.

(** A store fresh enough for [new_with_store]. *)
Definition store_empty (s : S) : Prop :=
  store_wf s ∧ live s = [] ∧ base_index s = 0 ∧ base_term s = 0 ∧
  load_snapshot s = None ∧ load_hard_state s = MkHardState 0 None 0.

(** The part of a replica the protocol is about. *)
Definition view_of (n : node) : view :=
  MkView (rn_current_term n) (rn_voted_for n) (rn_role n) (rn_votes n)
    (live (rn_store n)) (rn_commit_index n) (delete (rn_id n) (rn_match_index n)).

(** A store without snapshots whose log holds no membership change. *)
Record plain_store (s : S) : Prop := {
  ps_wf : store_wf s;
  ps_base : base_index s = 0;
  ps_base_term : base_term s = 0;
  ps_snap : load_snapshot s = None;
  ps_plain : Forall (λ e, is_config (e_payload e) = false) (live s);
}.

(** The invariant of one replica of the group, but for the hard state. *)
Record node_pre (i : ReplicaId) (n : node) : Prop := {
  np_id : rn_id n = i;
  np_config : rn_config n = Simple (sorted V);
  np_base_config : rn_base_config n = Simple (sorted V);
  np_cfg : snapshot_threshold (rn_cfg n) = 0;
  np_store : plain_store (rn_store n);
  np_next p x : rn_next_index n !! p = Some x → 1 ≤ x;
  np_applied : rn_last_applied n ≤ rn_commit_index n;
  np_commit : rn_commit_index n ≤ len (live (rn_store n));
  np_sm : rn_sm n = replay (take (N.to_nat (rn_last_applied n)) (live (rn_store n)));
}.

(** The store holds the current term, vote and commit index: what
    [restore_from] reads back after a crash. *)
Record node_inv (i : ReplicaId) (n : node) : Prop := {
  ni_pre : node_pre i n;
  ni_hard : load_hard_state (rn_store n) =
    MkHardState (rn_current_term n) (rn_voted_for n) (rn_commit_index n);
}.

(** What holds of every packet of such a group. *)
Definition packet_wf (m : Message) : Prop :=
  match m with
  | AppendEntries _ _ prev _ es _ _ =>
      contiguous prev es ∧ Forall (λ e, is_config (e_payload e) = false) es
  | InstallSnapshot _ _ _ _ _ _ _ => False
  | _ => True
  end.

End net.

Arguments net : clear implicits.
