(* ===== verification/RaftRefine.v ===== *)
(** * The replicas of [RaftNode] implement the abstract protocol

    Every operation of a replica that a cluster of [RaftNet] can be made to
    run is a sequence of steps of [RaftAbs] on the replica's view, so the
    safety theorems of [RaftInvariant] hold of the cluster. *)

From stdpp Require Import base numbers gmap sorting list.
From S2P Require Import Prelude RaftTypes RaftStore RaftNode RaftAbs RaftSafety RaftInvariant RaftNet.

Local Open Scope N_scope.
Local Open Scope crab_scope.

(** A sequence of abstract steps of one replica, with all it sends. *)
Inductive asteps (V : list ReplicaId) (M : list (ReplicaId * ReplicaId * Message))
    (i : ReplicaId) : view → view → list (ReplicaId * ReplicaId * Message) → Prop :=
  | asteps_refl v : asteps V M i v v []
  | asteps_step v1 v2 v3 ps qs :
      astep V M i v1 v2 ps → asteps V M i v2 v3 qs → asteps V M i v1 v3 (ps ++ qs).

Section asteps.
Context (V : list ReplicaId) (M : list (ReplicaId * ReplicaId * Message)) (i : ReplicaId).

Lemma asteps_one v1 v2 ps : astep V M i v1 v2 ps → asteps V M i v1 v2 ps.
Proof.
  intros Ha. rewrite <-(app_nil_r ps). eapply asteps_step; [done |]. constructor.
Qed.

Lemma asteps_trans v1 v2 v3 ps qs :
  asteps V M i v1 v2 ps → asteps V M i v2 v3 qs → asteps V M i v1 v3 (ps ++ qs).
Proof.
  intros H1 H2. induction H1 as [|v1 v2' v3' ps ps' Ha _ IH]; [done |].
  rewrite <-app_assoc. eapply asteps_step; eauto.
Qed.

(** A step that sends nothing, before the rest. *)
Lemma asteps_silent v1 v2 v3 qs :
  astep V M i v1 v2 [] → asteps V M i v2 v3 qs → asteps V M i v1 v3 qs.
Proof. intros. by eapply (asteps_step V M i v1 v2 v3 []). Qed.

(** Sending one packet to each of a list of replicas. *)
Lemma asteps_send v (f : ReplicaId → Message) (ps : list ReplicaId) :
  (∀ j, astep V M i v v [(i, j, f j)]) →
  asteps V M i v v (packets i ((λ p, (p, f p)) <$> ps)).
Proof.
  intros Hs. induction ps as [|p ps IH]; cbn; [constructor |].
  by eapply (asteps_step V M i v v v [_]).
Qed.

Lemma astep_mono M' v v' ps :
  (∀ p, p ∈ M → p ∈ M') → astep V M i v v' ps → astep V M' i v v' ps.
Proof. intros HM Ha. destruct Ha; by econstructor; eauto. Qed.

(** The steps of one replica as steps of the system. *)
Lemma asteps_net v v' ps s :
  asteps V M i v v' ps → a_nodes s i = v → (∀ p, p ∈ M → p ∈ a_sent s) →
  ∃ s', rtc (anstep V) s s' ∧ a_nodes s' i = v' ∧
    (∀ j, j ≠ i → a_nodes s' j = a_nodes s j) ∧
    ∀ p, p ∈ a_sent s' ↔ p ∈ ps ∨ p ∈ a_sent s.
Proof.
  intros Ha. revert s. induction Ha as [v|v1 v2 v3 ps qs Ha _ IH]; intros s Hv HM.
  - exists s. split_and!; [done | done | done |].
    intros p. rewrite elem_of_nil. tauto.
  - subst v1. set (s1 := MkAnet (upd i v2 (a_nodes s)) (ps ++ a_sent s)).
    assert (anstep V s s1) as Hs1.
    { constructor. by eapply astep_mono. }
    destruct (IH s1) as (s' & Hr & Hv' & Hne & Hsent).
    { cbn. unfold upd. by rewrite decide_True. }
    { intros p Hp. apply elem_of_app. right. by apply HM. }
    exists s'. split_and!; [by eapply rtc_l | done | |].
    + intros j Hj. rewrite Hne by done. cbn. unfold upd. by rewrite decide_False.
    + intros p. rewrite Hsent. cbn. rewrite !elem_of_app. tauto.
Qed.

End asteps.

Section refine.
Context {SM S : Type} `{StateMachine SM} `{LawfulStore S}.
Context (V : list ReplicaId) (cfg : Config) (sm0 : SM).

Notation node := (RaftNode SM S).
Notation node_inv := (node_inv (SM := SM) (S := S) V sm0).
Notation W := (sorted V).

(** ** Stores without snapshots *)

Lemma plain_save_hard (s : S) hs :
  plain_store s → let s' := save_hard_state s hs in
  plain_store s' ∧ live s' = live s ∧ load_hard_state s' = hs.
Proof.
  intros [Hwf Hb Hbt Hsn Hpl]. cbn.
  destruct (save_hard_state_spec s hs Hwf) as (? & Hl & Hb' & Hbt' & ? & Hsn' & _).
  split_and!; [split|..]; congruence.
Qed.

Lemma plain_last_index (s : S) : plain_store s → last_index s = len (live s).
Proof. intros [Hwf Hb _ _ _]. rewrite last_index_spec, Hb by done. done. Qed.

Lemma plain_last_term (s : S) : plain_store s → last_term s = lastterm (live s).
Proof. intros [Hwf _ Hbt _ _]. rewrite last_term_spec, Hbt by done. done. Qed.

Lemma plain_contiguous (s : S) : plain_store s → contiguous 0 (live s).
Proof. intros [Hwf Hb _ _ _]. rewrite <-Hb. by apply live_contiguous. Qed.

Lemma plain_append (s : S) e :
  plain_store s → e_index e = len (live s) + 1 → is_config (e_payload e) = false →
  let s' := append s [e] in
  plain_store s' ∧ live s' = live s ++ [e] ∧ load_hard_state s' = load_hard_state s.
Proof.
  intros Hs Hi Hp. pose proof (plain_last_index s Hs). destruct Hs as [Hwf Hb Hbt Hsn Hpl].
  destruct (append_spec s [e] Hwf) as (? & Hl & Hb' & Hbt' & ? & Hsn' & _).
  { apply contiguous_single. lia. }
  split_and!; [split|..]; try congruence.
  rewrite Hl. apply Forall_app. split; [done |]. by apply Forall_singleton.
Qed.

Lemma plain_truncate (s : S) idx :
  plain_store s → let s' := truncate_suffix s idx in
  plain_store s' ∧ live s' = take (N.to_nat (idx - 1)) (live s) ∧
  load_hard_state s' = load_hard_state s.
Proof.
  intros [Hwf Hb Hbt Hsn Hpl].
  destruct (truncate_suffix_spec s idx Hwf) as (? & Hl & Hb' & Hbt' & ? & Hsn' & _).
  rewrite Hb, N.sub_0_r in Hl. split_and!; [split|..]; try congruence.
  rewrite Hl. by apply Forall_take.
Qed.

Lemma plain_entries (s : S) lo :
  plain_store s → 1 ≤ lo → entries s lo (last_index s) = drop (N.to_nat (lo - 1)) (live s).
Proof.
  intros Hs Hlo. pose proof (plain_contiguous s Hs) as Hc.
  pose proof (plain_last_index s Hs) as Hli.
  rewrite entries_spec by apply Hs.
  rewrite (list_filter_ext_elem _ (λ e, lo - 1 < e_index e)).
  - rewrite (contiguous_filter_gt 0) by done. by rewrite N.sub_0_r.
  - intros e [k Hk]%list_elem_of_lookup. pose proof (Hc _ _ Hk).
    apply lookup_lt_Some in Hk. unfold len in Hli. lia.
Qed.

Lemma plain_term_at (n : node) idx :
  plain_store (rn_store n) → term_at n idx = log_term (live (rn_store n)) idx.
Proof.
  intros [Hwf Hb _ _ _]. unfold term_at, log_term. rewrite Hb. case_decide; [done |].
  rewrite decide_False by lia.
  rewrite entry_term_spec, Hb by done. unfold log_at.
  rewrite decide_False by lia. by rewrite N.sub_0_r.
Qed.

Lemma plain_entry_at (n : node) idx :
  plain_store (rn_store n) → 0 < idx →
  entry_at n idx = live (rn_store n) !! N.to_nat (idx - 1).
Proof.
  intros [Hwf Hb _ _ _] Hi. unfold entry_at. rewrite Hb, decide_False by lia.
  rewrite entry_spec, Hb by done. unfold log_at.
  rewrite decide_False by lia. by rewrite N.sub_0_r.
Qed.

Lemma plain_live_entries (n : node) :
  plain_store (rn_store n) → live_entries n = live (rn_store n).
Proof.
  intros Hs. unfold live_entries. rewrite (ps_base _ Hs).
  rewrite plain_entries by (done || lia). done.
Qed.

(** Without membership entries the configuration is the base one. *)
Lemma plain_recompute (n : node) :
  plain_store (rn_store n) →
  recompute_config n = n <| rn_config := rn_base_config n |>.
Proof.
  intros Hs. unfold recompute_config. rewrite plain_live_entries by done.
  assert (omap payload_config (reverse (live (rn_store n))) = []) as ->; [|done].
  pose proof (ps_plain _ Hs) as Hpl. apply Forall_reverse in Hpl.
  induction Hpl as [|e l He _ IH]; [done |]. cbn. unfold payload_config at 1.
  destruct (e_payload e); cbn in *; done.
Qed.

(** ** Operations that do not touch the view *)

Notation node_pre := (node_pre (SM := SM) (S := S) V sm0).

Lemma persist_spec i (n : node) :
  node_pre i n →
  node_inv i (persist_hard_state n) ∧ view_of (persist_hard_state n) = view_of n.
Proof.
  intros []. destruct (plain_save_hard (rn_store n)
    (MkHardState (rn_current_term n) (rn_voted_for n) (rn_commit_index n)) np_store)
    as (Hp & Hl & Hh).
  unfold persist_hard_state.
  split; [split; [split|]|]; unfold view_of; fields_goal; rewrite ?Hl; done.
Qed.

Lemma serve_reads_spec i (n : node) :
  (node_inv i n → node_inv i (serve_reads n)) ∧ view_of (serve_reads n) = view_of n.
Proof. unfold serve_reads. destruct (rn_role n); split; try done. intros [[] ?]. by split. Qed.

Lemma maybe_compact_spec i (n : node) : node_pre i n → maybe_compact n = n.
Proof. intros []. unfold maybe_compact. rewrite np_cfg, decide_False; [done | lia]. Qed.

Lemma recompute_spec i (n : node) :
  node_pre i n → recompute_config n = n <| rn_config := Simple W |>.
Proof. intros []. by rewrite plain_recompute, np_base_config. Qed.

(** [apply_loop] applies exactly the entries up to the commit index. *)
Lemma apply_loop_spec fuel i (n : node) :
  node_pre i n → fuel = N.to_nat (rn_commit_index n - rn_last_applied n) →
  ∃ ob, apply_loop fuel n =
    n <| rn_last_applied := rn_commit_index n |>
      <| rn_sm := replay sm0 (take (N.to_nat (rn_commit_index n)) (live (rn_store n))) |>
      <| rn_applied_outbox := ob |>.
Proof.
  revert n. induction fuel as [|fuel IH]; intros n Hn Hf; pose proof Hn as [].
  - assert (rn_last_applied n = rn_commit_index n) as Heq by lia.
    exists (rn_applied_outbox n). cbn. rewrite <-Heq, <-np_sm. by destruct n.
  - cbn. rewrite decide_True by lia. set (idx := rn_last_applied n + 1).
    set (n1 := n <| rn_last_applied := idx |>).
    assert (entry_at n1 idx = live (rn_store n) !! N.to_nat (rn_last_applied n)) as He.
    { rewrite plain_entry_at by (done || (unfold idx; lia)).
      cbn. f_equal. unfold idx. lia. }
    destruct (lookup_lt_is_Some_2 (live (rn_store n)) (N.to_nat (rn_last_applied n)))
      as [e Hk]; [unfold len in *; lia |].
    assert (∃ ob, apply_entry n1 idx =
      n1 <| rn_sm := apply_payload (rn_sm n) e |> <| rn_applied_outbox := ob |>) as [ob Hap].
    { unfold apply_entry. rewrite He, Hk. unfold apply_payload.
      destruct (e_payload e) as [c| |c] eqn:Hp; cbn.
      - change (rn_sm n1) with (rn_sm n). destruct (sm_apply (rn_sm n) c) as [sm' r] eqn:Hsm.
        by eexists.
      - eexists. by destruct n.
      - eexists. by destruct n. }
    rewrite Hap. destruct (IH (n1 <| rn_sm := apply_payload (rn_sm n) e |>
                                  <| rn_applied_outbox := ob |>)) as [ob' Heq].
    + split; unfold n1, idx; fields_goal; try done; [lia |].
      replace (N.to_nat (rn_last_applied n + 1))
        with (Datatypes.S (N.to_nat (rn_last_applied n))) by lia.
      rewrite (take_S_r _ _ _ Hk). unfold replay. rewrite foldl_snoc. by rewrite np_sm.
    + unfold n1, idx. fields_goal. lia.
    + exists ob'. by rewrite Heq.
Qed.

Lemma apply_committed_spec i (n : node) :
  node_inv i n →
  node_inv i (apply_committed n) ∧ view_of (apply_committed n) = view_of n ∧
  rn_last_applied (apply_committed n) = rn_commit_index n.
Proof.
  intros [Hp Hh]. unfold apply_committed.
  destruct (apply_loop_spec _ i n Hp eq_refl) as [ob ->].
  set (n1 := n <| rn_last_applied := _ |> <| rn_sm := _ |> <| rn_applied_outbox := ob |>).
  assert (node_inv i n1) as Hn1.
  { pose proof Hp as []. by split; [split|]. }
  destruct (serve_reads_spec i n1) as [Hs Hv]. specialize (Hs Hn1).
  rewrite (maybe_compact_spec i) by apply Hs. split_and!; [done | by rewrite Hv |].
  unfold serve_reads. by destruct (rn_role n1).
Qed.

(** ** Role changes *)

Definition follower_view (t : Term) (v : view) : view :=
  v <| v_role := Follower |> <| v_votes := ∅ |>
    <| v_vote := if decide (t = v_term v) then v_vote v else None |>
    <| v_term := t |>.

(** The timers are irrelevant to everything below. *)
Lemma reset_spec (n : node) : ∃ a b,
  reset_election_timer n =
    n <| rn_rng := b |> <| rn_election_timeout := a |> <| rn_election_elapsed := 0 |>.
Proof. unfold reset_election_timer, next_rand. do 2 eexists. reflexivity. Qed.

Lemma become_follower_spec i t l (n : node) :
  node_inv i n →
  node_inv i (become_follower t l n) ∧
  view_of (become_follower t l n) = follower_view t (view_of n).
Proof.
  intros [Hp Hh]. unfold become_follower, follower_view. pose proof Hp as [].
  match goal with |- context [reset_election_timer ?x] =>
    destruct (reset_spec x) as (a & b & ->) end.
  case_bool_decide as Ht; cbn zeta.
  - match goal with |- node_inv i (persist_hard_state ?x) ∧ _ => set (n1 := x) end.
    assert (node_pre i n1) as Hn1 by by split.
    destruct (persist_spec i n1 Hn1) as [Hi Hv]. split; [done |]. rewrite Hv.
    unfold view_of. fields_goal. rewrite decide_False by done. done.
  - assert (t = rn_current_term n) as -> by (by destruct (decide (t = rn_current_term n))).
    split; [by split; [split|] |]. unfold view_of. fields_goal.
    by rewrite decide_True by done.
Qed.

Lemma follower_steps M i t v :
  v_term v ≤ t → asteps W M i v (follower_view t v) [].
Proof.
  intros Hle. apply asteps_one. unfold follower_view. case_decide as Ht.
  - subst t. pose proof (a_down W M i v) as Ha. by destruct v.
  - pose proof (a_bump W M i v t) as Ha. destruct v. apply Ha. fields. lia.
Qed.

Lemma append_local_spec i p (n : node) :
  node_inv i n → is_config p = false →
  let n' := (append_local p n).2 in
  node_inv i n' ∧
  view_of n' = (view_of n) <| v_log ::= λ l,
    l ++ [MkEntry (rn_current_term n) (len (live (rn_store n)) + 1) p] |> ∧
  rn_next_index n' = rn_next_index n.
Proof.
  intros [Hp Hh] Hc. pose proof Hp as []. unfold append_local. rewrite Hc.
  unfold last_log_index. rewrite plain_last_index by done.
  set (e := MkEntry _ _ _).
  destruct (plain_append (rn_store n) e) as (Hs & Hl & Hh'); [done | done | done |].
  cbn zeta. cbn [snd]. split_and!; [split; [split|]|..]; fields_goal; rewrite ?Hl, ?Hh'; try done.
  - unfold len in *. rewrite length_app. cbn. lia.
  - rewrite take_app_le; [done |]. unfold len in *. lia.
  - unfold view_of. fields_goal. rewrite Hl. unfold set_field. cbn. f_equal.
    apply map_eq. intros j. rewrite !lookup_delete. case_decide; [done |].
    by rewrite lookup_alter_ne.
Qed.

(** ** Replication messages *)

Lemma log_term_take l idx :
  idx ≤ len l → log_term l idx = Some (lastterm (take (N.to_nat idx) l)).
Proof.
  intros Hle. unfold log_term, lastterm. case_decide as H'; [by subst |].
  rewrite last_lookup, length_take. unfold len in Hle.
  replace (pred (N.to_nat idx `min` length l)) with (N.to_nat (idx - 1)) by lia.
  rewrite lookup_take_lt by lia.
  destruct (lookup_lt_is_Some_2 l (N.to_nat (idx - 1))) as [e He]; [lia |]. by rewrite He.
Qed.

Lemma log_term_None l idx : len l < idx → log_term l idx = None.
Proof.
  intros Hlt. unfold log_term. rewrite decide_False by lia.
  rewrite (proj2 (lookup_ge_None _ _)); [done |]. unfold len in Hlt. lia.
Qed.

Lemma append_for_spec M i (n : node) j :
  node_pre i n → rn_role n = Leader →
  packet_wf (append_for n j) ∧
  astep W M i (view_of n) (view_of n) [(i, j, append_for n j)].
Proof.
  intros Hp Hr. pose proof Hp as []. unfold append_for.
  set (next := default 1 (rn_next_index n !! j)).
  assert (1 ≤ next) as Hnext.
  { unfold next. destruct (rn_next_index n !! j) eqn:Hn; cbn; [by eapply np_next | done]. }
  rewrite (ps_base _ np_store), decide_False by lia. rewrite plain_entries by done.
  rewrite plain_term_at by done. pose proof (plain_contiguous _ np_store) as Hc.
  pose proof (ps_plain _ np_store) as Hpl. cbn zeta. split.
  - split; [|by apply Forall_drop].
    destruct (decide (N.to_nat (next - 1) ≤ length (live (rn_store n)))%nat) as [Hle | Hgt].
    + pose proof (contiguous_drop _ _ _ Hle Hc) as Hd.
      by replace (0 + N.of_nat (N.to_nat (next - 1))) with (next - 1) in Hd by lia.
    + rewrite drop_ge by lia. apply contiguous_nil.
  - destruct (decide (next - 1 ≤ len (live (rn_store n)))) as [Hle | Hgt].
    + rewrite log_term_take by done. cbn [default from_option id]. rewrite np_id.
      by apply (a_replicate W M i (view_of n)).
    + apply a_noise. rewrite log_term_None by lia. unfold len in Hgt.
      split_and!; [lia | done |]. apply drop_ge. lia.
Qed.

Lemma broadcast_spec M i (n : node) :
  node_inv i n → rn_role n = Leader →
  node_inv i (broadcast_append n).1 ∧
  view_of (broadcast_append n).1 = view_of n ∧
  Forall (λ o, packet_wf o.2) (broadcast_append n).2 ∧
  asteps W M i (view_of n) (view_of n) (packets i (broadcast_append n).2).
Proof.
  intros [Hp Hh] Hr. unfold broadcast_append. set (n1 := n <| rn_read_seq ::= _ |>).
  assert (node_pre i n1) as Hp1 by (destruct Hp; by split). cbn [fst snd].
  split_and!; [by split | done | |].
  - apply Forall_fmap, Forall_forall. intros p _. cbn. by apply (append_for_spec M i).
  - apply asteps_send. intros j. by apply (append_for_spec M i n1).
Qed.

(** ** Commitment *)

Lemma commit_acked_spec i (n : node) idx :
  node_pre i n → commit_acked n idx = acked_by W i (v_match (view_of n)) idx.
Proof.
  intros []. unfold commit_acked, acked_by, peers. rewrite np_id, np_config. cbn [voters].
  f_equal. f_equal. apply list_filter_ext_elem. intros p [Hp _]%list_elem_of_filter.
  unfold view_of. cbn [v_match]. by rewrite np_id, lookup_delete_ne by congruence.
Qed.

Lemma advance_fold M i l (n : node) :
  node_pre i n → rn_role n = Leader → StronglySorted N.lt l →
  (∀ x, x ∈ l → rn_commit_index n < x) →
  ∃ c, foldl advance_one n l = n <| rn_commit_index := c |> ∧ rn_commit_index n ≤ c ∧
    c ≤ len (live (rn_store n)) ∧
    asteps W M i (view_of n) ((view_of n) <| v_commit := c |>) [].
Proof.
  revert n. induction l as [|x l IH]; intros n Hn Hr Hsort Hlt; pose proof Hn as [].
  { exists (rn_commit_index n). cbn. split_and!; [by destruct n | done | done |].
    constructor. }
  apply StronglySorted_inv in Hsort as [Hsort Hx]. rewrite Forall_forall in Hx.
  pose proof (Hlt x ltac:(by left)) as Hxlt.
  assert (∀ y, y ∈ l → rn_commit_index n < y) as Hlt' by (intros; apply Hlt; by right).
  cbn [foldl]. unfold advance_one at 2. case_decide as Ht; [|by apply IH].
  destruct (is_quorum n (commit_acked n x)) eqn:HQ; [|by apply IH].
  rewrite plain_term_at in Ht by done.
  assert (x ≤ len (live (rn_store n))) as Hle.
  { destruct (decide (x ≤ len (live (rn_store n)))); [done |].
    rewrite log_term_None in Ht by lia. done. }
  destruct (IH (n <| rn_commit_index := x |>)) as (c & Heq & Hxc & Hc & Hs); fields_goal; try done.
  { split; fields_goal; try done. lia. }
  rewrite Heq. exists c. fields_in Hc. fields_in Hxc. split_and!; [by destruct n | lia | done |].
  eapply asteps_silent; [|exact Hs].
  apply (a_commit W M i (view_of n) x); [done | done | done |].
  unfold is_quorum in HQ. rewrite np_config, (commit_acked_spec i) in HQ by done. done.
Qed.

Lemma maybe_advance_spec M i (n : node) :
  node_inv i n → rn_role n = Leader →
  let n' := maybe_advance_commit n in
  node_inv i n' ∧ rn_role n' = Leader ∧ asteps W M i (view_of n) (view_of n') [].
Proof.
  intros [Hp Hh] Hr. unfold maybe_advance_commit. rewrite Hr. cbn zeta.
  destruct (advance_fold M i (range_incl (rn_commit_index n + 1) (last_log_index n)) n)
    as (c & -> & Hle & Hc & Hs); [done | done | apply range_incl_sorted | |].
  { intros x [? _]%elem_of_range_incl. lia. }
  fields_goal. set (n1 := n <| rn_commit_index := c |>).
  assert (view_of n1 = (view_of n) <| v_commit := c |>) as Hv1 by done.
  assert (node_pre i n1) as Hn1.
  { pose proof Hp as []. split; unfold n1; fields_goal; try done. lia. }
  case_decide as Heq.
  - subst c. assert (n1 = n) as -> by by destruct n. split_and!; [by split | done |].
    constructor.
  - destruct (persist_spec i n1 Hn1) as [Hi2 Hv2].
    destruct (apply_committed_spec i _ Hi2) as (Hi3 & Hv3 & _).
    set (n3 := apply_committed (persist_hard_state n1)) in *.
    assert (finalize_joint_if_committed n3 = n3) as ->.
    { unfold finalize_joint_if_committed. rewrite (np_config _ _ _ _ (ni_pre _ _ _ _ Hi3)).
      by destruct (rn_role n3). }
    assert (view_of n3 = view_of n1) as Hv by congruence.
    split_and!; [done | rewrite <-Hr; exact (f_equal v_role Hv) |].
    by rewrite Hv, Hv1.
Qed.

(** ** Operations as sequences of steps *)

(** An operation that took [n] to [r.1] and returned the outputs [r.2] keeps
    the invariant and is a sequence of abstract steps that sends them. *)
Definition refines (M : list (ReplicaId * ReplicaId * Message)) (i : ReplicaId)
    (v : view) (r : node * list (ReplicaId * Message)) : Prop :=
  node_inv i r.1 ∧ Forall (λ o, packet_wf o.2) r.2 ∧
  asteps W M i v (view_of r.1) (packets i r.2).

Lemma refines_silent M i v v' r :
  asteps W M i v v' [] → refines M i v' r → refines M i v r.
Proof.
  intros Hs (? & ? & Hr). split_and!; [done | done |].
  by apply (asteps_trans _ _ _ _ _ _ [] _ Hs).
Qed.

Lemma refines_done M i (n : node) : node_inv i n → refines M i (view_of n) (n, []).
Proof. intros. split_and!; [done | done | constructor]. Qed.

(** An operation that sends one packet nobody relies on. *)
Lemma refines_noise M i (n : node) j m :
  node_inv i n → harmless m → packet_wf m → refines M i (view_of n) (n, [(j, m)]).
Proof.
  intros. split_and!; [done | by apply Forall_singleton |].
  apply asteps_one. by apply a_noise.
Qed.

Lemma refines_broadcast M i (n : node) :
  node_inv i n → rn_role n = Leader → refines M i (view_of n) (broadcast_append n).
Proof.
  intros Hn Hr. destruct (broadcast_spec M i n Hn Hr) as (? & Hv & ? & Hs).
  split_and!; [done | done |]. by rewrite Hv.
Qed.

Lemma peers_map_lookup (n : node) x p y :
  list_to_map (M := gmap ReplicaId Index) ((λ p, (p, x)) <$> peers n) !! p = Some y → y = x.
Proof.
  intros Hy. apply elem_of_list_to_map_2, list_elem_of_fmap in Hy as (q & ? & _). congruence.
Qed.

Lemma become_leader_refines M i (n : node) :
  node_inv i n → rn_role n = Candidate → maj (rn_votes n) W = true →
  refines M i (view_of n) (become_leader n).
Proof.
  intros [Hp Hh] Hr HQ. unfold become_leader. cbn zeta.
  match goal with |- context [append_local Noop ?x] => set (n1 := x) end.
  assert (rn_role n1 = Leader) as Hr1 by (unfold n1; by fields_goal).
  assert (node_inv i n1) as Hn1.
  { pose proof Hp as []. split; [split|]; unfold n1; fields_goal; try done.
    intros p x Hx%peers_map_lookup. lia. }
  destruct (append_local_spec i Noop n1 Hn1) as (Hn2 & Hv2 & _); [done |].
  set (n2 := (append_local Noop n1).2) in *.
  assert (rn_role n2 = Leader) as Hr2.
  { rewrite <-Hr1. exact (f_equal v_role Hv2). }
  destruct (maybe_advance_spec M i n2 Hn2 Hr2) as (Hn3 & Hr3 & Hs3).
  eapply refines_silent; [|by apply refines_broadcast].
  eapply (asteps_silent W M i _ (view_of n1)).
  { apply (a_elect W M i (view_of n) (v_match (view_of n1))); [done | done |].
    unfold view_of, n1. cbn [v_match]. fields_goal. intros p x Hx.
    apply lookup_delete_Some in Hx as [_ Hx]. by apply peers_map_lookup in Hx. }
  eapply (asteps_silent W M i _ (view_of n2)); [|done].
  rewrite Hv2. by apply (a_append W M i (view_of n1) Noop).
Qed.

Lemma start_election_refines M i (n : node) :
  node_inv i n → refines M i (view_of n) (start_election n).
Proof.
  intros [Hp Hh]. unfold start_election. cbn zeta.
  match goal with |- context [reset_election_timer ?x] =>
    destruct (reset_spec x) as (a & b & ->) end.
  match goal with |- context [persist_hard_state ?x] => set (n1 := x) end.
  assert (node_pre i n1) as Hn1.
  { pose proof Hp as []. split; unfold n1; fields_goal; done. }
  destruct (persist_spec i n1 Hn1) as [Hn2 Hv2]. set (n2 := persist_hard_state n1) in *.
  assert (rn_id n = i) as Hid by apply Hp.
  assert (astep W M i (view_of n) (view_of n2) []) as Hs.
  { rewrite Hv2. pose proof (a_campaign W M i (view_of n)) as Ha.
    unfold view_of, n1. fields_goal. rewrite Hid. unfold view_of in Ha.
    rewrite Hid in Ha. exact Ha. }
  eapply refines_silent; [by apply asteps_one |].
  assert (rn_role n2 = Candidate) as Hr2 by exact (f_equal v_role Hv2).
  pose proof (np_config _ _ _ _ (ni_pre _ _ _ _ Hn2)) as Hcfg.
  unfold is_quorum. rewrite Hcfg. cbn [conf_is_quorum].
  destruct (maj (rn_votes n2) W) eqn:HQ; [by apply become_leader_refines |].
  pose proof (ni_pre _ _ _ _ Hn2) as []. split_and!; [done | |].
  - apply Forall_fmap, Forall_forall. by intros p _.
  - apply asteps_send. intros j. unfold last_log_index, last_log_term.
    rewrite plain_last_index, plain_last_term, np_id by done.
    by apply (a_solicit W M i (view_of n2) j).
Qed.

(** ** Message handlers *)

Lemma become_follower_refines M i t l (n : node) :
  node_inv i n → rn_current_term n ≤ t →
  let n' := become_follower t l n in
  node_inv i n' ∧ asteps W M i (view_of n) (view_of n') [] ∧
  rn_role n' = Follower ∧ rn_current_term n' = t ∧
  live (rn_store n') = live (rn_store n) ∧ rn_commit_index n' = rn_commit_index n.
Proof.
  intros Hn Ht n'. destruct (become_follower_spec i t l n Hn) as [Hn' Hv].
  fold n' in Hn', Hv. split; [done |].
  split; [rewrite Hv; by apply follower_steps |]. split_and!.
  - exact (f_equal v_role Hv).
  - exact (f_equal v_term Hv).
  - exact (f_equal v_log Hv).
  - exact (f_equal v_commit Hv).
Qed.

Lemma request_vote_refines M i from t c lli llt (n : node) :
  node_inv i n → (from, i, RequestVote t c lli llt) ∈ M →
  refines M i (view_of n) (handle_request_vote t c lli llt n).
Proof.
  intros Hn Hin. unfold handle_request_vote.
  set (n1 := if decide (rn_current_term n < t) then _ else n).
  assert (node_inv i n1 ∧ asteps W M i (view_of n) (view_of n1) []) as [Hn1 Hs1].
  { unfold n1. case_decide; [|split; [done | constructor]].
    destruct (become_follower_refines M i t None n Hn) as (? & ? & _); [lia | done]. }
  eapply refines_silent; [exact Hs1 |]. clearbody n1.
  case_decide as Ht; [|by apply refines_noise].
  destruct (log_ok n1 lli llt && can_vote n1 c) eqn:Hok; [|by apply refines_noise].
  apply andb_true_iff in Hok as [Hlog Hcan].
  match goal with |- context [reset_election_timer ?x] =>
    destruct (reset_spec x) as (a & b & ->) end.
  match goal with |- context [persist_hard_state ?x] => set (n2 := x) end.
  assert (node_pre i n2) as Hn2.
  { pose proof (ni_pre _ _ _ _ Hn1) as []. split; unfold n2; fields_goal; done. }
  destruct (persist_spec i n2 Hn2) as [Hn3 Hv3]. set (n3 := persist_hard_state n2) in *.
  assert (rn_current_term n3 = t) as Ht3.
  { rewrite Ht. exact (f_equal v_term Hv3). }
  split_and!; [done | by apply Forall_singleton |]. cbn [fst snd packets fmap list_fmap].
  rewrite Ht3, Hv3. apply asteps_one.
  change (view_of n2) with ((view_of n1) <| v_vote := Some c |>).
  subst t. apply (a_vote W M i (view_of n1) from c lli llt); [done | |].
  - unfold log_ok, last_log_index, last_log_term in Hlog.
    rewrite plain_last_index, plain_last_term in Hlog by apply Hn1.
    cbn [view_of v_log]. apply orb_true_iff in Hlog.
    rewrite andb_true_iff, !bool_decide_eq_true in Hlog. done.
  - unfold can_vote in Hcan. cbn [view_of v_vote].
    destruct (rn_voted_for n1); [right | by left].
    apply bool_decide_eq_true in Hcan. congruence.
Qed.

Lemma request_vote_resp_refines M i from t granted (n : node) :
  node_inv i n → (from, i, RequestVoteResp t granted) ∈ M →
  refines M i (view_of n) (handle_request_vote_resp from t granted n).
Proof.
  intros Hn Hin. unfold handle_request_vote_resp. case_decide.
  { destruct (become_follower_refines M i t None n Hn) as (? & ? & _); [lia |].
    by split_and!. }
  case_decide as Hc; [by apply refines_done |].
  destruct granted; [|by apply refines_done].
  assert (rn_role n = Candidate ∧ t = rn_current_term n) as [Hr ->].
  { destruct (decide (rn_role n = Candidate)), (decide (t = rn_current_term n)); tauto. }
  cbn zeta. set (n1 := n <| rn_votes ::= _ |>).
  assert (node_inv i n1) as Hn1.
  { destruct Hn as [[] ?]. split; [split|]; unfold n1; fields_goal; done. }
  eapply refines_silent.
  { apply asteps_one, (a_count W M i (view_of n) from); done. }
  change ((view_of n) <| v_votes ::= λ vs, {[ from ]} ∪ vs |>) with (view_of n1).
  unfold is_quorum. rewrite (np_config _ _ _ _ (ni_pre _ _ _ _ Hn1)). cbn [conf_is_quorum].
  destruct (maj (rn_votes n1) W) eqn:HQ; [|by apply refines_done].
  by apply become_leader_refines.
Qed.

Lemma append_resp_refines M i from t success m ci rs (n : node) :
  node_inv i n → (from, i, AppendEntriesResp t success m ci rs) ∈ M →
  refines M i (view_of n) (handle_append_entries_resp from t success m ci rs n).
Proof.
  intros Hn Hin. unfold handle_append_entries_resp. case_decide.
  { destruct (become_follower_refines M i t None n Hn) as (? & ? & _); [lia |].
    by split_and!. }
  case_decide as Hc; [by apply refines_done |].
  assert (rn_role n = Leader ∧ t = rn_current_term n) as [Hr ->].
  { destruct (decide (rn_role n = Leader)), (decide (t = rn_current_term n)); tauto. }
  cbn zeta. set (n1 := n <| rn_acked_seq ::= _ |>).
  assert (node_inv i n1) as Hn1.
  { destruct Hn as [[] ?]. split; [split|]; unfold n1; fields_goal; done. }
  assert (view_of n1 = view_of n) as Hv1 by done.
  rewrite <-Hv1. pose proof (np_id _ _ _ _ (ni_pre _ _ _ _ Hn1)) as Hid.
  destruct success.
  - set (n2 := n1 <| rn_match_index ::= _ |> <| rn_next_index ::= _ |>).
    assert (node_inv i n2) as Hn2.
    { destruct Hn1 as [[] ?]. split; [split|]; unfold n2; fields_goal; try done.
      intros p x [[_ <-]|[_ ?]]%lookup_insert_Some; [lia | by eapply np_next]. }
    destruct (maybe_advance_spec M i n2 Hn2) as (Hn3 & _ & Hs3); [done |].
    set (n3 := maybe_advance_commit n2) in *.
    destruct (serve_reads_spec i n3) as [Hs Hv].
    split_and!; [by apply Hs | done |]. cbn [fst]. rewrite Hv.
    destruct (decide (from = i)) as [->|Hne].
    + assert (view_of n2 = view_of n1) as <-; [|done].
      unfold view_of, n2. fields_goal. f_equal. rewrite Hid. apply delete_insert_eq.
    + eapply asteps_silent; [|exact Hs3].
      replace (view_of n2) with ((view_of n1) <| v_match ::= <[from := m]> |>).
      * by apply (a_match W M i (view_of n1) from m ci rs).
      * unfold view_of, n2. fields_goal. unfold set_field. cbn. f_equal.
        rewrite Hid. symmetry. by apply delete_insert_ne.
  - match goal with |- context [serve_reads ?x] => set (n2 := x) end.
    assert (node_inv i n2) as Hn2.
    { destruct Hn1 as [[] ?]. split; [split|]; unfold n2; fields_goal; try done.
      intros p x [[_ <-]|[_ ?]]%lookup_insert_Some; [|by eapply np_next].
      case_decide; lia. }
    destruct (serve_reads_spec i n2) as [Hs Hv]. specialize (Hs Hn2).
    destruct (append_for_spec M i (serve_reads n2) from) as [Hwf Ha]; [apply Hs | |].
    { etrans; [exact (f_equal v_role Hv) | exact Hr]. }
    change (view_of n1) with (view_of n2). rewrite <-Hv.
    split_and!; [done | by apply Forall_singleton |]. by apply asteps_one.
Qed.

(** The splice loop of [handle_append_entries] on the store is the abstract
    one on the log. *)
Lemma splice_one_spec k e (n : node) :
  plain_store (rn_store n) → k ≤ len (live (rn_store n)) → e_index e = k + 1 →
  is_config (e_payload e) = false →
  ∃ s', splice_one n e = n <| rn_store := s' |> ∧ plain_store s' ∧
    live s' = splice_log (live (rn_store n)) e ∧ k + 1 ≤ len (live s') ∧
    load_hard_state s' = load_hard_state (rn_store n).
Proof.
  intros Hs Hk He Hc. unfold splice_one, splice_log.
  rewrite (ps_base _ Hs), decide_False by lia. rewrite plain_term_at by done.
  destruct (log_term _ (e_index e)) as [t|] eqn:Ht.
  - assert (k + 1 ≤ len (live (rn_store n))) as Hlen.
    { destruct (decide (k + 1 ≤ len (live (rn_store n)))); [done |].
      rewrite log_term_None in Ht by lia. done. }
    case_decide; [by exists (rn_store n); destruct n |].
    destruct (plain_truncate (rn_store n) (e_index e) Hs) as (Hs1 & Hl1 & Hh1).
    destruct (plain_append (truncate_suffix (rn_store n) (e_index e)) e) as (Hs2 & Hl2 & Hh2);
      [done | | done |].
    { rewrite Hl1. unfold len in *. rewrite length_take. lia. }
    eexists. split_and!; [reflexivity | done | congruence | | congruence].
    rewrite Hl2, Hl1. unfold len in *. rewrite length_app, length_take. cbn. lia.
  - assert (k = len (live (rn_store n))) as ->.
    { destruct (decide (k + 1 ≤ len (live (rn_store n)))); [|lia].
      rewrite log_term_take in Ht by lia. done. }
    destruct (plain_append (rn_store n) e) as (Hs2 & Hl2 & Hh2); [done.. |].
    eexists. split_and!; [reflexivity | done | done | | done].
    rewrite Hl2. unfold len. rewrite length_app. cbn. lia.
Qed.

Lemma splice_fold k es (n : node) :
  plain_store (rn_store n) → k ≤ len (live (rn_store n)) → contiguous k es →
  Forall (λ e, is_config (e_payload e) = false) es →
  ∃ s', foldl splice_one n es = n <| rn_store := s' |> ∧ plain_store s' ∧
    live s' = foldl splice_log (live (rn_store n)) es ∧
    load_hard_state s' = load_hard_state (rn_store n).
Proof.
  revert k n. induction es as [|e es IH]; intros k n Hs Hk Hes Hc.
  { exists (rn_store n). by destruct n. }
  apply Forall_cons in Hc as [Hce Hc].
  destruct (splice_one_spec k e n) as (s1 & Heq & Hs1 & Hl1 & Hk1 & Hh1); [done | done | | done |].
  { rewrite (Hes 0%nat e); [lia | done]. }
  destruct (IH (k + 1) (n <| rn_store := s1 |>)) as (s2 & Heq2 & Hs2 & Hl2 & Hh2);
    fields_goal; [done | done | | done |].
  { intros j e' Hj. rewrite (Hes (Datatypes.S j) e') by done. lia. }
  fields_in Hl2. fields_in Hh2. exists s2. cbn [foldl]. rewrite Heq, Heq2, Hl2, Hl1.
  split_and!; [by destruct n | done | done | congruence].
Qed.

(** Taking over the leader's commit index and applying what it covers. *)
Lemma learn_commit_spec i lc (n : node) :
  node_inv i n →
  let n' :=
    if decide (rn_commit_index n < lc) then
      apply_committed
        (persist_hard_state (n <| rn_commit_index := N.min lc (last_log_index n) |>))
    else n in
  node_inv i n' ∧ view_of n' = (view_of n) <| v_commit :=
    if decide (rn_commit_index n < lc) then N.min lc (len (live (rn_store n)))
    else rn_commit_index n |>.
Proof.
  intros Hn. cbn zeta. case_decide; [|done].
  unfold last_log_index. rewrite plain_last_index by apply Hn.
  set (n1 := n <| rn_commit_index := _ |>).
  assert (node_pre i n1) as Hn1.
  { destruct Hn as [[] _]. split; unfold n1; fields_goal; try done; lia. }
  destruct (persist_spec i n1 Hn1) as [Hi2 Hv2].
  destruct (apply_committed_spec i _ Hi2) as (Hi3 & Hv3 & _).
  split; [done |]. by rewrite Hv3, Hv2.
Qed.

(** What a replica relies on when it takes entries: they come from the leader
    of its term, which holds everything the replica knows to be committed. *)
Definition keeps (M : list (ReplicaId * ReplicaId * Message)) (i : ReplicaId) (v : view) : Prop :=
  ∀ v' from l prev pt es lc rs,
    asteps W M i v v' [] →
    (from, i, AppendEntries (v_term v') l prev pt es lc rs) ∈ M →
    log_term (v_log v') prev = Some pt →
    take (N.to_nat (v_commit v')) (v_log v') `prefix_of` foldl splice_log (v_log v') es.

Lemma append_entries_refines M i from t l prev pt es lc rs (n : node) :
  node_inv i n → keeps M i (view_of n) →
  (from, i, AppendEntries t l prev pt es lc rs) ∈ M →
  packet_wf (AppendEntries t l prev pt es lc rs) →
  refines M i (view_of n) (handle_append_entries t l prev pt es lc rs n).
Proof.
  intros Hn Hkeep Hin [Hes Hpl]. unfold handle_append_entries.
  case_decide as Ht; [by apply refines_noise |].
  destruct (become_follower_refines M i t (Some l) n Hn) as (Hn1 & Hs1 & Hr1 & Ht1 & _ & _);
    [lia |].
  set (n1 := become_follower t (Some l) n) in *.
  eapply refines_silent; [exact Hs1 |]. cbn zeta.
  unfold prev_ok. rewrite plain_term_at by apply Hn1.
  destruct (log_term (live (rn_store n1)) prev) as [pt'|] eqn:Hlt; [|by apply refines_noise].
  case_bool_decide as Hpt; [subst pt' | by apply refines_noise].
  pose proof (Hkeep _ from l prev pt es lc rs Hs1) as Hpre.
  cbn [view_of v_term v_log v_commit] in Hpre. rewrite Ht1 in Hpre. specialize (Hpre Hin Hlt).
  assert (prev ≤ len (live (rn_store n1))) as Hprev.
  { destruct (decide (prev ≤ len (live (rn_store n1)))); [done |].
    rewrite log_term_None in Hlt by lia. done. }
  destruct (splice_fold prev es n1) as (s' & Heq & Hs' & Hl' & Hh'); [apply Hn1 | done.. |].
  rewrite Heq. clearbody n1. pose proof Hn1 as [Hp1 Hh1]. pose proof Hp1 as [].
  rewrite <-Hl' in Hpre. pose proof (prefix_length _ _ Hpre) as Hlen.
  rewrite length_take in Hlen. unfold len in *.
  rewrite plain_recompute by (by fields_goal).
  set (n2 := n1 <| rn_store := s' |> <| rn_config := _ |>).
  assert (live (rn_store n2) = foldl splice_log (live (rn_store n1)) es) as Hl2 by done.
  assert (node_inv i n2) as Hn2.
  { split; [split|]; unfold n2; fields_goal; rewrite ?Hh'; try done; unfold len; [lia |].
    rewrite np_sm. f_equal. symmetry. apply (prefix_take_agree _ _ _ _ Hpre); lia. }
  pose proof (a_accept W M i (view_of n1) from l prev pt es lc rs
    (foldl splice_log (live (rn_store n1)) es)) as Hacc.
  cbn [view_of v_term v_log v_role v_commit] in Hacc. rewrite Ht1 in Hacc.
  specialize (Hacc Hin Hr1 Hlt eq_refl).
  destruct (learn_commit_spec i lc n2 Hn2) as [Hn3 Hv3].
  match goal with |- refines _ _ _ (?x, _) => set (n3 := x) in * end.
  clearbody n3. assert (rn_current_term n3 = t) as Ht3.
  { rewrite <-Ht1. exact (f_equal v_term Hv3). }
  split_and!; [done | by apply Forall_singleton |]. apply asteps_one.
  cbn [fst snd packets fmap list_fmap]. rewrite Hv3, Ht3.
  replace (view_of n2) with ((view_of n1) <| v_log := live (rn_store n2) |>) by done.
  rewrite Hl2. exact Hacc.
Qed.

(** ** The driving API *)

Lemma on_message_refines M i from m (n : node) :
  node_inv i n → keeps M i (view_of n) → (from, i, m) ∈ M → packet_wf m →
  refines M i (view_of n) (on_message from m n).
Proof.
  intros Hn Hk Hin Hwf. destruct m; cbn [on_message].
  - by eapply request_vote_refines.
  - by apply request_vote_resp_refines.
  - by eapply append_entries_refines.
  - by apply append_resp_refines.
  - done.
Qed.

Lemma on_tick_refines M i (n : node) :
  node_inv i n → refines M i (view_of n) (on_tick n).
Proof.
  intros Hn. unfold on_tick.
  assert (∀ n1 : node, node_inv i n1 → view_of n1 = view_of n →
    rn_role n ≠ Leader → refines M i (view_of n)
      (if decide (rn_id n ∈ voters (rn_config n)) then
         if decide (rn_election_timeout n1 ≤ rn_election_elapsed n1)
         then start_election n1 else (n1, [])
       else (n, []))) as Hidle.
  { intros n1 Hn1 Hv Hr. case_decide; [|by apply refines_done]. rewrite <-Hv.
    case_decide; [by apply start_election_refines | by apply refines_done]. }
  destruct (rn_role n) eqn:Hr.
  1, 2: apply (Hidle (n <| rn_election_elapsed ::= λ t, t + 1 |>)); [|done..];
    destruct Hn as [[] ?]; split; [split|]; by fields_goal.
  clear Hidle. cbn zeta. set (n1 := n <| rn_heartbeat_elapsed ::= _ |>).
  case_decide.
  - set (n2 := n1 <| rn_heartbeat_elapsed := 0 |>).
    change (view_of n) with (view_of n2). apply refines_broadcast; [|done].
    destruct Hn as [[] ?]. split; [split|]; unfold n2, n1; by fields_goal.
  - change (view_of n) with (view_of n1). apply refines_done.
    destruct Hn as [[] ?]. split; [split|]; unfold n1; by fields_goal.
Qed.

Lemma propose_refines M i c (n : node) :
  node_inv i n → refines M i (view_of n) ((propose c n).1.2, (propose c n).2).
Proof.
  intros Hn. unfold propose. destruct (rn_role n) eqn:Hr; [by apply refines_done..|].
  destruct (append_local_spec i (Command c) n Hn) as (Hn1 & Hv1 & _); [done |].
  destruct (append_local (Command c) n) as [idx n1]. cbn [snd] in *.
  assert (rn_role n1 = Leader) as Hr1 by (rewrite <-Hr; exact (f_equal v_role Hv1)).
  destruct (broadcast_spec M i n1 Hn1 Hr1) as (Hn2 & Hv2 & Hwf & Hs2).
  destruct (broadcast_append n1) as [n2 outs]. cbn [fst snd] in *.
  destruct (maybe_advance_spec M i n2 Hn2) as (Hn3 & _ & Hs3).
  { rewrite <-Hr1. exact (f_equal v_role Hv2). }
  apply (refines_silent _ _ _ (view_of n1)).
  { apply asteps_one. rewrite Hv1. by apply (a_append W M i (view_of n) (Command c)). }
  split_and!; [done | done |]. rewrite Hv2 in Hs3. rewrite <-(app_nil_r (packets _ _)).
  by eapply asteps_trans.
Qed.

Lemma read_refines M i req q (n : node) :
  node_inv i n → refines M i (view_of n) (read req q n).
Proof.
  intros Hn. unfold read.
  assert (∀ rs, node_inv i (n <| rn_ready_reads := rs |>)) as Hrej.
  { intros rs. destruct Hn as [[] ?]. split; [split|]; by fields_goal. }
  destruct (rn_role n) eqn:Hr.
  1, 2: match goal with |- refines _ _ _ (?x, _) =>
    change (view_of n) with (view_of x) end; apply refines_done, Hrej.
  destruct (broadcast_spec M i n Hn Hr) as (Hn1 & Hv1 & Hwf & Hs1).
  destruct (broadcast_append n) as [n1 outs]. cbn [fst snd] in *. cbn zeta.
  set (n2 := n1 <| rn_pending_reads ::= _ |>).
  destruct (serve_reads_spec i n2) as [Hs Hv]. split_and!; [| done |].
  - apply Hs. destruct Hn1 as [[] ?]. split; [split|]; unfold n2; by fields_goal.
  - cbn [fst snd]. rewrite Hv. change (view_of n2) with (view_of n1). by rewrite Hv1.
Qed.

Lemma drain_refines M i (n : node) :
  node_inv i n →
  refines M i (view_of n) ((take_ready_reads n).2, []) ∧
  refines M i (view_of n) ((take_applied n).2, []).
Proof.
  intros Hn. split.
  - change (view_of n) with (view_of (take_ready_reads n).2). apply refines_done.
    destruct Hn as [[] ?]. unfold take_ready_reads. cbn [snd].
    split; [split|]; by fields_goal.
  - change (view_of n) with (view_of (take_applied n).2). apply refines_done.
    destruct Hn as [[] ?]. unfold take_applied. cbn [snd].
    split; [split|]; by fields_goal.
Qed.

(** A fresh replica on a store that holds a log and a hard state. *)
Lemma fresh_spec i (s : S) : ∃ a b,
  new_with_store i V cfg sm0 s =
    MkRaftNode i (Simple W) (Simple W) cfg 0 None s Follower None 0 0 [] ∅ ∅ ∅
      0 ∅ [] [] 0 0 a b sm0.
Proof.
  unfold new_with_store. destruct (reset_spec (MkRaftNode i (Simple W) (Simple W) cfg 0 None s
    Follower None 0 0 [] ∅ ∅ ∅ 0 ∅ [] [] 0 0 0 (N.lor (wrap64 (i * 0x9E3779B97F4A7C15)) 1) sm0))
    as (a & b & ->). by exists a, b.
Qed.

Lemma plain_config_at (n : node) idx :
  plain_store (rn_store n) → config_at n idx = rn_base_config n.
Proof.
  intros Hs. unfold config_at. rewrite plain_live_entries by done.
  rewrite find_last_None; [done |]. intros e He.
  pose proof (ps_plain _ Hs) as Hpl. rewrite Forall_forall in Hpl.
  by rewrite (Hpl e He), andb_false_r.
Qed.

Lemma restore_spec i (s : S) t vf c :
  plain_store s → load_hard_state s = MkHardState t vf c →
  ∃ a b, restore_from i V cfg sm0 s = apply_committed
    (MkRaftNode i (Simple W) (Simple W) cfg t vf s Follower None c 0 [] ∅ ∅ ∅
       0 ∅ [] [] 0 0 a b sm0).
Proof.
  intros Hs Hh. destruct (fresh_spec i s) as (a & b & Heq). exists a, b.
  unfold restore_from. rewrite Heq. cbn zeta. fields_goal. cbn [rn_store].
  rewrite Hh, (ps_snap _ Hs), plain_config_at by done. fields_goal. cbn [rn_store].
  rewrite (ps_base _ Hs).
  rewrite plain_recompute by done. cbn [hs_commit_index]. rewrite N.max_0_r. reflexivity.
Qed.

(** Coming back from a crash: what was persisted is what the replica had, and
    replaying the log up to the persisted commit index rebuilds its state. *)
Lemma restart_refines M i (n : node) :
  snapshot_threshold cfg = 0 → node_inv i n →
  refines M i (view_of n) (restore_from i V cfg sm0 (rn_store n), []) ∧
  rn_last_applied (restore_from i V cfg sm0 (rn_store n)) = rn_commit_index n.
Proof.
  intros Hcfg [Hp Hh]. pose proof Hp as [].
  destruct (restore_spec i _ _ _ _ np_store Hh) as (a & b & ->).
  set (n0 := MkRaftNode i _ _ _ _ _ _ _ _ _ _ _ _ _ _ _ _ _ _ _ _ _ _ _).
  assert (node_inv i n0) as Hn0.
  { split; [split|]; cbn; try done; lia. }
  destruct (apply_committed_spec i n0 Hn0) as (Hn1 & Hv1 & Hl1). split; [|done].
  split_and!; [done | done |]. cbn [fst snd]. rewrite Hv1. apply asteps_one.
  change (view_of n0) with
    ((view_of n) <| v_role := Follower |> <| v_votes := ∅ |> <| v_match := delete i ∅ |>).
  rewrite delete_empty. apply a_restart.
Qed.

End refine.
