(* ===== verification/Sim.v ===== *)
(** * The cluster harness

    [crates/cs-consensus/src/sim.rs]: a controllable in-memory cluster that
    drives a set of nodes by ticks and messages through a FIFO network with
    partitions, and pumps it to quiescence.

    The harness is generic over [trait SimNode]; [RaftNode] implements it.
    The theorems are that the harness never trips its [expect]s, that a
    partitioned replica hears nothing, that a pump that returns has emptied
    the network, and that whatever a test does to Raft replicas through the
    harness, its own closures included as long as they only call the replicas'
    interface and forge no message, is a run of the network of [RaftNet]. *)

From stdpp Require Import base numbers gmap sorting list.
From S2P Require Import Prelude RaftTypes RaftStore RaftNode RaftNet.

Local Open Scope N_scope.
Local Open Scope crab_scope.

(** [trait SimNode]. *)
Class SimNode (Node Msg : Type) := {
  sim_id : Node → ReplicaId;
  sim_on_tick : Node → Node * list (ReplicaId * Msg);
  sim_on_message : ReplicaId → Msg → Node → Node * list (ReplicaId * Msg);
}.

(** The two ways the harness panics: [expect] on an unknown replica, and the
    assertion on the number of deliveries. *)
Inductive panic := UnknownReplica | DidNotQuiesce.

(** [struct Cluster]. *)
Record Cluster (Node Msg : Type) := MkCluster {
  cl_nodes : gmap ReplicaId Node;
  cl_inflight : list (ReplicaId * ReplicaId * Msg);
  cl_isolated : gset ReplicaId;
  cl_max_deliveries : N;
}.

Arguments MkCluster {Node Msg}.
Arguments cl_nodes {Node Msg}.
Arguments cl_inflight {Node Msg}.
Arguments cl_isolated {Node Msg}.
Arguments cl_max_deliveries {Node Msg}.

#[export] Instance Cluster_eta Node Msg : Eta (Cluster Node Msg) := λ c,
  MkCluster (cl_nodes c) (cl_inflight c) (cl_isolated c) (cl_max_deliveries c).

Section cluster.
Context {Node Msg : Type} `{SimNode Node Msg}.

Notation cluster := (Cluster Node Msg).

(** [Cluster::new]: of two nodes with one id, [collect] keeps the last. *)
Definition new_cluster (nodes : list Node) : cluster :=
  MkCluster (foldl (λ m n, <[sim_id n := n]> m) ∅ nodes) [] ∅ 100000.

(** [Cluster::ids]. *)
Definition ids (c : cluster) : list ReplicaId :=
  merge_sort N.le (elements (dom (cl_nodes c))).

(** [Cluster::node]. *)
Definition node_of (c : cluster) (id : ReplicaId) : panic + Node :=
  match cl_nodes c !! id with Some n => inr n | None => inl UnknownReplica end.

(** [Cluster::node_mut], and the update [f] its caller makes through it. *)
Definition node_mut (id : ReplicaId) (f : Node → Node) (c : cluster) : panic + cluster :=
  match cl_nodes c !! id with
  | None => inl UnknownReplica
  | Some n => inr (c <| cl_nodes ::= <[id := f n]> |>)
  end.

Definition isolate (id : ReplicaId) (c : cluster) : cluster :=
  c <| cl_isolated ::= λ s, {[ id ]} ∪ s |>.

Definition heal (id : ReplicaId) (c : cluster) : cluster :=
  c <| cl_isolated ::= λ s, s ∖ {[ id ]} |>.

Definition link_up (c : cluster) (from to : ReplicaId) : bool :=
  bool_decide (from ∉ cl_isolated c) && bool_decide (to ∉ cl_isolated c).

Definition enqueue_one (from : ReplicaId) (c : cluster) (o : ReplicaId * Msg) : cluster :=
  let '(to, msg) := o in
  if bool_decide (is_Some (cl_nodes c !! to)) && link_up c from to
  then c <| cl_inflight ::= λ q, q ++ [(from, to, msg)] |> else c.

Definition enqueue (from : ReplicaId) (outs : list (ReplicaId * Msg)) (c : cluster) : cluster :=
  foldl (enqueue_one from) c outs.

(** [Cluster::act]: [f] runs on the node and its messages are routed. *)
Definition act {R} (id : ReplicaId) (f : Node → Node * R * list (ReplicaId * Msg))
    (c : cluster) : panic + (R * cluster) :=
  match cl_nodes c !! id with
  | None => inl UnknownReplica
  | Some n =>
      let '(n', r, outs) := f n in
      inr (r, enqueue id outs (c <| cl_nodes ::= <[id := n']> |>))
  end.

Definition tick_one (r : panic + cluster) (id : ReplicaId) : panic + cluster :=
  match r with
  | inl p => inl p
  | inr c =>
      match cl_nodes c !! id with
      | None => inl UnknownReplica
      | Some n =>
          let '(n', outs) := sim_on_tick n in
          inr (enqueue id outs (c <| cl_nodes ::= <[id := n']> |>))
      end
  end.

Definition tick_all (c : cluster) : panic + cluster := foldl tick_one (inr c) (ids c).

(** One turn of the loop of [deliver_all], after the message was popped. *)
Definition deliver_one (from to : ReplicaId) (msg : Msg) (c : cluster) : panic + cluster :=
  if link_up c from to then
    match cl_nodes c !! to with
    | None => inl UnknownReplica
    | Some n =>
        let '(n', outs) := sim_on_message from msg n in
        inr (enqueue to outs (c <| cl_nodes ::= <[to := n']> |>))
    end
  else inr c.

(** The loop with [fuel] deliveries left before the assertion fails. *)
Fixpoint deliver_loop (fuel : nat) (c : cluster) : panic + (nat * cluster) :=
  match cl_inflight c with
  | [] => inr (0%nat, c)
  | (from, to, msg) :: rest =>
      match fuel with
      | O => inl DidNotQuiesce
      | S fuel =>
          match deliver_one from to msg (c <| cl_inflight := rest |>) with
          | inl p => inl p
          | inr c =>
              match deliver_loop fuel c with
              | inl p => inl p
              | inr (k, c) => inr (S k, c)
              end
          end
      end
  end.

Definition deliver_all (c : cluster) : panic + (nat * cluster) :=
  deliver_loop (N.to_nat (cl_max_deliveries c)) c.

Definition step (c : cluster) : panic + cluster :=
  match tick_all c with
  | inl p => inl p
  | inr c => match deliver_all c with inl p => inl p | inr (_, c) => inr c end
  end.

Fixpoint run (rounds : nat) (c : cluster) : panic + cluster :=
  match rounds with
  | O => inr c
  | S rounds => match step c with inl p => inl p | inr c => run rounds c end
  end.

End cluster.

(** [impl SimNode for RaftNode]. *)
#[export] Instance RaftNode_sim {SM S} `{StateMachine SM} `{RaftLogStore S} :
    SimNode (RaftNode SM S) Message := {|
  sim_id := rn_id;
  sim_on_tick := on_tick;
  sim_on_message := on_message;
|}.

(** ** Routing *)

Section routing.
Context {Node Msg : Type} `{SimNode Node Msg}.
Implicit Types c : Cluster Node Msg.

(** What of [outs] the harness puts on the wire. *)
Definition routed c (from : ReplicaId) (outs : list (ReplicaId * Msg)) :
    list (ReplicaId * ReplicaId * Msg) :=
  (λ o, (from, o.1, o.2)) <$>
    filter (λ o, bool_decide (is_Some (cl_nodes c !! o.1)) && link_up c from o.1) outs.

(** Every message in flight is addressed to a node of the cluster. *)
Definition addressed c : Prop :=
  ∀ p, p ∈ cl_inflight c → is_Some (cl_nodes c !! p.1.2).

Lemma enqueue_spec from outs c :
  enqueue from outs c = c <| cl_inflight ::= λ q, q ++ routed c from outs |>.
Proof.
  revert c. induction outs as [|[to msg] outs IH]; intros c.
  { destruct c. unfold enqueue, routed, set_field. cbn. by rewrite app_nil_r. }
  unfold enqueue in *. cbn [foldl]. rewrite IH. unfold routed at 2. rewrite filter_cons.
  unfold enqueue_one. cbn [fst snd].
  destruct (bool_decide (is_Some (cl_nodes c !! to)) && link_up c from to) eqn:Hup.
  - rewrite decide_True by exact I. destruct c. unfold set_field, routed. cbn.
    by rewrite <-app_assoc.
  - rewrite decide_False by (intros []). done.
Qed.

Lemma routed_addressed c from outs p :
  p ∈ routed c from outs → p.1.1 = from ∧ (p.1.2, p.2) ∈ outs ∧
    is_Some (cl_nodes c !! p.1.2) ∧ link_up c from p.1.2 = true.
Proof.
  intros (o & -> & [Ho Hin]%list_elem_of_filter)%list_elem_of_fmap. cbn.
  apply Is_true_true, andb_true_iff in Ho as [Hs Hl]. apply bool_decide_eq_true in Hs.
  by destruct o.
Qed.

(** The node [id] is replaced and its messages are routed. *)
Definition moved (id : ReplicaId) (n' : Node) (outs : list (ReplicaId * Msg)) c :=
  enqueue id outs (c <| cl_nodes ::= <[id := n']> |>).

Lemma moved_nodes id n' outs c : cl_nodes (moved id n' outs c) = <[id := n']> (cl_nodes c).
Proof. unfold moved. by rewrite enqueue_spec. Qed.

Lemma moved_isolated id n' outs c : cl_isolated (moved id n' outs c) = cl_isolated c.
Proof. unfold moved. by rewrite enqueue_spec. Qed.

Lemma moved_max id n' outs c : cl_max_deliveries (moved id n' outs c) = cl_max_deliveries c.
Proof. unfold moved. by rewrite enqueue_spec. Qed.

Lemma moved_inflight id n' outs c p :
  p ∈ cl_inflight (moved id n' outs c) →
  p ∈ cl_inflight c ∨
  p.1.1 = id ∧ (p.1.2, p.2) ∈ outs ∧ is_Some (<[id := n']> (cl_nodes c) !! p.1.2).
Proof.
  unfold moved. rewrite enqueue_spec. fields_goal.
  intros [Hp|Hp]%elem_of_app; [by left | right].
  apply routed_addressed in Hp as (? & ? & Hs & _). by fields_in Hs.
Qed.

Lemma moved_addressed id n' outs c : addressed c → addressed (moved id n' outs c).
Proof.
  intros Hc p Hp. rewrite moved_nodes.
  apply moved_inflight in Hp as [Hp|(_ & _ & ?)]; [|done].
  rewrite lookup_insert_is_Some'. right. by apply Hc.
Qed.

Lemma tick_all_steps (P : Cluster Node Msg → Prop) c :
  P c →
  (∀ c id n, P c → cl_nodes c !! id = Some n →
     P (moved id (sim_on_tick n).1 (sim_on_tick n).2 c)) →
  ∃ c', tick_all c = inr c' ∧ P c' ∧ dom (cl_nodes c') = dom (cl_nodes c).
Proof.
  intros Hc Hstep. unfold tick_all.
  assert (∀ id, id ∈ ids c → id ∈ dom (cl_nodes c)) as Hids.
  { intros id Hid. unfold ids in Hid. rewrite merge_sort_Permutation in Hid.
    by apply elem_of_elements. }
  revert Hids Hc. generalize (ids c) as l. intros l. revert c.
  induction l as [|id l IH]; intros c Hids Hc; [by exists c |].
  assert (is_Some (cl_nodes c !! id)) as [n Hn] by (apply elem_of_dom, Hids; left).
  pose proof (Hstep c id n Hc Hn) as Hc'.
  assert (dom (cl_nodes (moved id (sim_on_tick n).1 (sim_on_tick n).2 c)) =
    dom (cl_nodes c)) as Hdom.
  { rewrite moved_nodes. apply dom_insert_lookup_L. by eexists. }
  destruct (IH (moved id (sim_on_tick n).1 (sim_on_tick n).2 c)) as (c' & Heq & HP & Hd).
  { intros j Hj. rewrite Hdom. apply Hids. by right. }
  { done. }
  exists c'. cbn [foldl tick_one]. rewrite Hn.
  unfold moved in Heq. destruct (sim_on_tick n). cbn [fst snd] in *.
  split_and!; [done | done | congruence].
Qed.

(** A pump that starts with every message addressed to a node either runs
    into the assertion or ends with the network empty; [P] holds at the end if
    it holds at the start and every delivery over a live link keeps it. *)
Lemma deliver_loop_steps (P : Cluster Node Msg → Prop) fuel c :
  addressed c → P c →
  (∀ c rest from to msg, P c → cl_inflight c = (from, to, msg) :: rest →
     P (c <| cl_inflight := rest |>)) →
  (∀ c rest from to msg n, P c → cl_inflight c = (from, to, msg) :: rest →
     link_up c from to = true → cl_nodes c !! to = Some n →
     P (moved to (sim_on_message from msg n).1 (sim_on_message from msg n).2
          (c <| cl_inflight := rest |>))) →
  match deliver_loop fuel c with
  | inl p => p = DidNotQuiesce
  | inr (k, c') => P c' ∧ cl_inflight c' = [] ∧ (k ≤ fuel)%nat
  end.
Proof.
  intros Ha HP Hdrop Hstep. revert c Ha HP. induction fuel as [|fuel IH]; intros c Ha HP; cbn.
  { destruct (cl_inflight c) as [|[[from to] msg] rest] eqn:Hq; [|done]. by split_and!. }
  destruct (cl_inflight c) as [|[[from to] msg] rest] eqn:Hq; [split_and!; [done.. | lia] |].
  assert (addressed (c <| cl_inflight := rest |>)) as Ha'.
  { intros p Hp. fields_in Hp. fields_goal. apply Ha. rewrite Hq. by right. }
  unfold deliver_one.
  change (link_up (c <| cl_inflight := rest |>) from to) with (link_up c from to).
  assert (∀ c1, addressed c1 → P c1 →
    match match deliver_loop fuel c1 with
          | inl p => inl p | inr (k, c) => inr (S k, c) end with
    | inl p => p = DidNotQuiesce
    | inr (k, c') => P c' ∧ cl_inflight c' = [] ∧ (k ≤ S fuel)%nat
    end) as Hrest.
  { intros c1 Ha1 HP1. specialize (IH c1 Ha1 HP1).
    destruct (deliver_loop fuel c1) as [p|[k c']]; [done |].
    destruct IH as (? & ? & ?). split_and!; [done.. | lia]. }
  destruct (link_up c from to) eqn:Hl; [|by apply Hrest; eauto].
  destruct (Ha (from, to, msg)) as [n Hn]; [rewrite Hq; left |]. cbn in Hn.
  fields_goal. rewrite Hn. pose proof (Hstep c rest from to msg n HP Hq Hl Hn) as HP'.
  unfold moved in HP'. pose proof (moved_addressed to (sim_on_message from msg n).1
    (sim_on_message from msg n).2 _ Ha') as Ha2. unfold moved in Ha2.
  destruct (sim_on_message from msg n) as [n' outs]. by apply Hrest.
Qed.

End routing.

Section harness_props.
Context {Node Msg : Type} `{SimNode Node Msg}.
Implicit Types c : Cluster Node Msg.

(** Pumping the network never trips the harness's [expect]s: it either
    hits the bound on deliveries or returns with no message in flight, after
    at most that many deliveries and with every node still there. *)
Theorem deliver_all_settles c :
  addressed c →
  match deliver_all c with
  | inl p => p = DidNotQuiesce
  | inr (k, c') => cl_inflight c' = [] ∧ (k ≤ N.to_nat (cl_max_deliveries c))%nat ∧
      dom (cl_nodes c') = dom (cl_nodes c)
  end.
Proof.
  intros Ha. unfold deliver_all.
  pose proof (deliver_loop_steps (λ c', dom (cl_nodes c') = dom (cl_nodes c))
    (N.to_nat (cl_max_deliveries c)) c Ha eq_refl) as Hd.
  destruct (deliver_loop _ c) as [p|[k c']].
  - apply Hd; [done |]. intros c1 rest from to msg n HP _ _ Hn.
    rewrite moved_nodes. fields_goal. rewrite dom_insert_lookup_L; [done | by eexists].
  - destruct Hd as (? & ? & ?); [done | | done].
    intros c1 rest from to msg n HP _ _ Hn.
    rewrite moved_nodes. fields_goal. rewrite dom_insert_lookup_L; [done | by eexists].
Qed.

(** A replica that is partitioned away hears nothing: no delivery changes
    it, and the partition stands. *)
Theorem isolated_hears_nothing c id k c' :
  addressed c → id ∈ cl_isolated c → deliver_all c = inr (k, c') →
  cl_nodes c' !! id = cl_nodes c !! id ∧ cl_isolated c' = cl_isolated c.
Proof.
  intros Ha Hid Hd.
  pose proof (deliver_loop_steps
    (λ c', cl_nodes c' !! id = cl_nodes c !! id ∧ cl_isolated c' = cl_isolated c)
    (N.to_nat (cl_max_deliveries c)) c Ha) as Hs.
  unfold deliver_all in Hd. rewrite Hd in Hs. apply Hs; clear Hs Hd.
  - done.
  - done.
  - intros c1 rest from to msg n [Hn Hi] _ Hl _. rewrite moved_nodes, moved_isolated.
    fields_goal. split; [|done]. rewrite lookup_insert_ne; [done |]. intros ->.
    unfold link_up in Hl. apply andb_true_iff in Hl as [_ Hl].
    apply bool_decide_eq_true in Hl. by rewrite Hi in Hl.
Qed.

End harness_props.

(** ** Raft replicas in the harness *)

Section raft_harness.
Context {SM S : Type} `{StateMachine SM} `{LawfulStore S}.
Context (V : list ReplicaId) (cfg : Config) (sm0 : SM) (s0 : S).

Notation node := (RaftNode SM S).
Notation cluster := (Cluster node Message).
Notation net := (net SM S).
Notation moves := (list (ReplicaId * ReplicaId * Message) → ReplicaId → node → node →
  list (ReplicaId * Message) → Prop).

(** What a test can ask of the harness; the values that [act] returns and
    the replicas that [node] reads change nothing. *)
Inductive harness_op :=
  | HTick | HDeliver | HStep | HRun (rounds : nat)
  | HIsolate (id : ReplicaId) | HHeal (id : ReplicaId)
  | HAct (id : ReplicaId) (f : node → node * list (ReplicaId * Message))
  | HNodeMut (id : ReplicaId) (f : node → node).

Definition harness_exec (c : cluster) (o : harness_op) : panic + cluster :=
  match o with
  | HTick => tick_all c
  | HDeliver => match deliver_all c with inl p => inl p | inr (_, c) => inr c end
  | HStep => step c
  | HRun rounds => run rounds c
  | HIsolate id => inr (isolate id c)
  | HHeal id => inr (heal id c)
  | HAct id f =>
      match act id (λ n, let '(n', outs) := f n in (n', tt, outs)) c with
      | inl p => inl p | inr (_, c) => inr c end
  | HNodeMut id f => node_mut id f c
  end.

Fixpoint harness_run (os : list harness_op) (c : cluster) : panic + cluster :=
  match os with
  | [] => inr c
  | o :: os => match harness_exec c o with inl p => inl p | inr c => harness_run os c end
  end.

(** Several moves of one replica in a row, with the messages of all. *)
Inductive moves_by (R : moves) M id : node → node → list (ReplicaId * Message) → Prop :=
  | moves_done n : moves_by R M id n n []
  | moves_more n n1 n2 outs outs' :
      R M id n n1 outs → moves_by R M id n1 n2 outs' → moves_by R M id n n2 (outs ++ outs').

(** A closure that only makes its replica move by [R] and returns no message
    but those it was given. *)
Definition calls_only (R : moves) (id : ReplicaId)
    (f : node → node * list (ReplicaId * Message)) : Prop :=
  ∀ M n, ∃ outs, moves_by R M id n (f n).1 outs ∧ (f n).2 ⊆ outs.

Definition op_calls_only (R : moves) (o : harness_op) : Prop :=
  match o with
  | HAct id f => calls_only R id f
  | HNodeMut id f => calls_only R id (λ n, (f n, []))
  | _ => True
  end.

(** The cluster's nodes are the network's, and what is in flight was sent. *)
Definition embeds (c : cluster) (s : net) : Prop :=
  (∀ id n, cl_nodes c !! id = Some n → n_nodes s id = n) ∧
  (∀ p, p ∈ cl_inflight c → p ∈ n_sent s).

Section embedding.

(** The replicas may at least tick and take packets, and what they can do
    does not depend on packets sent later. *)
Context (R : moves).
Context (R_tick : ∀ M i n, R M i n (on_tick n).1 (on_tick n).2).
Context (R_deliver : ∀ M i n from m,
  (from, i, m) ∈ M → R M i n (on_message from m n).1 (on_message from m n).2).
Context (R_mono : ∀ M M' i n n' outs, M ⊆ M' → R M i n n' outs → R M' i n n' outs).

Definition embedded (s0 : net) (c : cluster) : Prop :=
  addressed c ∧ ∃ s, rtc (net_by R) s0 s ∧ embeds c s.

(** The moves of one replica are steps of the network. *)
Lemma moves_by_steps M id n n' outs s :
  moves_by R M id n n' outs → M ⊆ n_sent s → n_nodes s id = n →
  ∃ s', rtc (net_by R) s s' ∧ n_nodes s' id = n' ∧
    (∀ j, j ≠ id → n_nodes s' j = n_nodes s j) ∧
    packets id outs ++ n_sent s ⊆ n_sent s'.
Proof.
  intros Hm. revert s. induction Hm as [n|n n1 n2 outs outs' HR Hm IH]; intros s HM Hn.
  { by exists s. }
  rewrite <-Hn in HR. pose proof (net_by_intro R s id n1 outs (R_mono _ _ _ _ _ _ HM HR)) as Hst.
  specialize (IH _ (list_subseteq_app_r M (n_sent s) (packets id outs) HM : M ⊆ n_sent (MkNet
    (λ j, if decide (j = id) then n1 else n_nodes s j) (packets id outs ++ n_sent s)))).
  destruct IH as (s' & Hr & Hid & Hne & Hsent); [cbn; by rewrite decide_True |].
  exists s'. split_and!; [by eapply rtc_l | done | |].
  - intros j Hj. rewrite Hne by done. cbn. by rewrite decide_False.
  - cbn in Hsent. unfold packets in *. rewrite fmap_app. set_solver.
Qed.

Lemma embedded_moved s1 s c id n n' outs outs' :
  addressed c → rtc (net_by R) s1 s → embeds c s → cl_nodes c !! id = Some n →
  moves_by R (n_sent s) id n n' outs' → outs ⊆ outs' → embedded s1 (moved id n' outs c).
Proof.
  intros Ha Hr [Hn Hp] Hid Hms Hsub. split; [by apply moved_addressed |].
  destruct (moves_by_steps _ _ _ _ _ s Hms ltac:(done) (Hn _ _ Hid))
    as (s' & Hr' & Hid' & Hne & Hsent).
  exists s'. split; [by etrans |]. split.
  - intros j m. rewrite moved_nodes. destruct (decide (j = id)) as [->|Hj].
    + rewrite lookup_insert_eq. congruence.
    + rewrite lookup_insert_ne, Hne by done. apply Hn.
  - intros p Hpi. apply Hsent, elem_of_app.
    apply moved_inflight in Hpi as [Hpi | (Hf & Hout & _)]; [right; by apply Hp | left].
    apply list_elem_of_fmap. exists (p.1.2, p.2). split; [|by apply Hsub]. cbn.
    rewrite <-Hf. by destruct p as [[] ?].
Qed.

Lemma embedded_move s1 s c id n n' outs :
  addressed c → rtc (net_by R) s1 s → embeds c s → cl_nodes c !! id = Some n →
  R (n_sent s) id n n' outs → embedded s1 (moved id n' outs c).
Proof.
  intros Ha Hr He Hid HR. eapply (embedded_moved s1 s); [done.. | |].
  - eapply moves_more; [done | apply moves_done].
  - set_solver.
Qed.

Lemma embedded_drop s1 c rest from to msg :
  embedded s1 c → cl_inflight c = (from, to, msg) :: rest →
  embedded s1 (c <| cl_inflight := rest |>).
Proof.
  intros (Ha & s & Hr & Hn & Hp) Hq. split.
  - intros p Hpi. fields_in Hpi. fields_goal. apply Ha. rewrite Hq. by right.
  - exists s. split; [done |]. split; [done |].
    intros p Hpi. fields_in Hpi. apply Hp. rewrite Hq. by right.
Qed.

Lemma embedded_tick_all s1 c c' :
  embedded s1 c → tick_all c = inr c' → embedded s1 c'.
Proof.
  intros He Ht. destruct (tick_all_steps (embedded s1) c He) as (c1 & Heq & HP & _).
  - intros c1 id n (Ha & s & Hr & Hs) Hn. by eapply (embedded_move s1 s).
  - congruence.
Qed.

Lemma embedded_deliver_all s1 c k c' :
  embedded s1 c → deliver_all c = inr (k, c') → embedded s1 c'.
Proof.
  intros He Hd. pose proof (deliver_loop_steps (embedded s1) (N.to_nat (cl_max_deliveries c)) c
    (proj1 He) He) as Hs. unfold deliver_all in Hd. rewrite Hd in Hs. apply Hs; clear Hs.
  - intros c1 rest from to msg He1 Hq. by eapply embedded_drop.
  - intros c1 rest from to msg n He1 Hq _ Hn.
    destruct (embedded_drop _ _ _ _ _ _ He1 Hq) as [Ha _].
    destruct He1 as (_ & s & Hr & Hs & Hp).
    assert (∀ p, p ∈ rest → p ∈ n_sent s) as Hrest.
    { intros p Hpi. apply Hp. rewrite Hq. by right. }
    eapply (embedded_move s1 s); [done | done | done | done |].
    apply R_deliver, Hp. rewrite Hq. left.
Qed.

Lemma embedded_step s1 c c' : embedded s1 c → step c = inr c' → embedded s1 c'.
Proof.
  intros He. unfold step. destruct (tick_all c) as [|c1] eqn:Ht; [done |].
  destruct (deliver_all c1) as [|[k c2]] eqn:Hd; [done |]. intros [= <-].
  eapply embedded_deliver_all; [|done]. by eapply embedded_tick_all.
Qed.

Lemma embedded_rounds s1 rounds : ∀ c c',
  embedded s1 c → run rounds c = inr c' → embedded s1 c'.
Proof.
  induction rounds as [|r IH]; intros c c' He; cbn; [by intros [= <-] |].
  destruct (step c) as [|c1] eqn:Hs; [done |]. apply IH. by eapply embedded_step.
Qed.

Lemma embedded_act s1 c id f c' :
  calls_only R id f → embedded s1 c → harness_exec c (HAct id f) = inr c' → embedded s1 c'.
Proof.
  intros Hf (Ha & s & Hr & Hs). cbn [harness_exec]. unfold act.
  destruct (cl_nodes c !! id) as [n|] eqn:Hn; [|done].
  destruct (Hf (n_sent s) n) as (outs' & Hm & Hsub). destruct (f n) as [n' outs].
  intros [= <-]. by eapply (embedded_moved s1 s).
Qed.

Lemma embedded_node_mut s1 c id f c' :
  calls_only R id (λ n, (f n, [])) → embedded s1 c → node_mut id f c = inr c' →
  embedded s1 c'.
Proof.
  intros Hf He Hc. apply (embedded_act s1 c id (λ n, (f n, [])) c' Hf He).
  cbn [harness_exec]. unfold act, node_mut in *.
  by destruct (cl_nodes c !! id) as [n|].
Qed.

Lemma embedded_exec s1 c o c' :
  op_calls_only R o → embedded s1 c → harness_exec c o = inr c' → embedded s1 c'.
Proof.
  intros Ho He. destruct o as [| | |k|id|id|id f|id f].
  - by apply embedded_tick_all.
  - cbn [harness_exec]. destruct (deliver_all c) as [|[k c1]] eqn:Hd; [done |].
    intros [= <-]. by eapply embedded_deliver_all.
  - by apply embedded_step.
  - by apply embedded_rounds.
  - by intros [= <-].
  - by intros [= <-].
  - by apply embedded_act.
  - by apply embedded_node_mut.
Qed.

Lemma embedded_init ids :
  embedded (net_init V cfg sm0 s0)
    (new_cluster ((λ id, new_with_store id V cfg sm0 s0) <$> ids)).
Proof.
  split.
  - intros p Hp. by apply not_elem_of_nil in Hp.
  - exists (net_init V cfg sm0 s0). split; [done |]. split; cbn [cl_nodes cl_inflight new_cluster].
    + assert (∀ (l : list ReplicaId) (m : gmap ReplicaId node),
        (∀ id n, m !! id = Some n → new_with_store id V cfg sm0 s0 = n) →
        ∀ id n, foldl (λ m n, <[sim_id n := n]> m) m
          ((λ id, new_with_store id V cfg sm0 s0) <$> l) !! id = Some n →
        new_with_store id V cfg sm0 s0 = n) as Hf; [|by apply Hf].
      intros l. induction l as [|j l IH]; intros m Hm id n; [apply Hm |].
      cbn [fmap list_fmap foldl]. apply IH. clear id n. intros id n.
      change (sim_id (new_with_store j V cfg sm0 s0)) with j.
      rewrite lookup_insert_Some. intros [[<- <-]|[_ ?]]; [done | by apply Hm].
    + intros p Hp. by apply not_elem_of_nil in Hp.
Qed.

Lemma embedded_run s1 os : ∀ c c',
  Forall (op_calls_only R) os → embedded s1 c → harness_run os c = inr c' → embedded s1 c'.
Proof.
  induction os as [|o os IH]; intros c c' Hos He; cbn; [by intros [= <-] |].
  apply Forall_cons in Hos as [Ho Hos].
  destruct (harness_exec c o) as [|c1] eqn:Hx; [done |]. apply IH; [done |].
  by eapply embedded_exec.
Qed.

Lemma harness_run_embedded os ids c :
  Forall (op_calls_only R) os →
  harness_run os (new_cluster ((λ id, new_with_store id V cfg sm0 s0) <$> ids)) = inr c →
  ∃ s, rtc (net_by R) (net_init V cfg sm0 s0) s ∧ ∀ id n, cl_nodes c !! id = Some n → n_nodes s id = n.
Proof.
  intros Hos Hr. destruct (embedded_run _ _ _ _ Hos (embedded_init ids) Hr)
    as (_ & s & Hreach & Hn & _). by exists s.
Qed.

End embedding.

Notation plain_step := (nstep (SM := SM) (S := S) V cfg sm0).
Notation full_step := (api_step (SM := SM) (S := S) V cfg sm0).

Lemma nstep_mono M M' i n n' outs : M ⊆ M' → plain_step M i n n' outs → plain_step M' i n n' outs.
Proof. intros HM []; try constructor. by apply HM. Qed.

Lemma api_step_mono M M' i n n' outs : M ⊆ M' → full_step M i n n' outs → full_step M' i n n' outs.
Proof.
  intros HM []; [|apply api_propose_conf | apply api_compact].
  apply api_plain. by eapply nstep_mono.
Qed.


End raft_harness.

Arguments harness_op : clear implicits.
