(* ===== verification/Epaxos.v ===== *)
(** * The EPaxos replica

    [crates/cs-consensus/src/epaxos.rs]: the leaderless consensus core.  Any
    replica leads the commands proposed to it; each command occupies an
    instance [(replica, slot)] and is committed with a sequence number and a
    set of dependencies, by which every replica orders its execution.

    [BTreeMap] and [BTreeSet] are finite maps and sets; where the code
    iterates over one, the model lists its elements in ascending order
    ([btree_elements]).  [u64] slots and sequence numbers only ever count up
    by one and are [N].  Explicit-prepare recovery does not exist in the code
    and ballots are always [0]. *)

From stdpp Require Import base numbers gmap sorting list.
From Stdlib Require Import Strings.Byte.
From S2P Require Import Prelude RaftTypes Sim.

Local Open Scope N_scope.
Local Open Scope crab_scope.

(** [struct Instance]. *)
Record Instance := MkInstance {
  inst_replica : ReplicaId;
  inst_slot : N;
}.

#[export] Instance Instance_eq_dec : EqDecision Instance.
Proof. solve_decision. Defined.

#[export] Instance Instance_countable : Countable Instance.
Proof.
  refine (inj_countable' (λ i, (inst_replica i, inst_slot i)) (λ p, MkInstance p.1 p.2) _).
  by intros [].
Defined.

(** The derived order: by replica, then by slot. *)
Definition inst_le (i j : Instance) : Prop :=
  inst_replica i < inst_replica j ∨
  inst_replica i = inst_replica j ∧ inst_slot i ≤ inst_slot j.

#[export] Instance inst_le_dec : RelDecision inst_le.
Proof. intros i j. unfold inst_le. apply _. Defined.

#[export] Instance inst_le_total : Total inst_le.
Proof. intros i j. unfold inst_le. lia. Qed.

#[export] Instance inst_le_trans : Transitive inst_le.
Proof. intros i j k. unfold inst_le. lia. Qed.

(** The elements of a [BTreeSet<Instance>], ascending. *)
Definition btree_elements (s : gset Instance) : list Instance := merge_sort inst_le (elements s).

(** [trait EpaxosStateMachine]: supplied by the embedding program. *)
Class EpaxosStateMachine (SM : Type) := {
  interferes : SM → bytes → bytes → bool;
  execute : SM → bytes → SM * bytes;
}.

(** [enum Status], with its derived order. *)
Inductive Status := PreAccepted | Accepted | Committed | Executed.

#[export] Instance Status_eq_dec : EqDecision Status.
Proof. solve_decision. Defined.

Definition status_rank (s : Status) : N :=
  match s with PreAccepted => 0 | Accepted => 1 | Committed => 2 | Executed => 3 end.

(** [struct InstanceState]. *)
Record InstanceState := MkInstanceState {
  is_command : bytes;
  is_seq : N;
  is_deps : gset Instance;
  is_status : Status;
  is_ballot : N;
}.

#[export] Instance InstanceState_eta : Eta InstanceState := λ s,
  MkInstanceState (is_command s) (is_seq s) (is_deps s) (is_status s) (is_ballot s).

(** [enum Message]. *)
Inductive EMessage :=
  | PreAccept (instance : Instance) (ballot : N) (command : bytes) (seq : N) (deps : gset Instance)
  | PreAcceptReply (instance : Instance) (ballot : N) (seq : N) (deps : gset Instance)
  | Accept (instance : Instance) (ballot : N) (command : bytes) (seq : N) (deps : gset Instance)
  | AcceptReply (instance : Instance) (ballot : N)
  | Commit (instance : Instance) (command : bytes) (seq : N) (deps : gset Instance).

#[export] Instance EMessage_eq_dec : EqDecision EMessage.
Proof. solve_decision. Defined.

(** [struct Collect]. *)
Record Collect := MkCollect {
  co_command : bytes;
  co_init_seq : N;
  co_init_deps : gset Instance;
  co_replies : nat;
  co_agreed : nat;
  co_union_seq : N;
  co_union_deps : gset Instance;
  co_accepting : bool;
  co_accept_oks : nat;
}.

#[export] Instance Collect_eta : Eta Collect := λ c,
  MkCollect (co_command c) (co_init_seq c) (co_init_deps c) (co_replies c) (co_agreed c)
    (co_union_seq c) (co_union_deps c) (co_accepting c) (co_accept_oks c).

(** [struct EpaxosReplica]. *)
Record EpaxosReplica (SM : Type) := MkEpaxosReplica {
  ep_id : ReplicaId;
  ep_replicas : list ReplicaId;
  ep_next_slot : N;
  ep_cmds : gmap Instance InstanceState;
  ep_collects : gmap Instance Collect;
  ep_sm : SM;
}.

Arguments MkEpaxosReplica {SM}.
Arguments ep_id {SM}.
Arguments ep_replicas {SM}.
Arguments ep_next_slot {SM}.
Arguments ep_cmds {SM}.
Arguments ep_collects {SM}.
Arguments ep_sm {SM}.

#[export] Instance EpaxosReplica_eta SM : Eta (EpaxosReplica SM) := λ r,
  MkEpaxosReplica (ep_id r) (ep_replicas r) (ep_next_slot r) (ep_cmds r) (ep_collects r) (ep_sm r).

(** ** Strongly connected components *)

(** [struct NodeInfo] of [tarjan_scc]. *)
Record NodeInfo := MkNodeInfo {
  ni_index : N;
  ni_lowlink : N;
  ni_on_stack : bool;
}.

#[export] Instance NodeInfo_eta : Eta NodeInfo := λ i,
  MkNodeInfo (ni_index i) (ni_lowlink i) (ni_on_stack i).

(** The variables of [tarjan_scc]; [t_stack] and [t_call] have their top
    first, [t_sccs] is in the order of the pushes.  A frame is a node, the
    cursor into its successors, and the successors. *)
Record Tarjan := MkTarjan {
  t_info : gmap Instance NodeInfo;
  t_stack : list Instance;
  t_sccs : list (list Instance);
  t_next : N;
  t_call : list (Instance * nat * list Instance);
}.

#[export] Instance Tarjan_eta : Eta Tarjan := λ t,
  MkTarjan (t_info t) (t_stack t) (t_sccs t) (t_next t) (t_call t).

Section tarjan.
Context (succ : Instance → list Instance).

(** First visit of a frame's node. *)
Definition tarjan_enter (v : Instance) (t : Tarjan) : Tarjan :=
  t <| t_info ::= <[v := MkNodeInfo (t_next t) (t_next t) true]> |>
    <| t_next ::= λ n, n + 1 |>
    <| t_stack ::= cons v |>.

(** Looking at the successor [w] of [v]. *)
Definition tarjan_edge (v w : Instance) (t : Tarjan) : Tarjan :=
  match t_info t !! w with
  | None => t <| t_call ::= cons (w, 0%nat, succ w) |>
  | Some wi =>
      if ni_on_stack wi
      then t <| t_info ::= alter (λ vi, vi <| ni_lowlink ::= λ l, N.min l (ni_index wi) |>) v |>
      else t
  end.

(** The loop that pops a component off the stack, down to its root [v]. *)
Fixpoint pop_component (v : Instance) (stack : list Instance) (info : gmap Instance NodeInfo) :
    list Instance * list Instance * gmap Instance NodeInfo :=
  match stack with
  | [] => ([], [], info)
  | w :: stack =>
      let info := alter (λ wi, wi <| ni_on_stack := false |>) w info in
      if decide (w = v) then ([w], stack, info)
      else
        let '(comp, stack, info) := pop_component v stack info in
        (w :: comp, stack, info)
  end.

(** All successors of [v] seen: emit its component if it is a root, drop the
    frame and fold the low link into the caller's. *)
Definition tarjan_leave (v : Instance) (t : Tarjan) : Tarjan :=
  let t :=
    match t_info t !! v with
    | Some vi =>
        if decide (ni_lowlink vi = ni_index vi) then
          let '(comp, stack, info) := pop_component v (t_stack t) (t_info t) in
          t <| t_stack := stack |> <| t_info := info |> <| t_sccs ::= λ l, l ++ [comp] |>
        else t
    | None => t
    end in
  let t := t <| t_call ::= tail |> in
  match t_call t with
  | (parent, _, _) :: _ =>
      match t_info t !! v with
      | Some vi =>
          t <| t_info ::=
            alter (λ pi, pi <| ni_lowlink ::= λ l, N.min l (ni_lowlink vi) |>) parent |>
      | None => t
      end
  | [] => t
  end.

(** One turn of the [while] loop. *)
Definition tarjan_step (t : Tarjan) : Tarjan :=
  match t_call t with
  | [] => t
  | (v, i, succs) :: call =>
      let t := if decide (i = 0%nat) then tarjan_enter v t else t in
      match succs !! i with
      | Some w => tarjan_edge v w (t <| t_call := (v, S i, succs) :: call |>)
      | None => tarjan_leave v t
      end
  end.

Fixpoint tarjan_loop (fuel : nat) (t : Tarjan) : Tarjan :=
  match t_call t, fuel with
  | [], _ | _, O => t
  | _, S fuel => tarjan_loop fuel (tarjan_step t)
  end.

(** Enough turns for one start node: every turn advances a cursor or drops a
    frame, and a node has one frame. *)
Definition tarjan_fuel (nodes : list Instance) : nat :=
  sum_list_with (λ v, S (length (succ v))) nodes.

Definition tarjan_start (nodes : list Instance) (t : Tarjan) (start : Instance) : Tarjan :=
  match t_info t !! start with
  | Some _ => t
  | None => tarjan_loop (tarjan_fuel nodes) (t <| t_call := [(start, 0%nat, succ start)] |>)
  end.

Definition tarjan_scc (nodes : gset Instance) : list (list Instance) :=
  let l := btree_elements nodes in
  t_sccs (foldl (tarjan_start l) (MkTarjan ∅ [] [] 0 []) l).

End tarjan.

(** ** The replica *)

Section replica.
Context {SM : Type} `{EpaxosStateMachine SM}.

Notation replica := (EpaxosReplica SM).
Notation Out := (ReplicaId * EMessage)%type.

(** [EpaxosReplica::new]; [None] when its assertion fails. *)
Definition new_replica (id : ReplicaId) (replicas : list ReplicaId) (sm : SM) : option replica :=
  let replicas := dedup (merge_sort N.le replicas) in
  if decide (id ∈ replicas) then Some (MkEpaxosReplica id replicas 0 ∅ ∅ sm) else None.

Definition epeers (r : replica) : list ReplicaId := filter (λ p, p ≠ ep_id r) (ep_replicas r).

Definition slow_quorum (r : replica) : nat := (length (ep_replicas r) / 2 + 1)%nat.

Definition fast_quorum (r : replica) : nat :=
  let n := length (ep_replicas r) in
  let f := ((n - 1) / 2)%nat in
  (f + (f + 1) / 2)%nat.

Definition status_of (r : replica) (i : Instance) : option Status :=
  is_status <$> ep_cmds r !! i.

(** The instances of [cmds] that interfere with [command], [exclude] left out. *)
Definition conflicts (r : replica) (command : bytes) (exclude : Instance) :
    gmap Instance InstanceState :=
  filter (λ p, p.1 ≠ exclude ∧ interferes (ep_sm r) command (is_command p.2) = true) (ep_cmds r).

Definition deps_and_seq (r : replica) (command : bytes) (exclude : Instance) :
    N * gset Instance :=
  let m := conflicts r command exclude in
  (map_fold (λ _ st, N.max (is_seq st)) 0 m + 1, dom m).

Definition record (inst : Instance) (command : bytes) (seq : N) (deps : gset Instance)
    (status : Status) (ballot : N) (r : replica) : replica :=
  let new := MkInstanceState command seq deps status ballot in
  match ep_cmds r !! inst with
  | Some entry =>
      if decide (status_rank (is_status entry) ≤ status_rank status)
      then r <| ep_cmds ::= <[inst := new]> |> else r
  | None => r <| ep_cmds ::= <[inst := new]> |>
  end.

(** *** Execution *)

(** Whether a dependency lets an instance wait no more. *)
Definition dep_ready (r : replica) (eligible : gset Instance) (d : Instance) : bool :=
  match status_of r d with
  | Some Executed => true
  | Some _ => bool_decide (d ∈ eligible)
  | None => false
  end.

Definition deps_of (r : replica) (i : Instance) : gset Instance :=
  from_option is_deps ∅ (ep_cmds r !! i).

Definition blocked (r : replica) (eligible : gset Instance) (i : Instance) : bool :=
  negb (forallb (dep_ready r eligible) (btree_elements (deps_of r i))).

(** One pass over a snapshot of the eligible set. *)
Definition prune_one (r : replica) (p : gset Instance * bool) (i : Instance) :
    gset Instance * bool :=
  if blocked r p.1 i then (p.1 ∖ {[ i ]}, true) else p.

Definition prune_pass (r : replica) (eligible : gset Instance) : gset Instance * bool :=
  foldl (prune_one r) (eligible, false) (btree_elements eligible).

Fixpoint prune_loop (fuel : nat) (r : replica) (eligible : gset Instance) : gset Instance :=
  match fuel with
  | O => eligible
  | S fuel =>
      let '(e, removed) := prune_pass r eligible in
      if removed : bool then prune_loop fuel r e else e
  end.

Definition committed_set (r : replica) : gset Instance :=
  dom (filter (λ p, is_status p.2 = Committed) (ep_cmds r)).

(** Every pass but the last removes an instance. *)
Definition eligible_set (r : replica) : gset Instance :=
  prune_loop (S (size (committed_set r))) r (committed_set r).

(** The edges of the dependency graph inside the eligible set. *)
Definition exec_succ (r : replica) (eligible : gset Instance) (i : Instance) : list Instance :=
  filter (.∈ eligible) (btree_elements (deps_of r i)).

(** The sort key inside a component. *)
Definition exec_le (r : replica) (i j : Instance) : Prop :=
  let key i := from_option is_seq 0 (ep_cmds r !! i) in
  key i < key j ∨ key i = key j ∧ inst_le i j.

#[export] Instance exec_le_dec (r : replica) : RelDecision (exec_le r).
Proof. intros i j. unfold exec_le. cbn zeta. apply _. Defined.

Definition exec_one (r : replica) (i : Instance) : replica :=
  match ep_cmds r !! i with
  | Some st =>
      if decide (is_status st = Executed) then r
      else
        r <| ep_sm ::= λ sm, (execute sm (is_command st)).1 |>
          <| ep_cmds ::= <[i := st <| is_status := Executed |>]> |>
  | None => r
  end.

Definition exec_scc (r : replica) (scc : list Instance) : replica :=
  foldl exec_one r (merge_sort (exec_le r) scc).

Definition execute_committed (r : replica) : replica :=
  let eligible := eligible_set r in
  if decide (eligible = ∅) then r
  else foldl exec_scc r (tarjan_scc (exec_succ r eligible) eligible).

(** *** Protocol *)

Definition epropose (command : bytes) (r : replica) : replica * list Out :=
  let inst := MkInstance (ep_id r) (ep_next_slot r) in
  let r := r <| ep_next_slot ::= λ s, s + 1 |> in
  let '(seq, deps) := deps_and_seq r command inst in
  let r := record inst command seq deps PreAccepted 0 r in
  let r := r <| ep_collects ::=
    <[inst := MkCollect command seq deps 1 1 seq deps false 1]> |> in
  (r, (λ p, (p, PreAccept inst 0 command seq deps)) <$> epeers r).

Definition on_preaccept (from : ReplicaId) (inst : Instance) (ballot : N) (command : bytes)
    (seq : N) (deps : gset Instance) (r : replica) : replica * list Out :=
  let '(local_seq, local_deps) := deps_and_seq r command inst in
  let merged_seq := N.max seq local_seq in
  let merged_deps := deps ∪ local_deps in
  (record inst command merged_seq merged_deps PreAccepted ballot r,
   [(from, PreAcceptReply inst ballot merged_seq merged_deps)]).

Definition commit_as_leader (inst : Instance) (command : bytes) (seq : N)
    (deps : gset Instance) (r : replica) : replica * list Out :=
  let r := r <| ep_collects ::= delete inst |> in
  let r := execute_committed (record inst command seq deps Committed 0 r) in
  (r, (λ p, (p, Commit inst command seq deps)) <$> epeers r).

Definition on_preaccept_reply (inst : Instance) (seq : N) (deps : gset Instance)
    (r : replica) : replica * list Out :=
  match ep_collects r !! inst with
  | None => (r, [])
  | Some c =>
      if co_accepting c then (r, [])
      else
        let c := c <| co_replies ::= S |> in
        let c := if decide (seq = co_init_seq c ∧ deps = co_init_deps c)
                 then c <| co_agreed ::= S |> else c in
        let c := c <| co_union_seq ::= λ s, N.max s seq |>
                   <| co_union_deps ::= λ d, d ∪ deps |> in
        let r := r <| ep_collects ::= <[inst := c]> |> in
        if decide (co_replies c < fast_quorum r)%nat then (r, [])
        else if decide (fast_quorum r ≤ co_agreed c)%nat then
          commit_as_leader inst (co_command c) (co_init_seq c) (co_init_deps c) r
        else if decide (slow_quorum r ≤ co_replies c)%nat then
          let r := r <| ep_collects ::=
            <[inst := c <| co_accepting := true |> <| co_accept_oks := 1%nat |>]> |> in
          let r := record inst (co_command c) (co_union_seq c) (co_union_deps c) Accepted 0 r in
          (r, (λ p, (p, Accept inst 0 (co_command c) (co_union_seq c) (co_union_deps c)))
                <$> epeers r)
        else (r, [])
  end.

Definition on_accept (from : ReplicaId) (inst : Instance) (ballot : N) (command : bytes)
    (seq : N) (deps : gset Instance) (r : replica) : replica * list Out :=
  (record inst command seq deps Accepted ballot r, [(from, AcceptReply inst ballot)]).

Definition on_accept_reply (inst : Instance) (r : replica) : replica * list Out :=
  match ep_collects r !! inst with
  | None => (r, [])
  | Some c =>
      if co_accepting c then
        let c := c <| co_accept_oks ::= S |> in
        let r := r <| ep_collects ::= <[inst := c]> |> in
        if decide (co_accept_oks c < slow_quorum r)%nat then (r, [])
        else commit_as_leader inst (co_command c) (co_union_seq c) (co_union_deps c) r
      else (r, [])
  end.

Definition on_commit (inst : Instance) (command : bytes) (seq : N) (deps : gset Instance)
    (r : replica) : replica * list Out :=
  (execute_committed (record inst command seq deps Committed 0 r), []).

Definition eon_message (from : ReplicaId) (msg : EMessage) (r : replica) : replica * list Out :=
  match msg with
  | PreAccept instance ballot command seq deps =>
      on_preaccept from instance ballot command seq deps r
  | PreAcceptReply instance _ seq deps => on_preaccept_reply instance seq deps r
  | Accept instance ballot command seq deps =>
      on_accept from instance ballot command seq deps r
  | AcceptReply instance _ => on_accept_reply instance r
  | Commit instance command seq deps => on_commit instance command seq deps r
  end.

End replica.

(** What [record] leaves alone. *)
Lemma record_keeps {SM} `{EpaxosStateMachine SM} i c q ds st b (r : EpaxosReplica SM) :
  let r' := record i c q ds st b r in
  ep_sm r' = ep_sm r ∧ ep_id r' = ep_id r ∧ ep_replicas r' = ep_replicas r ∧
  ep_next_slot r' = ep_next_slot r ∧ ep_collects r' = ep_collects r.
Proof.
  cbn zeta. unfold record. destruct (ep_cmds r !! i); [case_decide |]; fields_goal; done.
Qed.

(** [impl SimNode for EpaxosReplica]: there are no timers. *)
#[export] Instance EpaxosReplica_sim {SM} `{EpaxosStateMachine SM} :
    SimNode (EpaxosReplica SM) EMessage := {|
  sim_id := ep_id;
  sim_on_tick r := (r, []);
  sim_on_message := eon_message;
|}.
