(* ===== verification/EpaxosExample.v ===== *)
(** * Concrete EPaxos groups

    A key-value state machine that records the commands it executes, and
    groups of replicas driven by the harness of [Sim]. *)

From stdpp Require Import base numbers gmap sorting list.
From Stdlib Require Import Strings.Byte.
From S2P Require Import Prelude RaftTypes Sim Epaxos.

Local Open Scope N_scope.

(** Commands are [key :: value]; two of them interfere when their keys agree. *)
Definition kv_log : Type := list (list byte).

#[export] Instance kv_machine : EpaxosStateMachine kv_log := {|
  interferes _ a b :=
    match a, b with x :: _, y :: _ => Byte.eqb x y | _, _ => false end;
  execute sm c := (sm ++ [c], []);
|}.

Notation kv_cluster := (Cluster (EpaxosReplica kv_log) EMessage).

(** A group of [n] fresh replicas. *)
Definition kv_group (n : nat) : kv_cluster :=
  let ids := N.of_nat <$> seq 0 n in new_cluster (omap (λ i, new_replica i ids []) ids).

Definition kv_propose (id : ReplicaId) (c : list byte) (r : panic + kv_cluster) : panic + kv_cluster :=
  match r with
  | inl p => inl p
  | inr x =>
      match act id (λ n, let '(n, outs) := epropose c n in (n, tt, outs)) x with
      | inl p => inl p
      | inr (_, x) => inr x
      end
  end.

Definition kv_deliver (r : panic + kv_cluster) : panic + kv_cluster :=
  match r with
  | inl p => inl p
  | inr x => match deliver_all x with inl p => inl p | inr (_, x) => inr x end
  end.

(** What a replica has executed. *)
Definition kv_executed (r : panic + kv_cluster) (id : ReplicaId) : option kv_log :=
  match r with inl _ => None | inr x => ep_sm <$> cl_nodes x !! id end.
