(* ===== verification/Tarjan.v ===== *)
(** * Tarjan's algorithm is correct

    [tarjan_scc] of [crates/cs-consensus/src/epaxos.rs], the iterative
    algorithm that orders a batch of EPaxos instances for execution: on any
    finite graph it returns, within the turns it is given, the strongly
    connected components of the graph, every component after the components
    it has edges to. *)

From stdpp Require Import base numbers gmap sorting list.
From S2P Require Import Prelude RaftTypes Sim Epaxos.

Local Open Scope N_scope.
Local Open Scope crab_scope.

Lemma elem_of_btree_elements (s : gset Instance) i : i ∈ btree_elements s ↔ i ∈ s.
Proof. unfold btree_elements. by rewrite merge_sort_Permutation, elem_of_elements. Qed.

Lemma btree_elements_NoDup (s : gset Instance) : NoDup (btree_elements s).
Proof. unfold btree_elements. rewrite merge_sort_Permutation. apply NoDup_elements. Qed.

Notation frame := (Instance * nat * list Instance)%type.

Section graph.
Context (succ : Instance → list Instance) (nodes : gset Instance).

Definition edge (v w : Instance) : Prop := w ∈ succ v.
Definition reach : relation Instance := rtc edge.

Definition graph_closed : Prop := ∀ v w, v ∈ nodes → w ∈ succ v → w ∈ nodes.

(** Any two members reach each other. *)
Definition connected (c : list Instance) : Prop := ∀ v w, v ∈ c → w ∈ c → reach v w.

(** Edges stay in their component or lead to an earlier one. *)
Definition layered (sccs : list (list Instance)) : Prop :=
  ∀ pre c post, sccs = pre ++ c :: post →
    ∀ v w, v ∈ c → edge v w → w ∈ c ∨ w ∈ concat pre.

Lemma layered_snoc sccs c :
  layered sccs → (∀ v w, v ∈ c → edge v w → w ∈ c ∨ w ∈ concat sccs) → layered (sccs ++ [c]).
Proof.
  intros Hl Hc pre c' post Heq. destruct post as [|d post _] using rev_ind.
  - apply app_inj_tail in Heq as [-> ->]. apply Hc.
  - rewrite app_comm_cons, app_assoc in Heq. apply app_inj_tail in Heq as [-> _]. by eapply Hl.
Qed.

Lemma reach_step v w x : edge v w → reach w x → reach v x.
Proof. apply rtc_l. Qed.

(** ** The invariant *)

Definition idx (m : gmap Instance NodeInfo) (v : Instance) : N := from_option ni_index 0 (m !! v).
Definition low (m : gmap Instance NodeInfo) (v : Instance) : N := from_option ni_lowlink 0 (m !! v).

(** The visited nodes are those on the stack and those of a component. *)
Record visited_ok (m : gmap Instance NodeInfo) (stack : list Instance)
    (sccs : list (list Instance)) (next : N) : Prop := {
  v_dom v : v ∈ dom m ↔ v ∈ stack ∨ v ∈ concat sccs;
  v_nodes v : v ∈ dom m → v ∈ nodes;
  v_nodup : NoDup (stack ++ concat sccs);
  v_flag v vi : m !! v = Some vi → ni_on_stack vi = bool_decide (v ∈ stack);
  v_sorted : StronglySorted (λ x y, idx m y < idx m x) stack;
  v_next v : v ∈ stack → idx m v < next;
  v_low v : v ∈ stack → ∃ y, y ∈ stack ∧ idx m y = low m v ∧ reach v y;
  v_low_le v : v ∈ stack → low m v ≤ idx m v;
  v_connected : Forall connected sccs;
  v_layered : layered sccs;
}.

(** A node [x] of the stack whose frame is gone, with [g] the nearest node
    below it that still has one. *)
Definition finished m (stack : list Instance) (g x : Instance) : Prop :=
  reach g x ∧ low m x < idx m x ∧ low m g ≤ low m x ∧
  ∀ w, edge x w → w ∈ dom m ∧ (w ∈ stack → low m g ≤ idx m w).

(** The entered frames against the stack, top first: each frame's node with
    the finished nodes above it.  [pend] is a node that has been pushed but
    not entered. *)
Inductive frames_ok m (stack : list Instance) (pend : option Instance) :
    list frame → list Instance → Prop :=
  | frames_nil : frames_ok m stack pend [] []
  | frames_cons g i fin call rest :
      (∀ w, w ∈ take i (succ g) →
         (w ∈ dom m ∨ pend = Some w) ∧ (w ∈ stack → low m g ≤ idx m w)) →
      (∀ x, x ∈ fin → finished m stack g x) →
      (∀ p j l call', call = (p, j, l) :: call' → edge p g) →
      frames_ok m stack pend call rest →
      frames_ok m stack pend ((g, i, succ g) :: call) (fin ++ g :: rest).

(** Frames below the top are untouched by what happens above them. *)
Lemma frames_ok_mono m m' stack stack' pend pend' call rest :
  frames_ok m stack pend call rest →
  (∀ x, x ∈ rest → x ∈ dom m ∧ low m' x = low m x) →
  (∀ w, w ∈ dom m → w ∈ dom m' ∧ idx m' w = idx m w ∧ (w ∈ stack' → w ∈ stack)) →
  (∀ w, w ∈ stack' → w ∉ dom m → ∀ x, x ∈ rest → low m x ≤ idx m' w) →
  (∀ w, pend = Some w → w ∉ dom m ∧ (w ∈ dom m' ∨ pend' = Some w)) →
  frames_ok m' stack' pend' call rest.
Proof.
  intros Hf Hlow Hdom Hnew Hpend.
  induction Hf as [|g i fin call rest Htake Hfin Hpar Hf IH]; constructor; try done.
  - intros w Hw. destruct (Htake w Hw) as [Hd Hl]. destruct (Hlow g) as [_ ->]; [elems |].
    split.
    + destruct Hd as [Hd|Hd]; [left; by apply Hdom | by apply Hpend].
    + intros Hw'. destruct (decide (w ∈ dom m)) as [Hd'|Hd'].
      * destruct (Hdom w Hd') as (_ & -> & Hs). auto.
      * apply Hnew; [done | done | elems].
  - intros x Hx. destruct (Hfin x Hx) as (Hr & Hlt & Hle & Hw).
    destruct (Hlow x) as [Hxd Hxl]; [elems |]. destruct (Hlow g) as [_ Hgl]; [elems |].
    destruct (Hdom x Hxd) as (_ & Hxi & _).
    unfold finished. rewrite Hxl, Hgl, Hxi. do 3 (split; [done |]).
    intros w Hew. destruct (Hw w Hew) as [Hwd Hwl]. destruct (Hdom w Hwd) as (? & -> & Hs). auto.
  - apply IH; [intros; apply Hlow; elems | intros; apply Hnew; [done.. | elems]].
Qed.

(** All frames entered, the one on top possibly with its cursor still at [0]. *)
Definition running (t : Tarjan) : Prop :=
  visited_ok (t_info t) (t_stack t) (t_sccs t) (t_next t) ∧
  frames_ok (t_info t) (t_stack t) None (t_call t) (t_stack t) ∧
  Forall (λ f, f.1.2 ≠ 0%nat) (tail (t_call t)).

(** The head of the loop. *)
Definition at_head (t : Tarjan) : Prop :=
  running t ∧ Forall (λ f, f.1.2 ≠ 0%nat) (t_call t) ∨
  ∃ w call, t_call t = (w, 0%nat, succ w) :: call ∧
    visited_ok (t_info t) (t_stack t) (t_sccs t) (t_next t) ∧
    frames_ok (t_info t) (t_stack t) (Some w) call (t_stack t) ∧
    Forall (λ f, f.1.2 ≠ 0%nat) call ∧
    w ∈ nodes ∧ w ∉ dom (t_info t) ∧
    (∀ p j l call', call = (p, j, l) :: call' → edge p w).

(** ** Bookkeeping *)

Notation lower l v m := (alter (λ vi, vi <| ni_lowlink ::= λ x, N.min x l |>) v m).
Notation unstack v m := (alter (λ vi, vi <| ni_on_stack := false |>) v m).

Lemma idx_lower l v m x : idx (lower l v m) x = idx m x.
Proof.
  unfold idx. destruct (decide (x = v)) as [->|Hx]; [| by rewrite lookup_alter_ne].
  rewrite lookup_alter_eq. by destruct (m !! v).
Qed.

Lemma low_lower l v m : v ∈ dom m → low (lower l v m) v = N.min (low m v) l.
Proof.
  intros [vi Hv]%elem_of_dom. unfold low. by rewrite lookup_alter_eq, Hv.
Qed.

Lemma low_lower_ne l v m x : x ≠ v → low (lower l v m) x = low m x.
Proof. intros Hx. unfold low. by rewrite lookup_alter_ne. Qed.

Lemma idx_unstack v m x : idx (unstack v m) x = idx m x.
Proof.
  unfold idx. destruct (decide (x = v)) as [->|Hx]; [| by rewrite lookup_alter_ne].
  rewrite lookup_alter_eq. by destruct (m !! v).
Qed.

Lemma low_unstack v m x : low (unstack v m) x = low m x.
Proof.
  unfold low. destruct (decide (x = v)) as [->|Hx]; [| by rewrite lookup_alter_ne].
  rewrite lookup_alter_eq. by destruct (m !! v).
Qed.

Lemma sorted_ext (f g : Instance → N) l :
  (∀ x, x ∈ l → f x = g x) →
  StronglySorted (λ x y, f y < f x) l → StronglySorted (λ x y, g y < g x) l.
Proof.
  induction l as [|x l IH]; intros Hfg Hs; constructor.
  - apply IH; [| by inversion Hs]. intros y Hy. apply Hfg. by right.
  - apply StronglySorted_inv in Hs as [_ Hx]. rewrite Forall_forall in *.
    intros y Hy. rewrite <-!Hfg by (by left || by right). by apply Hx.
Qed.

Lemma sorted_split (f : Instance → N) l v rest :
  StronglySorted (λ x y, f y < f x) (l ++ v :: rest) →
  (∀ x, x ∈ l → f v < f x) ∧ (∀ x, x ∈ rest → f x < f v) ∧
  StronglySorted (λ x y, f y < f x) rest.
Proof.
  induction l as [|y l IH]; cbn; intros Hs; apply StronglySorted_inv in Hs as [Hs Hy].
  - rewrite Forall_forall in Hy. split; [by intros x ?%elem_of_nil | done].
  - destruct (IH Hs) as (Hl & Hr & Hs'). split; [| done]. rewrite Forall_forall in Hy.
    intros x [->|Hx]%elem_of_cons; [| by apply Hl]. apply Hy. elems.
Qed.

(** Lowering a low link to the index of a stack node it reaches. *)
Lemma visited_lower m stack sccs next v l :
  visited_ok m stack sccs next → v ∈ stack →
  (∃ y, y ∈ stack ∧ idx m y = l ∧ reach v y) →
  visited_ok (lower l v m) stack sccs next.
Proof.
  intros [Hdom Hnod Hnd Hfl Hs Hnx Hlow Hle Hc Hlay] Hv Hy.
  assert (v ∈ dom m) as Hvd by (apply Hdom; by left).
  split; try done; rewrite ?dom_alter_L; try done.
  - intros x xi. destruct (decide (x = v)) as [->|Hx].
    + rewrite lookup_alter_eq. intros (vi & Hvi & ->)%fmap_Some. exact (Hfl _ _ Hvi).
    + rewrite lookup_alter_ne by done. apply Hfl.
  - eapply sorted_ext; [| exact Hs]. intros. by rewrite idx_lower.
  - intros x Hx. rewrite idx_lower. by apply Hnx.
  - intros x Hx. setoid_rewrite idx_lower. destruct (decide (x = v)) as [->|Hne].
    + rewrite low_lower by done. destruct (N.min_spec (low m v) l) as [[_ ->]|[_ ->]]; auto.
    + rewrite low_lower_ne by done. auto.
  - intros x Hx. rewrite idx_lower. specialize (Hle x Hx). destruct (decide (x = v)) as [->|Hne].
    + rewrite low_lower by done. lia.
    + by rewrite low_lower_ne.
Qed.

Lemma finished_lower m stack l v g x :
  x ≠ v → g ∈ dom m → finished m stack g x → finished (lower l v m) stack g x.
Proof.
  intros Hx Hg (Hr & Hlt & Hle & Hw). unfold finished. rewrite (low_lower_ne _ _ _ x) by done.
  setoid_rewrite idx_lower. rewrite dom_alter_L.
  assert (low (lower l v m) g ≤ low m g) as Hg'.
  { destruct (decide (g = v)) as [->|?]; [rewrite low_lower by done; lia | by rewrite low_lower_ne]. }
  do 2 (split; [done |]). split; [lia |]. intros w Hew. destruct (Hw w Hew) as [? Hl].
  split; [done |]. intros Hws. specialize (Hl Hws). lia.
Qed.

(** ** One turn *)

Lemma visited_enter m stack sccs next w :
  visited_ok m stack sccs next → w ∈ nodes → w ∉ dom m →
  visited_ok (<[w := MkNodeInfo next next true]> m) (w :: stack) sccs (next + 1).
Proof.
  intros [Hdom Hnod Hnd Hfl Hs Hnx Hlow Hle Hc Hlay] Hw Hwm.
  assert (∀ x, x ∈ stack → x ≠ w) as Hne.
  { intros x Hx ->. apply Hwm, Hdom. by left. }
  set (m' := <[w := _]> m).
  assert (idx m' w = next ∧ low m' w = next) as [Hiw Hlw].
  { unfold m', idx, low. by rewrite lookup_insert_eq. }
  assert (∀ x, x ≠ w → idx m' x = idx m x ∧ low m' x = low m x) as Hx.
  { intros x Hx. unfold m', idx, low. by rewrite lookup_insert_ne. }
  split; try done.
  - intros v. unfold m'. rewrite dom_insert_L, elem_of_union, elem_of_singleton, elem_of_cons, Hdom. tauto.
  - intros v. unfold m'. rewrite dom_insert_L, elem_of_union, elem_of_singleton. intros [->|?]; auto.
  - cbn. constructor; [| done]. rewrite elem_of_app. by rewrite <-Hdom.
  - intros v vi. unfold m'. destruct (decide (v = w)) as [->|Hv].
    + rewrite lookup_insert_eq. intros [= <-]. symmetry. apply bool_decide_eq_true. by left.
    + rewrite lookup_insert_ne by done. intros Hvi. rewrite (Hfl _ _ Hvi).
      apply bool_decide_ext. rewrite elem_of_cons. tauto.
  - constructor.
    + eapply sorted_ext; [| exact Hs]. intros x Hxs. by destruct (Hx x (Hne x Hxs)) as [-> _].
    + apply Forall_forall. intros x Hxs. destruct (Hx x (Hne x Hxs)) as [-> _]. rewrite Hiw. auto.
  - intros v [->|Hv]%elem_of_cons; [lia |]. destruct (Hx v (Hne v Hv)) as [-> _].
    specialize (Hnx v Hv). lia.
  - intros v [->|Hv]%elem_of_cons; [exists w; split_and!; [by left | by rewrite Hiw, Hlw | done] |].
    destruct (Hx v (Hne v Hv)) as [_ ->]. destruct (Hlow v Hv) as (y & Hy & Hyl & Hr).
    exists y. destruct (Hx y (Hne y Hy)) as [-> _]. split_and!; [by right | done | done].
  - intros v [->|Hv]%elem_of_cons; [by rewrite Hiw, Hlw |].
    destruct (Hx v (Hne v Hv)) as [-> ->]. auto.
Qed.

Lemma enter_running t w call :
  t_call t = (w, 0%nat, succ w) :: call →
  visited_ok (t_info t) (t_stack t) (t_sccs t) (t_next t) →
  frames_ok (t_info t) (t_stack t) (Some w) call (t_stack t) →
  Forall (λ f, f.1.2 ≠ 0%nat) call →
  w ∈ nodes → w ∉ dom (t_info t) →
  (∀ p j l call', call = (p, j, l) :: call' → edge p w) →
  running (tarjan_enter w t).
Proof.
  intros Hcall Hv Hf Hcur Hwn Hwd Hpar. unfold running, tarjan_enter. fields_goal.
  rewrite Hcall. split_and!; [by apply visited_enter | | done].
  assert (∀ x, x ∈ t_stack t → x ∈ dom (t_info t) ∧ x ≠ w) as Hst.
  { intros x Hx. assert (x ∈ dom (t_info t)) as Hd by (apply Hv; by left). split; [done | by intros ->]. }
  apply (frames_cons _ _ _ w 0%nat [] call (t_stack t)).
  - by intros x ?%elem_of_nil.
  - by intros x ?%elem_of_nil.
  - done.
  - eapply frames_ok_mono; [done | | | |].
    + intros x Hx. destruct (Hst x Hx) as [Hd Hne]. split; [done |].
      unfold low. by rewrite lookup_insert_ne.
    + intros x Hx. rewrite dom_insert_L, elem_of_union. split; [by right |].
      assert (x ≠ w) as Hne by congruence. unfold idx. rewrite lookup_insert_ne by done.
      split; [done |]. by intros [->|?]%elem_of_cons.
    + intros x Hx Hxd y Hy. apply elem_of_cons in Hx as [->|Hx]; [| by destruct (Hst x Hx)].
      unfold idx at 1. rewrite lookup_insert_eq. cbn.
      pose proof (v_low_le _ _ _ _ Hv y Hy). pose proof (v_next _ _ _ _ Hv y Hy). lia.
    + intros x [= <-]. split; [done |]. left. rewrite dom_insert_L, elem_of_union, elem_of_singleton. by left.
Qed.

(** The top frame of a running state, with what lies above and below it. *)
Lemma running_inv t v i l call :
  running t → t_call t = (v, i, l) :: call →
  l = succ v ∧ ∃ fin rest,
    t_stack t = fin ++ v :: rest ∧
    (∀ w, w ∈ take i (succ v) →
       w ∈ dom (t_info t) ∧ (w ∈ t_stack t → low (t_info t) v ≤ idx (t_info t) w)) ∧
    (∀ x, x ∈ fin → finished (t_info t) (t_stack t) v x) ∧
    (∀ p j l call', call = (p, j, l) :: call' → edge p v) ∧
    frames_ok (t_info t) (t_stack t) None call rest ∧
    Forall (λ f, f.1.2 ≠ 0%nat) call.
Proof.
  intros (_ & Hf & Hcur) Hcall. rewrite Hcall in Hf, Hcur.
  remember (t_stack t) as st eqn:Hst in Hf at 2. inversion Hf as [|g j fin call' rest Ht Hfin Hp Hr]; subst.
  split; [done |]. exists fin, rest. split_and!; try done.
  intros w Hw. destruct (Ht w Hw) as [[?|?] ?]; done.
Qed.

(** Only the top frame sees its node's low link fall. *)
Lemma frames_lower m stack call rest v l :
  frames_ok m stack None call rest → v ∉ rest → (∀ x, x ∈ rest → x ∈ dom m) →
  (∀ x, x ∈ stack → x ∈ dom m) →
  frames_ok (lower l v m) stack None call rest.
Proof.
  intros Hf Hv Hd Hst. eapply frames_ok_mono; [done | | | |].
  - intros x Hx. split; [by apply Hd |]. apply low_lower_ne. by intros ->.
  - intros w Hw. by rewrite dom_alter_L, idx_lower.
  - intros w Hw Hwm. by destruct Hwm; apply Hst.
  - done.
Qed.

Lemma stack_split_fresh m fin v rest sccs next :
  visited_ok m (fin ++ v :: rest) sccs next →
  v ∉ fin ∧ v ∉ rest ∧ NoDup rest ∧ ∀ x, x ∈ fin ++ v :: rest → x ∈ dom m.
Proof.
  intros Hv. pose proof (v_nodup _ _ _ _ Hv) as Hnd. apply NoDup_app in Hnd as (Hnd & _ & _).
  apply NoDup_app in Hnd as (_ & Hd & Hnd). apply NoDup_cons in Hnd as [Hr Hnd].
  split_and!; [| done | done |].
  - intros Hf. apply (Hd v Hf). by left.
  - intros x Hx. apply Hv. by left.
Qed.

Lemma take_S_elem (l : list Instance) i w x :
  l !! i = Some w → x ∈ take (S i) l → x = w ∨ x ∈ take i l.
Proof. intros Hw. rewrite (take_S_r _ _ _ Hw), elem_of_app, list_elem_of_singleton. tauto. Qed.

Lemma edge_at_head t v i w call :
  graph_closed → running t → t_call t = (v, i, succ v) :: call → succ v !! i = Some w →
  at_head (tarjan_edge succ v w (t <| t_call := (v, S i, succ v) :: call |>)).
Proof.
  intros Hcl Hrun Hcall Hw. pose proof Hrun as (Hv & _ & _).
  destruct (running_inv _ _ _ _ _ Hrun Hcall) as (_ & fin & rest & Hst & Htake & Hfin & Hpar & Hrest & Hcur).
  rewrite Hst in Hv. destruct (stack_split_fresh _ _ _ _ _ _ Hv) as (Hvf & Hvr & _ & Hdom).
  assert (v ∈ fin ++ v :: rest) as Hvs by elems.
  assert (edge v w) as Hedge by (by eapply list_elem_of_lookup_2).
  unfold tarjan_edge. fields_goal. destruct (t_info t !! w) as [wi|] eqn:Hwi.
  - assert (w ∈ dom (t_info t)) as Hwd by (by apply elem_of_dom_2 in Hwi).
    left. pose proof (v_flag _ _ _ _ Hv _ _ Hwi) as Hfl. destruct (ni_on_stack wi).
    + symmetry in Hfl. apply bool_decide_eq_true in Hfl.
      replace (ni_index wi) with (idx (t_info t) w) by (unfold idx; by rewrite Hwi).
      split; [| by constructor]. unfold running. fields_goal. rewrite Hst in *.
      split_and!; [| | done].
      { apply visited_lower; [done | done |]. exists w. split_and!; [done | done |]. by apply rtc_once. }
      constructor; [| | done | apply frames_lower; auto; intros; apply Hdom; elems].
      * intros x Hx. rewrite dom_alter_L, idx_lower, low_lower by auto.
        apply (take_S_elem _ _ _ _ Hw) in Hx as [->|Hx]; [split; [by left | lia] |].
        destruct (Htake x Hx) as [? Hle]. split; [by left |]. intros Hxs. specialize (Hle Hxs). lia.
      * intros x Hx. apply finished_lower; auto. by intros ->.
    + symmetry in Hfl. apply bool_decide_eq_false in Hfl.
      split; [| by constructor]. unfold running. fields_goal. rewrite Hst in *.
      split_and!; [done | | done]. constructor; try done. intros x Hx.
      apply (take_S_elem _ _ _ _ Hw) in Hx as [->|Hx]; [split; [by left | done] |].
      destruct (Htake x Hx). by split; [left |].
  - assert (w ∉ dom (t_info t)) as Hwd by (by apply not_elem_of_dom).
    right. exists w, ((v, S i, succ v) :: call). fields_goal. rewrite Hst in *. split_and!; try done.
    + constructor; [| done | done |].
      * intros x Hx. apply (take_S_elem _ _ _ _ Hw) in Hx as [->|Hx].
        -- split; [by right |]. intros Hws. by destruct Hwd; apply Hdom.
        -- destruct (Htake x Hx). by split; [left |].
      * eapply frames_ok_mono; [done | | | |]; try done.
        -- intros x Hx. split; [| done]. apply Hdom. elems.
        -- intros x Hx Hxd. by destruct Hxd; apply Hdom.
    + by constructor.
    + apply (Hcl v); [| done]. apply (v_nodes _ _ _ _ Hv), Hdom. done.
    + by intros p j l call' [= <- <- <- <-].
Qed.

(** *** Leaving a node *)

Definition unstack_all (l : list Instance) (m : gmap Instance NodeInfo) : gmap Instance NodeInfo :=
  foldl (λ m x, unstack x m) m l.

Lemma pop_component_eq v fin rest m :
  v ∉ fin → pop_component v (fin ++ v :: rest) m = (fin ++ [v], rest, unstack_all (fin ++ [v]) m).
Proof.
  revert m. induction fin as [|x fin IH]; intros m Hv; cbn.
  - by rewrite decide_True.
  - apply not_elem_of_cons in Hv as [Hx Hv]. rewrite decide_False by done. by rewrite IH.
Qed.

Lemma unstack_all_keeps l m x :
  dom (unstack_all l m) = dom m ∧ idx (unstack_all l m) x = idx m x ∧
  low (unstack_all l m) x = low m x.
Proof.
  revert m. induction l as [|y l IH]; intros m; [done |]. cbn.
  destruct (IH (unstack y m)) as (Hd & Hi & Hl). unfold unstack_all in *.
  by rewrite Hd, Hi, Hl, dom_alter_L, idx_unstack, low_unstack.
Qed.

Lemma unstack_all_flag l m x xi :
  unstack_all l m !! x = Some xi →
  ∃ xi', m !! x = Some xi' ∧ ni_on_stack xi = (bool_decide (x ∉ l) && ni_on_stack xi').
Proof.
  revert m. induction l as [|y l IH]; intros m Hx; cbn in *.
  { exists xi. split; [done |]. by rewrite bool_decide_eq_true_2 by apply not_elem_of_nil. }
  apply IH in Hx as (xi' & Hm & ->). destruct (decide (x = y)) as [->|Hne].
  - rewrite lookup_alter_eq in Hm. apply fmap_Some in Hm as (yi & Hy & ->). exists yi.
    split; [done |]. cbn. rewrite andb_false_r, bool_decide_eq_false_2; [done |].
    intros Hn. apply Hn. by left.
  - rewrite lookup_alter_ne in Hm by done. exists xi'. split; [done |]. f_equal.
    apply bool_decide_ext. rewrite not_elem_of_cons. tauto.
Qed.

(** From a finished node of a root's segment the root is reachable. *)
Lemma finished_reach_root m fin v rest sccs next x :
  visited_ok m (fin ++ v :: rest) sccs next →
  (∀ x, x ∈ fin → finished m (fin ++ v :: rest) v x) →
  low m v = idx m v → x ∈ fin ++ [v] → reach x v.
Proof.
  intros Hv Hfin Hroot. destruct (sorted_split _ _ _ _ (v_sorted _ _ _ _ Hv)) as (_ & Hbelow & _).
  remember (idx m x) as k eqn:Hk. revert x Hk.
  induction k as [k IH] using (well_founded_induction N.lt_wf_0). intros x ->.
  intros [Hx|Hx%list_elem_of_singleton]%elem_of_app; [| by subst].
  destruct (Hfin x Hx) as (_ & Hlt & Hle & _).
  destruct (v_low _ _ _ _ Hv x) as (y & Hy & Hyl & Hr); [elems |].
  trans y; [done |]. apply (IH (idx m y)); [lia | done |].
  apply elem_of_app in Hy as [Hy|[->|Hy]%elem_of_cons]; [elems | elems |].
  specialize (Hbelow y Hy). lia.
Qed.

Lemma visited_pop m fin v rest sccs next :
  visited_ok m (fin ++ v :: rest) sccs next →
  (∀ x, x ∈ fin → finished m (fin ++ v :: rest) v x) →
  (∀ w, edge v w → w ∈ dom m ∧ (w ∈ fin ++ v :: rest → low m v ≤ idx m w)) →
  low m v = idx m v →
  visited_ok (unstack_all (fin ++ [v]) m) rest (sccs ++ [fin ++ [v]]) next.
Proof.
  intros Hv Hfin Hedges Hroot.
  destruct (sorted_split _ _ _ _ (v_sorted _ _ _ _ Hv)) as (_ & Hbelow & Hsr).
  destruct (stack_split_fresh _ _ _ _ _ _ Hv) as (Hvf & Hvr & Hnr & Hsd).
  set (comp := fin ++ [v]).
  assert (fin ++ v :: rest = comp ++ rest) as Hsplit by (unfold comp; by rewrite <-app_assoc).
  assert (∀ x, dom (unstack_all comp m) = dom m ∧ idx (unstack_all comp m) x = idx m x ∧
                 low (unstack_all comp m) x = low m x) as Hk by (intros; apply unstack_all_keeps).
  assert (∀ x, idx (unstack_all comp m) x = idx m x) as Hki by apply Hk.
  assert (∀ x, low (unstack_all comp m) x = low m x) as Hkl by apply Hk.
  assert (concat (sccs ++ [comp]) = concat sccs ++ comp) as Hconc
    by (rewrite concat_app; cbn; by rewrite app_nil_r).
  assert (∀ x, x ∈ rest → x ∉ comp) as Hrc.
  { intros x Hr Hc. pose proof (v_nodup _ _ _ _ Hv) as Hnd. rewrite Hsplit in Hnd.
    apply NoDup_app in Hnd as (Hnd & _ & _). apply NoDup_app in Hnd as (_ & Hd & _). by apply (Hd x). }
  split.
  - intros x. destruct (Hk x) as (-> & _). rewrite (v_dom _ _ _ _ Hv), Hsplit, Hconc. elems.
  - intros x. destruct (Hk x) as (-> & _). apply Hv.
  - rewrite Hconc, (Permutation_app_comm (concat sccs)), app_assoc, (Permutation_app_comm rest), <-Hsplit.
    apply Hv.
  - intros x xi (xi' & Hx & ->)%unstack_all_flag. rewrite (v_flag _ _ _ _ Hv _ _ Hx), Hsplit.
    rewrite <-bool_decide_and. apply bool_decide_ext. rewrite elem_of_app.
    specialize (Hrc x). tauto.
  - eapply sorted_ext; [| exact Hsr]. intros. by rewrite Hki.
  - intros x Hx. rewrite Hki. apply Hv. elems.
  - intros x Hx. destruct (v_low _ _ _ _ Hv x) as (y & Hy & Hyl & Hr); [elems |].
    exists y. rewrite Hki, Hkl. split_and!; [| done | done].
    specialize (Hbelow x Hx). pose proof (v_low_le _ _ _ _ Hv x ltac:(elems)).
    destruct (sorted_split _ _ _ _ (v_sorted _ _ _ _ Hv)) as (Habove & _ & _).
    apply elem_of_app in Hy as [Hy|[->|Hy]%elem_of_cons]; [| lia | done].
    specialize (Habove y Hy). lia.
  - intros x Hx. rewrite Hki, Hkl. apply Hv. elems.
  - apply Forall_app. split; [apply Hv |]. apply Forall_singleton. intros x y Hx Hy.
    trans v; [by eapply finished_reach_root |].
    apply elem_of_app in Hy as [Hy|Hy%list_elem_of_singleton]; [by apply Hfin | by subst].
  - apply layered_snoc; [apply Hv |]. intros x w Hx Hxw.
    assert (w ∈ dom m ∧ (w ∈ fin ++ v :: rest → idx m v ≤ idx m w)) as [Hwd Hwi].
    { rewrite <-Hroot. apply elem_of_app in Hx as [Hx|Hx%list_elem_of_singleton]; [| subst; by apply Hedges].
      by apply (Hfin x Hx). }
    apply (v_dom _ _ _ _ Hv) in Hwd as [Hws|Hws]; [left | by right].
    specialize (Hwi Hws). rewrite Hsplit in Hws. apply elem_of_app in Hws as [?|Hwr]; [done |].
    specialize (Hbelow w Hwr). lia.
Qed.

Lemma lower_id l v m : low m v ≤ l → lower l v m = m.
Proof.
  intros Hl. apply map_eq. intros x. destruct (decide (x = v)) as [->|Hx]; [| by rewrite lookup_alter_ne].
  rewrite lookup_alter_eq. unfold low in Hl. destruct (m !! v) as [[a b c]|]; [| done]. cbn in *.
  unfold set_field. cbn. by rewrite N.min_l.
Qed.

(** A root leaves with its component. *)
Lemma leave_root t v i call vi :
  running t → t_call t = (v, i, succ v) :: call → succ v !! i = None →
  t_info t !! v = Some vi → ni_lowlink vi = ni_index vi →
  at_head (tarjan_leave v t).
Proof.
  intros Hrun Hcall Hend Hvi Hroot. pose proof Hrun as (Hv & _ & _).
  destruct (running_inv _ _ _ _ _ Hrun Hcall) as (_ & fin & rest & Hst & Htake & Hfin & Hpar & Hrest & Hcur).
  rewrite take_ge in Htake by by apply lookup_ge_None.
  rewrite Hst in Hv, Htake, Hfin, Hrest.
  destruct (stack_split_fresh _ _ _ _ _ _ Hv) as (Hvf & Hvr & _ & Hdom).
  assert (low (t_info t) v = idx (t_info t) v) as Hlow by (unfold low, idx; by rewrite Hvi).
  pose proof (visited_pop _ _ _ _ _ _ Hv Hfin Htake Hlow) as Hpop.
  assert (∀ x, dom (unstack_all (fin ++ [v]) (t_info t)) = dom (t_info t) ∧
     idx (unstack_all (fin ++ [v]) (t_info t)) x = idx (t_info t) x ∧
     low (unstack_all (fin ++ [v]) (t_info t)) x = low (t_info t) x) as Hk by (intros; apply unstack_all_keeps).
  unfold tarjan_leave. rewrite Hvi, decide_True, Hst, pop_component_eq by done. fields_goal.
  assert (frames_ok (unstack_all (fin ++ [v]) (t_info t)) rest None call rest) as Hfr.
  { eapply frames_ok_mono; [done | | | |]; try done.
    - intros x Hx. split; [apply Hdom; elems | apply Hk].
    - intros w Hw. destruct (Hk w) as (-> & -> & _). split_and!; [done | done | elems].
    - intros w Hw Hwd. destruct Hwd. apply Hdom. elems. }
  left. rewrite Hcall. cbn [tail]. destruct call as [|[[p j] l] call].
  - split; unfold running; fields_goal; [| by rewrite Hcall]. rewrite Hcall. by split_and!.
  - destruct (unstack_all _ _ !! v) as [vi'|] eqn:Hvi'.
    2: { apply not_elem_of_dom in Hvi'. destruct (Hk v) as (Hd & _). rewrite Hd in Hvi'.
         destruct Hvi'. apply Hdom. elems. }
    assert (lower (ni_lowlink vi') p (unstack_all (fin ++ [v]) (t_info t)) =
            unstack_all (fin ++ [v]) (t_info t)) as Hid.
    { apply lower_id. assert (idx (t_info t) v = ni_lowlink vi') as <-.
         { rewrite <-Hlow. destruct (Hk v) as (_ & _ & <-). unfold low. by rewrite Hvi'. }
         inversion Hfr as [|? ? fin' ? rest' _ _ _ _]; subst.
         destruct (Hk p) as (_ & _ & ->). destruct (sorted_split _ _ _ _ (v_sorted _ _ _ _ Hv)) as (_ & Hb & _).
         pose proof (v_low_le _ _ _ _ Hv p ltac:(elems)). specialize (Hb p ltac:(elems)). lia. }
    split; unfold running; fields_goal; rewrite ?Hid, Hcall; [| done].
    split_and!; [done | done | by inversion Hcur].
Qed.

(** A parent takes over a segment whose low link its own is lowered to. *)
Lemma finished_adopt m stack l p x :
  p ∈ dom m → x ≠ p → reach p x → low m x < idx m x → l ≤ low m x →
  (∀ w, edge x w → w ∈ dom m ∧ (w ∈ stack → l ≤ idx m w)) →
  finished (lower l p m) stack p x.
Proof.
  intros Hp Hx Hr Hlt Hle Hw. unfold finished.
  rewrite low_lower_ne, low_lower, idx_lower, dom_alter_L by done.
  split_and!; [done | done | lia |]. intros w Hew. rewrite idx_lower.
  destruct (Hw w Hew) as [? Hl]. split; [done |]. intros Hws. specialize (Hl Hws). lia.
Qed.

Lemma frames_adopt m stack v fin p j fin' call rest' sccs next :
  visited_ok m stack sccs next →
  stack = fin ++ v :: fin' ++ p :: rest' →
  edge p v → low m v < idx m v →
  (∀ w, edge v w → w ∈ dom m ∧ (w ∈ stack → low m v ≤ idx m w)) →
  (∀ x, x ∈ fin → finished m stack v x) →
  (∀ w, w ∈ take j (succ p) →
     (w ∈ dom m ∨ None = Some w) ∧ (w ∈ stack → low m p ≤ idx m w)) →
  (∀ x, x ∈ fin' → finished m stack p x) →
  (∀ q k l call', call = (q, k, l) :: call' → edge q p) →
  frames_ok m stack None call rest' →
  frames_ok (lower (low m v) p m) stack None ((p, j, succ p) :: call) stack.
Proof.
  intros Hv Hst Hpv Hlt Hedges Hfin Htp Hfp Hpp Hrp.
  assert (stack = (fin ++ v :: fin') ++ p :: rest') as Hst' by (rewrite Hst; by rewrite <-app_assoc).
  pose proof Hv as Hv'. rewrite Hst' in Hv'.
  destruct (stack_split_fresh _ _ _ _ _ _ Hv') as (Hpf & Hprest & _ & Hdom).
  assert (p ∈ dom m) as Hpd by (apply Hdom; elems).
  rewrite Hst' at 2.
  constructor; [| | done | apply frames_lower; auto; intros; apply Hdom; first [by rewrite <-Hst' | elems]].
  - intros w Hw. rewrite dom_alter_L, idx_lower, low_lower by done.
    destruct (Htp w Hw) as [Hd Hl]. split; [done |]. intros Hws. specialize (Hl Hws). lia.
  - intros x Hx. assert (x ≠ p) as Hxp by (by intros ->).
    apply elem_of_app in Hx as [Hx|[->|Hx]%elem_of_cons].
    + destruct (Hfin x Hx) as (Hr & ? & ? & ?). apply finished_adopt; auto. by eapply reach_step.
    + apply finished_adopt; [done | done | by apply rtc_once | done | lia | done].
    + by apply finished_lower; auto.
Qed.

(** Any other node stays on the stack, in its parent's segment. *)
Lemma leave_inner t v i call vi :
  running t → t_call t = (v, i, succ v) :: call → succ v !! i = None →
  t_info t !! v = Some vi → ni_lowlink vi ≠ ni_index vi →
  at_head (tarjan_leave v t).
Proof.
  intros Hrun Hcall Hend Hvi Hroot. pose proof Hrun as (Hv & _ & _).
  destruct (running_inv _ _ _ _ _ Hrun Hcall) as (_ & fin & rest & Hst & Htake & Hfin & Hpar & Hrest & Hcur).
  rewrite take_ge in Htake by by apply lookup_ge_None.
  assert (low (t_info t) v = ni_lowlink vi ∧ idx (t_info t) v = ni_index vi) as [Hlv Hiv]
    by (unfold low, idx; by rewrite Hvi).
  assert (v ∈ t_stack t) as Hvs by (rewrite Hst; elems).
  pose proof (v_low_le _ _ _ _ Hv v Hvs) as Hle.
  destruct (v_low _ _ _ _ Hv v Hvs) as (y & Hy & Hyl & Hvy).
  unfold tarjan_leave. rewrite Hvi, decide_False by done. fields_goal. rewrite Hcall. cbn [tail].
  destruct call as [|[[p j] l] call].
  { exfalso. pose proof (v_sorted _ _ _ _ Hv) as Hs. inversion Hrest; subst. rewrite Hst in Hy, Hs.
    apply sorted_split in Hs as (Habove & _ & _).
    apply elem_of_app in Hy as [Hy|Hy%list_elem_of_singleton]; [| subst; lia].
    specialize (Habove y Hy). lia. }
  inversion Hrest as [|? ? fin' ? rest' Htp Hfp Hpp Hrp]; subst.
  assert (edge p v) as Hpv by by eapply Hpar.
  rewrite Hvi, <-Hlv. left. split; unfold running; fields_goal; rewrite Hcall; [| done].
  split_and!; [| | by inversion Hcur].
  - apply visited_lower; [done | rewrite Hst; elems |]. exists y. split_and!; [done | done |].
    by eapply reach_step.
  - eapply frames_adopt; try done. lia.
Qed.

Lemma step_mid_at_head t v i call :
  graph_closed → running t → t_call t = (v, i, succ v) :: call →
  at_head (match succ v !! i with
           | Some w => tarjan_edge succ v w (t <| t_call := (v, S i, succ v) :: call |>)
           | None => tarjan_leave v t
           end).
Proof.
  intros Hcl Hrun Hcall. destruct (succ v !! i) as [w|] eqn:Hw; [by apply edge_at_head |].
  pose proof Hrun as (Hv & _ & _).
  destruct (running_inv _ _ _ _ _ Hrun Hcall) as (_ & fin & rest & Hst & _).
  assert (v ∈ dom (t_info t)) as [vi Hvi]%elem_of_dom by (apply Hv; left; rewrite Hst; elems).
  destruct (decide (ni_lowlink vi = ni_index vi)); [by eapply leave_root | by eapply leave_inner].
Qed.

Lemma step_at_head t :
  graph_closed → at_head t → t_call t ≠ [] → at_head (tarjan_step succ t).
Proof.
  intros Hcl [[Hrun Hcur]|(w & call & Hcall & Hv & Hf & Hcur & Hwn & Hwd & Hpar)] Hne; unfold tarjan_step.
  - destruct (t_call t) as [|[[v i] l] call] eqn:Hcall; [done |].
    destruct (running_inv _ _ _ _ _ Hrun Hcall) as [-> _].
    apply Forall_cons in Hcur as [Hi _]. rewrite decide_False by done. by apply step_mid_at_head.
  - rewrite Hcall, decide_True by done. apply step_mid_at_head; [done | by eapply enter_running |].
    unfold tarjan_enter. fields_goal. done.
Qed.

(** ** Termination *)

(** What is left to do: a turn for every successor of a frame and one to leave
    it, and as much for every node not yet visited. *)
Definition frame_left (f : frame) : nat := S (length f.2 - f.1.2).

Definition touched (t : Tarjan) (v : Instance) : Prop :=
  v ∈ dom (t_info t) ∨ v ∈ (λ f : frame, f.1.1) <$> t_call t.

#[local] Instance touched_dec t v : Decision (touched t v).
Proof. unfold touched. apply _. Defined.

Definition left_nodes (t : Tarjan) : list Instance :=
  filter (λ v, ¬ touched t v) (btree_elements nodes).

Definition turns_left (t : Tarjan) : nat :=
  (sum_list_with frame_left (t_call t) + sum_list_with (λ v, S (length (succ v))) (left_nodes t))%nat.

Lemma left_nodes_ext t t' :
  (∀ v, touched t v ↔ touched t' v) → left_nodes t = left_nodes t'.
Proof. intros Ht. apply list_filter_ext_elem. intros v _. by rewrite Ht. Qed.

Lemma sum_without (f : Instance → nat) w l :
  NoDup l → w ∈ l → sum_list_with f l = (f w + sum_list_with f (filter (λ v, v ≠ w) l))%nat.
Proof.
  induction 1 as [|x l Hx Hnd IH]; [by intros ?%elem_of_nil |]. intros Hw. cbn [sum_list_with].
  destruct (decide (x = w)) as [->|Hne].
  - rewrite filter_cons_False by naive_solver. rewrite list_filter_all; [done |].
    by intros y Hy ->.
  - apply elem_of_cons in Hw as [->|Hw]; [done |]. rewrite filter_cons_True by done. cbn.
    rewrite IH by done. lia.
Qed.

(** Pushing a frame for a fresh node moves its turns from one sum to the other. *)
Lemma left_nodes_push t t' w :
  w ∈ nodes → ¬ touched t w → (∀ v, touched t' v ↔ touched t v ∨ v = w) →
  (sum_list_with (λ v, S (length (succ v))) (left_nodes t) =
   S (length (succ w)) + sum_list_with (λ v, S (length (succ v))) (left_nodes t'))%nat.
Proof.
  intros Hwn Hw Ht'. rewrite (sum_without _ w).
  - f_equal. f_equal. unfold left_nodes. rewrite list_filter_filter.
    apply list_filter_ext_elem. intros v _. rewrite Ht'. tauto.
  - apply NoDup_filter, btree_elements_NoDup.
  - apply list_elem_of_filter. by rewrite elem_of_btree_elements.
Qed.

Lemma enter_turns t w call :
  t_call t = (w, 0%nat, succ w) :: call → turns_left (tarjan_enter w t) = turns_left t.
Proof.
  intros Hcall. unfold turns_left. rewrite (left_nodes_ext _ t); [unfold tarjan_enter; by fields_goal |].
  intros v. unfold touched, tarjan_enter. fields_goal.
  rewrite dom_insert_L, Hcall. cbn. rewrite elem_of_union, elem_of_singleton, elem_of_cons. tauto.
Qed.

Lemma running_call_dom t : running t → ∀ v, touched t v ↔ v ∈ dom (t_info t).
Proof.
  intros (Hv & Hf & _) v. unfold touched. split; [| tauto]. intros [?|Hc]; [done |].
  apply (v_dom _ _ _ _ Hv). left. revert Hc.
  induction Hf as [|g i fin call rest _ _ _ _ IH]; cbn; [by intros ?%elem_of_nil |].
  rewrite elem_of_app, !elem_of_cons. tauto.
Qed.

Lemma edge_turns t v i w call :
  graph_closed → running t → t_call t = (v, i, succ v) :: call → succ v !! i = Some w →
  S (turns_left (tarjan_edge succ v w (t <| t_call := (v, S i, succ v) :: call |>))) = turns_left t.
Proof.
  intros Hcl Hrun Hcall Hw. pose proof (running_call_dom _ Hrun) as Htd.
  pose proof Hrun as (Hv & _ & _). pose proof (lookup_lt_Some _ _ _ Hw) as Hlt.
  assert (v ∈ nodes) as Hvn.
  { apply (v_nodes _ _ _ _ Hv), Htd. right. rewrite Hcall. by left. }
  assert (frame_left (v, i, succ v) = S (frame_left (v, S i, succ v))) as Hfl
    by (unfold frame_left; cbn; lia).
  unfold turns_left. rewrite Hcall. cbn [sum_list_with]. rewrite Hfl.
  unfold tarjan_edge. fields_goal. destruct (t_info t !! w) as [wi|] eqn:Hwi.
  - rewrite (left_nodes_ext _ t); [destruct (ni_on_stack wi); fields_goal; cbn; lia |].
    intros x. unfold touched. rewrite Hcall.
    destruct (ni_on_stack wi); fields_goal; by rewrite ?dom_alter_L.
  - fields_goal. cbn [sum_list_with].
    rewrite (left_nodes_push t (t <| t_call := (v, S i, succ v) :: call |> <| t_call ::= cons (w, 0%nat, succ w) |>) w).
    + cbn. lia.
    + apply (Hcl v); [done |]. by eapply list_elem_of_lookup_2.
    + rewrite Htd. by apply not_elem_of_dom.
    + intros x. unfold touched. fields_goal. rewrite Hcall. cbn. rewrite !elem_of_cons. tauto.
Qed.

Lemma dom_unstack (v : Instance) (m : gmap Instance NodeInfo) : dom (unstack v m) = dom m.
Proof. apply dom_alter_L. Qed.

Lemma pop_component_dom v stack m : dom (pop_component v stack m).2 = dom m.
Proof.
  revert m. induction stack as [|w stack IH]; intros m; cbn; [done |].
  case_decide; cbn; [apply dom_unstack |].
  specialize (IH (unstack w m)). destruct (pop_component _ _ _) as [[? ?] ?]. cbn in *.
  by rewrite IH, dom_unstack.
Qed.

Lemma leave_keeps v t :
  dom (t_info (tarjan_leave v t)) = dom (t_info t) ∧ t_call (tarjan_leave v t) = tail (t_call t).
Proof.
  unfold tarjan_leave.
  set (t' := match t_info t !! v with Some _ => _ | None => t end).
  assert (dom (t_info t') = dom (t_info t) ∧ t_call t' = t_call t) as [Hd Hc].
  { unfold t'. destruct (t_info t !! v) as [vi|]; [| done]. case_decide; [| done].
    pose proof (pop_component_dom v (t_stack t) (t_info t)) as Hp.
    destruct (pop_component _ _ _) as [[? ?] ?]. by fields_goal. }
  clearbody t'. fields_goal. rewrite <-Hc, <-Hd.
  destruct (tail (t_call t')) as [|[[p j] l] call] eqn:Ht; [by fields_goal |].
  destruct (t_info t' !! v); fields_goal; by rewrite ?dom_alter_L.
Qed.

Lemma leave_turns t v i call :
  running t → t_call t = (v, i, succ v) :: call → succ v !! i = None →
  S (turns_left (tarjan_leave v t)) = turns_left t.
Proof.
  intros Hrun Hcall Hend. pose proof (running_call_dom _ Hrun) as Htd.
  destruct (leave_keeps v t) as [Hd Hc]. unfold turns_left. rewrite Hc, Hcall. cbn [tail sum_list_with].
  assert (frame_left (v, i, succ v) = 1%nat) as ->.
  { apply lookup_ge_None in Hend. unfold frame_left. cbn. lia. }
  rewrite (left_nodes_ext _ t); [lia |]. intros x. unfold touched. rewrite Hd, Hc.
  split; [| intros Hx; left; by apply Htd]. intros [?|Hx]; [by left | right]. rewrite Hcall in *. cbn. by right.
Qed.

Lemma step_turns t :
  graph_closed → at_head t → t_call t ≠ [] → S (turns_left (tarjan_step succ t)) = turns_left t.
Proof.
  intros Hcl [[Hrun Hcur]|(w & call & Hcall & Hv & Hf & Hcur & Hwn & Hwd & Hpar)] Hne; unfold tarjan_step.
  - destruct (t_call t) as [|[[v i] l] call] eqn:Hcall; [done |].
    destruct (running_inv _ _ _ _ _ Hrun Hcall) as [-> _].
    apply Forall_cons in Hcur as [Hi _]. rewrite decide_False by done.
    destruct (succ v !! i) eqn:Hw; [by apply edge_turns | by eapply leave_turns].
  - rewrite Hcall, decide_True by done. rewrite <-(enter_turns _ _ _ Hcall).
    assert (running (tarjan_enter w t)) as Hrun by by eapply enter_running.
    assert (t_call (tarjan_enter w t) = (w, 0%nat, succ w) :: call) as Hcall'
      by (unfold tarjan_enter; by fields_goal).
    destruct (succ w !! 0%nat) eqn:Hw; [by apply edge_turns | by eapply leave_turns].
Qed.

(** The bound is enough. *)
Lemma loop_runs fuel t :
  graph_closed → at_head t → (turns_left t ≤ fuel)%nat →
  at_head (tarjan_loop succ fuel t) ∧ t_call (tarjan_loop succ fuel t) = [].
Proof.
  intros Hcl. revert t. induction fuel as [|fuel IH]; intros t Hh Hle.
  - assert (t_call t = []) as Hc.
    { destruct (t_call t) as [|f call] eqn:Hc; [done |]. unfold turns_left in Hle. rewrite Hc in Hle. cbn in Hle. lia. }
    cbn. by rewrite Hc.
  - destruct (t_call t) as [|f call] eqn:Hc; cbn; rewrite Hc; [done |].
    assert (t_call t ≠ []) as Hne by by rewrite Hc.
    apply IH; [by apply step_at_head |]. pose proof (step_turns t Hcl Hh Hne). lia.
Qed.

(** ** All start nodes *)

Lemma step_touched t v :
  at_head t → t_call t ≠ [] → touched t v → touched (tarjan_step succ t) v.
Proof.
  intros Hh Hne Ht. unfold tarjan_step.
  destruct (t_call t) as [|[[u i] l] call] eqn:Hcall; [done |].
  set (t' := if decide _ then _ else _).
  assert (t_call t' = (u, i, l) :: call ∧ (v ∈ dom (t_info t') ∨ v ∈ (λ f : frame, f.1.1) <$> call) ) as [Hc Hv].
  { unfold touched in Ht. rewrite Hcall in Ht. cbn in Ht. rewrite elem_of_cons in Ht.
    unfold t'. case_decide as Hi.
    - unfold tarjan_enter. fields_goal. rewrite dom_insert_L, elem_of_union, elem_of_singleton. tauto.
    - split; [done |]. destruct Hh as [[Hrun Hcur]|(w & call' & Hcall' & _)].
      + destruct Ht as [?|[->|?]]; [tauto | left | tauto]. apply (running_call_dom _ Hrun).
        right. rewrite Hcall. by left.
      + rewrite Hcall in Hcall'. simplify_eq. }
  clearbody t'. unfold touched. destruct (l !! i) as [w|].
  - unfold tarjan_edge. fields_goal.
    destruct (t_info t' !! w) as [wi|]; [destruct (ni_on_stack wi) |];
      fields_goal; rewrite ?dom_alter_L; cbn; rewrite ?elem_of_cons; tauto.
  - destruct (leave_keeps u t') as [-> ->]. by rewrite Hc.
Qed.

Lemma loop_touched fuel t v :
  graph_closed → at_head t → touched t v → touched (tarjan_loop succ fuel t) v.
Proof.
  intros Hcl. revert t. induction fuel as [|fuel IH]; intros t Hh Ht; cbn; [by destruct (t_call t) |].
  destruct (t_call t) as [|f call] eqn:Hc; [done |].
  assert (t_call t ≠ []) as Hne by by rewrite Hc.
  apply IH; [by apply step_at_head | by apply step_touched].
Qed.

(** Between two start nodes. *)
Definition at_rest (t : Tarjan) : Prop :=
  t_call t = [] ∧ t_stack t = [] ∧ visited_ok (t_info t) [] (t_sccs t) (t_next t).

Lemma at_rest_head t w :
  at_rest t → w ∈ nodes → w ∉ dom (t_info t) → at_head (t <| t_call := [(w, 0%nat, succ w)] |>).
Proof.
  intros (Hc & Hs & Hv) Hwn Hwd. right. exists w, []. fields_goal. rewrite Hs.
  split_and!; try done. constructor.
Qed.

Lemma head_at_rest t : at_head t → t_call t = [] → at_rest t.
Proof.
  intros [[(Hv & Hf & _) _]|(w & call & Hc & _)] Hcall; [| by rewrite Hcall in Hc].
  rewrite Hcall in Hf. assert (t_stack t = []) as Hs by by inversion Hf.
  rewrite Hs in Hv. by split_and!.
Qed.

Lemma sum_filter_le (f : Instance → nat) (P : Instance → Prop) `{!∀ x, Decision (P x)} l :
  (sum_list_with f (filter P l) ≤ sum_list_with f l)%nat.
Proof. induction l as [|x l IH]; [done |]. rewrite filter_cons. case_decide; cbn; lia. Qed.

Lemma start_at_rest t w :
  graph_closed → at_rest t → w ∈ nodes →
  at_rest (tarjan_start succ (btree_elements nodes) t w) ∧
  w ∈ dom (t_info (tarjan_start succ (btree_elements nodes) t w)) ∧
  dom (t_info t) ⊆ dom (t_info (tarjan_start succ (btree_elements nodes) t w)).
Proof.
  intros Hcl Hrest Hw. unfold tarjan_start. destruct (t_info t !! w) as [wi|] eqn:Hwi.
  { split_and!; [done | by apply elem_of_dom_2 in Hwi | done]. }
  apply not_elem_of_dom in Hwi.
  pose proof (at_rest_head t w Hrest Hw Hwi) as Hh. set (t' := t <| t_call := _ |>) in *.
  assert (∀ v, touched t' v ↔ touched t v ∨ v = w) as Ht'.
  { intros v. destruct Hrest as (Hc & _). unfold touched, t'. fields_goal. rewrite Hc. cbn.
    rewrite list_elem_of_singleton, elem_of_nil. tauto. }
  assert (turns_left t' ≤ tarjan_fuel succ (btree_elements nodes))%nat as Hle.
  { assert (sum_list_with (λ v, S (length (succ v))) (left_nodes t) ≤
            tarjan_fuel succ (btree_elements nodes))%nat as Hs by apply sum_filter_le.
    rewrite (left_nodes_push t t' w) in Hs; [| done | | done].
    - unfold turns_left. unfold t' at 1. fields_goal. cbn [sum_list_with]. unfold frame_left. cbn in *. lia.
    - destruct Hrest as (Hc & _). unfold touched. rewrite Hc. cbn. rewrite elem_of_nil. tauto. }
  destruct (loop_runs _ t' Hcl Hh Hle) as [Hh' Hc'].
  assert (∀ v, touched t' v → v ∈ dom (t_info (tarjan_loop succ (tarjan_fuel succ (btree_elements nodes)) t')))
    as Hmono.
  { intros v Hv. apply (loop_touched (tarjan_fuel succ (btree_elements nodes))) in Hv as [?|Hv]; [done | | done | done].
    rewrite Hc' in Hv. by apply elem_of_nil in Hv. }
  split_and!; [by apply head_at_rest | apply Hmono, Ht'; by right |].
  intros v Hv. apply Hmono, Ht'. left. by left.
Qed.

Lemma starts_at_rest l t :
  graph_closed → at_rest t → (∀ w, w ∈ l → w ∈ nodes) →
  let t' := foldl (tarjan_start succ (btree_elements nodes)) t l in
  at_rest t' ∧ (∀ w, w ∈ l → w ∈ dom (t_info t')) ∧ dom (t_info t) ⊆ dom (t_info t').
Proof.
  intros Hcl. revert t. induction l as [|w l IH]; intros t Hrest Hl; cbn.
  { split_and!; [done | by intros w ?%elem_of_nil | done]. }
  destruct (start_at_rest t w Hcl Hrest) as (Hr & Hw & Hsub); [apply Hl; by left |].
  destruct (IH _ Hr) as (Hr' & Hl' & Hsub'); [intros; apply Hl; by right |].
  split_and!; [done | | by etrans].
  intros x [->|Hx]%elem_of_cons; [by apply Hsub' | by apply Hl'].
Qed.

(** ** The result *)

Lemma layered_reach pre c post v w :
  layered (pre ++ c :: post) → v ∈ c → reach v w → w ∈ c ∨ w ∈ concat pre.
Proof.
  intros Hl Hv. revert w. refine (rtc_ind_r (λ w, w ∈ c ∨ w ∈ concat pre) v _ _); [by left |].
  intros x w _ Hr [Hx|Hx]; [by eapply Hl |].
  apply elem_of_concat in Hx as (d & Hxd & Hd). apply list_elem_of_split in Hd as (p1 & p2 & ->).
  right. rewrite concat_app. cbn. rewrite !elem_of_app.
  destruct (Hl p1 d (p2 ++ c :: post) ltac:(by rewrite <-app_assoc) x w Hxd Hr); tauto.
Qed.

Lemma layered_classes sccs c v w :
  layered sccs → NoDup (concat sccs) → Forall connected sccs → c ∈ sccs → v ∈ c →
  (w ∈ c ↔ reach v w ∧ reach w v).
Proof.
  intros Hl Hnd Hc Hin Hv. split.
  { intros Hw. rewrite Forall_forall in Hc. specialize (Hc c Hin). by split; apply Hc. }
  intros [Hvw Hwv]. apply list_elem_of_split in Hin as (pre & post & ->).
  destruct (layered_reach _ _ _ _ _ Hl Hv Hvw) as [?|Hw]; [done |].
  apply elem_of_concat in Hw as (d & Hwd & Hd). apply list_elem_of_split in Hd as (p1 & p2 & ->).
  assert (v ∈ concat (p1 ++ d :: p2)) as Hv'.
  { rewrite concat_app. cbn. rewrite !elem_of_app.
    rewrite <-app_assoc in Hl. destruct (layered_reach _ _ _ _ _ Hl Hwd Hwv); tauto. }
  rewrite concat_app in Hnd. apply NoDup_app in Hnd as (_ & Hd & _).
  destruct (Hd v Hv'). cbn. rewrite elem_of_app. by left.
Qed.

Lemma tarjan_scc_ok :
  graph_closed →
  concat (tarjan_scc succ nodes) ≡ₚ elements nodes ∧
  Forall connected (tarjan_scc succ nodes) ∧ layered (tarjan_scc succ nodes).
Proof.
  intros Hcl. destruct (starts_at_rest (btree_elements nodes) (MkTarjan ∅ [] [] 0 []) Hcl)
    as ((_ & _ & Hv) & Hall & _).
  - split_and!; [done | done |]. split; cbn; try done; try (by intros ? ?%elem_of_nil).
    { intros v. rewrite dom_empty_L, elem_of_empty, !elem_of_nil. tauto. }
    all: first [by constructor | by intros [|] ? ? ?].
  - intros w. by rewrite elem_of_btree_elements.
  - unfold tarjan_scc. split_and!; [| apply Hv | apply Hv].
    apply NoDup_Permutation; [apply Hv | apply NoDup_elements |].
    intros v. rewrite elem_of_elements. split.
    + intros Hx. apply (v_nodes _ _ _ _ Hv), (v_dom _ _ _ _ Hv). by right.
    + intros Hx. apply elem_of_btree_elements in Hx.
      apply Hall, (v_dom _ _ _ _ Hv) in Hx as [Hx|?]; [by apply elem_of_nil in Hx | done].
Qed.

(** C10: the components [tarjan_scc] returns are the strongly connected
    components of the graph.  Their concatenation lists every node once, two
    nodes are in one component exactly when each reaches the other, and an
    edge leads into its own component or an earlier one, so that running the
    components in order runs dependencies first. *)
Theorem tarjan_scc_correct :
  graph_closed →
  concat (tarjan_scc succ nodes) ≡ₚ elements nodes ∧
  (∀ c v w, c ∈ tarjan_scc succ nodes → v ∈ c → (w ∈ c ↔ reach v w ∧ reach w v)) ∧
  layered (tarjan_scc succ nodes).
Proof.
  intros Hcl. destruct (tarjan_scc_ok Hcl) as (Hp & Hc & Hl). split_and!; [done | | done].
  intros c v w. apply layered_classes; [done | | done]. rewrite Hp. apply NoDup_elements.
Qed.

End graph.

(** Two nodes in a cycle and one that depends on them. *)
Definition ring_succ (i : Instance) : list Instance :=
  match inst_slot i with
  | 0 => [MkInstance 0 1]
  | 1 => [MkInstance 0 0]
  | _ => [MkInstance 0 0; MkInstance 0 1]
  end.

Definition ring_nodes : gset Instance :=
  {[ MkInstance 0 0; MkInstance 0 1; MkInstance 0 2 ]}.

Lemma tarjan_scc_correct_witness :
  tarjan_scc ring_succ ring_nodes = [[MkInstance 0 1; MkInstance 0 0]; [MkInstance 0 2]] ∧
  (∀ c v w, c ∈ tarjan_scc ring_succ ring_nodes → v ∈ c →
     (w ∈ c ↔ reach ring_succ v w ∧ reach ring_succ w v)).
Proof.
  split; [vm_compute; reflexivity |]. apply (tarjan_scc_correct ring_succ ring_nodes).
  intros v w Hv Hw. unfold ring_nodes in *.
  assert (v = MkInstance 0 0 ∨ v = MkInstance 0 1 ∨ v = MkInstance 0 2) as [->|[->| ->]].
  { rewrite !elem_of_union, !elem_of_singleton in Hv. tauto. }
  all: cbn in Hw; rewrite ?elem_of_cons, ?elem_of_nil in Hw;
    rewrite !elem_of_union, !elem_of_singleton; tauto.
Defined.
