(* ===== verification/EpaxosExec.v ===== *)
(** * Execution of committed instances

    [EpaxosReplica::execute_committed] of [crates/cs-consensus/src/epaxos.rs]
    on one replica: the pruning loop finds the greatest set of committed
    instances that wait for nothing outside it, and the batch is executed
    dependencies first, every instance once. *)

From stdpp Require Import base numbers gmap sorting list.
From S2P Require Import Prelude RaftTypes Sim Epaxos Tarjan.

Local Open Scope N_scope.
Local Open Scope crab_scope.

Section exec.
Context {SM : Type} `{EpaxosStateMachine SM}.

Notation replica := (EpaxosReplica SM).

(** ** The eligible set *)

(** Every dependency of a member is executed or a member. *)
Definition dep_closed (r : replica) (e : gset Instance) : Prop :=
  ∀ i d, i ∈ e → d ∈ deps_of r i → dep_ready r e d = true.

Lemma dep_ready_mono (r : replica) e e' d : e ⊆ e' → dep_ready r e d = true → dep_ready r e' d = true.
Proof.
  intros He. unfold dep_ready. destruct (status_of r d) as [[]|]; try done.
  all: rewrite !bool_decide_eq_true; auto.
Qed.

Lemma blocked_spec (r : replica) e i :
  blocked r e i = false ↔ ∀ d, d ∈ deps_of r i → dep_ready r e d = true.
Proof.
  unfold blocked. rewrite negb_false_iff, forallb_forall.
  setoid_rewrite <-list_elem_of_In. by setoid_rewrite elem_of_btree_elements.
Qed.

(** A pass removes only instances that cannot be in a closed set, and when it
    removes none it has checked them all. *)
Lemma prune_fold (r : replica) l e b :
  let '(e', b') := foldl (prune_one r) (e, b) l in
  e' ⊆ e ∧
  (∀ s, dep_closed r s → s ⊆ e → s ⊆ e') ∧
  (b' = false → b = false ∧ e' = e ∧ ∀ i, i ∈ l → blocked r e i = false) ∧
  (b' = true → b = true ∨ ∃ i, i ∈ l ∧ i ∉ e').
Proof.
  revert e b. induction l as [|i l IH]; intros e b; cbn [foldl].
  { split_and!; auto. intros ->. by split_and!; [| | intros ? ?%elem_of_nil]. }
  unfold prune_one at 2. cbn [fst]. destruct (blocked r e i) eqn:Hb.
  - specialize (IH (e ∖ {[i]}) true). destruct (foldl _ _ l) as [e' b'].
    destruct IH as (Hsub & Hcl & Hf & Ht). split_and!.
    + set_solver.
    + intros s Hs Hse. apply Hcl; [done |]. intros j Hj. apply elem_of_difference.
      split; [by apply Hse |]. intros ->%elem_of_singleton.
      assert (blocked r e i = false) as Hb'; [| congruence].
      apply blocked_spec. intros d Hd. eapply dep_ready_mono, Hs; done.
    + intros Hb'. by destruct (Hf Hb').
    + intros _. right. exists i. split; [by left | set_solver].
  - specialize (IH e b). destruct (foldl _ _ l) as [e' b'].
    destruct IH as (Hsub & Hcl & Hf & Ht). split_and!; [done | done | |].
    + intros Hb'. destruct (Hf Hb') as (? & ? & Hall). split_and!; [done | done |].
      intros j [->|Hj]%elem_of_cons; auto.
    + intros Hb'. destruct (Ht Hb') as [?|(j & ? & ?)]; [by left | right; exists j; by split; [right |]].
Qed.

(** The loop ends within its bound, on the greatest closed subset. *)
Lemma prune_loop_spec fuel (r : replica) e :
  (size e < fuel)%nat →
  dep_closed r (prune_loop fuel r e) ∧ prune_loop fuel r e ⊆ e ∧
  ∀ s, dep_closed r s → s ⊆ e → s ⊆ prune_loop fuel r e.
Proof.
  revert e. induction fuel as [|fuel IH]; intros e Hf; [lia |]. cbn. unfold prune_pass.
  pose proof (prune_fold r (btree_elements e) e false) as Hp.
  destruct (foldl _ _ _) as [e' []]; destruct Hp as (Hsub & Hcl & Hfalse & Htrue).
  - assert (size e' < fuel)%nat as Hlt.
    { assert (size e' < size e)%nat; [| lia]. apply subset_size.
      destruct Htrue as [?|(i & Hi & Hn)]; [done | done |]. apply elem_of_btree_elements in Hi.
      split; [done |]. intros He. by apply Hn, He. }
    destruct (IH e' Hlt) as (Hc & Hs & Hg). split_and!; [done | by etrans |]. auto.
  - destruct (Hfalse eq_refl) as (_ & -> & Hall). split_and!; [| done | done].
    intros i d Hi Hd. apply elem_of_btree_elements, Hall in Hi. rewrite blocked_spec in Hi. auto.
Qed.

Lemma eligible_set_spec (r : replica) :
  dep_closed r (eligible_set r) ∧ eligible_set r ⊆ committed_set r ∧
  ∀ s, dep_closed r s → s ⊆ committed_set r → s ⊆ eligible_set r.
Proof. apply prune_loop_spec. lia. Qed.

Lemma elem_of_committed_set (r : replica) i : i ∈ committed_set r ↔ status_of r i = Some Committed.
Proof.
  unfold committed_set, status_of. rewrite elem_of_dom. unfold is_Some.
  setoid_rewrite map_lookup_filter_Some. rewrite fmap_Some. cbn. naive_solver.
Qed.

(** An instance is eligible for execution exactly when it belongs to some
    set of committed instances whose dependencies are all executed or in the
    set: the pruning loop stops at the greatest such set. *)
Theorem eligible_greatest (r : replica) (i : Instance) :
  i ∈ eligible_set r ↔ ∃ s, i ∈ s ∧ s ⊆ committed_set r ∧ dep_closed r s.
Proof.
  destruct (eligible_set_spec r) as (Hc & Hs & Hg). split; [by exists (eligible_set r) |].
  intros (s & Hi & Hsub & Hcl). by apply (Hg s).
Qed.

(** ** The order of a batch *)

Definition exec_order (r : replica) : list Instance :=
  concat (merge_sort (exec_le r) <$> tarjan_scc (exec_succ r (eligible_set r)) (eligible_set r)).

#[export] Instance exec_le_total (r : replica) : Total (exec_le r).
Proof. intros i j. unfold exec_le, inst_le. lia. Qed.

#[export] Instance exec_le_trans (r : replica) : Transitive (exec_le r).
Proof. intros i j k. unfold exec_le, inst_le. lia. Qed.

#[export] Instance exec_le_antisymm (r : replica) : AntiSymm (=) (exec_le r).
Proof.
  intros [a b] [c d]. unfold exec_le, inst_le. cbn. intros. f_equal; lia.
Qed.

Lemma exec_le_ext (r r' : replica) i j :
  (∀ i, is_seq <$> ep_cmds r !! i = is_seq <$> ep_cmds r' !! i) → exec_le r i j → exec_le r' i j.
Proof.
  intros Hseq. unfold exec_le.
  assert (∀ i, from_option is_seq 0 (ep_cmds r !! i) = from_option is_seq 0 (ep_cmds r' !! i)) as Hk.
  { intros k. specialize (Hseq k). destruct (ep_cmds r !! k), (ep_cmds r' !! k); naive_solver. }
  by rewrite !Hk.
Qed.

Lemma exec_sort_ext (r r' : replica) l :
  (∀ i, is_seq <$> ep_cmds r !! i = is_seq <$> ep_cmds r' !! i) →
  merge_sort (exec_le r) l = merge_sort (exec_le r') l.
Proof.
  intros Hseq. apply (StronglySorted_unique (exec_le r)).
  - by apply StronglySorted_merge_sort; apply _.
  - eapply StronglySorted_weaken; [| apply (StronglySorted_merge_sort (exec_le r')); apply _].
    intros i j. by apply exec_le_ext.
  - by rewrite !merge_sort_Permutation.
Qed.

Definition mark_executed (st : InstanceState) : InstanceState := st <| is_status := Executed |>.

Lemma exec_one_cmds (r : replica) i j :
  ep_cmds (exec_one r i) !! j =
    if decide (j = i) then mark_executed <$> ep_cmds r !! j else ep_cmds r !! j.
Proof.
  unfold exec_one. destruct (ep_cmds r !! i) as [st|] eqn:Hi.
  - case_decide as Hs.
    + case_decide; subst; [| done]. rewrite Hi. cbn. f_equal.
      destruct st. unfold mark_executed, set_field. cbn in *. by subst.
    + fields_goal. case_decide; subst; [by rewrite lookup_insert_eq, Hi | by rewrite lookup_insert_ne].
  - case_decide; subst; [by rewrite Hi | done].
Qed.

Lemma exec_one_keeps (r : replica) i :
  ep_id (exec_one r i) = ep_id r ∧ ep_replicas (exec_one r i) = ep_replicas r ∧
  ep_next_slot (exec_one r i) = ep_next_slot r ∧ ep_collects (exec_one r i) = ep_collects r.
Proof. unfold exec_one. destruct (ep_cmds r !! i); [case_decide |]; by fields_goal. Qed.

Lemma exec_fold_cmds (r : replica) l j :
  ep_cmds (foldl exec_one r l) !! j =
    if decide (j ∈ l) then mark_executed <$> ep_cmds r !! j else ep_cmds r !! j.
Proof.
  revert r. induction l as [|i l IH]; intros r; cbn [foldl].
  { by rewrite decide_False by apply not_elem_of_nil. }
  rewrite IH, exec_one_cmds. destruct (decide (j ∈ l)) as [Hl|Hl].
  - rewrite (decide_True (P := j ∈ i :: l)) by by right.
    case_decide; [| done]. by destruct (ep_cmds r !! j) as [[]|].
  - case_decide as Hi; subst; [by rewrite decide_True by by left |].
    rewrite decide_False; [done |]. by rewrite elem_of_cons; intros [?|?].
Qed.

Lemma exec_fold_keeps (r : replica) l :
  ep_id (foldl exec_one r l) = ep_id r ∧ ep_replicas (foldl exec_one r l) = ep_replicas r ∧
  ep_next_slot (foldl exec_one r l) = ep_next_slot r ∧
  ep_collects (foldl exec_one r l) = ep_collects r.
Proof.
  revert r. induction l as [|i l IH]; intros r; [done |]. cbn [foldl].
  destruct (IH (exec_one r i)) as (-> & -> & -> & ->). apply exec_one_keeps.
Qed.

(** The state machine after the commands of some instances. *)
Definition run_instance (cmds : gmap Instance InstanceState) (sm : SM) (i : Instance) : SM :=
  (execute sm (from_option is_command [] (cmds !! i))).1.

Lemma run_instances_ext cmds cmds' (sm : SM) l :
  (∀ i, i ∈ l → is_command <$> cmds !! i = is_command <$> cmds' !! i) →
  foldl (run_instance cmds) sm l = foldl (run_instance cmds') sm l.
Proof.
  revert sm. induction l as [|i l IH]; intros sm Hc; [done |]. cbn.
  rewrite IH by (intros; apply Hc; by right). f_equal. unfold run_instance.
  specialize (Hc i ltac:(by left)). destruct (cmds !! i), (cmds' !! i); cbn in *; congruence.
Qed.

Lemma exec_fold_sm (r : replica) l :
  NoDup l → (∀ i, i ∈ l → status_of r i = Some Committed) →
  ep_sm (foldl exec_one r l) = foldl (run_instance (ep_cmds r)) (ep_sm r) l.
Proof.
  revert r. induction l as [|i l IH]; intros r Hnd Hst; [done |]. cbn [foldl].
  apply NoDup_cons in Hnd as [Hi Hnd].
  rewrite IH; [| done |].
  - assert (ep_sm (exec_one r i) = run_instance (ep_cmds r) (ep_sm r) i) as ->.
    { specialize (Hst i ltac:(by left)). unfold status_of in Hst. unfold exec_one, run_instance.
      destruct (ep_cmds r !! i) as [st|]; [| done]. cbn in Hst. injection Hst as Hst.
      rewrite decide_False by by rewrite Hst. by fields_goal. }
    apply run_instances_ext. intros j Hj. rewrite exec_one_cmds. case_decide; [| done].
    by destruct (ep_cmds r !! j).
  - intros j Hj. unfold status_of. rewrite exec_one_cmds.
    case_decide as Hji; [by subst | apply Hst; by right].
Qed.

Lemma exec_sccs_fold (r0 r : replica) sccs :
  (∀ i, is_seq <$> ep_cmds r !! i = is_seq <$> ep_cmds r0 !! i) →
  foldl exec_scc r sccs = foldl exec_one r (concat (merge_sort (exec_le r0) <$> sccs)).
Proof.
  revert r. induction sccs as [|c sccs IH]; intros r Hseq; [done |]. cbn [foldl fmap list_fmap concat].
  rewrite foldl_app. unfold exec_scc at 2. rewrite (exec_sort_ext r r0) by done. apply IH.
  intros i. rewrite exec_fold_cmds. case_decide; [| done]. rewrite <-Hseq. by destruct (ep_cmds r !! i).
Qed.

Lemma execute_committed_fold (r : replica) :
  execute_committed r = foldl exec_one r (exec_order r).
Proof.
  unfold execute_committed, exec_order. rewrite <-(exec_sccs_fold r r) by done.
  case_decide as He; [| done]. by rewrite He.
Qed.

(** ** The batch *)

Lemma exec_succ_closed (r : replica) e : graph_closed (exec_succ r e) e.
Proof. intros v w _. unfold exec_succ. rewrite list_elem_of_filter. tauto. Qed.

Lemma sorted_sccs_perm (r : replica) (sccs : list (list Instance)) :
  concat (merge_sort (exec_le r) <$> sccs) ≡ₚ concat sccs.
Proof.
  induction sccs as [|c sccs IH]; [done |]. cbn. by rewrite IH, merge_sort_Permutation.
Qed.

Lemma exec_order_perm (r : replica) : exec_order r ≡ₚ elements (eligible_set r).
Proof.
  unfold exec_order. rewrite sorted_sccs_perm.
  apply (tarjan_scc_ok _ _ (exec_succ_closed r (eligible_set r))).
Qed.

Lemma exec_order_NoDup (r : replica) : NoDup (exec_order r).
Proof. rewrite exec_order_perm. apply NoDup_elements. Qed.

Lemma elem_of_exec_order (r : replica) i : i ∈ exec_order r ↔ i ∈ eligible_set r.
Proof. by rewrite exec_order_perm, elem_of_elements. Qed.

(** Inside a component the instances follow their keys; an earlier component
    does not reach a later one. *)
Lemma exec_order_before (r : replica) a b :
  before (exec_order r) a b →
  let reaches := reach (exec_succ r (eligible_set r)) in
  reaches a b ∧ reaches b a ∧ exec_le r a b ∨ ¬ reaches a b.
Proof.
  intros Hb reaches. pose proof (exec_order_NoDup r) as Hnd. unfold exec_order in *.
  destruct (tarjan_scc_ok _ _ (exec_succ_closed r (eligible_set r))) as (Hp & Hc & Hl).
  set (sccs := tarjan_scc _ _) in *. rewrite sorted_sccs_perm in Hnd.
  apply before_concat in Hb as [(l & Hl' & Hb)|(pre & l & post & Heq & Ha & Hb)].
  - left. apply list_elem_of_fmap in Hl' as (c & -> & Hc').
    pose proof (before_elem _ _ _ Hb) as [Ha' Hb']. rewrite merge_sort_Permutation in Ha', Hb'.
    rewrite Forall_forall in Hc. specialize (Hc c Hc').
    split_and!; [by apply Hc | by apply Hc |].
    eapply before_sorted; [| done]. apply StronglySorted_merge_sort; apply _.
  - right. intros Hr. clearbody sccs. apply fmap_app_inv in Heq as (pre' & rest & _ & Hs & ->).
    destruct rest as [|c post']; [done |]. cbn in Hs. injection Hs as -> ->.
    rewrite merge_sort_Permutation in Ha. rewrite sorted_sccs_perm in Hb.
    rewrite concat_app in Hnd. cbn in Hnd. rewrite app_assoc in Hnd. apply NoDup_app in Hnd as (_ & Hd & _).
    apply (Hd b); [| done]. rewrite elem_of_app.
    destruct (layered_reach _ _ _ _ _ _ Hl Ha Hr); tauto.
Qed.

End exec.
