(* ===== verification/EpaxosOrder.v ===== *)
(** * The order of execution

    A replica of [crates/cs-consensus/src/epaxos.rs] executes instances batch
    by batch as they commit.  Against the attributes the group decides on,
    the order of any two instances linked by a dependency is fixed: it is the
    same whatever batches a replica happens to execute. *)

From stdpp Require Import base numbers gmap sorting list.
From S2P Require Import Prelude RaftTypes Sim Epaxos Tarjan EpaxosExec.

Local Open Scope N_scope.
Local Open Scope crab_scope.

(** Command, sequence number and dependencies of the decided instances. *)
Notation decisions := (gmap Instance (bytes * N * gset Instance)).

Section order.
Context (dec : decisions).

Definition dec_cmd (i : Instance) : bytes := from_option (λ a, a.1.1) [] (dec !! i).
Definition dec_seq (i : Instance) : N := from_option (λ a, a.1.2) 0 (dec !! i).
Definition dec_deps (i : Instance) : gset Instance := from_option snd ∅ (dec !! i).

Definition depends (i d : Instance) : Prop := d ∈ dec_deps i.
Definition needs : relation Instance := rtc depends.
Definition linked (a b : Instance) : Prop := depends a b ∨ depends b a.

(** The order fixed by the attributes: a dependency first, and inside a cycle
    of dependencies by sequence number and instance. *)
Definition dec_le (a b : Instance) : Prop :=
  dec_seq a < dec_seq b ∨ dec_seq a = dec_seq b ∧ inst_le a b.

Definition precedes (a b : Instance) : Prop :=
  needs b a ∧ ¬ needs a b ∨ needs a b ∧ needs b a ∧ dec_le a b ∧ a ≠ b.

Lemma precedes_asymm a b : precedes a b → ¬ precedes b a.
Proof.
  intros [[? ?]|(? & ? & Hab & Hne)] [[? ?]|(? & ? & Hba & _)]; try done.
  apply Hne. destruct a as [ra sa], b as [rb sb]. unfold dec_le, inst_le in *. cbn in *.
  f_equal; lia.
Qed.

Context {SM : Type} `{EpaxosStateMachine SM}.

(** The state machine after the decided commands of some instances. *)
Definition run_decided (sm : SM) (l : list Instance) : SM :=
  foldl (λ sm i, (execute sm (dec_cmd i)).1) sm l.

(** What a replica holds as committed is what was decided. *)
Definition matches (r : EpaxosReplica SM) : Prop :=
  ∀ j st, ep_cmds r !! j = Some st → is_status st = Committed ∨ is_status st = Executed →
    dec !! j = Some (is_command st, is_seq st, is_deps st).

(** [l] is what the replica has executed, in order. *)
Record executed_log (sm0 : SM) (l : list Instance) (r : EpaxosReplica SM) : Prop := {
  el_nodup : NoDup l;
  el_elem i : i ∈ l ↔ status_of r i = Some Executed;
  el_closed i d : i ∈ l → depends i d → d ∈ l;
  el_sm : ep_sm r = run_decided sm0 l;
  el_order a b : before l a b → linked a b → precedes a b;
}.

Lemma executed_log_ext sm0 l r r' :
  executed_log sm0 l r → ep_sm r' = ep_sm r →
  (∀ i, status_of r' i = Some Executed ↔ status_of r i = Some Executed) →
  executed_log sm0 l r'.
Proof.
  intros [Hnd He Hc Hsm Ho] Hs Hst. split; try done; [intros i; by rewrite Hst | by rewrite Hs].
Qed.

Lemma needs_closed (l : list Instance) a b :
  (∀ i d, i ∈ l → depends i d → d ∈ l) → a ∈ l → needs a b → b ∈ l.
Proof. intros Hc Ha Hn. induction Hn as [|a x b Hax _ IH]; [done |]. apply IH. by eapply Hc. Qed.

Lemma matches_committed r i :
  matches r → status_of r i = Some Committed ∨ status_of r i = Some Executed →
  ∃ st, ep_cmds r !! i = Some st ∧ dec !! i = Some (is_command st, is_seq st, is_deps st) ∧
    dec_deps i = deps_of r i ∧ dec_seq i = is_seq st ∧ dec_cmd i = is_command st.
Proof.
  intros Hm Hs. unfold status_of in Hs.
  destruct (ep_cmds r !! i) as [st|] eqn:Hi; [| by destruct Hs]. cbn in Hs.
  assert (is_status st = Committed ∨ is_status st = Executed) as Hs' by naive_solver.
  specialize (Hm i st Hi Hs'). exists st. unfold dec_deps, dec_seq, dec_cmd, deps_of.
  by rewrite Hm, Hi.
Qed.

Lemma eligible_committed (r : EpaxosReplica SM) i :
  i ∈ eligible_set r → status_of r i = Some Committed.
Proof. intros Hi. apply elem_of_committed_set. by apply eligible_set_spec. Qed.

(** Inside a batch, being needed is being reachable in the batch's graph. *)
Lemma batch_needs sm0 l r a b :
  matches r → executed_log sm0 l r → a ∈ eligible_set r → b ∈ eligible_set r → needs a b →
  reach (exec_succ r (eligible_set r)) a b.
Proof.
  intros Hm Hlog Ha Hb Hn. induction Hn as [|a x b Hax Hxb IH]; [done |].
  destruct (eligible_set_spec r) as (Hcl & _ & _).
  pose proof (eligible_committed r a Ha) as Hsa.
  destruct (matches_committed r a Hm (or_introl Hsa)) as (st & _ & _ & Hdeps & _).
  unfold depends in Hax. rewrite Hdeps in Hax. specialize (Hcl a x Ha Hax).
  unfold dep_ready in Hcl. destruct (status_of r x) as [[]|] eqn:Hsx; try done.
  1-3: apply bool_decide_eq_true in Hcl; apply rtc_l with x; [| by apply IH];
    unfold edge, exec_succ; rewrite list_elem_of_filter; by rewrite elem_of_btree_elements.
  apply (el_elem _ _ _ Hlog) in Hsx. exfalso.
  apply (needs_closed l x b) in Hsx; [| apply Hlog | done].
  apply (el_elem _ _ _ Hlog) in Hsx. apply eligible_committed in Hb. congruence.
Qed.

Lemma batch_reach r a b :
  matches r → a ∈ eligible_set r → reach (exec_succ r (eligible_set r)) a b → needs a b.
Proof.
  intros Hm Ha Hr. revert Ha. induction Hr as [|a x b Hax _ IH]; intros Ha; [done |].
  unfold edge, exec_succ in Hax. rewrite list_elem_of_filter, elem_of_btree_elements in Hax.
  destruct Hax as [Hx Hax]. apply rtc_l with x; [| by apply IH].
  pose proof (eligible_committed r a Ha) as Hsa.
  destruct (matches_committed r a Hm (or_introl Hsa)) as (st & _ & _ & Hdeps & _).
  unfold depends. by rewrite Hdeps.
Qed.

Lemma batch_precedes sm0 l r a b :
  matches r → executed_log sm0 l r → before (exec_order r) a b → linked a b → precedes a b.
Proof.
  intros Hm Hlog Hb Hl.
  assert (a ≠ b) as Hne.
  { intros ->. by apply (before_NoDup _ _ _ (exec_order_NoDup r) Hb). }
  pose proof (before_elem _ _ _ Hb) as [Ha' Hb']. apply elem_of_exec_order in Ha', Hb'.
  destruct (exec_order_before _ _ _ Hb) as [(Hab & Hba & Hle)|Hn].
  - right. split_and!; [by eapply batch_reach | by eapply batch_reach | | done].
    destruct (matches_committed r a Hm) as (sta & Hca & _ & _ & Hqa & _);
      [left; by apply eligible_committed |].
    destruct (matches_committed r b Hm) as (stb & Hcb & _ & _ & Hqb & _);
      [left; by apply eligible_committed |].
    unfold exec_le in Hle. rewrite Hca, Hcb in Hle. unfold dec_le. by rewrite Hqa, Hqb.
  - left. assert (¬ needs a b) as Hn' by (intros ?; by eapply Hn, batch_needs).
    split; [| done]. destruct Hl as [?|?]; [by destruct Hn'; apply rtc_once | by apply rtc_once].
Qed.

Lemma execute_status (r : EpaxosReplica SM) i :
  status_of (execute_committed r) i = Some Executed ↔
    status_of r i = Some Executed ∨ i ∈ exec_order r.
Proof.
  rewrite execute_committed_fold. unfold status_of. rewrite exec_fold_cmds. case_decide as Hi.
  - split; [by right |]. intros _. apply elem_of_exec_order, eligible_committed in Hi.
    unfold status_of in Hi. by destruct (ep_cmds r !! i).
  - naive_solver.
Qed.

Lemma run_batch sm0 l r :
  matches r → executed_log sm0 l r →
  ep_sm (execute_committed r) = run_decided sm0 (l ++ exec_order r).
Proof.
  intros Hm Hlog. rewrite execute_committed_fold, exec_fold_sm.
  - unfold run_decided. rewrite foldl_app, (el_sm _ _ _ Hlog). fold (run_decided sm0 l).
    assert (∀ i, i ∈ exec_order r → dec_cmd i = from_option is_command [] (ep_cmds r !! i)) as Hc.
    { intros i Hi. apply elem_of_exec_order, eligible_committed in Hi.
      destruct (matches_committed r i Hm (or_introl Hi)) as (st & -> & _ & _ & _ & ->). done. }
    generalize (run_decided sm0 l). induction (exec_order r) as [|i k IH]; intros sm; [done |].
    cbn. unfold run_instance at 2. rewrite <-Hc by by left. apply IH. intros; apply Hc; by right.
  - apply exec_order_NoDup.
  - intros i Hi. by apply eligible_committed, elem_of_exec_order.
Qed.

(** Executing a batch extends the log. *)
Lemma execute_log sm0 l r :
  matches r → executed_log sm0 l r →
  executed_log sm0 (l ++ exec_order r) (execute_committed r).
Proof.
  intros Hm Hlog.
  assert (∀ i, i ∈ l → i ∉ exec_order r) as Hdisj.
  { intros i Hi Hi'. apply (el_elem _ _ _ Hlog) in Hi.
    apply elem_of_exec_order, eligible_committed in Hi'. congruence. }
  split.
  - apply NoDup_app. split_and!; [apply Hlog | done | apply exec_order_NoDup].
  - intros i. by rewrite elem_of_app, execute_status, (el_elem _ _ _ Hlog).
  - intros i d Hi Hd. apply elem_of_app. apply elem_of_app in Hi as [Hi|Hi].
    { left. by eapply el_closed. }
    apply elem_of_exec_order in Hi. destruct (eligible_set_spec r) as (Hcl & _ & _).
    destruct (matches_committed r i Hm) as (st & _ & _ & Hdeps & _);
      [left; by apply eligible_committed |].
    unfold depends in Hd. rewrite Hdeps in Hd. specialize (Hcl i d Hi Hd). unfold dep_ready in Hcl.
    destruct (status_of r d) as [[]|] eqn:Hs; try done; [right.. | left; by apply (el_elem _ _ _ Hlog)].
    all: apply elem_of_exec_order; by apply bool_decide_eq_true in Hcl.
  - by apply run_batch.
  - intros a b Hb Hl. apply before_app in Hb as [Hb|[Hb|[Ha Hb]]].
    + by eapply el_order.
    + by eapply batch_precedes.
    + left. assert (¬ needs a b) as Hn.
      { intros Hn. eapply needs_closed in Hn; [| apply Hlog | done]. by eapply Hdisj. }
      split; [| done]. destruct Hl as [?|?]; [by destruct Hn; apply rtc_once | by apply rtc_once].
Qed.

End order.

(** ** Growth of the decisions *)

Section growth.
Context {SM : Type} `{EpaxosStateMachine SM}.
Context (dec dec' : decisions) (Hsub : dec ⊆ dec').

Lemma dec_grows i a : dec !! i = Some a → dec' !! i = Some a.
Proof. intros Hi. by eapply lookup_weaken. Qed.

Lemma depends_grows a b : depends dec a b → depends dec' a b.
Proof.
  unfold depends, dec_deps. destruct (dec !! a) as [x|] eqn:Ha; cbn; [| by intros ?%elem_of_empty].
  by rewrite (dec_grows _ _ Ha).
Qed.

Lemma needs_grows a b : needs dec a b → needs dec' a b.
Proof. induction 1 as [|a x b Hax _ IH]; [done |]. apply rtc_l with x; [by apply depends_grows | done]. Qed.

Lemma depends_decided a b : is_Some (dec !! a) → depends dec' a b → depends dec a b.
Proof. intros [x Ha]. unfold depends, dec_deps. by rewrite Ha, (dec_grows _ _ Ha). Qed.

Lemma executed_log_grows sm0 l (r : EpaxosReplica SM) :
  matches dec r → executed_log dec sm0 l r → executed_log dec' sm0 l r.
Proof.
  intros Hm Hlog.
  assert (∀ i, i ∈ l → is_Some (dec !! i)) as Hd.
  { intros i Hi. apply (el_elem _ _ _ _ Hlog) in Hi.
    destruct (matches_committed dec r i Hm (or_intror Hi)) as (st & _ & -> & _). done. }
  assert (∀ i d, i ∈ l → depends dec' i d → d ∈ l) as Hcl.
  { intros i d Hi Hdep. eapply (el_closed _ _ _ _ Hlog); [done |]. apply depends_decided; auto. }
  split; [apply Hlog | apply Hlog | done | |].
  - rewrite (el_sm _ _ _ _ Hlog). unfold run_decided. clear -Hd Hsub. revert sm0.
    induction l as [|i l IH]; intros sm0; [done |]. cbn.
    assert (dec_cmd dec i = dec_cmd dec' i) as ->.
    { destruct (Hd i ltac:(by left)) as [a Ha]. unfold dec_cmd. by rewrite Ha, (dec_grows _ _ Ha). }
    apply IH. intros; apply Hd; by right.
  - intros a b Hb Hl. pose proof (before_elem _ _ _ Hb) as [Ha Hb'].
    assert (∀ x y, x ∈ l → needs dec' x y → needs dec x y) as Hback.
    { intros x y Hx Hn. revert Hx. induction Hn as [|x z y Hxz _ IH]; intros Hx; [done |].
      apply rtc_l with z; [apply depends_decided; auto | apply IH; by eapply Hcl]. }
    assert (dec_le dec a b → dec_le dec' a b) as Hle.
    { destruct (Hd a Ha) as [xa Hxa], (Hd b Hb') as [xb Hxb]. unfold dec_le, dec_seq.
      by rewrite Hxa, Hxb, (dec_grows _ _ Hxa), (dec_grows _ _ Hxb). }
    destruct (el_order _ _ _ _ Hlog a b Hb) as [[Hba Hab]|(Hab & Hba & Hk & Hne)].
    + destruct Hl as [?|?]; [left | right]; apply depends_decided; auto.
    + left. split; [by apply needs_grows |]. intros Hn. by apply Hab, Hback.
    + right. split_and!; [by apply needs_grows | by apply needs_grows | auto | done].
Qed.

End growth.

(** ** Two replicas *)

Section agreement.
Context {SM : Type} `{EpaxosStateMachine SM}.
Context (dec : decisions).

(** Linked instances are executed in one order. *)
Lemma linked_order_agrees sm0 sm0' l l' (r r' : EpaxosReplica SM) a b :
  executed_log dec sm0 l r → executed_log dec sm0' l' r' →
  linked dec a b → a ∈ l' → b ∈ l' → before l a b → before l' a b.
Proof.
  intros Hl Hl' Hlink Ha Hb Hbef.
  assert (a ≠ b) as Hne.
  { intros ->. exact (before_NoDup l b b (el_nodup _ _ _ _ Hl) Hbef Hbef). }
  destruct (before_total l' a b Ha Hb Hne) as [?|Hba]; [done |].
  destruct (precedes_asymm dec a b); [by apply (el_order _ _ _ _ Hl) |].
  eapply (el_order _ _ _ _ Hl'); [done |]. unfold linked in *. tauto.
Qed.

(** Lists with the same members that agree on the order of dependent ones are
    related by swaps of independent neighbours. *)
Lemma fold_swaps (f : SM → Instance → SM) (dependent : relation Instance) l l' sm :
  NoDup l → NoDup l' → l ≡ₚ l' →
  (∀ a b, before l a b → dependent a b → before l' a b) →
  (∀ a b sm, a ∈ l → b ∈ l → a ≠ b → (dependent a b → False) → f (f sm a) b = f (f sm b) a) →
  foldl f sm l = foldl f sm l'.
Proof.
  revert l' sm. induction l as [|a l IH]; intros l' sm Hnd Hnd' Hp Ho Hc.
  { by apply Permutation_nil_l in Hp as ->. }
  assert (a ∈ l') as Ha by (rewrite <-Hp; by left).
  apply list_elem_of_split in Ha as (p & q & ->).
  rewrite <-Permutation_middle in Hp. apply Permutation_cons_inv in Hp.
  apply NoDup_cons in Hnd as [Hal Hnd].
  apply NoDup_app in Hnd' as (Hndp & Hdisj & Hndq). apply NoDup_cons in Hndq as [Haq Hndq].
  assert (a ∉ p) as Hap by (intros Ha; apply (Hdisj a Ha); by left).
  assert (foldl f sm (p ++ a :: q) = foldl f (f sm a) (p ++ q)) as ->.
  { rewrite !foldl_app. cbn. f_equal.
    assert (∀ x, x ∈ p → ∀ sm, f (f sm a) x = f (f sm x) a) as Hcom.
    { intros x Hx sm1. assert (x ∈ l) as Hxl by (rewrite Hp; elems).
      apply Hc; [by left | by right | by intros -> |]. intros Hdep.
      assert (before (p ++ a :: q) a x) as Hb by (apply Ho; [apply before_cons; by left | done]).
      apply before_app in Hb as [Hb|[Hb|[? _]]]; [| | done].
      - by apply before_elem in Hb as [? _].
      - apply before_elem in Hb as [_ Hb]. by apply (Hdisj x Hx). }
    clear -Hcom. revert sm. induction p as [|x p IHp]; intros sm; [done |]. cbn.
    rewrite Hcom by by left. rewrite IHp; [done |]. intros; apply Hcom; by right. }
  cbn. apply IH; [done | | done | |].
  - apply NoDup_app. split_and!; [done | | done]. intros x Hx Hxq. apply (Hdisj x Hx). by right.
  - intros x y Hxy Hdep. pose proof (before_elem _ _ _ Hxy) as [Hx Hy].
    assert (before (p ++ a :: q) x y) as Hb by (apply Ho; [apply before_cons; by right | done]).
    apply before_app. apply before_app in Hb as [?|[Hb|[? Hb]]]; [tauto | |].
    + apply before_cons in Hb as [[-> _]|?]; [done | tauto].
    + apply elem_of_cons in Hb as [->|?]; [done | tauto].
  - intros x y sm1 Hx Hy. apply Hc; by right.
Qed.

End agreement.
