(* ===== verification/EpaxosNet.v ===== *)
(** * A group of EPaxos replicas

    The replicas of [crates/cs-consensus/src/epaxos.rs] connected by a network
    that may delay, reorder and drop packets.  It does not duplicate them: the
    code counts replies without looking at who sent them, which the transports
    of [cs-net] (streams and in-memory queues) allow it to do.

    The invariant of the group tracks, beside the state of the code, what each
    replica answered when it first saw an instance, which answers a leader has
    counted, and what was decided. *)

From stdpp Require Import base numbers gmap sorting list.
From S2P Require Import Prelude RaftTypes Sim Epaxos Tarjan EpaxosExec EpaxosOrder.

Local Open Scope N_scope.
Local Open Scope crab_scope.

Lemma elem_of_dedup (l : list N) x : x ∈ dedup l ↔ x ∈ l.
Proof.
  induction l as [|y l IH]; [done |]. destruct l as [|z l]; [done |].
  cbn [dedup]. case_decide as Hyz; rewrite ?elem_of_cons in *; [subst z | by rewrite IH].
  rewrite IH. tauto.
Qed.

Lemma dedup_NoDup (l : list N) : StronglySorted N.le l → NoDup (dedup l).
Proof.
  induction 1 as [|x l Hs IH Hx]; [constructor |]. destruct l as [|z l]; [repeat constructor; set_solver |].
  change (NoDup (if decide (x = z) then dedup (z :: l) else x :: dedup (z :: l))).
  case_decide as Hxz; [done |]. constructor; [| done].
  rewrite elem_of_dedup. intros Hin. apply Hxz, N.le_antisymm.
  - rewrite Forall_forall in Hx. apply Hx. by left.
  - apply elem_of_cons in Hin as [->|Hin]; [done |]. apply StronglySorted_inv in Hs as [_ Hz].
    rewrite Forall_forall in Hz. by apply Hz.
Qed.

Section net.
Context {SM : Type} `{EpaxosStateMachine SM}.
Context (V : list ReplicaId) (sm0 : SM).

Notation replica := (EpaxosReplica SM).
Notation packet := (ReplicaId * ReplicaId * EMessage)%type.

(** ** The system *)

Record enet := MkEnet {
  en_nodes : ReplicaId → option replica;
  en_flight : list packet;
}.

Definition epackets (i : ReplicaId) (outs : list (ReplicaId * EMessage)) : list packet :=
  (λ o, (i, o.1, o.2)) <$> outs.

(** Replica [i] takes a step with these results. *)
Definition efinish (i : ReplicaId) (p : replica * list (ReplicaId * EMessage))
    (nodes : ReplicaId → option replica) (flight : list packet) : enet :=
  MkEnet (λ j, if decide (j = i) then Some p.1 else nodes j) (epackets i p.2 ++ flight).

Inductive estep : enet → enet → Prop :=
  | e_propose nodes flight i r c :
      nodes i = Some r →
      estep (MkEnet nodes flight) (efinish i (epropose c r) nodes flight)
  | e_deliver nodes l1 l2 from to m r :
      nodes to = Some r →
      estep (MkEnet nodes (l1 ++ (from, to, m) :: l2))
            (efinish to (eon_message from m r) nodes (l1 ++ l2))
  | e_drop nodes l1 l2 p :
      estep (MkEnet nodes (l1 ++ p :: l2)) (MkEnet nodes (l1 ++ l2)).

Definition enet_init : enet := MkEnet (λ i, new_replica i V sm0) [].

Definition enet_reach (s : enet) : Prop := rtc estep enet_init s.

Definition group : list ReplicaId := dedup (merge_sort N.le V).

Lemma group_NoDup : NoDup group.
Proof. apply dedup_NoDup, StronglySorted_merge_sort; apply _. Qed.

(** ** The invariant *)

Record ghost := MkGhost {
  g_cmd : gmap Instance bytes;
  g_dec : decisions;
  g_local : ReplicaId → Instance → option (gset Instance);
  g_counted : Instance → list ReplicaId;
}.

(** The smaller of the two quorums. *)
Definition quorum : nat :=
  let n := length group in
  let f := ((n - 1) / 2)%nat in
  Nat.min (f + (f + 1) / 2) (n / 2 + 1).

(** A quorum of replicas answered with dependencies inside [deps]. *)
Definition evidence (g : ghost) (j : Instance) (deps : gset Instance) : Prop :=
  ∃ Q, NoDup Q ∧ Q ⊆ group ∧ (quorum ≤ length Q)%nat ∧
    ∀ q, q ∈ Q → ∃ L, g_local g q j = Some L ∧ L ⊆ deps.

Definition collect_ok (g : ghost) (j : Instance) (c : Collect) : Prop :=
  if co_accepting c then evidence g j (co_union_deps c)
  else
    length (g_counted g j) = co_replies c ∧
    (∀ q, q ∈ g_counted g j → ∃ L, g_local g q j = Some L ∧ L ⊆ co_union_deps c) ∧
    ∃ A, NoDup A ∧ A ⊆ g_counted g j ∧ length A = co_agreed c ∧
      ∀ q, q ∈ A → g_local g q j = Some (co_init_deps c).

Record node_ok (g : ghost) (i : ReplicaId) (r : replica) : Prop := {
  no_id : ep_id r = i;
  no_group : ep_replicas r = group;
  no_member : i ∈ group;
  no_cmd j st : ep_cmds r !! j = Some st → g_cmd g !! j = Some (is_command st);
  no_dec : matches (g_dec g) r;
  no_slot j : j ∈ dom (g_cmd g) → inst_replica j = i → inst_slot j < ep_next_slot r;
  no_local j L : g_local g i j = Some L → j ∈ dom (ep_cmds r);
  no_collect j c : ep_collects r !! j = Some c →
    inst_replica j = i ∧ g_dec g !! j = None ∧ g_cmd g !! j = Some (co_command c) ∧ collect_ok g j c;
  no_log : ∃ l, executed_log (g_dec g) sm0 l r;
}.

Definition packet_ok (g : ghost) (p : packet) : Prop :=
  match p.2 with
  | PreAccept j _ c _ _ => g_cmd g !! j = Some c ∧ inst_replica j = p.1.1
  | PreAcceptReply j _ _ deps =>
      g_local g p.1.1 j = Some deps ∧ inst_replica j = p.1.2 ∧ j ∈ dom (g_cmd g)
  | Accept j _ c _ _ => g_cmd g !! j = Some c
  | AcceptReply j _ => True
  | Commit j c seq deps => g_dec g !! j = Some (c, seq, deps)
  end.

(** The replicas yet to see an instance, and those whose answer is on its way. *)
Definition asked (j : Instance) (flight : list packet) : list ReplicaId :=
  omap (λ p, match p.2 with PreAccept j' _ _ _ _ => if decide (j' = j) then Some p.1.2 else None
             | _ => None end) flight.

Definition answering (j : Instance) (flight : list packet) : list ReplicaId :=
  omap (λ p, match p.2 with PreAcceptReply j' _ _ _ => if decide (j' = j) then Some p.1.1 else None
             | _ => None end) flight.

(** Each replica answers an instance once, and its answer is counted once. *)
Record tokens_ok (g : ghost) (flight : list packet) (j : Instance) : Prop := {
  tk_nodup : NoDup (asked j flight ++ answering j flight ++ g_counted g j);
  tk_group : asked j flight ++ answering j flight ++ g_counted g j ⊆ group;
  tk_fresh q : q ∈ asked j flight → g_local g q j = None;
}.

Context (conflict : bytes → bytes → bool).

(** Only proposed instances are seen, and of two interfering ones that a
    replica has seen, one was seen second. *)
Definition local_ok (g : ghost) : Prop :=
  (∀ q j L, g_local g q j = Some L → j ∈ dom (g_cmd g)) ∧
  ∀ q i j Li Lj ci cj, g_local g q i = Some Li → g_local g q j = Some Lj → i ≠ j →
    g_cmd g !! i = Some ci → g_cmd g !! j = Some cj → conflict ci cj = true →
    j ∈ Li ∨ i ∈ Lj.

Definition decided_ok (g : ghost) : Prop :=
  ∀ j c seq deps, g_dec g !! j = Some (c, seq, deps) →
    g_cmd g !! j = Some c ∧ evidence g j deps.

Record net_ok (s : enet) (g : ghost) : Prop := {
  ok_nodes i r : en_nodes s i = Some r → node_ok g i r;
  ok_packets : Forall (packet_ok g) (en_flight s);
  ok_tokens j : tokens_ok g (en_flight s) j;
  ok_local : local_ok g;
  ok_decided : decided_ok g;
}.

(** ** Growth of the ghost state *)

(** What a step of replica [i] may add. *)
Record extends (i : ReplicaId) (g g' : ghost) : Prop := {
  ex_cmd : g_cmd g ⊆ g_cmd g';
  ex_dec : g_dec g ⊆ g_dec g';
  ex_local q j L : g_local g q j = Some L → g_local g' q j = Some L;
  ex_cmd_other j : inst_replica j ≠ i → g_cmd g' !! j = g_cmd g !! j;
  ex_dec_other j : inst_replica j ≠ i → g_dec g' !! j = g_dec g !! j;
  ex_counted_other j : inst_replica j ≠ i → g_counted g' j = g_counted g j;
  ex_local_other q j : q ≠ i → g_local g' q j = g_local g q j;
}.

Lemma extends_refl i g : extends i g g.
Proof. by split. Qed.

Lemma extends_trans i g1 g2 g3 : extends i g1 g2 → extends i g2 g3 → extends i g1 g3.
Proof.
  intros [Hc Hd Hl Hco Hdo Hno Hlo] [Hc' Hd' Hl' Hco' Hdo' Hno' Hlo'].
  split; [by etrans | by etrans | by auto | intros..].
  - by rewrite Hco', Hco.
  - by rewrite Hdo', Hdo.
  - by rewrite Hno', Hno.
  - by rewrite Hlo', Hlo.
Qed.

Lemma evidence_extends g g' j deps :
  (∀ q j L, g_local g q j = Some L → g_local g' q j = Some L) →
  evidence g j deps → evidence g' j deps.
Proof.
  intros Hl (Q & Hnd & Hsub & Hlen & Hq). exists Q. split_and!; [done.. |].
  intros q Hin. destruct (Hq q Hin) as (L & HL & ?). eauto.
Qed.

Lemma collect_extends g g' j c :
  (∀ q j L, g_local g q j = Some L → g_local g' q j = Some L) →
  g_counted g' j = g_counted g j → collect_ok g j c → collect_ok g' j c.
Proof.
  intros Hl Hc. unfold collect_ok. destruct (co_accepting c); [by apply evidence_extends |].
  rewrite Hc. intros (Hlen & Hall & A & Hnd & Hsub & HlenA & HA). split_and!; [done | |].
  - intros q Hq. destruct (Hall q Hq) as (L & HL & ?). eauto.
  - exists A. split_and!; auto.
Qed.

Lemma packet_extends i g g' p : extends i g g' → packet_ok g p → packet_ok g' p.
Proof.
  intros [Hc Hd Hl _ _ _ _]. unfold packet_ok. destruct p.2; try done.
  - intros [? ?]. split; [by eapply lookup_weaken | done].
  - intros (? & ? & ?). split_and!; [auto | done |]. by apply (subseteq_dom _ _ Hc).
  - intros ?. by eapply lookup_weaken.
  - intros ?. by eapply lookup_weaken.
Qed.

(** A replica keeps its invariant when the ghost state grows around it. *)
Lemma node_weaken g g' i r :
  node_ok g i r → g_cmd g ⊆ g_cmd g' → g_dec g ⊆ g_dec g' →
  (∀ q j L, g_local g q j = Some L → g_local g' q j = Some L) →
  (∀ j, j ∈ dom (g_cmd g') → inst_replica j = i → inst_slot j < ep_next_slot r) →
  (∀ j L, g_local g' i j = Some L → j ∈ dom (ep_cmds r)) →
  (∀ j c, ep_collects r !! j = Some c → g_dec g' !! j = None ∧ g_counted g' j = g_counted g j) →
  node_ok g' i r.
Proof.
  intros [Hid Hg Hmem Hcmd Hdec Hslot Hlocal Hcol [l Hlog]] Hc Hd Hl Hslot' Hlocal' Hcol'.
  split; try done.
  - intros j st Hj. eapply lookup_weaken; [by apply Hcmd | done].
  - intros j st Hj Hs. eapply lookup_weaken; [by apply Hdec | done].
  - intros j c Hj. destruct (Hcol j c Hj) as (? & ? & ? & ?). destruct (Hcol' j c Hj) as [? ?].
    split_and!; [done | done | by eapply lookup_weaken | by eapply collect_extends].
  - exists l. by eapply executed_log_grows.
Qed.

Lemma node_extends i g g' k r : extends i g g' → k ≠ i → node_ok g k r → node_ok g' k r.
Proof.
  intros [Hc Hd Hl Hco Hdo Hno Hlo] Hk Hn. apply (node_weaken g); try done.
  - intros j Hj Hjk. apply (no_slot _ _ _ Hn); [| done].
    rewrite elem_of_dom in *. by rewrite <-Hco by congruence.
  - intros j L. rewrite Hlo by done. apply Hn.
  - intros j c Hj. destruct (no_collect _ _ _ Hn j c Hj) as (Hr & Hdn & _).
    rewrite Hdo, Hno by congruence. done.
Qed.

(** ** What the operations do to one replica *)

Lemma record_cmds j c seq deps st b (r : replica) k :
  ep_cmds (record j c seq deps st b r) !! k =
    if decide (k = j) then
      Some (match ep_cmds r !! j with
            | Some e => if decide (status_rank (is_status e) ≤ status_rank st)
                        then MkInstanceState c seq deps st b else e
            | None => MkInstanceState c seq deps st b
            end)
    else ep_cmds r !! k.
Proof.
  unfold record. destruct (ep_cmds r !! j) as [e|] eqn:Hj; [case_decide |]; fields_goal;
    (case_decide; [subst | ]; rewrite ?lookup_insert_eq, ?lookup_insert_ne by done; done).
Qed.

Lemma record_dom j c seq deps st b (r : replica) k :
  k ∈ dom (ep_cmds (record j c seq deps st b r)) ↔ k = j ∨ k ∈ dom (ep_cmds r).
Proof.
  rewrite !elem_of_dom, record_cmds. case_decide; [naive_solver |].
  split; [by right | by intros [?|?]].
Qed.

Lemma record_executed j c seq deps st b (r : replica) i :
  st ≠ Executed →
  status_of (record j c seq deps st b r) i = Some Executed ↔ status_of r i = Some Executed.
Proof.
  intros Hst. unfold status_of. rewrite record_cmds. case_decide as Hi; [subst i | done].
  destruct (ep_cmds r !! j) as [e|]; cbn; [case_decide as Hr; cbn |].
  - destruct (is_status e) eqn:He, st; cbn in *; split; congruence || (intros; lia).
  - done.
  - split; congruence.
Qed.

Lemma record_node g i r j c seq deps st b :
  node_ok g i r → g_cmd g !! j = Some c → st ≠ Executed →
  (st = Committed → g_dec g !! j = Some (c, seq, deps)) →
  node_ok g i (record j c seq deps st b r).
Proof.
  intros [Hid Hg Hmem Hcmd Hdec Hslot Hlocal Hcol [l Hlog]] Hc Hne Hst.
  destruct (record_keeps j c seq deps st b r) as (Hsm & Hid' & Hg' & Hns & Hco).
  split; rewrite ?Hid', ?Hg', ?Hns, ?Hco; try done.
  - intros k st'. rewrite record_cmds. case_decide as Hk; [subst k | apply Hcmd].
    intros [= <-]. destruct (ep_cmds r !! j) as [e|] eqn:He; [case_decide |]; [done | | done].
    by apply Hcmd.
  - intros k st'. rewrite record_cmds. case_decide as Hk; [subst k | apply Hdec].
    intros [= <-] Hs. destruct (ep_cmds r !! j) as [e|] eqn:He; [case_decide |]; [| by apply Hdec |].
    all: cbn in *; apply Hst; by destruct Hs.
  - intros k L HL. rewrite record_dom. right. by eapply Hlocal.
  - exists l. eapply executed_log_ext; [done | done |]. intros k. by apply record_executed.
Qed.

Lemma execute_keeps (r : replica) :
  ep_id (execute_committed r) = ep_id r ∧ ep_replicas (execute_committed r) = ep_replicas r ∧
  ep_next_slot (execute_committed r) = ep_next_slot r ∧
  ep_collects (execute_committed r) = ep_collects r.
Proof. rewrite execute_committed_fold. apply exec_fold_keeps. Qed.

Lemma execute_node g i r : node_ok g i r → node_ok g i (execute_committed r).
Proof.
  intros [Hid Hg Hmem Hcmd Hdec Hslot Hlocal Hcol [l Hlog]].
  destruct (execute_keeps r) as (Hid' & Hg' & Hns & Hco).
  assert (∀ k st, ep_cmds (execute_committed r) !! k = Some st →
    ∃ st0, ep_cmds r !! k = Some st0 ∧ is_command st = is_command st0 ∧ is_seq st = is_seq st0 ∧
      is_deps st = is_deps st0 ∧
      (is_status st = is_status st0 ∨ is_status st0 = Committed)) as Hk.
  { intros k st. rewrite execute_committed_fold, exec_fold_cmds. case_decide as Hin.
    - intros (st0 & Hst0 & ->)%fmap_Some. exists st0. split_and!; try done. right.
      apply elem_of_exec_order, eligible_committed in Hin. unfold status_of in Hin.
      rewrite Hst0 in Hin. by injection Hin.
    - intros Hst. exists st. split_and!; auto. }
  split; rewrite ?Hid', ?Hg', ?Hns, ?Hco; try done.
  - intros k st Hst. destruct (Hk k st Hst) as (st0 & H0 & -> & _). by apply Hcmd.
  - intros k st Hst Hs. destruct (Hk k st Hst) as (st0 & H0 & -> & -> & -> & Hs0).
    apply Hdec; [done |]. destruct Hs0 as [<-|?]; [done | by left].
  - intros k L HL. apply Hlocal in HL. rewrite elem_of_dom in *.
    rewrite execute_committed_fold, exec_fold_cmds. case_decide; [by apply fmap_is_Some | done].
  - exists (l ++ exec_order r). by apply execute_log.
Qed.

(** Changing only the bookkeeping of collected replies. *)
Lemma collects_node g i r (m : gmap Instance Collect) :
  node_ok g i r →
  (∀ j c, m !! j = Some c →
     inst_replica j = i ∧ g_dec g !! j = None ∧ g_cmd g !! j = Some (co_command c) ∧ collect_ok g j c) →
  node_ok g i (r <| ep_collects := m |>).
Proof.
  intros [Hid Hg Hmem Hcmd Hdec Hslot Hlocal Hcol [l Hlog]] Hm. split; fields_goal; try done.
  exists l. by eapply executed_log_ext.
Qed.

Lemma uncollect_node g i r j : node_ok g i r → node_ok g i (r <| ep_collects ::= delete j |>).
Proof.
  intros Hn. apply (collects_node _ _ _ (delete j (ep_collects r)) Hn).
  intros k c [_ Hk]%lookup_delete_Some. by apply Hn.
Qed.

Lemma put_collect_node g i r j c :
  node_ok g i (r <| ep_collects ::= delete j |>) →
  inst_replica j = i → g_dec g !! j = None → g_cmd g !! j = Some (co_command c) →
  collect_ok g j c → node_ok g i (r <| ep_collects ::= <[j := c]> |>).
Proof.
  intros Hn Hr Hd Hc Hok. apply (collects_node _ _ _ (<[j := c]> (ep_collects r)) Hn).
  intros k c' [[<- <-]|[Hne Hk]]%lookup_insert_Some; [done |].
  apply Hn. fields_goal. by rewrite lookup_delete_ne.
Qed.

(** ** Tokens *)

Lemma asked_app j l k : asked j (l ++ k) = asked j l ++ asked j k.
Proof. apply omap_app. Qed.

Lemma answering_app j l k : answering j (l ++ k) = answering j l ++ answering j k.
Proof. apply omap_app. Qed.

Lemma asked_request j f to j' b c seq deps l :
  asked j ((f, to, PreAccept j' b c seq deps) :: l) =
    if decide (j' = j) then to :: asked j l else asked j l.
Proof. unfold asked. cbn. by case_decide. Qed.

Lemma asked_reply j f to j' b seq deps l :
  asked j ((f, to, PreAcceptReply j' b seq deps) :: l) = asked j l.
Proof. done. Qed.

Lemma answering_request j f to j' b c seq deps l :
  answering j ((f, to, PreAccept j' b c seq deps) :: l) = answering j l.
Proof. done. Qed.

Lemma answering_reply j f to j' b seq deps l :
  answering j ((f, to, PreAcceptReply j' b seq deps) :: l) =
    if decide (j' = j) then f :: answering j l else answering j l.
Proof. unfold answering. cbn. by case_decide. Qed.

(** Packets that carry no token. *)
Definition silent (m : EMessage) : Prop :=
  match m with PreAccept _ _ _ _ _ | PreAcceptReply _ _ _ _ => False | _ => True end.

Lemma silent_packets i outs j :
  Forall (λ o : ReplicaId * EMessage, silent o.2) outs →
  asked j (epackets i outs) = [] ∧ answering j (epackets i outs) = [].
Proof. induction 1 as [|[to m] outs Hm _ IH]; [done |]. by destruct m. Qed.

Lemma tokens_sub g g' flight flight' j :
  tokens_ok g flight j →
  asked j flight' ++ answering j flight' ++ g_counted g' j ⊆+
    asked j flight ++ answering j flight ++ g_counted g j →
  (∀ q, q ∈ asked j flight' → g_local g' q j = None) →
  tokens_ok g' flight' j.
Proof.
  intros [Hnd Hsub Hfr] Hs Hf. split; [| | done].
  - apply submseteq_Permutation in Hs as [k Hk]. rewrite Hk in Hnd. by apply NoDup_app in Hnd as (? & _ & _).
  - intros q Hq. by apply Hsub, (elem_of_submseteq _ _ _ Hq Hs).
Qed.

Lemma tokens_ghost g g' flight j :
  g_local g' = g_local g → g_counted g' = g_counted g → tokens_ok g flight j → tokens_ok g' flight j.
Proof. intros Hl Hc [Hnd Hsub Hfr]. split; by rewrite ?Hl, ?Hc. Qed.

Lemma tokens_drop g l1 l2 p j : tokens_ok g (l1 ++ p :: l2) j → tokens_ok g (l1 ++ l2) j.
Proof.
  intros Ht. change (p :: l2) with ([p] ++ l2) in Ht.
  assert (asked j (l1 ++ l2) ⊆+ asked j (l1 ++ [p] ++ l2)) as Hsa.
  { rewrite !asked_app. by apply submseteq_skips_l, submseteq_inserts_l. }
  eapply tokens_sub; [done | |].
  - apply submseteq_app; [done |]. apply submseteq_app; [| done].
    rewrite !answering_app. by apply submseteq_skips_l, submseteq_inserts_l.
  - intros q Hq. apply Ht. by eapply elem_of_submseteq.
Qed.

Lemma tokens_silent g rest outs i j :
  tokens_ok g rest j → Forall (λ o, silent o.2) outs → tokens_ok g (epackets i outs ++ rest) j.
Proof.
  intros [Hnd Hsub Hfr] Hs. destruct (silent_packets i outs j Hs) as [Ha Hb].
  split; rewrite asked_app, ?answering_app, Ha, ?Hb; done.
Qed.

(** ** One step of one replica *)

(** The step of replica [i] to [p] keeps the invariant of the group, with
    [rest] still in flight. *)
Definition stepped (i : ReplicaId) (g : ghost) (p : replica * list (ReplicaId * EMessage))
    (rest : list packet) : Prop :=
  ∃ g', extends i g g' ∧ node_ok g' i p.1 ∧ Forall (packet_ok g') (epackets i p.2) ∧
    (∀ j, tokens_ok g' (epackets i p.2 ++ rest) j) ∧ local_ok g' ∧ decided_ok g'.

Lemma stepped_net nodes flight g i p rest :
  net_ok (MkEnet nodes flight) g → (∀ q, q ∈ rest → q ∈ flight) → stepped i g p rest →
  ∃ g', net_ok (efinish i p nodes rest) g'.
Proof.
  intros [Hn Hp _ _ _] Hsub (g' & He & Hi & Hout & Ht & Hl & Hd). exists g'.
  split; cbn in *; try done.
  - intros k r. case_decide as Hk; [subst k; by intros [= <-] |].
    intros Hr. eapply node_extends; [done.. |]. by apply Hn.
  - apply Forall_app. split; [done |]. apply Forall_forall. intros q Hq.
    eapply packet_extends; [done |]. rewrite Forall_forall in Hp. by apply Hp, Hsub.
Qed.

(** A step that adds nothing to the ghost state and sends no token. *)
Lemma stepped_silent i g r' outs rest :
  (∀ j, tokens_ok g rest j) → local_ok g → decided_ok g →
  node_ok g i r' → Forall (packet_ok g) (epackets i outs) → Forall (λ o, silent o.2) outs →
  stepped i g (r', outs) rest.
Proof.
  intros Ht Hl Hd Hn Hp Hs. exists g. split_and!; [apply extends_refl | done | done | | done | done].
  intros j. by apply tokens_silent.
Qed.

Lemma to_peers_silent (r : replica) m :
  silent m → Forall (λ o, silent o.2) ((λ p, (p, m)) <$> epeers r).
Proof. intros Hm. by apply Forall_fmap, Forall_true. Qed.

Lemma to_peers_packets g i (r : replica) m :
  (∀ p, packet_ok g (i, p, m)) → Forall (packet_ok g) (epackets i ((λ p, (p, m)) <$> epeers r)).
Proof. intros Hm. unfold epackets. by apply Forall_fmap, Forall_fmap, Forall_true. Qed.

(** *** Deciding *)

Definition decide_ghost (j : Instance) (c : bytes) (seq : N) (deps : gset Instance) (g : ghost) : ghost :=
  MkGhost (g_cmd g) (<[j := (c, seq, deps)]> (g_dec g)) (g_local g) (g_counted g).

Lemma commit_stepped i g r j c seq deps rest :
  (∀ j, tokens_ok g rest j) → local_ok g → decided_ok g →
  node_ok g i (r <| ep_collects ::= delete j |>) →
  inst_replica j = i → g_dec g !! j = None → g_cmd g !! j = Some c → evidence g j deps →
  stepped i g (commit_as_leader j c seq deps r) rest.
Proof.
  intros Ht Hl Hd Hn Hji Hjd Hjc Hev. set (g' := decide_ghost j c seq deps g). exists g'.
  assert (g_dec g ⊆ g_dec g') as Hsub by by apply insert_subseteq.
  assert (extends i g g') as He.
  { split; cbn; try done. intros k Hk. rewrite lookup_insert_ne; [done | congruence]. }
  assert (g_dec g' !! j = Some (c, seq, deps)) as Hj by apply lookup_insert_eq.
  unfold commit_as_leader. cbn [fst snd]. split_and!; [done | | | | done |].
  - apply execute_node, record_node; [| done | done | done].
    apply (node_weaken g); try done; [apply Hn | apply Hn |]. fields_goal.
    intros k ck Hk. split; [| done]. pose proof Hk as [Hne _]%lookup_delete_Some.
    cbn. rewrite lookup_insert_ne by done. by apply (no_collect _ _ _ Hn k ck).
  - by apply to_peers_packets.
  - intros k. apply (tokens_ghost g); [done | done |].
    apply tokens_silent; [apply Ht | by apply to_peers_silent].
  - intros k ck sk dk. cbn. intros [[<- [= <- <- <-]]|[Hne Hk]]%lookup_insert_Some; [done |].
    by apply Hd in Hk.
Qed.

(** *** Seeing an instance *)

Context (Hconflict : ∀ (sm : SM) a b, conflict a b = true → interferes sm a b = true).
Context (Hsymm : ∀ a b, conflict a b = conflict b a).

Definition see_ghost (i : ReplicaId) (j : Instance) (L : gset Instance) (g : ghost) : ghost :=
  MkGhost (g_cmd g) (g_dec g)
    (λ q k, if decide (q = i ∧ k = j) then Some L else g_local g q k) (g_counted g).

Lemma see_extends i j L g : g_local g i j = None → extends i g (see_ghost i j L g).
Proof.
  intros Hn. split; cbn; try done.
  - intros q k L' Hq. case_decide as Hd; [| done]. destruct Hd as [-> ->]. congruence.
  - intros q k Hq. by rewrite decide_False by tauto.
Qed.

(** A replica that sees [j] reports every interfering instance it has seen. *)
Lemma see_local i j c L g r :
  local_ok g → node_ok g i r → g_cmd g !! j = Some c → (deps_and_seq r c j).2 ⊆ L →
  local_ok (see_ghost i j L g).
Proof.
  intros [Hkn Hl] Hn Hc Hsub.
  assert (∀ b Lb cb, g_local g i b = Some Lb → b ≠ j → g_cmd g !! b = Some cb →
            conflict c cb = true → b ∈ L) as Hnew.
  { intros b Lb cb Hb Hne Hcb Hcf. apply (no_local _ _ _ Hn) in Hb.
    apply elem_of_dom in Hb as [st Hst]. pose proof (no_cmd _ _ _ Hn b st Hst) as Hcst.
    apply Hsub. cbn. apply elem_of_dom. exists st. apply map_lookup_filter_Some. cbn.
    split; [done |]. split; [done |]. simplify_eq. by apply Hconflict. }
  split; cbn.
  - intros q k L'. case_decide as Hd; [destruct Hd as [-> ->]; intros _; by eapply elem_of_dom_2 | apply Hkn].
  - intros q a b La Lb ca cb Ha Hb Hne Hca Hcb Hcf.
    destruct (decide (q = i ∧ a = j)) as [Hda|Hda], (decide (q = i ∧ b = j)) as [Hdb|Hdb].
    + by destruct Hda as [_ ->], Hdb as [_ ->].
    + destruct Hda as [-> ->]. simplify_eq. left. by eapply Hnew.
    + destruct Hdb as [-> ->]. simplify_eq. right. rewrite Hsymm in Hcf. by eapply Hnew.
    + by eapply Hl.
Qed.

Lemma see_decided i j L g :
  g_local g i j = None → decided_ok g → decided_ok (see_ghost i j L g).
Proof.
  intros Hn Hd k c seq deps Hk. destruct (Hd k c seq deps Hk) as [? He]. split; [done |].
  eapply evidence_extends; [| exact He]. apply (see_extends i j L g Hn).
Qed.

Lemma see_node i j L g r :
  g_local g i j = None → node_ok g i r → j ∈ dom (ep_cmds r) → node_ok (see_ghost i j L g) i r.
Proof.
  intros Hn Hok Hj. destruct (see_extends i j L g Hn). apply (node_weaken g); try done.
  - apply Hok.
  - intros k L'. cbn. case_decide as Hd; [destruct Hd as [_ ->]; done |]. apply Hok.
  - intros k c Hk. split; [by apply (no_collect _ _ _ Hok k c) | done].
Qed.

Lemma elem_asked j flight from to b c seq deps :
  (from, to, PreAccept j b c seq deps) ∈ flight → to ∈ asked j flight.
Proof.
  intros Hin. apply list_elem_of_omap. eexists. split; [done |]. cbn. by rewrite decide_True.
Qed.

Lemma preaccept_tokens i g from j b c seq deps b' seq' L l1 l2 k :
  g_local g i j = None → tokens_ok g (l1 ++ (from, i, PreAccept j b c seq deps) :: l2) k →
  tokens_ok (see_ghost i j L g) ((i, from, PreAcceptReply j b' seq' L) :: l1 ++ l2) k.
Proof.
  intros Hnone Ht. destruct (decide (j = k)) as [<-|Hk].
  - pose proof Ht as [Hnd _ Hfr].
    rewrite asked_app, asked_request, decide_True, <-Permutation_middle in Hnd by done.
    rewrite asked_app, asked_request, decide_True in Hfr by done.
    eapply tokens_sub; [exact Ht | |].
    + rewrite asked_reply, answering_reply, !asked_app, !answering_app, asked_request, answering_request.
      rewrite !decide_True by done. solve_submseteq.
    + rewrite asked_reply, asked_app. intros q Hq. cbn. apply NoDup_cons in Hnd as [Hni _].
      rewrite decide_False.
      * apply Hfr. revert Hq. elems.
      * intros [-> _]. apply Hni. revert Hq. elems.
  - apply tokens_drop in Ht. pose proof Ht as [_ _ Hfr]. eapply tokens_sub; [exact Ht | |].
    + rewrite asked_reply, answering_reply, decide_False by done. done.
    + rewrite asked_reply. intros q Hq. cbn. rewrite decide_False by naive_solver. by apply Hfr.
Qed.

Lemma preaccept_stepped i g r from j b c seq deps l1 l2 :
  let p := (from, i, PreAccept j b c seq deps) in
  (∀ k, tokens_ok g (l1 ++ p :: l2) k) → local_ok g → decided_ok g → packet_ok g p → node_ok g i r →
  stepped i g (on_preaccept from j b c seq deps r) (l1 ++ l2).
Proof.
  intros p Ht Hl Hd [Hc Hji] Hn. cbn in Hc, Hji.
  assert (g_local g i j = None) as Hnone.
  { apply (tk_fresh _ _ _ (Ht j)). eapply elem_asked. rewrite elem_of_app, elem_of_cons. by right; left. }
  unfold on_preaccept. destruct (deps_and_seq r c j) as [ls ld] eqn:Hds.
  set (L := deps ∪ ld). exists (see_ghost i j L g). cbn [fst snd].
  split_and!.
  - by apply see_extends.
  - apply see_node; [done | | apply record_dom; by left]. by apply record_node.
  - apply Forall_singleton. cbn. rewrite decide_True by done. split_and!; [done.. |].
    by eapply elem_of_dom_2.
  - intros k. exact (preaccept_tokens i g from j b c seq deps b _ L l1 l2 k Hnone (Ht k)).
  - eapply see_local; [done | done | done |]. rewrite Hds. cbn. apply union_subseteq_r.
  - by apply see_decided.
Qed.

(** *** Proposing *)

Definition propose_ghost (i : ReplicaId) (j : Instance) (c : bytes) (g : ghost) : ghost :=
  MkGhost (<[j := c]> (g_cmd g)) (g_dec g) (g_local g)
    (λ k, if decide (k = j) then [i] else g_counted g k).

Lemma propose_extends i j c g :
  inst_replica j = i → g_cmd g !! j = None → extends i g (propose_ghost i j c g).
Proof.
  intros Hj Hn. split; cbn; try done.
  - by apply insert_subseteq.
  - intros k Hk. apply lookup_insert_ne. congruence.
  - intros k Hk. rewrite decide_False by congruence. done.
Qed.

Lemma propose_local i j c g :
  g_cmd g !! j = None → local_ok g → local_ok (propose_ghost i j c g).
Proof.
  intros Hn [Hkn Hl].
  assert (∀ q k L, g_local g q k = Some L → k ≠ j) as Hne.
  { intros q k L Hk ->. apply Hkn, elem_of_dom in Hk. rewrite Hn in Hk. by destruct Hk. }
  split; cbn.
  - intros q k L Hk. rewrite dom_insert_L, elem_of_union. right. by eapply Hkn.
  - intros q a b La Lb ca cb Ha Hb. pose proof (Hne _ _ _ Ha). pose proof (Hne _ _ _ Hb).
    rewrite !lookup_insert_ne by done. by eapply Hl.
Qed.

Lemma propose_decided i j c g :
  g_cmd g !! j = None → decided_ok g → decided_ok (propose_ghost i j c g).
Proof.
  intros Hn Hd k ck sk dk Hk. destruct (Hd k ck sk dk Hk) as [Hc He]. split; [| done].
  cbn. rewrite lookup_insert_ne; [done |]. congruence.
Qed.

Lemma propose_node i j c g r :
  inst_replica j = i → inst_slot j = ep_next_slot r → g_cmd g !! j = None → node_ok g i r →
  node_ok (propose_ghost i j c g) i (r <| ep_next_slot ::= λ s, s + 1 |>).
Proof.
  intros Hj Hs Hn Hok. destruct (propose_extends i j c g Hj Hn).
  assert (node_ok g i (r <| ep_next_slot ::= λ s, s + 1 |>)) as Hok'.
  { destruct Hok as [Hid Hg Hmem Hcmd Hdec Hslot Hlocal Hcol [l Hlog]]. split; fields_goal; try done.
    - intros k Hk Hki. specialize (Hslot k Hk Hki). lia.
    - exists l. by eapply executed_log_ext. }
  apply (node_weaken g); try done.
  - intros k. fields_goal. cbn. rewrite dom_insert_L, elem_of_union, elem_of_singleton.
    intros [->|Hk] Hki; [lia |]. pose proof (no_slot _ _ _ Hok k Hk Hki). lia.
  - apply Hok'.
  - intros k ck Hk. destruct (no_collect _ _ _ Hok' k ck Hk) as (_ & ? & Hck & _).
    split; [done |]. cbn. rewrite decide_False; [done |]. congruence.
Qed.

Lemma asked_none g flight j :
  Forall (packet_ok g) flight → g_cmd g !! j = None → asked j flight = [] ∧ answering j flight = [].
Proof.
  intros Hp Hn. assert (j ∉ dom (g_cmd g)) as Hd by by apply not_elem_of_dom.
  induction Hp as [|[[f to] m] flight Hm _ [IHa IHb]]; [done |].
  change ((f, to, m) :: flight) with ([(f, to, m)] ++ flight).
  rewrite asked_app, answering_app, IHa, IHb.
  destruct m; cbn in Hm; try done; unfold asked, answering; cbn.
  - destruct Hm as [Hm _]. case_decide; [congruence | done].
  - destruct Hm as (_ & _ & Hm). case_decide; [congruence | done].
Qed.

Lemma asked_propose i j b c seq deps l k :
  asked k (epackets i ((λ p, (p, PreAccept j b c seq deps)) <$> l)) = (if decide (j = k) then l else []) ∧
  answering k (epackets i ((λ p, (p, PreAccept j b c seq deps)) <$> l)) = [].
Proof.
  induction l as [|p l [IHa IHb]]; [by case_decide |].
  unfold epackets in *. cbn [fmap list_fmap fst snd]. rewrite asked_request, answering_request.
  split; [| done]. case_decide; by rewrite IHa.
Qed.

Lemma propose_tokens i j c L seq g rest (r : replica) k :
  (∀ q, g_local g q j = None) → g_cmd g !! j = None → Forall (packet_ok g) rest →
  ep_id r = i → ep_replicas r = group → i ∈ group → tokens_ok g rest k →
  tokens_ok (see_ghost i j L (propose_ghost i j c g))
    (epackets i ((λ p, (p, PreAccept j 0 c seq L)) <$> epeers r) ++ rest) k.
Proof.
  intros Hnone Hn Hp Hid Hgr Hi Ht.
  destruct (asked_propose i j 0 c seq L (epeers r) k) as [Ha Hb].
  destruct (decide (j = k)) as [<-|Hk].
  - destruct (asked_none g rest j Hp Hn) as [Ha' Hb'].
    assert (∀ q, q ∈ epeers r → q ≠ i ∧ q ∈ group) as Hq.
    { intros q. unfold epeers. rewrite list_elem_of_filter, Hid, Hgr. done. }
    split; rewrite !asked_app, ?answering_app, Ha, ?Hb, Ha', ?Hb', app_nil_r.
    + cbn. rewrite decide_True by done. apply NoDup_app. split_and!.
      * apply NoDup_filter. rewrite Hgr. apply group_NoDup.
      * intros q [? _]%Hq. by rewrite list_elem_of_singleton.
      * apply NoDup_singleton.
    + cbn. rewrite decide_True by done. intros q [Hq'%Hq|Hq']%elem_of_app; [tauto |].
      apply list_elem_of_singleton in Hq' as ->. done.
    + intros q [? _]%Hq. cbn. by rewrite decide_False by tauto.
  - destruct Ht as [Hnd Hsub Hfr].
    split; rewrite !asked_app, ?answering_app, Ha, ?Hb; cbn; rewrite ?decide_False by done; try done.
    intros q Hq. rewrite decide_False by naive_solver. by apply Hfr.
Qed.

Lemma propose_stepped i g r c rest :
  (∀ k, tokens_ok g rest k) → Forall (packet_ok g) rest → local_ok g → decided_ok g → node_ok g i r →
  stepped i g (epropose c r) rest.
Proof.
  intros Ht Hp Hl Hd Hn. unfold epropose. rewrite (no_id _ _ _ Hn).
  set (j := MkInstance i (ep_next_slot r)). set (r1 := r <| ep_next_slot ::= _ |>).
  assert (g_cmd g !! j = None) as Hnj.
  { apply not_elem_of_dom. intros Hj. pose proof (no_slot _ _ _ Hn j Hj eq_refl) as Hlt. cbn in Hlt. lia. }
  assert (∀ q, g_local g q j = None) as Hnl.
  { intros q. destruct (g_local g q j) as [L|] eqn:HL; [| done].
    apply Hl in HL. by apply not_elem_of_dom in HL. }
  destruct (deps_and_seq r1 c j) as [seq L] eqn:Hds.
  set (g1 := propose_ghost i j c g). set (g' := see_ghost i j L g1).
  assert (g_cmd g1 !! j = Some c) as Hj1 by apply lookup_insert_eq.
  assert (node_ok g1 i r1) as Hn1 by by apply propose_node.
  assert (node_ok g' i (record j c seq L PreAccepted 0 r1)) as Hn2.
  { apply see_node; [apply Hnl | by apply record_node | apply record_dom; by left]. }
  exists g'. cbn [fst snd]. split_and!.
  - apply (extends_trans _ _ g1); [by apply (propose_extends i j c g eq_refl) | apply see_extends, Hnl].
  - apply put_collect_node; [by apply uncollect_node | done | | done |].
    + destruct (g_dec g' !! j) as [[[? ?] ?]|] eqn:Hdj; [| done]. apply Hd in Hdj as [? _]. congruence.
    + unfold collect_ok. cbn. rewrite decide_True by done. split_and!; [done | |].
      * intros q ->%list_elem_of_singleton. rewrite decide_True by done. eauto.
      * exists [i]. split_and!; [apply NoDup_singleton | done | done |].
        intros q ->%list_elem_of_singleton. by rewrite decide_True.
  - by apply to_peers_packets.
  - intros k. destruct (record_keeps j c seq L PreAccepted 0 r1) as (_ & Hid' & Hg' & _).
    apply propose_tokens; [done | done | done | | | apply Hn | done]; fields_goal.
    + rewrite Hid'. apply Hn1.
    + rewrite Hg'. apply Hn1.
  - eapply see_local; [by apply propose_local | done | done | by rewrite Hds].
  - apply see_decided; [apply Hnl | by apply propose_decided].
Qed.

(** *** Counting answers *)

Lemma fast_quorum_enough (r : replica) : ep_replicas r = group → (quorum ≤ fast_quorum r)%nat.
Proof. intros Hg. unfold quorum, fast_quorum. rewrite Hg. lia. Qed.

Lemma slow_quorum_enough (r : replica) : ep_replicas r = group → (quorum ≤ slow_quorum r)%nat.
Proof. intros Hg. unfold quorum, slow_quorum. rewrite Hg. lia. Qed.

Definition count_ghost (j : Instance) (q : ReplicaId) (g : ghost) : ghost :=
  MkGhost (g_cmd g) (g_dec g) (g_local g)
    (λ k, if decide (k = j) then q :: g_counted g j else g_counted g k).

Lemma stepped_trans i g g1 p rest : extends i g g1 → stepped i g1 p rest → stepped i g p rest.
Proof.
  intros He (g' & He' & Hrest). exists g'. split; [by eapply extends_trans | done].
Qed.

Lemma count_tokens j q b seq deps to g l1 l2 k :
  tokens_ok g (l1 ++ (q, to, PreAcceptReply j b seq deps) :: l2) k →
  tokens_ok (count_ghost j q g) (l1 ++ l2) k.
Proof.
  intros Ht. pose proof Ht as [_ _ Hfr]. rewrite asked_app, asked_reply, <-asked_app in Hfr.
  eapply tokens_sub; [exact Ht | | done].
  rewrite !asked_app, !answering_app, asked_reply, answering_reply. cbn.
  destruct (decide (k = j)) as [->|Hk]; [rewrite decide_True by done | by rewrite decide_False].
  solve_submseteq.
Qed.

Lemma uncollect_count j q g i r :
  node_ok g i r → node_ok (count_ghost j q g) i (r <| ep_collects ::= delete j |>).
Proof.
  intros Hn. apply (node_weaken g); try done; [by apply uncollect_node | apply Hn | apply Hn |].
  intros k c. fields_goal. intros [Hne Hk]%lookup_delete_Some.
  split; [by apply (no_collect _ _ _ Hn k c) | cbn; by rewrite decide_False].
Qed.

(** The bookkeeping of a counted answer, before quorums are looked at. *)
Definition count_reply (seq : N) (deps : gset Instance) (c : Collect) : Collect :=
  let c := c <| co_replies ::= S |> in
  let c := if decide (seq = co_init_seq c ∧ deps = co_init_deps c)
           then c <| co_agreed ::= S |> else c in
  c <| co_union_seq ::= λ s, N.max s seq |> <| co_union_deps ::= λ d, d ∪ deps |>.

Lemma count_reply_keeps seq deps c :
  co_command (count_reply seq deps c) = co_command c ∧
  co_init_deps (count_reply seq deps c) = co_init_deps c ∧
  co_accepting (count_reply seq deps c) = co_accepting c ∧
  co_replies (count_reply seq deps c) = S (co_replies c) ∧
  co_union_deps (count_reply seq deps c) = co_union_deps c ∪ deps ∧
  (co_agreed (count_reply seq deps c) = co_agreed c ∨
   co_agreed (count_reply seq deps c) = S (co_agreed c) ∧ deps = co_init_deps c).
Proof.
  unfold count_reply. cbn zeta. fields_goal. case_decide as Hd; fields_goal; split_and!; try done; [| by left].
  right. by destruct Hd.
Qed.

Lemma count_collect_ok j q seq deps c g :
  collect_ok g j c → co_accepting c = false → g_local g q j = Some deps → q ∉ g_counted g j →
  collect_ok (count_ghost j q g) j (count_reply seq deps c).
Proof.
  intros Hok Hacc Hq Hnew.
  destruct (count_reply_keeps seq deps c) as (_ & Hinit & Hacc' & Hrep & Hun & Hag).
  unfold collect_ok in *. rewrite Hacc', Hacc in *. rewrite Hrep, Hun, Hinit. cbn.
  rewrite decide_True by done. destruct Hok as (Hlen & Hall & A & Hnd & Hsub & HlenA & HA).
  split_and!; [by rewrite <-Hlen | |].
  - intros p [->|Hp]%elem_of_cons; [exists deps; split; [done | apply union_subseteq_r] |].
    destruct (Hall p Hp) as (L & ? & ?). exists L. split; [done |]. by apply union_subseteq_l'.
  - destruct Hag as [->|[-> ->]].
    + exists A. split_and!; [done | | done | done]. intros x Hx. right. by apply Hsub.
    + exists (q :: A). split_and!.
      * constructor; [| done]. intros Hin. by apply Hnew, Hsub.
      * intros x [->|Hx]%elem_of_cons; [by left | right; by apply Hsub].
      * cbn. by rewrite HlenA.
      * intros x [->|Hx]%elem_of_cons; [done | by apply HA].
Qed.

Lemma counted_evidence g j c rest (n : nat) (agreed : bool) :
  tokens_ok g rest j → collect_ok g j c → co_accepting c = false → (quorum ≤ n)%nat →
  (n ≤ if agreed then co_agreed c else co_replies c)%nat →
  evidence g j (if agreed then co_init_deps c else co_union_deps c).
Proof.
  intros Ht Hok Hacc Hq Hn. unfold collect_ok in Hok. rewrite Hacc in Hok.
  destruct Hok as (Hlen & Hall & A & Hnd & Hsub & HlenA & HA).
  assert (g_counted g j ⊆ group) as Hgr.
  { intros x Hx. apply (tk_group _ _ _ Ht). elems. }
  assert (NoDup (g_counted g j)) as Hndc.
  { pose proof (tk_nodup _ _ _ Ht) as Hn'. apply NoDup_app in Hn' as (_ & _ & Hn').
    by apply NoDup_app in Hn' as (_ & _ & ?). }
  destruct agreed.
  - exists A. split_and!; [done | by etrans | lia |]. intros q HqA. exists (co_init_deps c).
    split; [by apply HA | done].
  - exists (g_counted g j). split_and!; [done | done | lia | done].
Qed.

Lemma on_preaccept_reply_counted j seq deps (r : replica) c0 :
  ep_collects r !! j = Some c0 → co_accepting c0 = false →
  on_preaccept_reply j seq deps r =
    let c := count_reply seq deps c0 in
    let r := r <| ep_collects ::= <[j := c]> |> in
    if decide (co_replies c < fast_quorum r)%nat then (r, [])
    else if decide (fast_quorum r ≤ co_agreed c)%nat then
      commit_as_leader j (co_command c) (co_init_seq c) (co_init_deps c) r
    else if decide (slow_quorum r ≤ co_replies c)%nat then
      let r := r <| ep_collects ::=
        <[j := c <| co_accepting := true |> <| co_accept_oks := 1%nat |>]> |> in
      let r := record j (co_command c) (co_union_seq c) (co_union_deps c) Accepted 0 r in
      (r, (λ p, (p, Accept j 0 (co_command c) (co_union_seq c) (co_union_deps c))) <$> epeers r)
    else (r, []).
Proof. intros Hc Ha. unfold on_preaccept_reply. by rewrite Hc, Ha. Qed.

Lemma answering_fresh g q i j b seq deps l1 l2 :
  tokens_ok g (l1 ++ (q, i, PreAcceptReply j b seq deps) :: l2) j → q ∉ g_counted g j.
Proof.
  intros [Hnd _ _] Hq. apply NoDup_app in Hnd as (_ & _ & Hnd). apply NoDup_app in Hnd as (_ & Hd & _).
  apply (Hd q); [| done]. rewrite answering_app, answering_reply, decide_True by done. elems.
Qed.

Lemma reply_stepped i g r q j b seq deps l1 l2 :
  let p := (q, i, PreAcceptReply j b seq deps) in
  (∀ k, tokens_ok g (l1 ++ p :: l2) k) → local_ok g → decided_ok g → packet_ok g p → node_ok g i r →
  stepped i g (on_preaccept_reply j seq deps r) (l1 ++ l2).
Proof.
  intros p Ht Hl Hd (Hq & Hji & Hkn) Hn. cbn in Hq, Hji.
  assert (∀ k, tokens_ok g (l1 ++ l2) k) as Ht' by (intros k; eapply tokens_drop, Ht).
  destruct (ep_collects r !! j) as [c0|] eqn:Hc0.
  2: { unfold on_preaccept_reply. rewrite Hc0. by apply stepped_silent. }
  destruct (co_accepting c0) eqn:Hacc.
  { unfold on_preaccept_reply. rewrite Hc0, Hacc. by apply stepped_silent. }
  rewrite (on_preaccept_reply_counted _ _ _ _ _ Hc0 Hacc).
  destruct (no_collect _ _ _ Hn j c0 Hc0) as (_ & Hnd & Hcmd & Hok).
  destruct (count_reply_keeps seq deps c0) as (Hcc & _ & Hca & _).
  set (c := count_reply seq deps c0) in *. set (g1 := count_ghost j q g).
  assert (collect_ok g1 j c) as Hok1 by (apply count_collect_ok; try done; eapply answering_fresh, Ht).
  assert (∀ k, tokens_ok g1 (l1 ++ l2) k) as Ht1 by (intros k; eapply count_tokens, Ht).
  assert (node_ok g1 i (r <| ep_collects ::= <[j := c]> |>)) as Hn1.
  { apply put_collect_node; [by apply uncollect_count | done | done | by rewrite Hcc | done]. }
  assert (g_cmd g1 !! j = Some (co_command c)) as Hcmd1 by by rewrite Hcc.
  set (r1 := r <| ep_collects ::= <[j := c]> |>) in *.
  apply (stepped_trans i g g1); [split; cbn; try done; intros k Hk; by rewrite decide_False by congruence |].
  cbn zeta. case_decide as Hf; [by apply stepped_silent |].
  case_decide as Hag; [| case_decide as Hs; [| by apply stepped_silent]].
  - apply commit_stepped; try done; [by apply uncollect_node |].
    apply (counted_evidence g1 j c (l1 ++ l2) (fast_quorum r1) true); [done | done | congruence | | done].
    apply fast_quorum_enough, Hn1.
  - set (c' := c <| co_accepting := true |> <| co_accept_oks := 1%nat |>).
    assert (evidence g1 j (co_union_deps c)) as Hev.
    { apply (counted_evidence g1 j c (l1 ++ l2) (slow_quorum r1) false); [done | done | congruence | | done].
      apply slow_quorum_enough, Hn1. }
    apply stepped_silent; [done.. | | | by apply to_peers_silent].
    + apply record_node; [| done | done | done].
      apply put_collect_node; [by apply uncollect_node | done | done | done | done].
    + by apply to_peers_packets.
Qed.

(** *** The other messages *)

Lemma accept_stepped i g r from j b c seq deps rest :
  (∀ k, tokens_ok g rest k) → local_ok g → decided_ok g → g_cmd g !! j = Some c → node_ok g i r →
  stepped i g (on_accept from j b c seq deps r) rest.
Proof.
  intros Ht Hl Hd Hc Hn. apply stepped_silent; [done.. | | |].
  - by apply record_node.
  - by repeat constructor.
  - by repeat constructor.
Qed.

Lemma accept_reply_stepped i g r j rest :
  (∀ k, tokens_ok g rest k) → local_ok g → decided_ok g → node_ok g i r →
  stepped i g (on_accept_reply j r) rest.
Proof.
  intros Ht Hl Hd Hn. unfold on_accept_reply.
  destruct (ep_collects r !! j) as [c|] eqn:Hc; [| by apply stepped_silent].
  destruct (co_accepting c) eqn:Hacc; [| by apply stepped_silent].
  destruct (no_collect _ _ _ Hn j c Hc) as (Hji & Hnd & Hcmd & Hok).
  assert (evidence g j (co_union_deps c)) as Hev by (unfold collect_ok in Hok; by rewrite Hacc in Hok).
  set (c' := c <| co_accept_oks ::= S |>).
  assert (node_ok g i (r <| ep_collects ::= <[j := c']> |>)) as Hn'.
  { apply put_collect_node; [by apply uncollect_node | done | done | done |].
    unfold collect_ok, c'. fields_goal. by rewrite Hacc. }
  cbn zeta. case_decide; [by apply stepped_silent |].
  apply commit_stepped; try done. by apply uncollect_node.
Qed.

Lemma commit_msg_stepped i g r j c seq deps rest :
  (∀ k, tokens_ok g rest k) → local_ok g → decided_ok g → g_dec g !! j = Some (c, seq, deps) →
  node_ok g i r → stepped i g (on_commit j c seq deps r) rest.
Proof.
  intros Ht Hl Hd Hj Hn. destruct (Hd _ _ _ _ Hj) as [Hc _]. apply stepped_silent; [done.. | | |].
  - apply execute_node. by apply record_node.
  - constructor.
  - constructor.
Qed.

Lemma message_stepped i g r from m l1 l2 :
  (∀ k, tokens_ok g (l1 ++ (from, i, m) :: l2) k) → local_ok g → decided_ok g →
  packet_ok g (from, i, m) → node_ok g i r →
  stepped i g (eon_message from m r) (l1 ++ l2).
Proof.
  intros Ht Hl Hd Hp Hn.
  assert (∀ k, tokens_ok g (l1 ++ l2) k) as Ht' by (intros k; eapply tokens_drop, Ht).
  destruct m; cbn [eon_message].
  - by apply preaccept_stepped.
  - by eapply reply_stepped.
  - by apply accept_stepped.
  - by apply accept_reply_stepped.
  - by apply commit_msg_stepped.
Qed.

(** ** Every run *)

Lemma init_ok : net_ok enet_init (MkGhost ∅ ∅ (λ _ _, None) (λ _, [])).
Proof.
  split; cbn; try done.
  - intros i r. unfold new_replica. fold group. case_decide as Hi; [| done]. intros [= <-].
    split; cbn; try done; try (intros j Hj; by rewrite dom_empty_L in Hj).
    + exists []. split.
      * apply NoDup_nil_2.
      * intros j. unfold status_of. cbn. by rewrite elem_of_nil, lookup_empty.
      * by intros ? ? ?%elem_of_nil.
      * done.
      * by intros ? ? ([] & ? & ? & ?).
  - intros j. split; [apply NoDup_nil_2 | by intros ? ?%elem_of_nil | by intros ? ?%elem_of_nil].
Qed.

Lemma step_ok s s' g : net_ok s g → estep s s' → ∃ g', net_ok s' g'.
Proof.
  intros Hok Hst. destruct Hst as [nodes flight i r c Hr | nodes l1 l2 from to m r Hr | nodes l1 l2 p].
  - eapply stepped_net; [exact Hok | done |]. destruct Hok as [Hn Hp Ht Hl Hd].
    apply propose_stepped; auto.
  - eapply stepped_net; [exact Hok | |].
    + intros q. cbn. elems.
    + destruct Hok as [Hn Hp Ht Hl Hd]. cbn in *. apply message_stepped; auto.
      rewrite Forall_forall in Hp. apply Hp. elems.
  - exists g. destruct Hok as [Hn Hp Ht Hl Hd]. split; cbn in *; try done.
    + apply Forall_app in Hp as [? ?%Forall_cons]. apply Forall_app. naive_solver.
    + intros j. eapply tokens_drop, Ht.
Qed.

Lemma reach_ok s : enet_reach s → ∃ g, net_ok s g.
Proof.
  revert s. refine (rtc_ind_r (λ s, ∃ g, net_ok s g) enet_init _ _).
  - eexists. apply init_ok.
  - intros s1 s2 _ Hst [g Hg]. by eapply step_ok.
Qed.

(** Either quorum of an odd group meets every other one. *)
Lemma quorum_majority :
  Nat.Odd (length group) → (1 < length group)%nat → (length group < 2 * quorum)%nat.
Proof.
  intros [f Hf] Hmany. unfold quorum.
  assert ((length group - 1) / 2 = f)%nat as ->.
  { replace (length group - 1)%nat with (f * 2)%nat by lia. by apply Nat.div_mul. }
  pose proof (Nat.div_mod (f + 1) 2 ltac:(lia)). pose proof (Nat.mod_upper_bound (f + 1) 2 ltac:(lia)).
  pose proof (Nat.div_mod (length group) 2 ltac:(lia)).
  pose proof (Nat.mod_upper_bound (length group) 2 ltac:(lia)). lia.
Qed.

(** Two quorums share a replica, which saw one instance after the other. *)
Lemma evidence_visible g i j Di Dj ci cj :
  (length group < 2 * quorum)%nat →
  local_ok g → evidence g i Di → evidence g j Dj → i ≠ j →
  g_cmd g !! i = Some ci → g_cmd g !! j = Some cj → conflict ci cj = true →
  j ∈ Di ∨ i ∈ Dj.
Proof.
  clear Hconflict Hsymm. intros Hmaj [_ Hl] (P & HndP & HP & HlenP & HeP) (Q & HndQ & HQ & HlenQ & HeQ) Hne Hci Hcj Hcf.
  destruct (decide (Exists (λ q, q ∈ Q) P)) as [(q & HqP & HqQ)%Exists_exists|Hno].
  - destruct (HeP q HqP) as (Li & HLi & HsubI). destruct (HeQ q HqQ) as (Lj & HLj & HsubJ).
    destruct (Hl q i j Li Lj ci cj HLi HLj Hne Hci Hcj Hcf); [left | right]; set_solver.
  - exfalso. assert (NoDup (P ++ Q)) as Hnd.
    { apply NoDup_app. split_and!; [done | | done]. intros q HqP HqQ. apply Hno, Exists_exists. eauto. }
    assert (P ++ Q ⊆ group) as Hsub by (intros q [?|?]%elem_of_app; auto).
    apply NoDup_submseteq, submseteq_length in Hsub; [| done]. rewrite length_app in Hsub. lia.
Qed.

End net.
