(* ===== verification/EpaxosSafety.v ===== *)
(** * What a group of EPaxos replicas guarantees

    The theorems about every run of the replicas of
    [crates/cs-consensus/src/epaxos.rs] over the network of [EpaxosNet]:
    agreement on the attributes of an instance, visibility of interfering
    instances to each other, one execution order for interfering commands,
    and convergence of the state machines. *)

From stdpp Require Import base numbers gmap sorting list.
From Stdlib Require Import Strings.Byte.
From S2P Require Import Prelude RaftTypes Sim Epaxos Tarjan EpaxosExec EpaxosOrder EpaxosNet.

Local Open Scope N_scope.
Local Open Scope crab_scope.

Section agreement.
Context {SM : Type} `{EpaxosStateMachine SM}.
Context (V : list ReplicaId) (sm0 : SM).

Lemma committed_status x : status_rank Committed ≤ status_rank x → x = Committed ∨ x = Executed.
Proof. destruct x; cbn; lia || tauto. Qed.

(** C9: agreement. Two replicas that have committed an instance, whenever each
    did, hold the same command, sequence number and dependencies for it. *)
Theorem epaxos_agreement s p q r r' i st st' :
  enet_reach V sm0 s → en_nodes s p = Some r → en_nodes s q = Some r' →
  ep_cmds r !! i = Some st → ep_cmds r' !! i = Some st' →
  status_rank Committed ≤ status_rank (is_status st) →
  status_rank Committed ≤ status_rank (is_status st') →
  is_command st = is_command st' ∧ is_seq st = is_seq st' ∧ is_deps st = is_deps st'.
Proof.
  intros Hs Hr Hr' Hst Hst' Hc%committed_status Hc'%committed_status.
  destruct (reach_ok V sm0 (λ _ _, false) ltac:(done) ltac:(done) s Hs) as [g Hg].
  pose proof (no_dec _ _ _ _ _ (ok_nodes _ _ _ _ _ Hg p r Hr) i st Hst Hc).
  pose proof (no_dec _ _ _ _ _ (ok_nodes _ _ _ _ _ Hg q r' Hr') i st' Hst' Hc'). by simplify_eq.
Qed.

End agreement.

(** ** Odd groups

    Interference is a symmetric relation on commands that does not depend on
    the state; the group has an odd number of members, more than one. *)

Section odd.
Context {SM : Type} `{EpaxosStateMachine SM}.
Context (V : list ReplicaId) (sm0 : SM) (conflict : bytes → bytes → bool).

Definition conflict_is : Prop :=
  (∀ (sm : SM) a b, interferes sm a b = conflict a b) ∧ (∀ a b, conflict a b = conflict b a).

Definition odd_group : Prop := Nat.Odd (length (group V)) ∧ (1 < length (group V))%nat.

Lemma odd_reach_ok s : conflict_is → enet_reach V sm0 s → ∃ g, net_ok V sm0 conflict s g.
Proof. intros [Hc Hs]. apply reach_ok; [| done]. intros sm a b. by rewrite Hc. Qed.

(** Interfering decided instances are linked. *)
Lemma decided_linked s g i j :
  odd_group → net_ok V sm0 conflict s g → i ≠ j →
  i ∈ dom (g_dec g) → j ∈ dom (g_dec g) →
  conflict (dec_cmd (g_dec g) i) (dec_cmd (g_dec g) j) = true → linked (g_dec g) i j.
Proof.
  intros [Hodd Hmany] Hg Hne [[[ci' qi] Di] Hi]%elem_of_dom [[[cj' qj] Dj] Hj]%elem_of_dom.
  unfold dec_cmd. rewrite Hi, Hj. cbn. intros Hcf.
  destruct (ok_decided _ _ _ _ _ Hg _ _ _ _ Hi) as [Hci Hei].
  destruct (ok_decided _ _ _ _ _ Hg _ _ _ _ Hj) as [Hcj Hej].
  unfold linked, depends, dec_deps. rewrite Hi, Hj. cbn.
  eapply evidence_visible; [by apply quorum_majority | apply Hg | done..].
Qed.

(** Interfering commands see each other. Of two committed instances with
    interfering commands, one is a dependency of the other. *)
Theorem interference_visible s p q r r' i j st st' :
  conflict_is → odd_group → enet_reach V sm0 s →
  en_nodes s p = Some r → en_nodes s q = Some r' → i ≠ j →
  ep_cmds r !! i = Some st → ep_cmds r' !! j = Some st' →
  status_rank Committed ≤ status_rank (is_status st) →
  status_rank Committed ≤ status_rank (is_status st') →
  conflict (is_command st) (is_command st') = true →
  j ∈ is_deps st ∨ i ∈ is_deps st'.
Proof.
  intros Hc Hodd Hs Hr Hr' Hne Hst Hst' Hi%committed_status Hj%committed_status Hcf.
  destruct (odd_reach_ok s Hc Hs) as [g Hg].
  pose proof (no_dec _ _ _ _ _ (ok_nodes _ _ _ _ _ Hg p r Hr) i st Hst Hi) as Hdi.
  pose proof (no_dec _ _ _ _ _ (ok_nodes _ _ _ _ _ Hg q r' Hr') j st' Hst' Hj) as Hdj.
  assert (linked (g_dec g) i j) as Hl.
  { eapply decided_linked; try done; [by eapply elem_of_dom_2.. |]. unfold dec_cmd. by rewrite Hdi, Hdj. }
  unfold linked, depends, dec_deps in Hl. by rewrite Hdi, Hdj in Hl.
Qed.

(** The state machine after the commands of some instances of a replica. *)
Definition replay_log (r : EpaxosReplica SM) (l : list Instance) : SM :=
  foldl (run_instance (ep_cmds r)) sm0 l.

Lemma log_replay dec l (r : EpaxosReplica SM) :
  matches dec r → executed_log dec sm0 l r → ep_sm r = replay_log r l.
Proof.
  intros Hm Hl. rewrite (el_sm _ _ _ _ Hl). unfold run_decided, replay_log.
  assert (∀ i, i ∈ l → dec_cmd dec i = from_option is_command [] (ep_cmds r !! i)) as Hc.
  { intros i Hi. apply (el_elem _ _ _ _ Hl) in Hi.
    destruct (matches_committed dec r i Hm (or_intror Hi)) as (st & -> & _ & _ & _ & ->). done. }
  clear Hl. generalize sm0. induction l as [|i l IH]; intros sm; [done |]. cbn.
  rewrite IH by (intros; apply Hc; by right). f_equal. unfold run_instance. by rewrite <-Hc by by left.
Qed.

Lemma executed_decided s g p r i :
  net_ok V sm0 conflict s g → en_nodes s p = Some r → status_of r i = Some Executed →
  i ∈ dom (g_dec g) ∧ dec_cmd (g_dec g) i = from_option is_command [] (ep_cmds r !! i).
Proof.
  intros Hg Hr Hi. pose proof (no_dec _ _ _ _ _ (ok_nodes _ _ _ _ _ Hg p r Hr)) as Hm.
  destruct (matches_committed _ r i Hm (or_intror Hi)) as (st & Hst & Hdec & _ & _ & ->).
  rewrite Hst. split; [by eapply elem_of_dom_2 | done].
Qed.

Lemma net_logs s g :
  net_ok V sm0 conflict s g →
  ∃ logs : ReplicaId → list Instance, ∀ p r, en_nodes s p = Some r →
    executed_log (g_dec g) sm0 (logs p) r.
Proof.
  intros Hg.
  assert (∀ ids : list ReplicaId, ∃ logs : ReplicaId → list Instance,
    ∀ p r, p ∈ ids → en_nodes s p = Some r → executed_log (g_dec g) sm0 (logs p) r) as Hids.
  { induction ids as [|i ids [logs IH]]; [exists (λ _, []); by intros ? ? ?%elem_of_nil |].
    destruct (en_nodes s i) as [ri|] eqn:Hi.
    - destruct (no_log _ _ _ _ _ (ok_nodes _ _ _ _ _ Hg i ri Hi)) as [l Hl].
      exists (λ p, if decide (p = i) then l else logs p). intros p r Hp Hr.
      case_decide as Hpi; [subst p; by simplify_eq |]. apply IH; [| done].
      by apply elem_of_cons in Hp as [?|?].
    - exists logs. intros p r [->|Hp]%elem_of_cons Hr; [congruence | by apply IH]. }
  destruct (Hids (group V)) as [logs Hlogs]. exists logs. intros p r Hr.
  apply Hlogs; [| done]. apply (no_member _ _ _ _ _ (ok_nodes _ _ _ _ _ Hg p r Hr)).
Qed.

(** C8: one order. In a group of an odd number of replicas, more than one, whose
    state machine takes the same symmetric relation of commands to be
    interference in every state: every replica's state is the result of
    executing, once each and in some order, the instances it has marked
    executed, and any two replicas execute interfering commands in the same
    order. *)
Theorem epaxos_execution_order s :
  conflict_is → odd_group → enet_reach V sm0 s →
  ∃ logs : ReplicaId → list Instance,
    (∀ p r, en_nodes s p = Some r →
       NoDup (logs p) ∧ (∀ i, i ∈ logs p ↔ status_of r i = Some Executed) ∧
       ep_sm r = replay_log r (logs p)) ∧
    (∀ p q r r' i j st st', en_nodes s p = Some r → en_nodes s q = Some r' →
       ep_cmds r !! i = Some st → ep_cmds r !! j = Some st' →
       conflict (is_command st) (is_command st') = true →
       i ∈ logs q → j ∈ logs q → before (logs p) i j → before (logs q) i j).
Proof.
  intros Hc Hodd Hs. destruct (odd_reach_ok s Hc Hs) as [g Hg].
  destruct (net_logs s g Hg) as [logs Hlogs].
  exists logs. split.
  - intros p r Hr. pose proof (Hlogs p r Hr) as Hl.
    split_and!; [apply Hl | apply Hl |]. apply log_replay with (g_dec g); [| done].
    apply (ok_nodes _ _ _ _ _ Hg p r Hr).
  - intros p q r r' i j st st' Hr Hr' Hi Hj Hcf Hiq Hjq Hb.
    pose proof (Hlogs p r Hr) as Hlp. pose proof (Hlogs q r' Hr') as Hlq.
    eapply linked_order_agrees; [exact Hlp | exact Hlq | | done | done | done].
    pose proof (before_elem _ _ _ Hb) as [Hip Hjp].
    apply (el_elem _ _ _ _ Hlp) in Hip, Hjp.
    destruct (executed_decided s g p r i Hg Hr Hip) as [Hdi Hci].
    destruct (executed_decided s g p r j Hg Hr Hjp) as [Hdj Hcj].
    eapply decided_linked; try done.
    + intros ->. exact (before_NoDup _ _ _ (el_nodup _ _ _ _ Hlp) Hb Hb).
    + by rewrite Hci, Hcj, Hi, Hj.
Qed.

(** C7: convergence. When commands that do not interfere commute, two replicas
    that have executed the same instances have state machines in the same
    state, however differently their batches were cut. *)
Theorem epaxos_convergence s p q r r' :
  conflict_is → odd_group →
  (∀ (sm : SM) a b, conflict a b = false →
     (execute (execute sm a).1 b).1 = (execute (execute sm b).1 a).1) →
  enet_reach V sm0 s → en_nodes s p = Some r → en_nodes s q = Some r' →
  (∀ i, status_of r i = Some Executed ↔ status_of r' i = Some Executed) →
  ep_sm r = ep_sm r'.
Proof.
  intros Hc Hodd Hcomm Hs Hr Hr' Hsame. destruct (odd_reach_ok s Hc Hs) as [g Hg].
  destruct (no_log _ _ _ _ _ (ok_nodes _ _ _ _ _ Hg p r Hr)) as [l Hl].
  destruct (no_log _ _ _ _ _ (ok_nodes _ _ _ _ _ Hg q r' Hr')) as [l' Hl'].
  rewrite (el_sm _ _ _ _ Hl), (el_sm _ _ _ _ Hl'). unfold run_decided.
  assert (∀ i, i ∈ l ↔ i ∈ l') as Hel.
  { intros i. by rewrite (el_elem _ _ _ _ Hl), (el_elem _ _ _ _ Hl'). }
  apply (fold_swaps _ (λ a b, conflict (dec_cmd (g_dec g) a) (dec_cmd (g_dec g) b) = true)).
  - apply Hl.
  - apply Hl'.
  - by apply NoDup_Permutation; [apply Hl | apply Hl' |].
  - intros a b Hb Hcf. pose proof (before_elem _ _ _ Hb) as [Ha Hb'].
    eapply linked_order_agrees; [exact Hl | exact Hl' | | by apply Hel | by apply Hel | done].
    apply (el_elem _ _ _ _ Hl) in Ha, Hb'.
    destruct (executed_decided s g p r a Hg Hr Ha) as [Hda _].
    destruct (executed_decided s g p r b Hg Hr Hb') as [Hdb _].
    eapply decided_linked; try done. intros ->.
    exact (before_NoDup _ _ _ (el_nodup _ _ _ _ Hl) Hb Hb).
  - intros a b sm _ _ _ Hcf. apply Hcomm. by apply not_true_is_false.
Qed.

End odd.

(** ** A concrete group

    Three replicas of a key-value map; a command is a key followed by the value
    to store, and two commands interfere when their keys agree. *)

Definition kv_map : Type := gmap N bytes.

Definition same_key (a b : bytes) : bool :=
  match a, b with x :: _, y :: _ => Byte.eqb x y | _, _ => false end.

#[export] Instance kv_map_machine : EpaxosStateMachine kv_map := {|
  interferes _ := same_key;
  execute sm c := (match c with k :: v => <[Byte.to_N k := v]> sm | [] => sm end, []);
|}.

Inductive eaction := EPropose (i : ReplicaId) (c : bytes) | EDeliver (n : nat) | EDrop (n : nat).

Definition eexec {SM} `{EpaxosStateMachine SM} (a : eaction) (s : enet (SM := SM)) : enet (SM := SM) :=
  match a with
  | EPropose i c =>
      match en_nodes s i with
      | Some r => efinish i (epropose c r) (en_nodes s) (en_flight s)
      | None => s
      end
  | EDeliver n =>
      match en_flight s !! n with
      | Some (from, to, m) =>
          match en_nodes s to with
          | Some r => efinish to (eon_message from m r) (en_nodes s)
                        (take n (en_flight s) ++ drop (S n) (en_flight s))
          | None => s
          end
      | None => s
      end
  | EDrop n =>
      match en_flight s !! n with
      | Some _ => MkEnet (en_nodes s) (take n (en_flight s) ++ drop (S n) (en_flight s))
      | None => s
      end
  end.

Lemma eexec_steps {SM} `{EpaxosStateMachine SM} (l : list eaction) (s s' : enet (SM := SM)) :
  rtc estep s s' → rtc estep s (foldl (λ s a, eexec a s) s' l).
Proof.
  revert s'. induction l as [|a l IH]; intros s' Hs; [done |]. cbn. apply IH.
  etrans; [exact Hs |]. destruct s' as [nodes flight]. destruct a as [i c|n|n]; cbn.
  - destruct (nodes i) eqn:Hi; [by apply rtc_once; constructor | done].
  - destruct (flight !! n) as [[[from to] m]|] eqn:Hn; [| done].
    destruct (nodes to) eqn:Hto; [| done]. apply rtc_once.
    rewrite <-(take_drop_middle _ _ _ Hn) at 1. by constructor.
  - destruct (flight !! n) as [p|] eqn:Hn; [| done]. apply rtc_once.
    rewrite <-(take_drop_middle _ _ _ Hn) at 1. constructor.
Qed.

(** Two interfering commands are proposed at once at replicas [0] and [1]. *)
Definition kv_schedule : list eaction :=
  [EPropose 0 [x61; x01]; EPropose 1 [x61; x02]; EPropose 2 [x62; x03]] ++ replicate 40 (EDeliver 0).

Notation kv_run := (foldl (λ s a, eexec a s) (enet_init [0; 1; 2] (∅ : kv_map)) kv_schedule).

Lemma kv_run_reach : enet_reach [0; 1; 2] (∅ : kv_map) kv_run.
Proof. apply eexec_steps. done. Qed.

Lemma kv_odd : odd_group [0; 1; 2].
Proof. split; [by exists 1%nat | vm_compute; lia]. Qed.

Lemma kv_conflict : conflict_is (SM := kv_map) same_key.
Proof.
  split; [done |]. intros [|a ?] [|b ?]; try done. cbn. destruct (Byte.eqb a b) eqn:Hab.
  - apply Byte.byte_dec_bl in Hab as ->. symmetry. by apply Byte.byte_dec_lb.
  - destruct (Byte.eqb b a) eqn:Hba; [| done]. apply Byte.byte_dec_bl in Hba as ->.
    by rewrite Byte.byte_dec_lb in Hab.
Qed.

Lemma kv_commutes (sm : kv_map) a b :
  same_key a b = false → (execute (execute sm a).1 b).1 = (execute (execute sm b).1 a).1.
Proof.
  destruct a as [|x a], b as [|y b]; try done. cbn. intros Hxy. apply insert_insert_ne.
  intros Heq. apply (f_equal Byte.of_N) in Heq. rewrite !Byte.of_to_N in Heq.
  injection Heq as ->. by rewrite Byte.byte_dec_lb in Hxy.
Qed.

(** What a replica has executed. *)
Definition executed_set {SM} (r : EpaxosReplica SM) : gset Instance :=
  dom (filter (λ p, is_status p.2 = Executed) (ep_cmds r)).

Lemma elem_of_executed_set {SM} (r : EpaxosReplica SM) i :
  i ∈ executed_set r ↔ status_of r i = Some Executed.
Proof.
  unfold executed_set, status_of. rewrite elem_of_dom. unfold is_Some.
  setoid_rewrite map_lookup_filter_Some. rewrite fmap_Some. cbn. naive_solver.
Qed.

(** The instance of replica [i]'s only proposal, and what replica [p] holds of it. *)
Definition kv_inst (i : ReplicaId) : Instance := MkInstance i 0.

Lemma kv_node p (P : EpaxosReplica kv_map → Prop) :
  match en_nodes kv_run p with Some r => P r | None => False end →
  ∃ r, en_nodes kv_run p = Some r ∧ P r.
Proof. destruct (en_nodes kv_run p) as [r|]; [by exists r | done]. Qed.

Lemma epaxos_agreement_witness :
  ∃ r r' st st',
    en_nodes kv_run 0 = Some r ∧ en_nodes kv_run 1 = Some r' ∧
    ep_cmds r !! kv_inst 0 = Some st ∧ ep_cmds r' !! kv_inst 0 = Some st' ∧
    is_command st = is_command st' ∧ is_seq st = is_seq st' ∧ is_deps st = is_deps st'.
Proof.
  destruct (kv_node 0 (λ r, is_status <$> ep_cmds r !! kv_inst 0 = Some Executed)) as (r & Hr & Hst);
    [vm_compute; reflexivity |].
  destruct (kv_node 1 (λ r, is_status <$> ep_cmds r !! kv_inst 0 = Some Executed)) as (r' & Hr' & Hst');
    [vm_compute; reflexivity |].
  apply fmap_Some in Hst as (st & Hst & Hs), Hst' as (st' & Hst' & Hs').
  exists r, r', st, st'. do 4 (split; [done |]).
  apply (epaxos_agreement [0; 1; 2] ∅ kv_run 0 1 r r' (kv_inst 0) st st' kv_run_reach Hr Hr' Hst Hst');
    [by rewrite <-Hs | by rewrite <-Hs'].
Defined.

Lemma interference_visible_witness :
  ∃ r r' st st',
    en_nodes kv_run 0 = Some r ∧ en_nodes kv_run 2 = Some r' ∧
    ep_cmds r !! kv_inst 0 = Some st ∧ ep_cmds r' !! kv_inst 1 = Some st' ∧
    (kv_inst 1 ∈ is_deps st ∨ kv_inst 0 ∈ is_deps st').
Proof.
  destruct (kv_node 0 (λ r, (λ st, (is_status st, is_command st)) <$> ep_cmds r !! kv_inst 0 =
    Some (Executed, [x61; x01]))) as (r & Hr & Hst); [vm_compute; reflexivity |].
  destruct (kv_node 2 (λ r, (λ st, (is_status st, is_command st)) <$> ep_cmds r !! kv_inst 1 =
    Some (Executed, [x61; x02]))) as (r' & Hr' & Hst'); [vm_compute; reflexivity |].
  apply fmap_Some in Hst as (st & Hst & [= Hs Hc]), Hst' as (st' & Hst' & [= Hs' Hc']).
  exists r, r', st, st'. do 4 (split; [done |]).
  apply (interference_visible [0; 1; 2] ∅ same_key kv_run 0 2 r r' (kv_inst 0) (kv_inst 1) st st'
    kv_conflict kv_odd kv_run_reach Hr Hr'); [done | done | done | | |].
  - by rewrite <-Hs.
  - by rewrite <-Hs'.
  - by rewrite <-Hc, <-Hc'.
Defined.

Lemma epaxos_execution_order_witness :
  ∃ logs : ReplicaId → list Instance,
    ∀ p r, en_nodes kv_run p = Some r → NoDup (logs p) ∧
      (∀ i, i ∈ logs p ↔ status_of r i = Some Executed) ∧ ep_sm r = replay_log ∅ r (logs p).
Proof.
  destruct (epaxos_execution_order [0; 1; 2] ∅ same_key kv_run kv_conflict kv_odd kv_run_reach)
    as (logs & Hlogs & _).
  by exists logs.
Defined.

Lemma epaxos_convergence_witness :
  ∃ r r', en_nodes kv_run 0 = Some r ∧ en_nodes kv_run 2 = Some r' ∧
    kv_inst 1 ∈ executed_set r ∧ ep_sm r = ep_sm r'.
Proof.
  set (all := {[kv_inst 0; kv_inst 1; kv_inst 2]} : gset Instance).
  destruct (kv_node 0 (λ r, executed_set r = all)) as (r & Hr & Hex); [vm_compute; reflexivity |].
  destruct (kv_node 2 (λ r, executed_set r = all)) as (r' & Hr' & Hex'); [vm_compute; reflexivity |].
  exists r, r'. do 2 (split; [done |]). split; [rewrite Hex; set_solver |].
  apply (epaxos_convergence [0; 1; 2] ∅ same_key kv_run 0 2 r r' kv_conflict kv_odd kv_commutes
    kv_run_reach Hr Hr').
  intros i. by rewrite <-!elem_of_executed_set, Hex, Hex'.
Defined.
