(* ===== verification/Codec.v ===== *)
(** * The wire codec

    [crates/cs-consensus/src/codec.rs]: the binary encoding of Raft and EPaxos
    messages and of log entries, and the cursor that decodes it.

    A decoder either returns a value, fails with one of the code's
    [DecodeError]s, or panics: [Vec::with_capacity] panics when the requested
    capacity exceeds [isize::MAX] bytes, and the counts it is given come from
    the frame.  Running out of memory below that bound is not modelled.
    [self.pos + n] wraps, as in a release build. *)

From stdpp Require Import base numbers gmap sorting list.
From Stdlib Require Import Strings.Byte.
From S2P Require Import Prelude RaftTypes Epaxos.

Local Open Scope N_scope.

(** ** Bytes *)

(** [u64::to_be_bytes], for [k] bytes. *)
Fixpoint be_bytes (k : nat) (v : N) : bytes :=
  match k with
  | O => []
  | S k => be_bytes k (v / 256) ++ [byte_of v]
  end.

(** [u64::from_be_bytes]. *)
Definition from_be_bytes (l : bytes) : N := foldl (λ a b, a * 256 + Byte.to_N b) 0 l.

(** ** Writers *)

Definition put_u8 (v : N) : bytes := [byte_of v].

Definition put_u64 (v : N) : bytes := be_bytes 8 v.

Definition put_bytes (b : bytes) : bytes := put_u64 (N.of_nat (length b)) ++ b.

Definition put_ids (ids : list ReplicaId) : bytes :=
  put_u64 (N.of_nat (length ids)) ++ mjoin (put_u64 <$> ids).

Definition put_conf (c : ConfState) : bytes :=
  match c with
  | Simple v => put_u8 0 ++ put_ids v
  | Joint old new => put_u8 1 ++ put_ids old ++ put_ids new
  end.

Definition put_entry (e : Entry) : bytes :=
  put_u64 (e_term e) ++ put_u64 (e_index e) ++
  match e_payload e with
  | Command c => put_u8 0 ++ put_bytes c
  | Noop => put_u8 1
  | PConfig c => put_u8 2 ++ put_conf c
  end.

(** [b as u8]. *)
Definition put_bool (b : bool) : bytes := put_u8 (if b then 1 else 0).

Definition encode (m : Message) : bytes :=
  match m with
  | RequestVote term candidate last_log_index last_log_term =>
      put_u8 0 ++ put_u64 term ++ put_u64 candidate ++ put_u64 last_log_index ++
      put_u64 last_log_term
  | RequestVoteResp term granted => put_u8 1 ++ put_u64 term ++ put_bool granted
  | AppendEntries term leader prev_log_index prev_log_term es leader_commit read_seq =>
      put_u8 2 ++ put_u64 term ++ put_u64 leader ++ put_u64 prev_log_index ++
      put_u64 prev_log_term ++ put_u64 (N.of_nat (length es)) ++ mjoin (put_entry <$> es) ++
      put_u64 leader_commit ++ put_u64 read_seq
  | AppendEntriesResp term success match_index conflict_index read_seq =>
      put_u8 3 ++ put_u64 term ++ put_bool success ++ put_u64 match_index ++
      put_u64 conflict_index ++ put_u64 read_seq
  | InstallSnapshot term leader last_included_index last_included_term conf data read_seq =>
      put_u8 4 ++ put_u64 term ++ put_u64 leader ++ put_u64 last_included_index ++
      put_u64 last_included_term ++ put_conf conf ++ put_bytes data ++ put_u64 read_seq
  end.

Definition encode_entry (e : Entry) : bytes := put_entry e.

(** ** The cursor *)

(** The messages of [DecodeError]. *)
Inductive DecodeError :=
  | EofU8 | EofU64 | EofBytes | BadConfTag | BadPayloadTag | BadMessageTag | BadEpaxosTag.

Inductive res (A : Type) := Ok (a : A) | Err (e : DecodeError) | Panics.
Arguments Ok {A}.
Arguments Err {A}.
Arguments Panics {A}.

(** A method of [Cursor]: from the buffer and the position to a value and the
    new position. *)
Definition dec (A : Type) : Type := bytes → N → res (A * N).

#[export] Instance dec_ret : MRet dec := λ A a _ pos, Ok (a, pos).

#[export] Instance dec_bind : MBind dec := λ A B f m buf pos,
  match m buf pos with
  | Ok (a, pos) => f a buf pos
  | Err e => Err e
  | Panics => Panics
  end.

Definition fail {A} (e : DecodeError) : dec A := λ _ _, Err e.

(** [buf.get(a..b)]. *)
Definition get_range (buf : bytes) (a b : N) : option bytes :=
  if decide (a ≤ b ∧ b ≤ N.of_nat (length buf))
  then Some (take (N.to_nat (b - a)) (drop (N.to_nat a) buf)) else None.

Definition get_u8 : dec N := λ buf pos,
  match buf !! N.to_nat pos with
  | Some b => Ok (Byte.to_N b, pos + 1)
  | None => Err EofU8
  end.

Definition get_u64 : dec N := λ buf pos,
  match get_range buf pos (pos + 8) with
  | Some s => Ok (from_be_bytes s, pos + 8)
  | None => Err EofU64
  end.

(** The tail of [Cursor::bytes], once the length is read. *)
Definition get_slice (n : N) : dec bytes := λ buf pos,
  let end_ := wrap64 (pos + n) in
  match get_range buf pos end_ with
  | Some s => Ok (s, end_)
  | None => Err EofBytes
  end.

Definition get_bytes : dec bytes := n ← get_u64; get_slice n.

Definition isize_max : N := 2 ^ 63 - 1.

(** [Vec::with_capacity(n)] for elements of [size] bytes. *)
Definition with_capacity (n size : N) : dec unit := λ _ pos,
  if decide (n * size ≤ isize_max) then Ok (tt, pos) else Panics.

(** [for _ in 0..n], collecting what [item] reads; the loop ends with the
    first error, so it turns at most once more than there are bytes
    ([repeat_adequate]). *)
Fixpoint repeat_fuel {A} (fuel : nat) (item : dec A) (n : N) : dec (list A) :=
  match fuel with
  | O => λ _ pos, if decide (n = 0) then Ok ([], pos) else Panics
  | S fuel =>
      if decide (n = 0) then mret []
      else x ← item; xs ← repeat_fuel fuel item (n - 1); mret (x :: xs)
  end.

Definition repeat {A} (item : dec A) (n : N) : dec (list A) := λ buf pos,
  repeat_fuel (S (length buf)) item n buf pos.

(** The size of an [Entry] in memory is the compiler's choice; it holds two
    [u64]s and a payload. *)
Class Layout := { size_of_Entry : N; size_of_Entry_fields : 16 ≤ size_of_Entry }.

Section cursor.
Context `{Layout}.

Definition get_ids : dec (list ReplicaId) :=
  n ← get_u64; _ ← with_capacity n 8; repeat get_u64 n.

Definition get_conf : dec ConfState :=
  tag ← get_u8;
  match tag with
  | 0 => v ← get_ids; mret (Simple v)
  | 1 => old ← get_ids; new ← get_ids; mret (Joint old new)
  | _ => fail BadConfTag
  end.

Definition get_payload : dec EntryPayload :=
  tag ← get_u8;
  match tag with
  | 0 => c ← get_bytes; mret (Command c)
  | 1 => mret Noop
  | 2 => c ← get_conf; mret (PConfig c)
  | _ => fail BadPayloadTag
  end.

Definition get_entry : dec Entry :=
  term ← get_u64; index ← get_u64; payload ← get_payload; mret (MkEntry term index payload).

Definition get_bool : dec bool := b ← get_u8; mret (bool_decide (b ≠ 0)).

Definition get_message : dec Message :=
  tag ← get_u8;
  match tag with
  | 0 =>
      term ← get_u64; candidate ← get_u64; last_log_index ← get_u64; last_log_term ← get_u64;
      mret (RequestVote term candidate last_log_index last_log_term)
  | 1 => term ← get_u64; granted ← get_bool; mret (RequestVoteResp term granted)
  | 2 =>
      term ← get_u64; leader ← get_u64; prev_log_index ← get_u64; prev_log_term ← get_u64;
      n ← get_u64; _ ← with_capacity n size_of_Entry; es ← repeat get_entry n;
      leader_commit ← get_u64; read_seq ← get_u64;
      mret (AppendEntries term leader prev_log_index prev_log_term es leader_commit read_seq)
  | 3 =>
      term ← get_u64; success ← get_bool; match_index ← get_u64; conflict_index ← get_u64;
      read_seq ← get_u64;
      mret (AppendEntriesResp term success match_index conflict_index read_seq)
  | 4 =>
      term ← get_u64; leader ← get_u64; last_included_index ← get_u64;
      last_included_term ← get_u64; conf ← get_conf; data ← get_bytes; read_seq ← get_u64;
      mret (InstallSnapshot term leader last_included_index last_included_term conf data read_seq)
  | _ => fail BadMessageTag
  end.

(** Running a decoder on a whole buffer; what follows the value is ignored. *)
Definition run_dec {A} (d : dec A) (buf : bytes) : res A :=
  match d buf 0 with Ok (a, _) => Ok a | Err e => Err e | Panics => Panics end.

Definition decode (buf : bytes) : res Message := run_dec get_message buf.

Definition decode_entry (buf : bytes) : res Entry := run_dec get_entry buf.

End cursor.

(** ** EPaxos *)

Definition put_instance (i : Instance) : bytes :=
  put_u64 (inst_replica i) ++ put_u64 (inst_slot i).

Definition put_inst_set (deps : gset Instance) : bytes :=
  put_u64 (N.of_nat (size deps)) ++ mjoin (put_instance <$> btree_elements deps).

Definition get_instance : dec Instance :=
  replica ← get_u64; slot ← get_u64; mret (MkInstance replica slot).

Definition get_inst_set : dec (gset Instance) :=
  n ← get_u64; l ← repeat get_instance n; mret (list_to_set l).

Definition encode_epaxos (m : EMessage) : bytes :=
  match m with
  | PreAccept instance ballot command seq deps =>
      put_u8 0 ++ put_instance instance ++ put_u64 ballot ++ put_bytes command ++
      put_u64 seq ++ put_inst_set deps
  | PreAcceptReply instance ballot seq deps =>
      put_u8 1 ++ put_instance instance ++ put_u64 ballot ++ put_u64 seq ++ put_inst_set deps
  | Accept instance ballot command seq deps =>
      put_u8 2 ++ put_instance instance ++ put_u64 ballot ++ put_bytes command ++
      put_u64 seq ++ put_inst_set deps
  | AcceptReply instance ballot => put_u8 3 ++ put_instance instance ++ put_u64 ballot
  | Commit instance command seq deps =>
      put_u8 4 ++ put_instance instance ++ put_bytes command ++ put_u64 seq ++ put_inst_set deps
  end.

Definition get_epaxos : dec EMessage :=
  tag ← get_u8;
  match tag with
  | 0 =>
      instance ← get_instance; ballot ← get_u64; command ← get_bytes; seq ← get_u64;
      deps ← get_inst_set; mret (PreAccept instance ballot command seq deps)
  | 1 =>
      instance ← get_instance; ballot ← get_u64; seq ← get_u64; deps ← get_inst_set;
      mret (PreAcceptReply instance ballot seq deps)
  | 2 =>
      instance ← get_instance; ballot ← get_u64; command ← get_bytes; seq ← get_u64;
      deps ← get_inst_set; mret (Accept instance ballot command seq deps)
  | 3 => instance ← get_instance; ballot ← get_u64; mret (AcceptReply instance ballot)
  | 4 =>
      instance ← get_instance; command ← get_bytes; seq ← get_u64; deps ← get_inst_set;
      mret (Commit instance command seq deps)
  | _ => fail BadEpaxosTag
  end.

Definition decode_epaxos (buf : bytes) : res EMessage := run_dec get_epaxos buf.

(** ** Byte lemmas *)

Lemma length_be_bytes k v : length (be_bytes k v) = k.
Proof. revert v. induction k as [|k IH]; intros v; cbn; [done |]. rewrite length_app, IH. cbn. lia. Qed.

Lemma from_be_snoc l b : from_be_bytes (l ++ [b]) = from_be_bytes l * 256 + Byte.to_N b.
Proof. unfold from_be_bytes. by rewrite foldl_app. Qed.

Lemma pow256_S k : 256 ^ N.of_nat (S k) = 256 * 256 ^ N.of_nat k.
Proof. rewrite Nat2N.inj_succ, N.pow_succ_r'. done. Qed.

Lemma from_be_be_bytes k v : from_be_bytes (be_bytes k v) = v mod 256 ^ N.of_nat k.
Proof.
  revert v. induction k as [|k IH]; intros v; cbn [be_bytes].
  - cbn. by rewrite N.mod_1_r.
  - rewrite from_be_snoc, IH, byte_of_spec, pow256_S.
    rewrite N.Div0.mod_mul_r. lia.
Qed.

Lemma from_be_bound l : from_be_bytes l < 256 ^ N.of_nat (length l).
Proof.
  induction l as [|b l IH] using rev_ind; [by cbn |].
  rewrite from_be_snoc, length_app. cbn [length]. rewrite Nat.add_1_r, pow256_S.
  pose proof (Byte.to_N_bounded b). nia.
Qed.

(** ** Reading back what was written *)

(** A buffer that exists in memory. *)
Definition fits (buf : bytes) : Prop := N.of_nat (length buf) ≤ isize_max.

(** [d] reads [a] from the bytes [w], whatever is around them. *)
Definition reads {A} (d : dec A) (w : bytes) (a : A) : Prop :=
  ∀ pre post, fits (pre ++ w ++ post) →
    d (pre ++ w ++ post) (N.of_nat (length pre)) = Ok (a, N.of_nat (length (pre ++ w))).

Definition u64 (v : N) : Prop := v < 2 ^ 64.

Lemma fits_u64 (pre w post : bytes) n :
  fits (pre ++ w ++ post) → (n ≤ length (pre ++ w ++ post))%nat → u64 (N.of_nat n).
Proof. unfold fits, u64, isize_max. lia. Qed.

Lemma reads_ret {A} (a : A) : reads (mret a) [] a.
Proof. intros pre post _. unfold mret, dec_ret. by rewrite app_nil_r. Qed.

Lemma reads_bind {A B} (m : dec A) (f : A → dec B) w1 w2 a b :
  reads m w1 a → reads (f a) w2 b → reads (m ≫= f) (w1 ++ w2) b.
Proof.
  intros Hm Hf pre post Hfit. unfold mbind, dec_bind.
  rewrite <-app_assoc in *. rewrite Hm by done.
  specialize (Hf (pre ++ w1) post). rewrite <-!app_assoc in Hf.
  by rewrite Hf.
Qed.

(** The last read of a sequence, whose value is returned. *)
Lemma reads_end {A B} (m : dec A) (f : A → dec B) w a b :
  reads m w a → reads (f a) [] b → reads (m ≫= f) w b.
Proof. intros Hm Hf. rewrite <-(app_nil_r w). by eapply reads_bind. Qed.

Lemma reads_u8 v : v < 256 → reads get_u8 (put_u8 v) v.
Proof.
  intros Hv pre post _. unfold get_u8. rewrite Nat2N.id, lookup_app_r by lia.
  rewrite Nat.sub_diag. cbn. rewrite byte_of_spec, N.mod_small by done.
  rewrite length_app. cbn. do 2 f_equal. lia.
Qed.

Lemma get_range_mid pre w post :
  get_range (pre ++ w ++ post) (N.of_nat (length pre)) (N.of_nat (length pre + length w)) = Some w.
Proof.
  unfold get_range. rewrite !length_app, decide_True by lia. rewrite Nat2N.id, drop_app_length.
  replace (N.to_nat _) with (length w) by lia. by rewrite take_app_length.
Qed.

Lemma reads_u64 v : u64 v → reads get_u64 (put_u64 v) v.
Proof.
  intros Hv pre post _. unfold get_u64.
  pose proof (get_range_mid pre (put_u64 v) post) as Hg. unfold put_u64 in *.
  rewrite length_be_bytes in Hg. replace (N.of_nat (length pre + 8)) with
    (N.of_nat (length pre) + 8) in Hg by lia. rewrite Hg, from_be_be_bytes.
  rewrite N.mod_small by exact Hv. rewrite length_app, length_be_bytes. do 2 f_equal. lia.
Qed.

Lemma reads_slice b : reads (get_slice (N.of_nat (length b))) b b.
Proof.
  intros pre post Hfit. unfold get_slice, wrap64. unfold fits, isize_max in Hfit.
  rewrite !length_app in Hfit. rewrite N.mod_small by lia. rewrite <-Nat2N.inj_add.
  by rewrite get_range_mid, length_app.
Qed.

Lemma reads_bytes b : reads get_bytes (put_bytes b) b.
Proof.
  intros pre post Hfit. unfold get_bytes, put_bytes in *.
  assert (u64 (N.of_nat (length b))) as Hb.
  { eapply fits_u64; [exact Hfit |]. rewrite !length_app. lia. }
  by apply (reads_bind _ _ _ _ _ _ (reads_u64 _ Hb) (reads_slice b)).
Qed.

Lemma reads_bool b : reads get_bool (put_bool b) b.
Proof.
  unfold get_bool, put_bool. eapply reads_end; [apply reads_u8; by destruct b |].
  destruct b; apply reads_ret.
Qed.

Lemma reads_capacity n size : n * size ≤ isize_max → reads (with_capacity n size) [] tt.
Proof.
  intros Hn pre post _. unfold with_capacity. rewrite decide_True by done. by rewrite app_nil_r.
Qed.

(** *** Repetition *)

Lemma reads_repeat_fuel {A} (item : dec A) (w : A → bytes) fuel (l : list A) :
  (length l ≤ fuel)%nat → (∀ x, x ∈ l → reads item (w x) x) →
  reads (repeat_fuel fuel item (N.of_nat (length l))) (mjoin (w <$> l)) l.
Proof.
  revert fuel. induction l as [|x l IH]; intros fuel Hl Hx.
  { destruct fuel; cbn [repeat_fuel length]; [|apply reads_ret].
    intros pre post _. by rewrite app_nil_r. }
  cbn in Hl. destruct fuel as [|fuel]; [lia |].
  cbn [repeat_fuel]. rewrite decide_False by (cbn; lia).
  change (mjoin (w <$> x :: l)) with (w x ++ mjoin (w <$> l)).
  eapply reads_bind; [apply Hx; left |]. eapply reads_end; [|apply reads_ret].
  replace (N.of_nat (length (x :: l)) - 1) with (N.of_nat (length l)) by (cbn; lia).
  apply IH; [lia |]. intros y Hy. apply Hx. by right.
Qed.

Lemma mjoin_length {A} (w : A → bytes) (l : list A) k :
  (∀ x, x ∈ l → k ≤ length (w x))%nat → (k * length l ≤ length (mjoin (w <$> l)))%nat.
Proof.
  induction l as [|x l IH]; intros Hx; [cbn; lia |].
  change (mjoin (w <$> x :: l)) with (w x ++ mjoin (w <$> l)).
  rewrite length_app. cbn [length].
  pose proof (Hx x ltac:(left)). specialize (IH ltac:(intros; apply Hx; by right)). lia.
Qed.

Lemma reads_repeat {A} (item : dec A) (w : A → bytes) (l : list A) :
  (∀ x, x ∈ l → reads item (w x) x) → (∀ x, x ∈ l → 1 ≤ length (w x))%nat →
  reads (repeat item (N.of_nat (length l))) (mjoin (w <$> l)) l.
Proof.
  intros Hr Hw pre post Hfit. unfold repeat.
  apply reads_repeat_fuel; [|done | done].
  pose proof (mjoin_length w l 1 Hw). rewrite !length_app. lia.
Qed.

(** A reader that, when it succeeds, has consumed at least a byte of the buffer. *)
Definition consumes {A} (d : dec A) : Prop :=
  ∀ buf pos a pos', d buf pos = Ok (a, pos') → pos < pos' ∧ pos' ≤ N.of_nat (length buf).

(** The loop by recursion on the count. *)
Fixpoint repeat_count {A} (k : nat) (item : dec A) : dec (list A) :=
  match k with
  | O => mret []
  | S k => x ← item; xs ← repeat_count k item; mret (x :: xs)
  end.

Lemma repeat_fuel_count {A} (item : dec A) fuel n buf pos :
  consumes item → (0 < fuel)%nat → (length buf < fuel + N.to_nat pos)%nat →
  repeat_fuel fuel item n buf pos = repeat_count (N.to_nat n) item buf pos.
Proof.
  intros Hc. revert n pos. induction fuel as [|fuel IH]; intros n pos H0 Hf; [lia |].
  cbn [repeat_fuel]. case_decide as Hn; [by subst n |].
  replace (N.to_nat n) with (S (N.to_nat (n - 1))) by lia. cbn [repeat_count].
  unfold mbind, dec_bind. destruct (item buf pos) as [[x pos']| |] eqn:Hi; [|done..].
  apply Hc in Hi as [? ?]. rewrite IH by lia. done.
Qed.

(** The bound on the turns of a decoding loop is no restriction: the loop
    reads exactly [n] items, or fails where reading them one by one fails. *)
Theorem repeat_adequate {A} (item : dec A) n buf pos :
  consumes item → repeat item n buf pos = repeat_count (N.to_nat n) item buf pos.
Proof. intros Hc. apply repeat_fuel_count; [done | lia | lia]. Qed.

Lemma reads_ids ids : Forall u64 ids → reads get_ids (put_ids ids) ids.
Proof.
  intros Hids pre post Hfit. unfold get_ids, put_ids in *.
  pose proof (mjoin_length put_u64 ids 8 ltac:(intros; unfold put_u64; by rewrite length_be_bytes))
    as Hlen.
  assert (N.of_nat (length ids) * 8 ≤ isize_max) as Hcap.
  { unfold fits in Hfit. rewrite !length_app in Hfit. lia. }
  eapply reads_bind; [apply reads_u64 | | done].
  { unfold u64, isize_max in *. lia. }
  apply (reads_bind _ _ [] _ tt); [by apply reads_capacity |].
  apply reads_repeat.
  - intros x Hx. apply reads_u64. rewrite Forall_forall in Hids. by apply Hids.
  - intros x _. unfold put_u64. rewrite length_be_bytes. lia.
Qed.

(** ** Messages *)

Definition conf_fits (c : ConfState) : Prop :=
  match c with
  | Simple v => Forall u64 v
  | Joint old new => Forall u64 old ∧ Forall u64 new
  end.

Definition payload_fits (p : EntryPayload) : Prop :=
  match p with PConfig c => conf_fits c | _ => True end.

Definition entry_fits (e : Entry) : Prop :=
  u64 (e_term e) ∧ u64 (e_index e) ∧ payload_fits (e_payload e).

(** The numbers of a message are [u64]s and its vectors exist in memory. *)
Definition message_fits `{Layout} (m : Message) : Prop :=
  match m with
  | RequestVote t c i lt => u64 t ∧ u64 c ∧ u64 i ∧ u64 lt
  | RequestVoteResp t _ => u64 t
  | AppendEntries t l i pt es lc rs =>
      u64 t ∧ u64 l ∧ u64 i ∧ u64 pt ∧ Forall entry_fits es ∧
      N.of_nat (length es) * size_of_Entry ≤ isize_max ∧ u64 lc ∧ u64 rs
  | AppendEntriesResp t _ m ci rs => u64 t ∧ u64 m ∧ u64 ci ∧ u64 rs
  | InstallSnapshot t l i it c _ rs =>
      u64 t ∧ u64 l ∧ u64 i ∧ u64 it ∧ conf_fits c ∧ u64 rs
  end.

Lemma reads_conf c : conf_fits c → reads get_conf (put_conf c) c.
Proof.
  intros Hc. destruct c as [v|old new]; cbn in Hc.
  - eapply reads_bind; [by apply reads_u8 |].
    eapply reads_end; [by apply reads_ids | apply reads_ret].
  - destruct Hc. eapply reads_bind; [by apply reads_u8 |].
    eapply reads_bind; [by apply reads_ids |].
    eapply reads_end; [by apply reads_ids | apply reads_ret].
Qed.

Create HintDb codec discriminated.
#[export] Hint Constants Opaque : codec.
#[export] Hint Resolve reads_ret reads_u64 reads_bytes reads_bool reads_conf reads_ids : codec.
#[export] Hint Extern 1 (reads get_u8 _ _) => apply reads_u8; reflexivity : codec.

(** Reads a sequence of fields, each by the lemma of its reader. *)
Ltac read_fields :=
  repeat lazymatch goal with
  | |- reads (mret _) [] _ => apply reads_ret
  | |- reads _ (_ ++ _) _ => eapply reads_bind; [solve [eauto with codec] |]; cbv beta iota
  | |- reads (_ ≫= _) _ _ => eapply reads_end; [solve [eauto with codec] |]; cbv beta iota
  end.

Lemma reads_entry e : entry_fits e → reads get_entry (put_entry e) e.
Proof.
  destruct e as [t i p]. intros (Ht & Hi & Hp). unfold put_entry. cbn [e_term e_index e_payload].
  eapply reads_bind; [by apply reads_u64 |]. eapply reads_bind; [by apply reads_u64 |].
  eapply reads_end; [|apply reads_ret]. unfold get_payload.
  destruct p as [c| |c]; cbn in Hp; read_fields.
Qed.

Lemma reads_message `{Layout} m : message_fits m → reads get_message (encode m) m.
Proof.
  intros Hm. unfold get_message.
  destruct m as [t c i lt|t g|t l i pt es lc rs|t s mi ci rs|t l i it c d rs]; cbn in Hm;
    destruct_and?; cbn [encode]; read_fields.
  eapply reads_bind; [apply reads_u64 |].
  { pose proof size_of_Entry_fields. unfold u64, isize_max in *. nia. }
  apply (reads_bind _ _ [] _ tt); [by apply reads_capacity |].
  eapply reads_bind; [apply reads_repeat |].
  - intros e He. apply reads_entry. rewrite Forall_forall in *. auto.
  - intros e _. unfold put_entry, put_u64. rewrite !length_app, !length_be_bytes. lia.
  - read_fields.
Qed.

Lemma reads_start {A} (d : dec A) w a rest :
  reads d w a → fits (w ++ rest) → d (w ++ rest) 0 = Ok (a, N.of_nat (length w)).
Proof. intros Hd Hf. exact (Hd [] rest Hf). Qed.

Lemma reads_run {A} (d : dec A) w a rest :
  reads d w a → fits (w ++ rest) → run_dec d (w ++ rest) = Ok a.
Proof. intros Hd Hf. unfold run_dec. by rewrite (reads_start _ _ _ _ Hd Hf). Qed.

(** C11: decoding what was encoded gives the message back, whatever bytes
    follow it in the frame. *)
Theorem decode_encode `{Layout} m rest :
  message_fits m → fits (encode m ++ rest) → decode (encode m ++ rest) = Ok m.
Proof. intros Hm Hf. by apply reads_run; [apply reads_message |]. Qed.

(** Two messages with the same encoding are the same message, even when
    the encodings are followed by other bytes: no encoding is a proper prefix
    of another. *)
Theorem encode_prefix_free `{Layout} m m' rest rest' :
  message_fits m → message_fits m' → fits (encode m ++ rest) →
  encode m ++ rest = encode m' ++ rest' → m = m' ∧ rest = rest'.
Proof.
  intros Hm Hm' Hf Heq. pose proof (reads_start _ _ _ _ (reads_message m Hm) Hf) as H1.
  rewrite Heq in Hf, H1. pose proof (reads_start _ _ _ _ (reads_message m' Hm') Hf) as H2.
  rewrite H1 in H2. by simplify_eq.
Qed.

(** A log entry survives the durable log's encoding. *)
Theorem decode_entry_encode_entry e :
  entry_fits e → fits (encode_entry e) → decode_entry (encode_entry e) = Ok e.
Proof.
  intros He Hf. rewrite <-(app_nil_r (encode_entry e)) in *.
  by apply reads_run; [apply reads_entry |].
Qed.

(** [d] panics on the bytes [w], whatever is around them. *)
Definition panics_on {A} (d : dec A) (w : bytes) : Prop :=
  ∀ pre post, fits (pre ++ w ++ post) → d (pre ++ w ++ post) (N.of_nat (length pre)) = Panics.

Lemma panics_bind {A B} (m : dec A) (f : A → dec B) w1 w2 a :
  reads m w1 a → panics_on (f a) w2 → panics_on (m ≫= f) (w1 ++ w2).
Proof.
  intros Hm Hf pre post Hfit. unfold mbind, dec_bind.
  rewrite <-app_assoc in *. rewrite Hm by done.
  specialize (Hf (pre ++ w1) post). rewrite <-!app_assoc in Hf. by apply Hf.
Qed.

Lemma panics_end {A B} (m : dec A) (f : A → dec B) w a :
  reads m w a → panics_on (f a) [] → panics_on (m ≫= f) w.
Proof. intros Hm Hf. rewrite <-(app_nil_r w). by eapply panics_bind. Qed.

(** A frame of 41 bytes panics the decoder: its entry count is multiplied
    by the size of an entry and handed to the allocator before a single entry
    has been read. *)
Theorem decode_capacity_panics `{Layout} term leader prev pt n :
  u64 term → u64 leader → u64 prev → u64 pt → u64 n → 2 ^ 60 ≤ n →
  decode (put_u8 2 ++ put_u64 term ++ put_u64 leader ++ put_u64 prev ++ put_u64 pt ++ put_u64 n)
    = Panics.
Proof.
  intros Ht Hl Hp Hpt Hn Hbig.
  set (w := put_u8 2 ++ _).
  assert (panics_on get_message w) as Hpan.
  { eapply panics_bind; [by apply reads_u8 |]. cbv beta iota.
    do 4 (eapply panics_bind; [by apply reads_u64 |]; cbv beta).
    eapply panics_end; [by apply reads_u64 |]. cbv beta.
    intros pre post _. unfold mbind, dec_bind, with_capacity. pose proof size_of_Entry_fields.
    rewrite decide_False; [done |]. unfold isize_max. nia. }
  specialize (Hpan [] []). rewrite app_nil_r in Hpan. change ([] ++ w) with w in Hpan.
  change (N.of_nat (length [])) with 0 in Hpan.
  unfold decode, run_dec. rewrite Hpan; [done |].
  unfold fits, w, put_u64, put_u8. rewrite !length_app, !length_be_bytes. done.
Qed.

(** ** EPaxos messages *)

Definition inst_fits (i : Instance) : Prop := u64 (inst_replica i) ∧ u64 (inst_slot i).

Definition emessage_fits (m : EMessage) : Prop :=
  match m with
  | PreAccept i b _ s ds | Accept i b _ s ds =>
      inst_fits i ∧ u64 b ∧ u64 s ∧ set_Forall inst_fits ds
  | PreAcceptReply i b s ds => inst_fits i ∧ u64 b ∧ u64 s ∧ set_Forall inst_fits ds
  | AcceptReply i b => inst_fits i ∧ u64 b
  | Commit i _ s ds => inst_fits i ∧ u64 s ∧ set_Forall inst_fits ds
  end.

Lemma reads_instance i : inst_fits i → reads get_instance (put_instance i) i.
Proof.
  destruct i as [r s]. intros [Hr Hs]. unfold put_instance, get_instance.
  cbn [inst_replica inst_slot] in *. read_fields.
Qed.

Lemma btree_elements_perm s : btree_elements s ≡ₚ elements s.
Proof. apply merge_sort_Permutation. Qed.

Lemma reads_inst_set ds : set_Forall inst_fits ds → reads get_inst_set (put_inst_set ds) ds.
Proof.
  intros Hds pre post Hfit. unfold get_inst_set, put_inst_set in *.
  assert (∀ i, i ∈ btree_elements ds → inst_fits i) as Hel.
  { intros i Hi. rewrite btree_elements_perm in Hi. by apply Hds, elem_of_elements. }
  assert (size ds = length (btree_elements ds)) as Hsize by by rewrite btree_elements_perm.
  assert (∀ i, 16 ≤ length (put_instance i))%nat as H16.
  { intros i. unfold put_instance, put_u64. rewrite length_app, !length_be_bytes. lia. }
  pose proof (mjoin_length put_instance (btree_elements ds) 16 (λ i _, H16 i)) as Hlen.
  rewrite Hsize in *. eapply reads_bind; [apply reads_u64 | | done].
  { eapply fits_u64; [exact Hfit |]. rewrite !length_app. lia. }
  eapply reads_end; [apply reads_repeat |].
  - intros i Hi. by apply reads_instance, Hel.
  - intros i _. specialize (H16 i). lia.
  - rewrite btree_elements_perm, list_to_set_elements_L. apply reads_ret.
Qed.

#[export] Hint Resolve reads_instance reads_inst_set : codec.

Lemma reads_emessage m : emessage_fits m → reads get_epaxos (encode_epaxos m) m.
Proof.
  intros Hm. unfold get_epaxos. destruct m; cbn in Hm; destruct_and?; cbn [encode_epaxos];
    read_fields.
Qed.

(** Decoding an encoded EPaxos message gives it back, with the same set of
    dependencies, whatever bytes follow. *)
Theorem decode_encode_epaxos m rest :
  emessage_fits m → fits (encode_epaxos m ++ rest) →
  decode_epaxos (encode_epaxos m ++ rest) = Ok m.
Proof. intros Hm Hf. by apply reads_run; [apply reads_emessage |]. Qed.

(** ** What a decoder returns *)

Definition yields {A} (d : dec A) (P : A → Prop) : Prop :=
  ∀ buf pos a pos', d buf pos = Ok (a, pos') → P a.

Lemma yields_ret {A} (a : A) (P : A → Prop) : P a → yields (mret a) P.
Proof. by intros Ha buf pos ? ? [= <- <-]. Qed.

Lemma yields_bind {A B} (m : dec A) (f : A → dec B) (P : A → Prop) (Q : B → Prop) :
  yields m P → (∀ a, P a → yields (f a) Q) → yields (m ≫= f) Q.
Proof.
  intros Hm Hf buf pos b pos'. unfold mbind, dec_bind.
  destruct (m buf pos) as [[a pos1]| |] eqn:Ha; [|done..]. apply Hf. by eapply Hm.
Qed.

Lemma yields_fail {A} e (P : A → Prop) : yields (fail e) P.
Proof. by intros buf pos a pos'. Qed.

Lemma yields_u64 : yields get_u64 u64.
Proof.
  intros buf pos a pos'. unfold get_u64, get_range. case_decide; [|done]. intros [= <- _].
  eapply N.lt_le_trans; [apply from_be_bound |]. rewrite length_take, length_drop.
  change (2 ^ 64) with (256 ^ 8). apply N.pow_le_mono_r; lia.
Qed.

Lemma yields_any {A} (d : dec A) : yields d (λ _, True).
Proof. done. Qed.

Lemma yields_capacity n size : yields (with_capacity n size) (λ _, n * size ≤ isize_max).
Proof. intros buf pos a pos'. unfold with_capacity. by case_decide. Qed.

Lemma yields_repeat {A} (item : dec A) (P : A → Prop) n :
  yields item P → yields (repeat item n) (λ l, Forall P l ∧ N.of_nat (length l) = n).
Proof.
  intros Hi buf pos l pos'. unfold repeat. generalize (S (length buf)) as fuel.
  intros fuel. revert n pos l pos'. induction fuel as [|fuel IH]; intros n pos l pos'; cbn.
  { case_decide; [|done]. by intros [= <- _]. }
  case_decide as Hn; [by intros [= <- _] |]. unfold mbind, dec_bind.
  destruct (item buf pos) as [[x pos1]| |] eqn:Hx; [|done..].
  destruct (repeat_fuel fuel item (n - 1) buf pos1) as [[xs pos2]| |] eqn:Hxs; [|done..].
  intros [= <- _]. apply IH in Hxs as [? ?]. split; [|cbn; lia].
  constructor; [by eapply Hi | done].
Qed.

Lemma yields_ids : yields get_ids (Forall u64).
Proof.
  eapply yields_bind; [apply yields_u64 |]. intros n _.
  eapply yields_bind; [apply yields_any |]. intros _ _ buf pos l pos' Hl.
  by apply (yields_repeat _ _ _ yields_u64) in Hl as [? _].
Qed.

#[export] Hint Resolve yields_u64 yields_ids yields_capacity : codec.
#[export] Hint Resolve yields_any | 10 : codec.

(** Follows a decoder down to the value it returns. *)
Ltac yield_fields :=
  repeat lazymatch goal with
  | |- yields (mret _) _ => apply yields_ret
  | |- yields (fail _) _ => apply yields_fail
  | |- yields (_ ≫= _) _ => eapply yields_bind; [solve [eauto with codec] | cbv beta; intros ? ?]
  | |- yields (match ?t with _ => _ end) _ => destruct t
  end.

Lemma yields_conf : yields get_conf conf_fits.
Proof. unfold get_conf. yield_fields; done. Qed.

#[export] Hint Resolve yields_conf : codec.

Lemma yields_payload : yields get_payload payload_fits.
Proof. unfold get_payload. yield_fields; done. Qed.

#[export] Hint Resolve yields_payload : codec.

Lemma yields_entry : yields get_entry entry_fits.
Proof. unfold get_entry. yield_fields. done. Qed.

Lemma yields_entries n :
  yields (repeat get_entry n) (λ l, Forall entry_fits l ∧ N.of_nat (length l) = n).
Proof. apply yields_repeat, yields_entry. Qed.

#[export] Hint Resolve yields_entries : codec.

(** A frame that decodes gives a well-formed message: every number is a
    [u64] and the entries fit in memory, so it can be encoded again. *)
Theorem decode_fits `{Layout} buf m : decode buf = Ok m → message_fits m.
Proof.
  unfold decode, run_dec. destruct (get_message buf 0) as [[m' pos]| |] eqn:Hm; [|done..].
  intros [= <-]. revert Hm. generalize 0 at 1 as p. intros p Hm.
  assert (yields get_message message_fits) as Hy; [|by eapply Hy].
  unfold get_message. yield_fields; try done. destruct_and?. subst. by split_and!.
Qed.

(** ** The theorems on concrete frames *)

(** A layout with 64-byte entries. *)
Definition layout64 : Layout := {| size_of_Entry := 64; size_of_Entry_fields := ltac:(done) |}.

Lemma consumes_u64 : consumes get_u64.
Proof.
  intros buf pos a pos'. unfold get_u64, get_range. case_decide as Hr; [|done].
  intros [= _ <-]. lia.
Qed.

Lemma repeat_adequate_witness :
  repeat get_u64 2 (put_u64 7 ++ put_u64 9) 0 = Ok ([7; 9], 16) ∧
  repeat get_u64 (2 ^ 63) [x01] 0 = repeat_count (N.to_nat (2 ^ 63)) get_u64 [x01] 0.
Proof.
  split; [vm_compute; reflexivity |].
  apply (repeat_adequate get_u64 (2 ^ 63) [x01] 0 consumes_u64).
Defined.

Definition sample_append : Message :=
  AppendEntries 3 1 4 2
    [MkEntry 3 5 (Command [x61]); MkEntry 3 6 Noop; MkEntry 3 7 (PConfig (Joint [1; 2] [2; 3]))] 4 9.

Lemma sample_append_fits : message_fits (H := layout64) sample_append.
Proof.
  repeat first [split | apply Forall_cons | apply Forall_nil]; try done; unfold u64; lia.
Qed.

Lemma decode_encode_witness :
  decode (H := layout64) (encode sample_append ++ [x00]) = Ok sample_append.
Proof.
  apply (@decode_encode layout64 sample_append [x00] sample_append_fits).
  unfold fits. vm_compute. discriminate.
Defined.

Lemma encode_prefix_free_witness : sample_append = sample_append ∧ [x00] = [x00].
Proof.
  apply (@encode_prefix_free layout64 sample_append sample_append [x00] [x00]
    sample_append_fits sample_append_fits); [unfold fits; vm_compute; discriminate | reflexivity].
Defined.

Lemma decode_entry_encode_entry_witness :
  decode_entry (encode_entry (MkEntry 3 5 (Command [x61]))) = Ok (MkEntry 3 5 (Command [x61])).
Proof.
  apply (decode_entry_encode_entry (MkEntry 3 5 (Command [x61])));
    [split_and!; done | unfold fits; vm_compute; discriminate].
Defined.

Lemma decode_capacity_panics_witness :
  decode (H := layout64) (put_u8 2 ++ put_u64 1 ++ put_u64 1 ++ put_u64 0 ++ put_u64 0 ++
    put_u64 (2 ^ 60)) = Panics.
Proof.
  apply (@decode_capacity_panics layout64 1 1 0 0 (2 ^ 60)); unfold u64; done.
Defined.

Lemma decode_encode_epaxos_witness :
  decode_epaxos (encode_epaxos (Commit (MkInstance 1 0) [x61] 2 {[ MkInstance 2 0 ]}) ++ []) =
  Ok (Commit (MkInstance 1 0) [x61] 2 {[ MkInstance 2 0 ]}).
Proof.
  apply (decode_encode_epaxos (Commit (MkInstance 1 0) [x61] 2 {[ MkInstance 2 0 ]}) []).
  - split_and!; [done | done |]. intros i ->%elem_of_singleton. done.
  - unfold fits. vm_compute. discriminate.
Defined.

Lemma decode_fits_witness : message_fits (H := layout64) sample_append.
Proof.
  apply (@decode_fits layout64 (encode sample_append)). vm_compute. reflexivity.
Defined.
