(* ===== verification/Net.v ===== *)
(** * The cluster transport

    [crates/cs-net]: the logical channels and the [Transport] interface
    ([src/lib.rs]), the in-memory [SimPair] that implements it, and the
    length-prefixed framing of byte streams ([src/framing.rs]).

    The TCP and QUIC transports pump sockets and are not modelled; what they
    put on the wire is the framing below. *)

From stdpp Require Import base numbers gmap list.
From Stdlib Require Import Strings.Byte.
From S2P Require Import Prelude RaftTypes Epaxos Codec.

Local Open Scope N_scope.
Local Open Scope crab_scope.

(** [enum Channel]. *)
Inductive Channel := Control | Consensus | Messages | Workflow | Bulk | Observability.

#[export] Instance Channel_eq_dec : EqDecision Channel.
Proof. solve_decision. Defined.

#[export] Instance Channel_countable : Countable Channel.
Proof.
  refine (inj_countable'
    (λ c, match c with Control => 0 | Consensus => 1 | Messages => 2 | Workflow => 3
                  | Bulk => 4 | Observability => 5 end)
    (λ n, match n with 0 => Control | 1 => Consensus | 2 => Messages | 3 => Workflow
                  | 4 => Bulk | _ => Observability end) _).
  by intros [].
Defined.

(** [Channel::ALL]. *)
Definition all_channels : list Channel :=
  [Control; Consensus; Messages; Workflow; Bulk; Observability].

(** [channel as u8]. *)
Definition channel_tag (c : Channel) : N :=
  match c with
  | Control => 0 | Consensus => 1 | Messages => 2 | Workflow => 3 | Bulk => 4 | Observability => 5
  end.

(** [Channel::priority]. *)
Definition channel_priority (c : Channel) : Z :=
  match c with
  | Control => 10
  | Consensus => 8
  | Messages | Workflow => 0
  | Bulk | Observability => -10
  end.

(** [struct TransportConfig]. *)
Record TransportConfig := MkTransportConfig {
  control_high_watermark : nat;
  messages_high_watermark : nat;
  bulk_high_watermark : nat;
  max_frame_bytes : N;
}.

(** The errors of [TransportError] the code below returns. *)
Inductive TransportError :=
  | PeerClosed
  | Backpressure (channel : Channel) (depth : nat)
  | FrameTooLong (len : N)
  | UnknownChannel (tag : N).

(** [trait Transport], as seen by the holder of one end.  [tr_waiting] is the
    frames [try_recv] can still hand out. *)
Class Transport (T : Type) := {
  tr_send : T → Channel → bytes → T * (TransportError + unit);
  tr_try_recv : T → Channel → T * (TransportError + option bytes);
  tr_waiting : T → Channel → list bytes;
}.

(** Receiving takes the first waiting frame, and finds none when none waits. *)
Class LawfulTransport (T : Type) `{Transport T} :=
  tr_recv_waiting : ∀ (t : T) c,
    match tr_waiting t c with
    | frame :: rest =>
        ∃ t', tr_try_recv t c = (t', inr (Some frame)) ∧ tr_waiting t' c = rest
    | [] =>
        ∃ t' r, tr_try_recv t c = (t', r) ∧ (∀ frame, r ≠ inr (Some frame)) ∧ tr_waiting t' c = []
    end.

(** ** The in-memory pair *)

(** [struct SimQueues]: the queues of one direction. *)
Record SimQueues := MkSimQueues {
  sq_deque : Channel → list bytes;
  sq_high_watermark : Channel → nat;
}.

#[export] Instance SimQueues_eta : Eta SimQueues := λ q,
  MkSimQueues (sq_deque q) (sq_high_watermark q).

(** [SimQueues::new]. *)
Definition SimQueues_new (cfg : TransportConfig) : SimQueues :=
  MkSimQueues (λ _, [])
    (λ c, match c with
          | Control | Consensus => control_high_watermark cfg
          | Messages | Workflow => messages_high_watermark cfg
          | Bulk | Observability => bulk_high_watermark cfg
          end).

(** One end: where it writes, where it reads, and the flag both ends share. *)
Record SimEndpoint := MkSimEndpoint {
  se_outbound : SimQueues;
  se_inbound : SimQueues;
  se_closed : bool;
}.

#[export] Instance SimEndpoint_eta : Eta SimEndpoint := λ e,
  MkSimEndpoint (se_outbound e) (se_inbound e) (se_closed e).

Definition put_queue (c : Channel) (l : list bytes) (q : SimQueues) : SimQueues :=
  q <| sq_deque ::= λ d c', if decide (c' = c) then l else d c' |>.

Definition sim_send (e : SimEndpoint) (c : Channel) (payload : bytes) :
    SimEndpoint * (TransportError + unit) :=
  if se_closed e then (e, inl PeerClosed)
  else
    let d := sq_deque (se_outbound e) c in
    if decide (sq_high_watermark (se_outbound e) c ≤ length d)%nat
    then (e, inl (Backpressure c (length d)))
    else (e <| se_outbound ::= put_queue c (d ++ [payload]) |>, inr tt).

Definition sim_try_recv (e : SimEndpoint) (c : Channel) :
    SimEndpoint * (TransportError + option bytes) :=
  match sq_deque (se_inbound e) c with
  | frame :: d => (e <| se_inbound ::= put_queue c d |>, inr (Some frame))
  | [] => (e, if se_closed e then inl PeerClosed else inr None)
  end.

Definition sim_close (e : SimEndpoint) : SimEndpoint := e <| se_closed := true |>.

#[export] Instance SimEndpoint_transport : Transport SimEndpoint := {|
  tr_send := sim_send;
  tr_try_recv := sim_try_recv;
  tr_waiting e c := sq_deque (se_inbound e) c;
|}.

(** [struct SimPair]: the two directions and the shared flag. *)
Record SimPair := MkSimPair {
  sp_to_a : SimQueues;
  sp_to_b : SimQueues;
  sp_closed : bool;
}.

(** [SimPair::with_config]. *)
Definition SimPair_with_config (cfg : TransportConfig) : SimPair :=
  MkSimPair (SimQueues_new cfg) (SimQueues_new cfg) false.

(** The ends of a pair, and the pair after one of them has acted: the queues
    are shared, so what one end does to them the other sees. *)
Definition end_a (p : SimPair) : SimEndpoint := MkSimEndpoint (sp_to_b p) (sp_to_a p) (sp_closed p).
Definition end_b (p : SimPair) : SimEndpoint := MkSimEndpoint (sp_to_a p) (sp_to_b p) (sp_closed p).
Definition set_a (p : SimPair) (e : SimEndpoint) : SimPair :=
  MkSimPair (se_inbound e) (se_outbound e) (se_closed e).
Definition set_b (p : SimPair) (e : SimEndpoint) : SimPair :=
  MkSimPair (se_outbound e) (se_inbound e) (se_closed e).

(** ** Framing *)

Definition HEADER_LEN : nat := 5.

Definition channel_from_tag (tag : N) : option Channel :=
  List.find (λ c, bool_decide (channel_tag c = tag)) all_channels.

(** [encode_frame] into an empty buffer: [payload.len() as u32] wraps. *)
Definition encode_frame (c : Channel) (payload : bytes) : bytes :=
  put_u8 (channel_tag c) ++ be_bytes 4 (wrap32 (N.of_nat (length payload))) ++ payload.

(** [struct FrameDecoder]. *)
Record FrameDecoder := MkFrameDecoder {
  fd_buf : bytes;
  fd_max_frame_bytes : N;
}.

#[export] Instance FrameDecoder_eta : Eta FrameDecoder := λ d,
  MkFrameDecoder (fd_buf d) (fd_max_frame_bytes d).

Definition FrameDecoder_new (max_frame_bytes : N) : FrameDecoder :=
  MkFrameDecoder [] max_frame_bytes.

Definition fd_push (bs : bytes) (d : FrameDecoder) : FrameDecoder :=
  d <| fd_buf ::= λ b, b ++ bs |>.

Definition next_frame (d : FrameDecoder) :
    FrameDecoder * (TransportError + option (Channel * bytes)) :=
  if decide (length (fd_buf d) < HEADER_LEN)%nat then (d, inr None)
  else
    let tag := from_be_bytes (take 1 (fd_buf d)) in
    let len := from_be_bytes (take 4 (drop 1 (fd_buf d))) in
    if decide (fd_max_frame_bytes d < len) then (d, inl (FrameTooLong len))
    else
      match channel_from_tag tag with
      | None => (d, inl (UnknownChannel tag))
      | Some channel =>
          if decide (N.of_nat (length (fd_buf d)) < N.of_nat HEADER_LEN + len) then (d, inr None)
          else
            let payload := take (N.to_nat len) (drop HEADER_LEN (fd_buf d)) in
            (d <| fd_buf ::= drop (HEADER_LEN + N.to_nat len) |>, inr (Some (channel, payload)))
      end.

(** Pulling frames until none is complete, as the readers do. *)
Fixpoint pull_frames (fuel : nat) (d : FrameDecoder) :
    FrameDecoder * (TransportError + list (Channel * bytes)) :=
  match fuel with
  | O => (d, inr [])
  | S fuel =>
      match next_frame d with
      | (d, inl e) => (d, inl e)
      | (d, inr None) => (d, inr [])
      | (d, inr (Some f)) =>
          match pull_frames fuel d with
          | (d, inl e) => (d, inl e)
          | (d, inr fs) => (d, inr (f :: fs))
          end
      end
  end.

(** A reader: push a chunk, pull what is complete, go on. *)
Fixpoint read_chunks (chunks : list bytes) (d : FrameDecoder) :
    FrameDecoder * (TransportError + list (Channel * bytes)) :=
  match chunks with
  | [] => (d, inr [])
  | chunk :: chunks =>
      let d := fd_push chunk d in
      match pull_frames (S (length (fd_buf d))) d with
      | (d, inl e) => (d, inl e)
      | (d, inr fs) =>
          match read_chunks chunks d with
          | (d, inl e) => (d, inl e)
          | (d, inr fs') => (d, inr (fs ++ fs'))
          end
      end
  end.

(** ** Framing round trip *)

Definition stream (fs : list (Channel * bytes)) : bytes :=
  mjoin ((λ f, encode_frame f.1 f.2) <$> fs).

(** A frame within the configured maximum and the 32 bits of its length. *)
Definition frame_fits (max : N) (f : Channel * bytes) : Prop :=
  N.of_nat (length f.2) < 2 ^ 32 ∧ N.of_nat (length f.2) ≤ max.

Lemma channel_from_tag_spec c : channel_from_tag (channel_tag c) = Some c.
Proof. by destruct c. Qed.

Lemma encode_frame_length c p : length (encode_frame c p) = (HEADER_LEN + length p)%nat.
Proof. unfold encode_frame. by rewrite !length_app, length_be_bytes. Qed.

(** The header of a frame, read off any buffer that starts with it. *)
Lemma header_spec c p rest buf :
  N.of_nat (length p) < 2 ^ 32 → (HEADER_LEN ≤ length buf)%nat →
  take HEADER_LEN buf = take HEADER_LEN (encode_frame c p ++ rest) →
  from_be_bytes (take 1 buf) = channel_tag c ∧
  from_be_bytes (take 4 (drop 1 buf)) = N.of_nat (length p).
Proof.
  intros Hp Hlen Heq.
  assert (take HEADER_LEN buf = put_u8 (channel_tag c) ++ be_bytes 4 (N.of_nat (length p))) as Hh.
  { rewrite Heq. unfold encode_frame, wrap32. rewrite N.mod_small by done.
    rewrite app_assoc, <-(app_assoc _ p). apply take_app_length'.
    by rewrite length_app, length_be_bytes. }
  split.
  - replace (take 1 buf) with (take 1 (take HEADER_LEN buf)) by (by rewrite take_take).
    rewrite Hh. cbn [put_u8 app take from_be_bytes foldl]. rewrite byte_of_spec.
    by destruct c.
  - replace (take 4 (drop 1 buf)) with (drop 1 (take HEADER_LEN buf))
      by (by rewrite take_drop_commute).
    rewrite Hh. change (drop 1 (put_u8 (channel_tag c) ++ ?x)) with x.
    rewrite from_be_be_bytes. by apply N.mod_small.
Qed.

Lemma next_frame_complete max c p rest :
  frame_fits max (c, p) →
  next_frame (MkFrameDecoder (encode_frame c p ++ rest) max) =
    (MkFrameDecoder rest max, inr (Some (c, p))).
Proof.
  intros [Hp Hm]. cbn [snd] in *. pose proof (encode_frame_length c p) as Hlen.
  destruct (header_spec c p rest (encode_frame c p ++ rest)) as [Ht Hl]; [done | | done |].
  { rewrite length_app. lia. }
  unfold next_frame. cbn [fd_buf fd_max_frame_bytes]. rewrite Ht, Hl, channel_from_tag_spec.
  rewrite length_app, Hlen. rewrite decide_False by lia. rewrite decide_False by lia.
  rewrite decide_False by lia. rewrite Nat2N.id.
  assert (drop HEADER_LEN (encode_frame c p ++ rest) = p ++ rest) as Hd.
  { unfold encode_frame. rewrite app_assoc, <-(app_assoc _ p).
    apply drop_app_length'. by rewrite length_app, length_be_bytes. }
  rewrite Hd, take_app_length. f_equal. unfold set_field. cbn -[drop HEADER_LEN Nat.add encode_frame app].
  by rewrite <-drop_drop, Hd, drop_app_length.
Qed.

(** A buffer that holds only part of its first frame waits for the rest. *)
Lemma next_frame_partial max c p rest buf more :
  frame_fits max (c, p) → buf ++ more = encode_frame c p ++ rest →
  (length buf < length (encode_frame c p))%nat →
  next_frame (MkFrameDecoder buf max) = (MkFrameDecoder buf max, inr None).
Proof.
  intros [Hp Hm] Heq Hlen. cbn [snd] in *. rewrite encode_frame_length in Hlen.
  unfold next_frame. cbn [fd_buf fd_max_frame_bytes].
  case_decide as Hh; [done |]. apply Nat.nlt_ge in Hh.
  destruct (header_spec c p rest buf) as [Ht Hl]; [done | done | |].
  { rewrite <-Heq, take_app_le; done. }
  rewrite Ht, Hl, channel_from_tag_spec, decide_False by lia.
  by rewrite decide_True by lia.
Qed.

Lemma pull_frames_spec max fuel buf more fs :
  Forall (frame_fits max) fs → buf ++ more = stream fs → (length buf < fuel)%nat →
  ∃ fs1 fs2 tl, fs = fs1 ++ fs2 ∧ tl ++ more = stream fs2 ∧
    pull_frames fuel (MkFrameDecoder buf max) = (MkFrameDecoder tl max, inr fs1) ∧
    next_frame (MkFrameDecoder tl max) = (MkFrameDecoder tl max, inr None).
Proof.
  intros Hfs. revert fuel buf. induction Hfs as [|[c p] fs Hf Hfs IH]; intros fuel buf Heq Hfuel.
  - apply app_nil in Heq as [-> ->]. exists [], [], []. destruct fuel; [lia |]. done.
  - destruct fuel as [|fuel]; [lia |].
    change (stream ((c, p) :: fs)) with (encode_frame c p ++ stream fs) in *.
    destruct (decide (length (encode_frame c p) ≤ length buf)%nat) as [Hle | Hlt].
    + assert (encode_frame c p `prefix_of` buf) as [buf' ->].
      { apply (prefix_by_length _ _ (encode_frame c p ++ stream fs)); [by exists (stream fs) | | done].
        rewrite <-Heq. by exists more. }
      rewrite <-app_assoc in Heq. apply (inj (app _)) in Heq.
      destruct (IH fuel buf' Heq) as (fs1 & fs2 & tl & -> & Htl & Hpull & Hstuck).
      { rewrite length_app, encode_frame_length in Hfuel. unfold HEADER_LEN in Hfuel. lia. }
      exists ((c, p) :: fs1), fs2, tl. split_and!; [done | done | | done].
      cbn [pull_frames]. rewrite next_frame_complete by done. by rewrite Hpull.
    + assert (next_frame (MkFrameDecoder buf max) = (MkFrameDecoder buf max, inr None)) as Hn.
      { eapply (next_frame_partial max c p (stream fs)); [done | done |]. lia. }
      exists [], ((c, p) :: fs), buf. split_and!; [done | done | | done].
      cbn [pull_frames]. by rewrite Hn.
Qed.

Lemma read_chunks_spec max chunks : ∀ buf fs,
  Forall (frame_fits max) fs → buf ++ mjoin chunks = stream fs →
  next_frame (MkFrameDecoder buf max) = (MkFrameDecoder buf max, inr None) →
  read_chunks chunks (MkFrameDecoder buf max) = (MkFrameDecoder [] max, inr fs).
Proof.
  induction chunks as [|chunk chunks IH]; intros buf fs Hfs Heq Hstuck.
  - cbn in Heq. rewrite app_nil_r in Heq. destruct Hfs as [|[c p] fs Hf _]; [by subst buf |].
    subst buf. change (stream ((c, p) :: fs)) with (encode_frame c p ++ stream fs) in Hstuck.
    rewrite next_frame_complete in Hstuck by done. done.
  - change (mjoin (chunk :: chunks)) with (chunk ++ mjoin chunks) in Heq.
    rewrite app_assoc in Heq. cbn [read_chunks].
    change (fd_push chunk (MkFrameDecoder buf max)) with (MkFrameDecoder (buf ++ chunk) max).
    destruct (pull_frames_spec max (S (length (buf ++ chunk))) _ _ _ Hfs Heq)
      as (fs1 & fs2 & tl & -> & Htl & Hpull & Hst); [lia |].
    cbn [fd_buf]. rewrite Hpull. apply Forall_app in Hfs as [_ Hfs2].
    by rewrite (IH tl fs2 Hfs2 Htl Hst).
Qed.

(** C12: framing survives any chunking. However the bytes of a sequence of
    frames are cut up by the stream, the reader gets the frames back, each on
    its channel and in order, and no byte is left over. *)
Theorem framing_roundtrip max fs chunks :
  Forall (frame_fits max) fs → mjoin chunks = stream fs →
  read_chunks chunks (FrameDecoder_new max) = (FrameDecoder_new max, inr fs).
Proof. intros Hfs Heq. by apply (read_chunks_spec max chunks [] fs Hfs Heq). Qed.

Lemma framing_roundtrip_witness :
  read_chunks [[x01]; [x00; x00; x00]; [x02; x61; x62; x00; x00; x00]; [x00; x00]]
    (FrameDecoder_new 16) =
  (FrameDecoder_new 16, inr [(Consensus, [x61; x62]); (Control, [])]).
Proof.
  apply (framing_roundtrip 16 [(Consensus, [x61; x62]); (Control, [])]).
  - repeat constructor; cbn; lia.
  - vm_compute. reflexivity.
Defined.

(** ** The in-memory pair *)

#[export] Instance SimEndpoint_lawful : LawfulTransport SimEndpoint.
Proof.
  intros e c. cbn. unfold sim_try_recv.
  destruct (sq_deque (se_inbound e) c) as [|f d] eqn:Hd.
  - eexists e, _. split; [done |]. split; [by destruct (se_closed e) | done].
  - eexists. split; [done |]. unfold set_field, put_queue. cbn. unfold set_field. cbn.
    by rewrite decide_True by done.
Qed.

(** What can be done with the direction from [a] to [b] of a pair. *)
Inductive pair_op := SendA (c : Channel) (m : bytes) | RecvB (c : Channel) | Close.

(** The pair, the frames accepted from [a] and the frames handed to [b]. *)
Record pair_run := MkPairRun {
  pr_pair : SimPair;
  pr_sent : list (Channel * bytes);
  pr_received : list (Channel * bytes);
}.

Definition pair_exec (r : pair_run) (o : pair_op) : pair_run :=
  let p := pr_pair r in
  match o with
  | SendA c m =>
      match sim_send (end_a p) c m with
      | (e, inr _) => MkPairRun (set_a p e) (pr_sent r ++ [(c, m)]) (pr_received r)
      | (e, inl _) => MkPairRun (set_a p e) (pr_sent r) (pr_received r)
      end
  | RecvB c =>
      match sim_try_recv (end_b p) c with
      | (e, inr (Some m)) => MkPairRun (set_b p e) (pr_sent r) (pr_received r ++ [(c, m)])
      | (e, _) => MkPairRun (set_b p e) (pr_sent r) (pr_received r)
      end
  | Close => MkPairRun (set_a p (sim_close (end_a p))) (pr_sent r) (pr_received r)
  end.

Definition on_channel (c : Channel) (l : list (Channel * bytes)) : list bytes :=
  snd <$> filter (λ f, f.1 = c) l.

Lemma on_channel_snoc c l c' m :
  on_channel c (l ++ [(c', m)]) = on_channel c l ++ (if decide (c = c') then [m] else []).
Proof.
  unfold on_channel. rewrite filter_app, fmap_app, filter_cons, filter_nil. cbn.
  destruct (decide (c' = c)), (decide (c = c')); done || congruence.
Qed.

Lemma put_queue_deque c l q c' :
  sq_deque (put_queue c l q) c' = if decide (c' = c) then l else sq_deque q c'.
Proof. done. Qed.

Definition pair_inv (cfg : TransportConfig) (r : pair_run) : Prop :=
  ∀ c,
    on_channel c (pr_sent r) =
      on_channel c (pr_received r) ++ sq_deque (sp_to_b (pr_pair r)) c ∧
    sq_high_watermark (sp_to_b (pr_pair r)) c = sq_high_watermark (SimQueues_new cfg) c ∧
    (length (sq_deque (sp_to_b (pr_pair r)) c) ≤ sq_high_watermark (SimQueues_new cfg) c)%nat.

Lemma pair_exec_inv cfg r o : pair_inv cfg r → pair_inv cfg (pair_exec r o).
Proof.
  intros Hi c. pose proof (Hi c) as (Hs & Hw & Hl).
  destruct o as [c' m|c'|]; cbn [pair_exec].
  - unfold sim_send. destruct (se_closed _); [done |]. case_decide as Hfull; [done |].
    change (se_outbound (end_a (pr_pair r))) with (sp_to_b (pr_pair r)) in *.
    cbn [pr_pair pr_sent pr_received set_a set_b sp_to_b]. fields_goal.
    cbn [se_outbound se_inbound end_a end_b]. rewrite put_queue_deque, on_channel_snoc, Hs.
    destruct (Hi c') as (_ & Hw' & _). case_decide as Hc; [subst c' | rewrite app_nil_r; done].
    rewrite <-app_assoc, length_app. cbn [length]. split_and!; [done | done |]. lia.
  - unfold sim_try_recv. change (se_inbound (end_b (pr_pair r))) with (sp_to_b (pr_pair r)).
    destruct (sq_deque (sp_to_b (pr_pair r)) c') as [|f d] eqn:Hd; [by destruct (se_closed _) |].
    cbn [pr_pair pr_sent pr_received set_a set_b sp_to_b]. fields_goal.
    cbn [se_outbound se_inbound end_a end_b]. rewrite put_queue_deque, on_channel_snoc, Hs.
    case_decide as Hc; [subst c' | rewrite app_nil_r; done].
    rewrite Hd in *. rewrite <-app_assoc. cbn [length] in Hl. split_and!; [done | done |]. lia.
  - done.
Qed.

(** Each channel of the in-memory pair is a bounded FIFO. However sends,
    receives and a close interleave, what [b] has received on a channel
    followed by what is queued for it is exactly what was accepted from [a] on
    that channel, in order, and no queue exceeds its high watermark. *)
Theorem sim_channel_fifo cfg ops c :
  let r := foldl pair_exec (MkPairRun (SimPair_with_config cfg) [] []) ops in
  on_channel c (pr_sent r) =
    on_channel c (pr_received r) ++ sq_deque (sp_to_b (pr_pair r)) c ∧
  (length (sq_deque (sp_to_b (pr_pair r)) c) ≤ sq_high_watermark (SimQueues_new cfg) c)%nat.
Proof.
  intros r.
  assert (pair_inv cfg r) as Hi; [|by destruct (Hi c) as (? & _ & ?)].
  unfold r. assert (pair_inv cfg (MkPairRun (SimPair_with_config cfg) [] [])) as H0.
  { intros c'. split_and!; [done | done |]. cbn. lia. }
  revert H0. generalize (MkPairRun (SimPair_with_config cfg) [] []).
  induction ops as [|o ops IH]; intros r0 H0; [done |]. cbn. by apply IH, pair_exec_inv.
Qed.
