(* ===== verification/Driver.v ===== *)
(** * The drivers

    [crates/cs-consensus/src/driver.rs]: the I/O shims that own a consensus
    core and one transport per peer, encode what the core sends, feed it what
    arrives, and turn applied entries into notifications of the proposer and
    of a commit observer.

    Transports are the interface of [Net]; an actor handle is a number, and
    what is sent to actors is kept in order in [rd_mail].  The mailbox loop of
    [spawn_raft_actor] is one turn per timer tick; the timer, the mailbox and
    the task it runs in belong to the actor runtime. *)

From stdpp Require Import base numbers gmap sorting list.
From Stdlib Require Import Strings.Byte.
From S2P Require Import Prelude RaftTypes RaftStore RaftNode Epaxos Codec Net.

Local Open Scope N_scope.
Local Open Scope crab_scope.

Notation ActorRef := N (only parsing).

(** The structs [Applied] and [Committed] of the driver, as actor payloads. *)
Inductive Note :=
  | NoteApplied (req_id : N) (result : bytes)
  | NoteCommitted (index : Index) (command : bytes).

(** ** Peers *)

Section peers.
Context {T : Type} `{Transport T}.

(** Keys of a [BTreeMap<ReplicaId, _>], ascending. *)
Definition peer_ids (peers : gmap ReplicaId T) : list ReplicaId :=
  merge_sort N.le (elements (dom peers)).

Definition send_to (peers : gmap ReplicaId T) (to : ReplicaId) (frame : bytes) :
    gmap ReplicaId T :=
  match peers !! to with
  | Some t => <[to := (tr_send t Consensus frame).1]> peers
  | None => peers
  end.

(** [while let Ok(Some(frame)) = t.try_recv(..)]. *)
Fixpoint recv_loop (fuel : nat) (t : T) : T * list bytes :=
  match fuel with
  | O => (t, [])
  | S fuel =>
      match tr_try_recv t Consensus with
      | (t, inr (Some frame)) =>
          let '(t, frames) := recv_loop fuel t in (t, frame :: frames)
      | (t, _) => (t, [])
      end
  end.

Definition recv_all (t : T) : T * list bytes := recv_loop (S (length (tr_waiting t Consensus))) t.

(** The frames waiting at every peer, in the order of the peers. *)
Definition collect_one (r : gmap ReplicaId T * list (ReplicaId * bytes)) (id : ReplicaId) :
    gmap ReplicaId T * list (ReplicaId * bytes) :=
  let '(peers, inbound) := r in
  match peers !! id with
  | Some t =>
      let '(t, frames) := recv_all t in
      (<[id := t]> peers, inbound ++ ((λ f, (id, f)) <$> frames))
  | None => r
  end.

Definition collect_inbound (peers : gmap ReplicaId T) :
    gmap ReplicaId T * list (ReplicaId * bytes) :=
  foldl collect_one (peers, []) (peer_ids peers).

End peers.

(** ** The Raft driver *)

(** [struct RaftDriver]. *)
Record RaftDriver (SM S T : Type) := MkRaftDriver {
  rd_node : RaftNode SM S;
  rd_peers : gmap ReplicaId T;
  rd_pending : gmap Index (ActorRef * N);
  rd_observer : option ActorRef;
  rd_notified_through : Index;
  rd_mail : list (ActorRef * Note);
}.

Arguments MkRaftDriver {SM S T}.
Arguments rd_node {SM S T}.
Arguments rd_peers {SM S T}.
Arguments rd_pending {SM S T}.
Arguments rd_observer {SM S T}.
Arguments rd_notified_through {SM S T}.
Arguments rd_mail {SM S T}.

#[export] Instance RaftDriver_eta SM S T : Eta (RaftDriver SM S T) := λ d,
  MkRaftDriver (rd_node d) (rd_peers d) (rd_pending d) (rd_observer d)
    (rd_notified_through d) (rd_mail d).

(** [enum RaftCommand]. *)
Inductive RaftCommand :=
  | CmdPropose (command : bytes)
  | CmdProposeReply (command : bytes) (reply : ActorRef) (req_id : N).

Section raft_driver.
Context {SM S T : Type} `{StateMachine SM} `{RaftLogStore S} `{Transport T} `{Layout}.

Notation driver := (RaftDriver SM S T).

(** [RaftDriver::new]. *)
Definition driver_new (node : RaftNode SM S) : driver :=
  MkRaftDriver node ∅ ∅ None (rn_last_applied node) [].

Definition add_peer (id : ReplicaId) (t : T) (d : driver) : driver :=
  d <| rd_peers ::= <[id := t]> |>.

Definition set_observer (obs : ActorRef) (d : driver) : driver := d <| rd_observer := Some obs |>.

Definition dispatch (outs : list (ReplicaId * Message)) (d : driver) : driver :=
  d <| rd_peers ::= λ ps, foldl (λ ps o, send_to ps o.1 (encode o.2)) ps outs |>.

(** One iteration of the loop of [notify_applied]. *)
Definition notify_one (d : driver) (a : Applied) : driver :=
  if decide (ap_index a ≤ rd_notified_through d)
  then d <| rd_pending ::= delete (ap_index a) |>
  else
    let d := d <| rd_notified_through := ap_index a |> in
    let d :=
      match rd_observer d with
      | Some obs =>
          d <| rd_mail ::= λ m, m ++ [(obs, NoteCommitted (ap_index a) (ap_command a))] |>
      | None => d
      end in
    match rd_pending d !! ap_index a with
    | Some (reply, req_id) =>
        d <| rd_pending ::= delete (ap_index a) |>
          <| rd_mail ::= λ m, m ++ [(reply, NoteApplied req_id (ap_result a))] |>
    | None => d
    end.

Definition notify_applied (d : driver) : driver :=
  let '(applied, node) := take_applied (rd_node d) in
  foldl notify_one (d <| rd_node := node |>) applied.

Definition driver_tick (d : driver) : driver :=
  let '(node, outs) := on_tick (rd_node d) in
  notify_applied (dispatch outs (d <| rd_node := node |>)).

(** Handling one inbound frame; [None] when decoding panics. *)
Definition poll_one (r : option (driver * nat)) (inb : ReplicaId * bytes) : option (driver * nat) :=
  match r with
  | None => None
  | Some (d, processed) =>
      match decode inb.2 with
      | Ok msg =>
          let '(node, outs) := on_message inb.1 msg (rd_node d) in
          Some (dispatch outs (d <| rd_node := node |>), (processed + 1)%nat)
      | Err _ => Some (d, processed)
      | Panics => None
      end
  end.

Definition driver_poll (d : driver) : option (driver * nat) :=
  let '(peers, inbound) := collect_inbound (rd_peers d) in
  match foldl poll_one (Some (d <| rd_peers := peers |>, 0%nat)) inbound with
  | Some (d, processed) => Some (notify_applied d, processed)
  | None => None
  end.

Definition driver_propose (command : bytes) (d : driver) : option Index * driver :=
  let '(idx, node, outs) := propose command (rd_node d) in
  (idx, notify_applied (dispatch outs (d <| rd_node := node |>))).

Definition propose_with_reply (command : bytes) (reply : ActorRef) (req_id : N) (d : driver) :
    option Index * driver :=
  let '(idx, node, outs) := propose command (rd_node d) in
  let d := d <| rd_node := node |> in
  let d :=
    match idx with
    | Some i => d <| rd_pending ::= <[i := (reply, req_id)]> |>
    | None => d
    end in
  (idx, notify_applied (dispatch outs d)).

Definition driver_read (req_id : N) (query : bytes) (d : driver) : driver :=
  let '(node, outs) := read req_id query (rd_node d) in
  notify_applied (dispatch outs (d <| rd_node := node |>)).

(** A command taken from the mailbox of the actor of [spawn_raft_actor]. *)
Definition actor_command (d : driver) (c : RaftCommand) : driver :=
  match c with
  | CmdPropose command => (driver_propose command d).2
  | CmdProposeReply command reply req_id => (propose_with_reply command reply req_id d).2
  end.

(** One turn of its loop: drain the mailbox, tick, poll. *)
Definition actor_turn (mailbox : list RaftCommand) (d : driver) : option (driver * nat) :=
  driver_poll (driver_tick (foldl actor_command d mailbox)).

End raft_driver.

(** ** The EPaxos driver *)

(** [struct EpaxosDriver]. *)
Record EpaxosDriver (SM T : Type) := MkEpaxosDriver {
  ed_node : EpaxosReplica SM;
  ed_peers : gmap ReplicaId T;
}.

Arguments MkEpaxosDriver {SM T}.
Arguments ed_node {SM T}.
Arguments ed_peers {SM T}.

#[export] Instance EpaxosDriver_eta SM T : Eta (EpaxosDriver SM T) := λ d,
  MkEpaxosDriver (ed_node d) (ed_peers d).

Section epaxos_driver.
Context {SM T : Type} `{EpaxosStateMachine SM} `{Transport T}.

Notation driver := (EpaxosDriver SM T).

Definition edriver_new (node : EpaxosReplica SM) : driver := MkEpaxosDriver node ∅.

Definition edriver_add_peer (id : ReplicaId) (t : T) (d : driver) : driver :=
  d <| ed_peers ::= <[id := t]> |>.

Definition edispatch (outs : list (ReplicaId * EMessage)) (d : driver) : driver :=
  d <| ed_peers ::= λ ps, foldl (λ ps o, send_to ps o.1 (encode_epaxos o.2)) ps outs |>.

Definition edriver_propose (command : bytes) (d : driver) : driver :=
  let '(node, outs) := epropose command (ed_node d) in
  edispatch outs (d <| ed_node := node |>).

Definition epoll_one (r : option (driver * nat)) (inb : ReplicaId * bytes) : option (driver * nat) :=
  match r with
  | None => None
  | Some (d, processed) =>
      match decode_epaxos inb.2 with
      | Ok msg =>
          let '(node, outs) := eon_message inb.1 msg (ed_node d) in
          Some (edispatch outs (d <| ed_node := node |>), (processed + 1)%nat)
      | Err _ => Some (d, processed)
      | Panics => None
      end
  end.

Definition edriver_poll (d : driver) : option (driver * nat) :=
  let '(peers, inbound) := collect_inbound (ed_peers d) in
  foldl epoll_one (Some (d <| ed_peers := peers |>, 0%nat)) inbound.

End epaxos_driver.

(** ** Draining the transports *)

Section drain.
Context {T : Type} `{LawfulTransport T}.

(** The receive loop takes what waits, and its bound is no restriction. *)
Lemma recv_loop_takes (t : T) fuel :
  (length (tr_waiting t Consensus) < fuel)%nat →
  (recv_loop fuel t).2 = tr_waiting t Consensus ∧
  tr_waiting (recv_loop fuel t).1 Consensus = [].
Proof.
  revert t. induction fuel as [|fuel IH]; intros t Hf; [lia |]. cbn.
  pose proof (tr_recv_waiting t Consensus) as Hr.
  destruct (tr_waiting t Consensus) as [|frame rest].
  - destruct Hr as (t' & r & -> & Hn & Ht'). destruct r as [e|[f|]]; [done | by destruct (Hn f) | done].
  - destruct Hr as (t' & -> & Ht'). cbn in Hf. destruct (IH t') as [He Hw]; [rewrite Ht'; lia |].
    destruct (recv_loop fuel t') as [t'' frames]. cbn in *. by subst.
Qed.

Lemma collect_fold (ids : list ReplicaId) (peers : gmap ReplicaId T) inbound :
  NoDup ids →
  (foldl collect_one (peers, inbound) ids).2 =
    inbound ++ (ids ≫= λ id, pair id <$> from_option (λ t, tr_waiting t Consensus) [] (peers !! id)).
Proof.
  revert peers inbound. induction ids as [|id ids IH]; intros peers inbound Hnd.
  { cbn. by rewrite app_nil_r. }
  apply NoDup_cons in Hnd as [Hid Hnd]. cbn [foldl mbind list_bind].
  unfold collect_one at 2. destruct (peers !! id) as [t|] eqn:Ht; cbn [from_option fmap list_fmap].
  - destruct (recv_loop_takes t (S (length (tr_waiting t Consensus)))) as [He _]; [lia |].
    unfold recv_all. destruct (recv_loop _ t) as [t' frames]. cbn in He. subst frames.
    rewrite IH, <-app_assoc by done. do 2 f_equal. apply list_bind_ext_in. intros j Hj.
    rewrite lookup_insert_ne; [done | congruence].
  - by apply IH.
Qed.

Lemma peer_ids_NoDup (peers : gmap ReplicaId T) : NoDup (peer_ids peers).
Proof. unfold peer_ids. rewrite merge_sort_Permutation. apply NoDup_elements. Qed.

Lemma elem_of_peer_ids (peers : gmap ReplicaId T) id : id ∈ peer_ids peers ↔ id ∈ dom peers.
Proof. unfold peer_ids. by rewrite merge_sort_Permutation, elem_of_elements. Qed.

(** What a round of receiving collects: the frames of every peer, in the
    order of the peers. *)
Lemma collect_inbound_frames (peers : gmap ReplicaId T) (frames : ReplicaId → list bytes) :
  (∀ id t, peers !! id = Some t → tr_waiting t Consensus = frames id) →
  (collect_inbound peers).2 = peer_ids peers ≫= λ id, pair id <$> frames id.
Proof.
  intros Hfr. unfold collect_inbound. rewrite collect_fold by apply peer_ids_NoDup. cbn.
  apply list_bind_ext_in. intros id Hid. apply elem_of_peer_ids, elem_of_dom in Hid as [t Ht].
  rewrite Ht. cbn. by rewrite (Hfr _ _ Ht).
Qed.

End drain.

(** ** Notifications *)

(** The indices the observers were notified of, in order. *)
Definition committed_indices (mail : list (ActorRef * Note)) : list Index :=
  omap (λ m, match m.2 with NoteCommitted i _ => Some i | NoteApplied _ _ => None end) mail.

Inductive driver_op :=
  | DTick | DPoll
  | DPropose (command : bytes)
  | DProposeReply (command : bytes) (reply : ActorRef) (req_id : N)
  | DRead (req_id : N) (query : bytes)
  | DObserve (obs : ActorRef).

Section notifications.
Context {SM S T : Type} `{StateMachine SM} `{RaftLogStore S} `{Transport T} `{Layout}.

Notation driver := (RaftDriver SM S T).

Definition driver_exec (d : driver) (o : driver_op) : option driver :=
  match o with
  | DTick => Some (driver_tick d)
  | DPoll => fst <$> driver_poll d
  | DPropose command => Some (driver_propose command d).2
  | DProposeReply command reply req_id => Some (propose_with_reply command reply req_id d).2
  | DRead req_id query => Some (driver_read req_id query d)
  | DObserve obs => Some (set_observer obs d)
  end.

Fixpoint driver_run (os : list driver_op) (d : driver) : option driver :=
  match os with
  | [] => Some d
  | o :: os => d' ← driver_exec d o; driver_run os d'
  end.

(** Every index notified is at or below the mark, in strictly rising order. *)
Definition notes_ok (d : driver) : Prop :=
  StronglySorted N.lt (committed_indices (rd_mail d)) ∧
  Forall (λ i, i ≤ rd_notified_through d) (committed_indices (rd_mail d)).

Lemma committed_indices_app m m' :
  committed_indices (m ++ m') = committed_indices m ++ committed_indices m'.
Proof. apply omap_app. Qed.

Lemma sorted_snoc (l : list N) x :
  StronglySorted N.lt l → Forall (λ y, y < x) l → StronglySorted N.lt (l ++ [x]).
Proof.
  induction 1 as [|y l Hs IH Hy]; intros Hx; cbn; [repeat constructor |].
  apply Forall_cons in Hx as [? ?]. constructor; [by apply IH |].
  apply Forall_app. split; [done |]. by repeat constructor.
Qed.

Lemma notify_one_ok d a : notes_ok d → notes_ok (notify_one d a).
Proof.
  intros [Hs Hle]. unfold notify_one. case_decide as Ha; [done |].
  set (d1 := d <| rd_notified_through := _ |>).
  set (d2 := match rd_observer d1 with Some _ => _ | None => d1 end).
  assert (notes_ok d2 ∧ rd_notified_through d2 = ap_index a) as [[Hs2 Hle2] Hn2].
  { assert (Forall (λ i, i < ap_index a) (committed_indices (rd_mail d))) as Hlt.
    { eapply Forall_impl; [exact Hle |]. cbn. lia. }
    unfold d2, d1. fields_goal. destruct (rd_observer d); split; try done; split; fields_goal.
    - rewrite committed_indices_app. by apply sorted_snoc.
    - rewrite committed_indices_app. apply Forall_app. split; [|by repeat constructor].
      eapply Forall_impl; [exact Hlt |]. cbn. lia.
    - done.
    - eapply Forall_impl; [exact Hlt |]. cbn. lia. }
  destruct (rd_pending d2 !! ap_index a) as [[reply req]|]; [|by split].
  split; fields_goal; rewrite committed_indices_app; cbn; rewrite app_nil_r; done.
Qed.

Lemma notify_applied_ok d : notes_ok d → notes_ok (notify_applied d).
Proof.
  intros Hd. unfold notify_applied. destruct (take_applied (rd_node d)) as [l node].
  assert (notes_ok (d <| rd_node := node |>)) as Hd' by done. revert Hd'.
  generalize (d <| rd_node := node |>) as d1. clear Hd.
  induction l as [|a l IH]; intros d1 Hd1; [done |]. cbn. by apply IH, notify_one_ok.
Qed.

Lemma driver_exec_ok d o d' : notes_ok d → driver_exec d o = Some d' → notes_ok d'.
Proof.
  intros Hd. destruct o as [| |c|c r q|q qu|obs]; cbn [driver_exec].
  - intros [= <-]. unfold driver_tick. destruct (on_tick (rd_node d)). by apply notify_applied_ok.
  - unfold driver_poll. destruct (collect_inbound (rd_peers d)) as [peers inb].
    assert (∀ r, (∀ d0 k, r = Some (d0, k) → notes_ok d0) →
      ∀ d0 k, foldl poll_one r inb = Some (d0, k) → notes_ok d0) as Hfold.
    { induction inb as [|f inb IH]; intros r Hr; [done |]. cbn. apply IH. intros d0 k.
      unfold poll_one. destruct r as [[d1 k1]|]; [|done]. specialize (Hr _ _ eq_refl).
      destruct (decode f.2); [|by intros [= <- _] | done].
      destruct (on_message _ _ _). by intros [= <- _]. }
    destruct (foldl poll_one _ inb) as [[d1 k1]|] eqn:Hf; [|done]. cbn. intros [= <-].
    apply notify_applied_ok. eapply Hfold; [|exact Hf]. by intros ? ? [= <- _].
  - intros [= <-]. unfold driver_propose. destruct (propose c (rd_node d)) as [[idx n] outs].
    by apply notify_applied_ok.
  - intros [= <-]. unfold propose_with_reply. destruct (propose c (rd_node d)) as [[idx n] outs].
    apply notify_applied_ok. by destruct idx.
  - intros [= <-]. unfold driver_read. destruct (read q qu (rd_node d)) as [n outs].
    by apply notify_applied_ok.
  - by intros [= <-].
Qed.

(** The commit observer is notified of each applied index at most once
    and in rising order, whatever mixture of ticks, polls, proposals and reads
    drives the node. *)
Theorem committed_in_order node os d :
  driver_run os (driver_new (T := T) node) = Some d →
  StronglySorted N.lt (committed_indices (rd_mail d)).
Proof.
  assert (notes_ok (driver_new (T := T) node)) as Hn by (by split; constructor).
  revert Hn. generalize (driver_new (T := T) node) as d0.
  induction os as [|o os IH]; intros d0 Hd0; cbn.
  - intros [= <-]. apply Hd0.
  - destruct (driver_exec d0 o) as [d1|] eqn:Ho; [|done]. cbn. apply IH.
    by eapply driver_exec_ok.
Qed.

(** ** Polling *)

(** Handing a message straight to the node. *)
Definition feed (d : driver) (p : ReplicaId * Message) : driver :=
  let '(node, outs) := on_message p.1 p.2 (rd_node d) in
  dispatch outs (d <| rd_node := node |>).

Lemma poll_fold (msgs : list (ReplicaId * Message)) (d : driver) k :
  Forall (λ p, message_fits p.2 ∧ fits (encode p.2)) msgs →
  foldl poll_one (Some (d, k)) ((λ p, (p.1, encode p.2)) <$> msgs) =
    Some (foldl feed d msgs, (k + length msgs)%nat).
Proof.
  intros Hms. revert d k. induction Hms as [|[from m] msgs [Hm Hf] _ IH]; intros d k; cbn.
  { by rewrite Nat.add_0_r. }
  cbn [fst snd] in *. pose proof (reads_run _ _ _ [] (reads_message m Hm)) as Hd.
  rewrite app_nil_r in Hd. unfold decode. rewrite Hd by done.
  unfold feed at 2. cbn [fst snd]. destruct (on_message from m (rd_node d)) as [n outs].
  rewrite IH. do 2 f_equal. lia.
Qed.

(** Polling hands the node exactly the messages its peers encoded, each
    peer's in the order it sent them and the peers in the order of their
    identifiers, and reports how many there were. *)
Theorem poll_delivers `{!LawfulTransport T} (d : driver) (sent : ReplicaId → list Message) :
  (∀ id t, rd_peers d !! id = Some t → tr_waiting t Consensus = encode <$> sent id) →
  (∀ id, Forall (λ m, message_fits m ∧ fits (encode m)) (sent id)) →
  let msgs := peer_ids (rd_peers d) ≫= λ id, pair id <$> sent id in
  driver_poll d =
    Some (notify_applied
            (foldl feed (d <| rd_peers := (collect_inbound (rd_peers d)).1 |>) msgs),
          length msgs).
Proof.
  intros Hw Hms msgs. unfold driver_poll. pose proof (collect_inbound_frames _ _ Hw) as Hin.
  destruct (collect_inbound (rd_peers d)) as [peers inb]. cbn [fst snd] in *. subst inb.
  replace (peer_ids (rd_peers d) ≫= _) with ((λ p, (p.1, encode p.2)) <$> msgs).
  - rewrite poll_fold; [done |]. apply Forall_bind, Forall_forall. intros id _.
    by apply Forall_fmap, Hms.
  - unfold msgs. rewrite list_fmap_of_bind. apply list_bind_ext_in. intros id _.
    by rewrite <-!list_fmap_compose.
Qed.

End notifications.
