(* ===== verification/RaftExample.v ===== *)
(** * Concrete runs of a Raft cluster

    An executable scheduler for the clusters of [RaftNet] and a small state
    machine, used to evaluate the model and to instantiate the theorems. *)

From stdpp Require Import base numbers gmap sorting list.
From Stdlib Require Import Strings.Byte.
From S2P Require Import Prelude RaftTypes RaftStore RaftNode RaftNet Sim Codec Net Driver.

Local Open Scope N_scope.
Local Open Scope crab_scope.

(** A state machine that strings the commands it applied together. *)
Definition tape : Type := list byte.

#[export] Instance tape_machine : StateMachine tape := {|
  sm_apply sm c := (sm ++ c, sm ++ c);
  sm_query sm _ := sm;
  sm_snapshot sm := sm;
  sm_restore _ data := data;
|}.

#[export] Instance tape_snapshots : SnapshotRestores tape.
Proof. done. Qed.

(** What a scheduler can make a cluster do; packets are named by the order
    they were sent in. *)
Inductive action :=
  | ATick (i : ReplicaId)
  | ADeliver (k : nat)
  | APropose (i : ReplicaId) (c : list byte)
  | ARead (i : ReplicaId) (req : N) (q : list byte)
  | ARestart (i : ReplicaId).

Section schedule.
Context {SM S : Type} `{StateMachine SM} `{RaftLogStore S}.
Context (V : list ReplicaId) (cfg : Config) (sm0 : SM).

Definition put (s : net SM S) (i : ReplicaId) (r : RaftNode SM S * list (ReplicaId * Message)) :
    net SM S :=
  let '(n', outs) := r in
  MkNet (λ j, if decide (j = i) then n' else n_nodes s j) (packets i outs ++ n_sent s).

Definition exec (s : net SM S) (a : action) : net SM S :=
  match a with
  | ATick i => put s i (on_tick (n_nodes s i))
  | ADeliver k =>
      match reverse (n_sent s) !! k with
      | Some (from, i, m) => put s i (on_message from m (n_nodes s i))
      | None => s
      end
  | APropose i c => let '(_, n', outs) := propose c (n_nodes s i) in put s i (n', outs)
  | ARead i req q => put s i (read req q (n_nodes s i))
  | ARestart i => put s i (restore_from i V cfg sm0 (rn_store (n_nodes s i)), [])
  end.

Definition run_schedule (acts : list action) (s : net SM S) : net SM S := foldl exec s acts.

End schedule.

(** Every schedule is a run of the cluster. *)
Section schedule_reach.
Context {SM S : Type} `{StateMachine SM} `{LawfulStore S}.
Context (V : list ReplicaId) (cfg : Config) (sm0 : SM).

Lemma put_step (s : net SM S) i r :
  nstep V cfg sm0 (n_sent s) i (n_nodes s i) r.1 r.2 → netstep V cfg sm0 s (put s i r).
Proof. destruct r as [n' outs]. apply netstep_intro. Qed.

Lemma exec_steps (s : net SM S) a : rtc (netstep V cfg sm0) s (exec V cfg sm0 s a).
Proof.
  destruct a as [i|k|i c|i req q|i]; cbn [exec].
  - apply rtc_once, put_step, n_tick.
  - destruct (reverse (n_sent s) !! k) as [[[from i] m]|] eqn:Hk; [|done].
    apply rtc_once, put_step, n_deliver.
    by eapply elem_of_reverse, list_elem_of_lookup_2.
  - pose proof (n_propose V cfg sm0 (n_sent s) i (n_nodes s i) c) as Hp.
    destruct (propose c (n_nodes s i)) as [[idx n'] outs]. by apply rtc_once, put_step.
  - apply rtc_once, put_step, n_read.
  - apply rtc_once, put_step, n_restart.
Qed.

Lemma run_schedule_steps (s : net SM S) acts : rtc (netstep V cfg sm0) s (run_schedule V cfg sm0 acts s).
Proof.
  revert s. induction acts as [|a acts IH]; intros s; cbn; [done |].
  etrans; [apply exec_steps | apply IH].
Qed.

End schedule_reach.

(** ** A run of three replicas *)

Definition trio : list ReplicaId := [1; 2; 3].

Definition trio_init : net tape MemLogStore :=
  net_init trio Config_default [] MemLogStore_new.

Definition trio_run (acts : list action) (s : net tape MemLogStore) : net tape MemLogStore :=
  run_schedule trio Config_default [] acts s.

Lemma trio_empty : store_empty MemLogStore_new.
Proof. by split_and!. Qed.

Lemma trio_reach acts : net_reach trio Config_default [] MemLogStore_new (trio_run acts trio_init).
Proof. apply run_schedule_steps. Qed.

(** Replica [1] times out and is elected. *)
Definition elect_1 : list action :=
  replicate 8 (ATick 1) ++ (ADeliver <$> seq 0 4).

(** Its first entry is replicated and committed, then a command is, and a
    heartbeat tells the others. *)
Definition commit_a : list action :=
  (ADeliver <$> seq 4 4) ++ [APropose 1 [x61]] ++ (ADeliver <$> seq 8 4) ++
  [ATick 1] ++ (ADeliver <$> seq 12 4).

(** Replica [1] crashes and comes back, replica [2] times out and is elected. *)
Definition elect_2 : list action :=
  [ARestart 1] ++ replicate 12 (ATick 2) ++ (ADeliver <$> seq 16 4).

Definition trio_a : net tape MemLogStore := trio_run (elect_1 ++ commit_a) trio_init.
Definition trio_b : net tape MemLogStore := trio_run elect_2 trio_a.

Lemma trio_a_reach : net_reach trio Config_default [] MemLogStore_new trio_a.
Proof. apply trio_reach. Qed.

Lemma trio_a_b : rtc (netstep trio Config_default []) trio_a trio_b.
Proof. apply run_schedule_steps. Qed.

Lemma trio_b_reach : net_reach trio Config_default [] MemLogStore_new trio_b.
Proof. unfold net_reach. etrans; [apply trio_a_reach | apply trio_a_b]. Qed.

(** ** The harness and the driver *)

Definition trio_harness : Cluster (RaftNode tape MemLogStore) Message :=
  new_cluster ((λ id, new_with_store id trio Config_default [] MemLogStore_new) <$> trio).

(** The harness after enough ticks for a first election to be under way. *)
Definition campaigning : panic + Cluster (RaftNode tape MemLogStore) Message :=
  harness_run (replicate 6 HTick) trio_harness.

Lemma campaigning_ok :
  ∃ c, campaigning = inr c ∧ addressed c ∧ (0 < length (cl_inflight c))%nat.
Proof.
  destruct campaigning as [p|c] eqn:Hc; [vm_compute in Hc; discriminate |].
  exists c. split; [done |]. split.
  - apply (embedded_run (nstep trio Config_default []) (n_tick _ _ _) (n_deliver _ _ _)
      (nstep_mono _ _ _) _ _ _ _ (Forall_replicate _ 6 HTick I) (embedded_init trio _ _ _ _ trio) Hc).
  - enough (match campaigning with inr c => (0 < length (cl_inflight c))%nat | inl _ => False end)
      as Hl by by rewrite Hc in Hl. vm_compute. lia.
Qed.

Lemma deliver_all_settles_witness :
  ∃ c, campaigning = inr c ∧
    match deliver_all c with
    | inl p => p = DidNotQuiesce
    | inr (k, c') => cl_inflight c' = [] ∧ (k ≤ N.to_nat (cl_max_deliveries c))%nat ∧
        dom (cl_nodes c') = dom (cl_nodes c)
    end.
Proof.
  destruct campaigning_ok as (c & Hc & Ha & _). exists c. split; [done |].
  apply (deliver_all_settles c Ha).
Defined.

Lemma isolated_hears_nothing_witness :
  ∃ c k c', campaigning = inr c ∧ deliver_all (isolate 3 c) = inr (k, c') ∧
    cl_nodes c' !! 3 = cl_nodes (isolate 3 c) !! 3.
Proof.
  destruct campaigning_ok as (c & Hc & Ha & _).
  destruct (deliver_all (isolate 3 c)) as [p|[k c']] eqn:Hd.
  - exfalso. enough (match campaigning with inr c =>
      match deliver_all (isolate 3 c) with inr _ => True | inl _ => False end | inl _ => False end)
      as Hok by by rewrite Hc, Hd in Hok. vm_compute. exact I.
  - exists c, k, c'. split_and!; [done | done |].
    apply (isolated_hears_nothing (isolate 3 c) 3 k c'); [exact Ha | | done].
    apply elem_of_union_l. by apply elem_of_singleton.
Defined.

(** A test that settles an election, proposes a command, drains what the
    follower has applied, and asks for a membership change. *)
Definition propose_test : list (harness_op tape MemLogStore) :=
  [HRun 9; HAct 2 (λ n, ((propose [x61] n).1.2, (propose [x61] n).2)); HStep; HStep;
   HNodeMut 3 (λ n, (take_applied n).2)].

Definition conf_test : list (harness_op tape MemLogStore) :=
  propose_test ++ [HAct 2 (λ n, ((propose_conf [1; 2; 3; 4] n).1.2, (propose_conf [1; 2; 3; 4] n).2))].

Lemma one_move {SM S} `{StateMachine SM} `{LawfulStore S} (R : _ → _ → RaftNode SM S → _ → _ → Prop)
    id (f : RaftNode SM S → RaftNode SM S * list (ReplicaId * Message)) :
  (∀ M n, R M id n (f n).1 (f n).2) → calls_only R id f.
Proof.
  intros HR M n. exists ((f n).2 ++ []). split; [|set_solver].
  eapply moves_more; [apply HR | apply moves_done].
Qed.

Lemma propose_test_plain :
  Forall (op_calls_only (nstep trio Config_default [])) propose_test.
Proof.
  repeat apply Forall_cons_2; try exact I; [| |by apply Forall_nil_2]; apply one_move; intros M n.
  - apply n_propose.
  - apply n_take_applied.
Qed.

Lemma conf_test_calls :
  Forall (op_calls_only (api_step trio Config_default [])) conf_test.
Proof.
  repeat apply Forall_cons_2; try exact I; [| | |by apply Forall_nil_2]; apply one_move; intros M n.
  - apply api_plain, n_propose.
  - apply api_plain, n_take_applied.
  - apply api_propose_conf.
Qed.

(** The learner [4] is in the harness too. *)
Definition quartet_harness : Cluster (RaftNode tape MemLogStore) Message :=
  new_cluster ((λ id, new_with_store id trio Config_default [] MemLogStore_new) <$> [1; 2; 3; 4]).

Lemma conf_test_ends :
  match harness_run conf_test quartet_harness with
  | inr c => rn_sm <$> cl_nodes c !! 3 = Some [x61] ∧ in_joint_config <$> cl_nodes c !! 2 = Some true
  | inl _ => False
  end.
Proof. vm_compute. done. Qed.

Lemma propose_test_ends :
  match harness_run propose_test quartet_harness with
  | inr c => rn_sm <$> cl_nodes c !! 3 = Some [x61]
  | inl _ => False
  end.
Proof. vm_compute. done. Qed.


(** A frame from [from] reaches the driver's transport. *)
Definition arrive {SM S} (from : ReplicaId) (m : Message) (d : RaftDriver SM S SimEndpoint) :
    RaftDriver SM S SimEndpoint :=
  d <| rd_peers ::= alter (λ e, e <| se_inbound ::=
         put_queue Consensus (sq_deque (se_inbound e) Consensus ++ [encode m]) |>) from |>.

Definition idle_link : SimEndpoint :=
  end_a (SimPair_with_config (MkTransportConfig 8 8 8 1024)).

Definition driver_1 : RaftDriver tape MemLogStore SimEndpoint :=
  add_peer 3 idle_link (add_peer 2 idle_link
    (driver_new (new_with_store 1 trio Config_default [] MemLogStore_new))).

Definition replies (id : ReplicaId) : list Message :=
  match id with 2 => [RequestVoteResp 0 true] | 3 => [RequestVoteResp 0 false] | _ => [] end.

Lemma poll_delivers_witness :
  let d := arrive 3 (RequestVoteResp 0 false) (arrive 2 (RequestVoteResp 0 true) driver_1) in
  driver_poll (H2 := layout64) d =
    Some (notify_applied (foldl feed (d <| rd_peers := (collect_inbound (rd_peers d)).1 |>)
            [(2, RequestVoteResp 0 true); (3, RequestVoteResp 0 false)]), 2%nat).
Proof.
  intros d. apply (poll_delivers (H2 := layout64) d replies).
  - intros id t Ht. assert (id = 2 ∨ id = 3) as [-> | ->].
    { apply elem_of_dom_2 in Ht. revert Ht.
      replace (dom (rd_peers d)) with ({[2; 3]} : gset ReplicaId) by (vm_compute; reflexivity).
      set_solver. }
    all: vm_compute in Ht; injection Ht as <-; reflexivity.
  - intros id. unfold replies.
    repeat case_match; repeat constructor; vm_compute; discriminate.
Defined.

(** A group of one replica commits alone. *)
Definition solo_ops : list driver_op :=
  DObserve 5 :: replicate 9 DTick ++ [DPropose [x61]; DPoll; DPropose [x62]].

Definition solo_node : RaftNode tape MemLogStore :=
  new_with_store 1 [1] Config_default [] MemLogStore_new.

Notation solo_driver :=
  (driver_run (T := SimEndpoint) (H2 := layout64) solo_ops (driver_new solo_node)) (only parsing).

Lemma some_with {A} (o : option A) (P : A → Prop) :
  match o with Some a => P a | None => False end → ∃ a, o = Some a ∧ P a.
Proof. destruct o; [by eexists | done]. Qed.

Lemma solo_notified :
  ∃ d, solo_driver = Some d ∧ committed_indices (rd_mail d) = [1; 2; 3].
Proof.
  apply (some_with _ (λ d, committed_indices (rd_mail d) = [1; 2; 3])).
  vm_compute. reflexivity.
Qed.

Lemma committed_in_order_witness :
  ∃ d, solo_driver = Some d ∧ committed_indices (rd_mail d) = [1; 2; 3] ∧
    StronglySorted N.lt (committed_indices (rd_mail d)).
Proof.
  destruct solo_notified as (d & Hd & Hc). exists d. split_and!; [exact Hd | exact Hc |].
  exact (committed_in_order solo_node solo_ops d Hd).
Defined.
