(* ===== verification/RaftCluster.v ===== *)
(** * Safety of a Raft cluster

    The cluster of [RaftNet] refines the abstract protocol of [RaftAbs], so
    the theorems of [RaftInvariant] hold of the replicas' own state: one
    leader per term, one vote per term, matching logs, committed entries in
    the log of every later leader, agreement of the committed prefixes and of
    the applied state machines, and durability across crashes.

    The cluster is one without compaction ([Hcfg]: no automatic snapshots,
    and [compact] is not among the steps of [RaftNet]), whose replicas start
    from an empty store ([Hs0]) and whose voters stay those it starts with
    ([propose_conf] is not among the steps). With compaction on the theorems
    fail: see [Findings]. *)

From stdpp Require Import base numbers gmap sorting list.
From Stdlib Require Import Strings.Byte.
From S2P Require Import Prelude RaftTypes RaftStore RaftNode RaftAbs RaftSafety RaftInvariant RaftNet RaftRefine RaftExample.

Local Open Scope N_scope.
Local Open Scope crab_scope.

Section cluster.
Context {SM S : Type} `{StateMachine SM} `{LawfulStore S}.
Context (V : list ReplicaId) (cfg : Config) (sm0 : SM) (s0 : S).

Notation node := (RaftNode SM S).
Notation net := (net SM S).
Notation netstep := (netstep (SM := SM) (S := S) V cfg sm0).
Notation net_reach := (net_reach V cfg sm0 s0).
Notation W := (sorted V).

(** ** The simulation *)

Record sim (s : net) (a : anet) : Prop := {
  sim_inv i : node_inv V sm0 i (n_nodes s i);
  sim_view i : a_nodes a i = view_of (n_nodes s i);
  sim_sent p : p ∈ a_sent a ↔ p ∈ n_sent s;
  sim_wf p : p ∈ n_sent s → packet_wf p.2;
  sim_reach : areach W a;
}.

Lemma sim_keeps s a i : sim s a → keeps V (n_sent s) i (view_of (n_nodes s i)).
Proof.
  intros Hs v' from l prev pt es lc rs Hst Hin Hlt. destruct Hs.
  destruct (asteps_net _ _ _ _ _ _ a Hst) as (a' & Hr & <- & _ & Hsent).
  { apply sim_view0. }
  { intros p Hp. by apply sim_sent0. }
  destruct (areach_ginv W a') as [g Hg]; [unfold areach in *; by etrans |].
  eapply (accept_keeps_commit W a' g i); [done | | done].
  apply Hsent. right. by apply sim_sent0.
Qed.

Lemma nstep_refines M i (n n' : node) outs :
  snapshot_threshold cfg = 0 → node_inv V sm0 i n → keeps V M i (view_of n) →
  (∀ p, p ∈ M → packet_wf p.2) → nstep V cfg sm0 M i n n' outs →
  refines V sm0 M i (view_of n) (n', outs).
Proof.
  intros Hcfg Hn Hk Hwf Hs. destruct Hs as [|from m Hin|c|req q| | |].
  - rewrite <-surjective_pairing. by apply on_tick_refines.
  - rewrite <-surjective_pairing. apply on_message_refines; try done. by apply (Hwf _ Hin).
  - by apply propose_refines.
  - rewrite <-surjective_pairing. by apply read_refines.
  - by apply drain_refines.
  - by apply drain_refines.
  - by apply restart_refines.
Qed.

Lemma sim_step s s' a :
  snapshot_threshold cfg = 0 → sim s a → netstep s s' →
  ∃ a', rtc (anstep W) a a' ∧ sim s' a'.
Proof.
  intros Hcfg Hs Hstep. destruct Hstep as [s i n' outs Hn].
  pose proof (sim_keeps s a i Hs) as Hk. pose proof Hs as [].
  destruct (nstep_refines _ _ _ _ _ Hcfg (sim_inv0 i) Hk sim_wf0 Hn) as (Hi & Hwf & Ha).
  destruct (asteps_net _ _ _ _ _ _ a Ha) as (a' & Hr & Hv & Hne & Hsent).
  { apply sim_view0. }
  { intros p Hp. by apply sim_sent0. }
  exists a'. split; [done |]. split; cbn.
  - intros j. case_decide as Hj; [by subst | done].
  - intros j. case_decide as Hj; [by subst |]. by rewrite Hne.
  - intros p. by rewrite Hsent, elem_of_app, sim_sent0.
  - intros p [Hp | Hp]%elem_of_app; [|by apply sim_wf0].
    apply list_elem_of_fmap in Hp as (o & -> & Ho).
    rewrite Forall_forall in Hwf. by apply (Hwf o).
  - unfold areach in *. by etrans.
Qed.

Lemma sim_steps s s' a :
  snapshot_threshold cfg = 0 → sim s a → rtc netstep s s' →
  ∃ a', rtc (anstep W) a a' ∧ sim s' a'.
Proof.
  intros Hcfg Hs Hr. revert a Hs. induction Hr as [s|s1 s2 s3 Hst _ IH]; intros a Hs.
  - by exists a.
  - destruct (sim_step _ _ _ Hcfg Hs Hst) as (a2 & Hr2 & Hs2).
    destruct (IH _ Hs2) as (a3 & Hr3 & Hs3). exists a3. split; [by etrans | done].
Qed.

Lemma sim_init :
  snapshot_threshold cfg = 0 → store_empty s0 → sim (net_init V cfg sm0 s0) ainit.
Proof.
  intros Hcfg (Hwf & Hl & Hb & Hbt & Hsn & Hh).
  split; unfold net_init; cbn [n_nodes n_sent a_nodes a_sent ainit].
  - intros i. destruct (fresh_spec V cfg sm0 i s0) as (a & b & ->).
    split; [split|]; cbn; rewrite ?Hl; try done. split; rewrite ?Hl; done.
  - intros i. destruct (fresh_spec V cfg sm0 i s0) as (a & b & ->).
    unfold view_of. cbn. by rewrite Hl, delete_empty.
  - done.
  - intros p Hp. by apply not_elem_of_nil in Hp.
  - constructor.
Qed.

Lemma sim_exists s :
  snapshot_threshold cfg = 0 → store_empty s0 → net_reach s → ∃ a g, sim s a ∧ ginv W a g.
Proof.
  intros Hcfg Hs0 Hr.
  destruct (sim_steps _ _ _ Hcfg (sim_init Hcfg Hs0) Hr) as (a & _ & Hs).
  destruct (areach_ginv W a (sim_reach _ _ Hs)) as [g Hg]. by exists a, g.
Qed.

(** ** Safety *)

(** What the theorems assume of the configuration and of the stores. *)
Context (Hcfg : snapshot_threshold cfg = 0) (Hs0 : store_empty s0).

(** C1: in a cluster with compaction off, whose replicas start from an empty
    store and whose membership is fixed, the replicas keep their invariant in
    every reachable state, and the cluster's history is one of the abstract
    protocol: some reachable state of [RaftAbs] has the replicas' views and
    the packets sent. *)
Theorem cluster_refines s :
  net_reach s →
  ∃ a, areach W a ∧ (∀ i, node_inv V sm0 i (n_nodes s i)) ∧
    (∀ i, a_nodes a i = view_of (n_nodes s i)) ∧ ∀ p, p ∈ a_sent a ↔ p ∈ n_sent s.
Proof.
  intros Hr. destruct (sim_exists s Hcfg Hs0 Hr) as (a & g & [] & _). by exists a.
Qed.

(** C2: election safety. With compaction off and a fixed membership, two
    replicas that lead the same term, even at different times of a run with
    crashes and an unreliable network, are the same replica. *)
Theorem election_safety s s' i j :
  net_reach s → rtc netstep s s' →
  rn_role (n_nodes s i) = Leader → rn_role (n_nodes s' j) = Leader →
  rn_current_term (n_nodes s i) = rn_current_term (n_nodes s' j) → i = j.
Proof.
  intros Hr Hr' Hi Hj Ht. destruct (sim_exists s Hcfg Hs0 Hr) as (a & g & Hs & Hg).
  destruct (sim_steps _ _ _ Hcfg Hs Hr') as (a' & Hra & Hs').
  pose proof (election_safety_ginv W a a' g i j Hg Hra) as Hm.
  rewrite !(sim_view _ _ Hs), !(sim_view _ _ Hs') in Hm. by apply Hm.
Qed.

(** A replica grants its vote of a term to one candidate, crashes
    included. *)
Theorem one_vote_per_term s i j j' t :
  net_reach s → (i, j, RequestVoteResp t true) ∈ n_sent s →
  (i, j', RequestVoteResp t true) ∈ n_sent s → j = j'.
Proof.
  intros Hr Hj Hj'. destruct (sim_exists s Hcfg Hs0 Hr) as (a & g & Hs & Hg).
  eapply (vote_once_ginv W a g i); [done | by apply (sim_sent _ _ Hs)..].
Qed.

(** C5: log matching. With compaction off, so that a position of the log is
    its index less one, and a fixed membership: if two logs hold an entry of
    the same term at the same position, they are identical up to it. *)
Theorem log_matching s i j k e e' :
  net_reach s → live (rn_store (n_nodes s i)) !! k = Some e →
  live (rn_store (n_nodes s j)) !! k = Some e' → e_term e = e_term e' →
  take (Datatypes.S k) (live (rn_store (n_nodes s i))) =
  take (Datatypes.S k) (live (rn_store (n_nodes s j))).
Proof.
  intros Hr He He' Ht. destruct (sim_exists s Hcfg Hs0 Hr) as (a & g & Hs & Hg).
  pose proof (log_matching_ginv W a g i j k e e' Hg) as Hm.
  rewrite !(sim_view _ _ Hs) in Hm. by apply Hm.
Qed.

(** C4: leader completeness. With compaction off and a fixed membership, what
    a replica has committed is in the log of every leader of the same or of a
    later term, at the same time or later. *)
Theorem leader_completeness s s' i j :
  net_reach s → rtc netstep s s' → rn_role (n_nodes s' j) = Leader →
  rn_current_term (n_nodes s i) ≤ rn_current_term (n_nodes s' j) →
  take (N.to_nat (rn_commit_index (n_nodes s i))) (live (rn_store (n_nodes s i)))
    `prefix_of` live (rn_store (n_nodes s' j)).
Proof.
  intros Hr Hr' Hj Ht. destruct (sim_exists s Hcfg Hs0 Hr) as (a & g & Hs & Hg).
  destruct (sim_steps _ _ _ Hcfg Hs Hr') as (a' & Hra & Hs').
  pose proof (leader_completeness_ginv W a a' g i j Hg Hra) as Hm.
  rewrite !(sim_view _ _ Hs), !(sim_view _ _ Hs') in Hm. by apply Hm.
Qed.

(** C3: state machine safety. With compaction off and a fixed membership,
    what two replicas have committed, each at its own point of a run, agrees:
    up to any index that both have committed the two logs are equal, so that
    the shorter committed prefix is a prefix of the longer. *)
Theorem state_machine_safety s s' i j k :
  net_reach s → rtc netstep s s' →
  k ≤ rn_commit_index (n_nodes s i) → k ≤ rn_commit_index (n_nodes s' j) →
  take (N.to_nat k) (live (rn_store (n_nodes s i))) =
  take (N.to_nat k) (live (rn_store (n_nodes s' j))).
Proof.
  intros Hr Hr' Hi Hj. destruct (sim_exists s Hcfg Hs0 Hr) as (a & g & Hs & Hg).
  destruct (sim_steps _ _ _ Hcfg Hs Hr') as (a' & Hra & Hs').
  pose proof (state_machine_safety_steps W a g a' i j k Hg Hra) as Hm.
  rewrite (sim_view _ _ Hs), (sim_view _ _ Hs') in Hm. by apply Hm.
Qed.

(** Two replicas that have applied the same number of entries hold the
    same state machine, and it is the replay of the committed commands. *)
Theorem applied_state_agreement s i j :
  net_reach s → rn_last_applied (n_nodes s i) = rn_last_applied (n_nodes s j) →
  rn_sm (n_nodes s i) = rn_sm (n_nodes s j) ∧
  rn_sm (n_nodes s i) =
    replay sm0 (take (N.to_nat (rn_last_applied (n_nodes s i)))
                  (live (rn_store (n_nodes s i)))).
Proof.
  intros Hr Hl. destruct (sim_exists s Hcfg Hs0 Hr) as (a & g & Hs & Hg).
  destruct (sim_inv _ _ Hs i) as [[] _]. destruct (sim_inv _ _ Hs j) as [[] _].
  split; [|done]. rewrite np_sm, np_sm0, <-Hl. f_equal.
  pose proof (state_machine_safety_ginv W a g i j (rn_last_applied (n_nodes s i)) Hg) as Hm.
  rewrite !(sim_view _ _ Hs) in Hm. apply Hm; cbn; lia.
Qed.

(** C6: durability. Along any run with compaction off and a fixed membership,
    crashes included, a replica's term and commit index never go back, its
    vote within a term stands, and the entries it has committed stay in its
    log. *)
Theorem durability s s' i :
  net_reach s → rtc netstep s s' →
  let n := n_nodes s i in let n' := n_nodes s' i in
  rn_current_term n ≤ rn_current_term n' ∧ rn_commit_index n ≤ rn_commit_index n' ∧
  (∀ c, rn_current_term n' = rn_current_term n → rn_voted_for n = Some c →
    rn_voted_for n' = Some c) ∧
  take (N.to_nat (rn_commit_index n)) (live (rn_store n)) `prefix_of` live (rn_store n').
Proof.
  intros Hr Hr'. destruct (sim_exists s Hcfg Hs0 Hr) as (a & g & Hs & Hg).
  destruct (sim_steps _ _ _ Hcfg Hs Hr') as (a' & Hra & Hs').
  pose proof (asteps_grows W a g a' i Hg Hra) as [Ht Hv Hc Hl].
  rewrite (sim_view _ _ Hs), (sim_view _ _ Hs') in *. by split_and!.
Qed.

End cluster.

(** ** The theorems on the run of [RaftExample] *)

Notation on_trio thm :=
  (thm trio Config_default [] MemLogStore_new eq_refl trio_empty) (only parsing).

Lemma cluster_refines_witness :
  ∃ a, areach (sorted trio) a ∧ (∀ i, node_inv trio [] i (n_nodes trio_b i)) ∧
    (∀ i, a_nodes a i = view_of (n_nodes trio_b i)) ∧
    ∀ p, p ∈ a_sent a ↔ p ∈ n_sent trio_b.
Proof. apply (on_trio cluster_refines trio_b trio_b_reach). Defined.

Lemma election_safety_witness :
  rn_role (n_nodes trio_a 1) = Leader ∧ rn_current_term (n_nodes trio_a 1) = 1 ∧
  ∀ j, rn_role (n_nodes trio_b j) = Leader → rn_current_term (n_nodes trio_b j) = 1 → 1 = j.
Proof.
  assert (rn_role (n_nodes trio_a 1) = Leader) as Hl by (vm_compute; reflexivity).
  assert (rn_current_term (n_nodes trio_a 1) = 1) as Ht by (vm_compute; reflexivity).
  split_and!; [done | done |]. intros j Hj Hjt.
  apply (on_trio election_safety trio_a trio_b 1 j trio_a_reach trio_a_b Hl Hj
    (eq_trans Ht (eq_sym Hjt))).
Defined.

Lemma one_vote_per_term_witness :
  (3, 2, RequestVoteResp 2 true) ∈ n_sent trio_b ∧
  ∀ j, (3, j, RequestVoteResp 2 true) ∈ n_sent trio_b → 2 = j.
Proof.
  assert ((3, 2, RequestVoteResp 2 true) ∈ n_sent trio_b) as Hin.
  { apply (list_elem_of_lookup_2 _ 3%nat). vm_compute. reflexivity. }
  split; [done |]. intros j Hj.
  apply (on_trio one_vote_per_term trio_b 3 2 j 2 trio_b_reach Hin Hj).
Defined.

Lemma log_matching_witness :
  take 2 (live (rn_store (n_nodes trio_b 1))) = take 2 (live (rn_store (n_nodes trio_b 2))).
Proof.
  apply (on_trio log_matching trio_b 1 2 1%nat
    (MkEntry 1 2 (Command [x61])) (MkEntry 1 2 (Command [x61])));
    [apply trio_b_reach | vm_compute; reflexivity..].
Defined.

Lemma leader_completeness_witness :
  rn_commit_index (n_nodes trio_a 1) = 2 ∧
  take (N.to_nat (rn_commit_index (n_nodes trio_a 1))) (live (rn_store (n_nodes trio_a 1)))
    `prefix_of` live (rn_store (n_nodes trio_b 2)).
Proof.
  split; [vm_compute; reflexivity |].
  apply (on_trio leader_completeness trio_a trio_b 1 2 trio_a_reach trio_a_b);
    [vm_compute; reflexivity | vm_compute; discriminate].
Defined.

Lemma state_machine_safety_witness :
  take 2 (live (rn_store (n_nodes trio_a 1))) = take 2 (live (rn_store (n_nodes trio_b 3))).
Proof.
  apply (on_trio state_machine_safety trio_a trio_b 1 3 2 trio_a_reach trio_a_b);
    vm_compute; discriminate.
Defined.

Lemma applied_state_agreement_witness :
  rn_last_applied (n_nodes trio_b 1) = 2 ∧
  rn_sm (n_nodes trio_b 1) = rn_sm (n_nodes trio_b 2).
Proof.
  split; [vm_compute; reflexivity |].
  apply (on_trio applied_state_agreement trio_b 1 2 trio_b_reach). vm_compute. reflexivity.
Defined.

Lemma durability_witness :
  rn_commit_index (n_nodes trio_a 1) = 2 ∧
  rn_commit_index (n_nodes trio_a 1) ≤ rn_commit_index (n_nodes trio_b 1).
Proof.
  split; [vm_compute; reflexivity |].
  apply (on_trio durability trio_a trio_b 1 trio_a_reach trio_a_b).
Defined.
