(* ===== verification/Float64.v ===== *)
(** * Rust's [f64]

    The binary64 numbers the sources compute with, as the specification floats
    of the Standard Library at precision [53] and maximal exponent [1024]:
    arithmetic rounds to nearest, ties to even.  NaN payloads are not
    represented. *)

From stdpp Require Import base numbers list.
From Stdlib Require Import ZArith QArith Floats.SpecFloat.
From S2P Require Import Prelude.

Local Open Scope Z_scope.

Notation f64 := spec_float.

Definition prec : Z := 53.
Definition emax : Z := 1024.

Definition f64_add : f64 → f64 → f64 := SFadd prec emax.
Definition f64_sub : f64 → f64 → f64 := SFsub prec emax.
Definition f64_mul : f64 → f64 → f64 := SFmul prec emax.
Definition f64_div : f64 → f64 → f64 := SFdiv prec emax.

(** [f64::partial_cmp] and [==]. *)
Definition f64_partial_cmp : f64 → f64 → option comparison := SFcompare.
Definition f64_eqb : f64 → f64 → bool := SFeqb.

Definition f64_zero : f64 := S754_zero false.

(** [z as f64]: the nearest float. *)
Definition f64_of_Z (z : Z) : f64 := binary_normalize prec emax z 0 false.

Definition f64_is_finite (f : f64) : bool :=
  match f with S754_zero _ | S754_finite _ _ _ => true | _ => false end.

Definition f64_is_nan (f : f64) : bool := match f with S754_nan => true | _ => false end.

Definition f64_is_infinite (f : f64) : bool :=
  match f with S754_infinity _ => true | _ => false end.

(** The integer part, towards zero, of a finite float. *)
Definition f64_trunc_Z (f : f64) : Z :=
  match f with
  | S754_finite s m e =>
      let a := if bool_decide (0 ≤ e) then Zpos m * 2 ^ e else Zpos m / 2 ^ (- e) in
      if s then - a else a
  | _ => 0
  end.

(** [f.fract() == 0.0]. *)
Definition f64_fract_is_zero (f : f64) : bool :=
  match f with
  | S754_zero _ => true
  | S754_finite s m e => bool_decide (0 ≤ e) || bool_decide (Zpos m mod 2 ^ (- e) = 0)
  | _ => false
  end.

Definition i64_min : Z := - 2 ^ 63.
Definition i64_max : Z := 2 ^ 63 - 1.

Definition in_i64 (z : Z) : Prop := i64_min ≤ z ≤ i64_max.

#[export] Instance in_i64_dec z : Decision (in_i64 z).
Proof. unfold in_i64. apply _. Defined.

(** [f as i64]: towards zero, saturating, NaN to zero. *)
Definition f64_as_i64 (f : f64) : Z :=
  match f with
  | S754_nan => 0
  | S754_infinity s => if s then i64_min else i64_max
  | _ => Z.max i64_min (Z.min i64_max (f64_trunc_Z f))
  end.

(** The exact value of a finite float. *)
Definition f64_val (f : f64) : option Q :=
  match f with
  | S754_zero _ => Some 0%Q
  | S754_finite s m e =>
      let a := if bool_decide (0 ≤ e) then inject_Z (Zpos m * 2 ^ e)
               else Qmake (Zpos m) (Z.to_pos (2 ^ (- e))) in
      Some (if s then (- a)%Q else a)
  | _ => None
  end.

(** [f64::to_bits]: sign, biased exponent, fraction.  A mantissa with all of
    its [53] bits is a normal number, whose leading bit is not stored. *)
Definition f64_to_bits (f : f64) : N :=
  let sign (s : bool) : Z := if s then 2 ^ 63 else 0 in
  Z.to_N
    match f with
    | S754_zero s => sign s
    | S754_infinity s => sign s + 2047 * 2 ^ 52
    | S754_nan => 2047 * 2 ^ 52 + 2 ^ 51
    | S754_finite s m e =>
        if bool_decide (2 ^ 52 ≤ Zpos m) then sign s + (e + 1075) * 2 ^ 52 + (Zpos m - 2 ^ 52)
        else sign s + Zpos m
    end.
