(* ===== verification/BigNum.v ===== *)
(** * Arbitrary-precision arithmetic, as an interface

    [crates/cs-core/src/number.rs] computes with the [num-bigint] and
    [num-rational] crates, which are not part of the repository.  They are the
    classes [BigInt] and [BigRational]: the operations the source calls, with
    the documented behaviour it relies on as laws about the integer or
    rational a value denotes.  The integers and the canonical rationals of the
    Standard Library are instances. *)

From stdpp Require Import base numbers list.
From Stdlib Require Import ZArith QArith Qcanon Qabs Strings.Byte Floats.SpecFloat.
From S2P Require Import Prelude RaftTypes Float64.

Local Open Scope Z_scope.

(** ** Digits *)

(** [char::to_digit]. *)
Definition to_digit (radix : N) (c : byte) : option N :=
  let x := Byte.to_N c in
  let d :=
    if bool_decide (48 ≤ x ≤ 57)%N then Some (x - 48)%N
    else if bool_decide (97 ≤ x ≤ 122)%N then Some (x - 87)%N
    else if bool_decide (65 ≤ x ≤ 90)%N then Some (x - 55)%N
    else None in
  match d with
  | Some d => if bool_decide (d < radix)%N then Some d else None
  | None => None
  end.

(** The number a string of digits denotes; [None] on any other character. *)
Definition digits_val (radix : N) (s : bytes) : option N :=
  foldl (λ acc c, match acc, to_digit radix c with
                  | Some a, Some d => Some (a * radix + d)%N
                  | _, _ => None
                  end) (Some 0%N) s.

(** A number with an optional sign, as [from_str_radix] reads it. *)
Definition signed_digits (radix : N) (s : bytes) : option Z :=
  match s with
  | [] => None
  | c :: ds =>
      if bool_decide (c = "-"%byte) then
        match ds with [] => None | _ => (λ n, - Z.of_N n) <$> digits_val radix ds end
      else if bool_decide (c = "+"%byte) then
        match ds with [] => None | _ => Z.of_N <$> digits_val radix ds end
      else Z.of_N <$> digits_val radix s
  end.

(** Little-endian digits of a number. *)
Fixpoint digits_le (fuel : nat) (base n : N) : list N :=
  match fuel with
  | O => []
  | S fuel => if bool_decide (n = 0)%N then [] else (n mod base)%N :: digits_le fuel base (n / base)
  end.

Definition digit_char (d : N) : byte := default "0"%byte (Byte.of_N (48 + d)).

Definition decimal (n : N) : bytes :=
  match digits_le (S (N.to_nat (N.size n))) 10 n with
  | [] => ["0"%byte]
  | ds => reverse (digit_char <$> ds)
  end.

Definition decimal_Z (z : Z) : bytes :=
  if bool_decide (z < 0) then "-"%byte :: decimal (Z.abs_N z) else decimal (Z.abs_N z).

Lemma digits_le_val fuel base n :
  (1 < base)%N → (n < 2 ^ N.of_nat fuel)%N →
  Forall (λ x, (x < base)%N) (digits_le fuel base n) ∧
  foldr (λ x acc, (x + base * acc)%N) 0%N (digits_le fuel base n) = n.
Proof.
  intros Hb. revert n. induction fuel as [|fuel IH]; intros n Hn; cbn.
  { assert (n = 0)%N as -> by (cbn in Hn; lia). by split. }
  case_bool_decide as H0; [by subst |]. cbn.
  destruct (IH (n / base)%N) as [Hall Hval].
  - replace (N.of_nat (S fuel)) with (1 + N.of_nat fuel)%N in Hn by lia.
    rewrite N.pow_add_r in Hn. apply N.Div0.div_lt_upper_bound.
    assert (2 * 2 ^ N.of_nat fuel ≤ base * 2 ^ N.of_nat fuel)%N by nia. cbn in Hn. lia.
  - split; [constructor; [apply N.mod_lt; lia | done] |]. rewrite Hval.
    pose proof (N.div_mod n base ltac:(lia)). lia.
Qed.

Lemma size_bound n : (n < 2 ^ N.size n)%N.
Proof. apply N.size_gt. Qed.

Lemma to_digit_char d : (d < 10)%N → to_digit 10 (digit_char d) = Some d ∧
  digit_char d ≠ "-"%byte ∧ digit_char d ≠ "+"%byte.
Proof.
  intros Hd. assert (d ∈ [0; 1; 2; 3; 4; 5; 6; 7; 8; 9]%N) as Hin.
  { rewrite !elem_of_cons. lia. }
  repeat (apply elem_of_cons in Hin as [->|Hin]; [by vm_compute |]). by apply elem_of_nil in Hin.
Qed.

Lemma digits_val_chars ds :
  Forall (λ d, (d < 10)%N) ds →
  digits_val 10 (reverse (digit_char <$> ds)) = Some (foldr (λ d acc, (d + 10 * acc)%N) 0%N ds).
Proof.
  unfold digits_val. induction 1 as [|d ds Hd _ IH]; [done |]. cbn [fmap list_fmap foldr].
  rewrite reverse_cons, foldl_app, IH. cbn. destruct (to_digit_char d Hd) as [-> _]. f_equal. lia.
Qed.

Lemma decimal_spec n :
  digits_val 10 (decimal n) = Some n ∧
  ∃ c s, decimal n = c :: s ∧ c ≠ "-"%byte ∧ c ≠ "+"%byte.
Proof.
  unfold decimal.
  destruct (digits_le_val (S (N.to_nat (N.size n))) 10 n) as [Hall Hval]; [lia | |].
  { rewrite Nat2N.inj_succ, N2Nat.id, N.pow_succ_r'. pose proof (N.size_gt n). lia. }
  destruct (digits_le _ _ _) as [|d ds]; [cbn in Hval; subst n; split; [done | by do 2 eexists] |].
  split; [by rewrite digits_val_chars, Hval |].
  destruct (reverse (digit_char <$> d :: ds)) as [|c s] eqn:Hr.
  { apply (f_equal length) in Hr. rewrite length_reverse in Hr. done. }
  exists c, s. split; [done |].
  assert (c ∈ digit_char <$> d :: ds) as Hc by (rewrite <-elem_of_reverse, Hr; left).
  apply list_elem_of_fmap in Hc as (e & -> & He). rewrite Forall_forall in Hall.
  by destruct (to_digit_char e (Hall e He)).
Qed.

(** Reading back what was printed. *)
Lemma signed_digits_decimal z : signed_digits 10 (decimal_Z z) = Some z.
Proof.
  unfold decimal_Z. destruct (decimal_spec (Z.abs_N z)) as [Hv (c & s & Hd & Hm & Hp)].
  case_bool_decide as Hz; rewrite Hd in *; cbn [signed_digits].
  - rewrite bool_decide_eq_true_2, Hv by done. cbn. f_equal. lia.
  - rewrite !bool_decide_eq_false_2 by done. rewrite Hv. cbn. f_equal. lia.
Qed.

(** ** The interfaces *)

(** [num_bigint::BigInt]. *)
Class BigInt (B : Type) := {
  big_of : Z → B;
  big_add : B → B → B;
  big_sub : B → B → B;
  big_mul : B → B → B;
  big_div : B → B → B;
  big_rem : B → B → B;
  big_neg : B → B;
  big_abs : B → B;
  big_cmp : B → B → comparison;
  big_sign : B → comparison;
  big_to_i64 : B → option Z;
  big_to_f64 : B → option f64;
  big_shl : B → N → B;
  big_shr : B → N → B;
  big_and : B → B → B;
  big_or : B → B → B;
  big_xor : B → B → B;
  big_bits : B → N;
  big_bytes_le : B → list N;
  big_from_str_radix : bytes → N → option B;
  big_to_string : B → bytes;
}.

(** What the crate documents: integers, with division towards zero, shifts to
    the right that round down, bit operations on two's complement, and the
    magnitude as little-endian bytes. *)
Class BigIntLaws (B : Type) `{BigInt B} := {
  big_val : B → Z;
  big_val_inj b c : big_val b = big_val c → b = c;
  big_of_val z : big_val (big_of z) = z;
  big_add_val b c : big_val (big_add b c) = big_val b + big_val c;
  big_sub_val b c : big_val (big_sub b c) = big_val b - big_val c;
  big_mul_val b c : big_val (big_mul b c) = big_val b * big_val c;
  big_div_val b c : big_val c ≠ 0 → big_val (big_div b c) = Z.quot (big_val b) (big_val c);
  big_rem_val b c : big_val c ≠ 0 → big_val (big_rem b c) = Z.rem (big_val b) (big_val c);
  big_neg_val b : big_val (big_neg b) = - big_val b;
  big_abs_val b : big_val (big_abs b) = Z.abs (big_val b);
  big_cmp_val b c : big_cmp b c = Z.compare (big_val b) (big_val c);
  big_sign_val b : big_sign b = Z.compare (big_val b) 0;
  big_to_i64_val b : big_to_i64 b = if decide (in_i64 (big_val b)) then Some (big_val b) else None;
  big_shl_val b n : big_val (big_shl b n) = Z.shiftl (big_val b) (Z.of_N n);
  big_shr_val b n : big_val (big_shr b n) = Z.shiftr (big_val b) (Z.of_N n);
  big_and_val b c : big_val (big_and b c) = Z.land (big_val b) (big_val c);
  big_or_val b c : big_val (big_or b c) = Z.lor (big_val b) (big_val c);
  big_xor_val b c : big_val (big_xor b c) = Z.lxor (big_val b) (big_val c);
  big_bits_val b : big_bits b = N.size (Z.abs_N (big_val b));
  big_bytes_val b :
    Forall (λ x, (x < 256)%N) (big_bytes_le b) ∧
    foldr (λ x acc, (x + 256 * acc)%N) 0%N (big_bytes_le b) = Z.abs_N (big_val b);
  big_to_string_val b : big_to_string b = decimal_Z (big_val b);
  big_from_str_val s radix z :
    (2 ≤ radix ≤ 36)%N → signed_digits radix s = Some z → big_val <$> big_from_str_radix s radix = Some z;
}.

(** [num_rational::BigRational]. *)
Class BigRational (R B : Type) := {
  rat_of : B → R;
  rat_add : R → R → R;
  rat_sub : R → R → R;
  rat_mul : R → R → R;
  rat_div : R → R → R;
  rat_neg : R → R;
  rat_abs : R → R;
  rat_cmp : R → R → comparison;
  rat_eqb : R → R → bool;
  rat_numer : R → B;
  rat_denom : R → B;
  rat_is_integer : R → bool;
  rat_is_zero : R → bool;
  rat_from_float : f64 → option R;
  rat_to_f64 : R → option f64;
  rat_to_string : R → bytes;
}.

(** The rational a numerator and a denominator denote. *)
Definition ratio (n d : Z) : Q := Qmake n (Z.to_pos d).

Definition rat_val {R B : Type} `{BigIntLaws B} `{BigRational R B} (r : R) : Q :=
  ratio (big_val (rat_numer r)) (big_val (rat_denom r)).

(** What the crate documents: rationals in lowest terms with a positive
    denominator. *)
Class BigRationalLaws (R B : Type) `{BigIntLaws B} `{BigRational R B} := {
  rat_inj (r s : R) : (rat_val r == rat_val s)%Q → r = s;
  rat_denom_pos r : 0 < big_val (rat_denom r);
  rat_reduced r : Z.gcd (big_val (rat_numer r)) (big_val (rat_denom r)) = 1;
  rat_of_val b : (rat_val (rat_of b) == inject_Z (big_val b))%Q;
  rat_add_val r s : (rat_val (rat_add r s) == rat_val r + rat_val s)%Q;
  rat_sub_val r s : (rat_val (rat_sub r s) == rat_val r - rat_val s)%Q;
  rat_mul_val r s : (rat_val (rat_mul r s) == rat_val r * rat_val s)%Q;
  rat_div_val r s : ¬ (rat_val s == 0)%Q → (rat_val (rat_div r s) == rat_val r / rat_val s)%Q;
  rat_neg_val r : (rat_val (rat_neg r) == - rat_val r)%Q;
  rat_abs_val r : (rat_val (rat_abs r) == Qabs (rat_val r))%Q;
  rat_cmp_val r s : rat_cmp r s = Qcompare (rat_val r) (rat_val s);
  rat_eqb_val r s : rat_eqb r s = Qeq_bool (rat_val r) (rat_val s);
  rat_is_integer_val r : rat_is_integer r = bool_decide (big_val (rat_denom r) = 1);
  rat_is_zero_val r : rat_is_zero r = bool_decide (big_val (rat_numer r) = 0);
  rat_from_float_val f : match rat_from_float f, f64_val f with
    | Some r, Some q => (rat_val r == q)%Q
    | None, None => True
    | _, _ => False
    end;
}.

Create HintDb big.

#[export] Hint Rewrite @big_of_val @big_add_val @big_sub_val @big_mul_val @big_neg_val @big_abs_val
  @big_cmp_val @big_sign_val @big_shl_val @big_shr_val @big_and_val @big_or_val @big_xor_val : big.

(** ** The integers *)

#[export] Instance Z_big : BigInt Z := {|
  big_of := id;
  big_add := Z.add;
  big_sub := Z.sub;
  big_mul := Z.mul;
  big_div := Z.quot;
  big_rem := Z.rem;
  big_neg := Z.opp;
  big_abs := Z.abs;
  big_cmp := Z.compare;
  big_sign z := Z.compare z 0;
  big_to_i64 z := if decide (in_i64 z) then Some z else None;
  big_to_f64 z := Some (f64_of_Z z);
  big_shl z n := Z.shiftl z (Z.of_N n);
  big_shr z n := Z.shiftr z (Z.of_N n);
  big_and := Z.land;
  big_or := Z.lor;
  big_xor := Z.lxor;
  big_bits z := N.size (Z.abs_N z);
  big_bytes_le z := digits_le (S (N.to_nat (N.size (Z.abs_N z)))) 256 (Z.abs_N z);
  big_from_str_radix s radix := signed_digits radix s;
  big_to_string := decimal_Z;
|}.

#[export] Instance Z_big_laws : BigIntLaws Z.
Proof.
  refine {| big_val := id : Z → Z |}; try done;
    [intros b; cbn -[digits_le N.of_nat] | by intros s radix z _ Hs; cbn; rewrite Hs].
  apply digits_le_val; [done |]. rewrite Nat2N.inj_succ, N2Nat.id.
  pose proof (size_bound (Z.abs_N b)). rewrite N.pow_succ_r'. lia.
Defined.

(** ** The canonical rationals *)

#[export] Instance Qc_rational : BigRational Qc Z := {|
  rat_of z := Q2Qc (inject_Z z);
  rat_add := Qcplus;
  rat_sub := Qcminus;
  rat_mul := Qcmult;
  rat_div := Qcdiv;
  rat_neg := Qcopp;
  rat_abs q := Q2Qc (Qabs (this q));
  rat_cmp q r := Qcompare (this q) (this r);
  rat_eqb q r := Qeq_bool (this q) (this r);
  rat_numer q := Qnum (this q);
  rat_denom q := Zpos (Qden (this q));
  rat_is_integer q := bool_decide (Zpos (Qden (this q)) = 1);
  rat_is_zero q := bool_decide (Qnum (this q) = 0);
  rat_from_float f := Q2Qc <$> f64_val f;
  rat_to_f64 q := Some (f64_div (f64_of_Z (Qnum (this q))) (f64_of_Z (Zpos (Qden (this q)))));
  rat_to_string q := decimal_Z (Qnum (this q)) ++ ["/"%byte] ++ decimal_Z (Zpos (Qden (this q)));
|}.

Lemma Qc_val (q : Qc) : rat_val q = this q.
Proof. unfold rat_val, ratio. cbn. by destruct (this q). Qed.

#[export] Instance Qc_rational_laws : BigRationalLaws Qc Z.
Proof.
  split; intros; rewrite ?Qc_val; try done; try apply Qred_correct.
  - by apply Qc_is_canon.
  - apply Qred_identity2. apply canon.
  - cbn. rewrite Qred_correct. apply Qplus_comp; [done |]. cbn. apply Qred_correct.
  - cbn. rewrite Qred_correct. apply Qmult_comp; [done |]. cbn. apply Qred_correct.
  - cbn. destruct (f64_val f) as [q|]; cbn; [| done]. rewrite Qc_val. apply Qred_correct.
Defined.
