(* ===== verification/Number.v ===== *)
(** * The numeric tower

    [crates/cs-core/src/number.rs]: fixnums, big integers, exact rationals and
    flonums, with the arithmetic, integer division, comparison and bitwise
    operations of the language.  Big integers and rationals are those of
    [BigNum], flonums those of [Float64].

    A function that the code ends with [unreachable!] when misused returns
    [None] there. *)

From stdpp Require Import base numbers list.
From Stdlib Require Import ZArith QArith Qabs Strings.Byte Floats.SpecFloat.
From S2P Require Import Prelude RaftTypes Float64 BigNum.

Local Open Scope Z_scope.

(** [i64::checked_add] and its siblings on the exact result. *)
Definition checked (z : Z) : option Z := if decide (in_i64 z) then Some z else None.

(** [i64::from_str_radix]. *)
Definition i64_from_str_radix (s : bytes) (radix : N) : option Z :=
  match signed_digits radix s with Some z => checked z | None => None end.

(** [!n], [count_ones] and [leading_zeros] of an [i64]. *)
Definition i64_not (n : Z) : Z := - n - 1.

Fixpoint count_ones_pos (p : positive) : Z :=
  match p with xH => 1 | xO p => count_ones_pos p | xI p => 1 + count_ones_pos p end.

Definition count_ones (z : Z) : Z :=
  match z with Z0 => 0 | Zpos p => count_ones_pos p | Zneg p => 0 end.

Definition leading_zeros (z : Z) : Z := 64 - Z.of_N (N.size (Z.to_N z)).

(** [enum Number] and [enum NumError]. *)
Inductive Number (B R : Type) :=
  | Fixnum (v : Z)
  | Big (b : B)
  | Rat (r : R)
  | Flonum (f : f64).

Arguments Fixnum {B R} v.
Arguments Big {B R} b.
Arguments Rat {B R} r.
Arguments Flonum {B R} f.

Inductive NumError := DivisionByZero.

Section number.
Context {B R : Type} `{BigInt B} `{BigRational R B}.

Notation num := (Number B R).

Definition big_is_zero (b : B) : bool := bool_decide (big_sign b = Eq).
Definition big_is_negative (b : B) : bool := bool_decide (big_sign b = Lt).

Definition parse_decimal_integer (s : bytes) : option num :=
  match i64_from_str_radix s 10 with
  | Some v => Some (Fixnum v)
  | None => Big <$> big_from_str_radix s 10
  end.

Definition parse_radix_integer (s : bytes) (radix : N) : option num :=
  match i64_from_str_radix s radix with
  | Some v => Some (Fixnum v)
  | None => Big <$> big_from_str_radix s radix
  end.

Definition is_exact (n : num) : bool := match n with Flonum _ => false | _ => true end.

Definition is_zero (n : num) : bool :=
  match n with
  | Fixnum v => bool_decide (v = 0)
  | Big b => big_is_zero b
  | Rat r => rat_is_zero r
  | Flonum f => f64_eqb f f64_zero
  end.

Definition to_f64 (n : num) : f64 :=
  match n with
  | Fixnum v => f64_of_Z v
  | Big b => default S754_nan (big_to_f64 b)
  | Rat r => default S754_nan (rat_to_f64 r)
  | Flonum f => f
  end.

Definition to_rational (n : num) : option R :=
  match n with
  | Fixnum v => Some (rat_of (big_of v))
  | Big b => Some (rat_of b)
  | Rat r => Some r
  | Flonum _ => None
  end.

Definition simplify_rational (r : R) : num :=
  if rat_is_integer r then
    match big_to_i64 (rat_numer r) with
    | Some small => Fixnum small
    | None => Big (rat_numer r)
    end
  else Rat r.

Definition simplify_bigint (b : B) : num :=
  match big_to_i64 b with Some small => Fixnum small | None => Big b end.

(** [exact_add], [exact_sub] and [exact_mul]. *)
Definition exact_op (op : R → R → R) (a b : num) : option num :=
  match to_rational a, to_rational b with
  | Some x, Some y => Some (simplify_rational (op x y))
  | _, _ => None
  end.

Definition exact_add : num → num → option num := exact_op rat_add.
Definition exact_sub : num → num → option num := exact_op rat_sub.
Definition exact_mul : num → num → option num := exact_op rat_mul.

Definition add (a b : num) : option num :=
  if negb (is_exact a) || negb (is_exact b) then Some (Flonum (f64_add (to_f64 a) (to_f64 b)))
  else
    match a, b with
    | Fixnum x, Fixnum y =>
        match checked (x + y) with
        | Some v => Some (Fixnum v)
        | None => Some (Big (big_add (big_of x) (big_of y)))
        end
    | _, _ => exact_add a b
    end.

Definition sub (a b : num) : option num :=
  if negb (is_exact a) || negb (is_exact b) then Some (Flonum (f64_sub (to_f64 a) (to_f64 b)))
  else
    match a, b with
    | Fixnum x, Fixnum y =>
        match checked (x - y) with
        | Some v => Some (Fixnum v)
        | None => Some (Big (big_sub (big_of x) (big_of y)))
        end
    | _, _ => exact_sub a b
    end.

Definition mul (a b : num) : option num :=
  if negb (is_exact a) || negb (is_exact b) then Some (Flonum (f64_mul (to_f64 a) (to_f64 b)))
  else
    match a, b with
    | Fixnum x, Fixnum y =>
        match checked (x * y) with
        | Some v => Some (Fixnum v)
        | None => Some (Big (big_mul (big_of x) (big_of y)))
        end
    | _, _ => exact_mul a b
    end.

Definition div (a b : num) : option (NumError + num) :=
  if is_zero b then
    if negb (is_exact a) || negb (is_exact b)
    then Some (inr (Flonum (f64_div (to_f64 a) (to_f64 b))))
    else Some (inl DivisionByZero)
  else if negb (is_exact a) || negb (is_exact b)
  then Some (inr (Flonum (f64_div (to_f64 a) (to_f64 b))))
  else
    match to_rational a, to_rational b with
    | Some x, Some y => Some (inr (simplify_rational (rat_div x y)))
    | _, _ => None
    end.

Definition neg (n : num) : num :=
  match n with
  | Fixnum v => match checked (- v) with Some v => Fixnum v | None => Big (big_neg (big_of v)) end
  | Big b => Big (big_neg b)
  | Rat r => Rat (rat_neg r)
  | Flonum f => Flonum (SFopp f)
  end.

Definition abs (n : num) : num :=
  match n with
  | Fixnum v => match checked (Z.abs v) with Some v => Fixnum v | None => Big (big_abs (big_of v)) end
  | Big b => Big (big_abs b)
  | Rat r => Rat (rat_abs r)
  | Flonum f => Flonum (SFabs f)
  end.

Definition cmp (a b : num) : option comparison :=
  if negb (is_exact a) || negb (is_exact b) then Some (default Eq (f64_partial_cmp (to_f64 a) (to_f64 b)))
  else
    match a, b with
    | Fixnum x, Fixnum y => Some (Z.compare x y)
    | Big x, Big y => Some (big_cmp x y)
    | Fixnum x, Big y =>
        match big_to_i64 y with
        | Some y => Some (Z.compare x y)
        | None => Some (big_cmp (big_of x) y)
        end
    | Big x, Fixnum y =>
        match big_to_i64 x with
        | Some x => Some (Z.compare x y)
        | None => Some (big_cmp x (big_of y))
        end
    | _, _ =>
        match to_rational a, to_rational b with
        | Some x, Some y => Some (rat_cmp x y)
        | _, _ => None
        end
    end.

Definition eq_value (a b : num) : option bool :=
  if negb (is_exact a) || negb (is_exact b) then Some (f64_eqb (to_f64 a) (to_f64 b))
  else
    match a, b with
    | Fixnum x, Fixnum y => Some (bool_decide (x = y))
    | Big x, Big y => Some (bool_decide (big_cmp x y = Eq))
    | Fixnum x, Big y | Big y, Fixnum x =>
        match big_to_i64 y with
        | Some y => Some (bool_decide (x = y))
        | None => Some false
        end
    | _, _ =>
        match to_rational a, to_rational b with
        | Some x, Some y => Some (rat_eqb x y)
        | _, _ => None
        end
    end.

Definition is_integer (n : num) : bool :=
  match n with
  | Fixnum _ | Big _ => true
  | Rat r => rat_is_integer r
  | Flonum f => f64_is_finite f && f64_fract_is_zero f
  end.

Definition to_bigint (n : num) : option B :=
  match n with
  | Fixnum v => Some (big_of v)
  | Big b => Some b
  | Rat r => if rat_is_integer r then Some (rat_numer r) else None
  | Flonum f =>
      if f64_is_finite f && f64_fract_is_zero f then Some (big_of (f64_as_i64 f)) else None
  end.

Definition numerator (n : num) : option num :=
  match n with
  | Fixnum _ | Big _ => Some n
  | Rat r => Some (simplify_bigint (rat_numer r))
  | Flonum f =>
      if f64_is_finite f then
        (λ r, Flonum (default S754_nan (big_to_f64 (rat_numer r)))) <$> rat_from_float f
      else None
  end.

Definition denominator (n : num) : option num :=
  match n with
  | Fixnum _ | Big _ => Some (Fixnum 1)
  | Rat r => Some (simplify_bigint (rat_denom r))
  | Flonum f =>
      if f64_is_finite f then
        (λ r, Flonum (default S754_nan (big_to_f64 (rat_denom r)))) <$> rat_from_float f
      else None
  end.

(** The two integer operands of a division, or its error. *)
Definition with_integers (a b : num) (f : B → B → num) : NumError + num :=
  if is_zero b then inl DivisionByZero
  else
    match to_bigint a, to_bigint b with
    | Some x, Some y => inr (f x y)
    | _, _ => inl DivisionByZero
    end.

Definition quotient (a b : num) : NumError + num :=
  with_integers a b (λ x y, simplify_bigint (big_div x y)).

Definition remainder (a b : num) : NumError + num :=
  with_integers a b (λ x y, simplify_bigint (big_rem x y)).

(** The remainder moved to the divisor's sign. *)
Definition floor_rem (x y : B) : B :=
  let r := big_rem x y in
  if bool_decide (big_sign r = Lt ∧ big_sign y = Gt) || bool_decide (big_sign r = Gt ∧ big_sign y = Lt)
  then big_add r y else r.

Definition modulo (a b : num) : NumError + num :=
  with_integers a b (λ x y, simplify_bigint (floor_rem x y)).

Definition floor_quotient (a b : num) : NumError + num :=
  with_integers a b (λ x y, simplify_bigint (big_div (big_sub x (floor_rem x y)) y)).

Definition euclid_div (a b : num) : NumError + num :=
  with_integers a b (λ x y,
    let q_trunc := big_div x y in
    let r := big_sub x (big_mul q_trunc y) in
    simplify_bigint
      (if bool_decide (big_sign r = Lt) then
         if bool_decide (big_sign y = Gt) then big_sub q_trunc (big_of 1)
         else big_add q_trunc (big_of 1)
       else q_trunc)).

Definition euclid_mod (a b : num) : NumError + num :=
  match euclid_div a b with
  | inl e => inl e
  | inr d =>
      match to_bigint a, to_bigint b, to_bigint d with
      | Some x, Some y, Some dn => inr (simplify_bigint (big_sub x (big_mul dn y)))
      | _, _, _ => inl DivisionByZero
      end
  end.

Definition euclid_div0 (a b : num) : NumError + num :=
  if is_zero b then inl DivisionByZero
  else
    match euclid_div a b with
    | inl e => inl e
    | inr d =>
        match to_bigint a, to_bigint b, to_bigint d with
        | Some x, Some y, Some dn =>
            let m := big_sub x (big_mul dn y) in
            let abs_b := big_abs y in
            let two_m := big_mul m (big_of 2) in
            let shift :=
              bool_decide (big_cmp two_m abs_b = Gt) ||
              (bool_decide (big_cmp two_m abs_b = Eq) && big_is_zero (big_rem abs_b (big_of 2))) in
            inr (simplify_bigint
              (if shift then
                 if bool_decide (big_sign y = Gt) then big_add dn (big_of 1)
                 else big_sub dn (big_of 1)
               else dn))
        | _, _, _ => inl DivisionByZero
        end
    end.

Definition euclid_mod0 (a b : num) : NumError + num :=
  match euclid_div0 a b with
  | inl e => inl e
  | inr d0 =>
      match to_bigint a, to_bigint b, to_bigint d0 with
      | Some x, Some y, Some d0n => inr (simplify_bigint (big_sub x (big_mul d0n y)))
      | _, _, _ => inl DivisionByZero
      end
  end.

(** The Newton iteration of [exact_integer_sqrt]; [None] when the bound on its
    turns is used up. *)
Fixpoint newton (fuel : nat) (n x : B) : option B :=
  match fuel with
  | O => None
  | S fuel =>
      let y := big_shr (big_add x (big_div n x)) 1 in
      if bool_decide (big_cmp y x = Lt) then newton fuel n y else Some x
  end.

(** Enough turns: the distance to the root halves, and starts below
    [2 ^ (bits / 2 + 1)]. *)
Definition newton_fuel (n : B) : nat := N.to_nat (big_bits n / 2 + 3).

Definition exact_integer_sqrt (a : num) : option (option (num * num)) :=
  match to_bigint a with
  | None => Some None
  | Some n =>
      if big_is_negative n then Some None
      else if big_is_zero n then Some (Some (Fixnum 0, Fixnum 0))
      else
        match newton (newton_fuel n) n (big_shl (big_of 1) (big_bits n / 2 + 1)) with
        | None => None
        | Some x => Some (Some (simplify_bigint x, simplify_bigint (big_sub n (big_mul x x))))
        end
  end.

Definition to_exact (n : num) : option num :=
  match n with
  | Flonum f =>
      if negb (f64_is_finite f) then None
      else if f64_fract_is_zero f && f64_eqb (f64_of_Z (f64_as_i64 f)) f
      then Some (Fixnum (f64_as_i64 f))
      else simplify_rational <$> rat_from_float f
  | n => Some n
  end.

(** *** Bits *)

Definition with_bits (op : B → B → B) (a b : num) : option num :=
  match to_bigint a, to_bigint b with
  | Some x, Some y => Some (simplify_bigint (op x y))
  | _, _ => None
  end.

Definition bit_and : num → num → option num := with_bits big_and.
Definition bit_or : num → num → option num := with_bits big_or.
Definition bit_xor : num → num → option num := with_bits big_xor.

Definition bit_not (a : num) : option num :=
  (λ n, simplify_bigint (big_sub (big_neg n) (big_of 1))) <$> to_bigint a.

Definition bigint_arith_shr (n : B) (k : N) : B :=
  match big_cmp n (big_of 0) with
  | Lt =>
      let pos := big_sub (big_neg n) (big_of 1) in
      big_sub (big_neg (big_shr pos k)) (big_of 1)
  | _ => big_shr n k
  end.

(** A count outside [i64] gives no result; [-c as usize] of a negative count
    is its absolute value, also for [i64::MIN], whose negation wraps. *)
Definition arith_shift (a count : num) : option num :=
  match to_bigint a, to_bigint count with
  | Some n, Some c =>
      match big_to_i64 c with
      | Some k =>
          if bool_decide (0 ≤ k) then Some (simplify_bigint (big_shl n (Z.to_N k)))
          else Some (simplify_bigint (bigint_arith_shr n (Z.to_N (- k))))
      | None => None
      end
  | _, _ => None
  end.

(** [b.magnitude().to_bytes_le()], the ones of its bytes summed up. *)
Definition magnitude_ones (b : B) : Z :=
  foldr (λ (x : N) acc, count_ones (Z.of_N x) + acc) 0 (big_bytes_le b).

Definition bit_count (a : num) : option num :=
  match a with
  | Fixnum n =>
      Some (Fixnum (if bool_decide (0 ≤ n) then count_ones n else -1 - count_ones (i64_not n)))
  | Big b =>
      if bool_decide (big_sign b = Lt) then
        Some (Fixnum (-1 - magnitude_ones (big_sub (big_neg b) (big_of 1))))
      else Some (Fixnum (magnitude_ones b))
  | _ => None
  end.

Definition bit_length (a : num) : option num :=
  match a with
  | Fixnum n =>
      let abs := if bool_decide (n < 0) then i64_not n else n in
      Some (Fixnum (if bool_decide (abs = 0) then 0 else 64 - leading_zeros abs))
  | Big b =>
      if bool_decide (big_sign b = Lt) then
        Some (Fixnum (Z.of_N (big_bits (big_sub (big_neg b) (big_of 1)))))
      else Some (Fixnum (Z.of_N (big_bits b)))
  | _ => None
  end.

Definition bit_set_p (a bit : num) : option bool :=
  match to_bigint bit with
  | None => None
  | Some b =>
      if bool_decide (big_sign b = Lt) then Some false
      else
        match arith_shift a (neg bit) with
        | Some shifted =>
            match bit_and shifted (Fixnum 1) with
            | Some lsb => Some (negb (is_zero lsb))
            | None => None
            end
        | None => None
        end
  end.

(** [impl Display for Number].  [shortest] is how the standard library prints
    a fraction. *)
Definition display (shortest : f64 → bytes) (n : num) : bytes :=
  match n with
  | Fixnum v => decimal_Z v
  | Big b => big_to_string b
  | Rat r => big_to_string (rat_numer r) ++ ["/"%byte] ++ big_to_string (rat_denom r)
  | Flonum f =>
      if f64_is_nan f then ["+"; "n"; "a"; "n"; "."; "0"]%byte
      else
        match f with
        | S754_infinity s => (if s then "-" else "+")%byte :: ["i"; "n"; "f"; "."; "0"]%byte
        | _ =>
            if f64_fract_is_zero f && f64_is_finite f
            then decimal_Z (f64_as_i64 f) ++ ["."; "0"]%byte
            else shortest f
        end
  end.

End number.
