(* ===== verification/NumberFacts.v ===== *)
(** * The numeric tower computes what it should

    Exact arithmetic of [crates/cs-core/src/number.rs] against the rationals
    and integers: results are exact and in canonical form, comparison is the
    order of the rationals, the division operators are those of the language
    reports, the integer square root terminates on the root, and the bitwise
    operators act on two's complement. *)

From stdpp Require Import base numbers list.
From Stdlib Require Import ZArith QArith Qcanon Qabs Strings.Byte Floats.SpecFloat.
From S2P Require Import Prelude RaftTypes Float64 BigNum Number.

Local Open Scope Z_scope.

Section facts.
Context {B R : Type} `{HB : BigIntLaws B} `{HR : !BigRational R B, !BigRationalLaws R B}.

Notation num := (Number B R).

(** ** Canonical forms *)

(** Integers that fit are fixnums, and only fractions are rationals. *)
Definition canonical (n : num) : Prop :=
  match n with
  | Fixnum v => in_i64 v
  | Big b => ¬ in_i64 (big_val b)
  | Rat r => rat_is_integer r = false
  | Flonum _ => True
  end.

Definition exact_val (n : num) : option Q :=
  match n with
  | Fixnum v => Some (inject_Z v)
  | Big b => Some (inject_Z (big_val b))
  | Rat r => Some (rat_val r)
  | Flonum _ => None
  end.

(** [n] is the canonical exact number of value [q]. *)
Definition denotes (n : num) (q : Q) : Prop :=
  canonical n ∧ ∃ q', exact_val n = Some q' ∧ (q' == q)%Q.

#[export] Instance denotes_proper n : Proper (Qeq ==> iff) (denotes n).
Proof.
  intros p q Hpq. unfold denotes. split; intros (Hc & q' & Hv & Hq); (split; [done |]; exists q';
    split; [done |]); by rewrite Hq, ?Hpq.
Qed.

Lemma result_eq (o : option num) p q :
  (p == q)%Q → (∃ n, o = Some n ∧ denotes n p) → ∃ n, o = Some n ∧ denotes n q.
Proof. intros Hpq (n & -> & Hn). exists n. by rewrite <-Hpq. Qed.

Lemma denotes_fixnum z : in_i64 z → denotes (Fixnum z) (inject_Z z).
Proof. intros Hz. split; [done |]. by exists (inject_Z z). Qed.

Lemma denotes_big b : ¬ in_i64 (big_val b) → denotes (Big b) (inject_Z (big_val b)).
Proof. intros Hz. split; [done |]. by exists (inject_Z (big_val b)). Qed.

Lemma simplify_bigint_denotes b : denotes (simplify_bigint b) (inject_Z (big_val b)).
Proof.
  unfold simplify_bigint. rewrite big_to_i64_val.
  case_decide; [by apply denotes_fixnum | by apply denotes_big].
Qed.

Lemma rat_integer_val (r : R) :
  rat_is_integer r = true → (rat_val r == inject_Z (big_val (rat_numer r)))%Q.
Proof.
  rewrite rat_is_integer_val. intros Hd%bool_decide_eq_true. unfold rat_val, ratio. by rewrite Hd.
Qed.

Lemma simplify_rational_denotes r : denotes (simplify_rational r) (rat_val r).
Proof.
  unfold simplify_rational. destruct (rat_is_integer r) eqn:Hi.
  - rewrite (rat_integer_val r Hi). apply simplify_bigint_denotes.
  - split; [done |]. by exists (rat_val r).
Qed.

Lemma to_rational_val a x :
  denotes a x → ∃ r, to_rational a = Some r ∧ (rat_val r == x)%Q.
Proof.
  intros (_ & q & Hv & Hq). destruct a; cbn in *; simplify_eq; eexists; (split; [done |]);
    rewrite <-Hq, ?rat_of_val, ?big_of_val; done.
Qed.

Lemma denotes_exact a x : denotes a x → is_exact a = true.
Proof. intros (_ & q & Hv & _). by destruct a. Qed.

Lemma exact_op_denotes (op : R → R → R) (opq : Q → Q → Q) a b x y :
  (∀ r s, rat_val (op r s) == opq (rat_val r) (rat_val s))%Q →
  Proper (Qeq ==> Qeq ==> Qeq) opq → denotes a x → denotes b y →
  ∃ n, exact_op op a b = Some n ∧ denotes n (opq x y).
Proof.
  intros Hop Hpr Ha Hb. destruct (to_rational_val a x Ha) as (r & Hr & Hrx).
  destruct (to_rational_val b y Hb) as (s & Hs & Hsy). unfold exact_op. rewrite Hr, Hs.
  eexists. split; [done |]. rewrite <-Hrx, <-Hsy, <-Hop. apply simplify_rational_denotes.
Qed.

(** The fast path of fixnums, with its fall-back. *)
Lemma fixnum_op_denotes z (b : B) :
  big_val b = z →
  ∃ n : num, (match checked z with Some v => Some (Fixnum v) | None => Some (Big b) end) = Some n ∧
    denotes n (inject_Z z).
Proof.
  intros <-. unfold checked. case_decide.
  - eexists. split; [done |]. by apply denotes_fixnum.
  - eexists. split; [done |]. by apply denotes_big.
Qed.

Lemma fixnum_denotes v x : denotes (Fixnum v : num) x → (x == inject_Z v)%Q.
Proof. intros (_ & q & Hv & Hq). cbn in Hv. simplify_eq. by rewrite Hq. Qed.

Lemma denotes_zero b y : denotes b y → is_zero b = Qeq_bool y 0.
Proof.
  intros (_ & q & Hv & Hq). rewrite <-Hq. apply eq_iff_eq_true. rewrite Qeq_bool_iff.
  destruct b; cbn in *; simplify_eq.
  - rewrite bool_decide_eq_true. change 0%Q with (inject_Z 0). by rewrite inject_Z_injective.
  - unfold big_is_zero. rewrite big_sign_val, bool_decide_eq_true, Z.compare_eq_iff.
    change 0%Q with (inject_Z 0). by rewrite inject_Z_injective.
  - rewrite rat_is_zero_val, bool_decide_eq_true. unfold rat_val, ratio, Qeq. cbn. lia.
Qed.

Lemma add_denotes a b x y : denotes a x → denotes b y → ∃ n, add a b = Some n ∧ denotes n (x + y)%Q.
Proof.
  intros Ha Hb. unfold add. rewrite (denotes_exact _ _ Ha), (denotes_exact _ _ Hb). cbn [negb orb].
  assert (∃ n, exact_add a b = Some n ∧ denotes n (x + y)%Q) as Hex.
  { apply (exact_op_denotes rat_add Qplus); [apply rat_add_val | apply _ | done | done]. }
  destruct a as [u| | |], b as [v| | |]; try done.
  apply (result_eq _ (inject_Z (u + v))).
  { by rewrite (fixnum_denotes _ _ Ha), (fixnum_denotes _ _ Hb), <-inject_Z_plus. }
  apply fixnum_op_denotes. by autorewrite with big.
Qed.

Lemma sub_denotes a b x y : denotes a x → denotes b y → ∃ n, sub a b = Some n ∧ denotes n (x - y)%Q.
Proof.
  intros Ha Hb. unfold sub. rewrite (denotes_exact _ _ Ha), (denotes_exact _ _ Hb). cbn [negb orb].
  assert (∃ n, exact_sub a b = Some n ∧ denotes n (x - y)%Q) as Hex.
  { apply (exact_op_denotes rat_sub Qminus); [apply rat_sub_val | apply _ | done | done]. }
  destruct a as [u| | |], b as [v| | |]; try done.
  apply (result_eq _ (inject_Z (u - v))).
  { rewrite (fixnum_denotes _ _ Ha), (fixnum_denotes _ _ Hb). unfold Qminus.
    by rewrite <-inject_Z_opp, <-inject_Z_plus. }
  apply fixnum_op_denotes. by autorewrite with big.
Qed.

Lemma mul_denotes a b x y : denotes a x → denotes b y → ∃ n, mul a b = Some n ∧ denotes n (x * y)%Q.
Proof.
  intros Ha Hb. unfold mul. rewrite (denotes_exact _ _ Ha), (denotes_exact _ _ Hb). cbn [negb orb].
  assert (∃ n, exact_mul a b = Some n ∧ denotes n (x * y)%Q) as Hex.
  { apply (exact_op_denotes rat_mul Qmult); [apply rat_mul_val | apply _ | done | done]. }
  destruct a as [u| | |], b as [v| | |]; try done.
  apply (result_eq _ (inject_Z (u * v))).
  { by rewrite (fixnum_denotes _ _ Ha), (fixnum_denotes _ _ Hb), <-inject_Z_mult. }
  apply fixnum_op_denotes. by autorewrite with big.
Qed.

Lemma div_denotes a b x y : denotes a x → denotes b y →
  if Qeq_bool y 0 then div a b = Some (inl DivisionByZero)
  else ∃ n, div a b = Some (inr n) ∧ denotes n (x / y)%Q.
Proof.
  intros Ha Hb. unfold div. rewrite (denotes_zero _ _ Hb), (denotes_exact _ _ Ha), (denotes_exact _ _ Hb).
  destruct (Qeq_bool y 0) eqn:Hy; [done |]. cbn [negb orb].
  destruct (to_rational_val a x Ha) as (r & -> & Hrx).
  destruct (to_rational_val b y Hb) as (s & -> & Hsy).
  eexists. split; [done |]. rewrite <-Hrx, <-Hsy, <-rat_div_val.
  - apply simplify_rational_denotes.
  - rewrite Hsy. by apply Qeq_bool_neq.
Qed.

(** C13: exact arithmetic is exact. On canonical exact operands the four
    operations give the canonical exact number of the rational result, and
    division by zero is the only error. *)
Theorem exact_arithmetic a b x y :
  denotes a x → denotes b y →
  (∃ n, add a b = Some n ∧ denotes n (x + y)%Q) ∧
  (∃ n, sub a b = Some n ∧ denotes n (x - y)%Q) ∧
  (∃ n, mul a b = Some n ∧ denotes n (x * y)%Q) ∧
  if Qeq_bool y 0 then div a b = Some (inl DivisionByZero)
  else ∃ n, div a b = Some (inr n) ∧ denotes n (x / y)%Q.
Proof.
  intros Ha Hb. split_and!; [by apply add_denotes | by apply sub_denotes | by apply mul_denotes |].
  by apply div_denotes.
Qed.

(** ** Comparison *)

Lemma rat_not_integer (r : R) z : rat_is_integer r = false → ¬ (rat_val r == inject_Z z)%Q.
Proof.
  rewrite rat_is_integer_val. intros Hd%bool_decide_eq_false Heq. apply Hd.
  pose proof (rat_denom_pos r) as Hpos. pose proof (rat_reduced r) as Hg.
  unfold rat_val, ratio, Qeq, inject_Z in Heq. cbn in Heq.
  rewrite Z2Pos.id in Heq by done. rewrite Z.mul_1_r in Heq. rewrite Heq in Hg.
  rewrite Z.gcd_comm, Z.mul_comm, Z.gcd_mul_diag_l in Hg by lia. lia.
Qed.

Lemma cmp_denotes a b x y : denotes a x → denotes b y → cmp a b = Some (Qcompare x y).
Proof.
  intros Ha Hb. unfold cmp. rewrite (denotes_exact _ _ Ha), (denotes_exact _ _ Hb). cbn [negb orb].
  assert (match to_rational a, to_rational b with
          | Some r, Some s => Some (rat_cmp r s) | _, _ => None end = Some (Qcompare x y)) as Hex.
  { destruct (to_rational_val a x Ha) as (r & -> & Hrx).
    destruct (to_rational_val b y Hb) as (s & -> & Hsy). by rewrite rat_cmp_val, Hrx, Hsy. }
  assert (∀ u v, Qcompare (inject_Z u) (inject_Z v) = Z.compare u v) as Hz.
  { intros u v. unfold Qcompare. cbn. by rewrite !Z.mul_1_r. }
  destruct Ha as (_ & p & Hp & Hpx), Hb as (_ & q & Hq & Hqy).
  destruct a as [u|u| |], b as [v|v| |]; cbn in Hp, Hq; simplify_eq; try done;
    rewrite <-Hpx, <-Hqy, Hz, ?big_to_i64_val, ?big_cmp_val, ?big_of_val; try case_decide; done.
Qed.

Lemma eq_value_denotes a b x y : denotes a x → denotes b y → eq_value a b = Some (Qeq_bool x y).
Proof.
  intros Ha Hb. unfold eq_value. rewrite (denotes_exact _ _ Ha), (denotes_exact _ _ Hb). cbn [negb orb].
  assert (match to_rational a, to_rational b with
          | Some r, Some s => Some (rat_eqb r s) | _, _ => None end = Some (Qeq_bool x y)) as Hex.
  { destruct (to_rational_val a x Ha) as (r & -> & Hrx).
    destruct (to_rational_val b y Hb) as (s & -> & Hsy). by rewrite rat_eqb_val, Hrx, Hsy. }
  assert (∀ u v, Qeq_bool (inject_Z u) (inject_Z v) = bool_decide (u = v)) as Hz.
  { intros u v. apply eq_iff_eq_true. by rewrite Qeq_bool_iff, bool_decide_eq_true, inject_Z_injective. }
  destruct Ha as (Hca & p & Hp & Hpx), Hb as (Hcb & q & Hq & Hqy).
  destruct a as [u|u| |], b as [v|v| |]; cbn in Hp, Hq, Hca, Hcb; simplify_eq; try done;
    rewrite <-Hpx, <-Hqy, Hz, ?big_to_i64_val, ?big_cmp_val; try case_decide; try done; f_equal.
  { symmetry. apply bool_decide_eq_false. by intros ->. }
  { symmetry. apply bool_decide_eq_false. by intros <-. }
  all: apply bool_decide_ext, Z.compare_eq_iff.
Qed.

(** A value has one canonical representation. *)
Lemma denotes_inj a b x y : denotes a x → denotes b y → (x == y)%Q → a = b.
Proof.
  intros Ha Hb Hxy. destruct Ha as (Hca & p & Hp & Hpx), Hb as (Hcb & q & Hq & Hqy).
  assert (p == q)%Q as Hpq by (by rewrite Hpx, Hqy).
  destruct a, b; cbn in *; simplify_eq; try (by destruct (rat_not_integer _ _ Hca Hpq));
    try (by symmetry in Hpq; destruct (rat_not_integer _ _ Hcb Hpq)); rewrite ?inject_Z_injective in Hpq.
  - by subst.
  - by subst.
  - by subst.
  - f_equal. by apply big_val_inj.
  - f_equal. by apply rat_inj.
Qed.

(** Comparison of exact numbers is the order of the rationals, numeric
    equality their equality, and a value has one canonical representation. *)
Theorem exact_comparison a b x y :
  denotes a x → denotes b y →
  cmp a b = Some (Qcompare x y) ∧ eq_value a b = Some (Qeq_bool x y) ∧
  ((x == y)%Q ↔ a = b).
Proof.
  intros Ha Hb. split_and!; [by apply cmp_denotes | by apply eq_value_denotes |].
  split; [by apply denotes_inj |]. intros ->. destruct Ha as (_ & p & Hp & Hpx), Hb as (_ & q & Hq & Hqy).
  simplify_eq. by rewrite <-Hpx, <-Hqy.
Qed.

(** ** Integer division *)

Lemma to_bigint_val a z : denotes a (inject_Z z) → ∃ b, to_bigint a = Some b ∧ big_val b = z.
Proof.
  intros (Hc & q & Hq & Hqz). destruct a; cbn in *; simplify_eq.
  - apply inject_Z_injective in Hqz as <-. eexists. split; [done | apply big_of_val].
  - apply inject_Z_injective in Hqz as <-. by eexists.
  - by destruct (rat_not_integer _ _ Hc Hqz).
Qed.

Lemma with_integers_zero a b f : denotes b (inject_Z 0) → with_integers a b f = inl DivisionByZero.
Proof. intros Hb. unfold with_integers. by rewrite (denotes_zero _ _ Hb). Qed.

Lemma inject_Z_nonzero y : y ≠ 0 → Qeq_bool (inject_Z y) 0 = false.
Proof.
  intros Hy. apply not_true_is_false. rewrite Qeq_bool_iff. change 0%Q with (inject_Z 0).
  by rewrite inject_Z_injective.
Qed.

Lemma with_integers_spec a b x y f (z : Z) :
  denotes a (inject_Z x) → denotes b (inject_Z y) → y ≠ 0 →
  (∀ u v, big_val u = x → big_val v = y → denotes (f u v) (inject_Z z)) →
  ∃ n, with_integers a b f = inr n ∧ denotes n (inject_Z z).
Proof.
  intros Ha Hb Hy Hf. unfold with_integers. rewrite (denotes_zero _ _ Hb), inject_Z_nonzero by done.
  destruct (to_bigint_val a x Ha) as (u & -> & Hu). destruct (to_bigint_val b y Hb) as (v & -> & Hv).
  eexists. split; [done |]. by apply Hf.
Qed.

Lemma simplify_bigint_is b z : big_val b = z → denotes (simplify_bigint b : num) (inject_Z z).
Proof. intros <-. apply simplify_bigint_denotes. Qed.

Lemma floor_rem_val u v : big_val v ≠ 0 → big_val (floor_rem u v) = big_val u mod big_val v.
Proof.
  intros Hv. unfold floor_rem. rewrite !big_sign_val, big_rem_val by done.
  set (x := big_val u) in *. set (y := big_val v) in *.
  pose proof (Z.quot_rem' x y) as Hqr. pose proof (Z.div_mod x y Hv) as Hdm.
  pose proof (Z.rem_bound_abs x y Hv) as Hb.
  assert (Z.rem x y = x mod y ∧ 0 ≤ Z.rem x y * y ∨ Z.rem x y + y = x mod y ∧ Z.rem x y * y < 0) as Hcase.
  { destruct (Z.lt_ge_cases (Z.rem x y * y) 0) as [Hlt|Hge]; [right | left]; (split; [| done]).
    - apply (Z.mod_unique x y (Z.quot x y - 1)); nia.
    - apply (Z.mod_unique x y (Z.quot x y)); nia. }
  repeat case_bool_decide; cbn; autorewrite with big; rewrite ?big_rem_val by done; fold x y.
  all: rewrite ?Z.compare_lt_iff, ?Z.compare_gt_iff in *.
  all: destruct Hcase as [[Hc Hs]|[Hc Hs]]; nia.
Qed.

Definition gives (r : NumError + num) (z : Z) : Prop :=
  ∃ n, r = inr n ∧ denotes n (inject_Z z).

Section division.
Context (a b : num) (x y : Z) (Ha : denotes a (inject_Z x)) (Hb : denotes b (inject_Z y)).

Lemma quotient_gives : y ≠ 0 → gives (quotient a b) (Z.quot x y).
Proof.
  intros Hy. eapply with_integers_spec; [exact Ha | exact Hb | done |]. intros u v <- Hv.
  apply simplify_bigint_is. rewrite big_div_val; by rewrite Hv.
Qed.

Lemma remainder_gives : y ≠ 0 → gives (remainder a b) (Z.rem x y).
Proof.
  intros Hy. eapply with_integers_spec; [exact Ha | exact Hb | done |]. intros u v <- Hv.
  apply simplify_bigint_is. rewrite big_rem_val; by rewrite Hv.
Qed.

Lemma modulo_gives : y ≠ 0 → gives (modulo a b) (x mod y).
Proof.
  intros Hy. eapply with_integers_spec; [exact Ha | exact Hb | done |]. intros u v <- Hv.
  apply simplify_bigint_is. rewrite floor_rem_val; by rewrite Hv.
Qed.

Lemma floor_quotient_gives : y ≠ 0 → gives (floor_quotient a b) (x / y).
Proof.
  intros Hy. eapply with_integers_spec; [exact Ha | exact Hb | done |]. intros u v Hu Hv.
  apply simplify_bigint_is. rewrite big_div_val by by rewrite Hv.
  rewrite big_sub_val, floor_rem_val, Hu, Hv by by rewrite Hv.
  replace (x - x mod y) with (x / y * y) by (pose proof (Z.div_mod x y Hy); lia).
  by apply Z.quot_mul.
Qed.

Lemma euclid_div_gives : y ≠ 0 → ∃ q, gives (euclid_div a b) q ∧ 0 ≤ x - q * y < Z.abs y.
Proof.
  intros Hy. pose proof (Z.quot_rem' x y) as Hqr. pose proof (Z.rem_bound_abs x y Hy) as Hrb.
  exists (if decide (Z.rem x y < 0) then if decide (0 < y) then Z.quot x y - 1 else Z.quot x y + 1
          else Z.quot x y).
  split; [| repeat case_decide; nia].
  eapply with_integers_spec; [exact Ha | exact Hb | done |]. intros u v Hu Hv.
  apply simplify_bigint_is. rewrite !big_sign_val. autorewrite with big.
  rewrite !big_div_val by by rewrite Hv. rewrite Hu, Hv.
  replace (x - x ÷ y * y) with (Z.rem x y) by lia.
  repeat case_bool_decide; repeat case_decide; rewrite ?Z.compare_lt_iff, ?Z.compare_gt_iff in *; try lia;
    autorewrite with big; rewrite big_div_val by (by rewrite Hv); by rewrite Hu, Hv.
Qed.

(** The integers of the three numbers of a division with remainder. *)
Lemma rem_of_gives d q :
  denotes d (inject_Z q) →
  match to_bigint a, to_bigint b, to_bigint d with
  | Some u, Some v, Some w => denotes (simplify_bigint (big_sub u (big_mul w v)) : num) (inject_Z (x - q * y))
  | _, _, _ => False
  end.
Proof.
  intros Hd. destruct (to_bigint_val a x Ha) as (u & -> & Hu).
  destruct (to_bigint_val b y Hb) as (v & -> & Hv). destruct (to_bigint_val d q Hd) as (w & -> & Hw).
  apply simplify_bigint_is. autorewrite with big. by rewrite Hu, Hv, Hw.
Qed.

Lemma euclid_mod_gives q : gives (euclid_div a b) q → gives (euclid_mod a b) (x - q * y).
Proof.
  intros (d & Hd & Hdq). unfold euclid_mod. rewrite Hd. pose proof (rem_of_gives d q Hdq) as Hr.
  destruct (to_bigint a), (to_bigint b), (to_bigint d); try done. by eexists.
Qed.

Lemma euclid_mod0_gives q : gives (euclid_div0 a b) q → gives (euclid_mod0 a b) (x - q * y).
Proof.
  intros (d & Hd & Hdq). unfold euclid_mod0. rewrite Hd. pose proof (rem_of_gives d q Hdq) as Hr.
  destruct (to_bigint a), (to_bigint b), (to_bigint d); try done. by eexists.
Qed.

Lemma shift_val w q :
  big_val w = q → y ≠ 0 →
  big_val (if bool_decide ((y ?= 0) = Gt) then big_add w (big_of 1) else big_sub w (big_of 1)) =
    if decide (0 < y) then q + 1 else q - 1.
Proof.
  intros <- Hy. case_bool_decide as Hs; rewrite Z.compare_gt_iff in Hs; case_decide; try lia;
    by autorewrite with big.
Qed.

Lemma euclid_div0_gives :
  y ≠ 0 → ∃ q, gives (euclid_div0 a b) q ∧ - Z.abs y ≤ 2 * (x - q * y) < Z.abs y.
Proof.
  intros Hy. destruct (euclid_div_gives Hy) as (q & (d & Hd & Hdq) & Hb').
  unfold euclid_div0. rewrite (denotes_zero _ _ Hb), inject_Z_nonzero, Hd by done.
  destruct (to_bigint_val a x Ha) as (u & -> & Hu). destruct (to_bigint_val b y Hb) as (v & -> & Hv).
  destruct (to_bigint_val d q Hdq) as (w & -> & Hw).
  set (m := x - q * y) in *.
  exists (if decide (Z.abs y ≤ 2 * m) then if decide (0 < y) then q + 1 else q - 1 else q).
  split; [| repeat case_decide; nia].
  eexists. split; [done |]. apply simplify_bigint_is.
  unfold big_is_zero. rewrite !big_sign_val, !big_cmp_val, big_rem_val by by rewrite big_of_val.
  autorewrite with big. rewrite Hu, Hv, Hw. fold m.
  assert (m * 2 = Z.abs y → Z.rem (Z.abs y) 2 = 0) as Heven.
  { intros <-. by apply Z.rem_mul. }
  destruct (Z.compare_spec (m * 2) (Z.abs y)) as [Heq|Hlt|Hgt].
  - rewrite (bool_decide_eq_true_2 ((Z.rem _ _ ?= _) = Eq)) by by rewrite Heven.
    rewrite (bool_decide_eq_true_2 (Eq = Eq)), orb_true_r by done. rewrite decide_True by lia.
    apply shift_val; [done | lia].
  - rewrite !bool_decide_eq_false_2 by done. by rewrite decide_False by lia.
  - rewrite (bool_decide_eq_true_2 (Gt = Gt)), orb_true_l by done. rewrite decide_True by lia.
    apply shift_val; [done | lia].
Qed.

End division.

(** C14: the integer division operators. On integers and a divisor that is not
    zero, [quotient] and [remainder] truncate, [floor_quotient] and [modulo]
    round down, the Euclidean pair leaves a remainder in [[0, |y|)] and the
    centred pair one in [[-|y|/2, |y|/2)]; a divisor zero is an error of each. *)
Theorem integer_division a b x y :
  denotes a (inject_Z x) → denotes b (inject_Z y) →
  if decide (y = 0) then
    ∀ op, op ∈ [quotient; remainder; modulo; floor_quotient; euclid_div; euclid_mod;
                euclid_div0; euclid_mod0] → op a b = inl DivisionByZero
  else
    gives (quotient a b) (Z.quot x y) ∧ gives (remainder a b) (Z.rem x y) ∧
    gives (floor_quotient a b) (x / y) ∧ gives (modulo a b) (x mod y) ∧
    (∃ q, gives (euclid_div a b) q ∧ gives (euclid_mod a b) (x - q * y) ∧
       0 ≤ x - q * y < Z.abs y) ∧
    (∃ q, gives (euclid_div0 a b) q ∧ gives (euclid_mod0 a b) (x - q * y) ∧
       - Z.abs y ≤ 2 * (x - q * y) < Z.abs y).
Proof.
  intros Ha Hb. case_decide as Hy.
  - subst y. assert (∀ f, with_integers a b f = inl DivisionByZero) as Hw
      by (intros f; by apply with_integers_zero).
    intros op Hop. rewrite !elem_of_cons, elem_of_nil in Hop.
    destruct_or! Hop; subst op; try apply Hw; try done.
    + unfold euclid_mod, euclid_div. by rewrite Hw.
    + unfold euclid_div0. by rewrite (denotes_zero _ _ Hb).
    + unfold euclid_mod0, euclid_div0. by rewrite (denotes_zero _ _ Hb).
  - destruct (euclid_div_gives a b x y Ha Hb Hy) as (q & Hq & Hqb).
    destruct (euclid_div0_gives a b x y Ha Hb Hy) as (q0 & Hq0 & Hq0b).
    split_and!; [by apply quotient_gives | by apply remainder_gives | by apply floor_quotient_gives
      | by apply modulo_gives | exists q | exists q0].
    + split_and!; [done | by apply euclid_mod_gives | lia | lia].
    + split_and!; [done | by apply euclid_mod0_gives | lia | lia].
Qed.

(** ** The integer square root *)

(** One turn of the iteration from above the root. *)
Lemma newton_turn N x :
  0 < N → Z.sqrt N < x →
  Z.sqrt N ≤ (x + N / x) / 2 ∧ (x + N / x) / 2 - Z.sqrt N ≤ (x - Z.sqrt N) / 2.
Proof.
  intros HN Hx. destruct (Z.sqrt_spec N) as [Hlo Hhi]; [lia |]. set (s := Z.sqrt N) in *.
  assert (0 ≤ s) by (apply Z.sqrt_nonneg).
  assert (N / x ≤ s) as Hle by (apply Z.lt_succ_r, Z.div_lt_upper_bound; nia).
  assert (2 * s - x ≤ N / x) as Hge by (apply Z.div_le_lower_bound; nia).
  split; [apply Z.div_le_lower_bound; lia |].
  replace (x - s) with (x + s + (- s) * 2) by lia. rewrite Z.div_add by lia.
  assert ((x + N / x) / 2 ≤ (x + s) / 2) by (apply Z.div_le_mono; lia). lia.
Qed.

Lemma newton_root fuel n x k :
  0 < big_val n → Z.sqrt (big_val n) ≤ big_val x →
  big_val x - Z.sqrt (big_val n) < 2 ^ Z.of_nat k → (k < fuel)%nat →
  ∃ x', newton fuel n x = Some x' ∧ big_val x' = Z.sqrt (big_val n).
Proof.
  intros Hn. revert x k. induction fuel as [|fuel IH]; intros x k Hx Hd Hk; [lia |]. cbn [newton].
  assert (0 < Z.sqrt (big_val n)) as Hs by (apply Z.sqrt_pos; lia).
  set (N := big_val n) in *. set (s := Z.sqrt N) in *.
  assert (big_val (big_shr (big_add x (big_div n x)) 1) = (big_val x + N / big_val x) / 2) as Hy.
  { autorewrite with big. rewrite big_div_val, Z.quot_div_nonneg by lia.
    by rewrite Z.shiftr_div_pow2. }
  case_bool_decide as Hc; rewrite big_cmp_val, Hy, Z.compare_lt_iff in Hc.
  - destruct (decide (big_val x = s)) as [Heq|Hne].
    { exfalso. rewrite Heq in Hc. destruct (Z.sqrt_spec N) as [Hlo _]; [lia |]. fold s in Hlo.
      assert (s ≤ N / s) by (apply Z.div_le_lower_bound; nia).
      assert (s ≤ (s + N / s) / 2) by (apply Z.div_le_lower_bound; lia). lia. }
    destruct (newton_turn N (big_val x)) as [Hlo Hhalf]; [lia | fold s; lia |]. fold s in Hlo, Hhalf.
    destruct k as [|k]; [cbn in Hd; lia |].
    apply (IH _ k); [by rewrite Hy | | lia]. rewrite Hy.
    eapply Z.le_lt_trans; [exact Hhalf |]. apply Z.div_lt_upper_bound; [lia |].
    rewrite Nat2Z.inj_succ, Z.pow_succ_r in Hd by lia. lia.
  - exists x. split; [done |]. destruct (decide (big_val x = s)) as [?|Hne]; [done |].
    destruct (newton_turn N (big_val x)) as [Hlo Hhalf]; [lia | fold s; lia |]. fold s in Hhalf.
    assert ((big_val x - s) / 2 < big_val x - s) by (apply Z.div_lt; lia). lia.
Qed.

(** The first guess is above the root. *)
Lemma sqrt_guess N :
  0 < N → Z.sqrt N < 2 ^ Z.of_N (N.size (Z.abs_N N) / 2 + 1).
Proof.
  intros HN. apply Z.sqrt_lt_square; [lia | apply Z.pow_nonneg; lia |].
  rewrite <-Z.pow_add_r by apply N2Z.is_nonneg. set (b := N.size (Z.abs_N N)).
  assert (N < 2 ^ Z.of_N b) as Hb.
  { pose proof (N.size_gt (Z.abs_N N)) as Hs. apply N2Z.inj_lt in Hs.
    rewrite N2Z.inj_pow, N2Z.inj_abs_N in Hs. fold b in Hs. cbn in Hs. lia. }
  eapply Z.lt_le_trans; [exact Hb |]. apply Z.pow_le_mono_r; [lia |].
  pose proof (N.div_mod b 2 ltac:(lia)). pose proof (N.mod_lt b 2 ltac:(lia)). lia.
Qed.

(** C15: the integer square root. For a non-negative integer the iteration ends
    within its bound, on the largest integer whose square is at most the
    argument, with what is left over; a negative argument has no result. *)
Theorem exact_integer_sqrt_correct a x :
  denotes a (inject_Z x) →
  if decide (x < 0) then exact_integer_sqrt a = Some None
  else ∃ s r, exact_integer_sqrt a = Some (Some (s, r)) ∧
    denotes s (inject_Z (Z.sqrt x)) ∧ denotes r (inject_Z (x - Z.sqrt x * Z.sqrt x)).
Proof.
  intros Ha. unfold exact_integer_sqrt, big_is_negative, big_is_zero.
  destruct (to_bigint_val a x Ha) as (n & -> & Hn). rewrite big_sign_val, Hn.
  case_decide as Hx; [by rewrite bool_decide_eq_true_2 |].
  rewrite bool_decide_eq_false_2 by (rewrite Z.compare_lt_iff; lia).
  case_bool_decide as H0; rewrite Z.compare_eq_iff in H0.
  { subst x. rewrite H0. exists (Fixnum 0), (Fixnum 0).
    split_and!; [done | by apply denotes_fixnum | by apply denotes_fixnum]. }
  set (k := (big_bits n / 2 + 1)%N).
  destruct (newton_root (newton_fuel n) n (big_shl (big_of 1) k) (N.to_nat k)) as (x' & -> & Hx').
  - lia.
  - autorewrite with big. rewrite Z.shiftl_1_l. unfold k. rewrite big_bits_val.
    apply Z.lt_le_incl, sqrt_guess. lia.
  - autorewrite with big. rewrite Z.shiftl_1_l, N_nat_Z.
    assert (0 < Z.sqrt (big_val n)) by (apply Z.sqrt_pos; lia). lia.
  - unfold newton_fuel, k. lia.
  - do 2 eexists. split; [done |]. split; apply simplify_bigint_is.
    + by rewrite Hx', Hn.
    + autorewrite with big. by rewrite Hx', Hn.
Qed.

(** ** Bits *)

Lemma count_ones_double b z : 0 ≤ z → count_ones (Z.b2z b + 2 * z) = Z.b2z b + count_ones z.
Proof. intros Hz. destruct z as [|p|p]; [by destruct b | by destruct b | lia]. Qed.

Lemma count_ones_split k x z :
  0 ≤ z → 0 ≤ x < 2 ^ Z.of_nat k → count_ones (x + 2 ^ Z.of_nat k * z) = count_ones x + count_ones z.
Proof.
  intros Hz. revert x. induction k as [|k IH]; intros x Hx.
  { assert (x = 0) as -> by (cbn in Hx; lia). change (2 ^ Z.of_nat 0) with 1. by rewrite Z.mul_1_l. }
  rewrite Nat2Z.inj_succ, Z.pow_succ_r in * by lia.
  pose proof (Z.div_mod x 2 ltac:(lia)) as Hdm. rewrite Zmod_odd in Hdm.
  set (h := x / 2) in *.
  assert (0 ≤ h < 2 ^ Z.of_nat k) as Hh by (destruct (Z.odd x); lia).
  assert (x = Z.b2z (Z.odd x) + 2 * h) as Hxe by (destruct (Z.odd x); cbn; lia).
  rewrite Hxe at 2. rewrite count_ones_double by lia.
  replace (x + 2 * 2 ^ Z.of_nat k * z) with (Z.b2z (Z.odd x) + 2 * (h + 2 ^ Z.of_nat k * z)) by lia.
  rewrite count_ones_double by nia. rewrite IH by done. lia.
Qed.

Lemma magnitude_ones_val b : magnitude_ones b = count_ones (Z.abs (big_val b)).
Proof.
  destruct (big_bytes_val b) as [Hall Hval]. unfold magnitude_ones.
  rewrite <-N2Z.inj_abs_N, <-Hval. clear Hval. induction Hall as [|x l Hx _ IH]; [done |]. cbn [foldr].
  rewrite IH, N2Z.inj_add, N2Z.inj_mul. symmetry.
  apply (count_ones_split 8); [lia | cbn; lia].
Qed.

Lemma bit_ops_denote (op : B → B → B) (opz : Z → Z → Z) a b x y :
  (∀ u v, big_val (op u v) = opz (big_val u) (big_val v)) →
  denotes a (inject_Z x) → denotes b (inject_Z y) →
  ∃ n, with_bits op a b = Some n ∧ denotes n (inject_Z (opz x y)).
Proof.
  intros Hop Ha Hb. destruct (to_bigint_val a x Ha) as (u & Hu & <-).
  destruct (to_bigint_val b y Hb) as (v & Hv & <-). unfold with_bits. rewrite Hu, Hv.
  eexists. split; [done |]. by apply simplify_bigint_is.
Qed.

Lemma arith_shr_val u k : big_val (bigint_arith_shr u k) = Z.shiftr (big_val u) (Z.of_N k).
Proof.
  unfold bigint_arith_shr. rewrite big_cmp_val, big_of_val.
  destruct (Z.compare_spec (big_val u) 0) as [Hu|Hu|Hu]; autorewrite with big; try done.
  assert (∀ z, - z - 1 = Z.lnot z) as Hnot by (intros z; unfold Z.lnot; lia).
  by rewrite !Hnot, Z.lnot_shiftr, Z.lnot_involutive by lia.
Qed.

Lemma arith_shift_gives a k x :
  denotes a (inject_Z x) → in_i64 k →
  ∃ n, arith_shift a (Fixnum k) = Some n ∧ denotes n (inject_Z (Z.shiftl x k)).
Proof.
  intros Ha Hk. unfold arith_shift. destruct (to_bigint_val a x Ha) as (u & -> & Hu).
  cbn [to_bigint]. rewrite big_to_i64_val, big_of_val, decide_True by done.
  case_bool_decide as H0; eexists; (split; [done |]); apply simplify_bigint_is.
  - autorewrite with big. by rewrite Hu, Z2N.id.
  - rewrite arith_shr_val, Hu, Z2N.id by lia. by rewrite <-Z.shiftl_opp_r, Z.opp_involutive.
Qed.

Lemma bit_set_gives a k x :
  denotes a (inject_Z x) → 0 ≤ k ≤ i64_max → bit_set_p a (Fixnum k) = Some (Z.testbit x k).
Proof.
  intros Ha Hk. unfold bit_set_p. cbn [to_bigint neg]. rewrite big_sign_val, big_of_val.
  rewrite bool_decide_eq_false_2 by (rewrite Z.compare_lt_iff; lia).
  assert (in_i64 (- k)) as Hnk by (unfold in_i64, i64_min, i64_max in *; lia).
  unfold checked. rewrite decide_True by done.
  destruct (arith_shift_gives a (- k) x Ha Hnk) as (n & -> & Hn).
  destruct (bit_ops_denote big_and Z.land n (Fixnum 1) _ 1 big_and_val Hn) as (m & Hm & Hmd);
    [by apply denotes_fixnum |].
  unfold bit_and. rewrite Hm, (denotes_zero _ _ Hmd). f_equal.
  rewrite Z.shiftl_opp_r. change 1 with (Z.ones 1). rewrite Z.land_ones, Z.pow_1_r, Zmod_odd by lia.
  rewrite Z.testbit_odd. by destruct (Z.odd _).
Qed.

(** The magnitude whose bits [bit_count] and [bit_length] look at. *)
Definition magnitude (x : Z) : Z := if decide (x < 0) then Z.lnot x else x.

Lemma i64_not_lnot n : i64_not n = Z.lnot n.
Proof. unfold i64_not, Z.lnot. lia. Qed.

Lemma magnitude_nonneg x : 0 ≤ magnitude x.
Proof. unfold magnitude, Z.lnot. case_decide; lia. Qed.

Lemma neg_big_magnitude b :
  big_val b < 0 → big_val (big_sub (big_neg b) (big_of 1)) = magnitude (big_val b).
Proof.
  intros Hb. autorewrite with big. unfold magnitude. rewrite decide_True by done. unfold Z.lnot. lia.
Qed.

Lemma denotes_integer a x :
  denotes a (inject_Z x) →
  (a = Fixnum x ∧ in_i64 x) ∨ (∃ b, a = Big b ∧ big_val b = x ∧ ¬ in_i64 x).
Proof.
  intros (Hc & q & Hq & Hqx). destruct a as [v|b|r|f]; cbn in *; simplify_eq.
  - apply inject_Z_injective in Hqx as <-. by left.
  - apply inject_Z_injective in Hqx as <-. right. by exists b.
  - by destruct (rat_not_integer _ _ Hc Hqx).
Qed.

(** [count_ones] counts the bits that are set. *)
Lemma count_ones_bits n x :
  0 ≤ x < 2 ^ Z.of_nat n →
  count_ones x = Z.of_nat (length (filter (λ i, Z.testbit x (Z.of_nat i) = true) (seq 0 n))).
Proof.
  revert x. induction n as [|n IH]; intros x Hx.
  { by assert (x = 0) as -> by (cbn in Hx; lia). }
  rewrite Nat2Z.inj_succ, Z.pow_succ_r in Hx by lia.
  pose proof (Z.div2_odd x) as Hd. set (h := Z.div2 x) in *.
  assert (0 ≤ h < 2 ^ Z.of_nat n) as Hh by (destruct (Z.odd x); cbn in Hd; lia).
  replace (count_ones x) with (Z.b2z (Z.odd x) + count_ones h)
    by (rewrite <-count_ones_double by lia; f_equal; lia).
  rewrite (IH h Hh). cbn [seq]. rewrite <-fmap_S_seq, filter_cons, Z.bit0_odd.
  assert (∀ i, Z.testbit x (Z.of_nat (S i)) = true ↔ Z.testbit h (Z.of_nat i) = true) as Hbits
    by (intros i; rewrite Nat2Z.inj_succ, <-Z.div2_bits by lia; by rewrite <-Z.div2_div).
  pose proof (length_filter_fmap S (λ i, Z.testbit x (Z.of_nat i) = true)
    (λ i, Z.testbit h (Z.of_nat i) = true) (seq 0 n) Hbits) as Hlen.
  destruct (Z.odd x); cbn [Z.b2z]; [rewrite decide_True by done | rewrite decide_False by done];
    cbn [length]; rewrite Hlen; lia.
Qed.

Lemma bit_count_gives a x :
  denotes a (inject_Z x) →
  bit_count a = Some (Fixnum (if decide (x < 0) then Z.lnot (count_ones (magnitude x))
                              else count_ones (magnitude x))).
Proof.
  intros [[-> Hx]|(b & -> & <- & Hx)]%denotes_integer; cbn [bit_count].
  - unfold magnitude. case_decide.
    + rewrite bool_decide_eq_false_2, i64_not_lnot by lia. unfold Z.lnot at 2. do 2 f_equal. lia.
    + by rewrite bool_decide_eq_true_2 by lia.
  - rewrite big_sign_val, !magnitude_ones_val. case_decide as Hb.
    + rewrite bool_decide_eq_true_2, neg_big_magnitude by done.
      rewrite Z.abs_eq by apply magnitude_nonneg. unfold Z.lnot. do 2 f_equal. lia.
    + rewrite bool_decide_eq_false_2 by (rewrite Z.compare_lt_iff; lia).
      unfold magnitude. rewrite decide_False, Z.abs_eq by lia. done.
Qed.

Lemma bit_length_gives a x :
  denotes a (inject_Z x) → bit_length a = Some (Fixnum (Z.of_N (N.size (Z.to_N (magnitude x))))).
Proof.
  intros [[-> Hx]|(b & -> & <- & Hx)]%denotes_integer; cbn [bit_length].
  - assert ((if bool_decide (x < 0) then i64_not x else x) = magnitude x) as ->.
    { unfold magnitude. rewrite i64_not_lnot.
      by case_decide; [rewrite bool_decide_eq_true_2 | rewrite bool_decide_eq_false_2]. }
    do 2 f_equal. case_bool_decide as H0; [by rewrite H0 |]. unfold leading_zeros. lia.
  - rewrite big_sign_val, !big_bits_val. case_bool_decide as Hb; rewrite Z.compare_lt_iff in Hb.
    + by rewrite neg_big_magnitude, Zabs2N.abs_N_nonneg by (done || apply magnitude_nonneg).
    + unfold magnitude. rewrite decide_False by done. by rewrite Zabs2N.abs_N_nonneg by lia.
Qed.

Lemma size_bounds m n :
  0 ≤ m → 0 ≤ n → (m < 2 ^ n ↔ Z.of_N (N.size (Z.to_N m)) ≤ n).
Proof.
  intros Hm Hn. pose proof (N.size_gt (Z.to_N m)) as Hgt. apply N2Z.inj_lt in Hgt.
  rewrite N2Z.inj_pow, Z2N.id in Hgt by done. cbn in Hgt. split.
  - intros Hlt. apply Z.le_ngt. intros Hs.
    pose proof (N.size_le (Z.to_N m)) as Hle. rewrite N.succ_double_spec in Hle. apply N2Z.inj_le in Hle.
    rewrite N2Z.inj_pow, N2Z.inj_add, N2Z.inj_mul, Z2N.id in Hle by done.
    assert (2 ^ Z.succ n ≤ 2 ^ Z.of_N (N.size (Z.to_N m))) by (apply Z.pow_le_mono_r; lia).
    rewrite Z.pow_succ_r in * by done. cbn in Hle. lia.
  - intros Hle. eapply Z.lt_le_trans; [exact Hgt |]. apply Z.pow_le_mono_r; lia.
Qed.

Lemma magnitude_fits x n : 0 ≤ n → (magnitude x < 2 ^ n ↔ - 2 ^ n ≤ x < 2 ^ n).
Proof.
  intros Hn. pose proof (Z.pow_pos_nonneg 2 n ltac:(lia) Hn).
  unfold magnitude, Z.lnot. case_decide; lia.
Qed.

(** C16: the bitwise operations treat an integer as its infinite two's
    complement bits, also across the border between fixnums and big integers.
    Conjunction, disjunction, exclusive or and complement act bit by bit; a
    shift by a count of 64 bits multiplies by the power of two, rounding down
    for negative counts; a bit is tested where it is; [bit_count] counts the
    bits set in the magnitude, complemented for a negative number; and
    [bit_length] is the least width whose signed range holds the number. *)
Theorem bitwise_twos_complement a b x y k w :
  denotes a (inject_Z x) → denotes b (inject_Z y) → in_i64 k → magnitude x < 2 ^ Z.of_nat w →
  (∃ n, bit_and a b = Some n ∧ denotes n (inject_Z (Z.land x y))) ∧
  (∃ n, bit_or a b = Some n ∧ denotes n (inject_Z (Z.lor x y))) ∧
  (∃ n, bit_xor a b = Some n ∧ denotes n (inject_Z (Z.lxor x y))) ∧
  (∃ n, bit_not a = Some n ∧ denotes n (inject_Z (Z.lnot x))) ∧
  (∃ n, arith_shift a (Fixnum k) = Some n ∧ denotes n (inject_Z (Z.shiftl x k))) ∧
  bit_set_p a (Fixnum k) = Some (Z.testbit x k) ∧
  (let ones := Z.of_nat (length (filter (λ i, Z.testbit (magnitude x) (Z.of_nat i) = true) (seq 0 w))) in
   bit_count a = Some (Fixnum (if decide (x < 0) then Z.lnot ones else ones))) ∧
  (∃ n, bit_length a = Some (Fixnum n) ∧ ∀ m, 0 ≤ m → (n ≤ m ↔ - 2 ^ m ≤ x < 2 ^ m)).
Proof.
  intros Ha Hb Hk Hw. split_and!.
  - by apply bit_ops_denote; [apply big_and_val | |].
  - by apply bit_ops_denote; [apply big_or_val | |].
  - by apply bit_ops_denote; [apply big_xor_val | |].
  - unfold bit_not. destruct (to_bigint_val a x Ha) as (u & -> & Hu). eexists. split; [done |].
    apply simplify_bigint_is. autorewrite with big. unfold Z.lnot. lia.
  - by apply arith_shift_gives.
  - destruct (decide (0 ≤ k)); [apply bit_set_gives; [done |]; unfold in_i64 in Hk; lia |].
    unfold bit_set_p. cbn [to_bigint]. rewrite big_sign_val, big_of_val.
    rewrite bool_decide_eq_true_2 by (rewrite Z.compare_lt_iff; lia). f_equal.
    by rewrite Z.testbit_neg_r by lia.
  - cbn zeta. rewrite <-count_ones_bits by (split; [apply magnitude_nonneg | done]).
    by apply bit_count_gives.
  - eexists. split; [by apply bit_length_gives |]. intros m Hm.
    rewrite <-magnitude_fits, size_bounds by (done || apply magnitude_nonneg). done.
Qed.

(** ** Reading and printing *)

Lemma parse_radix_denotes s radix z :
  (2 ≤ radix ≤ 36)%N → signed_digits radix s = Some z →
  ∃ n : num, parse_radix_integer s radix = Some n ∧ denotes n (inject_Z z).
Proof.
  intros Hr Hs. unfold parse_radix_integer, i64_from_str_radix, checked. rewrite Hs.
  case_decide as Hz; [eexists; split; [done | by apply denotes_fixnum] |].
  pose proof (big_from_str_val s radix z Hr Hs) as Hb.
  apply fmap_Some in Hb as (b & -> & ->). eexists. split; [done | by apply denotes_big].
Qed.

Lemma display_integer shortest a x : denotes a (inject_Z x) → display shortest a = decimal_Z x.
Proof.
  intros Ha. destruct (denotes_integer a x Ha) as [[-> _]|(b & -> & <- & _)]; cbn; [done | apply big_to_string_val].
Qed.

Lemma parse_display_integer shortest a x :
  denotes a (inject_Z x) → parse_decimal_integer (display shortest a) = Some a.
Proof.
  intros Ha. rewrite (display_integer shortest a x Ha).
  destruct (parse_radix_denotes (decimal_Z x) 10 x) as (n & Hn & Hd); [lia | apply signed_digits_decimal |].
  change (parse_decimal_integer (decimal_Z x)) with (parse_radix_integer (R := R) (decimal_Z x) 10).
  rewrite Hn. f_equal. by apply (denotes_inj n a _ _ Hd Ha).
Qed.

(** Reading integers. A literal of any radix is read as the canonical
    number of its digits and sign, whatever its size, and a printed integer is
    read back as itself. *)
Theorem integer_parse_display shortest a x s radix z :
  denotes a (inject_Z x) → (2 ≤ radix ≤ 36)%N → signed_digits radix s = Some z →
  parse_decimal_integer (display shortest a) = Some a ∧
  ∃ n : num, parse_radix_integer s radix = Some n ∧ denotes n (inject_Z z).
Proof.
  intros Ha Hr Hs. split; [by eapply parse_display_integer | by apply parse_radix_denotes].
Qed.

End facts.

(** ** At work on the Standard Library's integers and rationals *)

Definition two63 : Number Z Qc := Big (2 ^ 63).
Definition minus7 : Number Z Qc := Fixnum (-7).

Lemma two63_denotes : denotes two63 (inject_Z (2 ^ 63)).
Proof. split; [intros [_ Hle]; by apply Hle | by exists (inject_Z (2 ^ 63))]. Qed.

Lemma minus7_denotes : denotes minus7 (inject_Z (-7)).
Proof. apply denotes_fixnum. unfold in_i64, i64_min, i64_max. lia. Qed.

Lemma exact_arithmetic_witness :
  (∃ n, add two63 minus7 = Some n ∧ denotes n (inject_Z (2 ^ 63) + inject_Z (-7))%Q) ∧
  add two63 minus7 = Some (Fixnum (2 ^ 63 - 7)).
Proof.
  split; [| by vm_compute].
  by destruct (exact_arithmetic two63 minus7 _ _ two63_denotes minus7_denotes).
Defined.

Lemma exact_comparison_witness : cmp two63 minus7 = Some Gt ∧ eq_value two63 minus7 = Some false.
Proof.
  destruct (exact_comparison two63 minus7 _ _ two63_denotes minus7_denotes) as (H1 & H2 & _).
  rewrite H1, H2. by vm_compute.
Defined.

Lemma integer_division_witness :
  gives (modulo two63 minus7) (2 ^ 63 mod -7) ∧ modulo two63 minus7 = inr (Fixnum (-6)).
Proof.
  split; [| by vm_compute].
  by destruct (integer_division two63 minus7 _ _ two63_denotes minus7_denotes) as (_ & _ & _ & H & _).
Defined.

Lemma exact_integer_sqrt_witness :
  ∃ s r, exact_integer_sqrt two63 = Some (Some (s, r)) ∧ denotes s (inject_Z (Z.sqrt (2 ^ 63))) ∧
    denotes r (inject_Z (2 ^ 63 - Z.sqrt (2 ^ 63) * Z.sqrt (2 ^ 63))).
Proof. exact (exact_integer_sqrt_correct two63 (2 ^ 63) two63_denotes). Defined.

Lemma bitwise_witness :
  (∃ n, bit_and two63 minus7 = Some n ∧ denotes n (inject_Z (Z.land (2 ^ 63) (-7)))) ∧
  bit_count two63 = Some (Fixnum 1).
Proof.
  assert (in_i64 63) as H63 by (unfold in_i64, i64_min, i64_max; lia).
  assert (magnitude (2 ^ 63) < 2 ^ Z.of_nat 64) as Hw by (by vm_compute).
  destruct (bitwise_twos_complement two63 minus7 _ _ 63 64 two63_denotes minus7_denotes H63 Hw)
    as (H1 & _ & _ & _ & _ & _ & H2 & _).
  split; [exact H1 |]. rewrite H2. by vm_compute.
Defined.

Lemma integer_parse_display_witness :
  parse_decimal_integer (display (λ _, []) two63) = Some two63 ∧
  ∃ n : Number Z Qc, parse_radix_integer ["-"; "F"; "f"]%byte 16 = Some n ∧ denotes n (inject_Z (-255)).
Proof.
  apply (integer_parse_display (λ _, []) two63 _ ["-"; "F"; "f"]%byte 16 (-255) two63_denotes);
    [lia | by vm_compute].
Defined.
