(* ===== verification/Trial.v ===== *)
(** * The cycle collector: candidates and trial deletion

    [crates/cs-gc/src/cycle_registry.rs] and
    [crates/cs-gc/src/cycle_collector.rs].  Cells that a mutation may have made
    cyclic are registered as candidates; a sweep tests by trial deletion, in
    the manner of Bacon and Rajan, which candidates are referred to by
    candidates only, and breaks those.

    The heap is what the registry sees of it through [trait AnyWeak]: the
    class [AnyWeak] here.  An entry's weak handle is determined by its address,
    which cannot be reused while the handle exists, so an entry is its colour.
    The order in which the registry's hash map lists its keys is the class
    [KeyOrder]. *)

From stdpp Require Import base numbers gmap sorting list.
From S2P Require Import Prelude.

Local Open Scope crab_scope.

Definition addr := N.

(** ** The registry *)

(** [enum Color]. *)
Inductive Color := Black | Gray | White | Purple.

#[export] Instance Color_eq_dec : EqDecision Color.
Proof. solve_decision. Defined.

Definition color_from_u8 (v : N) : Color :=
  match v with 1%N => Gray | 2%N => White | 3%N => Purple | _ => Black end.

(** [trait AnyWeak], for a heap of type [H]: the strong count behind a weak
    handle, zero when the cell is gone; the addresses a live cell refers to;
    and the attempt to demote one of its slots. *)
Class AnyWeak (H : Type) := {
  unbiased_strong_count : H → addr → nat;
  upgrade_and_walk_children : H → addr → list addr;
  upgrade_and_try_break : H → addr → H * bool;
}.

Definition upgradable {H} `{HW : AnyWeak H} (h : H) (a : addr) : bool :=
  bool_decide (unbiased_strong_count h a ≠ 0).

(** The order of [HashMap::keys]. *)
Class KeyOrder := {
  key_order : gmap addr Color → list addr;
  key_order_perm m : key_order m ≡ₚ (map_to_list m).*1;
}.

Record SweepStats := MkSweepStats {
  candidates_checked : nat;
  cycles_collected : nat;
}.

(** The thread-local state of the registry. *)
Record Registry := MkRegistry {
  rg_entries : gmap addr Color;
  rg_threshold : N;
  rg_pending : bool;
  rg_broken : N;
  rg_stats : SweepStats;
}.

#[export] Instance Registry_eta : Eta Registry := λ r,
  MkRegistry (rg_entries r) (rg_threshold r) (rg_pending r) (rg_broken r) (rg_stats r).

Definition registry_new : Registry := MkRegistry ∅ 10000 false 0 (MkSweepStats 0 0).

Definition register_cycle_candidate (a : addr) (r : Registry) : Registry :=
  let r := match rg_entries r !! a with
           | Some _ => r
           | None => r <| rg_entries ::= <[a := Purple]> |>
           end in
  if decide (rg_threshold r ≤ N.of_nat (size (rg_entries r)))%N then r <| rg_pending := true |> else r.

Definition unregister_cycle_candidate (a : addr) (r : Registry) : Registry :=
  r <| rg_entries ::= delete a |>.

Definition candidate_count (r : Registry) : nat := size (rg_entries r).

Definition set_auto_trigger_threshold (n : N) (r : Registry) : Registry :=
  r <| rg_threshold := n |>.

Definition take_sweep_pending (r : Registry) : Registry * bool :=
  (r <| rg_pending := false |>, rg_pending r).

Definition candidate_color (r : Registry) (a : addr) : Color := default Black (rg_entries r !! a).

Definition set_candidate_color (a : addr) (c : Color) (r : Registry) : Registry :=
  r <| rg_entries ::= alter (λ _, c) a |>.

(** [u64::saturating_add]. *)
Definition bump_sweep_broken_count (r : Registry) : Registry :=
  r <| rg_broken ::= λ n, N.min (n + 1) (2 ^ 64 - 1)%N |>.

Section trial.
Context {H : Type} `{HW : AnyWeak H} `{HO : KeyOrder}.

Definition candidate_addresses (r : Registry) : list addr := key_order (rg_entries r).

Definition candidate_strong_count (h : H) (r : Registry) (a : addr) : option nat :=
  match rg_entries r !! a with Some _ => Some (unbiased_strong_count h a) | None => None end.

Definition walk_candidate_children (h : H) (r : Registry) (a : addr) : list addr :=
  match rg_entries r !! a with Some _ => upgrade_and_walk_children h a | None => [] end.

Definition try_break_candidate (h : H) (r : Registry) (a : addr) : H * bool :=
  match rg_entries r !! a with Some _ => upgrade_and_try_break h a | None => (h, false) end.

(** ** Trial deletion *)

(** [struct TrialDeletion] with the registry it works on. *)
Record Trial := MkTrial {
  td_registry : Registry;
  td_virtual : gmap addr Z;
}.

#[export] Instance Trial_eta : Eta Trial := λ t, MkTrial (td_registry t) (td_virtual t).

Definition color (t : Trial) (a : addr) : Color := candidate_color (td_registry t) a.
Definition paint (a : addr) (c : Color) (t : Trial) : Trial :=
  t <| td_registry ::= set_candidate_color a c |>.

Definition ensure_virtual (h : H) (a : addr) (t : Trial) : Trial :=
  match td_virtual t !! a with
  | Some _ => t
  | None =>
      let real := Z.of_nat (default 0%nat (candidate_strong_count h (td_registry t) a)) in
      t <| td_virtual ::= <[a := real]> |>
  end.

(** The turns a loop may take: each cell is painted once and pushes its
    children, and each turn pops one address. *)
Definition edges (h : H) (r : Registry) : nat :=
  sum_list_with (λ a, length (upgrade_and_walk_children h a)) (elements (dom (rg_entries r))).

(** One turn of [for k in kids] in [mark_gray]. *)
Definition mark_child (h : H) (s : Trial * list addr) (k : addr) : Trial * list addr :=
  let '(t, stack) := s in
  let t := ensure_virtual h k t in
  let t := t <| td_virtual ::= alter Z.pred k |> in
  (t, if decide (color t k = Gray) then stack else k :: stack).

Fixpoint mark_gray_loop (fuel : nat) (h : H) (stack : list addr) (t : Trial) : option Trial :=
  match stack with
  | [] => Some t
  | a :: stack =>
      match fuel with
      | O => None
      | S fuel =>
          if decide (color t a = Gray) then mark_gray_loop fuel h stack t
          else
            let t := paint a Gray (ensure_virtual h a t) in
            let kids := walk_candidate_children h (td_registry t) a in
            let '(t, stack) := foldl (mark_child h) (t, stack) kids in
            mark_gray_loop fuel h stack t
      end
  end.

Definition mark_gray (h : H) (root : addr) (t : Trial) : option Trial :=
  mark_gray_loop (S (edges h (td_registry t))) h [root] t.

(** The closure that [scan_black] calls on each child. *)
Definition black_child (s : Trial * list addr) (c : addr) : Trial * list addr :=
  let '(t, stack) := s in
  let t := t <| td_virtual ::= alter Z.succ c |> in
  (t, if decide (color t c = Black) then stack else c :: stack).

Fixpoint scan_black_loop (fuel : nat) (h : H) (stack : list addr) (t : Trial) : option Trial :=
  match stack with
  | [] => Some t
  | a :: stack =>
      match fuel with
      | O => None
      | S fuel =>
          if decide (color t a = Black) then scan_black_loop fuel h stack t
          else
            let t := paint a Black t in
            let kids := walk_candidate_children h (td_registry t) a in
            let '(t, stack) := foldl black_child (t, stack) kids in
            scan_black_loop fuel h stack t
      end
  end.

Definition scan_black (h : H) (root : addr) (t : Trial) : option Trial :=
  scan_black_loop (S (edges h (td_registry t))) h [root] t.

(** The children of a colour are pushed in order, so the last is on top. *)
Definition push_colored (c : Color) (t : Trial) (kids stack : list addr) : list addr :=
  foldl (λ stack k, if decide (color t k = c) then k :: stack else stack) stack kids.

Fixpoint scan_loop (fuel : nat) (h : H) (stack : list addr) (t : Trial) : option Trial :=
  match stack with
  | [] => Some t
  | a :: stack =>
      match fuel with
      | O => None
      | S fuel =>
          if decide (color t a = Gray) then
            let vc := default 0%Z (td_virtual t !! a) in
            if decide (0 < vc)%Z then
              match scan_black h a t with
              | Some t => scan_loop fuel h stack t
              | None => None
              end
            else
              let t := paint a White t in
              let kids := walk_candidate_children h (td_registry t) a in
              scan_loop fuel h (push_colored Gray t kids stack) t
          else scan_loop fuel h stack t
      end
  end.

Definition scan (h : H) (root : addr) (t : Trial) : option Trial :=
  scan_loop (S (edges h (td_registry t))) h [root] t.

(** [collect_white]: the state is the heap, the trial and the count. *)
Fixpoint collect_white_loop (fuel : nat) (h : H) (stack : list addr) (t : Trial) (broken : nat) :
    option (H * Trial * nat) :=
  match stack with
  | [] => Some (h, t, broken)
  | a :: stack =>
      match fuel with
      | O => None
      | S fuel =>
          if decide (color t a = White) then
            let t := paint a Black t in
            let kids := walk_candidate_children h (td_registry t) a in
            let stack := push_colored White t kids stack in
            let '(h, ok) := try_break_candidate h (td_registry t) a in
            if (ok : bool) then
              collect_white_loop fuel h stack (t <| td_registry ::= bump_sweep_broken_count |>) (S broken)
            else collect_white_loop fuel h stack t broken
          else collect_white_loop fuel h stack t broken
      end
  end.

Definition collect_white (h : H) (root : addr) (t : Trial) : option (H * Trial * nat) :=
  collect_white_loop (S (edges h (td_registry t))) h [root] t 0.

(** The three loops of [run] over the candidates. *)
Fixpoint run_mark (h : H) (roots : list addr) (t : Trial) : option Trial :=
  match roots with
  | [] => Some t
  | a :: roots =>
      if decide (color t a = Purple) then
        match mark_gray h a t with Some t => run_mark h roots t | None => None end
      else run_mark h roots t
  end.

Fixpoint run_scan (h : H) (roots : list addr) (t : Trial) : option Trial :=
  match roots with
  | [] => Some t
  | a :: roots =>
      if decide (color t a = Gray) then
        match scan h a t with Some t => run_scan h roots t | None => None end
      else run_scan h roots t
  end.

Fixpoint run_collect (h : H) (roots : list addr) (t : Trial) (broken : nat) : option (H * Trial * nat) :=
  match roots with
  | [] => Some (h, t, broken)
  | a :: roots =>
      if decide (color t a = White) then
        match collect_white h a t with
        | Some (h, t, n) => run_collect h roots t (broken + n)
        | None => None
        end
      else run_collect h roots t broken
  end.

(** [TrialDeletion::run]. *)
Definition trial_run (h : H) (t : Trial) : option (H * Trial * nat) :=
  let roots := candidate_addresses (td_registry t) in
  match run_mark h roots t with
  | None => None
  | Some t =>
      match run_scan h roots t with
      | None => None
      | Some t => run_collect h roots t 0
      end
  end.

(** [run_sweep]: dead entries are dropped, then the trial runs.  The time
    it takes is left out of the statistics. *)
Definition run_sweep (h : H) (r : Registry) : option (H * Registry) :=
  let r := r <| rg_entries ::= filter (λ '(a, _), upgradable h a = true) |> in
  match trial_run h (MkTrial r ∅) with
  | None => None
  | Some (h', t, n) =>
      Some (h', (td_registry t) <| rg_stats := MkSweepStats (candidate_count r) n |>
                              <| rg_pending := false |>)
  end.

End trial.
