(* ===== verification/TrialFacts.v ===== *)
(** * Trial deletion finds exactly the garbage among the candidates

    The marking and scanning phases of [Trial] against what they are for.
    Whatever the heap and the order of the candidates, they end within the
    bound on their turns, and the cells left white are the greatest set of
    candidates, among those reachable from a purple one, whose references all
    come from the set itself. *)

From stdpp Require Import base numbers gmap sorting list.
From S2P Require Import Prelude Trial.

Local Open Scope crab_scope.

(** ** Sums over sets of addresses *)

Definition occ (x : addr) (l : list addr) : nat := length (filter (λ y, x = y) l).

Lemma occ_cons x y l : occ x (y :: l) = (if decide (x = y) then 1 else 0) + occ x l.
Proof. unfold occ. rewrite filter_cons. by case_decide. Qed.

Lemma occ_zero x l : x ∉ l → occ x l = 0.
Proof.
  induction l as [|y l IH]; [done |]. rewrite not_elem_of_cons, occ_cons. intros [Hne Hl].
  by rewrite decide_False, IH.
Qed.

Lemma occ_pos x l : x ∈ l → 0 < occ x l.
Proof.
  induction 1 as [x l|x y l _ IH]; rewrite occ_cons; [rewrite decide_True by done |]; lia.
Qed.

Definition gsum (f : addr → nat) (X : gset addr) : nat := sum_list_with f (elements X).

Lemma sum_list_with_perm {A} (f : A → nat) l k : l ≡ₚ k → sum_list_with f l = sum_list_with f k.
Proof. induction 1; cbn; lia. Qed.

Lemma gsum_insert f x X : x ∉ X → gsum f ({[x]} ∪ X) = f x + gsum f X.
Proof.
  intros Hx. unfold gsum. by rewrite (sum_list_with_perm f _ _ (elements_union_singleton X x Hx)).
Qed.

Lemma gsum_delete f x X : x ∈ X → gsum f X = f x + gsum f (X ∖ {[x]}).
Proof.
  intros Hx. rewrite <-gsum_insert by set_solver. f_equal. apply leibniz_equiv.
  by rewrite <-union_difference_singleton.
Qed.

Lemma gsum_zero f X : (∀ x, x ∈ X → f x = 0) → gsum f X = 0.
Proof.
  unfold gsum. intros Hf. assert (∀ l, l ⊆ elements X → sum_list_with f l = 0) as Hl; [| by apply Hl].
  induction l as [|x l IH]; intros Hl; [done |]. cbn. rewrite IH, Hf; [done | | by set_solver].
  apply elem_of_elements, Hl. left.
Qed.

Lemma gsum_elem f x X : x ∈ X → f x ≤ gsum f X.
Proof. intros Hx. rewrite (gsum_delete f x X Hx). lia. Qed.

Lemma gsum_split f X Y : X ⊆ Y → gsum f Y = gsum f X + gsum f (Y ∖ X).
Proof.
  revert Y. induction X as [|x X Hx IH] using set_ind_L; intros Y HXY.
  { rewrite difference_empty_L. done. }
  rewrite (gsum_delete f x Y) by set_solver. rewrite (IH (Y ∖ {[x]})) by set_solver.
  rewrite gsum_insert by done. rewrite difference_difference_l_L. lia.
Qed.

Lemma gsum_shrink (f : addr → nat) a X M :
  a ∈ X → a ∉ M → gsum f (X ∖ M) = f a + gsum f (X ∖ ({[a]} ∪ M)).
Proof.
  intros Ha HM. rewrite (gsum_delete f a) by set_solver. f_equal. f_equal. set_solver.
Qed.

Lemma gsum_mono f X Y : X ⊆ Y → gsum f X ≤ gsum f Y.
Proof. intros HXY. rewrite (gsum_split f X Y HXY). lia. Qed.

(** ** The phases *)

Section facts.
Context {H : Type} `{HW : AnyWeak H} `{HO : KeyOrder} (h : H).

Notation kids := (upgrade_and_walk_children h).
Notation strong := (unbiased_strong_count h).

(** The references to [x] that the cells of [X] hold. *)
Definition refs (X : gset addr) (x : addr) : nat := gsum (λ m, occ x (kids m)) X.

Definition registered (r : Registry) : gset addr := dom (rg_entries r).

Lemma walk_registered r a :
  walk_candidate_children h r a = if decide (a ∈ registered r) then kids a else [].
Proof.
  unfold walk_candidate_children, registered. case_decide as Ha; rewrite elem_of_dom in Ha.
  - by destruct Ha as [c ->].
  - by destruct (rg_entries r !! a) eqn:E; [destruct Ha |].
Qed.

Lemma edges_registered r : edges h r = gsum (λ a, length (kids a)) (registered r).
Proof. done. Qed.

(** The count a cell starts the trial with. *)
Definition real (r : Registry) (x : addr) : Z :=
  Z.of_nat (default 0%nat (candidate_strong_count h r x)).

Lemma real_registered r x : x ∈ registered r → real r x = Z.of_nat (strong x).
Proof.
  unfold real, candidate_strong_count, registered. rewrite elem_of_dom. by intros [c ->].
Qed.

Lemma real_ext r r' x : registered r = registered r' → real r x = real r' x.
Proof.
  intros Heq. unfold real, candidate_strong_count.
  assert (is_Some (rg_entries r !! x) ↔ is_Some (rg_entries r' !! x)) as Hiff.
  { rewrite <-!elem_of_dom. unfold registered in Heq. by rewrite Heq. }
  destruct (rg_entries r !! x), (rg_entries r' !! x); try done; destruct Hiff as [H1 H2];
    [by destruct H1 | by destruct H2].
Qed.

Lemma registered_paint a c t : registered (td_registry (paint a c t)) = registered (td_registry t).
Proof. apply dom_alter_L. Qed.

(** *** Marking *)

Lemma mark_child_virtual t stack k t' stack' :
  mark_child h (t, stack) k = (t', stack') →
  td_registry t' = td_registry t ∧
  (∀ x, td_virtual t' !! x =
     if decide (x = k) then Some (Z.pred (default (real (td_registry t) x) (td_virtual t !! x)))
     else td_virtual t !! x) ∧
  stack' = if decide (color t k = Gray) then stack else k :: stack.
Proof.
  intros [= <- <-]. unfold ensure_virtual. split_and!.
  - by destruct (td_virtual t !! k).
  - intros x. destruct (td_virtual t !! k) as [v|] eqn:E; fields_goal.
    + rewrite lookup_alter. case_decide as Hx; [subst; rewrite decide_True by done | rewrite decide_False by done].
      * by rewrite E.
      * done.
    + rewrite lookup_alter. case_decide as Hx.
      * subst. rewrite decide_True, lookup_insert_eq, E by done. done.
      * by rewrite decide_False, lookup_insert_ne by done.
  - by destruct (td_virtual t !! k).
Qed.

Lemma mark_children_spec ks t stack t' stack' :
  foldl (mark_child h) (t, stack) ks = (t', stack') →
  td_registry t' = td_registry t ∧
  (∀ x, td_virtual t' !! x =
     if decide (x ∈ ks)
     then Some (default (real (td_registry t) x) (td_virtual t !! x) - Z.of_nat (occ x ks))%Z
     else td_virtual t !! x) ∧
  (∀ c, c ∈ stack' ↔ c ∈ stack ∨ c ∈ ks ∧ color t c ≠ Gray) ∧
  length stack' ≤ length ks + length stack.
Proof.
  revert t stack. induction ks as [|k ks IH]; intros t stack; cbn [foldl].
  { intros [= <- <-]. split_and!; [done | | | cbn; lia].
    - intros x. by rewrite decide_False by apply not_elem_of_nil.
    - intros c. rewrite elem_of_nil. naive_solver. }
  destruct (mark_child h (t, stack) k) as [t1 s1] eqn:E1. intros E.
  destruct (mark_child_virtual _ _ _ _ _ E1) as (Hr1 & Hv1 & ->).
  destruct (IH _ _ E) as (Hr & Hv & Hs & Hl). assert (∀ c, color t1 c = color t c) as Hcol.
  { intros c. unfold color. by rewrite Hr1. }
  split_and!; [by rewrite Hr | | |].
  - intros x. rewrite Hv, !Hv1, Hr1, occ_cons. destruct (decide (x = k)) as [->|Hne].
    + rewrite (decide_True (P := k ∈ k :: ks)) by left. 
      destruct (decide (k ∈ ks)) as [Hk|Hk]; cbn; f_equal; [lia |]. rewrite occ_zero by done. lia.
    + rewrite (decide_ext (x ∈ k :: ks) (x ∈ ks)) by (rewrite elem_of_cons; naive_solver). done.
  - intros c. rewrite Hs, Hcol, elem_of_cons. case_decide; rewrite ?elem_of_cons; naive_solver.
  - cbn [length]. case_decide; cbn in *; lia.
Qed.

(** The trial after the cells of [M] have been marked, with [stack] to go. *)
Record mark_ok (r : Registry) (M : gset addr) (stack : list addr) (t : Trial) : Prop := {
  mk_sub : M ⊆ registered r;
  mk_color x : rg_entries (td_registry t) !! x = if decide (x ∈ M) then Some Gray else rg_entries r !! x;
  mk_virtual x v : td_virtual t !! x = Some v → v = (real r x - Z.of_nat (refs M x))%Z;
  mk_self x : x ∈ M → is_Some (td_virtual t !! x);
  mk_kids m x : m ∈ M → x ∈ kids m → is_Some (td_virtual t !! x);
  mk_closed m x : m ∈ M → x ∈ kids m → x ∈ registered r → x ∈ M ∨ x ∈ stack;
}.

(** No trial is going on: every candidate is black or purple. *)
Definition settled (r : Registry) : Prop :=
  ∀ a c, rg_entries r !! a = Some c → c = Black ∨ c = Purple.

Section mark.
Context (r : Registry) (Hset : settled r).

Lemma mark_ok_registered M stack t : mark_ok r M stack t → registered (td_registry t) = registered r.
Proof.
  intros Ht. apply set_eq. intros x. unfold registered. rewrite !elem_of_dom, (mk_color _ _ _ _ Ht).
  case_decide as Hx; [| done]. apply (mk_sub _ _ _ _ Ht) in Hx. unfold registered in Hx.
  rewrite elem_of_dom in Hx. naive_solver.
Qed.

Lemma mark_ok_gray M stack t x : mark_ok r M stack t → color t x = Gray ↔ x ∈ M.
Proof.
  intros Ht. unfold color, candidate_color. rewrite (mk_color _ _ _ _ Ht).
  case_decide as Hx; [done |]. split; [| done]. intros Hg.
  destruct (rg_entries r !! x) eqn:E; cbn in Hg; [| done]. destruct (Hset _ _ E); congruence.
Qed.

Lemma refs_absent M stack t x : mark_ok r M stack t → td_virtual t !! x = None → refs M x = 0.
Proof.
  intros Ht Hx. apply gsum_zero. intros m Hm. apply occ_zero. intros Hk.
  destruct (mk_kids _ _ _ _ Ht m x Hm Hk). congruence.
Qed.

Lemma ensure_virtual_spec a t :
  td_registry (ensure_virtual h a t) = td_registry t ∧
  (∀ x, td_virtual (ensure_virtual h a t) !! x =
     if decide (x = a) then Some (default (real (td_registry t) x) (td_virtual t !! x))
     else td_virtual t !! x).
Proof.
  unfold ensure_virtual. destruct (td_virtual t !! a) as [v|] eqn:E; fields_goal; split; try done; intros x.
  - case_decide; [by subst; rewrite E | done].
  - destruct (decide (x = a)) as [->|Hne]; [by rewrite lookup_insert_eq, E | by rewrite lookup_insert_ne].
Qed.

(** What [ensure_virtual] reads or puts in is right. *)
Lemma mark_ok_virtual M stack t a x :
  mark_ok r M stack t →
  default (real r x) (td_virtual (ensure_virtual h a t) !! x) = (real r x - Z.of_nat (refs M x))%Z.
Proof.
  intros Ht. destruct (ensure_virtual_spec a t) as [_ ->].
  rewrite (real_ext _ _ _ (mark_ok_registered _ _ _ Ht)).
  destruct (td_virtual t !! x) as [v|] eqn:E.
  - rewrite (mk_virtual _ _ _ _ Ht x v E). by case_decide.
  - rewrite (refs_absent _ _ _ x Ht E). case_decide; cbn; lia.
Qed.

Lemma refs_insert a M x : a ∉ M → refs ({[a]} ∪ M) x = occ x (kids a) + refs M x.
Proof. apply gsum_insert. Qed.

Lemma mark_unregistered M stack t a :
  mark_ok r M (a :: stack) t → a ∉ registered r →
  mark_ok r M stack (paint a Gray (ensure_virtual h a t)).
Proof.
  intros Ht Ha. destruct (ensure_virtual_spec a t) as [Hr Hv]. split.
  - apply (mk_sub _ _ _ _ Ht).
  - intros x. unfold paint. fields_goal. rewrite Hr. unfold set_candidate_color. fields_goal.
    destruct (decide (x = a)) as [->|Hne].
    + rewrite lookup_alter_eq, (mk_color _ _ _ _ Ht).
      case_decide as HM; [by apply (mk_sub _ _ _ _ Ht) in HM |].
      unfold registered in Ha. apply not_elem_of_dom in Ha. by rewrite Ha.
    + rewrite lookup_alter_ne by done. apply (mk_color _ _ _ _ Ht).
  - intros x v. unfold paint. fields_goal. intros Hx.
    pose proof (mark_ok_virtual _ _ _ a x Ht) as Hd. by rewrite Hx in Hd.
  - intros x Hx. unfold paint. fields_goal. rewrite Hv. case_decide; [done |].
    by apply (mk_self _ _ _ _ Ht).
  - intros m x Hm Hx. unfold paint. fields_goal. rewrite Hv. case_decide; [done |].
    by apply (mk_kids _ _ _ _ Ht m).
  - intros m x Hm Hx HD. destruct (mk_closed _ _ _ _ Ht m x Hm Hx HD) as [?|Hin]; [by left |].
    apply elem_of_cons in Hin as [->|?]; [done | by right].
Qed.

Lemma mark_registered M stack t a t' stack' :
  mark_ok r M (a :: stack) t → a ∈ registered r → a ∉ M →
  foldl (mark_child h) (paint a Gray (ensure_virtual h a t), stack) (kids a) = (t', stack') →
  mark_ok r ({[a]} ∪ M) stack' t'.
Proof.
  intros Ht Ha HM Hf. destruct (ensure_virtual_spec a t) as [Hr Hv].
  destruct (mark_children_spec _ _ _ _ _ Hf) as (Hr' & Hv' & Hs & _).
  assert (∀ x, rg_entries (td_registry t') !! x =
    if decide (x ∈ {[a]} ∪ M) then Some Gray else rg_entries r !! x) as Hcol.
  { intros x. rewrite Hr'. unfold paint. fields_goal. rewrite Hr. unfold set_candidate_color. fields_goal.
    destruct (decide (x = a)) as [->|Hne].
    - rewrite lookup_alter_eq, (mk_color _ _ _ _ Ht), decide_False by done.
      rewrite (decide_True (P := a ∈ {[a]} ∪ M)) by set_solver.
      unfold registered in Ha. apply elem_of_dom in Ha as [c ->]. done.
    - rewrite lookup_alter_ne, (mk_color _ _ _ _ Ht) by done.
      by rewrite (decide_ext (x ∈ {[a]} ∪ M) (x ∈ M)) by set_solver. }
  assert (registered (td_registry (paint a Gray (ensure_virtual h a t))) = registered r) as Hreg.
  { rewrite registered_paint, Hr. by apply (mark_ok_registered _ _ _ Ht). }
  split; [| done | | | |].
  - pose proof (mk_sub _ _ _ _ Ht). set_solver.
  - intros x v. rewrite Hv', refs_insert, (real_ext _ _ _ Hreg) by done. unfold paint. fields_goal.
    pose proof (mark_ok_virtual _ _ _ a x Ht) as Hd.
    case_decide as Hx; [intros [= <-]; lia |]. intros Hxv. rewrite Hxv in Hd. cbn in Hd.
    rewrite occ_zero by done. lia.
  - intros x Hx. rewrite Hv'. case_decide; [done |]. unfold paint. fields_goal. rewrite Hv.
    case_decide; [done |]. apply (mk_self _ _ _ _ Ht). set_solver.
  - intros m x Hm Hx. rewrite Hv'. case_decide as Hxa; [done |]. unfold paint. fields_goal. rewrite Hv.
    case_decide; [done |]. apply (mk_kids _ _ _ _ Ht m); [set_solver | done].
  - intros m x Hm Hx HD. destruct (decide (x ∈ {[a]} ∪ M)) as [?|HxM]; [by left |]. right. apply Hs.
    apply elem_of_union in Hm as [->%elem_of_singleton|Hm].
    + right. split; [done |]. unfold color, candidate_color. rewrite <-Hr', Hcol, decide_False by done.
      intros Hg. destruct (rg_entries r !! x) eqn:E; cbn in Hg; [| done]. destruct (Hset _ _ E); congruence.
    + left. destruct (mk_closed _ _ _ _ Ht m x Hm Hx HD) as [?|Hin]; [set_solver |].
      apply elem_of_cons in Hin as [->|?]; [set_solver | done].
Qed.

Lemma mark_gray_loop_ok fuel stack t M :
  mark_ok r M stack t →
  length stack + gsum (λ a, length (kids a)) (registered r ∖ M) ≤ fuel →
  ∃ t' M', mark_gray_loop fuel h stack t = Some t' ∧ mark_ok r M' [] t' ∧ M ⊆ M' ∧
    ∀ x, x ∈ stack → x ∈ registered r → x ∈ M'.
Proof.
  revert stack t M. induction fuel as [|fuel IH]; intros [|a stack] t M Ht Hf; cbn in Hf |- *; try lia;
    try (exists t, M; split_and!; [done | done | done | by intros x Hx%elem_of_nil]).
  case_decide as Hg.
  - apply (mark_ok_gray _ _ _ _ Ht) in Hg. destruct (IH stack t M) as (t' & M' & ? & ? & Hsub & Hst).
    + destruct Ht. split; try done. intros m x Hm Hx HD.
      destruct (mk_closed0 m x Hm Hx HD) as [?|[->|?]%elem_of_cons]; auto.
    + lia.
    + exists t', M'. split_and!; [done | done | done |]. intros x [->|Hx]%elem_of_cons HD; auto.
  - assert (a ∉ M) as HM by (by rewrite <-(mark_ok_gray _ _ _ _ Ht)).
    rewrite walk_registered, registered_paint. destruct (ensure_virtual_spec a t) as [-> _].
    rewrite (mark_ok_registered _ _ _ Ht). destruct (decide (a ∈ registered r)) as [Ha|Ha].
    + destruct (foldl _ _ _) as [t1 s1] eqn:Hfold.
      pose proof (mark_registered _ _ _ _ _ _ Ht Ha HM Hfold) as Ht1.
      destruct (mark_children_spec _ _ _ _ _ Hfold) as (_ & _ & Hs & Hl).
      rewrite (gsum_shrink _ a) in Hf by done.
      destruct (IH s1 t1 ({[a]} ∪ M) Ht1) as (t' & M' & ? & ? & Hsub & Hst); [lia |].
      exists t', M'. split_and!; [done | done | set_solver |].
      intros x [->|Hx]%elem_of_cons HD; [set_solver |]. apply Hst; [| done]. apply Hs. by left.
    + cbn [foldl]. destruct (IH stack _ M (mark_unregistered _ _ _ _ Ht Ha))
        as (t' & M' & ? & ? & Hsub & Hst); [lia |].
      exists t', M'. split_and!; [done | done | done |]. intros x [->|Hx]%elem_of_cons HD; [done | auto].
Qed.

Lemma run_mark_ok roots t M :
  mark_ok r M [] t →
  ∃ t' M', run_mark h roots t = Some t' ∧ mark_ok r M' [] t' ∧ M ⊆ M' ∧
    ∀ x, x ∈ roots → rg_entries r !! x = Some Purple → x ∈ M'.
Proof.
  revert t M. induction roots as [|a roots IH]; intros t M Ht; cbn [run_mark].
  { exists t, M. split_and!; [done | done | done | by intros x Hx%elem_of_nil]. }
  case_decide as Hp.
  - unfold mark_gray. rewrite edges_registered, (mark_ok_registered _ _ _ Ht).
    destruct (mark_gray_loop_ok (S (gsum (λ a, length (kids a)) (registered r))) [a] t M)
      as (t1 & M1 & -> & Ht1 & Hsub1 & Hst).
    + destruct Ht. split; try done. intros m x Hm Hx HD. destruct (mk_closed0 m x Hm Hx HD) as [?|?%elem_of_nil]; auto; done.
    + cbn. rewrite (gsum_split _ M (registered r)) by (by apply (mk_sub _ _ _ _ Ht)). lia.
    + destruct (IH t1 M1 Ht1) as (t' & M' & ? & ? & Hsub & Hr). exists t', M'.
      split_and!; [done | done | by etrans |]. intros x [->|Hx]%elem_of_cons Hpx; [| by apply Hr].
      apply Hsub, Hst; [left | unfold registered; apply elem_of_dom; eauto].
  - destruct (IH t M Ht) as (t' & M' & ? & ? & Hsub & Hr). exists t', M'.
    split_and!; [done | done | done |]. intros x [->|Hx]%elem_of_cons Hpx; [| by apply Hr].
    apply Hsub. destruct (decide (a ∈ M)) as [?|HM]; [done | exfalso]. apply Hp.
    unfold color, candidate_color. by rewrite (mk_color _ _ _ _ Ht), decide_False, Hpx.
Qed.

Lemma mark_ok_start : mark_ok r ∅ [] (MkTrial r ∅).
Proof. split; set_solver. Qed.

End mark.

Lemma push_colored_spec c t ks stack :
  (∀ x, x ∈ push_colored c t ks stack ↔ x ∈ stack ∨ x ∈ ks ∧ color t x = c) ∧
  length (push_colored c t ks stack) ≤ length ks + length stack.
Proof.
  unfold push_colored. revert stack. induction ks as [|k ks IH]; intros stack; cbn [foldl length].
  { split; [| lia]. intros x. rewrite elem_of_nil. naive_solver. }
  destruct (IH (if decide (color t k = c) then k :: stack else stack)) as [Hs Hl]. split.
  - intros x. rewrite Hs, elem_of_cons. clear. case_decide; rewrite ?elem_of_cons; naive_solver.
  - revert Hl. case_decide; cbn; lia.
Qed.

(** *** Scanning *)

Lemma black_children_spec ks t stack t' stack' :
  foldl black_child (t, stack) ks = (t', stack') →
  td_registry t' = td_registry t ∧
  (∀ x, td_virtual t' !! x = (λ v, v + Z.of_nat (occ x ks))%Z <$> td_virtual t !! x) ∧
  (∀ c, c ∈ stack' ↔ c ∈ stack ∨ c ∈ ks ∧ color t c ≠ Black) ∧
  length stack' ≤ length ks + length stack.
Proof.
  revert t stack. induction ks as [|k ks IH]; intros t stack; cbn [foldl].
  { intros [= <- <-]. split_and!; [done | | | cbn; lia].
    - intros x. destruct (td_virtual t !! x); [| done]. cbn. f_equal. lia.
    - intros c. rewrite elem_of_nil. naive_solver. }
  intros E. destruct (IH _ _ E) as (Hr & Hv & Hs & Hl). fields_in Hr.
  split_and!; [done | | |].
  - intros x. rewrite Hv, occ_cons. fields_goal. destruct (decide (x = k)) as [->|Hne].
    + rewrite lookup_alter_eq, <-option_fmap_compose. apply option_fmap_ext. intros v. cbn. lia.
    + by rewrite lookup_alter_ne by done.
  - intros c. rewrite Hs, elem_of_cons. unfold color. fields_goal.
    clear. case_decide; rewrite ?elem_of_cons; naive_solver.
  - revert Hl. case_decide; cbn; lia.
Qed.

(** The scan of the marked cells [M], of which [B] are back to black and
    [stack] still has to be.  [S] is a set of marked cells that only refer to
    each other. *)
Record scan_ok (r : Registry) (M S B : gset addr) (stack : list addr) (t : Trial) : Prop := {
  sc_sub : B ⊆ M;
  sc_out x : x ∉ M → rg_entries (td_registry t) !! x = rg_entries r !! x;
  sc_in x : x ∈ M → ∃ c, rg_entries (td_registry t) !! x = Some c ∧ c ≠ Purple ∧ (c = Black ↔ x ∈ B);
  sc_virtual x : x ∈ M → td_virtual t !! x = Some (Z.of_nat (strong x) - Z.of_nat (refs (M ∖ B) x))%Z;
  sc_closed b x : b ∈ B → x ∈ kids b → x ∈ M → x ∈ B ∨ x ∈ stack;
  sc_white x : x ∈ M → rg_entries (td_registry t) !! x = Some White →
    strong x ≤ refs (M ∖ B) x ∨ x ∈ stack;
  sc_stack x : x ∈ stack → x ∈ M;
  sc_spared x : x ∈ S → x ∉ B ∧ x ∉ stack;
}.

Section scan.
Context (r : Registry) (Hset : settled r).
Context (M S : gset addr) (HM : M ⊆ registered r).
Context (Hclosed : ∀ m x, m ∈ M → x ∈ kids m → x ∈ registered r → x ∈ M).
Context (Hcounted : ∀ x, x ∈ S → refs M x ≤ strong x).
Context (HSM : S ⊆ M) (HS : ∀ x, x ∈ S → strong x ≤ refs S x).

Lemma scan_ok_registered B stack t : scan_ok r M S B stack t → registered (td_registry t) = registered r.
Proof.
  intros Ht. apply set_eq. intros x. unfold registered. rewrite !elem_of_dom.
  destruct (decide (x ∈ M)) as [Hx|Hx]; [| by rewrite (sc_out _ _ _ _ _ _ Ht)].
  destruct (sc_in _ _ _ _ _ _ Ht x Hx) as (c & -> & _). apply HM in Hx. unfold registered in Hx.
  rewrite elem_of_dom in Hx. naive_solver.
Qed.

Lemma scan_ok_color B stack t x c :
  scan_ok r M S B stack t → x ∈ M → rg_entries (td_registry t) !! x = Some c ↔ color t x = c.
Proof.
  intros Ht Hx. destruct (sc_in _ _ _ _ _ _ Ht x Hx) as (c' & Hc & _).
  unfold color, candidate_color. rewrite Hc. cbn. naive_solver.
Qed.

Lemma scan_ok_black B stack t x : scan_ok r M S B stack t → x ∈ M → color t x = Black ↔ x ∈ B.
Proof.
  intros Ht Hx. destruct (sc_in _ _ _ _ _ _ Ht x Hx) as (c & Hc & _ & Hb).
  unfold color, candidate_color. by rewrite Hc.
Qed.

(** A gray cell is a marked one. *)
Lemma scan_ok_gray B stack t x : scan_ok r M S B stack t → color t x = Gray → x ∈ M.
Proof.
  intros Ht Hg. destruct (decide (x ∈ M)) as [?|Hx]; [done | exfalso].
  unfold color, candidate_color in Hg. rewrite (sc_out _ _ _ _ _ _ Ht x Hx) in Hg.
  destruct (rg_entries r !! x) eqn:E; cbn in Hg; [| done]. destruct (Hset _ _ E); congruence.
Qed.

(** No cell outside [S] refers to [S]. *)
Lemma spared_unreferenced b x : b ∈ M → b ∉ S → x ∈ S → x ∉ kids b.
Proof.
  intros Hb HbS Hx Hk. pose proof (Hcounted x Hx) as Hc. pose proof (HS x Hx) as Hs.
  unfold refs in *. rewrite (gsum_split _ S M) in Hc by done.
  assert (0 < occ x (kids b)) by (by apply occ_pos).
  pose proof (gsum_elem (λ m, occ x (kids m)) b (M ∖ S)) as He. cbn in He.
  assert (b ∈ M ∖ S) by set_solver. specialize (He ltac:(done)). lia.
Qed.

Lemma paint_lookup a c t x :
  rg_entries (td_registry (paint a c t)) !! x =
    if decide (x = a) then (λ _, c) <$> rg_entries (td_registry t) !! x
    else rg_entries (td_registry t) !! x.
Proof.
  unfold paint, set_candidate_color. fields_goal. fields_goal. destruct (decide (x = a)) as [->|Hne].
  - apply lookup_alter_eq.
  - by apply lookup_alter_ne.
Qed.

Lemma black_cell B stack t a t' stack' :
  scan_ok r M S B (a :: stack) t → a ∉ B →
  foldl black_child (paint a Black t, stack) (kids a) = (t', stack') →
  scan_ok r M S ({[a]} ∪ B) stack' t'.
Proof.
  intros Ht Ha Hf. destruct (black_children_spec _ _ _ _ _ Hf) as (Hr & Hv & Hs & _).
  assert (a ∈ M) as HaM by (apply (sc_stack _ _ _ _ _ _ Ht); left).
  assert (a ∉ S) as HaS. { intros HaS. destruct (sc_spared _ _ _ _ _ _ Ht a HaS) as [_ Hn]. apply Hn. left. }
  assert (∀ x, rg_entries (td_registry t') !! x =
    if decide (x = a) then Some Black else rg_entries (td_registry t) !! x) as Hcol.
  { intros x. rewrite Hr, paint_lookup. case_decide; [| done]. subst x.
    by destruct (sc_in _ _ _ _ _ _ Ht a HaM) as (c & -> & _). }
  assert (∀ x, refs (M ∖ B) x = occ x (kids a) + refs (M ∖ ({[a]} ∪ B)) x) as Hrefs.
  { intros x. apply (gsum_shrink (λ m, occ x (kids m))); done. }
  assert (∀ x, x ∈ M → x ∈ kids a → x ∉ {[a]} ∪ B → x ∈ stack') as Hpush.
  { intros x HxM Hk Hx. apply Hs. right. split; [done |]. unfold color, candidate_color.
    rewrite paint_lookup, decide_False by set_solver. intros Hb.
    apply (scan_ok_black _ _ _ x Ht HxM) in Hb. set_solver. }
  split.
  - pose proof (sc_sub _ _ _ _ _ _ Ht). set_solver.
  - intros x Hx. rewrite Hcol, decide_False by (by intros ->). by apply (sc_out _ _ _ _ _ _ Ht).
  - intros x Hx. rewrite Hcol. case_decide as Hxa; [exists Black; set_solver |].
    destruct (sc_in _ _ _ _ _ _ Ht x Hx) as (c & -> & Hp & Hb). exists c. set_solver.
  - intros x Hx. rewrite Hv. unfold paint. fields_goal. rewrite (sc_virtual _ _ _ _ _ _ Ht x Hx), Hrefs.
    cbn. f_equal. lia.
  - intros b x Hb Hk Hx. destruct (decide (x ∈ {[a]} ∪ B)) as [?|Hn]; [by left |]. right.
    apply elem_of_union in Hb as [->%elem_of_singleton|Hb]; [by apply Hpush |]. apply Hs. left.
    destruct (sc_closed _ _ _ _ _ _ Ht b x Hb Hk Hx) as [?|Hin]; [set_solver |].
    apply elem_of_cons in Hin as [->|?]; [set_solver | done].
  - intros x Hx. rewrite Hcol. case_decide as Hxa; [done |]. intros Hw.
    assert (x ∉ {[a]} ∪ B) as HxB.
    { intros [->%elem_of_singleton|HB]%elem_of_union; [done |].
      apply (scan_ok_black _ _ _ x Ht Hx) in HB. apply (scan_ok_color _ _ _ x White Ht Hx) in Hw. congruence. }
    destruct (decide (x ∈ kids a)) as [Hk|Hk]; [right; by apply Hpush |].
    destruct (sc_white _ _ _ _ _ _ Ht x Hx Hw) as [Hle|Hin].
    + left. rewrite Hrefs, occ_zero in Hle by done. lia.
    + right. apply Hs. left. by apply elem_of_cons in Hin as [->|?].
  - intros x Hx. apply Hs in Hx as [Hx|[Hk Hb]]; [apply (sc_stack _ _ _ _ _ _ Ht); by right |].
    apply (Hclosed a); [done | done |]. rewrite <-(scan_ok_registered _ _ _ Ht). unfold registered.
    apply elem_of_dom. unfold color, candidate_color in Hb. rewrite paint_lookup in Hb.
    destruct (rg_entries (td_registry t) !! x) eqn:E; [done |]. by case_decide.
  - intros x Hx. destruct (sc_spared _ _ _ _ _ _ Ht x Hx) as [HxB Hxs]. split; [set_solver |].
    rewrite Hs. intros [?|[Hk _]]; [apply Hxs; by right |]. by apply (spared_unreferenced a x).
Qed.

Lemma scan_black_loop_ok fuel stack t B :
  scan_ok r M S B stack t →
  length stack + gsum (λ a, length (kids a)) (M ∖ B) ≤ fuel →
  ∃ t' B', scan_black_loop fuel h stack t = Some t' ∧ scan_ok r M S B' [] t' ∧ B ⊆ B' ∧
    (∀ x, x ∈ stack → x ∈ B') ∧
    (∀ x, x ∉ B' → rg_entries (td_registry t') !! x = rg_entries (td_registry t) !! x).
Proof.
  revert stack t B. induction fuel as [|fuel IH]; intros [|a stack] t B Ht Hf; cbn in Hf |- *; try lia;
    try (exists t, B; split_and!; [done | done | done | by intros x Hx%elem_of_nil | done]).
  assert (a ∈ M) as HaM by (apply (sc_stack _ _ _ _ _ _ Ht); left).
  case_decide as Hb.
  - apply (scan_ok_black _ _ _ a Ht HaM) in Hb. destruct (IH stack t B) as (t' & B' & ? & ? & Hsub & Hst & Hout).
    + destruct Ht. split; try done.
      * intros b x Hbb Hk Hx. destruct (sc_closed0 b x Hbb Hk Hx) as [?|[->|?]%elem_of_cons]; auto.
      * intros x Hx Hw. destruct (sc_white0 x Hx Hw) as [?|[->|?]%elem_of_cons]; auto.
        destruct (sc_in0 a Hx) as (c & Hc & _ & Hcb). rewrite Hc in Hw. simplify_eq. by apply Hcb in Hb.
      * intros x Hx. apply sc_stack0. by right.
      * intros x Hx. destruct (sc_spared0 x Hx) as [? Hn]. split; [done |]. intros Hin. apply Hn. by right.
    + lia.
    + exists t', B'. split_and!; [done | done | done | | done]. intros x [->|Hx]%elem_of_cons; auto.
  - assert (a ∉ B) as HaB by (by rewrite <-(scan_ok_black _ _ _ a Ht HaM)).
    rewrite walk_registered, registered_paint, (scan_ok_registered _ _ _ Ht), decide_True by (by apply HM).
    destruct (foldl _ _ _) as [t1 s1] eqn:Hfold.
    pose proof (black_cell _ _ _ _ _ _ Ht HaB Hfold) as Ht1.
    destruct (black_children_spec _ _ _ _ _ Hfold) as (Hr1 & _ & Hs & Hl).
    rewrite (gsum_shrink _ a) in Hf by done.
    destruct (IH s1 t1 ({[a]} ∪ B) Ht1) as (t' & B' & ? & ? & Hsub & Hst & Hout); [lia |].
    exists t', B'. split_and!; [done | done | set_solver | |].
    + intros x [->|Hx]%elem_of_cons; [set_solver |]. apply Hst, Hs. by left.
    + intros x Hx. rewrite (Hout x Hx), Hr1, paint_lookup. rewrite decide_False by set_solver. done.
Qed.

Lemma scan_black_ok root t B :
  scan_ok r M S B [] t → color t root = Gray → (0 < Z.of_nat (strong root) - Z.of_nat (refs (M ∖ B) root))%Z →
  ∃ t' B', scan_black h root t = Some t' ∧ scan_ok r M S B' [] t' ∧ B ⊆ B' ∧ root ∈ B' ∧
    (∀ x, x ∉ B' → rg_entries (td_registry t') !! x = rg_entries (td_registry t) !! x).
Proof.
  intros Ht Hg Hpos. pose proof (scan_ok_gray _ _ _ _ Ht Hg) as HrM.
  destruct (scan_black_loop_ok (Datatypes.S (edges h (td_registry t))) [root] t B)
    as (t' & B' & Hloop & Ht' & Hsub & Hst & Hout).
  - destruct Ht. split; try done.
    + intros b x Hb Hk Hx. destruct (sc_closed0 b x Hb Hk Hx) as [?|?%elem_of_nil]; auto; done.
    + intros x Hx Hw. destruct (sc_white0 x Hx Hw) as [?|?%elem_of_nil]; auto; done.
    + by intros x ->%list_elem_of_singleton.
    + intros x Hx. destruct (sc_spared0 x Hx) as [HxB _]. split; [done |].
      rewrite list_elem_of_singleton. intros ->. pose proof (HS root Hx) as Hle.
      assert (S ⊆ M ∖ B) as Hsub by set_solver.
      unfold refs in *. rewrite (gsum_split _ S (M ∖ B) Hsub) in Hpos. lia.
  - rewrite edges_registered, (scan_ok_registered _ _ _ Ht).
    rewrite (gsum_split _ (M ∖ B) (registered r)) by set_solver. cbn. lia.
  - exists t', B'. split_and!; [done | done | done | | done]. apply Hst. left.
Qed.

(** The marked cells the scan has not decided about. *)
Definition grays (t : Trial) : gset addr := filter (λ x, color t x = Gray) M.

Lemma white_cell B t a :
  scan_ok r M S B [] t → color t a = Gray →
  (Z.of_nat (strong a) - Z.of_nat (refs (M ∖ B) a) ≤ 0)%Z →
  scan_ok r M S B [] (paint a White t).
Proof.
  intros Ht Hg Hle. pose proof (scan_ok_gray _ _ _ _ Ht Hg) as HaM.
  assert (a ∉ B) as HaB. { rewrite <-(scan_ok_black _ _ _ a Ht HaM). congruence. }
  destruct Ht as [H1 H2 H3 H4 H5 H6 H7 H8]. split; try done.
  - intros x Hx. rewrite paint_lookup, decide_False by (by intros ->). by apply H2.
  - intros x Hx. rewrite paint_lookup. destruct (H3 x Hx) as (c & Hc & Hp & Hb).
    case_decide as Hxa; [| by exists c]. subst x. rewrite Hc. exists White. naive_solver.
  - intros x Hx. rewrite paint_lookup. case_decide as Hxa; [subst x; intros _; left; lia | by apply H6].
Qed.

Lemma scan_loop_ok fuel stack t B :
  scan_ok r M S B [] t →
  length stack + gsum (λ a, length (kids a)) (grays t) ≤ fuel →
  ∃ t' B', scan_loop fuel h stack t = Some t' ∧ scan_ok r M S B' [] t' ∧
    (∀ x, x ∈ stack → color t' x ≠ Gray) ∧ (∀ x, color t' x = Gray → color t x = Gray).
Proof.
  revert stack t B. induction fuel as [|fuel IH]; intros [|a stack] t B Ht Hf; cbn [length] in Hf;
    cbn [scan_loop]; try lia;
    try (exists t, B; split_and!; [done | done | by intros x Hx%elem_of_nil | done]).
  case_decide as Hg.
  - pose proof (scan_ok_gray _ _ _ _ Ht Hg) as HaM. rewrite (sc_virtual _ _ _ _ _ _ Ht a HaM). cbn [default id].
    case_decide as Hpos.
    + destruct (scan_black_ok _ _ _ Ht Hg Hpos) as (t1 & B1 & -> & Ht1 & Hsub & HaB & Hout).
      assert (∀ x, color t1 x = Gray → color t x = Gray) as Hgray.
      { intros x Hx. pose proof (scan_ok_gray _ _ _ _ Ht1 Hx) as HxM. unfold color, candidate_color in *.
        rewrite <-(Hout x); [done |]. rewrite <-(scan_ok_black _ _ _ x Ht1 HxM). unfold color, candidate_color.
        by rewrite Hx. }
      destruct (IH stack t1 B1 Ht1) as (t' & B' & ? & ? & Hst & Hmono).
      * assert (grays t1 ⊆ grays t) as Hgs by (unfold grays; set_solver).
        pose proof (gsum_mono (λ a, length (kids a)) _ _ Hgs). lia.
      * exists t', B'. split_and!; [done | done | | auto]. intros x [->|Hx]%elem_of_cons; [| by apply Hst].
        intros Hx%Hmono. apply (scan_ok_black _ _ _ a Ht1 HaM) in HaB. congruence.
    + assert (color (paint a White t) a = White) as Hwa.
      { unfold color, candidate_color. rewrite paint_lookup, decide_True by done.
        by destruct (sc_in _ _ _ _ _ _ Ht a HaM) as (c & -> & _). }
      assert (∀ x, color (paint a White t) x = Gray → x ≠ a ∧ color t x = Gray) as Hgray.
      { intros x. destruct (decide (x = a)) as [->|Hne]; [congruence |].
        unfold color, candidate_color. by rewrite paint_lookup, decide_False. }
      rewrite walk_registered, registered_paint, (scan_ok_registered _ _ _ Ht), decide_True by (by apply HM).
      destruct (push_colored_spec Gray (paint a White t) (kids a) stack) as [Hps Hpl].
      destruct (IH (push_colored Gray (paint a White t) (kids a) stack) (paint a White t) B)
        as (t' & B' & ? & ? & Hst & Hmono); [by apply white_cell; [| | lia] | |].
      * rewrite (gsum_delete _ a (grays t)) in Hf by (unfold grays; set_solver).
        assert (grays (paint a White t) ⊆ grays t ∖ {[a]}) as Hgs by (unfold grays; set_solver).
        pose proof (gsum_mono (λ a, length (kids a)) _ _ Hgs). lia.
      * exists t', B'. split_and!; [done | done | | intros x Hx%Hmono%Hgray; by destruct Hx].
        intros x [->|Hx]%elem_of_cons; [intros Hx%Hmono; congruence |]. apply Hst, Hps. by left.
  - destruct (IH stack t B Ht) as (t' & B' & ? & ? & Hst & Hmono); [lia |].
    exists t', B'. split_and!; [done | done | | done]. intros x [->|Hx]%elem_of_cons; [| by apply Hst].
    by intros Hx%Hmono.
Qed.

Lemma run_scan_ok roots t B :
  scan_ok r M S B [] t →
  ∃ t' B', run_scan h roots t = Some t' ∧ scan_ok r M S B' [] t' ∧
    (∀ x, x ∈ roots → color t' x ≠ Gray) ∧ (∀ x, color t' x = Gray → color t x = Gray).
Proof.
  revert t B. induction roots as [|a roots IH]; intros t B Ht; cbn [run_scan].
  { exists t, B. split_and!; [done | done | by intros x Hx%elem_of_nil | done]. }
  case_decide as Hg.
  - unfold scan. destruct (scan_loop_ok (Datatypes.S (edges h (td_registry t))) [a] t B Ht)
      as (t1 & B1 & -> & Ht1 & Hst1 & Hmono1).
    + rewrite edges_registered, (scan_ok_registered _ _ _ Ht). cbn. apply le_n_S, gsum_mono.
      unfold grays. set_solver.
    + destruct (IH t1 B1 Ht1) as (t' & B' & ? & ? & Hst & Hmono). exists t', B'.
      split_and!; [done | done | | auto]. intros x [->|Hx]%elem_of_cons; [| by apply Hst].
      intros Hx%Hmono. apply (Hst1 a); [left | done].
  - destruct (IH t B Ht) as (t' & B' & ? & ? & Hst & Hmono). exists t', B'.
    split_and!; [done | done | | done]. intros x [->|Hx]%elem_of_cons; [| by apply Hst].
    by intros Hx%Hmono.
Qed.

End scan.

(** *** The outcome *)

Lemma scan_ok_start r M S t :
  settled r → mark_ok r M [] t → scan_ok r M S ∅ [] t.
Proof.
  intros Hset Ht. split; try set_solver.
  - intros x Hx. by rewrite (mk_color _ _ _ _ Ht), decide_False.
  - intros x Hx. rewrite (mk_color _ _ _ _ Ht), decide_True by done. exists Gray. set_solver.
  - intros x Hx. destruct (mk_self _ _ _ _ Ht x Hx) as [v Hv]. rewrite Hv.
    rewrite (mk_virtual _ _ _ _ Ht x v Hv), difference_empty_L.
    by rewrite real_registered by (by apply (mk_sub _ _ _ _ Ht)).
  - intros x Hx Hw. rewrite (mk_color _ _ _ _ Ht), decide_True in Hw by done. done.
Qed.

(** Every strong reference to a cell of [X] is held by a cell of [X]. *)
Definition closed_group (X : gset addr) : Prop := ∀ x, x ∈ X → strong x ≤ refs X x.

(** Strong counts count at least the references the cells of a set hold. *)
Definition counted (r : Registry) : Prop :=
  ∀ (X : gset addr) x, X ⊆ registered r → x ∈ registered r → refs X x ≤ strong x.

(** A candidate a purple candidate leads to, through candidates. *)
Definition suspect (r : Registry) (x : addr) : Prop :=
  ∃ p, rg_entries r !! p = Some Purple ∧ rtc (λ a b, b ∈ kids a ∧ b ∈ registered r) p x.

Lemma candidate_addresses_elem r x : x ∈ candidate_addresses r ↔ x ∈ registered r.
Proof.
  unfold candidate_addresses, registered. rewrite key_order_perm, elem_of_dom, list_elem_of_fmap. split.
  - intros ([y c] & -> & Hy). apply elem_of_map_to_list in Hy. by exists c.
  - intros [c Hc]. exists (x, c). by rewrite elem_of_map_to_list.
Qed.

Lemma suspect_marked r (M : gset addr) x :
  (∀ p, rg_entries r !! p = Some Purple → p ∈ M) →
  (∀ m x, m ∈ M → x ∈ kids m → x ∈ registered r → x ∈ M) → suspect r x → x ∈ M.
Proof.
  intros Hp Hc (p & Hpp & Hr). apply Hp in Hpp. induction Hr as [|a b c [Hk HD] _ IH]; [done |]. eauto.
Qed.

(** Marking paints only what its roots lead to. *)
Definition tried (t : Trial) (x : addr) : Prop := color t x = Gray ∨ color t x = Purple.

Lemma paint_gray_tried a t x :
  tried (paint a Gray t) x → tried t x ∨ x = a ∧ a ∈ registered (td_registry t).
Proof.
  unfold tried, color, candidate_color. rewrite paint_lookup. case_decide as Hx; [subst x | by left].
  unfold registered. rewrite elem_of_dom.
  destruct (rg_entries (td_registry t) !! a) as [c|]; [right; eauto | by left].
Qed.

Lemma mark_gray_loop_within (Q : addr → Prop) D fuel stack t t' :
  (∀ a b, Q a → b ∈ kids a → b ∈ D → Q b) → registered (td_registry t) = D →
  (∀ a, a ∈ stack → a ∈ D → Q a) → (∀ a, tried t a → Q a) →
  mark_gray_loop fuel h stack t = Some t' →
  registered (td_registry t') = D ∧ ∀ a, tried t' a → Q a.
Proof.
  intros Hcl. revert stack t. induction fuel as [|fuel IH]; intros [|a stack] t HD Hs Ht; cbn;
    try done; try (by intros [= <-]).
  case_decide as Hg; [apply IH; [done | | done]; intros b Hb; apply Hs; by right |].
  rewrite walk_registered, registered_paint. destruct (ensure_virtual_spec a t) as [Hr _].
  rewrite Hr, HD. destruct (foldl _ _ _) as [t1 s1] eqn:Hfold.
  destruct (mark_children_spec _ _ _ _ _ Hfold) as (Hr1 & _ & Hst & _).
  assert (∀ b, tried t1 b → tried t b ∨ b = a ∧ a ∈ D) as Htr.
  { intros b Hb. unfold tried, color in Hb. rewrite Hr1 in Hb. apply paint_gray_tried in Hb.
    unfold tried, color in *. by rewrite Hr, HD in Hb. }
  apply IH.
  - by rewrite Hr1, registered_paint, Hr.
  - intros b [Hb|[Hb _]]%Hst HbD; [apply Hs; [by right | done] |].
    case_decide as Ha; [| by apply elem_of_nil in Hb]. apply (Hcl a b); [| done | done].
    apply Hs; [by left | done].
  - intros b [Hb|[-> Ha]]%Htr; [by apply Ht | apply Hs; [by left | done]].
Qed.

Lemma run_mark_within (Q : addr → Prop) D roots t t' :
  (∀ a b, Q a → b ∈ kids a → b ∈ D → Q b) → registered (td_registry t) = D →
  (∀ a, tried t a → Q a) → run_mark h roots t = Some t' → ∀ a, tried t' a → Q a.
Proof.
  intros Hcl. revert t. induction roots as [|r roots IH]; intros t HD Ht; cbn [run_mark].
  { by intros [= <-]. }
  case_decide as Hp; [| by apply IH]. destruct (mark_gray h r t) as [t1|] eqn:Hm; [| done].
  apply (mark_gray_loop_within Q D) in Hm as [HD1 Ht1]; [by apply IH | done | done | | done].
  intros a ->%list_elem_of_singleton _. apply Ht. by right.
Qed.

Lemma marked_suspect r t :
  settled r → run_mark h (candidate_addresses r) (MkTrial r ∅) = Some t →
  ∀ x, color t x = Gray → suspect r x.
Proof.
  intros Hset Hm x Hx. eapply (run_mark_within (suspect r) (registered r)); [| | | exact Hm | by left].
  - intros a b (p & Hp & Hr) Hb HD. exists p. split; [done |]. by eapply rtc_r.
  - done.
  - intros a Ha. exists a. split; [| done]. unfold tried, color, candidate_color in Ha. cbn in Ha.
    destruct (rg_entries r !! a) as [c|] eqn:E; cbn in Ha; [| by destruct Ha].
    destruct (Hset _ _ E) as [-> | ->]; [by destruct Ha | done].
Qed.

(** The white cells after the scan. *)
Lemma scan_whites r (M S B : gset addr) t :
  settled r → M ⊆ registered r → (∀ p, rg_entries r !! p = Some Purple → p ∈ M) →
  scan_ok r M S B [] t → (∀ x, x ∈ registered r → color t x ≠ Gray) →
  (∀ x, x ∈ M ∖ B ↔ color t x = White) ∧ (∀ x, x ∉ M ∖ B → color t x = Black) ∧ closed_group (M ∖ B).
Proof.
  intros Hset HM Hp Ht Hg.
  assert (∀ x, x ∈ M ∖ B → rg_entries (td_registry t) !! x = Some White) as Hw.
  { intros x [Hx HxB]%elem_of_difference. destruct (sc_in _ _ _ _ _ _ Ht x Hx) as (c & Hc & Hcp & Hb).
    pose proof (Hg x (HM x Hx)) as Hgx. unfold color, candidate_color in Hgx. rewrite Hc in Hgx |- *.
    destruct c; try done. by destruct HxB; apply Hb. }
  assert (∀ x, x ∉ M ∖ B → color t x = Black) as Hb.
  { intros x Hx. unfold color, candidate_color. destruct (decide (x ∈ M)) as [HxM|HxM].
    - destruct (sc_in _ _ _ _ _ _ Ht x HxM) as (c & -> & _ & Hcb). apply Hcb. set_solver.
    - rewrite (sc_out _ _ _ _ _ _ Ht x HxM). destruct (rg_entries r !! x) as [c|] eqn:E; [| done].
      destruct (Hset _ _ E) as [->| ->]; [done |]. by apply Hp in E. }
  split_and!; [| done |].
  - intros x. split; [intros Hx; unfold color, candidate_color; by rewrite Hw |].
    intros Hx. destruct (decide (x ∈ M ∖ B)) as [?|Hn]; [done |]. apply Hb in Hn. congruence.
  - intros x Hx. destruct (sc_white _ _ _ _ _ _ Ht x) as [?|?%elem_of_nil]; [set_solver | by apply Hw | done | done].
Qed.

Lemma phases_ok r :
  settled r → counted r →
  ∃ t1 t2 W, run_mark h (candidate_addresses r) (MkTrial r ∅) = Some t1 ∧
    run_scan h (candidate_addresses r) t1 = Some t2 ∧
    registered (td_registry t2) = registered r ∧ W ⊆ registered r ∧
    (∀ x, x ∈ W ↔ color t2 x = White) ∧ (∀ x, x ∉ W → color t2 x = Black) ∧ closed_group W ∧
    (∀ x, x ∈ W → suspect r x) ∧
    (∀ X, closed_group X → (∀ x, x ∈ X → suspect r x) → X ⊆ W).
Proof.
  intros Hset Hcount.
  destruct (run_mark_ok r Hset (candidate_addresses r) _ ∅ (mark_ok_start r Hset)) as (t1 & M & Hm & Ht1 & _ & Hp).
  assert (∀ p, rg_entries r !! p = Some Purple → p ∈ M) as HpM.
  { intros p Hpp. apply Hp; [| done]. apply candidate_addresses_elem. unfold registered. apply elem_of_dom. eauto. }
  pose proof (mk_sub _ _ _ _ Ht1) as HM.
  assert (∀ m x, m ∈ M → x ∈ kids m → x ∈ registered r → x ∈ M) as Hcl.
  { intros m x Hm' Hx HD. by destruct (mk_closed _ _ _ _ Ht1 m x Hm' Hx HD) as [?|?%elem_of_nil]. }
  assert (∀ S, S ⊆ M → closed_group S → ∃ t2 B, run_scan h (candidate_addresses r) t1 = Some t2 ∧
    scan_ok r M S B [] t2 ∧ ∀ x, x ∈ registered r → color t2 x ≠ Gray) as Hrun.
  { intros S HSM HS. destruct (run_scan_ok r Hset M S HM Hcl) with (roots := candidate_addresses r) (t := t1) (B := (∅ : gset addr))
      as (t2 & B & Hs & Ht2 & Hg & _); [set_solver | done | done | by apply scan_ok_start |].
    exists t2, B. split_and!; [done | done |]. intros x Hx. by apply Hg, candidate_addresses_elem. }
  destruct (Hrun ∅) as (t2 & B & Hs & Ht2 & Hg); [set_solver | done |].
  destruct (scan_whites r M ∅ B t2 Hset HM HpM Ht2 Hg) as (Hw & Hb & Hc).
  exists t1, t2, (M ∖ B). split_and!; try done; [by apply (scan_ok_registered _ _ _ HM _ _ _ Ht2) | set_solver | |].
  { intros x [Hx _]%elem_of_difference. apply (marked_suspect r t1 Hset Hm).
    by apply (mark_ok_gray r Hset _ _ _ _ Ht1). }
  intros X HX Hsus. assert (X ⊆ M) as HXM.
  { intros x Hx. by apply (suspect_marked r M x HpM Hcl), Hsus. }
  destruct (Hrun X HXM HX) as (t2' & B' & Hs' & Ht2' & _). simplify_eq.
  intros x Hx. apply Hw. destruct (decide (color t2 x = White)) as [?|Hn]; [done | exfalso].
  assert (color t2 x = Black) as Hbx by (apply Hb; by rewrite Hw).
  rewrite (scan_ok_black _ _ _ _ _ _ x Ht2' (HXM x Hx)) in Hbx.
  by destruct (sc_spared _ _ _ _ _ _ Ht2' x Hx).
Qed.

(** C17: trial deletion is exact. From a settled registry, over a heap whose
    counts count at least the candidates' references, marking and scanning
    end, for every order of the candidates, and leave each cell white or
    black. The white cells are the greatest set of suspects (the candidates
    that a purple candidate leads to, through candidates) whose references all
    come from the set itself: they are suspects, they are such a set, and
    every such set of suspects is white. *)
Theorem trial_deletion_exact r :
  settled r → counted r →
  ∃ t1 t2 W, run_mark h (candidate_addresses r) (MkTrial r ∅) = Some t1 ∧
    run_scan h (candidate_addresses r) t1 = Some t2 ∧
    (∀ x, color t2 x = if decide (x ∈ W) then White else Black) ∧ closed_group W ∧
    (∀ x, x ∈ W → suspect r x) ∧
    ∀ X, closed_group X → (∀ x, x ∈ X → suspect r x) → X ⊆ W.
Proof.
  intros Hset Hcount.
  destruct (phases_ok r Hset Hcount) as (t1 & t2 & W & H1 & H2 & _ & _ & Hw & Hb & Hc & Hs & Hmax).
  exists t1, t2, W. split_and!; [done | done | | done..]. intros x.
  case_decide as Hx; [by apply Hw | by apply Hb].
Qed.

End facts.
