(* ===== verification/GcHeap.v ===== *)
(** * The counted heap

    [crates/cs-gc/src/rc_only.rs], the heap values of
    [crates/cs-core/src/value.rs] and the cycle detector of
    [crates/cs-gc/src/cycle.rs].  A cell is an [Rc] allocation: its strong count
    and the object in it; a cell whose count reaches zero is gone, and weak
    handles to it no longer upgrade.  Pairs and hashtables have slots that may
    be demoted: the strong slot then holds [Unspecified] and a tombstone
    remembers the value weakly.

    Cells of regions, procedures and ports that hold values are not part of
    the model. *)

From stdpp Require Import base numbers gmap sorting list.
From S2P Require Import Prelude RaftTypes Trial.

Local Open Scope crab_scope.

(** ** Values and objects *)

(** [enum Value].  [VLeaf] has the values without a cell of their own
    (booleans, characters, symbols, numbers, the end-of-file object), which are
    the type [L]. *)
Inductive Value (L : Type) :=
  | VNull
  | VUnspecified
  | VLeaf (l : L)
  | VString (a : addr)
  | VByteVector (a : addr)
  | VPair (a : addr)
  | VVector (a : addr)
  | VHashtable (a : addr)
  | VPort (a : addr)
  | VPromise (a : addr).

Arguments VNull {L}.
Arguments VUnspecified {L}.
Arguments VLeaf {L} l.
Arguments VString {L} a.
Arguments VByteVector {L} a.
Arguments VPair {L} a.
Arguments VVector {L} a.
Arguments VHashtable {L} a.
Arguments VPort {L} a.
Arguments VPromise {L} a.

#[export] Instance Value_eq_dec {L} `{EqDecision L} : EqDecision (Value L).
Proof. solve_decision. Defined.

(** [struct Pair]; a tombstone is [Some] exactly when its flag is set. *)
Record Pair (L : Type) := MkPair {
  pr_car : Value L;
  pr_cdr : Value L;
  pr_car_weak : option (Value L);
  pr_cdr_weak : option (Value L);
}.

Arguments MkPair {L} pr_car pr_cdr pr_car_weak pr_cdr_weak.
Arguments pr_car {L} _.
Arguments pr_cdr {L} _.
Arguments pr_car_weak {L} _.
Arguments pr_cdr_weak {L} _.

#[export] Instance Pair_eta {L} : Eta (Pair L) := λ p,
  MkPair (pr_car p) (pr_cdr p) (pr_car_weak p) (pr_cdr_weak p).

(** A vector's items, with the tombstones of its slots by index. *)
Record Vector (L : Type) := MkVector {
  vc_items : list (Value L);
  vc_weak : gmap nat (Value L);
}.

Arguments MkVector {L} vc_items vc_weak.
Arguments vc_items {L} _.
Arguments vc_weak {L} _.

#[export] Instance Vector_eta {L} : Eta (Vector L) := λ v, MkVector (vc_items v) (vc_weak v).

(** [enum HtEqKind]. *)
Inductive HtEqKind := EqKind | EqvKind | EqualKind | CustomKind.

#[export] Instance HtEqKind_eq_dec : EqDecision HtEqKind.
Proof. solve_decision. Defined.

(** [struct Hashtable], with the tombstones of its values by index. *)
Record Hashtable (L : Type) := MkHashtable {
  ht_items : list (Value L * Value L);
  ht_eq_kind : HtEqKind;
  ht_custom : option (Value L * Value L);
  ht_index : gmap N (list nat);
  ht_weak : gmap nat (Value L);
}.

Arguments MkHashtable {L} ht_items ht_eq_kind ht_custom ht_index ht_weak.
Arguments ht_items {L} _.
Arguments ht_eq_kind {L} _.
Arguments ht_custom {L} _.
Arguments ht_index {L} _.
Arguments ht_weak {L} _.

#[export] Instance Hashtable_eta {L} : Eta (Hashtable L) := λ t,
  MkHashtable (ht_items t) (ht_eq_kind t) (ht_custom t) (ht_index t) (ht_weak t).

Inductive Object (L : Type) :=
  | OString (s : bytes)
  | OByteVector (s : bytes)
  | OPort
  | OPair (p : Pair L)
  | OVector (v : Vector L)
  | OHashtable (t : Hashtable L)
  | OPromise (v : Value L).

Arguments OString {L} s.
Arguments OByteVector {L} s.
Arguments OPort {L}.
Arguments OPair {L} p.
Arguments OVector {L} v.
Arguments OHashtable {L} t.
Arguments OPromise {L} v.

Record Cell (L : Type) := MkCell {
  c_strong : nat;
  c_object : Object L;
}.

Arguments MkCell {L} c_strong c_object.
Arguments c_strong {L} _.
Arguments c_object {L} _.

(** The state of a thread: its heap, its registry and its telemetry. *)
Record Memory (L : Type) := MkMemory {
  m_heap : gmap addr (Cell L);
  m_registry : Registry;
  m_detected : N;
  m_broken : N;
}.

Arguments MkMemory {L} m_heap m_registry m_detected m_broken.
Arguments m_heap {L} _.
Arguments m_registry {L} _.
Arguments m_detected {L} _.
Arguments m_broken {L} _.

#[export] Instance Memory_eta {L} : Eta (Memory L) := λ m,
  MkMemory (m_heap m) (m_registry m) (m_detected m) (m_broken m).

(** [struct CycleVisitor]. *)
Record CycleVisitor := MkVisitor {
  cv_visited : gset addr;
  cv_found : bool;
  cv_over_limit : bool;
  cv_root : addr;
  cv_limit : nat;
}.

#[export] Instance CycleVisitor_eta : Eta CycleVisitor := λ c,
  MkVisitor (cv_visited c) (cv_found c) (cv_over_limit c) (cv_root c) (cv_limit c).

(** The errors of the builtins, which are messages in the code. *)
Inductive BuiltinError (L : Type) :=
  | ArityError (n : nat)
  | TypeError (v : Value L)
  | NegativeIndex
  | IndexOutOfRange
  | IntegerOutOfRange.

Arguments ArityError {L} n.
Arguments TypeError {L} v.
Arguments NegativeIndex {L}.
Arguments IndexOutOfRange {L}.
Arguments IntegerOutOfRange {L}.

Section heap.
Context {L : Type}.

Notation Value := (Value L).
Notation Pair := (Pair L).
Notation Vector := (Vector L).
Notation Hashtable := (Hashtable L).
Notation Object := (Object L).
Notation Cell := (Cell L).
Notation Memory := (Memory L).
Notation Heap := (gmap addr Cell).

Definition heap_addr (v : Value) : option addr :=
  match v with
  | VString a | VByteVector a | VPair a | VVector a | VHashtable a | VPort a | VPromise a => Some a
  | VNull | VUnspecified | VLeaf _ => None
  end.

(** [value_is_acyclic_leaf]. *)
Definition value_is_acyclic_leaf (v : Value) : bool :=
  match v with
  | VNull | VUnspecified | VLeaf _ | VString _ | VByteVector _ | VPort _ => true
  | VPair _ | VVector _ | VHashtable _ | VPromise _ => false
  end.

(** The values an object owns, in the order in which dropping it drops them
    and in which the traversals visit them. *)
Definition obj_values (o : Object) : list Value :=
  match o with
  | OString _ | OByteVector _ | OPort => []
  | OPair p => [pr_car p; pr_cdr p]
  | OVector v => vc_items v
  | OHashtable t =>
      (ht_items t ≫= λ '(k, v), [k; v]) ++ match ht_custom t with Some (f, g) => [f; g] | None => [] end
  | OPromise v => [v]
  end.

(** [CycleChildren::cycle_children]. *)
Definition cycle_children (o : Object) : list addr := omap heap_addr (obj_values o).

(** ** Cells *)

(** [Gc::clone]. *)
Definition incref (a : addr) (h : Heap) : Heap :=
  alter (λ c, MkCell (S (c_strong c)) (c_object c)) a h.

(** [Gc::drop]: the last owner takes the object down with it.  The loop of
    [Pair::drop] along the cdr chain is this recursion on the last child. *)
Fixpoint decref (fuel : nat) (h : Heap) (a : addr) : Heap :=
  match fuel with
  | O => h
  | S fuel =>
      match h !! a with
      | None => h
      | Some c =>
          match c_strong c with
          | S (S n) => <[a := MkCell (S n) (c_object c)]> h
          | _ => foldl (decref fuel) (delete a h) (cycle_children (c_object c))
          end
      end
  end.

(** Every cell that is freed leaves the heap, so its size bounds the depth. *)
Definition release (a : addr) (h : Heap) : Heap := decref (S (size h)) h a.

Definition clone_value (v : Value) (h : Heap) : Heap :=
  match heap_addr v with Some a => incref a h | None => h end.

Definition drop_value (v : Value) (h : Heap) : Heap :=
  match heap_addr v with Some a => release a h | None => h end.

(** [Value::heap_strong_count]. *)
Definition heap_strong_count (h : Heap) (v : Value) : option nat :=
  match heap_addr v with Some a => c_strong <$> h !! a | None => None end.

Definition pair_at (h : Heap) (a : addr) : option Pair :=
  match c_object <$> h !! a with Some (OPair p) => Some p | _ => None end.

Definition table_at (h : Heap) (a : addr) : option Hashtable :=
  match c_object <$> h !! a with Some (OHashtable t) => Some t | _ => None end.

Definition put_object (a : addr) (o : Object) (h : Heap) : Heap :=
  alter (λ c, MkCell (c_strong c) o) a h.

(** [WeakValue::from_value] and [WeakValue::upgrade]. *)
Definition weak_from_value (v : Value) : option Value :=
  match heap_addr v with Some _ => Some v | None => None end.

Definition upgrade (h : Heap) (w : Value) : option Value :=
  match heap_addr w with
  | Some a => match h !! a with Some _ => Some w | None => None end
  | None => None
  end.

(** ** Pairs *)

Definition pair_new (car cdr : Value) : Object := OPair (MkPair car cdr None None).

(** [Pair::car] and [Pair::cdr]: a tombstone is read through. *)
Definition car (h : Heap) (p : Pair) : Value :=
  match pr_car_weak p with
  | Some w => default VUnspecified (upgrade h w)
  | None => pr_car p
  end.

Definition cdr (h : Heap) (p : Pair) : Value :=
  match pr_cdr_weak p with
  | Some w => default VUnspecified (upgrade h w)
  | None => pr_cdr p
  end.

(** [set_car_raw_owned] and [set_cdr_raw_owned]. *)
Definition set_car_raw_owned (a : addr) (p : Pair) (v : Value) (h : Heap) : Heap :=
  drop_value (pr_car p) (put_object a (OPair (p <| pr_car := v |>)) h).

Definition set_cdr_raw_owned (a : addr) (p : Pair) (v : Value) (h : Heap) : Heap :=
  drop_value (pr_cdr p) (put_object a (OPair (p <| pr_cdr := v |>)) h).

(** [Pair::set_car] and [Pair::set_cdr] of an owned value. *)
Definition set_car (a : addr) (p : Pair) (v : Value) (h : Heap) : Heap :=
  set_car_raw_owned a (p <| pr_car_weak := None |>) v h.

Definition set_cdr (a : addr) (p : Pair) (v : Value) (h : Heap) : Heap :=
  set_cdr_raw_owned a (p <| pr_cdr_weak := None |>) v h.

(** ** Vectors and hashtables *)

Definition vector_at (h : Heap) (a : addr) : option Vector :=
  match c_object <$> h !! a with Some (OVector v) => Some v | _ => None end.

(** [vector_get]: a tombstone counts only while its slot holds the placeholder;
    a stale one is removed. *)
Definition vector_get (a : addr) (i : nat) (h : Heap) : Heap * option Value :=
  match vector_at h a with
  | None => (h, None)
  | Some v =>
      match vc_items v !! i with
      | None => (h, None)
      | Some VUnspecified =>
          (h, Some (match vc_weak v !! i with
                    | Some w => default VUnspecified (upgrade h w)
                    | None => VUnspecified
                    end))
      | Some raw => (put_object a (OVector (v <| vc_weak ::= delete i |>)) h, Some raw)
      end
  end.

(** [vector_set] of an owned value, at an index within bounds. *)
Definition vector_set (a : addr) (v : Vector) (i : nat) (val : Value) (h : Heap) : Heap :=
  let h' := put_object a (OVector (v <| vc_weak ::= delete i |> <| vc_items ::= <[i := val]> |>)) h in
  match vc_items v !! i with Some old => drop_value old h' | None => h' end.

(** [Hashtable::new] and [Hashtable::new_custom]. *)
Definition hashtable_new (kind : HtEqKind) : Hashtable := MkHashtable [] kind None ∅ ∅.

Definition hashtable_new_custom (hash equiv : Value) : Hashtable :=
  MkHashtable [] CustomKind (Some (hash, equiv)) ∅ ∅.

(** [Hashtable::value_at], [set_value_at], [swap_remove_item], [clear_items]
    and [index_insert]. *)
Definition value_at (a : addr) (i : nat) (h : Heap) : Heap * option Value :=
  match table_at h a with
  | None => (h, None)
  | Some t =>
      match ht_items t !! i with
      | None => (h, None)
      | Some (_, VUnspecified) =>
          (h, Some (match ht_weak t !! i with
                    | Some w => default VUnspecified (upgrade h w)
                    | None => VUnspecified
                    end))
      | Some (_, raw) => (put_object a (OHashtable (t <| ht_weak ::= delete i |>)) h, Some raw)
      end
  end.

Definition put_value (i : nat) (k v : Value) (t : Hashtable) : Hashtable :=
  t <| ht_weak ::= delete i |> <| ht_items ::= <[i := (k, v)]> |>.

Definition set_value_at (a : addr) (t : Hashtable) (i : nat) (v : Value) (h : Heap) : Heap :=
  match ht_items t !! i with
  | Some (k, old) => drop_value old (put_object a (OHashtable (put_value i k v t)) h)
  | None => h
  end.

(** [Vec::swap_remove]. *)
Definition swap_remove {A} (i : nat) (l : list A) : list A :=
  match last l with
  | Some x => take (length l - 1) (<[i := x]> l)
  | None => l
  end.

(** The tombstone of the item that is moved moves with it. *)
Definition swap_remove_weak (i moved_from : nat) (w : gmap nat Value) : gmap nat Value :=
  let w := delete i w in
  match w !! moved_from with
  | Some x => <[i := x]> (delete moved_from w)
  | None => w
  end.

Definition swap_remove_item (i : nat) (t : Hashtable) : Hashtable :=
  t <| ht_items ::= swap_remove i |> <| ht_weak ::= swap_remove_weak i (length (ht_items t) - 1) |>.

Definition clear_items (t : Hashtable) : Hashtable := t <| ht_items := [] |> <| ht_weak := ∅ |>.

Definition index_insert (hash : N) (item_idx : nat) (t : Hashtable) : Hashtable :=
  t <| ht_index ::= λ m, <[hash := default [] (m !! hash) ++ [item_idx]]> m |>.

(** ** The cycle detector *)

Definition done (ctx : CycleVisitor) : bool := cv_found ctx || cv_over_limit ctx.

(** [CycleVisitor::visit]. *)
Definition visit (a : addr) (ctx : CycleVisitor) : CycleVisitor * bool :=
  if done ctx then (ctx, false)
  else if decide (a = cv_root ctx) then (ctx <| cv_found := true |>, false)
  else if decide (a ∈ cv_visited ctx) then (ctx, false)
  else
    let ctx := ctx <| cv_visited ::= union {[a]} |> in
    if decide (cv_limit ctx < size (cv_visited ctx)) then (ctx <| cv_over_limit := true |>, false)
    else (ctx, true).

(** [CycleVisit::visit_children] of the object of a cell. *)
Fixpoint visit_children (fuel : nat) (h : Heap) (ctx : CycleVisitor) (a : addr) : CycleVisitor :=
  match fuel with
  | O => ctx
  | S fuel =>
      match h !! a with
      | None => ctx
      | Some c =>
          foldl (λ ctx b, if done ctx then ctx
                          else let '(ctx, go) := visit b ctx in
                               if go : bool then visit_children fuel h ctx b else ctx)
            ctx (cycle_children (c_object c))
      end
  end.

Definition new_visitor (limit : nat) (root : addr) : CycleVisitor :=
  MkVisitor ∅ false false root limit.

(** [cycle_check]: a path from the root's children back to the root. *)
Definition cycle_check (limit : nat) (h : Heap) (root : addr) : bool :=
  cv_found (visit_children (S (size h)) h (new_visitor limit root) root).

(** [reaches] from a value, which visits the value's own cell first. *)
Definition reaches (limit : nat) (h : Heap) (v : Value) (target : addr) : bool :=
  match heap_addr v with
  | None => false
  | Some b =>
      let '(ctx, go) := visit b (new_visitor limit target) in
      cv_found (if go : bool then visit_children (S (size h)) h ctx b else ctx)
  end.

Definition value_reaches_container (limit : nat) (h : Heap) (v : Value) (container : addr) : bool :=
  bool_decide (heap_addr v = Some container) || reaches limit h v container.

(** ** Demoting a slot *)

(** [Pair::break_car_cycle].  Reading the slot clones its value; the clone is
    discounted and dropped at the end. *)
Definition break_car_cycle (limit baseline : nat) (a : addr) (h : Heap) : Heap * bool :=
  match pair_at h a with
  | None => (h, false)
  | Some p =>
      let peeked := pr_car p in
      let h := clone_value peeked h in
      let total := default 0 ((λ n, n - 1) <$> heap_strong_count h peeked) in
      if decide (total ≤ baseline) then (drop_value peeked h, false)
      else if negb (value_reaches_container limit h peeked a) then (drop_value peeked h, false)
      else
        match weak_from_value peeked with
        | None => (drop_value peeked h, false)
        | Some weak =>
            let h := set_car_raw_owned a (p <| pr_car_weak := Some weak |>) VUnspecified h in
            (drop_value peeked h, true)
        end
  end.

(** [Pair::break_cdr_cycle]. *)
Definition break_cdr_cycle (limit baseline : nat) (a : addr) (h : Heap) : Heap * bool :=
  match pair_at h a with
  | None => (h, false)
  | Some p =>
      let peeked := pr_cdr p in
      let h := clone_value peeked h in
      let total := default 0 ((λ n, n - 1) <$> heap_strong_count h peeked) in
      if decide (total ≤ baseline) then (drop_value peeked h, false)
      else if negb (value_reaches_container limit h peeked a) then (drop_value peeked h, false)
      else
        match weak_from_value peeked with
        | None => (drop_value peeked h, false)
        | Some weak =>
            let h := set_cdr_raw_owned a (p <| pr_cdr_weak := Some weak |>) VUnspecified h in
            (drop_value peeked h, true)
        end
  end.

(** [Hashtable::break_value_cycle_unchecked]. *)
Definition break_value_cycle (limit : nat) (i baseline : nat) (a : addr) (h : Heap) : Heap * bool :=
  match table_at h a with
  | None => (h, false)
  | Some t =>
      match ht_items t !! i with
      | None => (h, false)
      | Some (k, current) =>
          let h := clone_value current h in
          let total := default 0 (heap_strong_count h current) in
          if decide (total ≤ baseline) then (drop_value current h, false)
          else if negb (value_reaches_container limit h current a) then (drop_value current h, false)
          else
            match weak_from_value current with
            | None => (drop_value current h, false)
            | Some weak =>
                let t := t <| ht_weak ::= <[i := weak]> |> <| ht_items ::= <[i := (k, VUnspecified)]> |> in
                let h := drop_value current (put_object a (OHashtable t) h) in
                (drop_value current h, true)
            end
      end
  end.

(** [vector_break_slot_cycle]. *)
Definition vector_break_slot_cycle (limit : nat) (i baseline : nat) (a : addr) (h : Heap) : Heap * bool :=
  match vector_at h a with
  | None => (h, false)
  | Some v =>
      match vc_items v !! i with
      | None => (h, false)
      | Some current =>
          let h := clone_value current h in
          let total := default 0 (heap_strong_count h current) in
          if decide (total ≤ baseline) then (drop_value current h, false)
          else if negb (value_reaches_container limit h current a) then (drop_value current h, false)
          else
            match weak_from_value current with
            | None => (drop_value current h, false)
            | Some weak =>
                let v := v <| vc_weak ::= <[i := weak]> |> <| vc_items ::= <[i := VUnspecified]> |> in
                let h := drop_value current (put_object a (OVector v) h) in
                (drop_value current h, true)
            end
      end
  end.

(** The first slot [Hashtable::try_break_cycle] looks for. *)
Definition heap_bearing (v : Value) : bool :=
  match v with
  | VPair _ | VVector _ | VHashtable _ | VPromise _ | VString _ | VByteVector _ => true
  | _ => false
  end.

(** [BreakCycle::try_break_cycle] of each object. *)
Definition try_break_cycle (limit : nat) (a : addr) (o : Object) (h : Heap) : Heap * bool :=
  match o with
  | OPair _ =>
      let '(h, ok) := break_cdr_cycle limit 0 a h in
      if ok : bool then (h, true) else break_car_cycle limit 0 a h
  | OHashtable t =>
      match list_find (λ kv, heap_bearing kv.2 = true) (ht_items t) with
      | Some (i, _) => break_value_cycle limit i 0 a h
      | None => (h, false)
      end
  | OString _ | OByteVector _ | OPort | OVector _ | OPromise _ => (h, false)
  end.

(** ** The registry's view *)

(** [impl AnyWeak for Weak<T>].  The handle a weak one upgrades to is dropped
    when the call returns. *)
Section view.
Context (limit : nat).

#[export] Instance Heap_any_weak : AnyWeak Heap := {|
  unbiased_strong_count h a := default 0 (c_strong <$> h !! a);
  upgrade_and_walk_children h a :=
    match h !! a with Some c => cycle_children (c_object c) | None => [] end;
  upgrade_and_try_break h a :=
    match h !! a with
    | None => (h, false)
    | Some c =>
        let '(h, ok) := try_break_cycle limit a (c_object c) (incref a h) in
        (release a h, ok)
    end;
|}.

End view.

(** ** Mutation *)

Definition saturating_inc (n : N) : N := N.min (n + 1) (2 ^ 64 - 1).

(** [record_cycle_with_candidate] and [record_cycle_broken]. *)
Definition record_cycle_with_candidate (a : addr) (m : Memory) : Memory :=
  m <| m_detected ::= saturating_inc |> <| m_registry ::= register_cycle_candidate a |>.

Definition record_cycle_broken (m : Memory) : Memory := m <| m_broken ::= saturating_inc |>.

Section mutation.
Context (limit : nat).

(** The end of [b_set_car] and [b_set_cdr]: what [check_and_break] does. *)
Definition after_set (brk : nat → nat → addr → Heap → Heap * bool) (a : addr) (v : Value) (m : Memory) :
    Memory :=
  if value_is_acyclic_leaf v then m
  else if cycle_check limit (m_heap m) a then
    let m := record_cycle_with_candidate a m in
    let '(h, ok) := brk limit 3 a (m_heap m) in
    let m := m <| m_heap := h |> in
    if ok : bool then record_cycle_broken m else m
  else m.

(** [b_set_car] and [b_set_cdr]. *)
Definition b_set_car (args : list Value) (m : Memory) : (BuiltinError L + Value) * Memory :=
  match args with
  | [VPair a; v] =>
      match pair_at (m_heap m) a with
      | Some p => (inr VUnspecified, after_set break_car_cycle a v (m <| m_heap ::= λ h, set_car a p v (clone_value v h) |>))
      | None => (inr VUnspecified, m)
      end
  | [v; _] => (inl (TypeError v), m)
  | _ => (inl (ArityError (length args)), m)
  end.

Definition b_set_cdr (args : list Value) (m : Memory) : (BuiltinError L + Value) * Memory :=
  match args with
  | [VPair a; v] =>
      match pair_at (m_heap m) a with
      | Some p => (inr VUnspecified, after_set break_cdr_cycle a v (m <| m_heap ::= λ h, set_cdr a p v (clone_value v h) |>))
      | None => (inr VUnspecified, m)
      end
  | [v; _] => (inl (TypeError v), m)
  | _ => (inl (ArityError (length args)), m)
  end.

End mutation.

End heap.
