(* ===== verification/GcFacts.v ===== *)
(** * Counts are exact, and what is live stays

    A heap is in order for the handles the program holds when every count is
    the number of handles and slots that refer to the cell, and no reference
    dangles.  Every operation of [GcHeap] keeps it so, and leaves the objects
    of live cells as they were. *)

From stdpp Require Import base numbers gmap sorting list relations.
From S2P Require Import Prelude Trial TrialFacts GcHeap.

Local Open Scope crab_scope.

Section heap.
Context {L : Type}.

Notation Value := (Value L).
Notation Pair := (Pair L).
Notation Vector := (Vector L).
Notation Hashtable := (Hashtable L).
Notation Object := (Object L).
Notation Cell := (Cell L).
Notation Memory := (Memory L).
Notation Heap := (gmap addr Cell).

Implicit Types (h : Heap) (c : Cell) (v w : Value) (p q : Pair).

(** ** Cells *)

Lemma pair_at_dom {h} a p : pair_at h a = Some p → a ∈ dom h.
Proof. unfold pair_at. intros Hp. apply elem_of_dom. by destruct (h !! a). Qed.

Lemma vector_at_dom {h} a u : vector_at h a = Some u → a ∈ dom h.
Proof. unfold vector_at. intros Hp. apply elem_of_dom. by destruct (h !! a). Qed.

(** ** References *)

Definition cell_children (c : Cell) : list addr := cycle_children (c_object c).

(** The slots of the heap that refer to [a]. *)
Definition inrefs (h : Heap) (a : addr) : nat :=
  sum_list_with (λ kc : addr * Cell, occ a (cell_children kc.2)) (map_to_list h).

Lemma inrefs_delete h b c a : h !! b = Some c → inrefs h a = occ a (cell_children c) + inrefs (delete b h) a.
Proof.
  intros Hb. unfold inrefs.
  by rewrite <-(sum_list_with_perm _ _ _ (map_to_list_delete h b c Hb)).
Qed.

Lemma inrefs_insert h b c a :
  inrefs (<[b := c]> h) a = occ a (cell_children c) + inrefs (delete b h) a.
Proof.
  rewrite (inrefs_delete _ b c) by apply lookup_insert_eq. by rewrite delete_insert_eq.
Qed.

(** A change of the count of a cell only. *)
Lemma inrefs_same h b c c' a :
  h !! b = Some c → c_object c' = c_object c → inrefs (<[b := c']> h) a = inrefs h a.
Proof. intros Hb Ho. rewrite inrefs_insert, (inrefs_delete h b c a Hb). unfold cell_children. by rewrite Ho. Qed.

Lemma inrefs_elem h b c a : h !! b = Some c → occ a (cell_children c) ≤ inrefs h a.
Proof. intros Hb. rewrite (inrefs_delete h b c a Hb). lia. Qed.

Lemma occ_app a l k : occ a (l ++ k) = occ a l + occ a k.
Proof. unfold occ. by rewrite filter_app, length_app. Qed.

#[export] Instance occ_proper a : Proper ((≡ₚ) ==> (=)) (occ a).
Proof. intros l k Hlk. unfold occ. by rewrite Hlk. Qed.

(** ** A heap in order *)

(** [H] lists the cells the program holds handles to, as often as it does. *)
Definition heap_ok (H : list addr) (h : Heap) : Prop :=
  ∀ a, match h !! a with
       | Some c => 0 < c_strong c ∧ c_strong c = occ a H + inrefs h a
       | None => occ a H = 0 ∧ inrefs h a = 0
       end.

#[export] Instance heap_ok_proper : Proper ((≡ₚ) ==> (=) ==> iff) heap_ok.
Proof.
  intros H1 H2 HH h _ <-. unfold heap_ok.
  assert (∀ a, occ a H1 = occ a H2) as Ho by (intros a; by rewrite HH).
  split; intros Hh a; specialize (Hh a); rewrite ?Ho in *; by destruct (h !! a); rewrite ?Ho in *.
Qed.

Lemma heap_ok_present H h a : heap_ok H h → 0 < occ a H + inrefs h a → is_Some (h !! a).
Proof. intros Hh Ha. specialize (Hh a). destruct (h !! a); [done | lia]. Qed.

Lemma heap_ok_handle H h a : heap_ok (a :: H) h → is_Some (h !! a).
Proof. intros Hh. apply (heap_ok_present _ _ _ Hh). rewrite occ_cons, decide_True by done. lia. Qed.

Lemma heap_ok_child H h b c a : heap_ok H h → h !! b = Some c → a ∈ cell_children c → is_Some (h !! a).
Proof.
  intros Hh Hb Ha. apply (heap_ok_present _ _ _ Hh). pose proof (inrefs_elem h b c a Hb).
  pose proof (occ_pos _ _ Ha). lia.
Qed.

(** [h'] is [h] with fewer cells and other counts. *)
Definition shrinks (h h' : Heap) : Prop :=
  ∀ a c', h' !! a = Some c' → ∃ c, h !! a = Some c ∧ c_object c = c_object c'.

#[export] Instance shrinks_preorder : PreOrder shrinks.
Proof.
  split; [intros h a c Hc; by exists c |]. intros h1 h2 h3 H12 H23 a c3 H3.
  destruct (H23 a c3 H3) as (c2 & H2 & <-). by apply H12.
Qed.

Lemma recount_ok H H' h a c n :
  heap_ok H h → h !! a = Some c → 0 < n → n = occ a H' + inrefs h a →
  (∀ b, b ≠ a → occ b H' = occ b H) → heap_ok H' (<[a := MkCell n (c_object c)]> h).
Proof.
  intros Hh Hc Hn Hna Hb b. rewrite (inrefs_same h a c) by done. destruct (decide (b = a)) as [->|Hne].
  - by rewrite lookup_insert_eq.
  - rewrite lookup_insert_ne, Hb by done. apply Hh.
Qed.

Lemma recount_shrinks h a c n : h !! a = Some c → shrinks h (<[a := MkCell n (c_object c)]> h).
Proof.
  intros Hc b c' Hb. destruct (decide (b = a)) as [->|Hne].
  - rewrite lookup_insert_eq in Hb. simplify_eq. by exists c.
  - rewrite lookup_insert_ne in Hb by done. by exists c'.
Qed.

Lemma incref_ok H h a : heap_ok H h → is_Some (h !! a) → heap_ok (a :: H) (incref a h).
Proof.
  intros Hh [c Hc]. unfold incref. rewrite (alter_as_insert _ _ _ c) by done.
  pose proof (Hh a) as Ha. rewrite Hc in Ha.
  apply (recount_ok H); [done | done | lia | rewrite occ_cons, decide_True by done; lia |].
  intros b Hb. by rewrite occ_cons, decide_False.
Qed.

Lemma incref_shrinks h a : shrinks h (incref a h) ∧ shrinks (incref a h) h.
Proof.
  unfold incref. destruct (h !! a) as [c|] eqn:Hc.
  - rewrite (alter_as_insert _ _ _ c) by done. split; [by apply (recount_shrinks h a c) |].
    intros b c' Hb. destruct (decide (b = a)) as [->|Hne].
    + rewrite Hb in Hc. simplify_eq. eexists. split; [apply lookup_insert_eq | done].
    + exists c'. by rewrite lookup_insert_ne.
  - rewrite alter_id by (intros x Hx; congruence). done.
Qed.

(** The object of a cell is exchanged: the references [m] it loses become
    handles, and the references [n] it gains were handles. *)
Lemma put_object_ok n m k H h a c o :
  heap_ok (n ++ H) h → h !! a = Some c →
  (∀ b, occ b (cycle_children o) = occ b n + occ b k) →
  (∀ b, occ b (cell_children c) = occ b m + occ b k) →
  heap_ok (m ++ H) (put_object a o h).
Proof.
  intros Hh Hc Hn Hm b. unfold put_object. rewrite (alter_as_insert _ _ _ c) by done.
  specialize (Hh b). rewrite inrefs_insert, occ_app in *. rewrite (inrefs_delete h a c b Hc), Hm in Hh.
  change (cell_children (MkCell (c_strong c) o)) with (cycle_children o). rewrite Hn.
  destruct (decide (b = a)) as [->|Hne].
  - rewrite lookup_insert_eq. rewrite Hc in Hh. cbn. lia.
  - rewrite lookup_insert_ne by done. destruct (h !! b); lia.
Qed.

(** [h'] is [h] with fewer cells, other counts and other objects in [W]. *)
Definition alters (W : gset addr) (h h' : Heap) : Prop :=
  ∀ a c', h' !! a = Some c' → ∃ c, h !! a = Some c ∧ (c_object c = c_object c' ∨ a ∈ W).

#[export] Instance alters_preorder W : PreOrder (alters W).
Proof.
  split; [intros h a c Hc; exists c; by split; [| left] |]. intros h1 h2 h3 H12 H23 a c3 H3.
  destruct (H23 a c3 H3) as (c2 & H2 & Ho). destruct (H12 a c2 H2) as (c1 & H1 & Ho').
  exists c1. split; [done |]. destruct Ho as [<-|?]; [done | by right].
Qed.

Lemma shrinks_alters W h h' : shrinks h h' → alters W h h'.
Proof. intros Hs a c Hc. destruct (Hs a c Hc) as (c0 & ? & ?). exists c0. split; [done | by left]. Qed.

Lemma alters_mono W W' h h' : W ⊆ W' → alters W h h' → alters W' h h'.
Proof. intros HW Hs a c Hc. destruct (Hs a c Hc) as (c0 & ? & ?). exists c0. set_solver. Qed.

Lemma put_object_alters h a o : alters {[a]} h (put_object a o h).
Proof.
  intros b c Hb. unfold put_object in Hb. apply lookup_alter_Some in Hb as [(<- & c0 & Hc & ->)|[Hne Hb]].
  - exists c0. set_solver.
  - exists c. split; [done | by left].
Qed.

(** The references of a cell. *)
Definition children (h : Heap) (a : addr) : list addr :=
  match h !! a with Some c => cell_children c | None => [] end.

(** The references of [h'] are among those of [h]. *)
Definition fewer (h h' : Heap) : Prop := ∀ a, children h' a ⊆+ children h a.

#[export] Instance fewer_preorder : PreOrder fewer.
Proof. split; [by intros h a |]. intros h1 h2 h3 H1 H2 a. etrans; [apply H2 | apply H1]. Qed.

Lemma shrinks_fewer h h' : shrinks h h' → fewer h h'.
Proof.
  intros Hs a. unfold children. destruct (h' !! a) as [c'|] eqn:Hc'; [| apply submseteq_nil_l].
  destruct (Hs a c' Hc') as (c & -> & Ho). unfold cell_children. by rewrite Ho.
Qed.

Lemma put_object_fewer h a c o :
  h !! a = Some c → cycle_children o ⊆+ cell_children c → fewer h (put_object a o h).
Proof.
  intros Hc Hl b. unfold put_object. rewrite (alter_as_insert _ _ _ c) by done. unfold children.
  destruct (decide (b = a)) as [->|Hne]; [by rewrite lookup_insert_eq, Hc | by rewrite lookup_insert_ne].
Qed.

(** What demoting a slot of [a] does to the heap. *)
Definition demotes (a : addr) (h h' : Heap) : Prop := alters {[a]} h h' ∧ fewer h h'.

#[export] Instance demotes_preorder a : PreOrder (demotes a).
Proof.
  split; [by intros h |]. intros h1 h2 h3 [H1 H2] [H3 H4]. split; by etrans.
Qed.

Lemma shrinks_demotes a h h' : shrinks h h' → demotes a h h'.
Proof. intros Hs. split; [by apply shrinks_alters | by apply shrinks_fewer]. Qed.

(** ** Dropping *)

Lemma free_ok H h a c :
  heap_ok (a :: H) h → h !! a = Some c → c_strong c = 1 → heap_ok (cell_children c ++ H) (delete a h).
Proof.
  intros Hh Hc H1 b. pose proof (Hh b) as Hb. pose proof (Hh a) as Ha. rewrite Hc in Ha.
  rewrite occ_cons in Hb, Ha. rewrite decide_True in Ha by done.
  rewrite (inrefs_delete h a c b Hc) in Hb. rewrite (inrefs_delete h a c a Hc) in Ha. rewrite occ_app.
  destruct (decide (b = a)) as [->|Hne].
  - rewrite lookup_delete_eq. lia.
  - rewrite lookup_delete_ne by done. destruct (h !! b); lia.
Qed.

Lemma delete_shrinks h a : shrinks h (delete a h).
Proof. intros b c Hb. apply lookup_delete_Some in Hb as [_ Hb]. by exists c. Qed.

Definition decref_spec (fuel : nat) : Prop := ∀ H h a,
  size h < fuel → heap_ok (a :: H) h →
  heap_ok H (decref fuel h a) ∧ shrinks h (decref fuel h a) ∧ size (decref fuel h a) ≤ size h.

Lemma decref_list fuel l H h :
  decref_spec fuel → size h < fuel → heap_ok (l ++ H) h →
  heap_ok H (foldl (decref fuel) h l) ∧ shrinks h (foldl (decref fuel) h l) ∧
  size (foldl (decref fuel) h l) ≤ size h.
Proof.
  intros Hspec. revert h. induction l as [|a l IH]; intros h Hs Hh; cbn [foldl]; [done |].
  destruct (Hspec (l ++ H) h a Hs Hh) as (H1 & H2 & H3).
  destruct (IH (decref fuel h a)) as (H4 & H5 & H6); [lia | done |].
  split_and!; [done | by etrans | lia].
Qed.

Lemma decref_ok fuel : decref_spec fuel.
Proof.
  induction fuel as [|fuel IH]; intros H h a Hs Hh; [lia |]. cbn [decref].
  destruct (heap_ok_handle H h a Hh) as [c Hc]. rewrite Hc.
  pose proof (Hh a) as Ha. rewrite Hc, occ_cons, decide_True in Ha by done.
  assert (size (delete a h) < size h) as Hlt.
  { rewrite <-(insert_delete_id h a c Hc) at 2. rewrite map_size_insert_None by apply lookup_delete_eq. lia. }
  destruct (c_strong c) as [|[|n]] eqn:Hn; [lia | |].
  - fold (cell_children c). destruct (decref_list fuel (cell_children c) H (delete a h) IH) as (H1 & H2 & H3);
      [lia | by apply (free_ok H h a c) |].
    split_and!; [done | etrans; [apply delete_shrinks | done] | lia].
  - split_and!.
    + apply (recount_ok (a :: H)); [done | done | lia | lia |]. intros b Hb. by rewrite occ_cons, decide_False.
    + by apply recount_shrinks.
    + rewrite map_size_insert_Some; [done | by exists c].
Qed.

Lemma release_ok H h a : heap_ok (a :: H) h → heap_ok H (release a h) ∧ shrinks h (release a h).
Proof. intros Hh. destruct (decref_ok (S (size h)) H h a) as (H1 & H2 & _); auto. Qed.

(** ** Values *)

Definition value_addrs (v : Value) : list addr := match heap_addr v with Some a => [a] | None => [] end.

Lemma clone_value_ok H h v :
  heap_ok H h → (∀ a, heap_addr v = Some a → is_Some (h !! a)) →
  heap_ok (value_addrs v ++ H) (clone_value v h) ∧ shrinks h (clone_value v h) ∧ shrinks (clone_value v h) h.
Proof.
  intros Hh Hv. unfold clone_value, value_addrs. destruct (heap_addr v) as [a|]; [| done].
  destruct (incref_shrinks h a). split_and!; [apply incref_ok; auto | done | done].
Qed.

Lemma drop_value_ok H h v :
  heap_ok (value_addrs v ++ H) h → heap_ok H (drop_value v h) ∧ shrinks h (drop_value v h).
Proof.
  unfold drop_value, value_addrs. destruct (heap_addr v) as [a|]; [apply release_ok | done].
Qed.

Lemma pair_at_Some h a p : pair_at h a = Some p ↔ ∃ c, h !! a = Some c ∧ c_object c = OPair p.
Proof.
  unfold pair_at. destruct (h !! a) as [c|]; cbn; [| by split; [| intros (c & ? & _)]]. split.
  - intros Hp. exists c. split; [done |]. by destruct (c_object c); simplify_eq.
  - by intros (c' & [= <-] & ->).
Qed.

Lemma pair_children p b :
  occ b (cycle_children (OPair p)) = occ b (value_addrs (pr_car p)) + occ b (value_addrs (pr_cdr p)).
Proof.
  unfold cycle_children, value_addrs. cbn [obj_values omap list_omap].
  destruct (heap_addr (pr_car p)), (heap_addr (pr_cdr p)); rewrite ?occ_cons; change (occ b []) with 0; lia.
Qed.

Lemma pair_slot_present H h a p v :
  heap_ok H h → pair_at h a = Some p → v = pr_car p ∨ v = pr_cdr p →
  ∀ b, heap_addr v = Some b → is_Some (h !! b).
Proof.
  intros Hh (c & Hc & Ho)%pair_at_Some Hv b Hb. apply (heap_ok_child H h a c b Hh Hc).
  unfold cell_children, cycle_children. rewrite Ho. cbn.
  destruct Hv as [-> | ->]; rewrite Hb; [left |]. destruct (heap_addr (pr_car p)); [right |]; left.
Qed.

(** A slot of a pair is overwritten with an owned value. *)
Lemma set_cdr_raw_ok H h a p p' v :
  heap_ok (value_addrs v ++ H) h → pair_at h a = Some p → pr_car p' = pr_car p → pr_cdr p' = pr_cdr p →
  heap_ok H (set_cdr_raw_owned a p' v h) ∧
  shrinks (put_object a (OPair (p' <| pr_cdr := v |>)) h) (set_cdr_raw_owned a p' v h).
Proof.
  intros Hh (c & Hc & Ho)%pair_at_Some Hcar Hcdr. apply drop_value_ok.
  apply (put_object_ok (value_addrs v) _ (value_addrs (pr_car p)) H h a c); [done | done | |].
  - intros b. rewrite pair_children. fields_goal. rewrite ?Hcar, ?Hcdr. lia.
  - intros b. unfold cell_children. rewrite Ho, pair_children, ?Hcar, ?Hcdr. lia.
Qed.

Lemma set_car_raw_ok H h a p p' v :
  heap_ok (value_addrs v ++ H) h → pair_at h a = Some p → pr_car p' = pr_car p → pr_cdr p' = pr_cdr p →
  heap_ok H (set_car_raw_owned a p' v h) ∧
  shrinks (put_object a (OPair (p' <| pr_car := v |>)) h) (set_car_raw_owned a p' v h).
Proof.
  intros Hh (c & Hc & Ho)%pair_at_Some Hcar Hcdr. apply drop_value_ok.
  apply (put_object_ok (value_addrs v) _ (value_addrs (pr_cdr p)) H h a c); [done | done | |].
  - intros b. rewrite pair_children. fields_goal. rewrite ?Hcar, ?Hcdr. lia.
  - intros b. unfold cell_children. rewrite Ho, pair_children, ?Hcar, ?Hcdr. lia.
Qed.

Lemma put_shrinks_alters h h' a o : shrinks (put_object a o h) h' → alters {[a]} h h'.
Proof. intros Hs. etrans; [apply put_object_alters | by apply shrinks_alters]. Qed.

(** A slot of a pair is emptied. *)
Lemma empty_slot_demotes h h' a p q :
  pair_at h a = Some p →
  pr_car q = pr_car p ∧ heap_addr (pr_cdr q) = None ∨ pr_cdr q = pr_cdr p ∧ heap_addr (pr_car q) = None →
  shrinks (put_object a (OPair q) h) h' → demotes a h h'.
Proof.
  intros (c & Hc & Ho)%pair_at_Some Hq Hs. split; [by eapply put_shrinks_alters |].
  etrans; [| by apply shrinks_fewer]. apply (put_object_fewer h a c); [done |].
  unfold cell_children, cycle_children. rewrite Ho. cbn [obj_values omap list_omap].
  destruct Hq as [[-> ->]|[-> ->]]; destruct (heap_addr (pr_car p)), (heap_addr (pr_cdr p)); solve_submseteq.
Qed.

(** ** Demoting *)

Lemma pair_at_shrinks h h' a p :
  shrinks h h' → is_Some (h' !! a) → pair_at h a = Some p → pair_at h' a = Some p.
Proof.
  intros Hs [c' Hc'] (c & Hc & Ho)%pair_at_Some. apply pair_at_Some.
  destruct (Hs a c' Hc') as (c0 & Hc0 & Ho'). simplify_eq. exists c'. by rewrite <-Ho'.
Qed.

Lemma clone_pair_at H h a p v :
  heap_ok H h → (∀ b, heap_addr v = Some b → is_Some (h !! b)) → pair_at h a = Some p →
  pair_at (clone_value v h) a = Some p.
Proof.
  intros Hh Hv Hp. destruct (clone_value_ok H h v Hh Hv) as (_ & H1 & H2).
  pose proof Hp as (c & Hc & _)%pair_at_Some. apply (pair_at_shrinks h); [done | | done].
  destruct (H2 a c Hc) as (c' & Hc' & _). by exists c'.
Qed.

(** The shape of the three demotions: the value is cloned, something happens,
    and the clone is dropped. *)
Lemma demote_ok H h h' a v :
  heap_ok H h → (∀ b, heap_addr v = Some b → is_Some (h !! b)) →
  (heap_ok (value_addrs v ++ H) (clone_value v h) →
   heap_ok (value_addrs v ++ H) h' ∧ demotes a (clone_value v h) h') →
  heap_ok H (drop_value v h') ∧ demotes a h (drop_value v h').
Proof.
  intros Hh Hv Hmid. destruct (clone_value_ok H h v Hh Hv) as (Hc & Hs & _).
  destruct (Hmid Hc) as [H1 H2]. destruct (drop_value_ok _ _ _ H1) as [H3 H4]. split; [done |].
  etrans; [by apply shrinks_demotes |]. etrans; [done | by apply shrinks_demotes].
Qed.

Lemma break_cdr_ok limit baseline H h a :
  heap_ok H h → heap_ok H (break_cdr_cycle limit baseline a h).1 ∧
  demotes a h (break_cdr_cycle limit baseline a h).1.
Proof.
  intros Hh. unfold break_cdr_cycle. destruct (pair_at h a) as [p|] eqn:Hp; [| done].
  pose proof (pair_slot_present H h a p (pr_cdr p) Hh Hp ltac:(by right)) as Hv.
  case_decide; [by apply demote_ok |]. destruct (negb _); [by apply demote_ok |].
  destruct (weak_from_value _) as [w|]; [| by apply demote_ok]. cbn [fst].
  apply demote_ok; [done | done |]. intros Hc.
  pose proof (clone_pair_at H h a p _ Hh Hv Hp) as Hp'.
  destruct (set_cdr_raw_ok _ _ a p (p <| pr_cdr_weak := Some w |>) VUnspecified Hc Hp') as [H1 H2]; [done | done |].
  split; [done |]. eapply empty_slot_demotes; [done | | done]. by left.
Qed.

Lemma break_car_ok limit baseline H h a :
  heap_ok H h → heap_ok H (break_car_cycle limit baseline a h).1 ∧
  demotes a h (break_car_cycle limit baseline a h).1.
Proof.
  intros Hh. unfold break_car_cycle. destruct (pair_at h a) as [p|] eqn:Hp; [| done].
  pose proof (pair_slot_present H h a p (pr_car p) Hh Hp ltac:(by left)) as Hv.
  case_decide; [by apply demote_ok |]. destruct (negb _); [by apply demote_ok |].
  destruct (weak_from_value _) as [w|]; [| by apply demote_ok]. cbn [fst].
  apply demote_ok; [done | done |]. intros Hc.
  pose proof (clone_pair_at H h a p _ Hh Hv Hp) as Hp'.
  destruct (set_car_raw_ok _ _ a p (p <| pr_car_weak := Some w |>) VUnspecified Hc Hp') as [H1 H2]; [done | done |].
  split; [done |]. eapply empty_slot_demotes; [done | | done]. by right.
Qed.

Lemma table_at_Some h a t : table_at h a = Some t ↔ ∃ c, h !! a = Some c ∧ c_object c = OHashtable t.
Proof.
  unfold table_at. destruct (h !! a) as [c|]; cbn; [| by split; [| intros (c & ? & _)]]. split.
  - intros Hp. exists c. split; [done |]. by destruct (c_object c); simplify_eq.
  - by intros (c' & [= <-] & ->).
Qed.

Definition table_addrs (items : list (Value * Value)) : list addr :=
  items ≫= λ '(k, v), value_addrs k ++ value_addrs v.

Definition custom_addrs (t : Hashtable) : list addr :=
  match ht_custom t with Some (f, g) => value_addrs f ++ value_addrs g | None => [] end.

Lemma table_children t : cycle_children (OHashtable t) = table_addrs (ht_items t) ++ custom_addrs t.
Proof.
  unfold cycle_children. cbn [obj_values]. rewrite omap_app. f_equal.
  - unfold table_addrs. induction (ht_items t) as [|[k v] l IH]; [done |].
    cbn. rewrite IH. unfold value_addrs. by destruct (heap_addr k), (heap_addr v).
  - unfold custom_addrs. destruct (ht_custom t) as [[f g]|]; [| done]. cbn. unfold value_addrs.
    by destruct (heap_addr f), (heap_addr g).
Qed.

Lemma table_addrs_insert items i k v :
  items !! i = Some (k, v) →
  table_addrs items ≡ₚ value_addrs v ++ table_addrs (<[i := (k, VUnspecified)]> items).
Proof.
  intros Hi. rewrite insert_take_drop by (by apply lookup_lt_Some in Hi).
  rewrite <-(take_drop_middle items i (k, v) Hi) at 1. unfold table_addrs.
  rewrite !bind_app, !bind_cons. change (value_addrs VUnspecified) with (@nil addr).
  rewrite app_nil_r. solve_Permutation.
Qed.

Lemma break_value_ok limit i baseline H h a :
  heap_ok H h → heap_ok H (break_value_cycle limit i baseline a h).1 ∧
  demotes a h (break_value_cycle limit i baseline a h).1.
Proof.
  intros Hh. unfold break_value_cycle. destruct (table_at h a) as [t|] eqn:Ht; [| done].
  destruct (ht_items t !! i) as [[k v]|] eqn:Hi; [| done].
  apply table_at_Some in Ht as (c & Hc & Ho).
  assert (∀ b, heap_addr v = Some b → is_Some (h !! b)) as Hv.
  { intros b Hb. apply (heap_ok_present H h b Hh). pose proof (inrefs_elem h a c b Hc) as He.
    unfold cell_children in He. rewrite Ho, table_children, occ_app, (table_addrs_insert _ _ _ _ Hi), occ_app in He.
    unfold value_addrs in He. rewrite Hb, occ_cons, decide_True in He by done. lia. }
  case_decide; [by apply demote_ok |]. destruct (negb _); [by apply demote_ok |].
  destruct (weak_from_value _) as [w|]; [| by apply demote_ok]. cbn [fst].
  apply demote_ok; [done | done |]. intros Hcl. destruct (clone_value_ok H h v Hh Hv) as (_ & Hs1 & Hs2).
  destruct (Hs2 a c Hc) as (c' & Hc' & Ho'). rewrite Ho in Ho'.
  set (t' := t <| ht_weak ::= <[i := w]> |> <| ht_items ::= <[i := (k, VUnspecified)]> |>).
  assert (heap_ok (value_addrs v ++ value_addrs v ++ H) (put_object a (OHashtable t') (clone_value v h))) as Hput.
  { apply (put_object_ok [] _ (cycle_children (OHashtable t')) _ _ a c'); [done | done | done |].
    intros b. unfold cell_children. rewrite Ho', !table_children, !occ_app, (table_addrs_insert _ _ _ _ Hi).
    rewrite occ_app. unfold t', custom_addrs. fields_goal. lia. }
  destruct (drop_value_ok _ _ _ Hput) as [H1 H2]. split; [done |].
  etrans; [split; [apply put_object_alters |] | by apply shrinks_demotes].
  apply (put_object_fewer _ a c'); [done |]. unfold cell_children.
  rewrite Ho', !table_children, (table_addrs_insert _ _ _ _ Hi).
  unfold t', custom_addrs. fields_goal. apply submseteq_app; [apply submseteq_inserts_l |]; done.
Qed.

Lemma try_break_ok limit H h a :
  heap_ok H h →
  heap_ok H (@upgrade_and_try_break _ (Heap_any_weak limit) h a).1 ∧
  demotes a h (@upgrade_and_try_break _ (Heap_any_weak limit) h a).1.
Proof.
  intros Hh. cbn [upgrade_and_try_break Heap_any_weak]. destruct (h !! a) as [c|] eqn:Hc; [| done].
  pose proof (incref_ok H h a Hh ltac:(by exists c)) as Hi. destruct (incref_shrinks h a) as [Hs _].
  assert (∀ h' ok, try_break_cycle limit a (c_object c) (incref a h) = (h', ok) →
    heap_ok (a :: H) h' ∧ demotes a (incref a h) h') as Htry.
  { intros h' ok. unfold try_break_cycle. destruct (c_object c) as [s|s| |p|l|t|v]; try (intros [= <- _]; done).
    - destruct (break_cdr_ok limit 0 (a :: H) _ a Hi) as [H1 H2].
      destruct (break_cdr_cycle limit 0 a (incref a h)) as [h1 [|]]; [intros [= <- _]; done |]. cbn in H1, H2.
      destruct (break_car_ok limit 0 (a :: H) _ a H1) as [H3 H4]. intros E. rewrite E in H3, H4.
      split; [done | by etrans].
    - destruct (list_find _ _) as [[i kv]|]; [| intros [= <- _]; done]. intros E.
      destruct (break_value_ok limit i 0 (a :: H) _ a Hi) as [H1 H2]. by rewrite E in H1, H2. }
  destruct (try_break_cycle _ _ _ _) as [h' ok]. destruct (Htry h' ok eq_refl) as [H1 H2]. cbn [fst].
  destruct (release_ok H h' a H1) as [H3 H4]. split; [done |].
  etrans; [by apply shrinks_demotes |]. etrans; [done | by apply shrinks_demotes].
Qed.

(** ** What is live stays *)

Definition edge (h : Heap) (a b : addr) : Prop := ∃ c, h !! a = Some c ∧ b ∈ cell_children c.

(** A cell that strong slots lead to from a handle the program holds.  The
    program can also read a demoted slot, as long as something else keeps the
    cell it remembers: demoted slots are weak and do not make a cell live. *)
Definition live (H : list addr) (h : Heap) (a : addr) : Prop := ∃ b, b ∈ H ∧ rtc (edge h) b a.

Lemma live_kept H h h' (W : gset addr) a :
  heap_ok H h → heap_ok H h' → alters W h h' → (∀ b, b ∈ W → ¬ live H h b) →
  live H h a → ∃ c c', h !! a = Some c ∧ h' !! a = Some c' ∧ c_object c' = c_object c.
Proof.
  intros Hh Hh' Hal HW (b & Hb & Hr).
  assert (∀ x, live H h x → is_Some (h' !! x) →
    ∃ c c', h !! x = Some c ∧ h' !! x = Some c' ∧ c_object c' = c_object c) as Hstep.
  { intros x Hx [c' Hc']. destruct (Hal x c' Hc') as (c & Hc & [Ho|Hin]); [by exists c, c' |].
    by destruct (HW x Hin). }
  assert (live H h a ∧ is_Some (h' !! a)) as [Hl Hs]; [| by apply Hstep].
  revert a Hr. refine (rtc_ind_r (λ a, live H h a ∧ is_Some (h' !! a)) b _ _).
  - split; [by exists b |]. apply (heap_ok_present H h' b Hh'). pose proof (occ_pos _ _ Hb). lia.
  - intros x y _ (c & Hc & Hy) [Hx Hxs]. destruct (Hstep x Hx Hxs) as (c0 & c' & Hc0 & Hc' & Ho). simplify_eq.
    split.
    + destruct Hx as (b' & Hb' & Hr'). exists b'. split; [done |]. eapply rtc_r; [done |]. by exists c.
    + apply (heap_ok_child H h' x c' y Hh' Hc'). unfold cell_children. by rewrite Ho.
Qed.

(** A weak handle still upgrades as it did, unless its cell was not live. *)
Lemma upgrade_kept H h h' (W : gset addr) w :
  heap_ok H h → heap_ok H h' → alters W h h' → (∀ b, b ∈ W → ¬ live H h b) →
  upgrade h' w = upgrade h w ∨
  upgrade h' w = None ∧ ∃ b, heap_addr w = Some b ∧ ¬ live H h b.
Proof.
  intros Hh Hh' Hal HW. unfold upgrade. destruct (heap_addr w) as [b|]; [| by left].
  destruct (h' !! b) as [c'|] eqn:Hc'.
  - destruct (Hal b c' Hc') as (c & -> & _). by left.
  - right. split; [done |]. exists b. split; [done |]. intros Hl.
    destruct (live_kept H h h' W b Hh Hh' Hal HW Hl) as (c & c2 & _ & Hc2 & _). congruence.
Qed.

End heap.
