(* ===== verification/GcMutate.v ===== *)
(** * Assignment to pairs

    [b_set_car] and [b_set_cdr] of [GcHeap]: the counts stay exact, nothing but
    the pair's own slots changes, and the pair reads back what was stored,
    whether or not the cycle detector demoted the slot. *)

From stdpp Require Import base numbers gmap sorting list relations.
From S2P Require Import Prelude Trial TrialFacts GcHeap GcFacts.

Local Open Scope crab_scope.

Section heap.
Context {L : Type}.

Notation Value := (Value L).
Notation Pair := (Pair L).
Notation Vector := (Vector L).
Notation Hashtable := (Hashtable L).
Notation Object := (Object L).
Notation Cell := (Cell L).
Notation Memory := (Memory L).
Notation Heap := (gmap addr Cell).

Implicit Types (h : Heap) (c : Cell) (v w : Value) (p q : Pair).

Lemma handle_present H h b : heap_ok H h → b ∈ H → is_Some (h !! b).
Proof. intros Hh Hb. apply (heap_ok_present H h b Hh). pose proof (occ_pos _ _ Hb). lia. Qed.

Lemma upgrade_handle H h v :
  heap_ok H h → (∀ b, heap_addr v = Some b → b ∈ H) → is_Some (heap_addr v) → upgrade h v = Some v.
Proof.
  intros Hh Hv [b Hb]. unfold upgrade. rewrite Hb. by destruct (handle_present H h b Hh (Hv b Hb)) as [c ->].
Qed.

Lemma pair_at_put h a p q : pair_at h a = Some p → pair_at (put_object a (OPair q) h) a = Some q.
Proof.
  intros (c & Hc & _)%pair_at_Some. apply pair_at_Some. exists (MkCell (c_strong c) (OPair q)).
  split; [| done]. unfold put_object. by rewrite lookup_alter_eq, Hc.
Qed.

(** A held pair keeps its object while other cells are dropped. *)
Lemma pair_at_kept H h h' a p :
  heap_ok H h' → a ∈ H → shrinks h h' → pair_at h a = Some p → pair_at h' a = Some p.
Proof. intros Hh' Ha Hs. apply pair_at_shrinks; [done | by apply (handle_present H)]. Qed.

(** ** One slot *)

(** *** The cdr *)

Section cdr.
Context (limit : nat) (H : list addr).

Lemma set_cdr_raw_pair h a p p' v :
  heap_ok (value_addrs v ++ H) h → a ∈ H → pair_at h a = Some p →
  pr_car p' = pr_car p → pr_cdr p' = pr_cdr p →
  heap_ok H (set_cdr_raw_owned a p' v h) ∧ alters {[a]} h (set_cdr_raw_owned a p' v h) ∧
  pair_at (set_cdr_raw_owned a p' v h) a = Some (p' <| pr_cdr := v |>).
Proof.
  intros Hh Ha Hp Hcar Hcdr. destruct (set_cdr_raw_ok H h a p p' v Hh Hp Hcar Hcdr) as [Hok Hs].
  split_and!; [done | by eapply put_shrinks_alters |].
  apply (pair_at_kept H _ _ _ _ Hok Ha Hs). by apply (pair_at_put h a p).
Qed.

(** A demoted slot of a held pair reads as before while its value is held. *)
Lemma break_cdr_reads baseline h a p :
  heap_ok H h → a ∈ H → pair_at h a = Some p → pr_cdr_weak p = None →
  (∀ b, heap_addr (pr_cdr p) = Some b → b ∈ H) →
  ∃ q, pair_at (break_cdr_cycle limit baseline a h).1 a = Some q ∧
    cdr (break_cdr_cycle limit baseline a h).1 q = pr_cdr p ∧
    pr_car q = pr_car p ∧ pr_car_weak q = pr_car_weak p.
Proof.
  intros Hh Ha Hp Hw Hv. destruct (break_cdr_ok limit baseline H h a Hh) as [Hok _]. revert Hok.
  unfold break_cdr_cycle. rewrite Hp.
  assert (∀ b, heap_addr (pr_cdr p) = Some b → is_Some (h !! b)) as Hpres.
  { intros b Hb. by apply (handle_present H h b Hh), Hv. }
  destruct (clone_value_ok H h (pr_cdr p) Hh Hpres) as (Hc & _ & _).
  pose proof (clone_pair_at H h a p _ Hh Hpres Hp) as Hp'.
  assert (∀ ok : bool, heap_ok H (drop_value (pr_cdr p) (clone_value (pr_cdr p) h), ok).1 →
    ∃ q, pair_at (drop_value (pr_cdr p) (clone_value (pr_cdr p) h), ok).1 a = Some q ∧
      cdr (drop_value (pr_cdr p) (clone_value (pr_cdr p) h), ok).1 q = pr_cdr p ∧
      pr_car q = pr_car p ∧ pr_car_weak q = pr_car_weak p) as Hskip.
  { intros ok Hok. cbn [fst] in *. exists p. destruct (drop_value_ok _ _ _ Hc) as [_ Hs].
    split_and!; [by apply (pair_at_kept H _ _ _ _ Hok Ha Hs) | unfold cdr; by rewrite Hw | done | done]. }
  case_decide; [apply Hskip |]. destruct (negb _); [apply Hskip |].
  unfold weak_from_value. destruct (heap_addr (pr_cdr p)) as [b|] eqn:Hb; [| apply Hskip]. cbn [fst].
  intros Hok. destruct (set_cdr_raw_ok _ _ a p (p <| pr_cdr_weak := Some (pr_cdr p) |>) VUnspecified Hc Hp')
    as [H1 H2]; [done | done |].
  destruct (drop_value_ok _ _ _ H1) as [_ H3]. eexists. split_and!.
  - apply (pair_at_kept H _ _ _ _ Hok Ha H3). apply (pair_at_kept _ _ _ _ _ H1 ltac:(apply elem_of_app; by right) H2).
    by apply (pair_at_put _ _ p).
  - unfold cdr. fields_goal. rewrite (upgrade_handle H); [done | done | rewrite Hb; exact Hv | rewrite Hb; by exists b].
  - done.
  - done.
Qed.

Lemma b_set_cdr_ok m a v p :
  heap_ok H (m_heap m) → a ∈ H → (∀ b, heap_addr v = Some b → b ∈ H) → pair_at (m_heap m) a = Some p →
  ∃ m' q, b_set_cdr limit [VPair a; v] m = (inr VUnspecified, m') ∧ heap_ok H (m_heap m') ∧
    alters {[a]} (m_heap m) (m_heap m') ∧ pair_at (m_heap m') a = Some q ∧
    cdr (m_heap m') q = v ∧ pr_car q = pr_car p ∧ pr_car_weak q = pr_car_weak p.
Proof.
  intros Hh Ha Hv Hp. unfold b_set_cdr. rewrite Hp.
  assert (∀ b, heap_addr v = Some b → is_Some (m_heap m !! b)) as Hpres.
  { intros b Hb. by apply (handle_present H _ b Hh), Hv. }
  destruct (clone_value_ok H _ v Hh Hpres) as (Hc & Hs & _).
  destruct (set_cdr_raw_pair _ a p (p <| pr_cdr_weak := None |>) v Hc Ha (clone_pair_at H _ a p v Hh Hpres Hp))
    as (H1 & H2 & H3); [done | done |].
  assert (alters {[a]} (m_heap m) (set_cdr a p v (clone_value v (m_heap m)))) as Hal.
  { etrans; [by apply shrinks_alters | done]. }
  unfold after_set. destruct (value_is_acyclic_leaf v); [by do 2 eexists |].
  destruct (cycle_check _ _ _); [| by do 2 eexists].
  destruct (break_cdr_cycle limit 3 a _) as [h' ok] eqn:Hbr.
  change (m_heap (record_cycle_with_candidate a _)) with (set_cdr a p v (clone_value v (m_heap m))) in Hbr.
  destruct (break_cdr_ok limit 3 H _ a H1) as [H4 [H5 _]].
  destruct (break_cdr_reads 3 _ a _ H1 Ha H3) as (q & Hq & Hr & Ho & Hw); [done | done |].
  unfold set_cdr in Hbr. rewrite Hbr in *. cbn [fst] in *.
  destruct ok; (do 2 eexists; split_and!; [done | done | by etrans | done | done | done | done]).
Qed.

End cdr.

(** *** The car *)

Section car.
Context (limit : nat) (H : list addr).

Lemma set_car_raw_pair h a p p' v :
  heap_ok (value_addrs v ++ H) h → a ∈ H → pair_at h a = Some p →
  pr_car p' = pr_car p → pr_cdr p' = pr_cdr p →
  heap_ok H (set_car_raw_owned a p' v h) ∧ alters {[a]} h (set_car_raw_owned a p' v h) ∧
  pair_at (set_car_raw_owned a p' v h) a = Some (p' <| pr_car := v |>).
Proof.
  intros Hh Ha Hp Hcar Hcdr. destruct (set_car_raw_ok H h a p p' v Hh Hp Hcar Hcdr) as [Hok Hs].
  split_and!; [done | by eapply put_shrinks_alters |].
  apply (pair_at_kept H _ _ _ _ Hok Ha Hs). by apply (pair_at_put h a p).
Qed.

(** A demoted slot of a held pair reads as before while its value is held. *)
Lemma break_car_reads baseline h a p :
  heap_ok H h → a ∈ H → pair_at h a = Some p → pr_car_weak p = None →
  (∀ b, heap_addr (pr_car p) = Some b → b ∈ H) →
  ∃ q, pair_at (break_car_cycle limit baseline a h).1 a = Some q ∧
    car (break_car_cycle limit baseline a h).1 q = pr_car p ∧
    pr_cdr q = pr_cdr p ∧ pr_cdr_weak q = pr_cdr_weak p.
Proof.
  intros Hh Ha Hp Hw Hv. destruct (break_car_ok limit baseline H h a Hh) as [Hok _]. revert Hok.
  unfold break_car_cycle. rewrite Hp.
  assert (∀ b, heap_addr (pr_car p) = Some b → is_Some (h !! b)) as Hpres.
  { intros b Hb. by apply (handle_present H h b Hh), Hv. }
  destruct (clone_value_ok H h (pr_car p) Hh Hpres) as (Hc & _ & _).
  pose proof (clone_pair_at H h a p _ Hh Hpres Hp) as Hp'.
  assert (∀ ok : bool, heap_ok H (drop_value (pr_car p) (clone_value (pr_car p) h), ok).1 →
    ∃ q, pair_at (drop_value (pr_car p) (clone_value (pr_car p) h), ok).1 a = Some q ∧
      car (drop_value (pr_car p) (clone_value (pr_car p) h), ok).1 q = pr_car p ∧
      pr_cdr q = pr_cdr p ∧ pr_cdr_weak q = pr_cdr_weak p) as Hskip.
  { intros ok Hok. cbn [fst] in *. exists p. destruct (drop_value_ok _ _ _ Hc) as [_ Hs].
    split_and!; [by apply (pair_at_kept H _ _ _ _ Hok Ha Hs) | unfold car; by rewrite Hw | done | done]. }
  case_decide; [apply Hskip |]. destruct (negb _); [apply Hskip |].
  unfold weak_from_value. destruct (heap_addr (pr_car p)) as [b|] eqn:Hb; [| apply Hskip]. cbn [fst].
  intros Hok. destruct (set_car_raw_ok _ _ a p (p <| pr_car_weak := Some (pr_car p) |>) VUnspecified Hc Hp')
    as [H1 H2]; [done | done |].
  destruct (drop_value_ok _ _ _ H1) as [_ H3]. eexists. split_and!.
  - apply (pair_at_kept H _ _ _ _ Hok Ha H3). apply (pair_at_kept _ _ _ _ _ H1 ltac:(apply elem_of_app; by right) H2).
    by apply (pair_at_put _ _ p).
  - unfold car. fields_goal. rewrite (upgrade_handle H); [done | done | rewrite Hb; exact Hv | rewrite Hb; by exists b].
  - done.
  - done.
Qed.

Lemma b_set_car_ok m a v p :
  heap_ok H (m_heap m) → a ∈ H → (∀ b, heap_addr v = Some b → b ∈ H) → pair_at (m_heap m) a = Some p →
  ∃ m' q, b_set_car limit [VPair a; v] m = (inr VUnspecified, m') ∧ heap_ok H (m_heap m') ∧
    alters {[a]} (m_heap m) (m_heap m') ∧ pair_at (m_heap m') a = Some q ∧
    car (m_heap m') q = v ∧ pr_cdr q = pr_cdr p ∧ pr_cdr_weak q = pr_cdr_weak p.
Proof.
  intros Hh Ha Hv Hp. unfold b_set_car. rewrite Hp.
  assert (∀ b, heap_addr v = Some b → is_Some (m_heap m !! b)) as Hpres.
  { intros b Hb. by apply (handle_present H _ b Hh), Hv. }
  destruct (clone_value_ok H _ v Hh Hpres) as (Hc & Hs & _).
  destruct (set_car_raw_pair _ a p (p <| pr_car_weak := None |>) v Hc Ha (clone_pair_at H _ a p v Hh Hpres Hp))
    as (H1 & H2 & H3); [done | done |].
  assert (alters {[a]} (m_heap m) (set_car a p v (clone_value v (m_heap m)))) as Hal.
  { etrans; [by apply shrinks_alters | done]. }
  unfold after_set. destruct (value_is_acyclic_leaf v); [by do 2 eexists |].
  destruct (cycle_check _ _ _); [| by do 2 eexists].
  destruct (break_car_cycle limit 3 a _) as [h' ok] eqn:Hbr.
  change (m_heap (record_cycle_with_candidate a _)) with (set_car a p v (clone_value v (m_heap m))) in Hbr.
  destruct (break_car_ok limit 3 H _ a H1) as [H4 [H5 _]].
  destruct (break_car_reads 3 _ a _ H1 Ha H3) as (q & Hq & Hr & Ho & Hw); [done | done |].
  unfold set_car in Hbr. rewrite Hbr in *. cbn [fst] in *.
  destruct ok; (do 2 eexists; split_and!; [done | done | by etrans | done | done | done | done]).
Qed.

End car.

(** Assignment to a pair. With handles to the pair and to the value, as a
    call has in its arguments, [set-car!] and [set-cdr!] keep every count exact,
    change no object but the pair, leave its other slot alone, and the pair
    then reads back the value, also when the detector has demoted the slot. *)
Theorem set_pair_reads_back limit H m a v p :
  heap_ok H (m_heap m) → a ∈ H → (∀ b, heap_addr v = Some b → b ∈ H) → pair_at (m_heap m) a = Some p →
  (∃ m' q, b_set_car limit [VPair a; v] m = (inr VUnspecified, m') ∧ heap_ok H (m_heap m') ∧
     alters {[a]} (m_heap m) (m_heap m') ∧ pair_at (m_heap m') a = Some q ∧
     car (m_heap m') q = v ∧ pr_cdr q = pr_cdr p ∧ pr_cdr_weak q = pr_cdr_weak p) ∧
  (∃ m' q, b_set_cdr limit [VPair a; v] m = (inr VUnspecified, m') ∧ heap_ok H (m_heap m') ∧
     alters {[a]} (m_heap m) (m_heap m') ∧ pair_at (m_heap m') a = Some q ∧
     cdr (m_heap m') q = v ∧ pr_car q = pr_car p ∧ pr_car_weak q = pr_car_weak p).
Proof. intros Hh Ha Hv Hp. split; [by apply b_set_car_ok | by apply b_set_cdr_ok]. Qed.

End heap.
