(* ===== verification/GcDetect.v ===== *)
(** * The cycle detector finds the cycles

    [cycle_check], [reaches] and [value_reaches_container] of [GcHeap] against
    paths in the heap.  The traversal is sound always, and complete when the
    cells it can reach are within its limit. *)

From stdpp Require Import base numbers gmap sorting list relations.
From S2P Require Import Prelude Trial TrialFacts GcHeap GcFacts.

Local Open Scope crab_scope.

Section heap.
Context {L : Type}.

Notation Value := (Value L).
Notation Pair := (Pair L).
Notation Vector := (Vector L).
Notation Hashtable := (Hashtable L).
Notation Object := (Object L).
Notation Cell := (Cell L).
Notation Memory := (Memory L).
Notation Heap := (gmap addr Cell).

Implicit Types (h : Heap) (c : Cell) (v w : Value) (p q : Pair).

Section detect.
Context (h : Heap).

Notation path := (rtc (edge h)).

Notation children := (children h).

Lemma edge_children a b : edge h a b ↔ b ∈ children a.
Proof.
  unfold edge, GcFacts.children. destruct (h !! a) as [c|]; [| rewrite elem_of_nil; naive_solver].
  split; [by intros (c' & [= <-] & ?) | intros Hb; by exists c].
Qed.

(** What visiting the cells [l] does to the visitor. *)
Record visits (ctx ctx' : CycleVisitor) (l : list addr) : Prop := {
  vs_root : cv_root ctx' = cv_root ctx;
  vs_limit : cv_limit ctx' = cv_limit ctx;
  vs_mono : cv_visited ctx ⊆ cv_visited ctx';
  vs_from x : x ∈ cv_visited ctx' → x ∈ cv_visited ctx ∨ ∃ b, b ∈ l ∧ path b x;
  vs_found : cv_found ctx' = true → cv_found ctx = true ∨ ∃ b, b ∈ l ∧ path b (cv_root ctx);
  vs_over : cv_over_limit ctx' = true → cv_over_limit ctx = true ∨ cv_limit ctx < size (cv_visited ctx');
  vs_not_done : done ctx' = false → done ctx = false;
  vs_all : done ctx' = false → ∀ b, b ∈ l → b ∈ cv_visited ctx' ∧ b ≠ cv_root ctx;
  vs_closed : done ctx' = false → ∀ x y, x ∈ cv_visited ctx' → x ∉ cv_visited ctx → y ∈ children x →
    y ∈ cv_visited ctx' ∧ y ≠ cv_root ctx;
}.

Lemma visits_nil ctx : visits ctx ctx [].
Proof. split; try done; auto; by intros _ b Hb%elem_of_nil. Qed.

(** A visitor that is done stays as it is. *)
Lemma visits_done ctx l : done ctx = true → visits ctx ctx l.
Proof. intros Hd. split; try done; auto; congruence. Qed.

Lemma visits_app ctx1 ctx2 ctx3 l k : visits ctx1 ctx2 l → visits ctx2 ctx3 k → visits ctx1 ctx3 (l ++ k).
Proof.
  intros [R1 L1 M1 F1 D1 O1 N1 A1 C1] [R2 L2 M2 F2 D2 O2 N2 A2 C2]. rewrite R1, L1 in *. split; [done | done | by etrans | | | | auto | |].
  - intros x Hx. destruct (F2 x Hx) as [Hx2|(b & Hb & Hp)]; [destruct (F1 x Hx2) as [?|(b & Hb & Hp)]; [by left |] |];
      right; exists b; rewrite elem_of_app; auto.
  - intros Hx. destruct (D2 Hx) as [Hx2|(b & Hb & Hp)]; [destruct (D1 Hx2) as [?|(b & Hb & Hp)]; [by left |] |];
      right; exists b; rewrite elem_of_app; auto.
  - intros Hx. destruct (O2 Hx) as [Hx2|?]; [destruct (O1 Hx2) as [?|Hl]; [by left |] | by right].
    right. pose proof (subseteq_size _ _ M2). lia.
  - intros Hd b [Hb|Hb]%elem_of_app; [| by apply A2]. destruct (A1 (N2 Hd) b Hb). auto.
  - intros Hd x y Hx Hx1 Hy. destruct (decide (x ∈ cv_visited ctx2)) as [Hx2|Hx2]; [| by apply (C2 Hd x)].
    destruct (C1 (N2 Hd) x y Hx2 Hx1 Hy). auto.
Qed.

(** Descending into a cell that is new. *)
Lemma visits_descend ctx ctx' b :
  done ctx = false → b ≠ cv_root ctx → b ∉ cv_visited ctx →
  visits (ctx <| cv_visited ::= union {[b]} |>) ctx' (children b) → visits ctx ctx' [b].
Proof.
  intros Hd Hr Hv [R1 L1 M1 F1 D1 O1 N1 A1 C1]. fields_in R1. fields_in L1. revert M1 F1 D1 O1 A1 C1. fields_goal. intros M1 F1 D1 O1 A1 C1.
  split; [done | done | set_solver | | | done | done | |].
  - intros x Hx. destruct (F1 x Hx) as [[->%elem_of_singleton|?]%elem_of_union|(c & Hc & Hp)]; [| by left |].
    + right. exists b. split; [left | done].
    + right. exists b. split; [left |]. eapply rtc_l; [by apply edge_children | done].
  - intros Hx. destruct (D1 Hx) as [?|(c & Hc & Hp)]; [by left |].
    right. exists b. split; [left |]. eapply rtc_l; [by apply edge_children | done].
  - intros Hd' x ->%list_elem_of_singleton. split; [| done]. apply M1. set_solver.
  - intros Hd' x y Hx Hx1 Hy. destruct (decide (x = b)) as [->|Hne].
    + by apply A1.
    + apply (C1 Hd' x y Hx); [set_solver | done].
Qed.

(** The cells that may still be visited bound the depth. *)
Definition unvisited (ctx : CycleVisitor) : nat := size (dom h ∖ cv_visited ctx).

Definition visit_one (fuel : nat) (ctx : CycleVisitor) (b : addr) : CycleVisitor :=
  let '(ctx, go) := visit b ctx in if go : bool then visit_children fuel h ctx b else ctx.

Lemma visit_children_absent fuel ctx b : h !! b = None → visit_children fuel h ctx b = ctx.
Proof. intros Hb. destruct fuel; [done |]. cbn. by rewrite Hb. Qed.

(** A visitor whose flag was set is done. *)
Ltac done_flag :=
  let H := fresh in intros H; unfold done in H; fields_in H; rewrite ?orb_true_r in H; done.

Lemma visit_one_ok fuel ctx b :
  (∀ ctx a, unvisited ctx < fuel → visits ctx (visit_children fuel h ctx a) (children a)) →
  unvisited ctx ≤ fuel → done ctx = false → visits ctx (visit_one fuel ctx b) [b].
Proof.
  intros IH Hf Hd. unfold visit_one, visit. rewrite Hd. case_decide as Hr.
  { split; fields_goal; try done; auto; try done_flag.
    intros _. right. exists b. split; [left | by subst]. }
  case_decide as Hv.
  { split; try done; auto. intros _ x ->%list_elem_of_singleton. done. }
  case_decide as Hl.
  { split; fields_goal; try done; auto; try done_flag; [set_solver |].
    intros x [->%elem_of_singleton|?]%elem_of_union; [| by left]. right. exists b. split; [left | done]. }
  apply visits_descend; [done | done | done |]. destruct (h !! b) as [c|] eqn:Hb.
  - apply IH. unfold unvisited in *. fields_goal.
    assert (b ∈ dom h ∖ cv_visited ctx) as Hin by (apply elem_of_difference; split; [apply elem_of_dom; eauto | done]).
    eapply Nat.lt_le_trans; [| exact Hf]. apply subset_size. set_solver.
  - rewrite visit_children_absent by done. unfold GcFacts.children. rewrite Hb. apply visits_nil.
Qed.

Lemma visit_children_ok fuel ctx a :
  unvisited ctx < fuel → visits ctx (visit_children fuel h ctx a) (children a).
Proof.
  revert ctx a. induction fuel as [|fuel IH]; intros ctx a Hf; [lia |]. cbn [visit_children]. unfold GcFacts.children.
  destruct (h !! a) as [c|]; [| apply visits_nil]. fold (cell_children c).
  assert (unvisited ctx ≤ fuel) as Hle by lia. clear Hf. revert ctx Hle.
  induction (cell_children c) as [|b l IHl]; intros ctx Hle; cbn [foldl]; [apply visits_nil |].
  assert (visits ctx (if done ctx then ctx else visit_one fuel ctx b) [b]) as Hb.
  { destruct (done ctx) eqn:Hd; [by apply visits_done | by apply visit_one_ok]. }
  apply (visits_app _ _ _ [b] l Hb). apply IHl. etrans; [| exact Hle]. unfold unvisited. apply subseteq_size.
  pose proof (vs_mono _ _ _ Hb). set_solver.
Qed.

(** When the search fails within its limit, what it has seen is closed. *)
Lemma search_failed limit root ctx' l (X : gset addr) :
  visits (new_visitor limit root) ctx' l →
  (∀ b x, b ∈ l → path b x → x ∈ X) → size X ≤ limit → cv_found ctx' = false →
  ∃ V : gset addr, root ∉ V ∧ (∀ b, b ∈ l → b ∈ V) ∧ ∀ x y, x ∈ V → y ∈ children x → y ∈ V.
Proof.
  intros Hv HX Hl Hf. assert (cv_over_limit ctx' = false) as Ho.
  { apply not_true_is_false. intros Ho. destruct (vs_over _ _ _ Hv Ho) as [?|Hlt]; [done |]. cbn in Hlt.
    assert (cv_visited ctx' ⊆ X) as Hsub.
    { intros x Hx. destruct (vs_from _ _ _ Hv x Hx) as [?|(c & Hc & Hpc)]; [by set_solver | by apply (HX c)]. }
    apply subseteq_size in Hsub. lia. }
  assert (done ctx' = false) as Hd by (unfold done; by rewrite Hf, Ho).
  exists (cv_visited ctx' ∖ {[root]}). split_and!; [set_solver | |].
  - intros b Hb. pose proof (vs_all _ _ _ Hv Hd b Hb) as [? Hne]. cbn in Hne. set_solver.
  - intros x y Hx Hy. destruct (vs_closed _ _ _ Hv Hd x y) as [? Hne]; [set_solver | by apply not_elem_of_empty | done |].
    cbn in Hne. set_solver.
Qed.

(** From a visitor that has seen nothing, over cells within the limit. *)
Lemma search_ok limit root ctx' l (X : gset addr) :
  visits (new_visitor limit root) ctx' l →
  (∀ b x, b ∈ l → path b x → x ∈ X) → size X ≤ limit →
  cv_found ctx' = true ↔ ∃ b, b ∈ l ∧ path b root.
Proof.
  intros Hv HX Hl. split.
  { intros Hf. by destruct (vs_found _ _ _ Hv Hf) as [?|?]. }
  intros (b & Hb & Hp). destruct (cv_found ctx') eqn:Hf; [done | exfalso].
  destruct (search_failed _ _ _ _ X Hv HX Hl Hf) as (V & Hr & Hin & Hcl). apply Hr.
  revert Hp. generalize root. refine (rtc_ind_r (λ x, x ∈ V) b _ _); [by apply Hin |].
  intros x y _ Hxy%edge_children Hx. by apply (Hcl x).
Qed.

End detect.

Lemma tc_first {A} (R : relation A) x z : tc R x z → ∃ y, R x y ∧ rtc R y z.
Proof. intros [x' y Hxy|x' y z' Hxy Hyz]; exists y; split; try done. by apply tc_rtc. Qed.

(** What [reaches] searches. *)
Lemma reaches_visits h limit v a b :
  heap_addr v = Some b → ∃ ctx, reaches limit h v a = cv_found ctx ∧ visits h (new_visitor limit a) ctx [b].
Proof.
  intros Hv. exists (visit_one h (S (size h)) (new_visitor limit a) b). split.
  - unfold reaches, visit_one. rewrite Hv. by destruct (visit _ _).
  - apply visit_one_ok; [apply visit_children_ok | | done]. unfold unvisited. cbn.
    rewrite difference_empty_L, size_dom. lia.
Qed.

(** C20: the cycle detector is right. When the cells reachable from where it
    starts are within its limit, [cycle_check] holds exactly of the cells that
    lie on a cycle, and the test that gates the demotion of a slot holds
    exactly of the values from which the container can be reached. *)
Theorem cycle_detection_correct h limit a v (X : gset addr) :
  (∀ b x, b ∈ a :: value_addrs v → rtc (edge h) b x → x ∈ X) → size X ≤ limit →
  (cycle_check limit h a = true ↔ tc (edge h) a a) ∧
  (value_reaches_container limit h v a = true ↔ ∃ b, heap_addr v = Some b ∧ rtc (edge h) b a).
Proof.
  intros HX Hl. split.
  - unfold cycle_check. rewrite (search_ok h limit a _ (GcFacts.children h a) X); [| | | done].
    + split.
      * intros (b & Hb & Hp). eapply tc_rtc_r; [apply tc_once; by apply edge_children | done].
      * intros Htc. apply tc_first in Htc as (b & Hb & Hp). exists b. split; [by apply edge_children | done].
    + apply visit_children_ok. unfold unvisited. cbn. rewrite difference_empty_L, size_dom. lia.
    + intros b x Hb Hp. apply (HX a); [left |]. eapply rtc_l; [by apply edge_children | done].
  - unfold value_reaches_container. destruct (heap_addr v) as [b|] eqn:Hv.
    2: { unfold reaches. rewrite Hv. naive_solver. }
    destruct (reaches_visits h limit v a b Hv) as (ctx & -> & Hvis).
    rewrite orb_true_iff, bool_decide_eq_true, (search_ok h limit a _ [b] X Hvis); [| | done].
    + split; [intros [[= ->]|(c & ->%list_elem_of_singleton & Hp)]; by eexists |].
      intros (c & [= <-] & Hp). right. exists b. split; [left | done].
    + intros c x ->%list_elem_of_singleton Hp. apply (HX b); [| done]. unfold value_addrs. rewrite Hv. right. left.
Qed.

End heap.
