(* ===== verification/GcSweep.v ===== *)
(** * Sweeping a counted heap

    [run_sweep] of [Trial] on the heap of [GcHeap].  A sweep ends, keeps the
    counts exact, leaves every cell that strong slots lead to from the program's
    handles as it was, and leaves all candidates black: a later sweep does not
    look at them again. *)

From stdpp Require Import base numbers gmap sorting list relations.
From S2P Require Import Prelude Trial TrialFacts GcHeap GcFacts.

Local Open Scope crab_scope.

Section heap.
Context {L : Type}.

Notation Value := (Value L).
Notation Pair := (Pair L).
Notation Vector := (Vector L).
Notation Hashtable := (Hashtable L).
Notation Object := (Object L).
Notation Cell := (Cell L).
Notation Memory := (Memory L).
Notation Heap := (gmap addr Cell).

Implicit Types (h : Heap) (v w : Value) (p q : Pair).

Section sweep.
Context (limit : nat) `{HO : KeyOrder}.

#[local] Existing Instance Heap_any_weak.

Notation heap_weak := (Heap_any_weak limit).
Notation kids h a := (@upgrade_and_walk_children _ heap_weak h a).
Notation refs h := (@refs _ heap_weak h).

(** ** White cells are not live *)

Lemma kids_children h a : kids h a = children h a.
Proof. done. Qed.

Lemma gsum_ext f g X : (∀ x, x ∈ X → f x = g x) → gsum f X = gsum g X.
Proof.
  induction X as [|x X Hx IH] using set_ind_L; [done |]. intros Hfg. rewrite !gsum_insert by done.
  rewrite (Hfg x), IH by set_solver. done.
Qed.

Lemma refs_inrefs h X x : refs h X x ≤ inrefs h x.
Proof.
  unfold TrialFacts.refs. revert h. induction X as [|m X Hm IH] using set_ind_L; intros h; [apply Nat.le_0_l |].
  rewrite gsum_insert, kids_children by done. unfold children at 1.
  destruct (h !! m) as [c|] eqn:Hc; [| apply IH].
  rewrite (inrefs_delete h m c x Hc), (gsum_ext _ (λ y, occ x (kids (delete m h) y))).
  - pose proof (IH (delete m h)). lia.
  - intros y Hy. cbn beta. rewrite (kids_children h), (kids_children (delete m h)). unfold children. by rewrite lookup_delete_ne by set_solver.
Qed.

Lemma heap_counted H h r : heap_ok H h → (∀ a, a ∈ registered r → is_Some (h !! a)) → counted (HW := heap_weak) h r.
Proof.
  intros Hh Hr X x HX Hx. etrans; [apply refs_inrefs |]. destruct (Hr x Hx) as [c Hc].
  cbn. rewrite Hc. cbn. specialize (Hh x). rewrite Hc in Hh. lia.
Qed.

Lemma closed_group_dead H h W b :
  heap_ok H h → closed_group (HW := heap_weak) h W → b ∈ W → ¬ live H h b.
Proof.
  intros Hh HW Hb (a & Ha & Hr). revert Hb. revert b Hr. refine (rtc_ind_r (λ b, b ∉ W) a _ _).
  - intros HaW. specialize (HW a HaW). pose proof (refs_inrefs h W a). pose proof (occ_pos _ _ Ha).
    specialize (Hh a). cbn in HW. destruct (h !! a) as [c|]; cbn in HW; lia.
  - intros x y _ (c & Hc & Hy) Hx HyW. specialize (HW y HyW).
    pose proof (refs_inrefs h ({[x]} ∪ W) y) as Hle. unfold TrialFacts.refs in Hle.
    rewrite gsum_insert, kids_children in Hle by done. unfold children at 1 in Hle. rewrite Hc in Hle. fold (refs h W y) in Hle.
    pose proof (occ_pos _ _ Hy). specialize (Hh y). cbn in HW. destruct (h !! y) as [c'|]; cbn in HW; lia.
Qed.

(** ** Collecting *)

Definition whites (t : Trial) : gset addr := filter (λ x, color t x = White) (registered (td_registry t)).

Lemma white_registered t x : color t x = White → x ∈ registered (td_registry t).
Proof.
  unfold color, candidate_color, registered. intros Hx. apply elem_of_dom.
  by destruct (rg_entries (td_registry t) !! x).
Qed.

(** From [t] to [t'] some white cells have become black. *)
Definition blackens (t t' : Trial) : Prop :=
  registered (td_registry t') = registered (td_registry t) ∧
  ∀ x, color t' x = color t x ∨ color t x = White ∧ color t' x = Black.

#[local] Instance blackens_preorder : PreOrder blackens.
Proof.
  split; [intros t; split; [done | by left] |]. intros t1 t2 t3 [Hr1 H1] [Hr2 H2]. split; [congruence |].
  intros x. destruct (H1 x) as [E1|[E1 E1']], (H2 x) as [E2|[E2 E2']]; rewrite ?E1, ?E2 in *;
    auto; right; split; congruence.
Qed.

Lemma blackens_white t t' x : blackens t t' → color t' x = White → color t x = White.
Proof. intros [_ Hb] Hx. destruct (Hb x) as [<-|[? ?]]; [done | congruence]. Qed.

Lemma paint_blackens a t : color t a = White → blackens t (paint a Black t) ∧ color (paint a Black t) a = Black.
Proof.
  intros Ha. assert (∀ x, color (paint a Black t) x = if decide (x = a) then Black else color t x) as Hc.
  { intros x. unfold color, candidate_color. rewrite paint_lookup. case_decide; [| done]. subst x.
    unfold color, candidate_color in Ha. by destruct (rg_entries (td_registry t) !! a). }
  split; [| by rewrite Hc, decide_True]. split; [apply registered_paint |]. intros x. rewrite Hc.
  case_decide; [subst x; by right | by left].
Qed.

(** The cell [a] of [h], if it is still there, holds the object it had in [hb]. *)
Definition intact (hb h : Heap) (a : addr) : Prop :=
  ∀ c, h !! a = Some c → ∃ c0, hb !! a = Some c0 ∧ c_object c0 = c_object c.

(** Breaking the cell [a] frees it, whatever was collected of [hb] before. *)
Definition frees (H : list addr) (hb : Heap) (a : addr) : Prop :=
  ∀ h, heap_ok H h → fewer hb h → intact hb h a → (@upgrade_and_try_break _ heap_weak h a).1 !! a = None.

Section collect.
Context (H : list addr) (hb : Heap) (G : gset addr) (Hfree : ∀ a, a ∈ G → frees H hb a).

(** What has become of [hb] when the collector has come to [t]. *)
Definition collecting (h : Heap) (t : Trial) : Prop :=
  heap_ok H h ∧ fewer hb h ∧ ∀ x, color t x = White → intact hb h x.

(** What a part of the collection does: it stays within the white cells. *)
Record collects (h : Heap) (t : Trial) (h' : Heap) (t' : Trial) : Prop := {
  cl_ok : heap_ok H h';
  cl_changes x c' : h' !! x = Some c' →
    ∃ c, h !! x = Some c ∧ (c_object c = c_object c' ∨ color t x = White ∧ color t' x ≠ White);
  cl_fewer : fewer h h';
  cl_blackens : blackens t t';
  cl_freed x : x ∈ G → color t x = White → color t' x ≠ White → h' !! x = None;
}.

Lemma collects_refl h t : collecting h t → collects h t h t.
Proof. intros (? & _). split; try done. intros x c Hc. exists c. auto. Qed.

Lemma collects_trans h1 t1 h2 t2 h3 t3 :
  collects h1 t1 h2 t2 → collects h2 t2 h3 t3 → collects h1 t1 h3 t3.
Proof.
  intros [_ Ha1 Hf1 Hb1 Hg1] [Hh Ha2 Hf2 Hb2 Hg2].
  assert (∀ x, color t2 x ≠ White → color t3 x ≠ White) as H23.
  { intros x Hx Hx3. by destruct Hx; apply (blackens_white t2 t3). }
  split; [done | | by etrans | by etrans |].
  - intros x c3 H3. destruct (Ha2 x c3 H3) as (c2 & H2 & Ho2). destruct (Ha1 x c2 H2) as (c1 & H1 & Ho1).
    exists c1. split; [done |]. destruct Ho1 as [->|[? ?]]; [| right; by auto]. destruct Ho2 as [->|[? ?]]; [by left |].
    right. split; [by apply (blackens_white t1 t2) | done].
  - intros x Hx Hw1 Hw3. destruct (decide (color t2 x = White)) as [Hw2|Hw2]; [by apply Hg2 |].
    pose proof (Hg1 x Hx Hw1 Hw2) as Hn. destruct (h3 !! x) as [c3|] eqn:H3; [| done].
    destruct (Ha2 x c3 H3) as (c2 & H2 & _). congruence.
Qed.

Lemma collects_collecting h t h' t' : collecting h t → collects h t h' t' → collecting h' t'.
Proof.
  intros (_ & Hf & Hi) [Hh Ha Hf' Hb _]. split_and!; [done | by etrans |]. intros x Hx c' Hc'.
  destruct (Ha x c' Hc') as (c & Hc & [Ho|[_ ?]]); [| done]. rewrite <-Ho. apply (Hi x); [| done].
  by apply (blackens_white t t').
Qed.

Lemma collects_alters h t h' t' : collects h t h' t' → alters (whites t) h h'.
Proof.
  intros Hcl x c' Hc'. destruct (cl_changes _ _ _ _ Hcl x c' Hc') as (c & Hc & [?|[Hw _]]); exists c; [by auto |].
  split; [done |]. right. apply elem_of_filter. split; [done | by apply white_registered].
Qed.

(** One white cell is broken. *)
Lemma collect_cell h t a h' ok t' :
  collecting h t → color t a = White →
  try_break_candidate (HW := heap_weak) h (td_registry (paint a Black t)) a = (h', ok) →
  (t' = paint a Black t ∨ t' = (paint a Black t) <| td_registry ::= bump_sweep_broken_count |>) →
  collects h t h' t' ∧ color t' a = Black.
Proof.
  intros (Hh & Hfb & Hi) Ha Hbr Ht'. destruct (paint_blackens a t Ha) as [Hb Hca].
  assert (blackens t t' ∧ color t' a = Black) as [Hb' Hca'] by (by destruct Ht' as [->| ->]).
  assert (∀ x, color t x = White → color t' x ≠ White → x = a) as Honly.
  { intros x Hx Hx'. destruct (decide (x = a)) as [?|Hne]; [done |]. destruct Hx'.
    replace (color t' x) with (color (paint a Black t) x) by (by destruct Ht' as [->| ->]).
    unfold color, candidate_color in *. by rewrite paint_lookup, decide_False. }
  split; [| done]. unfold try_break_candidate in Hbr.
  destruct (rg_entries (td_registry (paint a Black t)) !! a) eqn:Hra.
  2: { exfalso. apply white_registered in Ha. rewrite <-(registered_paint a Black) in Ha.
       unfold registered in Ha. apply elem_of_dom in Ha as [c Hc]. congruence. }
  destruct (try_break_ok limit H h a Hh) as [H1 [H2 H3]]. rewrite Hbr in H1, H2, H3.
  split; [done | | done | done |].
  - intros x c' Hc'. destruct (H2 x c' Hc') as (c0 & Hc & Ho). exists c0. split; [done |].
    destruct Ho as [?| ->%elem_of_singleton]; [by left | right; split; [done | congruence]].
  - intros x Hx Hw Hw'. rewrite (Honly x Hw Hw') in *.
    pose proof (Hfree a Hx h Hh Hfb (Hi a Ha)) as Hn. by rewrite Hbr in Hn.
Qed.

Lemma whites_shrink a t t' :
  blackens t t' → color t a = White → color t' a = Black → whites t' ⊆ whites t ∖ {[a]}.
Proof.
  intros Hb Ha Ha' x Hx. unfold whites in *. apply elem_of_filter in Hx as [Hx Hr].
  pose proof (blackens_white _ _ _ Hb Hx). destruct Hb as [Hreg _].
  apply elem_of_difference. split; [apply elem_of_filter; by rewrite <-Hreg |].
  intros ->%elem_of_singleton. congruence.
Qed.

Lemma collect_white_loop_ok fuel h0 h stack t n :
  collecting h t → fewer h0 h →
  length stack + gsum (λ a, length (children h0 a)) (whites t) ≤ fuel →
  ∃ h' t' n', collect_white_loop (HW := heap_weak) fuel h stack t n = Some (h', t', n') ∧
    collects h t h' t' ∧ ∀ x, x ∈ stack → color t' x ≠ White.
Proof.
  revert h stack t n. induction fuel as [|fuel IH]; intros h [|a stack] t n Hh Hf Hl; cbn [length] in Hl;
    cbn [collect_white_loop]; try lia;
    try (exists h, t, n; split_and!; [done | by apply collects_refl | by intros x Hx%elem_of_nil]).
  case_decide as Ha.
  - destruct (try_break_candidate h _ a) as [h1 ok] eqn:Hbr.
    set (t1 := if ok then (paint a Black t) <| td_registry ::= bump_sweep_broken_count |> else paint a Black t).
    destruct (collect_cell h t a h1 ok t1 Hh Ha Hbr) as [Hc1 Hca]; [unfold t1; destruct ok; auto |].
    pose proof Hc1 as [_ _ Hf1 Hb1 _]. pose proof (collects_collecting _ _ _ _ Hh Hc1) as Hh1.
    set (stack1 := push_colored White (paint a Black t) _ stack).
    destruct (push_colored_spec White (paint a Black t)
      (walk_candidate_children (HW := heap_weak) h (td_registry (paint a Black t)) a) stack) as [Hps Hpl].
    fold stack1 in Hps, Hpl.
    assert (length stack1 + gsum (λ a, length (children h0 a)) (whites t1) ≤ fuel) as Hfuel.
    { pose proof (whites_shrink a t t1 Hb1 Ha Hca) as Hsub. apply (gsum_mono (λ a, length (children h0 a))) in Hsub.
      rewrite (gsum_delete _ a (whites t)) in Hl
        by (unfold whites; apply elem_of_filter; split; [done | by apply white_registered]).
      rewrite walk_registered, registered_paint, decide_True in Hpl by (by apply white_registered).
      pose proof (submseteq_length _ _ (Hf a)). rewrite kids_children in Hpl. lia. }
    assert (fewer h0 h1) as Hf01 by (by etrans).
    assert (∀ n, ∃ h' t' n', collect_white_loop (HW := heap_weak) fuel h1 stack1 t1 n = Some (h', t', n') ∧
      collects h t h' t' ∧ ∀ x, x ∈ a :: stack → color t' x ≠ White) as Hgo.
    { intros k. destruct (IH h1 stack1 t1 k Hh1 Hf01 Hfuel) as (h' & t' & n' & Hrun & Hc & Hst).
      exists h', t', n'. split_and!; [done | by eapply collects_trans |].
      intros x [->|Hx]%elem_of_cons; [| apply Hst, Hps; by left]. intros Hw.
      destruct Hc as [_ _ _ Hb _]. pose proof (blackens_white _ _ _ Hb Hw). congruence. }
    unfold t1 in Hgo. destruct ok; apply Hgo.
  - destruct (IH h stack t n Hh Hf) as (h' & t' & n' & Hrun & Hc & Hst); [lia |].
    exists h', t', n'. split_and!; [done | done |]. intros x [->|Hx]%elem_of_cons; [| by apply Hst].
    intros Hw. destruct Hc as [_ _ _ Hb _]. by pose proof (blackens_white _ _ _ Hb Hw).
Qed.

Lemma run_collect_ok roots h t n :
  collecting h t →
  ∃ h' t' n', run_collect (HW := heap_weak) h roots t n = Some (h', t', n') ∧
    collects h t h' t' ∧ ∀ x, x ∈ roots → color t' x ≠ White.
Proof.
  revert h t n. induction roots as [|a roots IH]; intros h t n Hh; cbn [run_collect].
  { exists h, t, n. split_and!; [done | by apply collects_refl | by intros x Hx%elem_of_nil]. }
  case_decide as Ha.
  - unfold collect_white.
    destruct (collect_white_loop_ok (S (edges (HW := heap_weak) h (td_registry t))) h h [a] t 0 Hh)
      as (h1 & t1 & n1 & -> & Hc1 & Hst1); [done | |].
    + rewrite edges_registered. cbn [length]. apply le_n_S. etrans; [apply (gsum_mono _ _ (registered (td_registry t))) |].
      * unfold whites. set_solver.
      * done.
    + pose proof (collects_collecting _ _ _ _ Hh Hc1) as Hh1.
      destruct (IH h1 t1 (n + n1) Hh1) as (h' & t' & n' & Hrun & Hc & Hst). exists h', t', n'.
      split_and!; [done | by eapply collects_trans |]. intros x [->|Hx]%elem_of_cons; [| by apply Hst].
      intros Hw. destruct Hc as [_ _ _ Hb _]. pose proof (blackens_white _ _ _ Hb Hw).
      apply (Hst1 a); [left | done].
  - destruct (IH h t n Hh) as (h' & t' & n' & Hrun & Hc & Hst). exists h', t', n'.
    split_and!; [done | done |]. intros x [->|Hx]%elem_of_cons; [| by apply Hst].
    intros Hw. destruct Hc as [_ _ _ Hb _]. by pose proof (blackens_white _ _ _ Hb Hw).
Qed.

End collect.

(** ** The sweep *)

Definition all_black (r : Registry) : Prop := ∀ a c, rg_entries r !! a = Some c → c = Black.

(** The registry without the entries of cells that are gone. *)
Definition pruned (h : Heap) (r : Registry) : Registry :=
  r <| rg_entries ::= filter (λ '(a, _), upgradable (HW := heap_weak) h a = true) |>.

Lemma pruned_lookup h r a c :
  rg_entries (pruned h r) !! a = Some c → rg_entries r !! a = Some c ∧ is_Some (h !! a).
Proof.
  unfold pruned. fields_goal. intros [Hr Hu]%map_lookup_filter_Some. split; [done |].
  unfold upgradable in Hu. apply bool_decide_eq_true in Hu. cbn in Hu. by destruct (h !! a).
Qed.

Lemma run_sweep_ok H h r :
  heap_ok H h → settled r →
  ∃ h' r' W, run_sweep (HW := heap_weak) h r = Some (h', r') ∧ heap_ok H h' ∧
    alters W h h' ∧ closed_group (HW := heap_weak) h W ∧ all_black r' ∧
    (∀ X, closed_group (HW := heap_weak) h X → (∀ x, x ∈ X → suspect (HW := heap_weak) h (pruned h r) x) → X ⊆ W) ∧
    (∀ G : gset addr, (∀ a, a ∈ G → frees H h a) → ∀ x, x ∈ G → x ∈ W → h' !! x = None).
Proof.
  intros Hh Hset. unfold run_sweep, trial_run. fold (pruned h r). cbn [td_registry].
  destruct (phases_ok (HW := heap_weak) h (pruned h r)) as (t1 & t2 & W & -> & -> & Hreg & HWr & Hw & Hb & Hc & _ & Hmax).
  - intros a c [Ha _]%pruned_lookup. by apply (Hset a).
  - apply (heap_counted H); [done |]. intros a Ha. unfold registered in Ha. apply elem_of_dom in Ha as [c Hc].
    by destruct (pruned_lookup h r a c Hc).
  - assert (∀ G : gset addr, (∀ a, a ∈ G → frees H h a) →
      ∃ h' t3 n, run_collect (HW := heap_weak) h (candidate_addresses (pruned h r)) t2 0 = Some (h', t3, n) ∧
        collects H G h t2 h' t3 ∧ ∀ x, x ∈ candidate_addresses (pruned h r) → color t3 x ≠ White) as Hcol.
    { intros G HG. apply (run_collect_ok H h G HG). split_and!; [done | done |]. intros x _ c Hx. by exists c. }
    destruct (Hcol ∅) as (h' & t3 & n & Hrun & Hcl & Hnw); [set_solver |]. rewrite Hrun.
    pose proof Hcl as [Hh' _ _ Hbl _]. apply collects_alters in Hcl as Hal.
    assert (whites t2 = W) as HWt. { apply set_eq. intros x. unfold whites. rewrite elem_of_filter, Hreg, Hw. set_solver. }
    rewrite HWt in Hal. exists h'. eexists. exists W. split_and!; try done.
    + intros a c. fields_goal. intros Ha. assert (color t3 a = c) as Hca by (unfold color, candidate_color; by rewrite Ha).
      destruct Hbl as [Hr3 Hcx]. assert (a ∈ registered (pruned h r)) as Hin.
      { rewrite <-Hreg, <-Hr3. unfold registered. apply elem_of_dom. by exists c. }
      destruct (Hcx a) as [E|[_ E]]; [| congruence]. rewrite <-Hca. destruct (decide (a ∈ W)) as [HaW|HaW].
      * apply Hw in HaW. exfalso. apply (Hnw a); [by apply candidate_addresses_elem | congruence].
      * rewrite E. by apply Hb.
    + intros G HG x Hx HxW. destruct (Hcol G HG) as (h'' & t3' & n' & Hrun' & HclG & Hnw'). simplify_eq.
      apply (cl_freed _ _ _ _ _ _ HclG x Hx); [by apply Hw |]. apply Hnw', candidate_addresses_elem. by apply HWr.
Qed.

(** C18: a sweep is safe. Whatever the candidates and the order in which the
    registry lists them, it ends; the counts are exact afterwards; every cell
    that strong slots lead to from a handle of the program is still there with
    the same object in it, tombstones of demoted slots included; a tombstone
    reads as it did before, or as nothing if no strong slots led to the cell
    it remembers; and the candidates that are left are all black. *)
Theorem sweep_preserves_live H h r :
  heap_ok H h → settled r →
  ∃ h' r', run_sweep (HW := heap_weak) h r = Some (h', r') ∧ heap_ok H h' ∧ all_black r' ∧
    (∀ a, live H h a → is_Some (h !! a) ∧ c_object <$> h' !! a = c_object <$> h !! a) ∧
    (∀ w, upgrade h' w = upgrade h w ∨
       upgrade h' w = None ∧ ∃ b, heap_addr w = Some b ∧ ¬ live H h b).
Proof.
  intros Hh Hset. destruct (run_sweep_ok H h r Hh Hset) as (h' & r' & W & Hrun & Hh' & Hal & Hc & Hbl & _ & _).
  assert (∀ b, b ∈ W → ¬ live H h b) as HW by (intros b Hb; by apply (closed_group_dead H h W)).
  exists h', r'. split_and!; [done | done | done | |].
  - intros a Ha. destruct (live_kept H h h' W a Hh Hh' Hal HW Ha) as (c & c' & -> & -> & Ho).
    split; [done | cbn; by rewrite Ho].
  - intros w. by apply (upgrade_kept H h h' W).
Qed.

(** ** Black candidates *)

Lemma run_mark_black h roots t : (∀ a, color t a = Black) → run_mark (HW := heap_weak) h roots t = Some t.
Proof.
  intros Hb. induction roots as [|a roots IH]; [done |]. cbn [run_mark]. rewrite decide_False; [done |].
  rewrite Hb. done.
Qed.

Lemma run_scan_black h roots t : (∀ a, color t a = Black) → run_scan (HW := heap_weak) h roots t = Some t.
Proof.
  intros Hb. induction roots as [|a roots IH]; [done |]. cbn [run_scan]. rewrite decide_False; [done |].
  rewrite Hb. done.
Qed.

Lemma run_collect_black h roots t n :
  (∀ a, color t a = Black) → run_collect (HW := heap_weak) h roots t n = Some (h, t, n).
Proof.
  intros Hb. induction roots as [|a roots IH]; [done |]. cbn [run_collect]. rewrite decide_False; [done |].
  rewrite Hb. done.
Qed.

Lemma sweep_idle h r :
  all_black r → ∃ r', run_sweep (HW := heap_weak) h r = Some (h, r') ∧ all_black r'.
Proof.
  intros Hb. unfold run_sweep, trial_run. fold (pruned h r). cbn [td_registry].
  assert (all_black (pruned h r)) as Hbp. { intros a c [Ha _]%pruned_lookup. by apply (Hb a). }
  assert (∀ a, color (MkTrial (pruned h r) ∅) a = Black) as Hcol.
  { intros a. unfold color, candidate_color. cbn. destruct (rg_entries (pruned h r) !! a) eqn:E; [| done].
    by apply (Hbp a). }
  rewrite run_mark_black, run_scan_black, run_collect_black by done. eexists. split; [done |].
  intros a c. fields_goal. apply Hbp.
Qed.

Lemma register_again a r : is_Some (rg_entries r !! a) → rg_entries (register_cycle_candidate a r) = rg_entries r.
Proof. intros [c Hc]. unfold register_cycle_candidate. rewrite Hc. by case_decide. Qed.

Lemma register_list_again l r :
  (∀ a, a ∈ l → is_Some (rg_entries r !! a)) → rg_entries (foldr register_cycle_candidate r l) = rg_entries r.
Proof.
  induction l as [|a l IH]; intros Hl; [done |]. cbn [foldr]. rewrite register_again; rewrite IH; try done.
  - intros b Hb. apply Hl. by right.
  - apply Hl. left.
  - intros b Hb. apply Hl. by right.
Qed.

(** A candidate is looked at by one sweep only. After a sweep, no later
    sweep changes the heap, whatever the program has done to it since and
    however often the candidates that are still registered are registered
    again, so a cycle that was reachable at its first sweep is never
    collected. *)
Theorem swept_candidates_ignored H h r h1 r1 :
  heap_ok H h → settled r → run_sweep (HW := heap_weak) h r = Some (h1, r1) →
  ∀ h2 l, (∀ a, a ∈ l → is_Some (rg_entries r1 !! a)) →
  ∃ r2, run_sweep (HW := heap_weak) h2 (foldr register_cycle_candidate r1 l) = Some (h2, r2).
Proof.
  intros Hh Hset Hrun h2 l Hl.
  destruct (run_sweep_ok H h r Hh Hset) as (h' & r' & W & Hrun' & _ & _ & _ & Hbl & _ & _). simplify_eq.
  destruct (sweep_idle h2 (foldr register_cycle_candidate r1 l)) as (r2 & Hr2 & _); [| by exists r2].
  intros a c. rewrite register_list_again by done. apply Hbl.
Qed.

End sweep.

End heap.
