(* ===== verification/GcRing.v ===== *)
(** * Garbage rings are reclaimed

    The collector of [Trial] on the heap of [GcHeap] makes progress: a group
    of pairs that is linked by its cdr slots, that nothing outside refers to,
    from which no more cells can be reached than the cycle detector visits,
    and whose pairs are purple candidates of the next sweep is freed by that
    sweep, however many rings the group has and in whatever order they are
    swept. *)

From stdpp Require Import base numbers gmap sorting list relations.
From S2P Require Import Prelude Trial TrialFacts GcHeap GcFacts GcDetect GcSweep.

Local Open Scope crab_scope.

Section heap.
Context {L : Type}.

Notation Value := (Value L).
Notation Pair := (Pair L).
Notation Vector := (Vector L).
Notation Hashtable := (Hashtable L).
Notation Object := (Object L).
Notation Cell := (Cell L).
Notation Memory := (Memory L).
Notation Heap := (gmap addr Cell).

Implicit Types (h : Heap) (v w : Value) (p q : Pair).

(** ** Counting references *)

Lemma gsum_le f g X : (∀ x, x ∈ X → f x ≤ g x) → gsum f X ≤ gsum g X.
Proof.
  induction X as [|x X Hx IH] using set_ind_L; [done |]. intros Hfg. rewrite !gsum_insert by done.
  pose proof (Hfg x ltac:(set_solver)). assert (gsum f X ≤ gsum g X) by (apply IH; set_solver). lia.
Qed.

Lemma gsum_add f g X : gsum (λ x, f x + g x) X = gsum f X + gsum g X.
Proof. induction X as [|x X Hx IH] using set_ind_L; [done |]. rewrite !gsum_insert by done. lia. Qed.

Lemma gsum_swap (e : addr → addr → nat) X Y :
  gsum (λ x, gsum (e x) Y) X = gsum (λ y, gsum (λ x, e x y) X) Y.
Proof.
  induction X as [|x X Hx IH] using set_ind_L.
  - symmetry. by apply gsum_zero.
  - rewrite gsum_insert, IH, <-gsum_add by done. apply gsum_ext. intros y _. by rewrite gsum_insert.
Qed.

Lemma gsum_tight f g X : (∀ x, x ∈ X → f x ≤ g x) → gsum g X ≤ gsum f X → ∀ x, x ∈ X → f x = g x.
Proof.
  intros Hfg Hle x Hx. rewrite !(gsum_delete _ x X) in Hle by done. pose proof (Hfg x Hx).
  assert (gsum f (X ∖ {[x]}) ≤ gsum g (X ∖ {[x]})) by (apply gsum_le; set_solver). lia.
Qed.

Lemma gsum_one x X : gsum (λ y, if decide (y = x) then 1 else 0) X ≤ 1.
Proof.
  destruct (decide (x ∈ X)) as [Hx|Hx].
  - rewrite (gsum_delete _ x) by done. rewrite decide_True, gsum_zero; [done | | done].
    intros y Hy. rewrite decide_False; set_solver.
  - rewrite gsum_zero; [lia |]. intros y Hy. rewrite decide_False; [done |]. by intros ->.
Qed.

(** In a finite graph in which each node has an edge in and at most one edge
    out, each has exactly one of both. *)
Section graph.
Context (e : addr → addr → nat).

Lemma degrees_one A :
  (∀ x, x ∈ A → 1 ≤ gsum (λ b, e b x) A) → (∀ b, b ∈ A → gsum (e b) A ≤ 1) →
  (∀ x, x ∈ A → gsum (λ b, e b x) A = 1) ∧ (∀ b, b ∈ A → gsum (e b) A = 1).
Proof.
  intros Hin Hout. pose proof (gsum_le (λ _, 1) _ A Hin) as H1. pose proof (gsum_le _ (λ _, 1) A Hout) as H2.
  pose proof (gsum_swap e A A) as Hs. split; intros x Hx.
  - symmetry. apply (gsum_tight (λ _, 1) (λ x, gsum (λ b, e b x) A) A Hin); [lia | done].
  - apply (gsum_tight (λ b, gsum (e b) A) (λ _, 1) A Hout); [lia | done].
Qed.

(** A node comes back to itself: a closed set with its successor has it. *)
Lemma closed_returns A V a y :
  (∀ x, x ∈ A → gsum (λ b, e b x) A = 1) → (∀ b, b ∈ A → gsum (e b) A = 1) →
  V ⊆ A → (∀ b x, b ∈ V → x ∈ A → 0 < e b x → x ∈ V) → a ∈ A → y ∈ V → 0 < e a y → a ∈ V.
Proof.
  intros Hin Hout HV Hcl Ha Hy He. destruct (decide (a ∈ V)) as [?|Hn]; [done | exfalso].
  assert (∀ b, b ∈ V → gsum (e b) V = 1) as HoutV.
  { intros b Hb. rewrite <-(Hout b) by set_solver. rewrite (gsum_split (e b) V A HV).
    rewrite (gsum_zero _ (A ∖ V)); [lia |]. intros x [Hx Hxn]%elem_of_difference.
    destruct (e b x) eqn:E; [done |]. destruct Hxn. apply (Hcl b); [done | done | lia]. }
  assert (gsum (λ b, e b y) V = 1) as HyV.
  { apply (gsum_tight (λ x, gsum (λ b, e b x) V) (λ _, 1) V); [| | done].
    - intros x Hx. rewrite <-(Hin x) by set_solver. by apply gsum_mono.
    - rewrite <-(gsum_swap e V V). apply gsum_le. intros b Hb. by rewrite HoutV. }
  pose proof (gsum_mono (λ b, e b y) ({[a]} ∪ V) A ltac:(set_solver)) as Hle.
  rewrite gsum_insert, HyV, Hin in Hle by set_solver. lia.
Qed.

End graph.

Lemma inrefs_gsum h a : inrefs h a = gsum (λ b, occ a (children h b)) (dom h).
Proof.
  induction h as [|b c h Hb IH] using map_ind; [done |].
  rewrite inrefs_insert, delete_id by done. rewrite dom_insert_L, gsum_insert by (by apply not_elem_of_dom).
  unfold children at 1. rewrite lookup_insert_eq, IH. f_equal. apply gsum_ext. intros x Hx.
  unfold children. rewrite lookup_insert_ne; [done |]. intros ->. by apply not_elem_of_dom in Hb.
Qed.

Lemma shrinks_children h h' a : shrinks h h' → shrinks h' h → children h' a = children h a.
Proof.
  intros Hs Hs'. unfold children. destruct (h' !! a) as [c'|] eqn:Hc'.
  - destruct (Hs a c' Hc') as (c & -> & Ho). unfold cell_children. by rewrite Ho.
  - destruct (h !! a) as [c|] eqn:Hc; [| done]. destruct (Hs' a c Hc) as (c' & ? & _). congruence.
Qed.

Lemma occ_submseteq a l k : l ⊆+ k → occ a l ≤ occ a k.
Proof.
  intros Hs. apply submseteq_Permutation in Hs as [m ->]. rewrite occ_app. lia.
Qed.

(** A cdr slot that leads back to its pair is emptied. *)
Lemma break_cdr_empties limit H h a p b :
  heap_ok H h → pair_at h a = Some p → heap_addr (pr_cdr p) = Some b →
  value_reaches_container limit (clone_value (pr_cdr p) h) (pr_cdr p) a = true →
  ∃ h', break_cdr_cycle limit 0 a h = (h', true) ∧ ∀ x, x ∈ children h' a → heap_addr (pr_car p) = Some x.
Proof.
  intros Hh Hp Hb Hr. pose proof (pair_slot_present H h a p (pr_cdr p) Hh Hp ltac:(by right)) as Hv.
  unfold break_cdr_cycle. rewrite Hp, Hr.
  assert (heap_strong_count (clone_value (pr_cdr p) h) (pr_cdr p) = S <$> (c_strong <$> h !! b)) as ->.
  { unfold heap_strong_count, clone_value. rewrite Hb. unfold incref. rewrite lookup_alter_eq. by destruct (h !! b). }
  destruct (Hv b Hb) as [c Hc]. pose proof (Hh b) as Hcb. rewrite Hc in Hcb |- *. cbn.
  rewrite decide_False by lia. unfold weak_from_value. rewrite Hb. eexists. split; [done |].
  destruct (clone_value_ok H h (pr_cdr p) Hh Hv) as (Hc1 & _ & _).
  pose proof (clone_pair_at H h a p _ Hh Hv Hp) as Hp1.
  destruct (set_cdr_raw_ok _ _ a p (p <| pr_cdr_weak := Some (pr_cdr p) |>) VUnspecified Hc1 Hp1) as [H1 H2]; [done | done |].
  destruct (drop_value_ok _ _ _ H1) as [_ H3]. intros x Hx.
  pose proof (shrinks_fewer _ _ (transitivity H2 H3) a) as Hs. apply (elem_of_submseteq _ _ _ Hx) in Hs.
  pose proof Hp1 as (c1 & Hc1' & _)%pair_at_Some. revert Hs. unfold children, put_object.
  rewrite lookup_alter_eq, Hc1'. unfold cell_children, cycle_children. cbn. fields_goal. cbn.
  destruct (heap_addr (pr_car p)); [by intros ->%list_elem_of_singleton | by intros ?%elem_of_nil].
Qed.

(** ** Rings *)

Section ring.
Context (limit : nat).

Notation heap_weak := (Heap_any_weak limit).

(** Pairs whose cdr slots lead from one to the next, whose car slots hold
    values outside of the group, and to which nothing else refers.  What can
    be reached from them, through car slots too, is within the limit of the
    cycle detector. *)
Record garbage_rings (h : Heap) (G X : gset addr) : Prop := {
  gr_next a : a ∈ G → ∃ p b, pair_at h a = Some p ∧ heap_addr (pr_cdr p) = Some b ∧ b ∈ G ∧
    ∀ x, heap_addr (pr_car p) = Some x → x ∉ G;
  gr_closed : closed_group (HW := heap_weak) h G;
  gr_reach a x : a ∈ G → rtc (edge h) a x → x ∈ X;
  gr_size : size X ≤ limit;
}.

(** Nothing but the group refers to the group. *)
Lemma rings_unreferenced H h G X a :
  heap_ok H h → garbage_rings h G X → a ∈ G → occ a H = 0 ∧ ∀ b, b ∉ G → a ∉ children h b.
Proof.
  intros Hh HG Ha. pose proof (gr_closed _ _ _ HG a Ha) as Hc. cbn in Hc.
  assert (∀ Y, refs (HW := heap_weak) h Y a ≤ inrefs h a) as Hr by (intros Y; apply refs_inrefs).
  specialize (Hh a). pose proof (Hr G). split; [destruct (h !! a); cbn in Hc; lia |].
  intros b Hb Hin. pose proof (Hr ({[b]} ∪ G)) as Hle. rewrite refs_insert in Hle by done.
  change (upgrade_and_walk_children h b) with (children h b) in Hle. pose proof (occ_pos _ _ Hin).
  destruct (h !! a); cbn in Hc; lia.
Qed.

Section collected.
Context (H : list addr) (hb : Heap) (G X : gset addr).
Context (Hhb : heap_ok H hb) (HG : garbage_rings hb G X).

(** References from a cell of the group to the group. *)
Lemma ring_out h a : fewer hb h → a ∈ G → gsum (λ x, occ x (children h a)) G ≤ 1.
Proof.
  intros Hf Ha. destruct (gr_next _ _ _ HG a Ha) as (p & b & (c & Hc & Ho)%pair_at_Some & Hb & _ & Hcar).
  etrans; [| apply (gsum_one b G)]. apply gsum_le. intros x Hx. etrans; [apply (occ_submseteq x _ _ (Hf a)) |].
  unfold children, cell_children. rewrite Hc, Ho, pair_children. unfold value_addrs. rewrite Hb, occ_cons.
  destruct (heap_addr (pr_car p)) as [y|] eqn:Hy.
  - rewrite occ_cons, (decide_False (P := x = y)); [| intros ->; by apply (Hcar y)]. cbn. lia.
  - cbn. lia.
Qed.

(** The cells of the group that are left. *)
Definition remaining (h : Heap) : gset addr := filter (λ a, is_Some (h !! a)) G.

Lemma ring_in h a : heap_ok H h → fewer hb h → a ∈ remaining h →
  1 ≤ gsum (λ b, occ a (children h b)) (remaining h).
Proof.
  intros Hh Hf [[c Hc] Ha]%elem_of_filter. destruct (rings_unreferenced H hb G X a Hhb HG Ha) as [HaH Hout].
  pose proof (Hh a) as Hca. rewrite Hc, HaH, inrefs_gsum in Hca. destruct Hca as [Hpos Hs].
  assert (remaining h ⊆ dom h) as Hsub.
  { intros x [Hx _]%elem_of_filter. by apply elem_of_dom. }
  rewrite (gsum_split _ _ _ Hsub), (gsum_zero _ (dom h ∖ remaining h)) in Hs; [lia |].
  intros b [Hb Hbr]%elem_of_difference. apply occ_zero. intros Hin. apply (Hout b).
  - intros HbG. apply Hbr, elem_of_filter. split; [by apply elem_of_dom | done].
  - by eapply elem_of_submseteq.
Qed.

Lemma remaining_degrees h : heap_ok H h → fewer hb h →
  (∀ x, x ∈ remaining h → gsum (λ b, occ x (children h b)) (remaining h) = 1) ∧
  (∀ b, b ∈ remaining h → gsum (λ x, occ x (children h b)) (remaining h) = 1).
Proof.
  intros Hh Hf. apply (degrees_one (λ b x, occ x (children h b))).
  - intros x Hx. by apply ring_in.
  - intros b [_ Hb]%elem_of_filter. etrans; [| by apply (ring_out h b)]. apply gsum_mono.
    intros x [_ Hx]%elem_of_filter. done.
Qed.

Lemma ring_pair h a :
  intact hb h a → a ∈ remaining h →
  ∃ p b, pair_at h a = Some p ∧ heap_addr (pr_cdr p) = Some b ∧ b ∈ G ∧ ∀ x, heap_addr (pr_car p) = Some x → x ∉ G.
Proof.
  intros Hi [[c Hc] Ha]%elem_of_filter. destruct (Hi c Hc) as (c0 & Hc0 & Ho).
  destruct (gr_next _ _ _ HG a Ha) as (p & b & (c1 & Hc1 & Ho1)%pair_at_Some & Hb). exists p, b. split; [| done].
  apply pair_at_Some. exists c. split; [done |]. congruence.
Qed.

(** From its cdr the cell is reached again, and the detector finds it. *)
Lemma ring_reached h h2 a p b :
  heap_ok H h → fewer hb h → a ∈ remaining h →
  pair_at h a = Some p → heap_addr (pr_cdr p) = Some b → b ∈ G → (∀ x, children h2 x = children h x) →
  value_reaches_container limit h2 (pr_cdr p) a = true.
Proof.
  intros Hh Hf Ha Hp Hb HbG H2. unfold value_reaches_container. apply orb_true_iff. right.
  destruct (reaches_visits h2 limit (pr_cdr p) a b Hb) as (ctx & -> & Hv).
  destruct (cv_found ctx) eqn:Hfd; [done | exfalso].
  destruct (search_failed h2 limit a ctx [b] X Hv) as (V & HaV & HbV & Hcl); [| by apply HG | done |].
  { intros y x ->%list_elem_of_singleton Hr. apply (gr_reach _ _ _ HG b x HbG). revert x Hr.
    refine (rtc_ind_r (λ x, rtc (edge hb) b x) b _ _); [done |]. intros x y _ Hxy%edge_children Hr.
    eapply rtc_r; [done |]. apply edge_children. rewrite H2 in Hxy. by eapply elem_of_submseteq. }
  destruct (remaining_degrees h Hh Hf) as [Hin Hout].
  assert (b ∈ children h a) as Hba.
  { pose proof Hp as (c & Hc & Ho)%pair_at_Some. unfold children, cell_children. rewrite Hc, Ho.
    unfold cycle_children. cbn. rewrite Hb. destruct (heap_addr (pr_car p)); [right |]; left. }
  assert (b ∈ remaining h) as Hbr.
  { apply elem_of_filter. split; [| done]. pose proof Hp as (c & Hc & Ho)%pair_at_Some.
    apply (heap_ok_child H h a c b Hh Hc). unfold children in Hba. by rewrite Hc in Hba. }
  assert (a ∈ V ∩ remaining h) as HaV'; [| set_solver].
  apply (closed_returns (λ b x, occ x (children h b)) (remaining h) _ a b Hin Hout);
    [set_solver | | done | set_solver | by apply occ_pos].
  intros x y [Hx _]%elem_of_intersection Hy Ho. apply elem_of_intersection. split; [| done].
  apply (Hcl x y Hx). rewrite H2. destruct (decide (y ∈ children h x)) as [?|Hn]; [done |].
  rewrite (occ_zero _ _ Hn) in Ho. lia.
Qed.

(** Once its cdr is empty, the cell is gone. *)
Lemma ring_emptied h a : heap_ok H h → fewer hb h → a ∈ G → (∀ x, x ∈ G → x ∉ children h a) → h !! a = None.
Proof.
  intros Hh Hf Ha Hn. destruct (h !! a) as [c|] eqn:Hc; [exfalso | done].
  destruct (remaining_degrees h Hh Hf) as [_ Hout]. specialize (Hout a).
  rewrite gsum_zero in Hout; [discriminate Hout; apply elem_of_filter; split; [by exists c | done] |].
  intros x [_ Hx]%elem_of_filter. by apply occ_zero, Hn.
Qed.

Lemma ring_frees a : a ∈ G → frees limit H hb a.
Proof.
  intros Ha h Hh Hf Hi. cbn [upgrade_and_try_break Heap_any_weak]. destruct (h !! a) as [c|] eqn:Hc; [| done].
  destruct (try_break_ok limit H h a Hh) as [Hok [_ Hfew]]. cbn [upgrade_and_try_break Heap_any_weak] in Hok, Hfew.
  rewrite Hc in Hok, Hfew. assert (a ∈ remaining h) as Har by (apply elem_of_filter; split; [by exists c | done]).
  destruct (ring_pair h a Hi Har) as (p & b & Hp & Hb & HbG & Hcar).
  assert (c_object c = OPair p) as Ho by (apply pair_at_Some in Hp as (c' & ? & ?); congruence).
  pose proof (incref_ok H h a Hh ltac:(by exists c)) as Hi1. destruct (incref_shrinks h a) as [Hs1 Hs1'].
  assert (pair_at (incref a h) a = Some p) as Hp1.
  { apply (pair_at_shrinks h); [done | by apply (heap_ok_handle H) | done]. }
  pose proof (pair_slot_present _ _ a p (pr_cdr p) Hi1 Hp1 ltac:(by right)) as Hv.
  destruct (clone_value_ok _ _ (pr_cdr p) Hi1 Hv) as (_ & Hs2 & Hs2').
  destruct (break_cdr_empties limit (a :: H) (incref a h) a p b Hi1 Hp1 Hb) as (h' & Hbr & Hch).
  { apply (ring_reached h _ a p b); try done. intros x. apply shrinks_children; by etrans. }
  unfold try_break_cycle in *. rewrite Ho, Hbr in *. cbn [fst] in *.
  apply ring_emptied; [done | by etrans | done |]. intros x Hx Hin. apply (Hcar x); [| done]. apply Hch.
  destruct (break_cdr_ok limit 0 (a :: H) _ a Hi1) as [Hk _]. rewrite Hbr in Hk.
  destruct (release_ok H h' a Hk) as [_ Hs3]. by apply (elem_of_submseteq _ _ _ Hin), shrinks_fewer.
Qed.

End collected.

(** C19: garbage is reclaimed. Take a group of pairs each of whose cdr slots
    leads to a pair of the group, none of whose car slots does, and to which
    only the group refers, such that what can be reached from the group, car
    slots included, is at most the detector's limit of cells (above it the
    detector gives up, and the group may leak). When its pairs are purple
    candidates, and whatever else is registered or held, the next sweep ends,
    keeps the counts exact and frees every pair of the group. *)
Theorem garbage_rings_reclaimed `{HO : KeyOrder} H h r G X :
  heap_ok H h → settled r → garbage_rings h G X → (∀ a, a ∈ G → rg_entries r !! a = Some Purple) →
  ∃ h' r', run_sweep (HW := heap_weak) h r = Some (h', r') ∧ heap_ok H h' ∧ ∀ a, a ∈ G → h' !! a = None.
Proof.
  intros Hh Hset HG Hr.
  destruct (run_sweep_ok limit H h r Hh Hset) as (h' & r' & W & Hrun & Hh' & _ & _ & _ & Hmax & Hfree).
  exists h', r'. split_and!; [done | done |]. intros a Ha. apply (Hfree G); [| done |].
  - intros b Hb. by apply (ring_frees H h G X).
  - apply (Hmax G); [by apply HG | | done]. intros x Hx. exists x. split; [| done].
    apply map_lookup_filter_Some. split; [by apply Hr |].
    destruct (gr_next _ _ _ HG x Hx) as (p & b & (c & Hc & _)%pair_at_Some & _).
    unfold upgradable. apply bool_decide_eq_true. cbn. rewrite Hc. cbn. specialize (Hh x). rewrite Hc in Hh. lia.
Qed.

End ring.

End heap.
