(* ===== verification/GcExample.v ===== *)
(** * The collector at work

    Concrete heaps: the theorems about the collector applied to them, and a
    run on which the cycle detector costs the program a value. *)

From stdpp Require Import base numbers gmap sorting list relations.
From S2P Require Import Prelude Trial TrialFacts GcHeap GcFacts GcMutate GcDetect GcSweep GcRing.

Local Open Scope crab_scope.
Local Open Scope N_scope.

(** A key order: that of the finite map. *)
#[export] Instance map_order : KeyOrder := {|
  key_order m := (map_to_list m).*1;
  key_order_perm m := reflexivity _;
|}.

(** ** Checking a heap *)

Section check.
Context {L : Type}.

#[local] Notation Heap := (gmap addr (GcHeap.Cell L)).

(** The addresses that occur anywhere. *)
Definition mentioned (H : list addr) (h : Heap) : list addr :=
  H ++ (map_to_list h ≫= λ kc, kc.1 :: cell_children kc.2).

Definition cell_ok (H : list addr) (h : Heap) (a : addr) : bool :=
  match h !! a with
  | Some c => bool_decide (0 < c_strong c)%nat && bool_decide (c_strong c = occ a H + inrefs h a)%nat
  | None => bool_decide (occ a H = 0%nat) && bool_decide (inrefs h a = 0%nat)
  end.

Lemma inrefs_unmentioned H h a : a ∉ mentioned H h → inrefs h a = 0%nat.
Proof.
  unfold mentioned, inrefs. rewrite not_elem_of_app. intros [_ Hn].
  induction (map_to_list h) as [|[k c] l IH]; [done |]. rewrite bind_cons, not_elem_of_app in Hn.
  destruct Hn as [Hk Hl]. cbn. rewrite IH, occ_zero; [done | | done]. intros Ha. apply Hk. by right.
Qed.

Lemma heap_ok_check H h : forallb (cell_ok H h) (mentioned H h) = true → heap_ok H h.
Proof.
  intros Hall a. destruct (decide (a ∈ mentioned H h)) as [Ha|Ha].
  - rewrite forallb_forall in Hall. specialize (Hall a (proj1 (list_elem_of_In _ _) Ha)). unfold cell_ok in Hall.
    destruct (h !! a); apply andb_true_iff in Hall as [H1%bool_decide_eq_true H2%bool_decide_eq_true]; done.
  - rewrite (inrefs_unmentioned H h a Ha). unfold mentioned in Ha. apply not_elem_of_app in Ha as [HH Hh].
    rewrite occ_zero by done. destruct (h !! a) as [c|] eqn:Hc; [| done]. exfalso. apply Hh.
    apply list_elem_of_bind. exists (a, c). split; [left | by apply elem_of_map_to_list].
Qed.

End check.

(** The leaves are numbers. *)
#[local] Notation Value := (Value N).
#[local] Notation Cell := (Cell N).
#[local] Notation Memory := (Memory N).
#[local] Notation Heap := (gmap addr Cell).

(** ** A sweep *)

Definition cons_cell (strong : nat) (v w : Value) : Cell := MkCell strong (pair_new v w).

(** A ring of three pairs that nothing refers to, and a pair held by the
    program that is its own cdr. *)
Definition rings : Heap := {[
  1 := cons_cell 1 (VLeaf 10) (VPair 2);
  2 := cons_cell 1 (VLeaf 20) (VPair 3);
  3 := cons_cell 1 (VLeaf 30) (VPair 1);
  4 := cons_cell 2 (VLeaf 40) (VPair 4) ]}.

Definition rings_registry : Registry := foldr register_cycle_candidate registry_new [1; 2; 3; 4].

Lemma rings_ok : heap_ok [4] rings.
Proof. apply heap_ok_check. by vm_compute. Qed.

Lemma settled_check r :
  forallb (λ ac : addr * Color, bool_decide (ac.2 = Black) || bool_decide (ac.2 = Purple))
    (map_to_list (rg_entries r)) = true → settled r.
Proof.
  intros Hall a c Hc. rewrite forallb_forall in Hall.
  specialize (Hall (a, c) (proj1 (list_elem_of_In _ _) (proj2 (elem_of_map_to_list _ _ _) Hc))). cbn in Hall.
  apply orb_true_iff in Hall as [H%bool_decide_eq_true|H%bool_decide_eq_true]; auto.
Qed.

Lemma rings_settled : settled rings_registry.
Proof. apply settled_check. by vm_compute. Qed.

Lemma sweep_preserves_live_witness :
  (∃ h' r', run_sweep (HW := Heap_any_weak 100) rings rings_registry = Some (h', r') ∧ heap_ok [4] h' ∧ all_black r' ∧
     (∀ a, live [4] rings a → is_Some (rings !! a) ∧ c_object <$> h' !! a = c_object <$> rings !! a) ∧
     (∀ w, upgrade h' w = upgrade rings w ∨
        upgrade h' w = None ∧ ∃ b, heap_addr w = Some b ∧ ¬ live [4] rings b)) ∧
  (elements ∘ dom ∘ fst <$> run_sweep (HW := Heap_any_weak 100) rings rings_registry) = Some [4].
Proof.
  split; [| by vm_compute]. exact (sweep_preserves_live 100 [4] rings rings_registry rings_ok rings_settled).
Defined.

Lemma trial_deletion_exact_witness :
  ∃ t1 t2 W, run_mark (HW := Heap_any_weak 100) rings (candidate_addresses rings_registry) (MkTrial rings_registry ∅) = Some t1 ∧
    run_scan (HW := Heap_any_weak 100) rings (candidate_addresses rings_registry) t1 = Some t2 ∧
    (∀ x, color t2 x = if decide (x ∈ W) then White else Black) ∧ closed_group (HW := Heap_any_weak 100) rings W ∧
    (∀ x, x ∈ W → suspect (HW := Heap_any_weak 100) rings rings_registry x) ∧
    ∀ X, closed_group (HW := Heap_any_weak 100) rings X →
      (∀ x, x ∈ X → suspect (HW := Heap_any_weak 100) rings rings_registry x) → X ⊆ W.
Proof.
  apply (trial_deletion_exact (HW := Heap_any_weak 100) rings rings_registry rings_settled).
  apply (heap_counted 100 [4] rings rings_registry rings_ok). intros a Ha.
  assert (registered rings_registry = {[1; 2; 3; 4]}) as E by (vm_compute; done). rewrite E in Ha.
  repeat (apply elem_of_union in Ha as [Ha|Ha]); apply elem_of_singleton in Ha as ->; eexists; vm_compute; done.
Defined.

(** The pair that is its own cdr is not collected, nor is it ever after. *)
Lemma swept_candidates_ignored_witness :
  ∃ h1 r1, run_sweep (HW := Heap_any_weak 100) rings rings_registry = Some (h1, r1) ∧
    ∃ r2, run_sweep (HW := Heap_any_weak 100) (release 4 h1) (foldr register_cycle_candidate r1 [4]) = Some (release 4 h1, r2).
Proof.
  destruct (run_sweep (HW := Heap_any_weak 100) rings rings_registry) as [[h1 r1]|] eqn:E; [| by vm_compute in E].
  exists h1, r1. split; [done |].
  apply (swept_candidates_ignored 100 [4] rings rings_registry h1 r1 rings_ok rings_settled E).
  intros a ->%list_elem_of_singleton. vm_compute in E. injection E as _ <-. by eexists.
Defined.

(** The cells of the ring reach one another, and no others. *)
Lemma rings_reach a x : a ∈ ({[1; 2; 3]} : gset addr) → rtc (edge rings) a x → x ∈ ({[1; 2; 3]} : gset addr).
Proof.
  intros Ha Hr. induction Hr as [|x y z Hxy _ IH]; [done |]. apply IH. clear IH.
  apply edge_children in Hxy.
  repeat (apply elem_of_union in Ha as [Ha|Ha]); apply elem_of_singleton in Ha as ->;
    vm_compute in Hxy; apply list_elem_of_singleton in Hxy as ->; set_solver.
Qed.

Lemma cycle_detection_correct_witness :
  (cycle_check 100 rings 1 = true ↔ tc (edge rings) 1 1) ∧
  (value_reaches_container 100 rings (VPair 2) 1 = true ↔ ∃ b, heap_addr (VPair 2 : Value) = Some b ∧ rtc (edge rings) b 1).
Proof.
  apply (cycle_detection_correct rings 100 1 (VPair 2) {[1; 2; 3]}); [| vm_compute; lia].
  intros b x Hb. apply rings_reach. cbn in Hb. apply elem_of_cons in Hb as [->| ->%list_elem_of_singleton]; set_solver.
Defined.

Lemma garbage_rings_reclaimed_witness :
  ∃ h' r', run_sweep (HW := Heap_any_weak 100) rings rings_registry = Some (h', r') ∧ heap_ok [4] h' ∧
    ∀ a, a ∈ ({[1; 2; 3]} : gset addr) → h' !! a = None.
Proof.
  assert (∀ P : addr → Prop, P 1 → P 2 → P 3 → ∀ a, a ∈ ({[1; 2; 3]} : gset addr) → P a) as Hcase.
  { intros P H1 H2 H3 a Ha. repeat (apply elem_of_union in Ha as [Ha|Ha]); by apply elem_of_singleton in Ha as ->. }
  apply (garbage_rings_reclaimed 100 [4] rings rings_registry {[1; 2; 3]} {[1; 2; 3]} rings_ok rings_settled).
  - split.
    + apply Hcase; do 2 eexists; (split_and!; [by vm_compute | done | set_solver | done]).
    + refine (Hcase (λ a, _) _ _ _); vm_compute; lia.
    + apply rings_reach.
    + vm_compute. lia.
  - by apply Hcase; vm_compute.
Defined.

(** ** A value that is lost *)

(** The pair 1 is held by a variable and is an argument of a call; the pair 2,
    whose cdr is 1, is an argument too and has three more holders. *)
Definition call_handles : list addr := [1; 1; 2; 2; 2; 2].

Definition before_call : Memory := MkMemory {[
  1 := cons_cell 3 (VLeaf 10) VNull;
  2 := cons_cell 4 (VLeaf 20) (VPair 1) ]} registry_new 0 0.

Lemma before_call_ok : heap_ok call_handles (m_heap before_call).
Proof. apply heap_ok_check. by vm_compute. Qed.

Lemma set_pair_reads_back_witness :
  (∃ m' q, b_set_car 100 [VPair 1; VPair 2] before_call = (inr VUnspecified, m') ∧ heap_ok call_handles (m_heap m') ∧
     alters {[1]} (m_heap before_call) (m_heap m') ∧ pair_at (m_heap m') 1 = Some q ∧
     car (m_heap m') q = VPair 2 ∧ pr_cdr q = VNull ∧ pr_cdr_weak q = None) ∧
  (∃ m' q, b_set_cdr 100 [VPair 1; VPair 2] before_call = (inr VUnspecified, m') ∧ heap_ok call_handles (m_heap m') ∧
     alters {[1]} (m_heap before_call) (m_heap m') ∧ pair_at (m_heap m') 1 = Some q ∧
     cdr (m_heap m') q = VPair 2 ∧ pr_car q = VLeaf 10 ∧ pr_car_weak q = None).
Proof.
  apply (set_pair_reads_back 100 call_handles before_call 1 (VPair 2) (MkPair (VLeaf 10) VNull None None));
    [apply before_call_ok | left | | by vm_compute].
  intros b [= <-]. do 2 right. left.
Defined.

(** A pair that the program holds loses its cdr. After [(set-cdr! x y)]
    closes a cycle the slot is demoted, since the cell of [y] has other
    holders; it reads back [y]. When the call has returned and those holders
    are gone, the program still holds [x], every count is exact, no one has
    assigned to [x] again, and its cdr reads as unspecified. *)
Theorem demoted_value_lost :
  ∃ m q h p, b_set_cdr 100 [VPair 1; VPair 2] before_call = (inr VUnspecified, m) ∧
    pair_at (m_heap m) 1 = Some q ∧ cdr (m_heap m) q = VPair 2 ∧
    h = foldl (λ h a, release a h) (m_heap m) [1; 2; 2; 2; 2] ∧ heap_ok [1] h ∧
    pair_at h 1 = Some p ∧ cdr h p = VUnspecified.
Proof.
  do 4 eexists. split_and!; [by vm_compute | by vm_compute | by vm_compute | done | | by vm_compute | by vm_compute].
  apply heap_ok_check. by vm_compute.
Qed.
