(* ===== verification/Equal.v ===== *)
(** * Equality and hashing of values

    [crates/cs-core/src/eq.rs]: the predicates [eq?], [eqv?] and [equal?] over
    the heap of [GcHeap], and the hash functions of the built-in hashtables.
    The leaves of the heap are the immediates and the numbers of the tower.

    [std]'s default hasher is a function of the bytes written to it, the class
    [DefaultHasher].  [equal?] recurses without bound on a vector that contains
    itself; its definition takes a number of steps, [equal_steps], and
    [EqualFacts] shows that they are enough when there is no such vector. *)

From stdpp Require Import base numbers gmap sorting list.
From Stdlib Require Import ZArith Strings.Byte.
From S2P Require Import Prelude RaftTypes Float64 BigNum Number Trial GcHeap.

Local Open Scope crab_scope.
Local Open Scope N_scope.

(** The values of [enum Value] that have no cell. *)
Inductive Leaf (B R : Type) :=
  | Eof
  | Boolean (b : bool)
  | Character (c : N)
  | Symbol (s : N)
  | Identifier (name mark : N)
  | Numeric (n : Number B R).

Arguments Eof {B R}.
Arguments Boolean {B R} b.
Arguments Character {B R} c.
Arguments Symbol {B R} s.
Arguments Identifier {B R} name mark.
Arguments Numeric {B R} n.

(** [std::hash::DefaultHasher::finish], by what was written. *)
Class DefaultHasher := default_hash : bytes → N.

(** What [Hash::hash] writes for a [u8], a [u64] and a [str]. *)
Fixpoint ne_bytes (k : nat) (v : N) : bytes :=
  match k with
  | O => []
  | S k => byte_of v :: ne_bytes k (v / 256)
  end.

Definition write_u8 (v : N) : bytes := [byte_of v].
Definition write_u64 (v : N) : bytes := ne_bytes 8 v.
Definition write_str (s : bytes) : bytes := s ++ [byte_of 255].
Definition write_slice (s : bytes) : bytes := write_u64 (N.of_nat (length s)) ++ s.

(** [z as u64] and [u64::wrapping_add], [wrapping_mul]. *)
Definition as_u64 (z : Z) : N := Z.to_N (z mod 2 ^ 64).
Definition wrapping_add (x y : N) : N := (x + y) mod 2 ^ 64.
Definition wrapping_mul (x y : N) : N := (x * y) mod 2 ^ 64.

Section equal.
Context {B R : Type} `{BigInt B} `{BigRational R B} `{DefaultHasher}.

Notation num := (Number B R).
Notation Value := (Value (Leaf B R)).
Notation Heap := (gmap addr (Cell (Leaf B R))).

Definition as_number (v : Value) : option num :=
  match v with VLeaf (Numeric n) => Some n | _ => None end.

Definition is_truthy (v : Value) : bool :=
  match v with VLeaf (Boolean false) => false | _ => true end.

(** ** [eq?] and [eqv?] *)

Definition eq (a b : Value) : bool :=
  match a, b with
  | VNull, VNull => true
  | VUnspecified, VUnspecified => true
  | VLeaf Eof, VLeaf Eof => true
  | VLeaf (Boolean x), VLeaf (Boolean y) => bool_decide (x = y)
  | VLeaf (Character x), VLeaf (Character y) => bool_decide (x = y)
  | VLeaf (Symbol x), VLeaf (Symbol y) => bool_decide (x = y)
  | VLeaf (Identifier n1 m1), VLeaf (Identifier n2 m2) => bool_decide (n1 = n2) && bool_decide (m1 = m2)
  | VLeaf (Numeric (Fixnum x)), VLeaf (Numeric (Fixnum y)) => bool_decide (x = y)
  | VString x, VString y => bool_decide (x = y)
  | VPair x, VPair y => bool_decide (x = y)
  | VVector x, VVector y => bool_decide (x = y)
  | VByteVector x, VByteVector y => bool_decide (x = y)
  | VHashtable x, VHashtable y => bool_decide (x = y)
  | VPort x, VPort y => bool_decide (x = y)
  | VPromise x, VPromise y => bool_decide (x = y)
  | _, _ => false
  end.

Definition eqv (a b : Value) : bool :=
  match as_number a, as_number b with
  | Some x, Some y => Bool.eqb (is_exact x) (is_exact y) && bool_decide (eq_value x y = Some true)
  | _, _ => eq a b
  end.

(** ** [equal?] *)

Definition string_at (h : Heap) (a : addr) : option bytes :=
  match c_object <$> h !! a with Some (OString s) => Some s | _ => None end.

Definition bytevector_at (h : Heap) (a : addr) : option bytes :=
  match c_object <$> h !! a with Some (OByteVector s) => Some s | _ => None end.

Definition Visited := gset (addr * addr).

(** [Iterator::all] over the zipped slots. *)
Fixpoint all_slots (f : Value → Value → Visited → option (bool * Visited)) (l k : list Value)
    (visited : Visited) : option (bool * Visited) :=
  match l, k with
  | a :: l, b :: k =>
      match f a b visited with
      | Some (true, visited) => all_slots f l k visited
      | r => r
      end
  | _, _ => Some (true, visited)
  end.

Fixpoint equal_rec (steps : nat) (h : Heap) (a b : Value) (visited : Visited) (fuel : nat) :
    option (bool * Visited) :=
  match steps with
  | O => None
  | S steps =>
      if eqv a b then Some (true, visited)
      else
        match a, b with
        | VString x, VString y => Some (bool_decide (string_at h x = string_at h y), visited)
        | VPair x, VPair y =>
            match pair_at h x, pair_at h y with
            | Some p, Some q =>
                if decide (fuel = 0%nat ∧ (x, y) ∈ visited) then Some (true, visited)
                else
                  let visited := if decide (fuel = 0%nat) then {[(x, y)]} ∪ visited else visited in
                  match equal_rec steps h (car h p) (car h q) visited (fuel - 1) with
                  | Some (true, visited) => equal_rec steps h (cdr h p) (cdr h q) visited (fuel - 1)
                  | r => r
                  end
            | _, _ => Some (false, visited)
            end
        | VVector x, VVector y =>
            match vector_at h x, vector_at h y with
            | Some v, Some w =>
                if decide (length (vc_items v) = length (vc_items w)) then
                  all_slots (λ a b visited, equal_rec steps h a b visited (fuel - 1)) (vc_items v) (vc_items w) visited
                else Some (false, visited)
            | _, _ => Some (false, visited)
            end
        | VByteVector x, VByteVector y => Some (bool_decide (bytevector_at h x = bytevector_at h y), visited)
        | _, _ => Some (false, visited)
        end
  end.

(** Each pair takes one unit of the fuel or adds one of the pairs of cells to
    the visited set, and between two pairs lie only vectors, each once. *)
Definition equal_steps (h : Heap) : nat :=
  let n := size h in (S (64 + n * n) * (n + 2))%nat.

Definition equal (h : Heap) (a b : Value) : option bool :=
  fst <$> equal_rec (equal_steps h) h a b ∅ 64.

(** ** Hashing *)

Definition hash_eq (v : Value) : N :=
  match v with
  | VNull => 0x1
  | VUnspecified => 0x2
  | VLeaf Eof => 0x3
  | VLeaf (Boolean b) => if b then 0x11 else 0x10
  | VLeaf (Character c) => wrapping_add 0x100 c
  | VLeaf (Symbol s) => wrapping_add 0x200 s
  | VLeaf (Identifier name mark) =>
      wrapping_add (wrapping_add 0x300 name) (wrapping_mul mark 0x9E3779B97F4A7C15)
  | VLeaf (Numeric (Fixnum n)) => wrapping_add 0x400 (as_u64 n)
  | VLeaf (Numeric _) => 0x4FF
  | VString a => wrapping_add 0x500 a
  | VPair a => wrapping_add 0x600 a
  | VVector a => wrapping_add 0x700 a
  | VByteVector a => wrapping_add 0x800 a
  | VHashtable a => wrapping_add 0xA00 a
  | VPort a => wrapping_add 0xB00 a
  | VPromise a => wrapping_add 0xC00 a
  end.

(** What [hash_number] writes to its hasher. *)
Definition number_digest (n : num) : bytes :=
  match n with
  | Fixnum i => write_u8 0 ++ write_u64 (as_u64 i)
  | Flonum f => write_u8 1 ++ write_u64 (f64_to_bits f)
  | Big b => write_u8 2 ++ write_str (big_to_string b)
  | Rat r => write_u8 3 ++ write_str (rat_to_string r)
  end.

Definition hash_number (n : num) : N := default_hash (number_digest n).

Definition hash_eqv (v : Value) : N :=
  match as_number v with Some n => hash_number n | None => hash_eq v end.

Fixpoint hash_equal (depth : nat) (h : Heap) (v : Value) : N :=
  match depth with
  | O => 0xD
  | S depth =>
      match v with
      | VString a => default_hash (write_u8 10 ++ write_str (default [] (string_at h a)))
      | VPair a =>
          match pair_at h a with
          | Some p =>
              default_hash (write_u8 11 ++ write_u64 (hash_equal depth h (car h p)) ++
                write_u64 (hash_equal depth h (cdr h p)))
          | None => 0
          end
      | VVector a =>
          match vector_at h a with
          | Some v =>
              default_hash (write_u8 12 ++ write_u64 (N.of_nat (length (vc_items v))) ++
                mjoin ((λ x, write_u64 (hash_equal depth h x)) <$> vc_items v))
          | None => 0
          end
      | VByteVector a => default_hash (write_u8 13 ++ write_slice (default [] (bytevector_at h a)))
      | _ => hash_eqv v
      end
  end.

(** [hash_value] and [ht_eq] of the built-in kinds. *)
Definition hash_value (h : Heap) (v : Value) (kind : HtEqKind) : option N :=
  match kind with
  | EqKind => Some (hash_eq v)
  | EqvKind => Some (hash_eqv v)
  | EqualKind => Some (hash_equal 16 h v)
  | CustomKind => None
  end.

Definition ht_eq (kind : HtEqKind) (h : Heap) (a b : Value) : option bool :=
  match kind with
  | EqKind => Some (eq a b)
  | EqvKind => Some (eqv a b)
  | EqualKind => equal h a b
  | CustomKind => None
  end.

End equal.
