(* ===== verification/EqualFacts.v ===== *)
(** * [equal?] is structural equality, and hashing respects it

    [equal?] of [Equal] ends on every heap without a vector that contains
    itself through vectors only, and decides whether two values unfold to the
    same tree, cycles through pairs included.  Keys that a built-in hashtable
    takes to be the same have the same hash, for numbers in canonical form and
    other than negative zero. *)

From stdpp Require Import base numbers gmap fin_maps fin_sets sorting list relations.
From Stdlib Require Import ZArith QArith Strings.Byte Floats.SpecFloat.
From S2P Require Import Prelude RaftTypes Float64 BigNum Number NumberFacts Trial GcHeap GcFacts Equal.

Local Open Scope crab_scope.
Local Open Scope nat_scope.

Section facts.
Context {B R : Type} `{HB : BigInt B} `{HR : BigRational R B} `{HD : DefaultHasher}.

Notation Value := (Value (Leaf B R)).
Notation Heap := (gmap addr (Cell (Leaf B R))).

Section heap.
Context (h : Heap).

(** ** Unfolding *)

(** The values agree down to depth [d]. *)
Fixpoint upto (d : nat) (a b : Value) : Prop :=
  match d with
  | O => True
  | S d =>
      eqv a b = true ∨
      match a, b with
      | VString x, VString y => string_at h x = string_at h y
      | VPair x, VPair y => ∃ p q, pair_at h x = Some p ∧ pair_at h y = Some q ∧
          upto d (car h p) (car h q) ∧ upto d (cdr h p) (cdr h q)
      | VVector x, VVector y => ∃ v w, vector_at h x = Some v ∧ vector_at h y = Some w ∧
          Forall2 (upto d) (vc_items v) (vc_items w)
      | VByteVector x, VByteVector y => bytevector_at h x = bytevector_at h y
      | _, _ => False
      end
  end.

(** Two values are the same tree. *)
Definition same_tree (a b : Value) : Prop := ∀ d, upto d a b.

Lemma upto_mono d a b : upto (S d) a b → upto d a b.
Proof.
  revert a b. induction d as [|d IH]; intros a b; [done |]. intros [He|Hs]; [by left | right].
  destruct a, b; try done.
  - destruct Hs as (p & q & Hp & Hq & H1 & H2). exists p, q. auto.
  - destruct Hs as (v & w & Hv & Hw & H1). exists v, w. split_and!; [done | done |].
    eapply Forall2_impl; [exact H1 | apply IH].
Qed.

(** ** Soundness *)

Definition good (d : nat) (V : Visited) : Prop := ∀ x y, (x, y) ∈ V → upto d (VPair x) (VPair y).

(** What a comparison that succeeds shows: [Q] at depth [d], and the pairs it
    has added at the next, when all the visited pairs agree to depth [d]. *)
Definition shows (V0 V1 : Visited) (Q : nat → Prop) : Prop :=
  V0 ⊆ V1 ∧ ∀ d, good d V1 → Q d ∧ ∀ x y, (x, y) ∈ V1 → (x, y) ∉ V0 → upto (S d) (VPair x) (VPair y).

Lemma shows_now V (Q : nat → Prop) : (∀ d, good d V → Q d) → shows V V Q.
Proof. intros HQ. split; [done |]. intros d Hg. split; [by apply HQ | done]. Qed.

Lemma shows_trans V0 V1 V2 (Q1 Q2 : nat → Prop) :
  shows V0 V1 Q1 → shows V1 V2 Q2 → shows V0 V2 (λ d, Q1 d ∧ Q2 d).
Proof.
  intros [Hs1 H1] [Hs2 H2]. split; [by etrans |]. intros d Hg.
  destruct (H2 d Hg) as [HQ2 Hn2]. destruct (H1 d) as [HQ1 Hn1].
  { intros x y Hxy. apply Hg. by apply Hs2. }
  split; [done |]. intros x y Hxy Hn. destruct (decide ((x, y) ∈ V1)); auto.
Qed.

Lemma shows_weaken V0 V1 (Q Q' : nat → Prop) : (∀ d, Q d → Q' d) → shows V0 V1 Q → shows V0 V1 Q'.
Proof. intros HQ [Hs Hsh]. split; [done |]. intros d Hg. destruct (Hsh d Hg). auto. Qed.

(** The pair itself is among those added. *)
Lemma shows_add x y V0 V1 (Q : nat → Prop) :
  shows ({[(x, y)]} ∪ V0) V1 Q → (∀ d, Q d → upto (S d) (VPair x) (VPair y)) → shows V0 V1 Q.
Proof.
  intros [Hs Hsh] HQ. split; [set_solver |]. intros d Hg. destruct (Hsh d Hg) as [HQd Hn]. split; [done |].
  intros x' y' Hin Hout. destruct (decide ((x', y') = (x, y))) as [[= -> ->]|Hne]; [by apply HQ |].
  apply Hn; [done |]. set_solver.
Qed.

Definition sound_cmp (f : Value → Value → Visited → option (bool * Visited)) : Prop :=
  ∀ a b V0 V1, f a b V0 = Some (true, V1) → shows V0 V1 (λ d, upto d a b).

Lemma all_slots_sound f l k V0 V1 :
  sound_cmp f → length l = length k → all_slots f l k V0 = Some (true, V1) →
  shows V0 V1 (λ d, Forall2 (upto d) l k).
Proof.
  intros Hf. revert k V0. induction l as [|a l IH]; intros [|b k] V0 Hl; try done; cbn [all_slots].
  - intros [= <-]. apply shows_now. intros d _. constructor.
  - destruct (f a b V0) as [[[|] Vm]|] eqn:Hab; try done. intros Hr.
    eapply shows_weaken; [| eapply shows_trans; [by apply Hf | apply IH; [| done]; by injection Hl]].
    intros d [H1 H2]. by constructor.
Qed.

Lemma equal_rec_sound steps fuel : sound_cmp (λ a b V, equal_rec steps h a b V fuel).
Proof.
  revert fuel. induction steps as [|steps IH]; intros fuel a b V0 V1; [done |]. cbn [equal_rec].
  destruct (eqv a b) eqn:He.
  { intros [= <-]. apply shows_now. intros [|d] _; [done | by left]. }
  destruct a, b; try done.
  - intros [= Hs <-]. apply bool_decide_eq_true in Hs. apply shows_now. intros [|d] _; [done | by right].
  - intros [= Hs <-]. apply bool_decide_eq_true in Hs. apply shows_now. intros [|d] _; [done | by right].
  - rename a into x, a0 into y.
    destruct (pair_at h x) as [p|] eqn:Hp; [| done]. destruct (pair_at h y) as [q|] eqn:Hq; [| done].
    case_decide as Hv; [intros [= <-]; apply shows_now; intros d Hg; apply Hg; by destruct Hv |].
    set (V := if decide (fuel = 0) then _ else V0).
    destruct (equal_rec steps h (car h p) (car h q) V (fuel - 1)) as [[[|] Vm]|] eqn:Hcar; [| done | done].
    intros Hcdr. pose proof (shows_trans _ _ _ _ _ (IH _ _ _ _ _ Hcar) (IH _ _ _ _ _ Hcdr)) as Hsh.
    assert (∀ d, upto d (car h p) (car h q) ∧ upto d (cdr h p) (cdr h q) → upto (S d) (VPair x) (VPair y)) as Hup.
    { intros d [? ?]. right. by exists p, q. }
    eapply shows_weaken; [intros d Hd; apply upto_mono, Hup, Hd |].
    unfold V in Hsh. destruct (decide (fuel = 0)); [by eapply shows_add | done].
  - destruct (vector_at h a) as [v|] eqn:Hv; [| done]. destruct (vector_at h a0) as [w|] eqn:Hw; [| done].
    case_decide as Hl; [| done]. intros Hr.
    eapply shows_weaken; [| by apply (all_slots_sound _ _ _ _ _ (IH (fuel - 1)) Hl Hr)].
    intros [|d] Hd; [done |]. right. exists v, w. split_and!; [done | done |].
    eapply Forall2_impl; [exact Hd | apply upto_mono].
Qed.

Lemma equal_true a b : equal h a b = Some true → same_tree a b.
Proof.
  unfold equal. destruct (equal_rec _ h a b ∅ 64) as [[r V]|] eqn:Hr; cbn; [| done]. intros [= ->].
  destruct (equal_rec_sound _ _ _ _ _ _ Hr) as [_ Hsh].
  assert (∀ d, good d V) as Hg.
  { induction d as [|d IH]; [done |]. intros x y Hxy. apply (Hsh d IH); [done | by apply not_elem_of_empty]. }
  intros d. by apply (Hsh d).
Qed.

(** ** Completeness *)

Lemma all_slots_complete f l k V0 V1 :
  (∀ a b V V', f a b V = Some (false, V') → ∃ d, ¬ upto d a b) →
  all_slots f l k V0 = Some (false, V1) → ∃ d, ¬ Forall2 (upto d) l k.
Proof.
  intros Hf. revert k V0. induction l as [|a l IH]; intros [|b k] V0; try done; cbn [all_slots].
  destruct (f a b V0) as [[[|] Vm]|] eqn:Hab; [| | done].
  - intros Hr. destruct (IH k Vm Hr) as (d & Hd). exists d. by intros [_ ?]%Forall2_cons.
  - intros _. destruct (Hf _ _ _ _ Hab) as (d & Hd). exists d. by intros [? _]%Forall2_cons.
Qed.

Lemma equal_rec_complete steps fuel a b V V' :
  equal_rec steps h a b V fuel = Some (false, V') → ∃ d, ¬ upto d a b.
Proof.
  revert fuel a b V V'. induction steps as [|steps IH]; intros fuel a b V V'; [done |]. cbn [equal_rec].
  destruct (eqv a b) eqn:He; [done |].
  destruct a, b; try (intros _; exists 1; intros [?|Hs]; [congruence | done]).
  - intros [= Hs _]. apply bool_decide_eq_false in Hs. exists 1. intros [?|?]; [congruence | done].
  - intros [= Hs _]. apply bool_decide_eq_false in Hs. exists 1. intros [?|?]; [congruence | done].
  - destruct (pair_at h a) as [p|] eqn:Hp;
      [| intros _; exists 1; intros [?|(p & q & ? & _)]; congruence].
    destruct (pair_at h a0) as [q|] eqn:Hq;
      [| intros _; exists 1; intros [?|(p' & q & _ & ? & _)]; congruence].
    case_decide; [done |]. set (V1 := if decide (fuel = 0) then _ else V).
    destruct (equal_rec steps h (car h p) (car h q) V1 (fuel - 1)) as [[[|] Vm]|] eqn:Hcar; [| | done].
    + intros Hcdr. destruct (IH _ _ _ _ _ Hcdr) as (d & Hd). exists (S d).
      intros [?|(p' & q' & ? & ? & _ & ?)]; [congruence | by simplify_eq].
    + intros _. destruct (IH _ _ _ _ _ Hcar) as (d & Hd). exists (S d).
      intros [?|(p' & q' & ? & ? & ? & _)]; [congruence | by simplify_eq].
  - destruct (vector_at h a) as [v|] eqn:Hv;
      [| intros _; exists 1; intros [?|(v & w & ? & _)]; congruence].
    destruct (vector_at h a0) as [w|] eqn:Hw;
      [| intros _; exists 1; intros [?|(v' & w & _ & ? & _)]; congruence].
    case_decide as Hl.
    + intros Hr. destruct (all_slots_complete _ _ _ _ _ (IH (fuel - 1)) Hr) as (d & Hd). exists (S d).
      intros [?|(v' & w' & ? & ? & Hf)]; [congruence | by simplify_eq].
    + intros _. exists 1. intros [?|(v' & w' & ? & ? & Hf)]; [congruence |]. simplify_eq.
      by apply Forall2_length in Hf.
Qed.

(** ** Termination *)

(** From a vector to a vector in one of its slots. *)
Definition vector_edge (x z : addr) : Prop := ∃ v, vector_at h x = Some v ∧ VVector z ∈ vc_items v.

Definition no_vector_cycle : Prop := ∀ x, ¬ tc vector_edge x x.

(** The visited pairs are pairs of cells of the heap. *)
Definition in_heap (V : Visited) : Prop := ∀ x y, (x, y) ∈ V → x ∈ dom h ∧ y ∈ dom h.

Lemma in_heap_size V : in_heap V → size V ≤ size h * size h.
Proof.
  intros HV. assert (elements V ⊆+ cprod (elements (dom h)) (elements (dom h))) as Hsub.
  { apply NoDup_submseteq; [apply NoDup_elements |]. intros [x y] Hxy%elem_of_elements.
    apply list_elem_of_cprod. cbn. rewrite !elem_of_elements. by apply HV. }
  apply submseteq_length in Hsub. rewrite list_cprod_list_prod, length_prod in Hsub.
  by rewrite <-(size_dom h).
Qed.

Lemma in_heap_add x y V : x ∈ dom h → y ∈ dom h → in_heap V → in_heap ({[(x, y)]} ∪ V).
Proof. intros Hx Hy HV x' y' [[= -> ->]%elem_of_singleton|?]%elem_of_union; auto. Qed.

(** The vectors entered since the last pair, all of which lead to [a]. *)
Definition on_path (path : gset addr) (a : Value) : Prop :=
  path ⊆ dom h ∧ ∀ x z, x ∈ path → a = VVector z → tc vector_edge x z.

(** The steps that are left after some comparisons. *)
Definition budget (V : Visited) (fuel : nat) (path : gset addr) : nat :=
  (fuel + (size h * size h - size V)) * (size h + 2) + (size h - size path).

Definition ends (V : Visited) (r : option (bool * Visited)) : Prop :=
  ∃ b V', r = Some (b, V') ∧ V ⊆ V' ∧ in_heap V'.

Lemma budget_mono V V' fuel fuel' path : V ⊆ V' → fuel' ≤ fuel → budget V' fuel' path ≤ budget V fuel path.
Proof. intros HV Hf. pose proof (subseteq_size _ _ HV). unfold budget. nia. Qed.

(** Entering a pair. *)
Lemma budget_pair V fuel path :
  budget V fuel ∅ < budget V (S fuel) path.
Proof. unfold budget. rewrite size_empty. nia. Qed.

Lemma budget_visit x y V path :
  (x, y) ∉ V → in_heap ({[(x, y)]} ∪ V) → budget ({[(x, y)]} ∪ V) 0 ∅ < budget V 0 path.
Proof.
  intros Hn HV%in_heap_size. unfold budget. rewrite size_empty.
  rewrite size_union, size_singleton in * by set_solver. nia.
Qed.

(** Entering a vector. *)
Lemma budget_vector x V fuel path :
  x ∉ path → x ∈ dom h → path ⊆ dom h → budget V (fuel - 1) ({[x]} ∪ path) < budget V fuel path.
Proof.
  intros Hn Hx Hp. assert ({[x]} ∪ path ⊆ dom h) as Hs%subseteq_size by set_solver.
  rewrite size_dom in Hs. unfold budget. rewrite size_union, size_singleton in * by set_solver. nia.
Qed.

Lemma all_slots_ends (f : Value → Value → Visited → option (bool * Visited)) l k V :
  (∀ a b V', a ∈ l → V ⊆ V' → in_heap V' → ends V' (f a b V')) → in_heap V → ends V (all_slots f l k V).
Proof.
  revert k V. induction l as [|a l IH]; intros [|b k] V Hf HV; cbn [all_slots];
    try (exists true, V; done).
  destruct (Hf a b V) as ([|] & Vm & -> & Hs & HVm); [left | done | done | | by exists false, Vm].
  destruct (IH k Vm) as (r & V' & -> & Hs' & HV'); [| done |].
  - intros a' b' V' Ha' HVV'. apply Hf; [by right | by etrans].
  - exists r, V'. split_and!; [done | by etrans | done].
Qed.

Lemma no_path a : on_path ∅ a.
Proof. split; [set_solver |]. intros x z Hx. by apply not_elem_of_empty in Hx. Qed.

Lemma equal_rec_ends steps a b V fuel path :
  no_vector_cycle → in_heap V → on_path path a → budget V fuel path < steps →
  ends V (equal_rec steps h a b V fuel).
Proof.
  intros Hac. revert a b V fuel path.
  induction steps as [|steps IH]; intros a b V fuel path HV Hpath Hb; [lia |]. cbn [equal_rec].
  destruct (eqv a b); [by exists true, V |]. destruct a, b; try (by exists false, V); try (by eexists _, V).
  - rename a into x, a0 into y.
    destruct (pair_at h x) as [p|] eqn:Hp; [| by exists false, V].
    destruct (pair_at h y) as [q|] eqn:Hq; [| by exists false, V].
    case_decide as Hv; [by exists true, V |]. apply pair_at_dom in Hp, Hq.
    set (V1 := if decide (fuel = 0) then {[(x, y)]} ∪ V else V).
    assert (V ⊆ V1 ∧ in_heap V1 ∧ budget V1 (fuel - 1) ∅ < steps) as (Hs & HV1 & Hb1).
    { unfold V1. destruct fuel as [|fuel]; cbn [decide decide_rel].
      - rewrite decide_True by done. split_and!; [set_solver | by apply in_heap_add |].
        pose proof (budget_visit x y V path ltac:(naive_solver) ltac:(by apply in_heap_add)).
        change (0 - 1) with 0. lia.
      - rewrite decide_False by done. split_and!; [done | done |].
        pose proof (budget_pair V fuel path). replace (S fuel - 1) with fuel by lia. lia. }
    destruct (IH (car h p) (car h q) V1 (fuel - 1) ∅ HV1 (no_path _) Hb1) as ([|] & V2 & -> & Hs2 & HV2);
      [| exists false, V2; split_and!; [done | by etrans | done]].
    destruct (IH (cdr h p) (cdr h q) V2 (fuel - 1) ∅ HV2 (no_path _)) as (r & V3 & -> & Hs3 & HV3).
    { pose proof (budget_mono V1 V2 (fuel - 1) (fuel - 1) ∅ Hs2). lia. }
    exists r, V3. split_and!; [done | etrans; [| done]; by etrans | done].
  - rename a into x, a0 into y.
    destruct (vector_at h x) as [v|] eqn:Hx; [| by exists false, V].
    destruct (vector_at h y) as [w|] eqn:Hy; [| by exists false, V].
    case_decide as Hl; [| by exists false, V]. destruct Hpath as [Hpd Hpt].
    assert (x ∉ path) as Hxp. { intros Hin. by apply (Hac x), (Hpt x x). }
    pose proof (budget_vector x V fuel path Hxp (vector_at_dom x v Hx) Hpd) as Hbv.
    apply all_slots_ends; [| done]. intros a b V' Ha HVV' HV'.
    apply (IH a b V' (fuel - 1) ({[x]} ∪ path) HV').
    + split; [pose proof (vector_at_dom x v Hx); set_solver |].
      intros u z [->%elem_of_singleton|Hu]%elem_of_union ->; [by apply tc_once; exists v |].
      eapply tc_r; [by apply (Hpt u x) | by exists v].
    + pose proof (budget_mono V V' (fuel - 1) (fuel - 1) ({[x]} ∪ path) HVV'). lia.
Qed.

Lemma equal_ends a b : no_vector_cycle → ∃ r, equal h a b = Some r ∧ (r = true ↔ same_tree a b).
Proof.
  intros Hac. destruct (equal_rec_ends (equal_steps h) a b ∅ 64 ∅ Hac) as (r & V & Hr & _);
    [by intros x y Hxy%not_elem_of_empty | apply no_path | |].
  { unfold budget, equal_steps. rewrite !size_empty. nia. }
  assert (equal h a b = Some r) as He by (unfold equal; by rewrite Hr).
  exists r. split; [done |]. split; [intros ->; by apply equal_true |].
  intros Hst. destruct r; [done |]. destruct (equal_rec_complete _ _ _ _ _ _ Hr) as (d & Hd). by destruct Hd.
Qed.

(** C21: [equal?] is structural equality. On a heap in which no vector contains
    itself through vectors only, it ends, and it holds exactly of the values
    that unfold to the same tree, whatever cycles run through pairs. *)
Theorem equal_decides_same_tree a b :
  no_vector_cycle → ∃ r, equal h a b = Some r ∧ (r = true ↔ same_tree a b).
Proof. apply equal_ends. Qed.

End heap.
End facts.

(** ** Hashing *)

Section hashing.
Context {B R : Type} `{HB : BigIntLaws B} `{HR : !BigRational R B, !BigRationalLaws R B} `{HD : DefaultHasher}.

Notation Value := (Value (Leaf B R)).
Notation Heap := (gmap addr (Cell (Leaf B R))).

(** A value that is no negative zero and no number out of canonical form. *)
Definition hashable (v : Value) : Prop :=
  ∀ n, as_number v = Some n → canonical n ∧ n ≠ Flonum (S754_zero true).

Definition heap_hashable (h : Heap) : Prop :=
  ∀ a c, h !! a = Some c → Forall hashable (obj_values (c_object c)).

Lemma f64_eqb_eq x y : f64_eqb x y = true → x = y ∨ ∃ s s', x = S754_zero s ∧ y = S754_zero s'.
Proof.
  unfold f64_eqb, SFeqb. destruct x as [s|s| |s m e], y as [s'|s'| |s' m' e']; cbn;
    try (destruct s; done); try (destruct s, s'; done); try (destruct s'; done); try done.
  - right. eauto.
  - left. destruct s, s'; done.
  - destruct s, s'; try done; destruct (Z.compare_spec e e') as [->|?|?]; try done.
    + change (Pos.compare_cont Eq m m') with (Pos.compare m m').
      destruct (Pos.compare_spec m m') as [->|Hl|Hl]; [by left | done | done].
    + change (Pos.compare_cont Eq m m') with (Pos.compare m m').
      destruct (Pos.compare_spec m m') as [->|Hl|Hl]; [by left | done | done].
Qed.

(** [eq?] and [eqv?] hold of one value only. *)
Lemma eq_true (a b : Value) : Equal.eq a b = true → a = b.
Proof.
  destruct a as [| |[| | | | |[]]| | | | | | |], b as [| |[| | | | |[]]| | | | | | |]; try done; cbn;
    rewrite ?andb_true_iff, ?bool_decide_eq_true; naive_solver.
Qed.

Lemma eqv_hashable a b : hashable a → hashable b → eqv a b = true → a = b.
Proof.
  intros Ha Hb. unfold eqv. destruct (as_number a) as [x|] eqn:Hx, (as_number b) as [y|] eqn:Hy.
  - destruct a as [| |[]| | | | | | |], b as [| |[]| | | | | | |]; cbn in Hx, Hy; simplify_eq.
    destruct (Ha x eq_refl) as [Hcx Hzx], (Hb y eq_refl) as [Hcy Hzy].
    intros [He Hv]%andb_true_iff. apply bool_decide_eq_true in Hv. do 2 f_equal.
    assert ((∃ f g, x = Flonum f ∧ y = Flonum g) ∨ ∃ p q, exact_val x = Some p ∧ exact_val y = Some q) as Hcase.
    { destruct x, y; cbn in He; try done; eauto. }
    destruct Hcase as [(f & g & -> & ->)|(p & q & Hp & Hq)].
    + cbn in Hv. injection Hv as Hv. destruct (f64_eqb_eq f g Hv) as [->|(s & s' & -> & ->)]; [done |].
      destruct s, s'; done.
    + assert (denotes x p) as Hdx by (split; [done | by exists p]).
      assert (denotes y q) as Hdy by (split; [done | by exists q]).
      rewrite (eq_value_denotes x y p q Hdx Hdy) in Hv. injection Hv as Hv.
      by apply (denotes_inj x y p q Hdx Hdy), Qeq_bool_iff.
  - apply eq_true.
  - apply eq_true.
  - apply eq_true.
Qed.

Lemma read_hashable h (v : Value) (w : option Value) :
  hashable v → hashable (match w with Some w => default VUnspecified (upgrade h w) | None => v end).
Proof.
  intros Hv. destruct w as [w|]; [| done]. unfold upgrade. destruct (heap_addr w) as [a|] eqn:Ha; [| done].
  destruct (h !! a); [| done]. by destruct w.
Qed.

Lemma slots_hashable h a p :
  heap_hashable h → pair_at h a = Some p → hashable (car h p) ∧ hashable (cdr h p).
Proof.
  intros Hh. unfold pair_at. destruct (h !! a) as [c|] eqn:Hc; [| done]. specialize (Hh a c Hc). cbn.
  destruct (c_object c); try done. intros [= ->]. cbn in Hh. rewrite !Forall_cons in Hh.
  destruct Hh as (H1 & H2 & _). split; by apply read_hashable.
Qed.

Lemma items_hashable h a v : heap_hashable h → vector_at h a = Some v → Forall hashable (vc_items v).
Proof.
  intros Hh. unfold vector_at. destruct (h !! a) as [c|] eqn:Hc; [| done]. specialize (Hh a c Hc). cbn.
  destruct (c_object c); try done. by intros [= ->].
Qed.

Lemma hash_equal_upto h d a b :
  heap_hashable h → hashable a → hashable b → upto h d a b → hash_equal d h a = hash_equal d h b.
Proof.
  intros Hh. revert a b. induction d as [|d IH]; intros a b Ha Hb; [done |].
  intros [He|Hs]; [by rewrite (eqv_hashable a b Ha Hb He) |]. destruct a, b; try done; cbn [hash_equal].
  - by rewrite Hs.
  - by rewrite Hs.
  - destruct Hs as (p & q & Hp & Hq & H1 & H2). rewrite Hp, Hq.
    destruct (slots_hashable h _ _ Hh Hp), (slots_hashable h _ _ Hh Hq). by rewrite (IH (car h p) (car h q)), (IH (cdr h p) (cdr h q)).
  - destruct Hs as (v & w & Hv & Hw & Hall). rewrite Hv, Hw, (Forall2_length _ _ _ Hall).
    assert (hash_equal d h <$> vc_items v = hash_equal d h <$> vc_items w) as Heq.
    { apply list_eq_Forall2, Forall2_fmap. apply Forall2_same_length_lookup_2; [by apply Forall2_length in Hall |].
      intros i x y Hx Hy. apply IH.
      - by apply (Forall_lookup_1 _ _ _ _ (items_hashable h _ _ Hh Hv) Hx).
      - by apply (Forall_lookup_1 _ _ _ _ (items_hashable h _ _ Hh Hw) Hy).
      - by apply (Forall2_lookup_lr _ _ _ _ _ _ Hall Hx Hy). }
    change (λ x, write_u64 (hash_equal d h x)) with (write_u64 ∘ hash_equal d h). by rewrite !list_fmap_compose, Heq.
Qed.

(** *** The keys of the built-in tables *)

(** A value that its table can find again: [eq?] does not hold of a flonum, a
    big integer or a rational and itself, [eqv?] not of a NaN. *)
Definition keyable (kind : HtEqKind) (v : Value) : Prop :=
  match kind with
  | EqKind => Equal.eq v v = true
  | EqvKind | EqualKind => hashable v ∧ eqv v v = true
  | CustomKind => False
  end.

(** A heap on which [equal?] ends and hashing respects it. *)
Definition keyable_heap (kind : HtEqKind) (h : Heap) : Prop :=
  kind = EqualKind → heap_hashable h ∧ no_vector_cycle h.

Lemma upto_sym h d a b : heap_hashable h → hashable a → hashable b → upto h d a b → upto h d b a.
Proof.
  intros Hh. revert a b. induction d as [|d IH]; intros a b Ha Hb; [done |].
  intros [He|Hs]; [left; by rewrite (eqv_hashable a b Ha Hb He) in He |- * |]. right. destruct a, b; try done.
  - destruct Hs as (p & q & Hp & Hq & H1 & H2). exists q, p.
    destruct (slots_hashable h _ _ Hh Hp), (slots_hashable h _ _ Hh Hq). auto.
  - destruct Hs as (v & w & Hv & Hw & Hall). exists w, v. split_and!; [done | done |].
    apply Forall2_same_length_lookup_2; [symmetry; by apply Forall2_length in Hall |]. intros i x y Hx Hy. apply IH.
    + by apply (Forall_lookup_1 _ _ _ _ (items_hashable h _ _ Hh Hv) Hy).
    + by apply (Forall_lookup_1 _ _ _ _ (items_hashable h _ _ Hh Hw) Hx).
    + by apply (Forall2_lookup_lr _ _ _ _ _ _ Hall Hy Hx).
Qed.

Lemma upto_trans h d a b c :
  heap_hashable h → hashable a → hashable b → hashable c → upto h d a b → upto h d b c → upto h d a c.
Proof.
  intros Hh. revert a b c. induction d as [|d IH]; intros a b c Ha Hb Hc; [done |].
  intros [He|Hs]; [by rewrite (eqv_hashable a b Ha Hb He) |]. intros [He|Hs'].
  { rewrite <-(eqv_hashable b c Hb Hc He). by right. }
  right. destruct a, b, c; try done; try congruence.
  - destruct Hs as (p & q & Hp & Hq & H1 & H2), Hs' as (q' & r & Hq' & Hr & H3 & H4). simplify_eq. exists p, r.
    destruct (slots_hashable h _ _ Hh Hp), (slots_hashable h _ _ Hh Hq), (slots_hashable h _ _ Hh Hr).
    split_and!; [done | done | by apply (IH _ (car h q)) | by apply (IH _ (cdr h q))].
  - destruct Hs as (u & v & Hu & Hv & H1), Hs' as (v' & w & Hv' & Hw & H2). simplify_eq. exists u, w.
    split_and!; [done | done |]. pose proof (Forall2_length _ _ _ H1) as Hl1. pose proof (Forall2_length _ _ _ H2) as Hl2.
    apply Forall2_same_length_lookup_2; [congruence |]. intros i x z Hx Hz.
    destruct (lookup_lt_is_Some_2 (vc_items v) i) as [y Hy]; [rewrite <-Hl1; by apply lookup_lt_Some in Hx |].
    apply (IH x y z).
    + by apply (Forall_lookup_1 _ _ _ _ (items_hashable h _ _ Hh Hu) Hx).
    + by apply (Forall_lookup_1 _ _ _ _ (items_hashable h _ _ Hh Hv) Hy).
    + by apply (Forall_lookup_1 _ _ _ _ (items_hashable h _ _ Hh Hw) Hz).
    + by apply (Forall2_lookup_lr _ _ _ _ _ _ H1 Hx Hy).
    + by apply (Forall2_lookup_lr _ _ _ _ _ _ H2 Hy Hz).
Qed.

(** [equal?] on keys, as a proposition. *)
Lemma equal_iff h a b : no_vector_cycle h → equal h a b = Some true ↔ same_tree h a b.
Proof.
  intros Hac. split; [apply equal_true |]. intros Hs.
  destruct (equal_ends h a b Hac) as (r & Hr & Hi). rewrite Hr. f_equal. by apply Hi.
Qed.

Lemma hash_same h kind a b :
  (kind ≠ EqKind → hashable a ∧ hashable b) → (kind = EqualKind → heap_hashable h) →
  ht_eq kind h a b = Some true → hash_value h a kind = hash_value h b kind.
Proof.
  intros Hab Hh. destruct kind; cbn [ht_eq hash_value]; [| | |done].
  - intros [= He]. by rewrite (eq_true a b He).
  - intros [= He]. destruct Hab as [Ha Hb]; [done |]. by rewrite (eqv_hashable a b Ha Hb He).
  - intros He%equal_true. destruct Hab as [Ha Hb]; [done |]. f_equal. apply hash_equal_upto; [by apply Hh | done | done | apply He].
Qed.

(** C22: hashing respects equality. When a built-in hashtable takes two keys to
    be the same, they have the same hash, whatever the hasher: for [eq?] tables
    always, for [eqv?] and [equal?] tables when the numbers in play are in
    canonical form and none is negative zero. *)
Theorem hash_respects_equality h kind a b :
  (kind ≠ EqKind → hashable a ∧ hashable b) → (kind = EqualKind → heap_hashable h) →
  ht_eq kind h a b = Some true → hash_value h a kind = hash_value h b kind.
Proof. apply hash_same. Qed.

End hashing.
