(* ===== verification/Table.v ===== *)
(** * Vector and hashtable builtins

    [vector-ref], [vector-set!] and the hashtable operations of
    [crates/cs-runtime/src/builtins/mod.rs], over the heap of [GcHeap] with the
    equality and the hashing of [Equal].  A result of [None] stands for a
    comparison by [equal?] that does not end; the operations of tables with
    user-supplied procedures, which call the evaluator, have none either. *)

From stdpp Require Import base numbers gmap sorting list.
From Stdlib Require Import ZArith Strings.Byte.
From S2P Require Import Prelude RaftTypes Float64 BigNum Number Trial GcHeap Equal.

Local Open Scope crab_scope.

Section table.
Context {B R : Type} `{BigInt B} `{BigRational R B} `{DefaultHasher}.
Context (limit : nat).

Notation Leaf := (Leaf B R).
Notation Value := (Value Leaf).
Notation Hashtable := (Hashtable Leaf).
Notation Heap := (gmap addr (Cell Leaf)).
Notation Memory := (Memory Leaf).
Notation Result := ((BuiltinError Leaf + Value) * Memory)%type.

(** ** Vectors *)

Definition as_int_i64 (v : Value) : BuiltinError Leaf + Z :=
  match v with
  | VLeaf (Numeric (Fixnum n)) => inr n
  | VLeaf (Numeric (Big b)) => match big_to_i64 b with Some n => inr n | None => inl IntegerOutOfRange end
  | _ => inl (TypeError v)
  end.

(** [vector-ref]; the result is a handle of its own. *)
Definition b_vector_ref (args : list Value) (m : Memory) : Result :=
  match args with
  | [v; k] =>
      match as_int_i64 k with
      | inl e => (inl e, m)
      | inr i =>
          if decide (i < 0)%Z then (inl NegativeIndex, m)
          else
            match v with
            | VVector a =>
                match vector_get a (Z.to_nat i) (m_heap m) with
                | (h, Some x) => (inr x, m <| m_heap := clone_value x h |>)
                | (h, None) => (inl IndexOutOfRange, m <| m_heap := h |>)
                end
            | _ => (inl (TypeError v), m)
            end
      end
  | _ => (inl (ArityError (length args)), m)
  end.

Definition b_vector_set (args : list Value) (m : Memory) : Result :=
  match args with
  | [v; k; x] =>
      match as_int_i64 k with
      | inl e => (inl e, m)
      | inr i =>
          if decide (i < 0)%Z then (inl NegativeIndex, m)
          else
            match v with
            | VVector a =>
                match vector_at (m_heap m) a with
                | Some w =>
                    if decide (length (vc_items w) ≤ Z.to_nat i) then (inl IndexOutOfRange, m)
                    else
                      let m := m <| m_heap ::= λ h, vector_set a w (Z.to_nat i) x (clone_value x h) |> in
                      (inr VUnspecified,
                       after_set limit (λ limit, vector_break_slot_cycle limit (Z.to_nat i)) a x m)
                | None => (inl (TypeError v), m)
                end
            | _ => (inl (TypeError v), m)
            end
      end
  | _ => (inl (ArityError (length args)), m)
  end.

(** ** Finding a key *)

Fixpoint find_in_bucket (h : Heap) (t : Hashtable) (key : Value) (bucket : list nat) : option (option nat) :=
  match bucket with
  | [] => Some None
  | i :: bucket =>
      match ht_items t !! i with
      | None => None
      | Some (k, _) =>
          match ht_eq (ht_eq_kind t) h k key with
          | Some true => Some (Some i)
          | Some false => find_in_bucket h t key bucket
          | None => None
          end
      end
  end.

Definition ht_find_index (h : Heap) (t : Hashtable) (key : Value) : option (option nat) :=
  match hash_value h key (ht_eq_kind t) with
  | Some hash => find_in_bucket h t key (default [] (ht_index t !! hash))
  | None => None
  end.

(** [n as u32], the type of the indices in a bucket. *)
Definition as_u32 (n : nat) : nat := N.to_nat (N.of_nat n mod 2 ^ 32).

(** [ht_reindex_all]. *)
Definition reindex_one (h : Heap) (kind : HtEqKind) (acc : option (gmap N (list nat))) (ik : nat * Value) :
    option (gmap N (list nat)) :=
  match acc, hash_value h ik.2 kind with
  | Some index, Some hash => Some (<[hash := default [] (index !! hash) ++ [as_u32 ik.1]]> index)
  | _, _ => None
  end.

Definition ht_reindex_all (h : Heap) (t : Hashtable) : option Hashtable :=
  match foldl (reindex_one h (ht_eq_kind t)) (Some ∅) (imap (λ i kv, (i, kv.1)) (ht_items t)) with
  | Some index => Some (t <| ht_index := index |>)
  | None => None
  end.

(** ** Hashtables *)

(** [items.len() as u32]. *)
Definition next_index (t : Hashtable) : nat := as_u32 (length (ht_items t)).

(** The entry [hashtable-set!] adds for a new key. *)
Definition push_entry (key v : Value) (hash : N) (t : Hashtable) : Hashtable :=
  index_insert hash (next_index t) (t <| ht_items ::= λ l, l ++ [(key, v)] |>).

(** The table after [hashtable-set!] has written, and the index written to. *)
Definition table_set (h : Heap) (t : Hashtable) (key v : Value) : option (Hashtable * nat) :=
  match ht_find_index h t key with
  | Some (Some i) =>
      match ht_items t !! i with Some (k, _) => Some (put_value i k v t, i) | None => None end
  | Some None =>
      match hash_value h key (ht_eq_kind t) with
      | Some hash => Some (push_entry key v hash t, next_index t)
      | None => None
      end
  | None => None
  end.

(** The table's handle is cloned for the length of the call. *)
Definition b_hashtable_set (args : list Value) (m : Memory) : option Result :=
  match args with
  | [VHashtable a; key; v] =>
      match table_at (m_heap m) a with
      | None => None
      | Some t =>
          let m := m <| m_heap ::= incref a |> in
          match ht_find_index (m_heap m) t key, hash_value (m_heap m) key (ht_eq_kind t) with
          | Some (Some i), _ =>
              let m := m <| m_heap ::= λ h, set_value_at a t i v (clone_value v h) |> in
              let m := after_set limit (λ limit, break_value_cycle limit i) a v m in
              Some (inr VUnspecified, m <| m_heap ::= release a |>)
          | Some None, Some hash =>
              let m := m <| m_heap ::= λ h, put_object a (OHashtable (push_entry key v hash t))
                                              (clone_value v (clone_value key h)) |> in
              let m := after_set limit (λ limit, break_value_cycle limit (next_index t)) a v m in
              Some (inr VUnspecified, m <| m_heap ::= release a |>)
          | _, _ => None
          end
      end
  | [v; _; _] => Some (inl (TypeError v), m)
  | _ => Some (inl (ArityError (length args)), m)
  end.

Definition b_hashtable_ref (args : list Value) (m : Memory) : option Result :=
  match args with
  | [VHashtable a; key; d] =>
      match table_at (m_heap m) a with
      | None => None
      | Some t =>
          match ht_find_index (m_heap m) t key with
          | Some (Some i) =>
              let '(h, r) := value_at a i (m_heap m) in
              let r := default VUnspecified r in
              Some (inr r, m <| m_heap := clone_value r h |>)
          | Some None => Some (inr d, m <| m_heap ::= clone_value d |>)
          | None => None
          end
      end
  | [v; _; _] => Some (inl (TypeError v), m)
  | _ => Some (inl (ArityError (length args)), m)
  end.

Definition b_hashtable_contains (args : list Value) (m : Memory) : option Result :=
  match args with
  | [VHashtable a; key] =>
      match table_at (m_heap m) a with
      | None => None
      | Some t =>
          match ht_find_index (m_heap m) t key with
          | Some r => Some (inr (VLeaf (Boolean (bool_decide (is_Some r)))), m)
          | None => None
          end
      end
  | [v; _] => Some (inl (TypeError v), m)
  | _ => Some (inl (ArityError (length args)), m)
  end.

Definition b_hashtable_size (args : list Value) (m : Memory) : Result :=
  match args with
  | [VHashtable a] =>
      match table_at (m_heap m) a with
      | Some t => (inr (VLeaf (Numeric (Fixnum (Z.of_nat (length (ht_items t)))))), m)
      | None => (inl (TypeError (VHashtable a)), m)
      end
  | [v] => (inl (TypeError v), m)
  | _ => (inl (ArityError (length args)), m)
  end.

(** The table after [hashtable-delete!]. *)
Definition table_delete (h : Heap) (t : Hashtable) (key : Value) : option Hashtable :=
  match ht_find_index h t key with
  | Some (Some i) => ht_reindex_all h (swap_remove_item i t)
  | Some None => Some t
  | None => None
  end.

(** The removed key and value are dropped before the table is indexed again. *)
Definition b_hashtable_delete (args : list Value) (m : Memory) : option Result :=
  match args with
  | [VHashtable a; key] =>
      match table_at (m_heap m) a with
      | None => None
      | Some t =>
          let m := m <| m_heap ::= incref a |> in
          match ht_find_index (m_heap m) t key with
          | Some (Some i) =>
              match ht_items t !! i with
              | None => None
              | Some (k, v) =>
                  let t := swap_remove_item i t in
                  let h := drop_value v (drop_value k (put_object a (OHashtable t) (m_heap m))) in
                  match ht_reindex_all h t with
                  | Some t => Some (inr VUnspecified, m <| m_heap := release a (put_object a (OHashtable t) h) |>)
                  | None => None
                  end
              end
          | Some None => Some (inr VUnspecified, m <| m_heap ::= release a |>)
          | None => None
          end
      end
  | [v; _] => Some (inl (TypeError v), m)
  | _ => Some (inl (ArityError (length args)), m)
  end.

Definition table_clear (t : Hashtable) : Hashtable := clear_items t <| ht_index := ∅ |>.

Definition b_hashtable_clear (args : list Value) (m : Memory) : Result :=
  match args with
  | [] => (inl (ArityError 0), m)
  | v :: rest =>
      if decide (1 < length rest) then (inl (ArityError (length args)), m)
      else
        match v with
        | VHashtable a =>
            match table_at (m_heap m) a with
            | Some t =>
                let h := put_object a (OHashtable (table_clear t)) (m_heap m) in
                (inr VUnspecified,
                 m <| m_heap := foldl (λ h v, drop_value v h) h (ht_items t ≫= λ '(k, v), [k; v]) |>)
            | None => (inl (TypeError v), m)
            end
        | _ => (inl (TypeError v), m)
        end
  end.

End table.
