(* ===== verification/TableFacts.v ===== *)
(** * Hashtables refine finite maps

    The operations of [Table] on the built-in kinds of hashtables, with their
    bucket index and their tombstones, act on what the table reads as the
    operations of a map from keys, up to the table's equality, to values.  What
    a table needs of its equality and hashing is the class [KeyLaws]; the
    predicates and hash functions of [Equal] provide it. *)

From stdpp Require Import base numbers gmap fin_maps fin_sets sorting list relations.
From Stdlib Require Import ZArith QArith Strings.Byte Floats.SpecFloat.
From S2P Require Import Prelude RaftTypes Float64 BigNum Number NumberFacts Trial GcHeap Equal EqualFacts Table.

Local Open Scope crab_scope.
Local Open Scope nat_scope.

(** ** Lists *)

Lemma lookup_swap_remove {A} (l : list A) i j :
  i < length l →
  swap_remove i l !! j =
    if decide (j < length l - 1) then (if decide (j = i) then last l else l !! j) else None.
Proof.
  intros Hi. unfold swap_remove. destruct (last l) as [x|] eqn:Hx; [| by apply last_None in Hx; subst; cbn in Hi; lia].
  case_decide as Hj.
  - rewrite lookup_take_lt by done. case_decide as Hji; [subst; by rewrite list_lookup_insert_eq |].
    by rewrite list_lookup_insert_ne.
  - apply lookup_take_ge. lia.
Qed.

Lemma length_swap_remove {A} (l : list A) i : length (swap_remove i l) = length l - 1.
Proof.
  unfold swap_remove. destruct (last l) as [x|] eqn:Hx.
  - rewrite length_take, length_insert. lia.
  - apply last_None in Hx. by subst.
Qed.

Lemma lookup_swap_remove_weak {L} (w : gmap nat (Value L)) i n j :
  i ≤ n → (∀ k, is_Some (w !! k) → k ≤ n) → swap_remove_weak i n w !! j =
    if decide (j < n) then (if decide (j = i) then w !! n else w !! j) else None.
Proof.
  intros Hi Hw. assert (∀ k, n < k → w !! k = None) as Hout.
  { intros k Hk. destruct (w !! k) eqn:E; [| done]. pose proof (Hw k ltac:(by eexists)). lia. }
  unfold swap_remove_weak. destruct (decide (i = n)) as [->|Hin].
  - rewrite lookup_delete_eq. case_decide as Hj.
    + rewrite decide_False, lookup_delete_ne by lia. done.
    + destruct (decide (j = n)) as [->|]; [apply lookup_delete_eq |]. rewrite lookup_delete_ne by done. apply Hout. lia.
  - rewrite lookup_delete_ne by done. destruct (w !! n) as [x|] eqn:Hx.
    + case_decide as Hj; [case_decide as Hji; [subst; by rewrite lookup_insert_eq |] |].
      * rewrite lookup_insert_ne, !lookup_delete_ne by lia. done.
      * rewrite lookup_insert_ne by lia. destruct (decide (j = n)) as [->|]; [apply lookup_delete_eq |].
        rewrite !lookup_delete_ne by lia. apply Hout. lia.
    + case_decide as Hj; [case_decide as Hji; [subst; by rewrite lookup_delete_eq |] |].
      * by rewrite lookup_delete_ne by done.
      * rewrite lookup_delete_ne by lia. destruct (decide (j = n)) as [->|]; [done |]. apply Hout. lia.
Qed.

(** ** What a table needs of its keys *)

Section table.
Context {B R : Type} `{HB : BigInt B} `{HR : BigRational R B} `{HD : DefaultHasher}.

Notation Value := (Value (Leaf B R)).
Notation Hashtable := (Hashtable (Leaf B R)).
Notation Heap := (gmap addr (Cell (Leaf B R))).

(** On the keys [K], the table's comparison is an equivalence that hashing
    respects. *)
Class KeyLaws (kind : HtEqKind) (h : Heap) (K : Value → Prop) : Prop := {
  key_refl a : K a → ht_eq kind h a a = Some true;
  key_total a b : K a → K b → is_Some (ht_eq kind h a b);
  key_sym a b : K a → K b → ht_eq kind h a b = Some true → ht_eq kind h b a = Some true;
  key_trans a b c : K a → K b → K c →
    ht_eq kind h a b = Some true → ht_eq kind h b c = Some true → ht_eq kind h a c = Some true;
  key_hash a b : K a → K b → ht_eq kind h a b = Some true → hash_value h a kind = hash_value h b kind;
  key_hash_total a : K a → is_Some (hash_value h a kind);
}.

Section ops.
Context (kind : HtEqKind) (h : Heap) (K : Value → Prop) `{HK : !KeyLaws kind h K}.

Notation same a b := (ht_eq kind h a b = Some true).
Implicit Types (t : Hashtable) (k v w : Value).

Notation bucket t hash := (default [] (ht_index t !! hash)).

(** The index lists each item under the hash of its key, no two items have the
    same key, and tombstones belong to items. *)
Record table_ok (t : Hashtable) : Prop := {
  tk_kind : ht_eq_kind t = kind;
  tk_key i k v : ht_items t !! i = Some (k, v) → K k;
  tk_index i k v hash : ht_items t !! i = Some (k, v) → hash_value h k kind = Some hash → i ∈ bucket t hash;
  tk_bucket i hash : i ∈ bucket t hash → ∃ k v, ht_items t !! i = Some (k, v) ∧ hash_value h k kind = Some hash;
  tk_distinct i j k v k' v' :
    ht_items t !! i = Some (k, v) → ht_items t !! j = Some (k', v') → same k k' → i = j;
  tk_weak i : is_Some (ht_weak t !! i) → i < length (ht_items t);
}.

(** What the slot [i] reads as. *)
Definition read_value (t : Hashtable) (i : nat) : option Value :=
  match ht_items t !! i with
  | None => None
  | Some (_, VUnspecified) => Some (match ht_weak t !! i with
                                    | Some w => default VUnspecified (upgrade h w)
                                    | None => VUnspecified
                                    end)
  | Some (_, raw) => Some raw
  end.

(** The map a table stands for. *)
Definition reads (t : Hashtable) (key : Value) : option Value :=
  match ht_find_index h t key with
  | Some (Some i) => read_value t i
  | _ => None
  end.

Definition holds_at (t : Hashtable) (key : Value) (i : nat) : Prop :=
  ∃ k v, ht_items t !! i = Some (k, v) ∧ same k key.

Lemma holds_at_unique t key i j : table_ok t → K key → holds_at t key i → holds_at t key j → i = j.
Proof.
  intros Ht Hk (k & v & Hi & Hs) (k' & v' & Hj & Hs').
  pose proof (tk_key t Ht _ _ _ Hi). pose proof (tk_key t Ht _ _ _ Hj).
  apply (tk_distinct t Ht i j k v k' v' Hi Hj). apply (key_trans k key k'); try done. by apply (key_sym k' key).
Qed.

Lemma find_in_bucket_ok t key l :
  table_ok t → K key → (∀ i, i ∈ l → is_Some (ht_items t !! i)) →
  ∃ r, find_in_bucket h t key l = Some r ∧
    match r with Some i => holds_at t key i | None => ∀ i, i ∈ l → ¬ holds_at t key i end.
Proof.
  intros Ht Hk Hl. induction l as [|i l IH]; cbn [find_in_bucket].
  { exists None. split; [done |]. by intros i Hi%elem_of_nil. }
  destruct (Hl i) as [[k v] Hi]; [left |]. rewrite Hi, (tk_kind t Ht).
  destruct (key_total k key) as [[|] He]; [by apply (tk_key t Ht i k v) | done | |]; rewrite He.
  - exists (Some i). split; [done |]. by exists k, v.
  - destruct IH as (r & Hr & Hp); [intros j Hj; apply Hl; by right |]. exists r. split; [done |].
    destruct r as [j|]; [done |]. intros j [->|Hj]%elem_of_cons; [| by apply Hp].
    intros (k' & v' & Hi' & Hs). by simplify_eq.
Qed.

(** A key is found where it is. *)
Lemma find_ok t key :
  table_ok t → K key →
  ∃ r, ht_find_index h t key = Some r ∧ ∀ i, r = Some i ↔ holds_at t key i.
Proof.
  intros Ht Hk. unfold ht_find_index. rewrite (tk_kind t Ht).
  destruct (key_hash_total key Hk) as [hash Hh]. rewrite Hh.
  destruct (find_in_bucket_ok t key (bucket t hash) Ht Hk) as (r & Hr & Hp).
  { intros i (k & v & Hi & _)%(tk_bucket t Ht). by exists (k, v). }
  exists r. split; [done |]. intros i. split; [by intros -> |]. intros Hi. destruct r as [j|].
  - f_equal. by apply (holds_at_unique t key).
  - exfalso. apply (Hp i); [| done]. destruct Hi as (k & v & Hi & Hs).
    apply (tk_index t Ht i k v); [done |]. rewrite <-Hh. apply key_hash; [by apply (tk_key t Ht i k v) | done | done].
Qed.

Lemma reads_at t key i : table_ok t → K key → holds_at t key i → reads t key = read_value t i.
Proof.
  intros Ht Hk Hi. destruct (find_ok t key Ht Hk) as (r & Hr & Hp). unfold reads. rewrite Hr.
  apply Hp in Hi. by rewrite Hi.
Qed.

Lemma reads_none t key : table_ok t → K key → (∀ i, ¬ holds_at t key i) → reads t key = None.
Proof.
  intros Ht Hk Hn. destruct (find_ok t key Ht Hk) as (r & Hr & Hp). unfold reads. rewrite Hr.
  destruct r as [i|]; [| done]. destruct (Hn i). by apply Hp.
Qed.

(** Two tables read the same at a key, when it is at corresponding slots. *)
Lemma reads_same t t' key (f : nat → nat) :
  table_ok t → table_ok t' → K key →
  (∀ i, holds_at t' key i → holds_at t key (f i) ∧ read_value t' i = read_value t (f i)) →
  (∀ i, holds_at t key i → ∃ j, holds_at t' key j) →
  reads t' key = reads t key.
Proof.
  intros Ht Ht' Hk Hto Hfrom. destruct (find_ok t' key Ht' Hk) as (r & Hr & Hp). destruct r as [i|].
  - pose proof (proj1 (Hp i) eq_refl) as Hi. destruct (Hto i Hi) as [Hfi Hv].
    by rewrite (reads_at t' key i), (reads_at t key (f i)).
  - assert (∀ i, ¬ holds_at t' key i) as Hn. { intros i Hi%Hp. done. }
    rewrite (reads_none t' key Ht' Hk Hn), (reads_none t key Ht Hk); [done |].
    intros i Hi. destruct (Hfrom i Hi) as [j Hj]. by apply (Hn j).
Qed.

Lemma hashtable_new_ok : table_ok (hashtable_new kind).
Proof.
  split; try done.
  - intros i hash Hi. cbn in Hi. by apply elem_of_nil in Hi.
  - intros i Hi. cbn in Hi. by destruct Hi.
Qed.

(** *** Writing *)

Lemma lookup_put_value t i j k v :
  is_Some (ht_items t !! i) →
  ht_items (put_value i k v t) !! j = if decide (j = i) then Some (k, v) else ht_items t !! j.
Proof.
  intros [x Hx]. unfold put_value. fields_goal. apply lookup_lt_Some in Hx.
  case_decide as Hj; [subst; by rewrite list_lookup_insert_eq | by rewrite list_lookup_insert_ne].
Qed.

Lemma put_value_ok t i k v w : table_ok t → ht_items t !! i = Some (k, w) → table_ok (put_value i k v t).
Proof.
  intros Ht Hi. assert (∀ j k' v', ht_items (put_value i k v t) !! j = Some (k', v') →
    ∃ v'', ht_items t !! j = Some (k', v'')) as Hback.
  { intros j k' v'. rewrite lookup_put_value by eauto. case_decide; [| by eauto]. intros [= <- <-]. subst. eauto. }
  split.
  - apply Ht.
  - intros j k' v' (v'' & Hj)%Hback. by apply (tk_key t Ht j k' v'').
  - intros j k' v' hash (v'' & Hj)%Hback. by apply (tk_index t Ht j k' v'').
  - intros j hash Hj. destruct (tk_bucket t Ht j hash Hj) as (k' & v' & Hj' & Hh).
    rewrite lookup_put_value by eauto. case_decide; [| by eauto]. subst. simplify_eq. eauto.
  - intros j1 j2 k1 v1 k2 v2 (u1 & H1)%Hback (u2 & H2)%Hback. by apply (tk_distinct t Ht _ _ k1 u1 k2 u2).
  - intros j. unfold put_value. fields_goal. rewrite length_insert. intros [x [_ Hx]%lookup_delete_Some].
    apply (tk_weak t Ht). by eexists.
Qed.

Lemma read_put_value t i j k v :
  is_Some (ht_items t !! i) → read_value (put_value i k v t) j = if decide (j = i) then Some v else read_value t j.
Proof.
  intros Hi. unfold read_value. rewrite lookup_put_value by done. unfold put_value. fields_goal.
  case_decide as Hj; [subst; rewrite lookup_delete_eq; by destruct v | by rewrite lookup_delete_ne].
Qed.

Lemma holds_put_value t key i j k v w :
  ht_items t !! i = Some (k, w) → holds_at (put_value i k v t) key j ↔ holds_at t key j.
Proof.
  intros Hi. unfold holds_at. rewrite lookup_put_value by eauto.
  case_decide; [subst; rewrite Hi; naive_solver | done].
Qed.

(** *** Adding *)

Lemma bucket_insert t hash hash' i :
  bucket (index_insert hash i t) hash' = bucket t hash' ++ (if decide (hash' = hash) then [i] else []).
Proof.
  unfold index_insert. fields_goal. case_decide; [subst; by rewrite lookup_insert_eq |].
  by rewrite lookup_insert_ne, app_nil_r.
Qed.

Lemma lookup_push t key v hash i :
  ht_items (push_entry key v hash t) !! i =
    if decide (i = length (ht_items t)) then Some (key, v) else ht_items t !! i.
Proof.
  unfold push_entry, index_insert. fields_goal. case_decide as Hi.
  - subst. by rewrite list_lookup_middle.
  - destruct (decide (i < length (ht_items t))); [by rewrite lookup_app_l |].
    rewrite lookup_app_r, !(proj2 (lookup_ge_None _ _)); [done | lia | cbn; lia | lia].
Qed.

Definition small (t : Hashtable) : Prop := (N.of_nat (length (ht_items t)) < 2 ^ 32)%N.

Lemma as_u32_small (n : nat) : (N.of_nat n < 2 ^ 32)%N → as_u32 n = n.
Proof. intros Hn. unfold as_u32. rewrite N.mod_small by done. lia. Qed.

Lemma next_index_small t : small t → next_index t = length (ht_items t).
Proof. apply as_u32_small. Qed.

Lemma push_entry_ok t key v hash :
  table_ok t → K key → small t → hash_value h key kind = Some hash → (∀ i, ¬ holds_at t key i) →
  table_ok (push_entry key v hash t).
Proof.
  intros Ht Hk Hs Hh Hn. set (n := length (ht_items t)).
  assert (∀ hash', bucket (push_entry key v hash t) hash' = bucket t hash' ++ if decide (hash' = hash) then [n] else []) as Hbk.
  { intros hash'. unfold push_entry. by rewrite bucket_insert, next_index_small. }
  assert (∀ i k w, ht_items (push_entry key v hash t) !! i = Some (k, w) →
    (i = n ∧ k = key ∧ w = v) ∨ i ≠ n ∧ ht_items t !! i = Some (k, w)) as Hcase.
  { intros i k w. rewrite lookup_push. fold n. case_decide; [intros [= <- <-]; by left | by right]. }
  split.
  - apply Ht.
  - intros i k w [(-> & -> & ->)|[_ Hi]]%Hcase; [done | by apply (tk_key t Ht i k w)].
  - intros i k w hash' [(-> & -> & ->)|[_ Hi]]%Hcase Hh'; rewrite Hbk, elem_of_app.
    + right. simplify_eq. rewrite decide_True by done. left.
    + left. by apply (tk_index t Ht i k w).
  - intros i hash'. rewrite Hbk, elem_of_app, lookup_push. fold n. intros [Hi|Hi].
    + destruct (tk_bucket t Ht i hash' Hi) as (k & w & Hiw & Hhk). rewrite decide_False; [by eauto |].
      apply lookup_lt_Some in Hiw. unfold n. lia.
    + case_decide; [| by apply elem_of_nil in Hi]. apply list_elem_of_singleton in Hi as ->. subst.
      rewrite decide_True by done. eauto.
  - intros i j k1 v1 k2 v2 [(-> & -> & ->)|[Hin Hi]]%Hcase [(-> & -> & ->)|[Hjn Hj]]%Hcase Hsame; [done | | |].
    + exfalso. apply (Hn j). exists k2, v2. split; [done |]. apply key_sym; [done | by apply (tk_key t Ht j k2 v2) | done].
    + exfalso. apply (Hn i). by exists k1, v1.
    + by apply (tk_distinct t Ht i j k1 v1 k2 v2).
  - intros i Hi. apply (tk_weak t Ht) in Hi. unfold push_entry, index_insert. fields_goal. rewrite length_app. lia.
Qed.

Lemma read_push t key v hash i :
  table_ok t → read_value (push_entry key v hash t) i =
    if decide (i = length (ht_items t)) then Some v else read_value t i.
Proof.
  intros Ht. unfold read_value. rewrite lookup_push. unfold push_entry, index_insert. fields_goal. case_decide as Hi; [| done].
  destruct (ht_weak t !! i) eqn:E; [| by destruct v]. pose proof (tk_weak t Ht i ltac:(by eexists)). lia.
Qed.

Lemma holds_push t key v hash key' i :
  holds_at (push_entry key v hash t) key' i ↔ (i = length (ht_items t) ∧ same key key') ∨ holds_at t key' i.
Proof.
  unfold holds_at. rewrite lookup_push. case_decide as Hi; [| naive_solver]. subst. split; [naive_solver |].
  intros [[_ Hs]|(k & w & Hl & _)]; [by eauto |]. apply lookup_lt_Some in Hl. lia.
Qed.

(** *** Removing *)

Lemma reindex_ok l index :
  (∀ i k, (i, k) ∈ l → K k ∧ as_u32 i = i) →
  ∃ index', foldl (reindex_one h kind) (Some index) l = Some index' ∧
    ∀ i hash, i ∈ default [] (index' !! hash) ↔
      i ∈ default [] (index !! hash) ∨ ∃ k, (i, k) ∈ l ∧ hash_value h k kind = Some hash.
Proof.
  revert index. induction l as [|[i k] l IH]; intros index Hl; cbn [foldl].
  { exists index. split; [done |]. intros i hash. split; [by left |]. by intros [?|(k & Hk%elem_of_nil & _)]. }
  destruct (Hl i k) as [Hk Hi32]; [left |].
  destruct (key_hash_total k Hk) as [hash Hh]. unfold reindex_one at 2. cbn [fst snd]. rewrite Hh, Hi32.
  destruct (IH (<[hash := default [] (index !! hash) ++ [i]]> index)) as (index' & Hf & Hi').
  { intros j k' Hj. apply (Hl j k'). by right. }
  exists index'. split; [done |]. intros j hash'. rewrite Hi'. setoid_rewrite elem_of_cons.
  destruct (decide (hash' = hash)) as [->|Hne].
  - rewrite lookup_insert_eq. cbn. rewrite elem_of_app, list_elem_of_singleton. naive_solver.
  - rewrite lookup_insert_ne by done. naive_solver.
Qed.

Lemma swap_remove_lookup t i j :
  i < length (ht_items t) →
  ht_items (swap_remove_item i t) !! j =
    if decide (j < length (ht_items t) - 1)
    then ht_items t !! (if decide (j = i) then length (ht_items t) - 1 else j) else None.
Proof.
  intros Hi. unfold swap_remove_item. fields_goal. rewrite lookup_swap_remove by done.
  case_decide; [| done]. case_decide; [| done]. rewrite last_lookup. f_equal. lia.
Qed.

(** Where the item at [j] was. *)
Definition moved (t : Hashtable) (i j : nat) : nat := if decide (j = i) then length (ht_items t) - 1 else j.

Lemma moved_inj t i j j' :
  j < length (ht_items t) - 1 → j' < length (ht_items t) - 1 → moved t i j = moved t i j' → j = j'.
Proof. unfold moved. intros ? ?. repeat case_decide; lia. Qed.

Lemma swap_remove_Some t i j k v :
  i < length (ht_items t) → ht_items (swap_remove_item i t) !! j = Some (k, v) →
  j < length (ht_items t) - 1 ∧ ht_items t !! moved t i j = Some (k, v).
Proof. intros Hi. rewrite swap_remove_lookup by done. by case_decide. Qed.

Lemma reindexed_ok t i :
  table_ok t → small t → i < length (ht_items t) →
  ∃ t', ht_reindex_all h (swap_remove_item i t) = Some t' ∧ table_ok t' ∧
    ht_items t' = ht_items (swap_remove_item i t) ∧ ht_weak t' = ht_weak (swap_remove_item i t).
Proof.
  intros Ht Hsm Hi. unfold ht_reindex_all. change (ht_eq_kind (swap_remove_item i t)) with (ht_eq_kind t).
  rewrite (tk_kind t Ht). set (s := swap_remove_item i t).
  assert (∀ j k v, ht_items s !! j = Some (k, v) → K k) as HKs.
  { intros j k v [_ Hj]%swap_remove_Some; [| done]. by apply (tk_key t Ht (moved t i j) k v). }
  assert (∀ j k, (j, k) ∈ imap (λ i (kv : Value * Value), (i, kv.1)) (ht_items s) ↔ ∃ v, ht_items s !! j = Some (k, v)) as Hel.
  { intros j k. rewrite elem_of_lookup_imap. split; [intros (n & [k' v'] & [= -> ->] & Hn); by eauto |].
    intros [v Hv]. exists j, (k, v). by split. }
  destruct (reindex_ok (imap (λ i kv, (i, kv.1)) (ht_items s)) ∅) as (index & Hf & Hx).
  { intros j k [v Hj]%Hel. split; [by apply (HKs j k v) |]. apply as_u32_small.
    apply swap_remove_Some in Hj as [Hj _]; [| done]. unfold small in Hsm. lia. }
  rewrite Hf. eexists. split; [done |]. split; [| done].
  assert (∀ j hash, j ∈ default [] (index !! hash) ↔ ∃ k v, ht_items s !! j = Some (k, v) ∧ hash_value h k kind = Some hash) as Hb.
  { intros j hash. rewrite Hx, lookup_empty. cbn. setoid_rewrite Hel. set_solver. }
  split; fields_goal.
  - apply Ht.
  - apply HKs.
  - intros j k v hash Hj Hh. apply Hb. eauto.
  - intros j hash. apply Hb.
  - intros j1 j2 k1 v1 k2 v2 [Hl1 H1]%swap_remove_Some [Hl2 H2]%swap_remove_Some Hs; [| done | done].
    apply (moved_inj t i j1 j2 Hl1 Hl2). by apply (tk_distinct t Ht (moved t i j1) (moved t i j2) k1 v1 k2 v2).
  - intros j. unfold s, swap_remove_item. fields_goal. rewrite length_swap_remove.
    rewrite lookup_swap_remove_weak; [case_decide; [done | by intros [? ?]] | lia |].
    intros k Hk%(tk_weak t Ht). lia.
Qed.

Lemma read_swap_remove t i j :
  table_ok t → i < length (ht_items t) → j < length (ht_items t) - 1 →
  read_value (swap_remove_item i t) j = read_value t (moved t i j).
Proof.
  intros Ht Hi Hj. unfold read_value. rewrite swap_remove_lookup, decide_True by done. fold (moved t i j).
  assert (ht_weak (swap_remove_item i t) !! j = ht_weak t !! moved t i j) as ->; [| done].
  unfold swap_remove_item. fields_goal. rewrite lookup_swap_remove_weak, decide_True; [| done | lia |].
  - unfold moved. by case_decide.
  - intros k Hk%(tk_weak t Ht). lia.
Qed.

(** ** The operations *)

Definition key_eqb (a b : Value) : bool := bool_decide (ht_eq kind h a b = Some true).

Lemma key_eqb_true a b : key_eqb a b = true ↔ same a b.
Proof. apply bool_decide_eq_true. Qed.

Lemma holds_same t key key' i : table_ok t → K key → K key' → same key key' → holds_at t key i → holds_at t key' i.
Proof.
  intros Ht Hk Hk' Hs (k & v & Hi & Hki). exists k, v. split; [done |].
  apply (key_trans k key key'); try done. by apply (tk_key t Ht i k v).
Qed.

Lemma table_set_ok t key key' v :
  table_ok t → small t → K key → K key' →
  ∃ t' i, table_set h t key v = Some (t', i) ∧ table_ok t' ∧ read_value t' i = Some v ∧ holds_at t' key i ∧
    reads t' key' = if key_eqb key key' then Some v else reads t key'.
Proof.
  intros Ht Hsm Hk Hk'. unfold table_set. destruct (find_ok t key Ht Hk) as (r & -> & Hr). destruct r as [i|].
  - pose proof (proj1 (Hr i) eq_refl) as Hi. pose proof Hi as (k & w & Hw & Hkk). rewrite Hw.
    exists (put_value i k v t), i. pose proof (put_value_ok t i k v w Ht Hw) as Ht'.
    assert (∀ x j, holds_at (put_value i k v t) x j ↔ holds_at t x j) as Hho by (intros; by eapply holds_put_value).
    assert (read_value (put_value i k v t) i = Some v) as Hrd by (by rewrite read_put_value, decide_True by eauto).
    split_and!; [done | done | done | by apply Hho |]. destruct (key_eqb key key') eqn:He.
    + apply key_eqb_true in He. rewrite (reads_at _ key' i); [done | done | done |].
      apply Hho. by apply (holds_same t key).
    + apply (reads_same t _ key' id); [done | done | done | | intros j Hj; exists j; by apply Hho].
      intros j Hj%Hho. split; [done |]. rewrite read_put_value by eauto. rewrite decide_False; [done |]. intros ->.
      apply not_true_iff_false in He. apply He, key_eqb_true. destruct Hj as (k' & w' & Hj & Hs). simplify_eq.
      pose proof (tk_key t Ht i k w Hw). apply (key_trans key k key'); try done. by apply key_sym.
  - assert (∀ i, ¬ holds_at t key i) as Hn by (intros i Hi%Hr; done).
    rewrite (tk_kind t Ht). destruct (key_hash_total key Hk) as [hash Hh]. rewrite Hh.
    exists (push_entry key v hash t), (next_index t). rewrite next_index_small by done.
    pose proof (push_entry_ok t key v hash Ht Hk Hsm Hh Hn) as Ht'.
    assert (holds_at (push_entry key v hash t) key (length (ht_items t))) as Hat.
    { apply holds_push. left. split; [done | by apply key_refl]. }
    assert (read_value (push_entry key v hash t) (length (ht_items t)) = Some v) as Hrd.
    { by rewrite read_push, decide_True. }
    split_and!; [done | done | done | done |]. destruct (key_eqb key key') eqn:He.
    + apply key_eqb_true in He. rewrite (reads_at _ key' (length (ht_items t))); [done | done | done |].
      by apply (holds_same _ key).
    + apply not_true_iff_false in He. rewrite key_eqb_true in He.
      apply (reads_same t _ key' id); [done | done | done | | intros j Hj; exists j; apply holds_push; by right].
      intros j [[_ ?]|Hj]%holds_push; [done |]. split; [done |]. rewrite read_push, decide_False; [done | | done].
      destruct Hj as (k & w & Hj%lookup_lt_Some & _). lia.
Qed.

Lemma table_delete_ok t key key' :
  table_ok t → small t → K key → K key' →
  ∃ t', table_delete h t key = Some t' ∧ table_ok t' ∧
    reads t' key' = if key_eqb key key' then None else reads t key'.
Proof.
  intros Ht Hsm Hk Hk'. unfold table_delete. destruct (find_ok t key Ht Hk) as (r & -> & Hr). destruct r as [i|].
  - pose proof (proj1 (Hr i) eq_refl) as Hi. pose proof Hi as (k & w & Hw & Hkk).
    pose proof (lookup_lt_Some _ _ _ Hw) as Hil.
    destruct (reindexed_ok t i Ht Hsm Hil) as (t' & -> & Ht' & Hit & Hwt). exists t'. split_and!; [done | done |].
    assert (∀ x j, holds_at t' x j → j < length (ht_items t) - 1 ∧ holds_at t x (moved t i j)) as Hback.
    { intros x j (k' & w' & Hj & Hs). rewrite Hit in Hj. apply swap_remove_Some in Hj as [Hl Hj]; [| done].
      split; [done |]. by exists k', w'. }
    destruct (key_eqb key key') eqn:He.
    + apply key_eqb_true in He. apply reads_none; [done | done |]. intros j [Hj Hm]%Hback.
      pose proof (holds_same t key key' i Ht Hk Hk' He Hi) as Hi'.
      pose proof (holds_at_unique t key' _ _ Ht Hk' Hm Hi') as Heq. unfold moved in Heq. case_decide; lia.
    + apply not_true_iff_false in He. rewrite key_eqb_true in He.
      apply (reads_same t _ key' (moved t i)); [done | done | done | |].
      * intros j Hj. destruct (Hback _ _ Hj) as [Hl Hm]. split; [done |].
        rewrite <-read_swap_remove by done. unfold read_value. by rewrite Hit, Hwt.
      * intros j Hj. assert (j ≠ i) as Hji.
        { intros ->. destruct Hj as (k' & w' & Hj & Hs). simplify_eq. apply He.
          pose proof (tk_key t Ht i k w Hw). apply (key_trans key k key'); try done. by apply key_sym. }
        destruct Hj as (k' & w' & Hj & Hs). pose proof (lookup_lt_Some _ _ _ Hj) as Hjl.
        exists (if decide (j = length (ht_items t) - 1) then i else j). exists k', w'. split; [| done].
        rewrite Hit, swap_remove_lookup by done.
        destruct (decide (j = length (ht_items t) - 1)) as [->|?].
        -- rewrite decide_True, decide_True by lia. done.
        -- rewrite decide_True, decide_False by lia. done.
  - exists t. split_and!; [done | done |]. case_match eqn:He; [| done]. apply key_eqb_true in He.
    apply reads_none; [done | done |]. intros i Hi. apply (holds_same t key' key) in Hi; [| done | done | done | by apply key_sym].
    by apply Hr in Hi.
Qed.

Lemma table_clear_ok t key : table_ok t → K key → table_ok (table_clear t) ∧ reads (table_clear t) key = None.
Proof.
  intros Ht Hk. assert (table_ok (table_clear t)) as Ht'.
  { unfold table_clear, clear_items. split; fields_goal; try done.
    - apply Ht.
    - intros i hash. rewrite lookup_empty. by intros ?%elem_of_nil.
    - intros i. rewrite lookup_empty. by intros [? ?]. }
  split; [done |]. apply reads_none; [done | done |]. by intros i (k & v & Hi & _).
Qed.

End ops.
End table.

(** ** The built-in kinds *)

Section builtin.
Context {B R : Type} `{HB : BigIntLaws B} `{HR : !BigRational R B, !BigRationalLaws R B} `{HD : DefaultHasher}.

Notation Value := (Value (Leaf B R)).
Notation Hashtable := (Hashtable (Leaf B R)).
Notation Heap := (gmap addr (Cell (Leaf B R))).

Lemma key_laws kind (h : Heap) : kind ≠ CustomKind → keyable_heap kind h → KeyLaws kind h (keyable kind).
Proof.
  intros Hc Hh. assert (∀ a b : Value, keyable kind a → keyable kind b → kind ≠ EqKind → hashable a ∧ hashable b) as Hab.
  { intros a b Ha Hb Hk. destruct kind; try done; by destruct Ha, Hb. }
  destruct kind; [| | | done]; split; cbn [ht_eq hash_value]; try (by eexists).
  - intros a Ha. by f_equal.
  - intros a b _ _ [= He]. pose proof (eq_true a b He). subst. by rewrite He.
  - intros a b c _ _ _ [= He] [= He']. by rewrite (eq_true a b He), He'.
  - intros a b _ _ [= He]. by rewrite (eq_true a b He).
  - intros a [_ Ha]. by f_equal.
  - intros a b [Ha _] [Hb _] [= He]. pose proof (eqv_hashable a b Ha Hb He). subst. by rewrite He.
  - intros a b c [Ha _] [Hb _] _ [= He] [= He']. by rewrite (eqv_hashable a b Ha Hb He), He'.
  - intros a b [Ha _] [Hb _] [= He]. by rewrite (eqv_hashable a b Ha Hb He).
  - destruct (Hh eq_refl) as [Hhh Hac]. intros a [Ha Hr]. apply equal_iff; [done |]. intros [|d]; [done | by left].
  - destruct (Hh eq_refl) as [Hhh Hac]. intros a b _ _. destruct (equal_ends h a b Hac) as (r & -> & _). by eexists.
  - destruct (Hh eq_refl) as [Hhh Hac]. intros a b [Ha _] [Hb _]. rewrite !equal_iff by done. intros He d. by apply upto_sym.
  - destruct (Hh eq_refl) as [Hhh Hac]. intros a b c [Ha _] [Hb _] [Hc' _]. rewrite !equal_iff by done. intros H1 H2 d.
    by apply (upto_trans h d a b c).
  - destruct (Hh eq_refl) as [Hhh Hac]. intros a b Ha Hb He.
    apply (hash_same h EqualKind a b); [by apply Hab | done | done].
Qed.

(** C23: a hashtable is a finite map. Take a table of a built-in kind (not of the
    procedures of a program) with fewer than 2^32 entries, and keys that its
    equality holds of with themselves: for [eq?] no flonum, big integer or
    rational, for [eqv?] and [equal?] no NaN; and for these two no negative
    zero and only numbers in canonical form, for [equal?] also in the heap,
    where no vector may contain itself through vectors.  Setting, deleting and
    clearing then keep the table's invariant and change what it reads, through
    bucket index, swap-removal and tombstones, as updating, deleting and
    emptying a map whose keys are taken up to the table's equality. *)
Theorem hashtable_refines_map kind h (t : Hashtable) key key' v :
  kind ≠ CustomKind → keyable_heap kind h → table_ok kind h (keyable kind) t → small t →
  keyable kind key → keyable kind key' →
  (∃ t' i, table_set h t key v = Some (t', i) ∧ table_ok kind h (keyable kind) t' ∧
     reads h t' key' = if key_eqb kind h key key' then Some v else reads h t key') ∧
  (∃ t', table_delete h t key = Some t' ∧ table_ok kind h (keyable kind) t' ∧
     reads h t' key' = if key_eqb kind h key key' then None else reads h t key') ∧
  table_ok kind h (keyable kind) (table_clear t) ∧ reads h (table_clear t) key' = None.
Proof.
  intros Hc Hh Ht Hs Hk Hk'. pose proof (key_laws kind h Hc Hh) as HK. split_and!.
  - destruct (table_set_ok kind h _ t key key' v Ht Hs Hk Hk') as (t' & i & ? & ? & _ & _ & ?). by exists t', i.
  - by apply table_delete_ok.
  - by apply (table_clear_ok kind h _ t key').
  - by apply (table_clear_ok kind h _ t key').
Qed.

End builtin.
