(* ===== verification/TableMutate.v ===== *)
(** * Assignment to vectors and hashtables

    [vector-set!] and [hashtable-set!] of [Table] on the counted heap: the
    counts stay exact, nothing but the container changes, and the container
    reads back what was stored, whether or not the cycle detector demoted the
    slot. *)

From stdpp Require Import base numbers gmap fin_maps sorting list relations.
From Stdlib Require Import ZArith QArith Strings.Byte Floats.SpecFloat.
From S2P Require Import Prelude RaftTypes Float64 BigNum Number NumberFacts Trial TrialFacts GcHeap GcFacts GcMutate.
From S2P Require Import Equal EqualFacts Table TableFacts.

Local Open Scope crab_scope.
Local Open Scope nat_scope.

(** ** Objects of held cells *)

Section objects.
Context {L : Type}.

Notation Value := (Value L).
Notation Object := (Object L).
Notation Memory := (Memory L).
Notation Heap := (gmap addr (Cell L)).

Implicit Types (h : Heap) (v w : Value) (o : Object).

Definition obj_at h (a : addr) o : Prop := ∃ c, h !! a = Some c ∧ c_object c = o.

Lemma obj_kept H h h' a o : heap_ok H h' → a ∈ H → shrinks h h' → obj_at h a o → obj_at h' a o.
Proof.
  intros Hh' Ha Hs (c & Hc & Ho). destruct (handle_present H h' a Hh' Ha) as [c' Hc'].
  destruct (Hs a c' Hc') as (c0 & Hc0 & Ho'). simplify_eq. by exists c'.
Qed.

Lemma obj_put h a o o' : obj_at h a o → obj_at (put_object a o' h) a o'.
Proof.
  intros (c & Hc & _). exists (MkCell (c_strong c) o'). split; [| done]. unfold put_object.
  by rewrite lookup_alter_eq, Hc.
Qed.

Lemma obj_clone H h a o v :
  heap_ok H h → (∀ b, heap_addr v = Some b → b ∈ H) → obj_at h a o →
  heap_ok (value_addrs v ++ H) (clone_value v h) ∧ shrinks h (clone_value v h) ∧ obj_at (clone_value v h) a o.
Proof.
  intros Hh Hv (c & Hc & Ho). destruct (clone_value_ok H h v Hh) as (H1 & H2 & H3).
  { intros b Hb. by apply (handle_present H h b Hh), Hv. }
  split_and!; [done | done |]. destruct (H3 a c Hc) as (c' & Hc' & Ho'). exists c'. by rewrite Ho'.
Qed.

(** A held object is exchanged for one that has the references [new], which
    were handles, in place of those of [old], which is dropped. *)
Lemma exchange_ok new k H h a o o' old :
  heap_ok (new ++ H) h → a ∈ H → obj_at h a o →
  (∀ b, occ b (cycle_children o') = occ b new + occ b k) →
  (∀ b, occ b (cycle_children o) = occ b (value_addrs old) + occ b k) →
  heap_ok H (drop_value old (put_object a o' h)) ∧ alters {[a]} h (drop_value old (put_object a o' h)) ∧
  obj_at (drop_value old (put_object a o' h)) a o'.
Proof.
  intros Hh Ha Ho Hn Hm. pose proof Ho as (c & Hc & Hoc).
  assert (heap_ok (value_addrs old ++ H) (put_object a o' h)) as Hp.
  { apply (put_object_ok new _ k H h a c); [done | done | done |]. unfold cell_children. by rewrite Hoc. }
  destruct (drop_value_ok _ _ _ Hp) as [H1 H2]. split_and!; [done | by eapply put_shrinks_alters |].
  apply (obj_kept H _ _ _ _ H1 Ha H2). by eapply obj_put.
Qed.

(** ** Demoting a slot *)

(** What [vector_break_slot_cycle] and [break_value_cycle] do to a slot that
    holds [current]; [o'] is the object with the slot demoted. *)
Definition demote_slot (limit baseline : nat) (a : addr) (current : Value) (o' : Object) (h : Heap) : Heap * bool :=
  let h := clone_value current h in
  let total := default 0 (heap_strong_count h current) in
  if decide (total ≤ baseline) then (drop_value current h, false)
  else if negb (value_reaches_container limit h current a) then (drop_value current h, false)
  else
    match weak_from_value current with
    | None => (drop_value current h, false)
    | Some _ => (drop_value current (drop_value current (put_object a o' h)), true)
    end.

Lemma demote_slot_ok limit baseline H h a current o o' k :
  heap_ok H h → a ∈ H → obj_at h a o → (∀ b, heap_addr current = Some b → b ∈ H) →
  (∀ b, occ b (cycle_children o) = occ b (value_addrs current) + occ b k) →
  (∀ b, occ b (cycle_children o') = occ b k) →
  let h' := (demote_slot limit baseline a current o' h).1 in
  heap_ok H h' ∧ alters {[a]} h h' ∧ (obj_at h' a o ∨ is_Some (heap_addr current) ∧ obj_at h' a o').
Proof.
  intros Hh Ha Ho Hcur Hk Hk'. destruct (obj_clone H h a o current Hh Hcur Ho) as (H1 & H2 & H3).
  assert (∀ ok : bool, let h' := (drop_value current (clone_value current h), ok).1 in
    heap_ok H h' ∧ alters {[a]} h h' ∧ (obj_at h' a o ∨ is_Some (heap_addr current) ∧ obj_at h' a o')) as Hskip.
  { intros ok. cbn [fst]. destruct (drop_value_ok _ _ _ H1) as [H4 H5]. split_and!; [done | |].
    - etrans; [by apply shrinks_alters | by apply shrinks_alters].
    - left. by apply (obj_kept H _ _ _ _ H4 Ha H5). }
  unfold demote_slot. case_decide; [apply Hskip |]. destruct (negb _); [apply Hskip |].
  unfold weak_from_value. destruct (heap_addr current) as [x|] eqn:Hx; [| apply Hskip]. cbn [fst].
  destruct (exchange_ok [] k (value_addrs current ++ H) _ a o o' current H1) as (H4 & H5 & H6);
    [apply elem_of_app; by right | done | done | done |].
  destruct (drop_value_ok _ _ _ H4) as [H7 H8]. split_and!; [done | |].
  - etrans; [by apply shrinks_alters |]. etrans; [exact H5 | by apply shrinks_alters].
  - right. split; [by exists x |]. by apply (obj_kept H _ _ _ _ H7 Ha H8).
Qed.

(** What the end of an assignment does, given what the demotion does. *)
Lemma after_set_ok limit H brk a v (m : Memory) (P : Heap → Prop) :
  heap_ok H (m_heap m) → P (m_heap m) →
  (let h' := (brk limit 3 a (m_heap m)).1 in heap_ok H h' ∧ alters {[a]} (m_heap m) h' ∧ P h') →
  let h' := m_heap (after_set limit brk a v m) in heap_ok H h' ∧ alters {[a]} (m_heap m) h' ∧ P h'.
Proof.
  intros Hh HP Hbrk. unfold after_set. destruct (value_is_acyclic_leaf v); [done |].
  destruct (cycle_check _ _ _); [| done].
  change (m_heap (record_cycle_with_candidate a m)) with (m_heap m).
  destruct (brk limit 3 a (m_heap m)) as [h' ok]. cbn [fst] in Hbrk. by destruct ok.
Qed.

(** A weak handle to a held cell upgrades. *)
Lemma upgrade_held H h v :
  heap_ok H h → (∀ b, heap_addr v = Some b → b ∈ H) → is_Some (heap_addr v) →
  default VUnspecified (upgrade h v) = v.
Proof. intros Hh Hv Hs. by rewrite (upgrade_handle H). Qed.

End objects.

(** ** Vectors *)

Section vectors.
Context {B R : Type} `{HB : BigInt B} `{HR : BigRational R B}.
Context (limit : nat) (H : list addr).

Notation Value := (Value (Leaf B R)).
Notation Vector := (Vector (Leaf B R)).
Notation Heap := (gmap addr (Cell (Leaf B R))).
Notation Memory := (Memory (Leaf B R)).

Implicit Types (h : Heap) (v : Value) (w : Vector).

Lemma vector_at_obj h a w : vector_at h a = Some w ↔ obj_at h a (OVector w).
Proof.
  unfold vector_at, obj_at. destruct (h !! a) as [c|]; cbn; [| by split; [| intros (c & ? & _)]]. split.
  - intros Hp. exists c. split; [done |]. by destruct (c_object c); simplify_eq.
  - by intros (c' & [= <-] & ->).
Qed.

(** The references of the other slots. *)
Definition others (l : list Value) (i : nat) : list addr :=
  omap heap_addr (take i l) ++ omap heap_addr (drop (S i) l).

Lemma omap_singleton v : omap heap_addr [v] = value_addrs v.
Proof. unfold value_addrs. cbn. by destruct (heap_addr v). Qed.

Lemma slot_children (l : list Value) i v b :
  l !! i = Some v → occ b (omap heap_addr l) = occ b (value_addrs v) + occ b (others l i).
Proof.
  intros Hi. rewrite <-(take_drop_middle l i v Hi) at 1. unfold others.
  change (v :: drop (S i) l) with ([v] ++ drop (S i) l).
  rewrite !omap_app, omap_singleton, !occ_app. lia.
Qed.

Lemma slot_children_insert (l : list Value) i v b :
  i < length l → occ b (omap heap_addr (<[i := v]> l)) = occ b (value_addrs v) + occ b (others l i).
Proof.
  intros Hi. rewrite (slot_children _ i v) by (by rewrite list_lookup_insert_eq). f_equal. unfold others.
  by rewrite take_insert_ge, drop_insert_lt by lia.
Qed.

Definition written w i v : Vector := w <| vc_weak ::= delete i |> <| vc_items ::= <[i := v]> |>.
Definition demoted w i v : Vector := w <| vc_weak ::= <[i := v]> |> <| vc_items ::= <[i := VUnspecified]> |>.

(** The vector at [a] is [w] but for the slot [i], which reads [v]. *)
Definition reads_vector w (a : addr) (i : nat) v h : Prop :=
  ∃ w', vector_at h a = Some w' ∧ (w' = written w i v ∨ is_Some (heap_addr v) ∧ w' = demoted (written w i v) i v).

Lemma vector_set_ok h a w i v :
  heap_ok (value_addrs v ++ H) h → a ∈ H → obj_at h a (OVector w) → i < length (vc_items w) →
  heap_ok H (vector_set a w i v h) ∧ alters {[a]} h (vector_set a w i v h) ∧
  obj_at (vector_set a w i v h) a (OVector (written w i v)).
Proof.
  intros Hh Ha Ho Hi. destruct (lookup_lt_is_Some_2 _ _ Hi) as [old Hold].
  unfold vector_set. rewrite Hold. fold (written w i v).
  apply (exchange_ok (value_addrs v) (others (vc_items w) i) H h a (OVector w)); [done | done | done | |].
  - intros b. unfold cycle_children, written. cbn [obj_values]. fields_goal. by apply slot_children_insert.
  - intros b. by apply slot_children.
Qed.

Lemma vector_break_ok baseline h a w i v :
  heap_ok H h → a ∈ H → obj_at h a (OVector w) → vc_items w !! i = Some v → (∀ b, heap_addr v = Some b → b ∈ H) →
  let h' := (vector_break_slot_cycle limit i baseline a h).1 in
  heap_ok H h' ∧ alters {[a]} h h' ∧
  (obj_at h' a (OVector w) ∨ is_Some (heap_addr v) ∧ obj_at h' a (OVector (demoted w i v))).
Proof.
  intros Hh Ha Ho Hi Hv.
  assert (vector_break_slot_cycle limit i baseline a h = demote_slot limit baseline a v (OVector (demoted w i v)) h) as ->.
  { unfold vector_break_slot_cycle. rewrite (proj2 (vector_at_obj h a w) Ho), Hi. unfold demote_slot, weak_from_value.
    by destruct (heap_addr v). }
  apply (demote_slot_ok limit baseline H h a v _ _ (others (vc_items w) i)); [done | done | done | done | |].
  - intros b. by apply slot_children.
  - intros b. unfold cycle_children, demoted. cbn [obj_values]. fields_goal.
    by rewrite slot_children_insert by (by apply lookup_lt_Some in Hi).
Qed.

(** Exchanging a held object for one with the same references. *)
Lemma refresh_ok h a (o o' : Object (Leaf B R)) :
  heap_ok H h → obj_at h a o → cycle_children o' = cycle_children o → heap_ok H (put_object a o' h).
Proof.
  intros Hh (c & Hc & Ho) Hch. apply (put_object_ok [] [] (cycle_children o) H h a c); [done | done | |].
  - intros b. by rewrite Hch.
  - intros b. unfold cell_children. by rewrite Ho.
Qed.

Lemma vector_get_reads h a w i v :
  heap_ok H h → (∀ b, heap_addr v = Some b → b ∈ H) → i < length (vc_items w) → reads_vector w a i v h →
  ∃ h', vector_get a i h = (h', Some v) ∧ heap_ok H h'.
Proof.
  intros Hh Hv Hi (w' & Hw' & Hcase). unfold vector_get. rewrite Hw'.
  destruct Hcase as [->|[Hs ->]]; unfold demoted, written; fields_goal.
  - rewrite list_lookup_insert_eq by done. rewrite lookup_delete_eq.
    assert (v = VUnspecified ∨ v ≠ VUnspecified) as [->|Hne] by (destruct v; auto; right; done); [by exists h |].
    assert (∀ x : gmap nat Value, heap_ok H (put_object a (OVector ((written w i v) <| vc_weak := x |>)) h)) as Hput.
    { intros x. apply (refresh_ok h a (OVector (written w i v))); [done | by apply vector_at_obj | done]. }
    destruct v; try done; (eexists; split; [done | apply (Hput (delete i (delete i (vc_weak w))))]).
  - rewrite list_lookup_insert_eq by (by rewrite length_insert). rewrite lookup_insert_eq.
    rewrite (upgrade_held H) by done. by exists h.
Qed.

(** Assignment to a vector. With handles to the vector and to the value,
    [vector-set!] within bounds keeps every count exact, changes no object but
    the vector and no other slot of it, and [vector-ref] then reads the value
    back, also when the detector has demoted the slot; outside of the bounds
    both report an error and change nothing. *)
Theorem vector_set_reads_back (m : Memory) a w i v :
  heap_ok H (m_heap m) → a ∈ H → (∀ b, heap_addr v = Some b → b ∈ H) → vector_at (m_heap m) a = Some w →
  let k := VLeaf (Numeric (Fixnum i)) in
  (0 ≤ i < Z.of_nat (length (vc_items w)))%Z ∧
    (∃ m' w' m'', b_vector_set limit [VVector a; k; v] m = (inr VUnspecified, m') ∧ heap_ok H (m_heap m') ∧
       alters {[a]} (m_heap m) (m_heap m') ∧ vector_at (m_heap m') a = Some w' ∧
       length (vc_items w') = length (vc_items w) ∧
       (∀ j, j ≠ Z.to_nat i → vc_items w' !! j = vc_items w !! j ∧ vc_weak w' !! j = vc_weak w !! j) ∧
       b_vector_ref [VVector a; k] m' = (inr v, m'') ∧ heap_ok (value_addrs v ++ H) (m_heap m'')) ∨
  ¬ (0 ≤ i < Z.of_nat (length (vc_items w)))%Z ∧
    (∃ e, b_vector_set limit [VVector a; k; v] m = (inl e, m) ∧ b_vector_ref [VVector a; k] m = (inl e, m)).
Proof.
  intros Hh Ha Hv Hw k. unfold b_vector_set, b_vector_ref, k. cbn [as_int_i64]. rewrite Hw.
  destruct (decide (i < 0)%Z) as [Hneg|Hneg]; [right; split; [lia | by eexists] |].
  destruct (decide (length (vc_items w) ≤ Z.to_nat i)) as [Hlen|Hlen].
  { right. split; [lia |]. exists IndexOutOfRange. split; [done |]. unfold vector_get.
    rewrite Hw, (proj2 (lookup_ge_None _ _)) by done. by destruct m. }
  left. split; [lia |]. set (n := Z.to_nat i) in *. assert (n < length (vc_items w)) as Hn by lia.
  destruct (obj_clone H _ a _ v Hh Hv (proj1 (vector_at_obj _ _ _) Hw)) as (H1 & H2 & H3).
  destruct (vector_set_ok _ a w n v H1 Ha H3 Hn) as (H4 & H5 & H6).
  set (m1 := m <| m_heap ::= _ |>).
  destruct (after_set_ok limit H (λ limit, vector_break_slot_cycle limit n) a v m1 (reads_vector w a n v)) as (H7 & H8 & H9).
  - done.
  - exists (written w n v). split; [by apply vector_at_obj | by left].
  - destruct (vector_break_ok 3 (m_heap m1) a (written w n v) n v H4 Ha H6) as (E1 & E2 & E3); [| done |].
    { unfold written. fields_goal. by apply list_lookup_insert_eq. }
    split_and!; [done | done |]. destruct E3 as [E3|[Es E3]]; eexists; (split; [by apply vector_at_obj |]); auto.
  - set (m' := after_set _ _ _ _ _) in *. pose proof H9 as (w' & Hw' & Hcase).
    destruct (vector_get_reads (m_heap m') a w n v H7 Hv Hn H9) as (h' & Hg & Hh').
    exists m', w', (m' <| m_heap := clone_value v h' |>). split_and!; [done | done | | done | | | by rewrite Hg |].
    + etrans; [| exact H8]. etrans; [by apply shrinks_alters | exact H5].
    + destruct Hcase as [->|[_ ->]]; unfold demoted, written; fields_goal; by rewrite ?length_insert.
    + intros j Hj. destruct Hcase as [->|[_ ->]]; unfold demoted, written; fields_goal;
        rewrite ?list_lookup_insert_ne, ?lookup_insert_ne, ?lookup_delete_ne by done; done.
    + fields_goal. apply clone_value_ok; [done |]. intros b Hb. by apply (handle_present H h' b Hh'), Hv.
Qed.

End vectors.

(** ** Hashtables *)

Section tables.
Context {B R : Type} `{HI : BigInt B, HB : !BigIntLaws B} `{HR : !BigRational R B, !BigRationalLaws R B} `{HD : DefaultHasher}.
Context (limit : nat) (kind : HtEqKind).

(** The kinds whose comparison does not look into the heap. *)
Context (Hkind : kind = EqKind ∨ kind = EqvKind).

Notation Value := (Value (Leaf B R)).
Notation Hashtable := (Hashtable (Leaf B R)).
Notation Heap := (gmap addr (Cell (Leaf B R))).
Notation Memory := (Memory (Leaf B R)).

Implicit Types (h : Heap) (k v : Value) (t : Hashtable).

Lemma table_at_obj h a t : table_at h a = Some t ↔ obj_at h a (OHashtable t).
Proof. apply table_at_Some. Qed.

Lemma compare_heap h h' a b : ht_eq kind h' a b = ht_eq kind h a b.
Proof. by destruct Hkind as [->| ->]. Qed.

Lemma hash_heap h h' a : hash_value h' a kind = hash_value h a kind.
Proof. by destruct Hkind as [->| ->]. Qed.

(** Tables that differ in values and tombstones only. *)
Definition same_keys t t' : Prop :=
  ht_eq_kind t' = ht_eq_kind t ∧ ht_index t' = ht_index t ∧ length (ht_items t') = length (ht_items t) ∧
  ∀ i, fst <$> ht_items t' !! i = fst <$> ht_items t !! i.

Lemma find_same h h' t t' key :
  ht_eq_kind t = kind → same_keys t t' → ht_find_index h' t' key = ht_find_index h t key.
Proof.
  intros Hk (Hk' & Hx & _ & Hi). unfold ht_find_index. rewrite Hk', Hx, Hk, (hash_heap h).
  destruct (hash_value h key kind) as [hash|]; [| done].
  induction (default [] (ht_index t !! hash)) as [|i l IH]; [done |]. cbn [find_in_bucket].
  specialize (Hi i). destruct (ht_items t' !! i) as [[k' v']|], (ht_items t !! i) as [[k v]|]; try done.
  injection Hi as ->. rewrite Hk', Hk, (compare_heap h), IH. done.
Qed.

Lemma table_ok_same h h' t t' K :
  same_keys t t' → (∀ i, is_Some (ht_weak t' !! i) → i < length (ht_items t)) → table_ok kind h K t →
  table_ok kind h' K t'.
Proof.
  intros (Hk' & Hx & Hl & Hi) Hw Ht.
  assert (∀ i k v, ht_items t' !! i = Some (k, v) → ∃ v', ht_items t !! i = Some (k, v')) as Hto.
  { intros i k v Hv. specialize (Hi i). rewrite Hv in Hi. destruct (ht_items t !! i) as [[k0 v0]|]; [| done].
    injection Hi as ->. eauto. }
  split.
  - rewrite Hk'. apply Ht.
  - intros i k v (v' & Hv)%Hto. by apply (tk_key _ _ _ t Ht i k v').
  - intros i k v hash (v' & Hv)%Hto Hh. rewrite Hx. rewrite (hash_heap h) in Hh. by apply (tk_index _ _ _ t Ht i k v').
  - intros i hash. rewrite Hx. intros (k & v & Hv & Hh)%(tk_bucket _ _ _ t Ht).
    specialize (Hi i). rewrite Hv in Hi. destruct (ht_items t' !! i) as [[k0 v0]|]; [| done]. injection Hi as ->.
    exists k, v0. by rewrite (hash_heap h).
  - intros i j k v k' v' (u & H1)%Hto (u' & H2)%Hto. rewrite (compare_heap h). by apply (tk_distinct _ _ _ t Ht i j k u k' u').
  - intros i Hw'%Hw. by rewrite Hl.
Qed.

Definition table_demoted t i k v : Hashtable :=
  t <| ht_weak ::= <[i := v]> |> <| ht_items ::= <[i := (k, VUnspecified)]> |>.

Lemma demoted_same_keys t i k v w : ht_items t !! i = Some (k, w) → same_keys t (table_demoted t i k v).
Proof.
  intros Hi. unfold table_demoted. split_and!; fields_goal; [done | done | by rewrite length_insert |].
  intros j. destruct (decide (j = i)) as [->|Hj].
  - rewrite list_lookup_insert_eq by (by apply lookup_lt_Some in Hi). by rewrite Hi.
  - by rewrite list_lookup_insert_ne.
Qed.

(** *** References *)

Definition table_others t i k : list addr :=
  table_addrs (<[i := (k, VUnspecified)]> (ht_items t)) ++ custom_addrs t.

Lemma table_slot t i k v b :
  ht_items t !! i = Some (k, v) →
  occ b (cycle_children (OHashtable t)) = occ b (value_addrs v) + occ b (table_others t i k).
Proof.
  intros Hi. rewrite table_children, occ_app, (table_addrs_insert _ _ _ _ Hi). unfold table_others.
  rewrite !occ_app. lia.
Qed.

Lemma put_value_slot t i k v w b :
  ht_items t !! i = Some (k, w) →
  occ b (cycle_children (OHashtable (put_value i k v t))) = occ b (value_addrs v) + occ b (table_others t i k).
Proof.
  intros Hi. rewrite (table_slot _ i k v) by (rewrite lookup_put_value, decide_True by eauto; done).
  f_equal. unfold table_others, custom_addrs, put_value. fields_goal. by rewrite list_insert_insert_eq.
Qed.

Lemma demoted_slot t i k v b :
  occ b (cycle_children (OHashtable (table_demoted t i k v))) = occ b (table_others t i k).
Proof. rewrite table_children. unfold table_others, custom_addrs, table_demoted. by fields_goal. Qed.

Lemma push_slot t key v hash b :
  occ b (cycle_children (OHashtable (push_entry key v hash t))) =
    occ b (value_addrs v ++ value_addrs key) + occ b (cycle_children (OHashtable t)).
Proof.
  rewrite !table_children. unfold push_entry, index_insert, custom_addrs, table_addrs. fields_goal.
  rewrite bind_app, bind_singleton, !occ_app. lia.
Qed.

Lemma table_break_ok baseline H h a t i k v :
  heap_ok H h → a ∈ H → obj_at h a (OHashtable t) → ht_items t !! i = Some (k, v) →
  (∀ b, heap_addr v = Some b → b ∈ H) →
  let h' := (break_value_cycle limit i baseline a h).1 in
  heap_ok H h' ∧ alters {[a]} h h' ∧
  (obj_at h' a (OHashtable t) ∨ is_Some (heap_addr v) ∧ obj_at h' a (OHashtable (table_demoted t i k v))).
Proof.
  intros Hh Ha Ho Hi Hv.
  assert (break_value_cycle limit i baseline a h = demote_slot limit baseline a v (OHashtable (table_demoted t i k v)) h) as ->.
  { unfold break_value_cycle. rewrite (proj2 (table_at_obj h a t) Ho), Hi. unfold demote_slot, weak_from_value.
    by destruct (heap_addr v). }
  apply (demote_slot_ok limit baseline H h a v _ _ (table_others t i k)); [done | done | done | done | |].
  - intros b. by apply table_slot.
  - intros b. apply demoted_slot.
Qed.

(** The table at [a] is [t], with the slot [i] of [v] possibly demoted. *)
Definition reads_table t (a : addr) (i : nat) (k v : Value) h : Prop :=
  ∃ t', table_at h a = Some t' ∧ (t' = t ∨ is_Some (heap_addr v) ∧ t' = table_demoted t i k v).

Lemma value_at_reads H h a t i k v :
  heap_ok H h → (∀ b, heap_addr v = Some b → b ∈ H) → ht_items t !! i = Some (k, v) → ht_weak t !! i = None →
  reads_table t a i k v h → ∃ h', value_at a i h = (h', Some v) ∧ heap_ok H h'.
Proof.
  intros Hh Hv Hi Hw (t' & Ht' & Hcase). unfold value_at. rewrite Ht'. destruct Hcase as [->|[Hs ->]].
  - rewrite Hi, Hw.
    assert (v = VUnspecified ∨ v ≠ VUnspecified) as [->|Hne] by (destruct v; auto; right; done); [by exists h |].
    assert (heap_ok H (put_object a (OHashtable (t <| ht_weak ::= delete i |>)) h)) as Hput.
    { apply (refresh_ok H h a (OHashtable t)); [done | by apply table_at_obj | by rewrite !table_children]. }
    destruct v; try done; by eexists.
  - unfold table_demoted. fields_goal. rewrite list_lookup_insert_eq by (by apply lookup_lt_Some in Hi).
    rewrite lookup_insert_eq, (upgrade_held H) by done. by exists h.
Qed.

(** The end of [hashtable-set!], once the table [t] is written. *)
Lemma finish_set H (m : Memory) a t i k v :
  heap_ok (a :: H) (m_heap m) → a ∈ H → obj_at (m_heap m) a (OHashtable t) → ht_items t !! i = Some (k, v) →
  (∀ b, heap_addr v = Some b → b ∈ H) →
  let h' := release a (m_heap (after_set limit (λ limit, break_value_cycle limit i) a v m)) in
  heap_ok H h' ∧ alters {[a]} (m_heap m) h' ∧ reads_table t a i k v h'.
Proof.
  intros Hh Ha Ho Hi Hv h'. assert (∀ b, heap_addr v = Some b → b ∈ a :: H) as Hv' by (intros b Hb; right; by apply Hv).
  destruct (after_set_ok limit (a :: H) (λ limit, break_value_cycle limit i) a v m
    (λ h, obj_at h a (OHashtable t) ∨ is_Some (heap_addr v) ∧ obj_at h a (OHashtable (table_demoted t i k v)))) as (H1 & H2 & H3).
  - done.
  - by left.
  - apply (table_break_ok 3 (a :: H)); try done. by right.
  - destruct (release_ok H _ a H1) as [H4 H5]. fold h' in H4, H5. split_and!; [done | |].
    + etrans; [exact H2 | by apply shrinks_alters].
    + assert (∀ o, obj_at (m_heap (after_set limit (λ limit, break_value_cycle limit i) a v m)) a o → obj_at h' a o) as Hk
        by (intros o; by apply (obj_kept H)).
      destruct H3 as [H3|[Hs H3]]; apply Hk, table_at_obj in H3; eexists; split; eauto.
Qed.

(** What [hashtable-set!] comes to. *)
Lemma b_hashtable_set_ok H (m : Memory) a t key v :
  heap_ok H (m_heap m) → a ∈ H → (∀ b, heap_addr key = Some b → b ∈ H) → (∀ b, heap_addr v = Some b → b ∈ H) →
  table_at (m_heap m) a = Some t → table_ok kind (m_heap m) (keyable kind) t → small t → keyable kind key →
  ∃ m' t1 i k, b_hashtable_set limit [VHashtable a; key; v] m = Some (inr VUnspecified, m') ∧
    table_set (m_heap m) t key v = Some (t1, i) ∧ ht_items t1 !! i = Some (k, v) ∧
    heap_ok H (m_heap m') ∧ alters {[a]} (m_heap m) (m_heap m') ∧ reads_table t1 a i k v (m_heap m').
Proof.
  intros Hh Ha Hkey Hv Ht Hok Hsm Hk. pose proof (tk_kind _ _ _ t Hok) as Htk.
  assert (kind ≠ CustomKind) as Hnc by (by destruct Hkind as [->| ->]).
  pose proof (key_laws kind (m_heap m) Hnc ltac:(by destruct Hkind as [->| ->])) as HK.
  pose proof (incref_ok H _ a Hh (handle_present H _ a Hh Ha)) as Hi. destruct (incref_shrinks (m_heap m) a) as [Hs1 Hs1'].
  assert (obj_at (incref a (m_heap m)) a (OHashtable t)) as Ho.
  { apply (obj_kept (a :: H) (m_heap m)); [done | left | done | by apply table_at_obj]. }
  assert (∀ w : Value, (∀ b, heap_addr w = Some b → b ∈ H) → ∀ G, ∀ b, heap_addr w = Some b → b ∈ G ++ a :: H) as Hheld.
  { intros w Hw G b Hb. apply elem_of_app. right. right. by apply Hw. }
  unfold b_hashtable_set, table_set. rewrite Ht. cbn zeta. fields_goal.
  rewrite (find_same (m_heap m) (incref a (m_heap m)) t t key Htk) by done. rewrite Htk, (hash_heap (m_heap m)).
  destruct (find_ok kind (m_heap m) _ t key Hok Hk) as (r & Hr & Hri). rewrite Hr. destruct r as [i|].
  - destruct (proj1 (Hri i) eq_refl) as (k & w & Hw & _). rewrite Hw.
    destruct (obj_clone (a :: H) _ a _ v Hi (Hheld v Hv []) Ho) as (H1 & H2 & H3).
    destruct (exchange_ok (value_addrs v) (table_others t i k) (a :: H) _ a _ (OHashtable (put_value i k v t)) w H1
      ltac:(left) H3) as (H4 & H5 & H6); [intros b; by eapply put_value_slot | intros b; by apply table_slot |].
    set (m1 := (m <| m_heap ::= incref a |>) <| m_heap ::= λ h, set_value_at a t i v (clone_value v h) |>).
    assert (m_heap m1 = drop_value w (put_object a (OHashtable (put_value i k v t)) (clone_value v (incref a (m_heap m))))) as Hm1.
    { unfold m1. fields_goal. unfold set_value_at. by rewrite Hw. }
    assert (ht_items (put_value i k v t) !! i = Some (k, v)) as Hit by (rewrite lookup_put_value, decide_True by eauto; done).
    destruct (finish_set H m1 a (put_value i k v t) i k v) as (E1 & E2 & E3);
      [by rewrite Hm1 | done | by rewrite Hm1 | done | done |].
    eexists _, (put_value i k v t), i, k. split_and!; [done | done | done | done | | done].
    etrans; [| exact E2]. rewrite Hm1. etrans; [by apply shrinks_alters |]. etrans; [by apply shrinks_alters | done].
  - destruct (key_hash_total key Hk) as [hash Hhash]. rewrite Hhash.
    destruct (obj_clone (a :: H) _ a _ key Hi (Hheld key Hkey []) Ho) as (H1 & H2 & H3).
    destruct (obj_clone _ _ a _ v H1 (Hheld v Hv _) H3) as (H4 & H5 & H6).
    destruct (exchange_ok (value_addrs v ++ value_addrs key) (cycle_children (OHashtable t)) (a :: H) _ a _
      (OHashtable (push_entry key v hash t)) VUnspecified ltac:(by rewrite <-app_assoc) ltac:(left) H6) as (H7 & H8 & H9);
      [intros b; apply push_slot | done |]. cbn [drop_value heap_addr] in H7, H8, H9.
    set (m1 := (m <| m_heap ::= incref a |>) <| m_heap ::= _ |>).
    assert (ht_items (push_entry key v hash t) !! next_index t = Some (key, v)) as Hit.
    { by rewrite next_index_small, lookup_push, decide_True. }
    destruct (finish_set H m1 a (push_entry key v hash t) (next_index t) key v) as (E1 & E2 & E3); [done | done | done | done | done |].
    eexists _, (push_entry key v hash t), (next_index t), key. split_and!; [done | done | done | done | | done].
    etrans; [by apply shrinks_alters |]. etrans; [by apply shrinks_alters |]. etrans; [by apply shrinks_alters |].
    etrans; [exact H8 | exact E2].
Qed.

(** Writing touches one slot and leaves it without a tombstone. *)
Lemma table_set_slot h t key v t1 i :
  table_ok kind h (keyable kind) t → small t → table_set h t key v = Some (t1, i) →
  ht_weak t1 !! i = None ∧ ∀ j, j ≠ i → ht_items t1 !! j = ht_items t !! j ∧ ht_weak t1 !! j = ht_weak t !! j.
Proof.
  intros Ht Hs. unfold table_set. destruct (ht_find_index h t key) as [[n|]|]; [| | done].
  - destruct (ht_items t !! n) as [[k w]|] eqn:Hn; [| done]. intros [= <- <-]. unfold put_value. fields_goal.
    split; [apply lookup_delete_eq |]. intros j Hj. by rewrite list_lookup_insert_ne, lookup_delete_ne.
  - destruct (hash_value _ _ _) as [hash|]; [| done]. intros [= <- <-]. rewrite next_index_small by done.
    split.
    + unfold push_entry, index_insert. fields_goal. destruct (ht_weak t !! _) eqn:E; [| done].
      pose proof (tk_weak _ _ _ t Ht _ ltac:(by eexists)). lia.
    + intros j Hj. by rewrite lookup_push, decide_False.
Qed.

(** Assignment to a hashtable. With handles to the table, the key and the
    value, [hashtable-set!] on a table that compares by [eq?] or [eqv?] keeps
    every count exact, changes no object but the table and no other entry of
    it, keeps the table's invariant, and [hashtable-ref] then reads the value
    back, also when the detector has demoted the slot. *)
Theorem hashtable_set_reads_back H (m : Memory) a t key v d :
  heap_ok H (m_heap m) → a ∈ H → (∀ b, heap_addr key = Some b → b ∈ H) → (∀ b, heap_addr v = Some b → b ∈ H) →
  table_at (m_heap m) a = Some t → table_ok kind (m_heap m) (keyable kind) t → small t → keyable kind key →
  ∃ m' t' i m'', b_hashtable_set limit [VHashtable a; key; v] m = Some (inr VUnspecified, m') ∧
    heap_ok H (m_heap m') ∧ alters {[a]} (m_heap m) (m_heap m') ∧
    table_at (m_heap m') a = Some t' ∧ table_ok kind (m_heap m') (keyable kind) t' ∧
    (∀ j, j ≠ i → ht_items t' !! j = ht_items t !! j ∧ ht_weak t' !! j = ht_weak t !! j) ∧
    b_hashtable_ref [VHashtable a; key; d] m' = Some (inr v, m'') ∧ heap_ok (value_addrs v ++ H) (m_heap m'').
Proof.
  intros Hh Ha Hkey Hv Ht Hok Hsm Hk.
  destruct (b_hashtable_set_ok H m a t key v Hh Ha Hkey Hv Ht Hok Hsm Hk)
    as (m' & t1 & i & k & Hset & Hts & Hi & Hh' & Hal & Hrd).
  pose proof (key_laws kind (m_heap m) ltac:(by destruct Hkind as [->| ->]) ltac:(by destruct Hkind as [->| ->])) as HK.
  destruct (table_set_ok kind (m_heap m) _ t key key v Hok Hsm Hk Hk) as (t1' & i' & Hts' & Hok1 & _ & Hat & _). simplify_eq.
  destruct (table_set_slot _ _ _ _ _ _ Hok Hsm Hts) as [Hw Hother].
  assert (ht_find_index (m_heap m) t1 key = Some (Some i)) as Hfind.
  { destruct (find_ok kind (m_heap m) _ t1 key Hok1 Hk) as (r & -> & Hr). f_equal. by apply Hr. }
  destruct (value_at_reads H _ a t1 i k v Hh' Hv Hi Hw Hrd) as (h' & Hva & Hh''). destruct Hrd as (t' & Ht' & Hcase).
  assert (same_keys t1 t' ∧ (∀ n, is_Some (ht_weak t' !! n) → n < length (ht_items t1)) ∧
    ∀ j, j ≠ i → ht_items t' !! j = ht_items t1 !! j ∧ ht_weak t' !! j = ht_weak t1 !! j) as (Hsk & Hwk & Hj).
  { destruct Hcase as [->|[_ ->]]; [split_and!; [done | apply (tk_weak _ _ _ _ Hok1) | done] |].
    split_and!; [by eapply demoted_same_keys | |]; unfold table_demoted; fields_goal.
    - intros n. destruct (decide (n = i)) as [->|Hn]; [intros _; by apply lookup_lt_Some in Hi |].
      rewrite lookup_insert_ne by done. apply (tk_weak _ _ _ _ Hok1).
    - intros j Hj. by rewrite list_lookup_insert_ne, lookup_insert_ne. }
  exists m', t', i, (m' <| m_heap := clone_value v h' |>). split_and!; try done.
  - by apply (table_ok_same (m_heap m) _ t1).
  - intros j Hne. destruct (Hj j Hne) as [-> ->]. by apply Hother.
  - unfold b_hashtable_ref. rewrite Ht', (find_same (m_heap m) _ t1 t' key), Hfind by (done || apply Hok1). by rewrite Hva.
  - fields_goal. apply clone_value_ok; [done |]. intros b Hb. by apply (handle_present H h' b Hh''), Hv.
Qed.

End tables.
