(* ===== verification/TableExample.v ===== *)
(** * Equality and tables at work

    The theorems about equality, hashing, vectors and hashtables applied to
    concrete heaps, and two flaws: a key that its table's equality takes to be
    present and that is not found, and vectors on which [equal?] never ends. *)

From stdpp Require Import base numbers gmap sorting list relations.
From Stdlib Require Import ZArith QArith Qcanon Strings.Byte Floats.SpecFloat.
From S2P Require Import Prelude RaftTypes Float64 BigNum Number NumberFacts Trial TrialFacts GcHeap GcFacts GcMutate.
From S2P Require Import GcExample Equal EqualFacts Table TableFacts TableMutate.

Local Open Scope crab_scope.
Local Open Scope N_scope.

#[local] Notation leaf := (Leaf Z Qc).
#[local] Notation value := (Value leaf).
#[local] Notation heap := (gmap addr (Cell leaf)).

(** A hasher. *)
#[export] Instance polynomial_hasher : DefaultHasher :=
  foldl (λ acc b, (acc * 31 + Byte.to_N b) mod 2 ^ 64) 7.

Definition fixnum (z : Z) : value := VLeaf (Numeric (Fixnum z)).

(** ** Equality *)

(** Two circular lists of the same elements, one in each of two vectors. *)
Definition circles : heap := {[
  1 := MkCell 2 (pair_new (fixnum 7) (VPair 1));
  2 := MkCell 2 (pair_new (fixnum 7) (VPair 3));
  3 := MkCell 1 (pair_new (fixnum 7) (VPair 2));
  4 := MkCell 1 (OVector (MkVector [VPair 1] ∅));
  5 := MkCell 1 (OVector (MkVector [VPair 2] ∅)) ]}.

Lemma circles_vectors : no_vector_cycle circles.
Proof.
  assert (∀ x z, ¬ vector_edge circles x z) as Hn.
  { intros x z (v & Hv & Hz). unfold vector_at in Hv. destruct (circles !! x) as [c|] eqn:Hc; [| done].
    assert (c ∈ (map_to_list circles).*2) as Hin.
    { apply list_elem_of_fmap. exists (x, c). split; [done |]. by apply elem_of_map_to_list. }
    vm_compute in Hin. repeat (apply elem_of_cons in Hin as [->|Hin]; [cbn in Hv; simplify_eq; try done;
      cbn in Hz; by apply list_elem_of_singleton in Hz |]). by apply elem_of_nil in Hin. }
  intros x Hx. destruct Hx; by eapply Hn.
Qed.

Lemma equal_decides_same_tree_witness :
  (∃ r, equal circles (VVector 4) (VVector 5) = Some r ∧ (r = true ↔ same_tree circles (VVector 4) (VVector 5))) ∧
  equal circles (VVector 4) (VVector 5) = Some true.
Proof. split; [| by vm_compute]. exact (equal_decides_same_tree circles _ _ circles_vectors). Defined.

(** Vectors that contain themselves. *)
Definition self_vectors : heap := {[
  1 := MkCell 2 (OVector (MkVector [VVector 1] ∅));
  2 := MkCell 2 (OVector (MkVector [VVector 2] ∅)) ]}.

(** [equal?] does not end on two vectors each of which contains itself: no
    number of steps is enough. The visited set guards pairs only. *)
Theorem equal_diverges_on_vectors steps visited fuel :
  equal_rec steps self_vectors (VVector 1) (VVector 2) visited fuel = None.
Proof.
  revert visited fuel. induction steps as [|steps IH]; intros visited fuel; [done |]. cbn [equal_rec].
  change (eqv (VVector 1 : value) (VVector 2)) with false. cbn match.
  change (vector_at self_vectors 1) with (Some (MkVector [VVector 1 : value] ∅)).
  change (vector_at self_vectors 2) with (Some (MkVector [VVector 2 : value] ∅)). cbn. by rewrite IH.
Qed.

(** ** Hashing *)

(** Two strings with the same characters. *)
Definition strings : heap := {[
  1 := MkCell 1 (OString ["a"%byte]);
  2 := MkCell 1 (OString ["a"%byte]) ]}.

Lemma strings_object a c : strings !! a = Some c → c_object c = OString ["a"%byte].
Proof.
  intros Hc. assert (c ∈ (map_to_list strings).*2) as Hin.
  { apply list_elem_of_fmap. exists (a, c). split; [done |]. by apply elem_of_map_to_list. }
  vm_compute in Hin. repeat (apply elem_of_cons in Hin as [->|Hin]; [done |]). by apply elem_of_nil in Hin.
Qed.

Lemma strings_keyable : keyable_heap EqualKind strings.
Proof.
  intros _. split.
  - intros a c Hc. rewrite (strings_object a c Hc). constructor.
  - assert (∀ x z, ¬ vector_edge strings x z) as Hn.
    { intros x z (v & Hv & _). unfold vector_at in Hv. destruct (strings !! x) as [c|] eqn:Hc; [| done].
      cbn in Hv. by rewrite (strings_object x c Hc) in Hv. }
    intros x Hx. destruct Hx; by eapply Hn.
Qed.

Lemma string_hashable a : hashable (VString a : value).
Proof. by intros n Hn. Qed.

Lemma hash_respects_equality_witness :
  ht_eq EqualKind strings (VString 1) (VString 2) = Some true ∧
  hash_value strings (VString 1) EqualKind = hash_value strings (VString 2) EqualKind.
Proof.
  assert (ht_eq EqualKind strings (VString 1) (VString 2) = Some true) as He by (by vm_compute).
  split; [done |]. apply (hash_respects_equality strings EqualKind (VString 1) (VString 2)); [| | done].
  - intros _. split; apply string_hashable.
  - intros _. by apply strings_keyable.
Defined.

(** A key written under one string is read under the other. *)
Lemma hashtable_refines_map_witness :
  ∃ t' i, table_set strings (hashtable_new EqualKind) (VString 1) (fixnum 5) = Some (t', i) ∧
    reads strings t' (VString 2) = Some (fixnum 5).
Proof.
  assert (∀ a, keyable EqualKind (VString a : value)) as Hk.
  { intros a. split; [apply string_hashable |]. cbn. by rewrite bool_decide_eq_true_2. }
  destruct (hashtable_refines_map EqualKind strings (hashtable_new EqualKind) (VString 1) (VString 2) (fixnum 5))
    as ((t' & i & Hs & _ & Hr) & _); [done | apply strings_keyable | apply hashtable_new_ok | by vm_compute | done | done |].
  exists t', i. split; [done |]. rewrite Hr. by vm_compute.
Defined.

Section zero.
Context {B R : Type} `{BigInt B} `{BigRational R B} `{DefaultHasher}.

Definition zero (negative : bool) : Value (Leaf B R) := VLeaf (Numeric (Flonum (S754_zero negative))).

(** A key that is lost. A table that compares by [eqv?] takes [0.0] and
    [-0.0] to be the same key, but hashes the bits of each; unless the hasher
    happens to send both to one bucket, a value stored under [0.0] is not found
    under [-0.0]. *)
Theorem negative_zero_lost h v :
  hash_eqv (zero false) ≠ hash_eqv (zero true) →
  ht_eq EqvKind h (zero false) (zero true) = Some true ∧
  ∃ t i, table_set h (hashtable_new EqvKind) (zero false) v = Some (t, i) ∧
    ht_find_index h t (zero false) = Some (Some 0%nat) ∧ ht_find_index h t (zero true) = Some None.
Proof.
  intros Hne. split; [done |]. unfold table_set.
  change (ht_find_index h (hashtable_new EqvKind) (zero false)) with (Some (@None nat)).
  do 2 eexists. split; [done |]. set (hash := hash_eqv (zero false)) in *.
  assert (∀ k, ht_find_index h (push_entry (zero false) v hash (hashtable_new EqvKind)) k =
    find_in_bucket h (push_entry (zero false) v hash (hashtable_new EqvKind)) k
      (default [] ((<[hash := [0%nat]]> ∅ : gmap N (list nat)) !! hash_eqv k))) as Hf by done.
  rewrite !Hf. fold hash. rewrite lookup_insert_eq, (lookup_insert_ne _ _ _ _ Hne). done.
Qed.

End zero.

Lemma negative_zero_lost_witness :
  ∃ t i, table_set strings (hashtable_new EqvKind) (zero false) (fixnum 1) = Some (t, i) ∧
    ht_find_index strings t (zero false) = Some (Some 0%nat) ∧ ht_find_index strings t (zero true) = Some None.
Proof. apply (negative_zero_lost strings (fixnum 1)). by vm_compute. Defined.

(** ** Containers *)

(** A vector and a hashtable, each held by a variable and in a call's
    arguments. *)
Definition containers : Memory leaf := MkMemory {[
  1 := MkCell 3 (OVector (MkVector [fixnum 1; fixnum 2] ∅));
  2 := MkCell 3 (OHashtable (hashtable_new EqvKind)) ]} registry_new 0 0.

Definition container_handles : list addr := [1; 1; 1; 2; 2; 2].

Lemma containers_ok : heap_ok container_handles (m_heap containers).
Proof. apply heap_ok_check. by vm_compute. Qed.

(** The vector is stored in itself. *)
Lemma vector_set_reads_back_witness :
  ∃ m' w' m'', b_vector_set 100 [VVector 1; fixnum 1; VVector 1] containers = (inr VUnspecified, m') ∧
    heap_ok container_handles (m_heap m') ∧ alters {[1]} (m_heap containers) (m_heap m') ∧
    vector_at (m_heap m') 1 = Some w' ∧ length (vc_items w') = 2%nat ∧
    (∀ j, j ≠ 1%nat → vc_items w' !! j = [fixnum 1; fixnum 2] !! j ∧ vc_weak w' !! j = None) ∧
    b_vector_ref [VVector 1; fixnum 1] m' = (inr (VVector 1), m'') ∧ heap_ok (1 :: container_handles) (m_heap m'').
Proof.
  destruct (vector_set_reads_back 100 container_handles containers 1 (MkVector [fixnum 1; fixnum 2] ∅) 1 (VVector 1))
    as [[_ Hw]|[Hn _]]; [apply containers_ok | left | intros b [= <-]; left | by vm_compute | exact Hw |].
  exfalso. apply Hn. cbn. lia.
Defined.

(** The table is stored in itself. *)
Lemma hashtable_set_reads_back_witness :
  ∃ m' t' i m'', b_hashtable_set 100 [VHashtable 2; fixnum 9; VHashtable 2] containers = Some (inr VUnspecified, m') ∧
    heap_ok container_handles (m_heap m') ∧ alters {[2]} (m_heap containers) (m_heap m') ∧
    table_at (m_heap m') 2 = Some t' ∧ table_ok EqvKind (m_heap m') (keyable EqvKind) t' ∧
    (∀ j, j ≠ i → ht_items t' !! j = None ∧ ht_weak t' !! j = None) ∧
    b_hashtable_ref [VHashtable 2; fixnum 9; VNull] m' = Some (inr (VHashtable 2), m'') ∧
    heap_ok (2 :: container_handles) (m_heap m'').
Proof.
  apply (hashtable_set_reads_back 100 EqvKind ltac:(by right) container_handles containers 2 (hashtable_new EqvKind)
    (fixnum 9) (VHashtable 2) VNull);
    [apply containers_ok | do 3 right; left | done | intros b [= <-]; do 3 right; left | by vm_compute |
     apply hashtable_new_ok | by vm_compute |].
  split; [| by vm_compute]. intros n [= <-]. split; [| done]. unfold canonical, in_i64, i64_min, i64_max. lia.
Defined.
