(* ===== verification/Text.v ===== *)
(** * Characters and strings

    What the reader uses of [std]'s [char] and [str]: scalar values, their
    UTF-8 encoding, decoding of the first character of a string, character
    boundaries and slices.  A [str] is the list of its bytes; it is valid when
    it is the encoding of a list of scalar values. *)

From stdpp Require Import base numbers list.
From Stdlib Require Import Strings.Byte.
From Stdlib Require Strings.String.
Export String.StringSyntax.
From S2P Require Import Prelude RaftTypes.

Local Open Scope N_scope.

(** ** Characters *)

(** A [char] is a Unicode scalar value. *)
Definition scalar (c : N) : Prop := c < 1114112 ∧ ¬ (55296 ≤ c < 57344).

#[export] Instance scalar_dec c : Decision (scalar c) := _.

(** [char::from_u32]. *)
Definition char_from_u32 (c : N) : option N := if decide (scalar c) then Some c else None.

(** [String::push]: the UTF-8 encoding of a character. *)
Definition encode_char (c : N) : bytes :=
  if decide (c < 128) then [byte_of c]
  else if decide (c < 2048) then [byte_of (192 + c / 64); byte_of (128 + c mod 64)]
  else if decide (c < 65536) then
    [byte_of (224 + c / 4096); byte_of (128 + c / 64 mod 64); byte_of (128 + c mod 64)]
  else
    [byte_of (240 + c / 262144); byte_of (128 + c / 4096 mod 64);
     byte_of (128 + c / 64 mod 64); byte_of (128 + c mod 64)].

(** The bytes of a string of characters. *)
Definition utf8 (cs : list N) : bytes := cs ≫= encode_char.

(** A byte that does not begin a character. *)
Definition continuation (b : byte) : bool := bool_decide (128 ≤ Byte.to_N b < 192).

(** ** Strings *)

(** A string literal of the source. *)
Definition lit (s : String.string) : bytes := String.list_byte_of_string s.

Arguments lit s%_string_scope.

(** [str::chars().next()]. *)
Definition next_char (s : bytes) : option N :=
  let low (b : byte) := Byte.to_N b mod 64 in
  match s with
  | [] => None
  | x :: s =>
      let x := Byte.to_N x in
      if decide (x < 128) then Some x
      else
        match s with
        | [] => None
        | y :: s =>
            if decide (x < 224) then Some (x mod 32 * 64 + low y)
            else
              match s with
              | [] => None
              | z :: s =>
                  if decide (x < 240) then Some (x mod 16 * 4096 + low y * 64 + low z)
                  else
                    match s with
                    | [] => None
                    | w :: _ => Some (x mod 8 * 262144 + low y * 4096 + low z * 64 + low w)
                    end
              end
        end
  end.

(** [str::chars().count()]. *)
Definition count_chars (s : bytes) : nat := length (filter (λ b, continuation b = false) s).

(** [char::len_utf8]. *)
Definition len_utf8 (c : N) : nat := length (encode_char c).

(** [str::is_char_boundary]. *)
Definition is_char_boundary (s : bytes) (i : nat) : bool :=
  match i with
  | O => true
  | _ =>
      match s !! i with
      | Some b => negb (continuation b)
      | None => bool_decide (i = length s)
      end
  end.

(** [&s[a..b]], which panics outside the string and within a character. *)
Definition slice (s : bytes) (a b : nat) : option bytes :=
  if (a <=? b)%nat && is_char_boundary s a && is_char_boundary s b
  then Some (take (b - a) (drop a s)) else None.

(** [&s[a..]]. *)
Definition slice_from (s : bytes) (a : nat) : option bytes := slice s a (length s).

(** A valid string. *)
Definition str_ok (s : bytes) : Prop := ∃ cs, Forall scalar cs ∧ s = utf8 cs.

(** ** The encoding of a character *)

Lemma utf8_app cs ds : utf8 (cs ++ ds) = utf8 cs ++ utf8 ds.
Proof. apply bind_app. Qed.

Lemma utf8_cons c cs : utf8 (c :: cs) = encode_char c ++ utf8 cs.
Proof. done. Qed.

Lemma byte_of_small n : n < 256 → Byte.to_N (byte_of n) = n.
Proof. intros. rewrite byte_of_spec. by apply N.mod_small. Qed.

Lemma byte_of_to_N b : byte_of (Byte.to_N b) = b.
Proof.
  unfold byte_of. pose proof (Byte.to_N_bounded b) as Hb. rewrite N.mod_small by (cbn in Hb; lia).
  by rewrite Byte.of_to_N.
Qed.

Lemma continuation_low n : continuation (byte_of (128 + n mod 64)) = true.
Proof.
  unfold continuation. pose proof (N.mod_lt n 64 ltac:(lia)) as Hn. generalize dependent (n mod 64).
  intros r Hr. rewrite byte_of_small by lia. apply bool_decide_eq_true_2. lia.
Qed.

Lemma lead_not_continuation n : 192 ≤ n < 256 → continuation (byte_of n) = false.
Proof.
  intros. unfold continuation. rewrite byte_of_small by lia. apply bool_decide_eq_false_2. lia.
Qed.

Lemma ascii_not_continuation b : Byte.to_N b < 128 → continuation b = false.
Proof. intros. apply bool_decide_eq_false_2. lia. Qed.

Lemma scalar_bounds c : scalar c →
  0 ≤ c / 262144 < 8 ∧ (c < 2048 → 0 ≤ c / 64 < 32) ∧ (c < 65536 → 0 ≤ c / 4096 < 16).
Proof.
  intros [Hc _]. split_and!; intros; try split; apply N.le_0_l || (apply N.Div0.div_lt_upper_bound; lia).
Qed.

(** One lead byte, then continuation bytes. *)
Lemma encode_char_shape c : scalar c →
  ∃ b bs, encode_char c = b :: bs ∧ continuation b = false ∧
          Forall (λ b, continuation b = true) bs.
Proof.
  intros Hs. destruct (scalar_bounds c Hs) as (H4 & H2 & H3).
  unfold encode_char. repeat case_decide; do 2 eexists; (split; [done |]); split;
    try (by repeat constructor; apply continuation_low).
  - apply ascii_not_continuation. rewrite byte_of_small; lia.
  - specialize (H2 ltac:(done)). apply lead_not_continuation. lia.
  - specialize (H3 ltac:(done)). apply lead_not_continuation. lia.
  - apply lead_not_continuation. lia.
Qed.

Lemma encode_char_ascii c : c < 128 → encode_char c = [byte_of c].
Proof. intros. unfold encode_char. by rewrite decide_True. Qed.

(** A byte below 128 encodes the character of its value. *)
Lemma encode_ascii_byte b : Byte.to_N b < 128 → encode_char (Byte.to_N b) = [b].
Proof. intros. by rewrite encode_char_ascii, byte_of_to_N. Qed.

(** An encoding that begins with an ASCII byte is that byte. *)
Lemma encode_char_ascii_inv c b bs :
  scalar c → encode_char c = b :: bs → Byte.to_N b < 128 → bs = [] ∧ c = Byte.to_N b.
Proof.
  intros Hs. destruct (scalar_bounds c Hs) as (H4 & H2 & H3).
  unfold encode_char. repeat case_decide; intros [= <- <-] Hb; rewrite byte_of_small in *; lia || done.
Qed.

Lemma mod_add_mul a b k : b ≠ 0 → (a * b + k) mod b = k mod b.
Proof. intros. rewrite N.add_comm. by apply N.Div0.mod_add. Qed.

Lemma low_byte n : Byte.to_N (byte_of (128 + n mod 64)) mod 64 = n mod 64.
Proof.
  pose proof (N.mod_lt n 64 ltac:(lia)). rewrite byte_of_small by lia.
  replace (128 + n mod 64) with (2 * 64 + n mod 64) by lia.
  rewrite mod_add_mul by lia. apply N.Div0.mod_mod.
Qed.

(** A character is a sequence of six-bit digits. *)
Lemma digits_64 c :
  c = c / 64 * 64 + c mod 64 ∧
  c = c / 4096 * 4096 + c / 64 mod 64 * 64 + c mod 64 ∧
  c = c / 262144 * 262144 + c / 4096 mod 64 * 4096 + c / 64 mod 64 * 64 + c mod 64.
Proof.
  pose proof (N.div_mod c 64 ltac:(lia)) as H1.
  pose proof (N.div_mod (c / 64) 64 ltac:(lia)) as H2.
  pose proof (N.div_mod (c / 4096) 64 ltac:(lia)) as H3.
  assert (c / 64 / 64 = c / 4096) as E2 by (by rewrite N.Div0.div_div).
  assert (c / 4096 / 64 = c / 262144) as E3 by (by rewrite N.Div0.div_div).
  rewrite E2 in H2. rewrite E3 in H3. lia.
Qed.

Lemma lead_low k m n : k < 256 → k = m * n → m ≠ 0 → ∀ x, x < m → k + x < 256 →
  Byte.to_N (byte_of (k + x)) mod m = x.
Proof.
  intros Hk -> Hm x Hx Hs. rewrite byte_of_small by lia.
  rewrite (N.mul_comm m n), mod_add_mul by done. by apply N.mod_small.
Qed.

(** Decoding reads back the character that was encoded. *)
Lemma next_char_encode c s : scalar c → next_char (encode_char c ++ s) = Some c.
Proof.
  intros Hs. destruct (scalar_bounds c Hs) as (H4 & H2 & H3).
  destruct (digits_64 c) as (D2 & D3 & D4).
  unfold encode_char. repeat case_decide; cbn [app next_char].
  - rewrite byte_of_small by lia. by rewrite decide_True.
  - specialize (H2 ltac:(done)).
    rewrite decide_False, decide_True by (rewrite byte_of_small; lia).
    rewrite low_byte, (lead_low 192 32 6) by (lia || done). f_equal. lia.
  - specialize (H3 ltac:(done)).
    rewrite decide_False, decide_False, decide_True by (rewrite byte_of_small; lia).
    rewrite !low_byte, (lead_low 224 16 14) by (lia || done). f_equal. lia.
  - rewrite !decide_False by (rewrite byte_of_small; lia).
    rewrite !low_byte, (lead_low 240 8 30) by (lia || done). f_equal. lia.
Qed.

(** ** Character boundaries of a valid string *)

(** Position [i] of [s] is between two characters. *)
Definition at_char (s : bytes) (i : nat) : Prop :=
  ∃ cs ds, Forall scalar cs ∧ Forall scalar ds ∧ s = utf8 cs ++ utf8 ds ∧ i = length (utf8 cs).

Lemma at_char_ok s i : at_char s i → str_ok s ∧ (i ≤ length s)%nat.
Proof.
  intros (cs & ds & Hc & Hd & -> & ->). split; [| rewrite length_app; lia].
  exists (cs ++ ds). by rewrite utf8_app, Forall_app.
Qed.

Lemma at_char_start s : str_ok s → at_char s 0.
Proof. intros (cs & Hc & ->). by exists [], cs. Qed.

Lemma at_char_end s : str_ok s → at_char s (length s).
Proof. intros (cs & Hc & ->). exists cs, []. by rewrite app_nil_r. Qed.

(** The character after a boundary, and the next boundary. *)
Lemma at_char_next s i b : at_char s i → s !! i = Some b →
  ∃ c bs, scalar c ∧ encode_char c = b :: bs ∧ next_char (drop i s) = Some c ∧
          take (len_utf8 c) (drop i s) = encode_char c ∧ at_char s (i + len_utf8 c).
Proof.
  intros (cs & ds & Hc & Hd & -> & ->) Hb.
  rewrite lookup_app_r, Nat.sub_diag in Hb by lia.
  destruct Hd as [|c ds Hs Hd]; [done |]. rewrite utf8_cons in *. rewrite drop_app_length.
  destruct (encode_char_shape c Hs) as (b' & bs & He & _ & _).
  exists c, bs. split_and!; [done | | by apply next_char_encode | by apply take_app_length |].
  - rewrite He in Hb. cbn in Hb. by simplify_eq.
  - exists (cs ++ [c]), ds. rewrite Forall_app, utf8_app, length_app, utf8_cons, app_nil_r, <-app_assoc.
    split_and!; [done | by constructor | done..].
Qed.

Lemma at_char_ascii s i b : at_char s i → s !! i = Some b → Byte.to_N b < 128 → at_char s (S i).
Proof.
  intros Ha Hb Hl. destruct (at_char_next s i b Ha Hb) as (c & bs & Hs & He & _ & _ & Hn).
  destruct (encode_char_ascii_inv c b bs Hs He Hl) as [-> _].
  unfold len_utf8 in Hn. rewrite He in Hn. by rewrite Nat.add_1_r in Hn.
Qed.

Lemma utf8_head_boundary ds b : Forall scalar ds → utf8 ds !! 0%nat = Some b → continuation b = false.
Proof.
  destruct 1 as [|d ds Hd _]; [done |]. rewrite utf8_cons.
  destruct (encode_char_shape d Hd) as (b' & bs & -> & Hb & _). by intros [= ->].
Qed.

Lemma at_char_boundary s i : at_char s i → is_char_boundary s i = true.
Proof.
  intros (cs & ds & Hc & Hd & -> & ->). unfold is_char_boundary.
  destruct (length (utf8 cs)) eqn:Hl; [done |]. rewrite <-Hl, lookup_app_r, Nat.sub_diag by lia.
  destruct (utf8 ds !! 0%nat) as [b|] eqn:Hb.
  - by rewrite (utf8_head_boundary ds b).
  - apply lookup_ge_None in Hb. apply bool_decide_eq_true_2. rewrite length_app. lia.
Qed.

(** A position of a valid string that does not hold a continuation byte is
    between two characters. *)
Lemma lead_at_char s i b : str_ok s → s !! i = Some b → continuation b = false → at_char s i.
Proof.
  intros (cs & Hc & ->). revert i. induction Hc as [|c cs Hs Hc IH]; intros i Hb Hn; [done |].
  rewrite utf8_cons in Hb. destruct (encode_char_shape c Hs) as (b' & bs & He & Hb' & Hbs).
  destruct i as [|i]; [apply at_char_start; exists (c :: cs); by split; [constructor |] |].
  rewrite He in Hb. change ((bs ++ utf8 cs) !! i = Some b) in Hb. destruct (decide (i < length bs)%nat) as [Hi|Hi].
  - rewrite lookup_app_l in Hb by done.
    pose proof (Forall_lookup_1 _ _ _ _ Hbs Hb). cbn in *. congruence.
  - rewrite lookup_app_r in Hb by lia.
    destruct (IH (i - length bs)%nat Hb Hn) as (cs1 & cs2 & H1 & H2 & Heq & Hlen).
    exists (c :: cs1), cs2. split_and!; [by constructor | done | |].
    + by rewrite !utf8_cons, Heq, <-app_assoc.
    + rewrite utf8_cons, length_app, He. cbn. lia.
Qed.

Lemma ascii_at_char s i b : str_ok s → s !! i = Some b → Byte.to_N b < 128 →
  at_char s i ∧ at_char s (S i).
Proof.
  intros Hs Hb Hl. assert (at_char s i) by (eapply lead_at_char; eauto using ascii_not_continuation).
  eauto using at_char_ascii.
Qed.

Lemma boundary_at_char s i : str_ok s → (i ≤ length s)%nat → is_char_boundary s i = true → at_char s i.
Proof.
  intros Hs Hi. destruct i as [|i]; [intros; by apply at_char_start |]. unfold is_char_boundary.
  destruct (s !! S i) as [b|] eqn:Hb.
  - intros Hc%negb_true_iff. by eapply lead_at_char.
  - intros ->%bool_decide_eq_true. by apply at_char_end.
Qed.

(** Slices between boundaries are defined, and valid. *)
Lemma slice_at_char s i j : at_char s i → at_char s j → (i ≤ j)%nat →
  slice s i j = Some (take (j - i) (drop i s)).
Proof.
  intros Hi Hj Hle. unfold slice.
  rewrite (at_char_boundary s i Hi), (at_char_boundary s j Hj), (proj2 (Nat.leb_le i j) Hle). done.
Qed.

Lemma slice_from_at_char s i : at_char s i → slice_from s i = Some (drop i s).
Proof.
  intros Hi. destruct (at_char_ok s i Hi) as [Hs Hle]. unfold slice_from.
  rewrite slice_at_char by (done || by apply at_char_end). by rewrite take_ge by (rewrite length_drop; lia).
Qed.

Lemma count_chars_app s t : count_chars (s ++ t) = (count_chars s + count_chars t)%nat.
Proof. unfold count_chars. by rewrite filter_app, length_app. Qed.

Lemma count_encode c : scalar c → count_chars (encode_char c) = 1%nat.
Proof.
  intros Hs. destruct (encode_char_shape c Hs) as (b & bs & -> & Hb & Hbs).
  unfold count_chars. rewrite filter_cons_True by done. cbn. f_equal.
  induction Hbs as [|x bs Hx _ IH]; [done |]. by rewrite filter_cons_False by congruence.
Qed.
