(* ===== verification/Symbols.v ===== *)
(** * The symbol interner

    [crates/cs-core/src/symbol.rs]: a table that numbers names, possibly
    layered over a shared immutable base table.  The invariant [table_ok] says
    that the two maps of a table are inverse to each other and that no name is
    both in a table and in its base; [names] is the list of names a well-formed
    table stands for, which every operation is stated against. *)

From stdpp Require Import base numbers gmap list.
From Stdlib Require Import Strings.Byte.
From S2P Require Import Prelude RaftTypes.

Local Open Scope crab_scope.
Local Open Scope N_scope.

(** [struct SymbolTable]; a symbol is its number, a [u32]. *)
#[warnings="-register-all"]
Inductive SymbolTable := MkTable {
  st_base : option SymbolTable;
  st_base_offset : N;
  st_by_name : gmap bytes N;
  st_by_id : list bytes;
}.

Module SymbolTable.

Definition new : SymbolTable := MkTable None 0 ∅ [].

Definition len (t : SymbolTable) : N := st_base_offset t + N.of_nat (length (st_by_id t)).

Definition is_empty (t : SymbolTable) : bool := bool_decide (len t = 0).

Definition with_base (base : SymbolTable) : SymbolTable :=
  MkTable (Some base) (wrap32 (len base)) ∅ [].

Fixpoint lookup_name (t : SymbolTable) (name : bytes) : option N :=
  match t with
  | MkTable base _ by_name _ =>
      match by_name !! name with
      | Some s => Some s
      | None => match base with Some b => lookup_name b name | None => None end
      end
  end.

Definition intern (t : SymbolTable) (name : bytes) : SymbolTable * N :=
  match lookup_name t name with
  | Some s => (t, s)
  | None =>
      let sym := wrap32 (st_base_offset t + wrap32 (N.of_nat (length (st_by_id t)))) in
      (MkTable (st_base t) (st_base_offset t) (<[name := sym]> (st_by_name t))
               (st_by_id t ++ [name]), sym)
  end.

(** [name] panics where this is [None]. *)
Fixpoint name (t : SymbolTable) (sym : N) : option bytes :=
  match t with
  | MkTable base offset _ by_id =>
      if decide (sym < offset) then
        match base with Some b => name b sym | None => None end
      else by_id !! N.to_nat (sym - offset)
  end.

Fixpoint name_checked (t : SymbolTable) (sym : N) : option bytes :=
  match t with
  | MkTable base offset _ by_id =>
      if decide (sym < offset) then
        match base with Some b => name_checked b sym | None => None end
      else by_id !! N.to_nat (sym - offset)
  end.

Definition is_base (t : SymbolTable) (sym : N) : bool := bool_decide (sym < st_base_offset t).

End SymbolTable.

Import SymbolTable.

(** ** The list of names a table stands for *)

Fixpoint names (t : SymbolTable) : list bytes :=
  match t with
  | MkTable base _ _ by_id => match base with Some b => names b | None => [] end ++ by_id
  end.

Definition base_names (t : SymbolTable) : list bytes :=
  match st_base t with Some b => names b | None => [] end.

Lemma names_split t : names t = base_names t ++ st_by_id t.
Proof. by destruct t. Qed.

(** A well-formed table: the base is, the offset is its size, the two maps of
    the table agree, and there are fewer than [2^32] symbols. *)
Fixpoint table_ok (t : SymbolTable) : Prop :=
  match t with
  | MkTable base offset by_name by_id =>
      let below := match base with Some b => names b | None => [] end in
      match base with Some b => table_ok b | None => True end ∧
      offset = N.of_nat (length below) ∧
      (∀ n s, by_name !! n = Some s ↔
              offset ≤ s ∧ by_id !! N.to_nat (s - offset) = Some n) ∧
      (∀ n, n ∈ by_id → n ∉ below) ∧
      N.of_nat (length below + length by_id) < 2 ^ 32
  end.

Lemma table_ok_parts t : table_ok t →
  st_base_offset t = N.of_nat (length (base_names t)) ∧
  (∀ n s, st_by_name t !! n = Some s ↔
          st_base_offset t ≤ s ∧ st_by_id t !! N.to_nat (s - st_base_offset t) = Some n) ∧
  (∀ n, n ∈ st_by_id t → n ∉ base_names t) ∧
  N.of_nat (length (names t)) < 2 ^ 32.
Proof. destruct t as [b o m l]. intros (_ & -> & Hm & Hd & Hl). by rewrite names_split, length_app. Qed.

Lemma len_names t : table_ok t → len t = N.of_nat (length (names t)).
Proof.
  intros Hok. destruct (table_ok_parts t Hok) as (Ho & _). unfold len.
  rewrite Ho, names_split, length_app. lia.
Qed.

Lemma new_ok : table_ok new.
Proof.
  cbn. split_and!; [done | done | | | lia].
  - intros n s. rewrite lookup_empty. split; [done | by intros [_ ?]].
  - intros n Hn. by apply elem_of_nil in Hn.
Qed.

Lemma with_base_ok b : table_ok b → table_ok (with_base b) ∧ names (with_base b) = names b.
Proof.
  intros Hb. destruct (table_ok_parts b Hb) as (_ & _ & _ & Hl).
  cbn. rewrite app_nil_r, len_names by done. unfold wrap32. rewrite N.mod_small by done.
  split_and!; [done | done | | | lia | done].
  - intros n s. rewrite lookup_empty. split; [done | by intros [_ ?]].
  - intros n Hn. by apply elem_of_nil in Hn.
Qed.

(** Induction over the chain of bases. *)
Lemma table_ind (P : SymbolTable → Prop) :
  (∀ base offset by_name by_id,
     match base with Some b => P b | None => True end → P (MkTable base offset by_name by_id)) →
  ∀ t, P t.
Proof.
  intros Hstep. fix IH 1. intros [base o m l]. apply Hstep. destruct base as [b|]; [apply IH | exact I].
Qed.

(** Names by number. *)
Lemma name_names t : table_ok t → ∀ s, name t s = names t !! N.to_nat s.
Proof.
  induction t as [base o m l IH] using table_ind. cbn. intros (Hb & -> & _) s.
  case_decide as Hs.
  - destruct base as [b|]; [| cbn in Hs; lia]. rewrite lookup_app_l by lia. by apply IH.
  - rewrite lookup_app_r by lia. f_equal. lia.
Qed.

Lemma name_checked_name t s : name_checked t s = name t s.
Proof.
  induction t as [base o m l IH] using table_ind. cbn. case_decide; [| done].
  by destruct base.
Qed.

(** Numbers by name. *)
Lemma lookup_name_names t n s : table_ok t → lookup_name t n = Some s ↔ names t !! N.to_nat s = Some n.
Proof.
  revert s. induction t as [base o m l IH] using table_ind. cbn. intros s (Hb & -> & Hm & Hd & _).
  set (below := match base with Some b => names b | None => [] end) in *.
  assert ((match base with Some b => lookup_name b n | None => None end) = Some s ↔
          below !! N.to_nat s = Some n) as Hbase.
  { subst below. destruct base as [b|]; [by apply IH | done]. }
  destruct (m !! n) as [s'|] eqn:Hn.
  - apply Hm in Hn as [Hle Hn]. split.
    + intros [= ->]. rewrite lookup_app_r by lia. by replace (N.to_nat s - _)%nat with
        (N.to_nat (s - N.of_nat (length below))) by lia.
    + intros Hs. apply lookup_app_Some in Hs as [Hs|[Hge Hs]].
      { exfalso. apply (Hd n); eauto using list_elem_of_lookup_2. }
      assert (m !! n = Some s) as Hs'.
      { apply Hm. split; [lia |]. by replace (N.to_nat (s - _)) with (N.to_nat s - length below)%nat by lia. }
      assert (m !! n = Some s') as Hs2 by (by apply Hm). congruence.
  - rewrite Hbase. split.
    + intros Hs. rewrite lookup_app_l; [done | by eapply lookup_lt_Some].
    + intros Hs. apply lookup_app_Some in Hs as [Hs|[Hge Hs]]; [done | exfalso].
      assert (m !! n = Some s); [| congruence]. apply Hm. split; [lia |].
      by replace (N.to_nat (s - _)) with (N.to_nat s - length below)%nat by lia.
Qed.

Lemma lookup_name_None t n : table_ok t → lookup_name t n = None → n ∉ names t.
Proof.
  intros Hok Hn [k Hk]%list_elem_of_lookup_1.
  assert (lookup_name t n = Some (N.of_nat k)); [| congruence].
  apply lookup_name_names; [done |]. by rewrite Nat2N.id.
Qed.

Lemma names_nodup t : table_ok t → NoDup (names t).
Proof.
  intros Hok. apply NoDup_alt. intros i j n Hi Hj.
  assert (lookup_name t n = Some (N.of_nat i)) as H1 by (apply lookup_name_names; by rewrite ?Nat2N.id).
  assert (lookup_name t n = Some (N.of_nat j)) as H2 by (apply lookup_name_names; by rewrite ?Nat2N.id).
  rewrite H1 in H2. injection H2. lia.
Qed.

(** ** Interning *)

(** Room for one more symbol. *)
Definition has_room (t : SymbolTable) : Prop := len t + 1 < 2 ^ 32.

Lemma intern_found t n s : lookup_name t n = Some s → intern t n = (t, s).
Proof. intros Hl. unfold intern. by rewrite Hl. Qed.

Lemma intern_fresh t n :
  table_ok t → has_room t → lookup_name t n = None →
  ∃ t', intern t n = (t', len t) ∧ table_ok t' ∧ names t' = names t ++ [n] ∧
        st_base t' = st_base t ∧ st_base_offset t' = st_base_offset t.
Proof.
  intros Hok Hroom Hn. pose proof (lookup_name_None t n Hok Hn) as Hnot.
  pose proof (len_names t Hok) as Hlen. destruct (table_ok_parts t Hok) as (Ho & Hm & Hd & _).
  unfold intern. rewrite Hn. unfold has_room, len in *.
  assert (wrap32 (N.of_nat (length (st_by_id t))) = N.of_nat (length (st_by_id t))) as ->
    by (apply N.mod_small; lia).
  assert (wrap32 (st_base_offset t + N.of_nat (length (st_by_id t))) = len t) as ->
    by (apply N.mod_small; unfold len; lia).
  eexists. split; [done |]. rewrite names_split in Hnot |- *.
  destruct t as [base o m l]. unfold len. cbn in *.
  apply not_elem_of_app in Hnot as [Hnb Hnl]. destruct Hok as (Hb & _).
  split_and!; [done | done | | | rewrite length_app; cbn; unfold base_names in *; cbn in *; lia | | done | done].
  - intros n' s. rewrite lookup_insert_Some, lookup_snoc_Some. setoid_rewrite Hm. split.
    + intros [[-> <-]|[Hne [Hle Hs]]]; [split; [lia | right; split; [lia | done]] |].
      split; [done |]. left. split; [by eapply lookup_lt_Some | done].
    + intros [Hle [[_ Hs]|[Hk ->]]]; [right | left; split; [done | lia]].
      split; [| done]. intros ->. apply Hnl. by eapply list_elem_of_lookup_2.
  - intros n' [Hin| ->%list_elem_of_singleton]%elem_of_app; [by apply Hd | done].
  - by rewrite <-app_assoc.
Qed.

(** What interning does to the list of names. *)
Definition intern_names (l : list bytes) (n : bytes) : list bytes * N :=
  match list_find (λ m, m = n) l with
  | Some (k, _) => (l, N.of_nat k)
  | None => (l ++ [n], N.of_nat (length l))
  end.

Lemma intern_names_spec t n t' s :
  table_ok t → has_room t → intern t n = (t', s) →
  table_ok t' ∧ intern_names (names t) n = (names t', s) ∧
  st_base t' = st_base t ∧ st_base_offset t' = st_base_offset t.
Proof.
  intros Hok Hroom Hi. unfold intern_names.
  destruct (list_find (λ m, m = n) (names t)) as [[k m]|] eqn:Hf.
  - apply list_find_Some in Hf as (Hk & -> & _).
    assert (lookup_name t n = Some (N.of_nat k)) as Hl
      by (apply lookup_name_names; by rewrite ?Nat2N.id).
    rewrite (intern_found _ _ _ Hl) in Hi. by simplify_eq.
  - apply list_find_None in Hf. rewrite Forall_forall in Hf.
    destruct (lookup_name t n) as [s'|] eqn:Hl.
    { apply lookup_name_names in Hl; [| done]. exfalso. eapply Hf; eauto using list_elem_of_lookup_2. }
    destruct (intern_fresh t n Hok Hroom Hl) as (t2 & Hi2 & Hok2 & Hnm & Hb & Ho).
    rewrite Hi2 in Hi. simplify_eq. by rewrite Hnm, (len_names t Hok).
Qed.

Lemma intern_names_reads l n l' s : intern_names l n = (l', s) →
  l' !! N.to_nat s = Some n ∧ l `prefix_of` l'.
Proof.
  unfold intern_names. destruct (list_find _ l) as [[k m]|] eqn:Hf; intros [= <- <-]; rewrite Nat2N.id.
  - apply list_find_Some in Hf as (Hk & -> & _). done.
  - split; [| by apply prefix_app_r]. by rewrite lookup_app_r, Nat.sub_diag by lia.
Qed.

(** A table keeps the names it has. *)
Lemma intern_reads t n t' s :
  table_ok t → has_room t → intern t n = (t', s) →
  table_ok t' ∧ name t' s = Some n ∧ (∀ k m, name t k = Some m → name t' k = Some m).
Proof.
  intros Hok Hroom Hi. destruct (intern_names_spec t n t' s Hok Hroom Hi) as (Hok' & Hs & _).
  destruct (intern_names_reads _ _ _ _ Hs) as [Hn Hpre]. split_and!; [done | by rewrite name_names |].
  intros k m. rewrite !name_names by done. intros Hk. by eapply prefix_lookup_Some.
Qed.

(** Interning a list of names, one after the other. *)
Fixpoint intern_all (t : SymbolTable) (ns : list bytes) : SymbolTable :=
  match ns with
  | [] => t
  | n :: ns => intern_all (intern t n).1 ns
  end.

Lemma intern_all_layered ns t :
  st_base (intern_all t ns) = st_base t ∧ st_base_offset (intern_all t ns) = st_base_offset t.
Proof.
  revert t. induction ns as [|n ns IH]; intros t; [done |]. cbn. destruct (IH (intern t n).1) as [-> ->].
  unfold intern. by destruct (lookup_name t n).
Qed.

Lemma name_base t b s : st_base t = Some b → s < st_base_offset t → name t s = name b s.
Proof. destruct t as [base o m l]. cbn. intros -> Hs. by rewrite decide_True. Qed.

(** C36: interning refines appending to a list without duplicates: the invariant
    is kept, the symbol is the position of the name in the list, a new name
    goes to its end, and no symbol changes its name. *)
Theorem interner_refines_list t n t' s :
  table_ok t → has_room t → intern t n = (t', s) →
  table_ok t' ∧ NoDup (names t') ∧ (names t', s) = intern_names (names t) n ∧
  name t' s = Some n ∧ (∀ k m, name t k = Some m → name t' k = Some m) ∧
  intern t' n = (t', s).
Proof.
  intros Hok Hroom Hi. destruct (intern_names_spec t n t' s Hok Hroom Hi) as (Hok' & Hs & _).
  destruct (intern_reads t n t' s Hok Hroom Hi) as (_ & Hn & Hk).
  split_and!; [done | by apply names_nodup | done | done | done |].
  apply intern_found, lookup_name_names; [done |]. by rewrite <-name_names.
Qed.

(** Tables layered over one base agree on the base's symbols whatever each
    of them has interned since, and both resolve them in the base. *)
Theorem base_symbols_shared b ns ms s :
  table_ok b →
  let t := intern_all (with_base b) ns in
  let u := intern_all (with_base b) ms in
  is_base t s = is_base u s ∧
  (is_base t s = true → ∃ n, name t s = Some n ∧ name u s = Some n ∧ name b s = Some n).
Proof.
  intros Hb t u. destruct (intern_all_layered ns (with_base b)) as [Bt Ot].
  destruct (intern_all_layered ms (with_base b)) as [Bu Ou]. fold t in Bt, Ot. fold u in Bu, Ou.
  unfold is_base. rewrite Ot, Ou. split; [done |]. intros Hs%bool_decide_eq_true.
  rewrite (name_base t b), (name_base u b) by (done || by rewrite ?Ot, ?Ou).
  destruct (table_ok_parts b Hb) as (_ & _ & _ & Hl). cbn in Hs.
  rewrite (len_names b Hb) in Hs. unfold wrap32 in Hs. rewrite N.mod_small in Hs by done.
  rewrite !name_names by done. destruct (lookup_lt_is_Some_2 (names b) (N.to_nat s)) as [n ->]; [lia |].
  by exists n.
Qed.
