(* ===== verification/Diag.v ===== *)
(** * Source positions and diagnostics

    [crates/cs-diag/src/lib.rs]: spans, the map from files to their text with
    its line table, and the rendering of a diagnostic.  A function that can
    panic returns an option; arithmetic that overflows panics, as it does when
    the crate is built with overflow checks. *)

From stdpp Require Import base numbers list.
From Stdlib Require Import Strings.Byte.
From S2P Require Import Prelude RaftTypes Float64 BigNum Text.

Local Open Scope crab_scope.
Local Open Scope N_scope.

(** ** Spans *)

(** [struct FileId(pub u32)] and [FileId::DUMMY]. *)
Notation FileId := N (only parsing).

Definition dummy_file : FileId := 2 ^ 32 - 1.

(** [struct Span]. *)
Record Span := MkSpan { sp_file : FileId; sp_start : N; sp_end : N }.

#[export] Instance Span_eq_dec : EqDecision Span.
Proof. solve_decision. Defined.

(** [Span::DUMMY]. *)
Definition dummy_span : Span := MkSpan dummy_file 0 0.

Definition is_dummy (s : Span) : bool := bool_decide (sp_file s = dummy_file).

Definition merge (a b : Span) : Span :=
  if is_dummy a then b
  else if is_dummy b then a
  else if bool_decide (sp_file a ≠ sp_file b) then a
  else MkSpan (sp_file a) (N.min (sp_start a) (sp_start b)) (N.max (sp_end a) (sp_end b)).

(** ** The source map *)

(** [struct SourceFile]. *)
Record SourceFile := MkSourceFile {
  sf_name : bytes;
  sf_contents : bytes;
  sf_line_starts : list N;
}.

(** [struct SourceMap]. *)
Notation SourceMap := (list SourceFile) (only parsing).

Definition newline : byte := x0a.

(** The loop of [SourceMap::add] over the bytes of the text, [i] being the index. *)
Fixpoint line_starts_from (i : N) (s : bytes) : list N :=
  match s with
  | [] => []
  | b :: s =>
      if bool_decide (b = newline) then (wrap32 i + 1) :: line_starts_from (i + 1) s
      else line_starts_from (i + 1) s
  end.

Definition add (m : SourceMap) (name contents : bytes) : SourceMap * FileId :=
  (m ++ [MkSourceFile name contents (0 :: line_starts_from 0 contents)],
   wrap32 (N.of_nat (length m))).

(** The file of an identifier that this map has. *)
Definition file_of (m : SourceMap) (f : FileId) : option SourceFile :=
  if bool_decide (f = dummy_file) then None else m !! N.to_nat f.

Definition name (m : SourceMap) (f : FileId) : bytes :=
  match file_of m f with Some sf => sf_name sf | None => lit "<unknown>" end.

Definition contents (m : SourceMap) (f : FileId) : bytes :=
  match file_of m f with Some sf => sf_contents sf | None => [] end.

(** [slice::binary_search] on an ascending slice: the index of the element
    ([inl]) or where it would be inserted ([inr]). *)
Definition binary_search (l : list N) (x : N) : nat + nat :=
  let i := length (filter (λ y, y < x) l) in
  if bool_decide (l !! i = Some x) then inl i else inr i.

(** [u32] arithmetic with overflow checks. *)
Definition add32 (a b : N) : option N := if decide (a + b < 2 ^ 32) then Some (a + b) else None.
Definition sub32 (a b : N) : option N := if decide (b ≤ a) then Some (a - b) else None.

Definition line_col (m : SourceMap) (s : Span) : option (N * N) :=
  match file_of m (sp_file s) with
  | None => Some (0, 0)
  | Some f =>
      let line_idx := match binary_search (sf_line_starts f) (sp_start s) with
                      | inl i => i
                      | inr i => (i - 1)%nat
                      end in
      line_start ← sf_line_starts f !! line_idx;
      col ← sub32 (sp_start s) line_start;
      line ← add32 (wrap32 (N.of_nat line_idx)) 1;
      col ← add32 col 1;
      mret (line, col)
  end.

Definition snippet (m : SourceMap) (s : Span) : option bytes :=
  match file_of m (sp_file s) with
  | None => Some []
  | Some f =>
      let text := sf_contents f in
      if decide (sp_end s < sp_start s) then Some []
      else if decide (N.of_nat (length text) < sp_end s) then Some []
      else if negb (is_char_boundary text (N.to_nat (sp_start s))) then Some []
      else if negb (is_char_boundary text (N.to_nat (sp_end s))) then Some []
      else slice text (N.to_nat (sp_start s)) (N.to_nat (sp_end s))
  end.

(** ** Diagnostics *)

(** [enum Severity]. *)
Inductive Severity := Error | Warning | Note.

(** [struct Diagnostic]. *)
Record Diagnostic := MkDiagnostic {
  dg_severity : Severity;
  dg_code : option bytes;
  dg_message : bytes;
  dg_primary : Span;
  dg_labels : list (Span * bytes);
  dg_notes : list bytes;
}.

#[export] Instance Diagnostic_eta : Eta Diagnostic := λ d,
  MkDiagnostic (dg_severity d) (dg_code d) (dg_message d) (dg_primary d) (dg_labels d) (dg_notes d).

Definition error (message : bytes) (primary : Span) : Diagnostic :=
  MkDiagnostic Error None message primary [] [].

Definition with_code (d : Diagnostic) (code : bytes) : Diagnostic := d <| dg_code := Some code |>.

Definition with_label (d : Diagnostic) (s : Span) (msg : bytes) : Diagnostic :=
  d <| dg_labels ::= λ l, l ++ [(s, msg)] |>.

Definition with_note (d : Diagnostic) (note : bytes) : Diagnostic :=
  d <| dg_notes ::= λ l, l ++ [note] |>.

(** [str::lines]: split at line feeds, a carriage return before one dropped, no
    line after a final line feed. *)
Definition strip_cr (l : bytes) : bytes :=
  match last l with Some b => if bool_decide (b = x0d) then take (length l - 1) l else l | None => l end.

Fixpoint lines_from (cur s : bytes) : list bytes :=
  match s with
  | [] => match cur with [] => [] | _ => [cur] end
  | b :: s => if bool_decide (b = newline) then strip_cr cur :: lines_from [] s
              else lines_from (cur ++ [b]) s
  end.

Definition lines (s : bytes) : list bytes := lines_from [] s.

(** The format [{:>3}] of a number. *)
Definition pad3 (n : N) : bytes :=
  let s := decimal n in replicate (3 - length s) " "%byte ++ s.

(** [str::repeat], of a one-character string. *)
Definition repeated (n : N) (c : byte) : bytes := replicate (N.to_nat n) c.

(** An ANSI escape sequence. *)
Definition ansi (code : String.string) : bytes := x1b :: "["%byte :: lit code.

Arguments ansi code%_string_scope.

Definition eol : bytes := [newline].

(** The source excerpt of [render_with]: the line and the carets under it. *)
Definition render_excerpt (m : SourceMap) (s : Span) (line col : N) (bold sev_color reset : bytes) :
    option bytes :=
  match lines (contents m (sp_file s)) !! N.to_nat (N.pred line) with
  | None => Some []
  | Some line_text =>
      len ← sub32 (sp_end s) (sp_start s);
      pad ← sub32 col 1;
      mret (lit "  | " ++ eol ++
            pad3 line ++ lit " | " ++ line_text ++ eol ++
            lit "  | " ++ repeated pad " "%byte ++ bold ++ sev_color ++
            repeated (N.max len 1) "^"%byte ++ reset ++ eol)
  end.

Definition render_with (d : Diagnostic) (m : SourceMap) (color : bool) : option bytes :=
  let reset := if color then ansi "0m" else [] in
  let bold := if color then ansi "1m" else [] in
  let red := if color then ansi "31m" else [] in
  let yellow := if color then ansi "33m" else [] in
  let cyan := if color then ansi "36m" else [] in
  let blue := if color then ansi "34m" else [] in
  let '(sev_label, sev_color) :=
    match dg_severity d with
    | Error => (lit "error", red)
    | Warning => (lit "warning", yellow)
    | Note => (lit "note", cyan)
    end in
  let header :=
    match dg_code d with
    | Some code => sev_label ++ lit "[" ++ code ++ lit "]: " ++ dg_message d
    | None => sev_label ++ lit ": " ++ dg_message d
    end in
  let notes := dg_notes d ≫= λ note, lit "  = " ++ bold ++ lit "note" ++ reset ++ lit ": " ++ note ++ eol in
  let header := bold ++ sev_color ++ header ++ reset ++ eol in
  if is_dummy (dg_primary d) then Some (header ++ notes)
  else
    '(line, col) ← line_col m (dg_primary d);
    excerpt ← render_excerpt m (dg_primary d) line col bold sev_color reset;
    mret (header ++ lit " " ++ bold ++ lit "--> " ++ blue ++ name m (sp_file (dg_primary d)) ++
          lit ":" ++ decimal line ++ lit ":" ++ decimal col ++ reset ++ eol ++ excerpt ++ notes).

Definition render (d : Diagnostic) (m : SourceMap) : option bytes := render_with d m false.

(** ** The line table *)

(** The position after a text, counted byte by byte from line 1, column 1. *)
Definition walk_byte (p : N * N) (b : byte) : N * N :=
  if bool_decide (b = newline) then (p.1 + 1, 1) else (p.1, p.2 + 1).

Definition walk (s : bytes) : N * N := foldl walk_byte (1, 1) s.

Lemma line_starts_app i s t :
  line_starts_from i (s ++ t) = line_starts_from i s ++ line_starts_from (i + N.of_nat (length s)) t.
Proof.
  revert i. induction s as [|b s IH]; intros i; cbn [app line_starts_from length].
  { f_equal. lia. }
  replace (i + N.of_nat (S (length s))) with (i + 1 + N.of_nat (length s)) by lia.
  case_bool_decide; by rewrite IH.
Qed.

Lemma line_starts_above i s : i + N.of_nat (length s) < 2 ^ 32 →
  Forall (λ x, i < x ≤ i + N.of_nat (length s)) (line_starts_from i s).
Proof.
  revert i. induction s as [|b s IH]; intros i Hi; [constructor |]. cbn [line_starts_from length] in *.
  assert (Forall (λ x, i < x ≤ i + N.of_nat (S (length s))) (line_starts_from (i + 1) s)) as Ht.
  { eapply Forall_impl; [apply IH; lia |]. cbn. intros. lia. }
  case_bool_decide; [| done]. constructor; [| done]. unfold wrap32. rewrite N.mod_small by lia. lia.
Qed.

(** The line starts up to a position: the last one begins the line of the
    position, and there are as many as lines. *)
Lemma line_starts_before s : N.of_nat (length s) < 2 ^ 32 →
  ∃ init l, 0 :: line_starts_from 0 s = init ++ [l] ∧ Forall (λ x, x < l) init ∧
            l ≤ N.of_nat (length s) ∧
            walk s = (N.of_nat (length init) + 1, N.of_nat (length s) - l + 1).
Proof.
  induction s as [|b s IH] using rev_ind; intros Hs.
  { exists [], 0. by repeat constructor. }
  rewrite length_app in Hs. cbn in Hs. destruct IH as (init & l & Heq & Hlt & Hle & Hw); [lia |].
  rewrite line_starts_app, app_comm_cons, Heq. unfold walk in *. rewrite foldl_app, Hw, length_app.
  cbn [foldl line_starts_from length]. unfold walk_byte. case_bool_decide; cbn.
  - exists (init ++ [l]), (N.of_nat (length s) + 1). unfold wrap32. rewrite N.mod_small by lia.
    rewrite Forall_app, Forall_singleton, length_app. cbn. split_and!; try lia; [done | |].
    + eapply Forall_impl; [done |]. cbn. lia.
    + f_equal; lia.
  - exists init, l. rewrite app_nil_r. split_and!; [done | done | lia | f_equal; lia].
Qed.

Lemma filter_ascending init l rest x :
  Forall (λ y, y < l) init → l ≤ x → Forall (λ y, x < y) rest →
  length (filter (λ y, y < x) (init ++ l :: rest)) =
  (length init + if decide (l = x) then 0 else 1)%nat.
Proof.
  intros Hi Hl Hr. rewrite filter_app, filter_cons, length_app.
  assert (filter (λ y, y < x) rest = []) as ->.
  { clear -Hr. induction Hr as [|y r Hy _ IH]; [done |]. rewrite filter_cons_False by lia. done. }
  assert (filter (λ y, y < x) init = init) as ->.
  { clear -Hi Hl. induction Hi as [|y r Hy _ IH]; [done |]. rewrite filter_cons_True by lia. by f_equal. }
  repeat case_decide; cbn; lia.
Qed.

(** The index that [line_col] finds is that of the last line start at or before
    the position. *)
Lemma binary_search_line init l rest x :
  Forall (λ y, y < l) init → l ≤ x → Forall (λ y, x < y) rest →
  (match binary_search (init ++ l :: rest) x with inl i => i | inr i => (i - 1)%nat end) = length init.
Proof.
  intros Hi Hl Hr. unfold binary_search. rewrite filter_ascending by done. case_decide as Hx.
  - subst. rewrite bool_decide_eq_true_2; [lia |]. apply list_lookup_middle. lia.
  - rewrite bool_decide_eq_false_2; [lia |]. rewrite lookup_app_r by lia.
    replace (length init + 1 - length init)%nat with 1%nat by lia. cbn.
    intros Hx2. apply list_elem_of_lookup_2 in Hx2. rewrite Forall_forall in Hr.
    specialize (Hr _ Hx2). lia.
Qed.

Lemma sub32_Some a b : b ≤ a → sub32 a b = Some (a - b).
Proof. intros. by apply decide_True. Qed.

Lemma add32_Some a b : a + b < 2 ^ 32 → add32 a b = Some (a + b).
Proof. intros. by apply decide_True. Qed.

(** A file as [add] makes it, of less than 4 GiB. *)
Definition file_ok (f : SourceFile) : Prop :=
  sf_line_starts f = 0 :: line_starts_from 0 (sf_contents f) ∧
  N.of_nat (length (sf_contents f)) + 1 < 2 ^ 32.

Lemma line_table_at f p :
  file_ok f → (p ≤ length (sf_contents f))%nat →
  ∃ init l rest, sf_line_starts f = init ++ l :: rest ∧ Forall (λ y, y < l) init ∧ l ≤ N.of_nat p ∧
    Forall (λ y, N.of_nat p < y) rest ∧
    walk (take p (sf_contents f)) = (N.of_nat (length init) + 1, N.of_nat p - l + 1) ∧
    (length init ≤ p)%nat.
Proof.
  intros [Hf Hlen] Hp. rewrite Hf. set (s := sf_contents f) in *.
  assert (length (take p s) = p) as Htk by (rewrite length_take; lia).
  destruct (line_starts_before (take p s)) as (init & l & Heq & Hlt & Hle & Hw); [lia |].
  exists init, l, (line_starts_from (N.of_nat p) (drop p s)). rewrite Htk in *.
  split_and!; [| done | done | | done |].
  - rewrite <-(take_drop p s) at 1. rewrite line_starts_app, app_comm_cons, Heq, Htk.
    by rewrite <-app_assoc.
  - eapply Forall_impl; [apply line_starts_above; rewrite length_drop; lia | cbn; lia].
  - pose proof (f_equal fst Hw) as Hl. cbn in Hl. clear -Hl Htk.
    assert (∀ t q, (foldl walk_byte q t).1 ≤ q.1 + N.of_nat (length t)) as Hw.
    { induction t as [|b t IH]; intros q; cbn; [lia |]. etrans; [apply IH |].
      unfold walk_byte. case_bool_decide; cbn; lia. }
    specialize (Hw (take p s) (1, 1)). fold (walk (take p s)) in Hw. rewrite Htk, Hl in Hw. cbn in Hw. lia.
Qed.

Lemma line_col_in f p : file_ok f → (p ≤ length (sf_contents f))%nat →
  ∀ m s, file_of m (sp_file s) = Some f → sp_start s = N.of_nat p →
  line_col m s = Some (walk (take p (sf_contents f))).
Proof.
  intros Hf Hp m s Hm Hs. destruct (line_table_at f p Hf Hp) as (init & l & rest & Heq & Hi & Hl & Hr & Hw & Hn).
  unfold line_col. rewrite Hm, Heq, Hs, binary_search_line by done.
  destruct Hf as [_ Hlen]. unfold wrap32. rewrite list_lookup_middle by done. cbn [mbind option_bind].
  rewrite N.mod_small, sub32_Some, !add32_Some by lia. cbn [mbind option_bind].
  rewrite add32_Some by lia. by rewrite Hw.
Qed.

(** Any offset, also one past the end of the file, has a line start before it. *)
Lemma line_table_any f x : file_ok f →
  ∃ init l rest, sf_line_starts f = init ++ l :: rest ∧ Forall (λ y, y < l) init ∧ l ≤ x ∧
    Forall (λ y, x < y) rest ∧ (length init ≤ length (sf_contents f))%nat.
Proof.
  intros Hf. destruct (decide (x ≤ N.of_nat (length (sf_contents f)))) as [Hx|Hx].
  - destruct (line_table_at f (N.to_nat x) Hf) as (init & l & rest & ? & ? & ? & ? & _ & ?); [lia |].
    rewrite N2Nat.id in *. exists init, l, rest. split_and!; (done || lia).
  - destruct (line_table_at f (length (sf_contents f)) Hf) as (init & l & rest & Heq & ? & ? & Hr & _ & ?);
      [lia |]. exists init, l, []. split_and!; [| done | lia | constructor | lia].
    rewrite Heq. destruct rest as [|y rest]; [done |]. inversion_clear Hr.
    destruct Hf as [Hf Hlen]. pose proof (line_starts_above 0 (sf_contents f) ltac:(lia)) as Hall.
    assert (y ∈ 0 :: line_starts_from 0 (sf_contents f)) as Hy.
    { rewrite <-Hf, Heq. apply elem_of_app. right. right. left. }
    apply elem_of_cons in Hy as [->|Hy]; [lia |]. rewrite Forall_forall in Hall.
    specialize (Hall y Hy). lia.
Qed.

Lemma line_col_total m s : Forall file_ok m → sp_start s + 1 < 2 ^ 32 →
  ∃ line col, line_col m s = Some (line, col) ∧
    (file_of m (sp_file s) = None ∨ 1 ≤ col).
Proof.
  intros Hm Hs. unfold line_col. destruct (file_of m (sp_file s)) as [f|] eqn:Hf; [| by eauto].
  assert (file_ok f) as Hok.
  { unfold file_of in Hf. case_bool_decide; [done |]. by eapply Forall_lookup_1. }
  destruct (line_table_any f (sp_start s) Hok) as (init & l & rest & Heq & Hi & Hl & Hr & Hn).
  rewrite Heq, binary_search_line, list_lookup_middle by done. destruct Hok as [_ Hlen].
  cbn [mbind option_bind]. unfold wrap32. rewrite N.mod_small, sub32_Some, add32_Some by lia.
  cbn [mbind option_bind]. rewrite add32_Some by lia. do 2 eexists. split; [done |]. right. lia.
Qed.

Lemma add_ok m n c m' f :
  Forall file_ok m → N.of_nat (length c) + 1 < 2 ^ 32 → add m n c = (m', f) → Forall file_ok m'.
Proof. intros Hm Hc [= <- <-]. apply Forall_app. by repeat constructor. Qed.

Lemma add_file m n c m' f :
  N.of_nat (length m) < dummy_file → add m n c = (m', f) →
  file_of m' f = Some (MkSourceFile n c (0 :: line_starts_from 0 c)).
Proof.
  intros Hm [= <- <-]. unfold file_of, wrap32, dummy_file in *. rewrite N.mod_small by lia.
  rewrite bool_decide_eq_false_2 by lia. rewrite Nat2N.id. by apply list_lookup_middle.
Qed.

(** C37: the line and column of an offset, found by binary search in the table of
    line starts, are those of counting lines and columns byte by byte. *)
Theorem line_col_walks_text m n c m' f p e :
  N.of_nat (length m) < dummy_file → N.of_nat (length c) + 1 < 2 ^ 32 →
  add m n c = (m', f) → (p ≤ length c)%nat →
  line_col m' (MkSpan f (N.of_nat p) e) = Some (walk (take p c)).
Proof.
  intros Hm Hc Ha Hp. pose proof (add_file m n c m' f Hm Ha) as Hf.
  by apply (line_col_in (MkSourceFile n c (0 :: line_starts_from 0 c)) p).
Qed.

(** Rendering a diagnostic and cutting out its source text do not panic,
    whatever file and offsets the span has, those of another source map
    included. *)
Theorem foreign_spans_render m d color :
  Forall file_ok m → Forall (λ f, str_ok (sf_contents f)) m →
  sp_start (dg_primary d) ≤ sp_end (dg_primary d) → sp_start (dg_primary d) + 1 < 2 ^ 32 →
  is_Some (render_with d m color) ∧ is_Some (snippet m (dg_primary d)).
Proof.
  intros Hm Hstr Hle Hs. set (s := dg_primary d) in *. split.
  - unfold render_with. fold s. destruct (line_col_total m s Hm Hs) as (line & col & Hl & Hc).
    rewrite Hl. cbn [mbind option_bind].
    assert (∀ b c r, is_Some (render_excerpt m s line col b c r)) as Hex.
    { intros b c r. unfold render_excerpt, contents. destruct Hc as [-> | Hc]; [by eexists |].
      destruct (lines _ !! _); [| by eexists].
      rewrite !sub32_Some by lia. by eexists. }
    destruct (dg_severity d), (is_dummy s); try (by eexists);
      match goal with |- context [render_excerpt m s line col ?b ?c ?r] =>
        destruct (Hex b c r) as [x ->] end; by eexists.
  - unfold snippet. destruct (file_of m (sp_file s)) as [f|] eqn:Hf; [| by eexists].
    assert (str_ok (sf_contents f)) as Hok.
    { unfold file_of in Hf. case_bool_decide; [done |].
      exact (Forall_lookup_1 _ _ _ _ Hstr Hf). }
    repeat case_decide; try (by eexists).
    destruct (is_char_boundary _ (N.to_nat (sp_start s))) eqn:Hb1; [| by eexists].
    destruct (is_char_boundary _ (N.to_nat (sp_end s))) eqn:Hb2; [| by eexists]. cbn [negb].
    rewrite slice_at_char; [by eexists | | | lia]; apply boundary_at_char; done || lia.
Qed.
