(* ===== verification/Lexer.v ===== *)
(** * The lexer

    [crates/cs-lex/src/lib.rs]: a cursor over the bytes of a source text and
    the functions that read a token from it.  Each function returns the cursor
    after it, on errors too, since a caller may go on after an error; [None]
    stands for a panic of the code (a slice that is not on a character
    boundary) or a loop that does not end within its fuel.  [LexerFacts] shows
    that neither happens on a valid string.

    A loop of the code that looks at one byte at a time is a recursion over the
    rest of the text; the loops that call others take fuel, one more than the
    bytes that are left, since each of their rounds consumes a byte. *)

From stdpp Require Import base numbers gmap list.
From Stdlib Require Import ZArith Strings.Byte Floats.SpecFloat.
From S2P Require Import Prelude RaftTypes Float64 BigNum Number Text Symbols Diag.

Local Open Scope crab_scope.
Local Open Scope N_scope.

Notation "x ≟ y" := (bool_decide (x = y)) (at level 70) : crab_scope.

(** ** Reading a floating-point number *)

Definition is_digit (b : byte) : bool := bool_decide (48 ≤ Byte.to_N b ≤ 57).

(** The digits a text begins with, and the rest. *)
Fixpoint split_digits (s : bytes) : bytes * bytes :=
  match s with
  | [] => ([], [])
  | b :: s' => if is_digit b then let '(ds, r) := split_digits s' in (b :: ds, r) else ([], s)
  end.

(** The double nearest to [m * 10 ^ e], of the sign [neg]. *)
Definition f64_of_decimal (neg : bool) (m : N) (e : Z) : f64 :=
  match m with
  | 0 => S754_zero neg
  | Npos p =>
      if bool_decide (0 ≤ e)%Z then
        binary_normalize prec emax ((if neg then -1 else 1) * (Zpos p * 10 ^ e))%Z 0 neg
      else
        let '(q, e', l) := SFdiv_core_binary prec emax (Zpos p) 0 (10 ^ (- e))%Z 0 in
        binary_round_aux prec emax neg q e' l
  end.

(** The exponent part of a number: nothing, or [e] and a signed number. *)
Definition exponent (s : bytes) : option Z :=
  match s with
  | [] => Some 0%Z
  | c :: t =>
      if (c ≟ "e"%byte) || (c ≟ "E"%byte) then
        let '(neg, t) := match t with
                         | d :: u => if d ≟ "-"%byte then (true, u)
                                     else if d ≟ "+"%byte then (false, u) else (false, t)
                         | [] => (false, t)
                         end in
        match split_digits t with
        | ([], _) => None
        | (ds, []) => (λ n, if neg then - Z.of_N n else Z.of_N n)%Z <$> digits_val 10 ds
        | _ => None
        end
      else None
  end.

(** The ASCII lower-case form of a text. *)
Definition lower (s : bytes) : bytes :=
  (λ b, if bool_decide (65 ≤ Byte.to_N b ≤ 90) then byte_of (Byte.to_N b + 32) else b) <$> s.

(** [str::parse::<f64>]. *)
Definition f64_from_str (s : bytes) : option f64 :=
  let '(neg, t) := match s with
                   | c :: t => if c ≟ "-"%byte then (true, t)
                               else if c ≟ "+"%byte then (false, t) else (false, s)
                   | [] => (false, s)
                   end in
  let '(ip, t1) := split_digits t in
  let '(fp, t2) := match t1 with
                   | c :: u => if c ≟ "."%byte then split_digits u else ([], t1)
                   | [] => ([], t1)
                   end in
  match ip ++ fp with
  | [] =>
      if (lower t ≟ lit "inf") || (lower t ≟ lit "infinity") then Some (S754_infinity neg)
      else if lower t ≟ lit "nan" then Some S754_nan
      else None
  | ds =>
      match digits_val 10 ds, exponent t2 with
      | Some m, Some e => Some (f64_of_decimal neg m (e - Z.of_nat (length fp)))
      | _, _ => None
      end
  end.

(** [u32::from_str_radix]: digits after an optional plus sign. *)
Definition u32_from_str_radix (s : bytes) (radix : N) : option N :=
  let digits (ds : bytes) :=
    match ds with
    | [] => None
    | _ => match digits_val radix ds with
           | Some n => if decide (n < 2 ^ 32) then Some n else None
           | None => None
           end
    end in
  match s with
  | c :: t => if c ≟ "+"%byte then digits t else digits s
  | [] => None
  end.

(** ** Tokens and errors *)

(** [enum Token]. *)
Inductive Token (B R : Type) :=
  | LParen | RParen | LBracket | RBracket
  | TQuote | TQuasiQuote | TUnquote | TUnquoteSplicing
  | TDot | HashLParen | HashU8LParen | HashSemi
  | TBoolean (b : bool)
  | TNumber (n : Number B R)
  | TString (s : bytes)
  | TCharacter (c : N)
  | TIdentifier (s : N)
  | TEof.

Arguments LParen {B R}.
Arguments RParen {B R}.
Arguments LBracket {B R}.
Arguments RBracket {B R}.
Arguments TQuote {B R}.
Arguments TQuasiQuote {B R}.
Arguments TUnquote {B R}.
Arguments TUnquoteSplicing {B R}.
Arguments TDot {B R}.
Arguments HashLParen {B R}.
Arguments HashU8LParen {B R}.
Arguments HashSemi {B R}.
Arguments TBoolean {B R} b.
Arguments TNumber {B R} n.
Arguments TString {B R} s.
Arguments TCharacter {B R} c.
Arguments TIdentifier {B R} s.
Arguments TEof {B R}.

(** [enum LexError]. *)
Inductive LexError :=
  | UnexpectedChar (c : N) (span : Span)
  | UnterminatedString (span : Span)
  | UnterminatedBlockComment (span : Span)
  | BadEscape (span : Span)
  | BadCharacter (span : Span)
  | BadNumber (span : Span) (src : bytes).

Definition lex_error_span (e : LexError) : Span :=
  match e with
  | UnexpectedChar _ s | UnterminatedString s | UnterminatedBlockComment s
  | BadEscape s | BadCharacter s | BadNumber s _ => s
  end.

Definition quoted (s : bytes) : bytes := lit "'" ++ s ++ lit "'".

Definition lex_error_message (e : LexError) : bytes :=
  match e with
  | UnexpectedChar c _ => lit "unexpected character " ++ quoted (encode_char c)
  | UnterminatedString _ => lit "unterminated string literal"
  | UnterminatedBlockComment _ => lit "unterminated block comment"
  | BadEscape _ => lit "invalid escape sequence in string"
  | BadCharacter _ => lit "invalid character literal"
  | BadNumber _ src => lit "invalid number literal " ++ quoted src
  end.

(** [struct Lexer]; [src] and [bytes] are the same text. *)
Record Lexer := MkLexer {
  lx_file : FileId;
  lx_src : bytes;
  lx_pos : nat;
}.

#[export] Instance Lexer_eta : Eta Lexer := λ l, MkLexer (lx_file l) (lx_src l) (lx_pos l).

(** ** The cursor *)

Definition lexer_new (file : FileId) (src : bytes) : Lexer := MkLexer file src 0.

Definition span (l : Lexer) (a b : nat) : Span :=
  MkSpan (lx_file l) (wrap32 (N.of_nat a)) (wrap32 (N.of_nat b)).

Definition peek (l : Lexer) : option byte := lx_src l !! lx_pos l.

Definition peek2 (l : Lexer) : option byte := lx_src l !! S (lx_pos l).

Definition bump (l : Lexer) : Lexer :=
  match peek l with Some _ => l <| lx_pos ::= S |> | None => l end.

(** The bytes from the cursor on. *)
Definition rest (l : Lexer) : bytes := drop (lx_pos l) (lx_src l).

(** [self.bytes.get(a..a + n)]. *)
Definition get_range (s : bytes) (a n : nat) : option bytes :=
  if (a + n <=? length s)%nat then Some (take n (drop a s)) else None.

(** [while let Some(b) = self.peek() { if !p(b) { break; } self.bump(); }]. *)
Fixpoint bump_while (p : byte → bool) (r : bytes) (l : Lexer) : Lexer :=
  match r with
  | b :: r => if p b then bump_while p r (bump l) else l
  | [] => l
  end.

(** What a reading function returns. *)
Notation Result A := (option (Lexer * (LexError + A))) (only parsing).

(** ** Classes of bytes *)

(** [u8::is_ascii_whitespace]. *)
Definition is_whitespace (b : byte) : bool :=
  (b ≟ " "%byte) || (b ≟ x09) || (b ≟ x0a) || (b ≟ x0c) || (b ≟ x0d).

Definition one_of (s : bytes) (b : byte) : bool := bool_decide (b ∈ s).

(** The double quote, which a string literal of Rocq cannot hold. *)
Definition dquote : byte := x22.

Definition is_delimiter (b : byte) : bool :=
  is_whitespace b || one_of (dquote :: lit "()[]'`,;") b.

Definition is_letter (b : byte) : bool :=
  bool_decide (97 ≤ Byte.to_N b ≤ 122) || bool_decide (65 ≤ Byte.to_N b ≤ 90).

Definition is_initial_ident (b : byte) : bool := is_letter b || one_of (lit "!$%&*/:<=>?^_~") b.

Definition is_hexdigit (b : byte) : bool :=
  is_digit b || bool_decide (97 ≤ Byte.to_N b ≤ 102) || bool_decide (65 ≤ Byte.to_N b ≤ 70).

(** ** White space and comments *)

(** The inner loop of a line comment, which ends after a line feed. *)
Fixpoint line_comment (r : bytes) (l : Lexer) : Lexer :=
  match r with
  | b :: r => if b ≟ newline then bump l else line_comment r (bump l)
  | [] => l
  end.

(** The inner loop of a block comment, [true] when it ended. *)
Fixpoint block_comment (r : bytes) (depth : nat) (l : Lexer) : Lexer * bool :=
  match r with
  | [] => (l, false)
  | b :: r1 =>
      match r1 with
      | c :: r2 =>
          if (b ≟ "#"%byte) && (c ≟ "|"%byte) then block_comment r2 (S depth) (bump (bump l))
          else if (b ≟ "|"%byte) && (c ≟ "#"%byte) then
            match depth with
            | S (S depth) => block_comment r2 (S depth) (bump (bump l))
            | _ => (bump (bump l), true)
            end
          else block_comment r1 depth (bump l)
      | [] => block_comment r1 depth (bump l)
      end
  end.

Fixpoint skip_loop (fuel : nat) (l : Lexer) : Result unit :=
  match fuel with
  | O => None
  | S fuel =>
      match peek l with
      | Some b =>
          if is_whitespace b then skip_loop fuel (bump l)
          else if b ≟ ";"%byte then skip_loop fuel (line_comment (rest l) l)
          else if (b ≟ "#"%byte) && (peek2 l ≟ Some "|"%byte) then
            let start := lx_pos l in
            let l := bump (bump l) in
            let '(l, ended) := block_comment (rest l) 1 l in
            if ended then skip_loop fuel l
            else Some (l, inl (UnterminatedBlockComment (span l start (lx_pos l))))
          else Some (l, inr ())
      | None => Some (l, inr ())
      end
  end.

Definition skip_whitespace_and_comments (l : Lexer) : Result unit :=
  skip_loop (S (length (rest l))) l.

(** ** Escapes *)

(** [\xH...;] after the backslash and the [x]: the value of the hexadecimal
    digits, a semicolon after them being optional. *)
Definition hex_escape (l : Lexer) (esc_start : nat) : Result N :=
  let l := bump l in
  let hex_start := lx_pos l in
  let l := bump_while is_hexdigit (rest l) l in
  let hex_end := lx_pos l in
  let l := if peek l ≟ Some ";"%byte then bump l else l in
  let bad := Some (l, inl (BadEscape (span l esc_start (lx_pos l)))) in
  if hex_start ≟ hex_end then bad
  else
    match slice (lx_src l) hex_start hex_end with
    | None => None
    | Some hex =>
        match u32_from_str_radix hex 16 with
        | None => bad
        | Some cp => match char_from_u32 cp with Some c => Some (l, inr c) | None => bad end
        end
    end.

(** The one-byte escapes of strings and of [|identifiers|]: the byte after the
    backslash and the character it stands for. *)
Definition string_escapes : list (byte * N) :=
  [("n"%byte, 10); ("t"%byte, 9); ("r"%byte, 13); (dquote, 34); ("\"%byte, 92); ("|"%byte, 124);
   ("a"%byte, 7); ("b"%byte, 8); ("v"%byte, 11); ("f"%byte, 12); ("0"%byte, 0)].

Definition pipe_escapes : list (byte * N) :=
  [("|"%byte, 124); ("\"%byte, 92); ("n"%byte, 10); ("t"%byte, 9); ("r"%byte, 13);
   ("a"%byte, 7); ("b"%byte, 8)].

Definition escaped (table : list (byte * N)) (b : byte) : option N :=
  snd <$> find (λ e, e.1 ≟ b) table.

Definition is_blank (b : byte) : bool := (b ≟ " "%byte) || (b ≟ x09).

(** A line continuation: blanks, a line ending, blanks. *)
Definition line_continuation (l : Lexer) (esc_start : nat) : Result unit :=
  let l := bump_while is_blank (rest l) l in
  let skip_blanks l := Some (bump_while is_blank (rest l) l, inr ()) in
  if peek l ≟ Some x0d then
    let l := bump l in
    skip_blanks (if peek l ≟ Some newline then bump l else l)
  else if peek l ≟ Some newline then skip_blanks (bump l)
  else Some (l, inl (BadEscape (span l esc_start (lx_pos l)))).

(** The escape of a string literal, after the backslash: what it appends. *)
Definition string_escape (l : Lexer) : Result bytes :=
  let esc_start := lx_pos l in
  match peek l with
  | None => Some (l, inl (BadEscape (span l esc_start (lx_pos l))))
  | Some b =>
      match escaped string_escapes b with
      | Some c => Some (bump l, inr (encode_char c))
      | None =>
          if (b ≟ "x"%byte) || (b ≟ "X"%byte) then
            match hex_escape l esc_start with
            | Some (l, inr c) => Some (l, inr (encode_char c))
            | Some (l, inl e) => Some (l, inl e)
            | None => None
            end
          else if (b ≟ newline) || (b ≟ x0d) || is_blank b then
            match line_continuation l esc_start with
            | Some (l, inr _) => Some (l, inr [])
            | Some (l, inl e) => Some (l, inl e)
            | None => None
            end
          else Some (l, inl (BadEscape (span l esc_start (lx_pos l))))
      end
  end.

(** The escape of a [|identifier|]. *)
Definition pipe_escape (l : Lexer) : Result bytes :=
  let esc_start := lx_pos l in
  match peek l with
  | None => Some (l, inl (BadEscape (span l esc_start (lx_pos l))))
  | Some b =>
      match escaped pipe_escapes b with
      | Some c => Some (bump l, inr (encode_char c))
      | None =>
          if (b ≟ "x"%byte) || (b ≟ "X"%byte) then
            match hex_escape l esc_start with
            | Some (l, inr c) => Some (l, inr (encode_char c))
            | Some (l, inl e) => Some (l, inl e)
            | None => None
            end
          else Some (l, inl (BadEscape (span l esc_start (lx_pos l))))
      end
  end.

(** [read_char_at_pos]. *)
Definition read_char_at_pos (l : Lexer) : option (Lexer * N) :=
  match slice_from (lx_src l) (lx_pos l) with
  | None => None
  | Some s =>
      match next_char s with
      | Some c => Some (l <| lx_pos ::= λ p, (p + len_utf8 c)%nat |>, c)
      | None => None
      end
  end.

Section lexer.
Context {B R : Type} `{BigInt B} `{BigRational R B}.

Notation num := (Number B R).
Notation Token := (Token B R).

(** [Ok((tok, self.span(start, self.pos)))]. *)
Definition ok (l : Lexer) (start : nat) (t : Token) : Result (Token * Span) :=
  Some (l, inr (t, span l start (lx_pos l))).

(** ** Strings and identifiers *)

Fixpoint string_loop (fuel : nat) (l : Lexer) (start : nat) (out : bytes) : Result (Token * Span) :=
  match fuel with
  | O => None
  | S fuel =>
      match peek l with
      | None => Some (l, inl (UnterminatedString (span l start (lx_pos l))))
      | Some b =>
          if b ≟ dquote then ok (bump l) start (TString out)
          else if b ≟ "\"%byte then
            match string_escape (bump l) with
            | Some (l, inr s) => string_loop fuel l start (out ++ s)
            | Some (l, inl e) => Some (l, inl e)
            | None => None
            end
          else
            match read_char_at_pos l with
            | Some (l, c) => string_loop fuel l start (out ++ encode_char c)
            | None => None
            end
      end
  end.

Definition read_string (l : Lexer) (start : nat) : Result (Token * Span) :=
  let l := bump l in string_loop (S (length (rest l))) l start [].

Fixpoint pipe_loop (fuel : nat) (l : Lexer) (syms : SymbolTable) (start : nat) (out : bytes) :
    option (Lexer * SymbolTable * (LexError + Token * Span)) :=
  match fuel with
  | O => None
  | S fuel =>
      match peek l with
      | None => Some (l, syms, inl (UnterminatedString (span l start (lx_pos l))))
      | Some b =>
          if b ≟ "|"%byte then
            let l := bump l in
            let '(syms, sym) := SymbolTable.intern syms out in
            Some (l, syms, inr (TIdentifier sym, span l start (lx_pos l)))
          else if b ≟ "\"%byte then
            match pipe_escape (bump l) with
            | Some (l, inr s) => pipe_loop fuel l syms start (out ++ s)
            | Some (l, inl e) => Some (l, syms, inl e)
            | None => None
            end
          else
            let p := lx_pos l in
            let l := bump l in
            let l := bump_while continuation (rest l) l in
            match slice (lx_src l) p (lx_pos l) with
            | Some s => pipe_loop fuel l syms start (out ++ s)
            | None => None
            end
      end
  end.

Definition read_pipe_identifier (l : Lexer) (syms : SymbolTable) (start : nat) :
    option (Lexer * SymbolTable * (LexError + Token * Span)) :=
  let l := bump l in pipe_loop (S (length (rest l))) l syms start [].

(** Up to the next delimiter. *)
Definition to_delimiter (l : Lexer) : Lexer := bump_while (λ b, negb (is_delimiter b)) (rest l) l.

Definition read_identifier (l : Lexer) (syms : SymbolTable) (start : nat) :
    option (Lexer * SymbolTable * (LexError + Token * Span)) :=
  let l := to_delimiter l in
  match slice (lx_src l) start (lx_pos l) with
  | None => None
  | Some text =>
      let '(syms, sym) := SymbolTable.intern syms text in
      Some (l, syms, inr (TIdentifier sym, span l start (lx_pos l)))
  end.

(** ** Characters *)

Definition char_names : list (bytes * N) :=
  [(lit "space", 32); (lit "newline", 10); (lit "tab", 9); (lit "return", 13); (lit "nul", 0);
   (lit "null", 0); (lit "alarm", 7); (lit "backspace", 8); (lit "delete", 127); (lit "escape", 27)].

Fixpoint trim_start_semicolons (s : bytes) : bytes :=
  match s with
  | b :: s' => if b ≟ ";"%byte then trim_start_semicolons s' else s
  | [] => []
  end.

(** [str::trim_end_matches(';')]. *)
Definition trim_end_semicolons (s : bytes) : bytes := reverse (trim_start_semicolons (reverse s)).

(** The character a name denotes. *)
Definition character_of_name (name : bytes) : option N :=
  match snd <$> find (λ e, e.1 ≟ name) char_names with
  | Some c => Some c
  | None =>
      match name with
      | "x"%byte :: hex =>
          if (1 <? length name)%nat then
            match u32_from_str_radix (trim_end_semicolons hex) 16 with
            | Some cp => char_from_u32 cp
            | None => None
            end
          else next_char name
      | _ => if count_chars name ≟ 1%nat then next_char name else None
      end
  end.

Definition read_character (l : Lexer) (start : nat) : Result (Token * Span) :=
  let l := bump l in
  let name_start := lx_pos l in
  let l := to_delimiter (bump l) in
  match slice (lx_src l) name_start (lx_pos l) with
  | None => None
  | Some name =>
      match character_of_name name with
      | Some c => ok l start (TCharacter c)
      | None => Some (l, inl (BadCharacter (span l start (lx_pos l))))
      end
  end.

(** ** Numbers *)

Definition parse_number (s : bytes) : option num :=
  if s ≟ lit "+inf.0" then Some (Flonum (S754_infinity false))
  else if s ≟ lit "-inf.0" then Some (Flonum (S754_infinity true))
  else if (s ≟ lit "+nan.0") || (s ≟ lit "-nan.0") then Some (Flonum S754_nan)
  else
    match list_find (λ b, b = "/"%byte) s with
    | Some (slash_idx, _) =>
        match i64_from_str_radix (take slash_idx s) 10 with
        | None => None
        | Some n =>
            match i64_from_str_radix (drop (S slash_idx) s) 10 with
            | None => None
            | Some d =>
                if d ≟ 0%Z then None
                else match div (Fixnum n) (Fixnum d) with Some (inr q) => Some q | _ => None end
            end
        end
    | None =>
        if one_of s "."%byte || one_of s "e"%byte || one_of s "E"%byte
        then Flonum <$> f64_from_str s
        else parse_decimal_integer s
    end.

(** [parse_number(text).ok_or_else(..)] on the text from [start] to the cursor. *)
Definition number_token (l : Lexer) (start : nat) : Result (Token * Span) :=
  match slice (lx_src l) start (lx_pos l) with
  | None => None
  | Some text =>
      match parse_number text with
      | Some n => ok l start (TNumber n)
      | None => Some (l, inl (BadNumber (span l start (lx_pos l)) text))
      end
  end.

Definition is_sign (b : byte) : bool := (b ≟ "+"%byte) || (b ≟ "-"%byte).

(** The loop of [read_number]. *)
Fixpoint number_loop (r : bytes) (saw_dot saw_slash saw_exp : bool) (l : Lexer) : Lexer :=
  match r with
  | [] => l
  | b :: r1 =>
      if is_digit b then number_loop r1 saw_dot saw_slash saw_exp (bump l)
      else if (b ≟ "."%byte) && negb saw_dot && negb saw_slash then
        number_loop r1 true saw_slash saw_exp (bump l)
      else if (b ≟ "/"%byte) && negb saw_slash && negb saw_dot then
        number_loop r1 saw_dot true saw_exp (bump l)
      else if ((b ≟ "e"%byte) || (b ≟ "E"%byte)) && negb saw_exp then
        match r1 with
        | c :: r2 =>
            if is_sign c then number_loop r2 true saw_slash true (bump (bump l))
            else number_loop r1 true saw_slash true (bump l)
        | [] => bump l
        end
      else l
  end.

Definition is_special (tail : option bytes) : bool :=
  (tail ≟ Some (lit "inf.0")) || (tail ≟ Some (lit "nan.0")).

Definition read_number (l : Lexer) (start : nat) : Result (Token * Span) :=
  let l := match peek l with Some b => if is_sign b then bump l else l | None => l end in
  if is_special (get_range (lx_src l) (lx_pos l) 5)
  then number_token (bump (bump (bump (bump (bump l))))) start
  else number_token (number_loop (rest l) false false false l) start.

(** The digits of a radix. *)
Definition radix_digit (radix : N) (b : byte) : bool :=
  if radix ≟ 2 then one_of (lit "01") b
  else if radix ≟ 8 then bool_decide (48 ≤ Byte.to_N b ≤ 55)
  else if radix ≟ 10 then is_digit b
  else if radix ≟ 16 then is_hexdigit b
  else false.

Definition read_radix_number (l : Lexer) (start : nat) (radix : N) : Result (Token * Span) :=
  let l := bump l in
  let digits_start := lx_pos l in
  let l := match peek l with Some b => if is_sign b then bump l else l | None => l end in
  let l := bump_while (radix_digit radix) (rest l) l in
  match slice (lx_src l) digits_start (lx_pos l) with
  | None => None
  | Some text =>
      let bad := Some (l, inl (BadNumber (span l start (lx_pos l)) text)) in
      if (text ≟ []) || (text ≟ lit "+") || (text ≟ lit "-") then bad
      else match parse_radix_integer text radix with
           | Some n => ok l start (TNumber n)
           | None => bad
           end
  end.

(** ** The dispatcher *)

(** A result of a function that leaves the symbol table alone. *)
Definition keep {A} (syms : SymbolTable) (r : Result A) :
    option (Lexer * SymbolTable * (LexError + A)) :=
  match r with Some (l, x) => Some (l, syms, x) | None => None end.

Definition one_byte (l : Lexer) (syms : SymbolTable) (start : nat) (t : Token) :
    option (Lexer * SymbolTable * (LexError + Token * Span)) := keep syms (ok (bump l) start t).

Definition read_hash (l : Lexer) (syms : SymbolTable) (start : nat) :
    option (Lexer * SymbolTable * (LexError + Token * Span)) :=
  let l := bump l in
  let unexpected := Some (l, syms, inl (UnexpectedChar 35 (span l start (lx_pos l)))) in
  match peek l with
  | None => unexpected
  | Some b =>
      if b ≟ "t"%byte then one_byte l syms start (TBoolean true)
      else if b ≟ "f"%byte then one_byte l syms start (TBoolean false)
      else if b ≟ "("%byte then one_byte l syms start HashLParen
      else if b ≟ ";"%byte then one_byte l syms start HashSemi
      else if b ≟ "\"%byte then keep syms (read_character l start)
      else if (b ≟ "x"%byte) || (b ≟ "X"%byte) then keep syms (read_radix_number l start 16)
      else if (b ≟ "b"%byte) || (b ≟ "B"%byte) then keep syms (read_radix_number l start 2)
      else if (b ≟ "o"%byte) || (b ≟ "O"%byte) then keep syms (read_radix_number l start 8)
      else if (b ≟ "d"%byte) || (b ≟ "D"%byte) then keep syms (read_number (bump l) start)
      else if (b ≟ "u"%byte) && (lx_src l !! (lx_pos l + 1)%nat ≟ Some "8"%byte) &&
              (lx_src l !! (lx_pos l + 2)%nat ≟ Some "("%byte) then
        one_byte (bump (bump l)) syms start HashU8LParen
      else if b ≟ ":"%byte then
        let l := to_delimiter (bump l) in
        match slice (lx_src l) start (lx_pos l) with
        | None => None
        | Some text =>
            let '(syms, sym) := SymbolTable.intern syms text in
            Some (l, syms, inr (TIdentifier sym, span l start (lx_pos l)))
        end
      else unexpected
  end.

(** A sign: a number, one of the special literals, or an identifier. *)
Definition sign_token (l : Lexer) (syms : SymbolTable) (start : nat) :
    option (Lexer * SymbolTable * (LexError + Token * Span)) :=
  match peek2 l with
  | Some next =>
      if is_digit next || (next ≟ "."%byte) then keep syms (read_number l start)
      else
        let after_sign := S (lx_pos l) in
        let followed := match lx_src l !! (after_sign + 5)%nat with
                        | Some b => is_delimiter b
                        | None => true
                        end in
        if is_special (get_range (lx_src l) after_sign 5) && followed
        then keep syms (read_number l start)
        else read_identifier l syms start
  | None => read_identifier l syms start
  end.

Definition dot_token (l : Lexer) (syms : SymbolTable) (start : nat) :
    option (Lexer * SymbolTable * (LexError + Token * Span)) :=
  match peek2 l with
  | Some next =>
      if is_digit next then keep syms (read_number l start)
      else if is_delimiter next then one_byte l syms start TDot
      else read_identifier l syms start
  | None => one_byte l syms start TDot
  end.

Definition token_at (l : Lexer) (syms : SymbolTable) (b : byte) :
    option (Lexer * SymbolTable * (LexError + Token * Span)) :=
  let start := lx_pos l in
  if b ≟ "("%byte then one_byte l syms start LParen
  else if b ≟ ")"%byte then one_byte l syms start RParen
  else if b ≟ "["%byte then one_byte l syms start LBracket
  else if b ≟ "]"%byte then one_byte l syms start RBracket
  else if b ≟ "'"%byte then one_byte l syms start TQuote
  else if b ≟ "`"%byte then one_byte l syms start TQuasiQuote
  else if b ≟ ","%byte then
    if peek (bump l) ≟ Some "@"%byte then one_byte (bump l) syms start TUnquoteSplicing
    else one_byte l syms start TUnquote
  else if b ≟ dquote then keep syms (read_string l start)
  else if b ≟ "#"%byte then read_hash l syms start
  else if is_digit b then keep syms (read_number l start)
  else if is_sign b then sign_token l syms start
  else if b ≟ "."%byte then dot_token l syms start
  else if b ≟ "|"%byte then read_pipe_identifier l syms start
  else if is_initial_ident b then read_identifier l syms start
  else
    let l := bump l in
    Some (l, syms, inl (UnexpectedChar (Byte.to_N b) (span l start (lx_pos l)))).

Definition next_token (l : Lexer) (syms : SymbolTable) :
    option (Lexer * SymbolTable * (LexError + Token * Span)) :=
  match skip_whitespace_and_comments l with
  | None => None
  | Some (l, inl e) => Some (l, syms, inl e)
  | Some (l, inr _) =>
      match peek l with
      | None => Some (l, syms, inr (TEof, span l (lx_pos l) (lx_pos l)))
      | Some b => token_at l syms b
      end
  end.

(** ** The whole text *)

Fixpoint lex_loop (fuel : nat) (l : Lexer) (syms : SymbolTable) (tokens : list (Token * Span))
    (errors : list LexError) : option (SymbolTable * (list LexError + list (Token * Span))) :=
  match fuel with
  | O => None
  | S fuel =>
      match next_token l syms with
      | None => None
      | Some (l, syms, inr (TEof, sp)) =>
          Some (syms, match errors with [] => inr (tokens ++ [(TEof, sp)]) | _ => inl errors end)
      | Some (l, syms, inr tok) => lex_loop fuel l syms (tokens ++ [tok]) errors
      | Some (l, syms, inl e) => lex_loop fuel l syms tokens (errors ++ [e])
      end
  end.

Definition lex_all (file : FileId) (src : bytes) (syms : SymbolTable) :
    option (SymbolTable * (list LexError + list (Token * Span))) :=
  lex_loop (S (length src)) (lexer_new file src) syms [] [].

End lexer.
