(* ===== verification/Spelling.v ===== *)
(** * What the tokens look like

    The lexical grammar of [crates/cs-lex/src/lib.rs], stated on texts and
    without the cursor of [Lexer]: what may stand between two tokens, and
    which texts spell which token, given the byte that comes next.
    [LexerFacts] shows that [lex_all] cuts a text up in this way. *)

From stdpp Require Import base numbers gmap list.
From Stdlib Require Import ZArith Strings.Byte.
From S2P Require Import Prelude RaftTypes Float64 BigNum Number Text Symbols Diag Lexer.

Local Open Scope crab_scope.
Local Open Scope nat_scope.

(** ** Between tokens *)

(** The rest of a block comment of the given depth, with the ends of the
    comments it is in. *)
Inductive closes : nat → bytes → Prop :=
  | closes_last : closes 1 ["|"; "#"]%byte
  | closes_inner d r : closes (S d) r → closes (S (S d)) ("|"%byte :: "#"%byte :: r)
  | closes_open d r : closes (S d) r → closes d ("#"%byte :: "|"%byte :: r)
  | closes_byte d b c r :
      ¬ (b = "#"%byte ∧ c = "|"%byte) → ¬ (b = "|"%byte ∧ c = "#"%byte) →
      closes d (c :: r) → closes d (b :: c :: r).

(** White space, line comments with their line feed, and block comments. *)
Inductive atmosphere : bytes → Prop :=
  | atm_nil : atmosphere []
  | atm_white b r : is_whitespace b = true → atmosphere r → atmosphere (b :: r)
  | atm_line body r :
      newline ∉ body → atmosphere r → atmosphere (";"%byte :: body ++ newline :: r)
  | atm_block body r :
      closes 1 body → atmosphere r → atmosphere ("#"%byte :: "|"%byte :: body ++ r).

(** The end of a text may be a line comment without a line feed. *)
Definition trailing (gap : bytes) : Prop :=
  ∃ a c, gap = a ++ c ∧ atmosphere a ∧ (c = [] ∨ ∃ body, c = ";"%byte :: body ∧ newline ∉ body).

Lemma atmosphere_app a b : atmosphere a → atmosphere b → atmosphere (a ++ b).
Proof.
  induction 1; intros Hb; cbn; [done | by apply atm_white; auto | |].
  - rewrite <-app_assoc. cbn. apply atm_line; auto.
  - rewrite <-app_assoc. apply atm_block; auto.
Qed.

Lemma atmosphere_trailing a : atmosphere a → trailing a.
Proof. intros Ha. exists a, []. rewrite app_nil_r. auto. Qed.

Lemma trailing_app a b : atmosphere a → trailing b → trailing (a ++ b).
Proof.
  intros Ha (c & d & -> & Hc & Hd). exists (a ++ c), d. rewrite app_assoc.
  split_and!; [done | by apply atmosphere_app | done].
Qed.

(** ** Strings and quoted names *)

(** [\xH...;]: the hexadecimal digits go on to the first other byte, and a
    semicolon after them belongs to the escape. *)
Definition hex_piece (e : bytes) (c : N) (next : option byte) : Prop :=
  ∃ x ds cp, (x = "x"%byte ∨ x = "X"%byte) ∧ ds ≠ [] ∧ Forall (λ b, is_hexdigit b = true) ds ∧
    u32_from_str_radix ds 16 = Some cp ∧ char_from_u32 cp = Some c ∧
    (e = x :: ds ++ [";"%byte] ∨
     e = x :: ds ∧ next ≠ Some ";"%byte ∧ ∀ b, next = Some b → is_hexdigit b = false).

(** Blanks, a line ending, and all blanks after it. *)
Definition continued (e : bytes) (next : option byte) : Prop :=
  ∃ b1 nl b2, e = b1 ++ nl ++ b2 ∧ Forall (λ b, is_blank b = true) b1 ∧
    Forall (λ b, is_blank b = true) b2 ∧ (nl = [x0d] ∨ nl = [x0d; newline] ∨ nl = [newline]) ∧
    ∀ b, next = Some b → is_blank b = false.

(** What follows the backslash of an escape, the text it stands for and the
    byte after it. *)
Definition pipe_piece (e out : bytes) (next : option byte) : Prop :=
  (∃ b c, e = [b] ∧ escaped pipe_escapes b = Some c ∧ out = encode_char c) ∨
  (∃ c, hex_piece e c next ∧ out = encode_char c).

Definition string_piece (e out : bytes) (next : option byte) : Prop :=
  (∃ b c, e = [b] ∧ escaped string_escapes b = Some c ∧ out = encode_char c) ∨
  (∃ c, hex_piece e c next ∧ out = encode_char c) ∨
  (continued e next ∧ out = []).

(** A text up to the closing byte [q], and what it stands for. *)
Inductive quoted_text (q : byte) (piece : bytes → bytes → option byte → Prop) :
    bytes → bytes → Prop :=
  | quoted_end : quoted_text q piece [q] []
  | quoted_byte b r v :
      b ≠ q → b ≠ "\"%byte → quoted_text q piece r v → quoted_text q piece (b :: r) (b :: v)
  | quoted_escape e out r v :
      piece e out (head r) → quoted_text q piece r v →
      quoted_text q piece ("\"%byte :: e ++ r) (out ++ v).

Lemma quoted_bytes q piece bs r v :
  Forall (λ b, b ≠ q ∧ b ≠ "\"%byte) bs → quoted_text q piece r v →
  quoted_text q piece (bs ++ r) (bs ++ v).
Proof. intros Hbs Hr. induction Hbs as [|b bs [??] _ IH]; [done | by apply quoted_byte]. Qed.

(** ** Identifiers *)

(** The byte after a token that goes on to a delimiter. *)
Definition delimited (next : option byte) : Prop := ∀ b, next = Some b → is_delimiter b = true.

Definition no_delimiter (text : bytes) : Prop := Forall (λ b, is_delimiter b = false) text.

(** A name that does not begin like a number or a single dot. *)
Definition bare_name (text : bytes) : Prop :=
  match text with
  | [] => False
  | b :: r =>
      is_initial_ident b = true ∨
      (is_sign b = true ∧ r ≠ lit "inf.0" ∧ r ≠ lit "nan.0" ∧
       ∀ c, head r = Some c → is_digit c = false ∧ c ≠ "."%byte) ∨
      (b = "."%byte ∧ ∃ c, head r = Some c ∧ is_digit c = false)
  end.

(** The text of an identifier, its name and the byte after it. *)
Inductive names_symbol : bytes → bytes → option byte → Prop :=
  | names_plain text next :
      bare_name text → no_delimiter text → delimited next → names_symbol text text next
  | names_keyword r next :
      no_delimiter r → delimited next →
      names_symbol ("#"%byte :: ":"%byte :: r) ("#"%byte :: ":"%byte :: r) next
  | names_quoted r name next :
      quoted_text "|"%byte pipe_piece r name → names_symbol ("|"%byte :: r) name next.

(** ** The other tokens *)

Section spelling.
Context {B R : Type} `{BigInt B} `{BigRational R B}.

Definition radix_of (p : byte) (radix : N) : Prop :=
  (p = "x"%byte ∨ p = "X"%byte) ∧ radix = 16%N ∨
  (p = "b"%byte ∨ p = "B"%byte) ∧ radix = 2%N ∨
  (p = "o"%byte ∨ p = "O"%byte) ∧ radix = 8%N.

(** A decimal number goes on as long as there are digits, the special
    literals apart; a number with a radix as long as there are digits of it. *)
Inductive number_text : bytes → Number B R → option byte → Prop :=
  | number_decimal text n next :
      parse_number text = Some n →
      (∀ b, next = Some b → is_digit b = true →
         ∃ p, text = p ++ lit "inf.0" ∨ text = p ++ lit "nan.0") →
      number_text text n next
  | number_radix p radix ds n next :
      radix_of p radix → ds ≠ [] → ds ≠ lit "+" → ds ≠ lit "-" →
      parse_radix_integer ds radix = Some n →
      (∀ b, next = Some b → radix_digit radix b = false) →
      number_text ("#"%byte :: p :: ds) n next.

(** The token a text token_text, with the byte after it; identifiers apart. *)
Inductive token_text : Token B R → bytes → option byte → Prop :=
  | sp_lparen next : token_text LParen ["("%byte] next
  | sp_rparen next : token_text RParen [")"%byte] next
  | sp_lbracket next : token_text LBracket ["["%byte] next
  | sp_rbracket next : token_text RBracket ["]"%byte] next
  | sp_quote next : token_text TQuote ["'"%byte] next
  | sp_quasi next : token_text TQuasiQuote ["`"%byte] next
  | sp_unquote next : next ≠ Some "@"%byte → token_text TUnquote [","%byte] next
  | sp_splicing next : token_text TUnquoteSplicing [","; "@"]%byte next
  | sp_dot next : delimited next → token_text TDot ["."%byte] next
  | sp_vector next : token_text HashLParen ["#"; "("]%byte next
  | sp_bytevector next : token_text HashU8LParen ["#"; "u"; "8"; "("]%byte next
  | sp_comment next : token_text HashSemi ["#"; ";"]%byte next
  | sp_true next : token_text (TBoolean true) ["#"; "t"]%byte next
  | sp_false next : token_text (TBoolean false) ["#"; "f"]%byte next
  | sp_number text n next : number_text text n next → token_text (TNumber n) text next
  | sp_string r v next :
      quoted_text dquote string_piece r v → token_text (TString v) (dquote :: r) next
  | sp_character b name c next :
      no_delimiter name → delimited next → character_of_name (b :: name) = Some c →
      token_text (TCharacter c) ("#"%byte :: "\"%byte :: b :: name) next.

(** The token that [text] token_text when the table is [syms], and the table
    after it: an identifier interns its name. *)
Definition spelled (syms : SymbolTable) (t : Token B R) (text : bytes) (next : option byte)
    (syms' : SymbolTable) : Prop :=
  token_text t text next ∧ syms' = syms ∨
  ∃ sym name, t = TIdentifier sym ∧ names_symbol text name next ∧
              SymbolTable.intern syms name = (syms', sym).

End spelling.
