(* ===== verification/LexerFacts.v ===== *)
(** * The lexer returns

    On a valid string no function of [Lexer] panics or runs out of fuel: every
    call of [next_token] before the end of the text consumes a byte, and the
    spans of tokens and errors lie within what was consumed.  The tokens that
    [lex_all] returns cut the text up as the grammar of [Spelling] says: each
    is spelled by the bytes of its span, and what lies between two spans is
    white space and comments. *)

From stdpp Require Import base numbers gmap list.
From Stdlib Require Import ZArith Strings.Byte.
From S2P Require Import Prelude RaftTypes Float64 BigNum Number Text Symbols Diag Lexer Spelling.

Local Open Scope crab_scope.
Local Open Scope nat_scope.

(** ** The cursor *)

Lemma peek_at f s i : peek (MkLexer f s i) = s !! i.
Proof. done. Qed.

Lemma bump_at f s i b : s !! i = Some b → bump (MkLexer f s i) = MkLexer f s (S i).
Proof. intros Hb. unfold bump. by rewrite peek_at, Hb. Qed.

Lemma bump_end f s i : s !! i = None → bump (MkLexer f s i) = MkLexer f s i.
Proof. intros Hb. unfold bump. by rewrite peek_at, Hb. Qed.

Lemma rest_at f s i : rest (MkLexer f s i) = drop i s.
Proof. done. Qed.

Lemma lookup_of_drop {A} (s : list A) i x r : drop i s = x :: r → s !! i = Some x.
Proof. intros Hd. rewrite <-(Nat.add_0_r i), <-lookup_drop, Hd. done. Qed.

Lemma drop_step {A} (s : list A) i x r : drop i s = x :: r → drop (S i) s = r.
Proof. intros Hd. rewrite <-Nat.add_1_r, <-drop_drop, Hd. done. Qed.

Lemma drop_nil_inv {A} (s : list A) i : drop i s = [] → length s ≤ i.
Proof. intros Hd. apply (f_equal length) in Hd. rewrite length_drop in Hd. cbn in Hd. lia. Qed.

Lemma lookup_drop_cons {A} (s : list A) i x : s !! i = Some x → drop i s = x :: drop (S i) s.
Proof. intros Hi. by rewrite <-drop_S with (x := x). Qed.

(** The loop that skips bytes of a class stops at the first byte outside it. *)
Lemma bump_while_prefix p f s i xs k :
  drop i s = xs ++ k → Forall (λ b, p b = true) xs →
  match k with [] => True | b :: _ => p b = false end →
  bump_while p (drop i s) (MkLexer f s i) = MkLexer f s (i + length xs).
Proof.
  intros Hd Hxs Hk. revert i Hd. induction Hxs as [|b xs Hb _ IH]; intros i Hd; rewrite Hd; cbn.
  - rewrite Nat.add_0_r. destruct k as [|b k]; [done |]. cbn. by rewrite Hk.
  - rewrite Hb. rewrite (bump_at _ _ _ b) by (by eapply lookup_of_drop).
    assert (drop (S i) s = xs ++ k) as Hd' by (by eapply drop_step).
    rewrite <-Hd', (IH (S i) Hd'). f_equal. lia.
Qed.

Lemma bump_while_at p f s i : i ≤ length s →
  ∃ j, bump_while p (drop i s) (MkLexer f s i) = MkLexer f s j ∧ i ≤ j ≤ length s ∧
       Forall (λ b, p b = true) (take (j - i) (drop i s)) ∧
       (∀ b, s !! j = Some b → p b = false).
Proof.
  intros Hi. remember (drop i s) as r eqn:Hr. revert i Hi Hr.
  induction r as [|b r IH]; intros i Hi Hr; symmetry in Hr; cbn.
  - exists i. apply drop_nil_inv in Hr. split_and!; [done | lia | lia | by rewrite take_nil |].
    intros b Hb%lookup_lt_Some. lia.
  - pose proof (lookup_of_drop _ _ _ _ Hr) as Hb. pose proof (lookup_lt_Some _ _ _ Hb).
    destruct (p b) eqn:Hp.
    + rewrite (bump_at _ _ _ b Hb).
      destruct (IH (S i)) as (j & -> & Hj & Hall & Hend); [lia | by erewrite drop_step |].
      exists j. split_and!; [done | lia | lia | | done].
      replace (j - i) with (S (j - S i)) by lia. cbn. by constructor.
    + exists i. rewrite Nat.sub_diag. split_and!; [done | lia | lia | constructor |]. congruence.
Qed.

(** A run of ASCII bytes from a boundary ends at a boundary. *)
Lemma ascii_run s i j :
  at_char s i → i ≤ j ≤ length s →
  Forall (λ b, (Byte.to_N b < 128)%N) (take (j - i) (drop i s)) → at_char s j.
Proof.
  intros Ha Hij Hall. remember (j - i) as n eqn:Hn. revert i Ha Hij Hn Hall.
  induction n as [|n IH]; intros i Ha Hij Hn Hall; [by replace j with i by lia |].
  destruct (lookup_lt_is_Some_2 s i) as [b Hb]; [lia |].
  rewrite (lookup_drop_cons _ _ _ Hb) in Hall. cbn in Hall. inversion_clear Hall.
  apply (IH (S i)); [by eapply at_char_ascii | lia | lia | done].
Qed.

(** A position that is the end or holds an ASCII byte is a boundary. *)
Lemma stop_at_char s j :
  str_ok s → j ≤ length s → (∀ b, s !! j = Some b → continuation b = false) → at_char s j.
Proof.
  intros Hs Hj Hb. destruct (s !! j) as [b|] eqn:Hl; [by eapply lead_at_char; eauto |].
  apply lookup_ge_None in Hl. replace j with (length s) by lia. by apply at_char_end.
Qed.

(** ** Classes of bytes *)

(** A class of ASCII bytes, decided by listing them. *)
Definition all_bytes : list byte := byte_of ∘ N.of_nat <$> seq 0 256.

Lemma all_bytes_complete b : b ∈ all_bytes.
Proof.
  apply list_elem_of_fmap. exists (N.to_nat (Byte.to_N b)).
  split; [unfold compose; by rewrite N2Nat.id, byte_of_to_N |]. apply elem_of_seq. pose proof (Byte.to_N_bounded b) as Hb. cbn in Hb. lia.
Qed.

Lemma by_bytes (P : byte → bool) : forallb P all_bytes = true → ∀ b, P b = true.
Proof. intros Hall b. rewrite forallb_forall in Hall. apply Hall, list_elem_of_In, all_bytes_complete. Qed.

Definition is_ascii (b : byte) : bool := bool_decide (Byte.to_N b < 128)%N.

Lemma ascii_class (p : byte → bool) b :
  forallb (λ b, implb (p b) (is_ascii b)) all_bytes = true → p b = true → (Byte.to_N b < 128)%N.
Proof.
  intros Hall Hp. pose proof (by_bytes _ Hall b) as Hb. cbn in Hb. rewrite Hp in Hb.
  by apply bool_decide_eq_true in Hb.
Qed.

Ltac ascii_byte := eapply ascii_class; [| eassumption]; vm_compute; reflexivity.

Lemma delimiter_ascii b : is_delimiter b = true → (Byte.to_N b < 128)%N.
Proof. intros. ascii_byte. Qed.

Lemma hexdigit_ascii b : is_hexdigit b = true → (Byte.to_N b < 128)%N.
Proof. intros. ascii_byte. Qed.

Lemma blank_ascii b : is_blank b = true → (Byte.to_N b < 128)%N.
Proof. intros. ascii_byte. Qed.

Lemma sign_ascii b : is_sign b = true → (Byte.to_N b < 128)%N.
Proof. intros. ascii_byte. Qed.

Lemma digit_ascii b : is_digit b = true → (Byte.to_N b < 128)%N.
Proof. intros. ascii_byte. Qed.

Lemma initial_ascii b : is_initial_ident b = true → (Byte.to_N b < 128)%N.
Proof. intros. ascii_byte. Qed.

Lemma radix_digit_ascii radix b : radix ∈ [2; 8; 16]%N → radix_digit radix b = true → (Byte.to_N b < 128)%N.
Proof.
  intros Hr Hb. repeat (apply elem_of_cons in Hr as [->|Hr]; [ascii_byte |]). by apply elem_of_nil in Hr.
Qed.

#[export] Hint Resolve delimiter_ascii hexdigit_ascii blank_ascii sign_ascii digit_ascii
  initial_ascii : ascii.

Section facts.
Context (f : FileId) (s : bytes) (Hs : str_ok s).

Notation at_ i := (MkLexer f s i).

(** The bytes between two positions. *)
Notation sub i j := (take (j - i) (drop i s)).

Lemma sub_refl i : sub i i = [].
Proof. by rewrite Nat.sub_diag. Qed.

Lemma sub_cons i j b : s !! i = Some b → i < j → sub i j = b :: sub (S i) j.
Proof.
  intros Hb Hj. rewrite (lookup_drop_cons _ _ _ Hb). replace (j - i) with (S (j - S i)) by lia. done.
Qed.

Lemma sub_one i b : s !! i = Some b → sub i (S i) = [b].
Proof. intros Hb. rewrite (sub_cons i (S i) b), sub_refl by (done || lia). done. Qed.

Lemma sub_app i j k : i ≤ j ≤ k → sub i k = sub i j ++ sub j k.
Proof.
  intros Hij. replace (k - i) with ((j - i) + (k - j)) by lia.
  rewrite <-take_take_drop, drop_drop. repeat f_equal. lia.
Qed.

Lemma sub_head i j : i < j → head (sub i j) = s !! i.
Proof.
  intros Hj. destruct (s !! i) as [b|] eqn:Hb; [by rewrite (sub_cons i j b) |].
  apply lookup_ge_None in Hb. by rewrite drop_ge, take_nil.
Qed.

(** An error whose span lies between two positions. *)
Definition inside (i j : nat) (e : LexError) : Prop :=
  ∃ a b, lex_error_span e = span (at_ i) a b ∧ i ≤ a ≤ b ∧ b ≤ j.

Lemma inside_weaken i i' j e : i' ≤ i → inside i j e → inside i' j e.
Proof. intros Hi (a & b & He & Hab & Hj). exists a, b. split_and!; (done || lia). Qed.

(** A call at position [i] that returns, at or after [i]; what it returns is as
    [P] says, and its errors are after [start]. *)
Definition reads {A} (start i : nat) (P : nat → A → Prop) (r : option (Lexer * (LexError + A))) : Prop :=
  ∃ j x, r = Some (at_ j, x) ∧ i ≤ j ≤ length s ∧
         match x with inr a => P j a | inl e => inside start j e end.

Lemma reads_ok {A} start i j P (a : A) :
  i ≤ j ≤ length s → P j a → reads start i P (Some (at_ j, inr a)).
Proof. intros. by exists j, (inr a). Qed.

Lemma reads_error {A} start i j a b (P : nat → A → Prop) e :
  lex_error_span e = span (at_ j) a b → start ≤ a ≤ b → b ≤ j → i ≤ j ≤ length s →
  reads start i P (Some (at_ j, inl e)).
Proof. intros He ???. exists j, (inl e). split_and!; [done | lia | lia |]. by exists a, b. Qed.

Lemma reads_weaken {A} start start' i i' (P Q : nat → A → Prop) r :
  start' ≤ start → i' ≤ i → (∀ j a, i ≤ j → P j a → Q j a) → reads start i P r → reads start' i' Q r.
Proof.
  intros Hst Hi HPQ (j & x & -> & Hj & Hx). exists j, x. split_and!; [done | lia | lia |].
  destruct x; [by eapply inside_weaken | apply HPQ; [lia | done]].
Qed.

Lemma lt_of_lookup i b : s !! i = Some b → S i ≤ length s.
Proof. intros Hb%lookup_lt_Some. lia. Qed.

(** ** White space and comments *)

Lemma line_comment_at i : i ≤ length s →
  ∃ j, line_comment (drop i s) (at_ i) = at_ j ∧ i ≤ j ≤ length s ∧
       (∀ b, s !! i = Some b → i < j) ∧
       ((∃ body, sub i j = body ++ [newline] ∧ newline ∉ body) ∨
        j = length s ∧ newline ∉ sub i j).
Proof.
  intros Hi. remember (drop i s) as r eqn:Hr. revert i Hi Hr.
  induction r as [|b r IH]; intros i Hi Hr; symmetry in Hr; cbn.
  - exists i. pose proof (drop_nil_inv _ _ Hr). split_and!; [done | lia | lia | |].
    { intros b Hb%lookup_lt_Some. lia. }
    right. rewrite take_nil. split; [lia | apply not_elem_of_nil].
  - pose proof (lookup_of_drop _ _ _ _ Hr) as Hb. pose proof (lt_of_lookup _ _ Hb).
    rewrite <-Hr, (bump_at _ _ _ b Hb). case_bool_decide as Hnl.
    { subst b. exists (S i). split_and!; [done | lia | lia | lia |]. left. exists [].
      rewrite (sub_one _ _ Hb). split; [done | apply not_elem_of_nil]. }
    pose proof (drop_step _ _ _ _ Hr) as Hr1.
    destruct (IH (S i)) as (j & -> & Hj & _ & Hbody); [lia | by rewrite Hr1 |].
    exists j. split_and!; [done | lia | lia | lia |].
    rewrite (sub_cons i j b Hb) by lia. rewrite Hr1.
    destruct Hbody as [(body & -> & Hn)|[-> Hn]].
    + left. exists (b :: body). split; [done |]. by rewrite not_elem_of_cons.
    + right. split; [done |]. by rewrite not_elem_of_cons.
Qed.

Lemma block_comment_at n depth i : length (drop i s) ≤ n → i ≤ length s → 1 ≤ depth →
  ∃ j ended, block_comment (drop i s) depth (at_ i) = (at_ j, ended) ∧ i ≤ j ≤ length s ∧
    (ended = true → closes depth (sub i j)).
Proof.
  revert depth i. induction n as [|n IH]; intros depth i Hn Hi Hd.
  { assert (drop i s = []) as -> by (apply nil_length_inv; lia). exists i, false. split_and!; (done || lia). }
  enough (∀ r, drop i s = r → ∃ j ended, block_comment r depth (at_ i) = (at_ j, ended) ∧
    i ≤ j ≤ length s ∧ (ended = true → closes depth (sub i j))) as Hall by by apply Hall.
  intros [|b r] Hr; [exists i, false; split_and!; (done || lia) |]. rewrite Hr in Hn.
  pose proof (lookup_of_drop _ _ _ _ Hr) as Hb. pose proof (lt_of_lookup _ _ Hb).
  pose proof (drop_step _ _ _ _ Hr) as Hr1. cbn in Hn.
  assert (∀ d, 1 ≤ d → ∃ j ended, block_comment r d (at_ (S i)) = (at_ j, ended) ∧
    i < j ≤ length s ∧ (ended = true → closes d (sub (S i) j))) as Hone.
  { intros d Hd1. destruct (IH d (S i)) as (j & e & Heq & Hj & Hcl); [rewrite Hr1; lia | lia | done |].
    rewrite Hr1 in Heq. exists j, e. split_and!; (done || lia). }
  cbn [block_comment]. rewrite (bump_at _ _ _ b Hb). destruct r as [|c r].
  { cbn. exists (S i), false. split_and!; (done || lia). }
  pose proof (lookup_of_drop _ _ _ _ Hr1) as Hc. pose proof (lt_of_lookup _ _ Hc).
  rewrite (bump_at _ _ _ c Hc). pose proof (drop_step _ _ _ _ Hr1) as Hr2. cbn in Hn.
  assert (∀ j, S i < j → sub i j = b :: c :: sub (S (S i)) j) as Hsub.
  { intros j Hj. rewrite (sub_cons i j b Hb), (sub_cons (S i) j c Hc) by lia. done. }
  assert (∀ d, 1 ≤ d → ∃ j ended, block_comment r d (at_ (S (S i))) = (at_ j, ended) ∧
    S i < j ≤ length s ∧ (ended = true → closes d (sub (S (S i)) j))) as Htwo.
  { intros d Hd1. destruct (IH d (S (S i))) as (j & e & Heq & Hj & Hcl); [rewrite Hr2; lia | lia | done |].
    rewrite Hr2 in Heq. exists j, e. split_and!; (done || lia). }
  destruct ((b ≟ "#"%byte) && (c ≟ "|"%byte)) eqn:Hopen.
  { apply andb_true_iff in Hopen as [->%bool_decide_eq_true ->%bool_decide_eq_true].
    destruct (Htwo (S depth)) as (j & e & -> & Hj & Hcl); [lia |]. exists j, e.
    split_and!; [done | lia | lia |]. intros ->. rewrite Hsub by lia. by apply closes_open, Hcl. }
  destruct ((b ≟ "|"%byte) && (c ≟ "#"%byte)) eqn:Hclose.
  - apply andb_true_iff in Hclose as [->%bool_decide_eq_true ->%bool_decide_eq_true].
    destruct depth as [|[|d]]; [lia | |].
    { exists (S (S i)), true. split_and!; [done | lia | lia |]. intros _.
      rewrite Hsub, sub_refl by lia. apply closes_last. }
    destruct (Htwo (S d)) as (j & e & -> & Hj & Hcl); [lia |]. exists j, e.
    split_and!; [done | lia | lia |]. intros ->. rewrite Hsub by lia. by apply closes_inner, Hcl.
  - destruct (Hone depth Hd) as (j & e & Heq & Hj & Hcl). rewrite Heq. exists j, e.
    split_and!; [done | lia | lia |]. intros ->. specialize (Hcl eq_refl).
    destruct (decide (j = S i)) as [->|Hne].
    { rewrite sub_refl in Hcl. inversion Hcl. }
    rewrite Hsub by lia. rewrite (sub_cons (S i) j c Hc) in Hcl by lia.
    apply closes_byte; [| | done]; intros [-> ->]; by rewrite !bool_decide_eq_true_2 in * by done.
Qed.

(** Skipping returns, having consumed white space and comments only; an
    error consumed the opening of a comment. *)
Definition skips (i : nat) (r : option (Lexer * (LexError + unit))) : Prop :=
  ∃ j x, r = Some (at_ j, x) ∧ i ≤ j ≤ length s ∧
         match x with
         | inr _ => trailing (sub i j) ∧ (j < length s → atmosphere (sub i j))
         | inl e => inside i j e ∧ i < j
         end.

(** What was skipped up to [j], and what will be from there. *)
Lemma skips_next i j r :
  i < j ≤ length s → atmosphere (sub i j) ∨ j = length s ∧ trailing (sub i j) →
  skips j r → skips i r.
Proof.
  intros Hj Hgap (k & x & -> & Hk & Hx). exists k, x. split_and!; [done | lia | lia |].
  destruct x as [e|]; [destruct Hx; split; [eapply inside_weaken; [| done] |]; lia |].
  destruct Hx as [Ht Ha]. rewrite (sub_app i j k) by lia. destruct Hgap as [Hg|[-> Hg]].
  - split; [by apply trailing_app |]. intros. apply atmosphere_app; auto.
  - assert (k = length s) as -> by lia. rewrite sub_refl, app_nil_r. split; [done | lia].
Qed.

(** A line comment is part of what is between tokens. *)
Lemma line_gap i j : s !! i = Some ";"%byte → i < j ≤ length s →
  (∃ body, sub i j = body ++ [newline] ∧ newline ∉ body) ∨ j = length s ∧ newline ∉ sub i j →
  atmosphere (sub i j) ∨ j = length s ∧ trailing (sub i j).
Proof.
  intros Hb Hj. rewrite (sub_cons i j _ Hb) by lia. intros [(body & Heq & Hn)|[-> Hn]].
  - destruct body as [|c body]; [done |]. injection Heq as <- ->. left.
    rewrite not_elem_of_cons in Hn. apply atm_line; [tauto | constructor].
  - right. split; [done |]. eexists [], _. split_and!; [done | constructor |]. right.
    eexists. split; [done |]. rewrite not_elem_of_cons in Hn. tauto.
Qed.

Lemma skip_loop_at fuel i : length (drop i s) < fuel → i ≤ length s → skips i (skip_loop fuel (at_ i)).
Proof.
  revert i. induction fuel as [|fuel IH]; intros i Hf Hi; [lia |]. rewrite length_drop in Hf.
  assert (skips i (Some (at_ i, inr ()))) as Hstop.
  { exists i, (inr ()). rewrite sub_refl.
    split_and!; [done | lia | lia | apply atmosphere_trailing; constructor | constructor]. }
  assert (∀ j, i < j ≤ length s → atmosphere (sub i j) ∨ j = length s ∧ trailing (sub i j) →
    skips i (skip_loop fuel (at_ j))) as Hnext.
  { intros j Hj Hgap. apply (skips_next i j); [done | done |]. apply IH; [rewrite length_drop |]; lia. }
  cbn [skip_loop]. rewrite peek_at. destruct (s !! i) as [b|] eqn:Hb; [| done].
  pose proof (lt_of_lookup _ _ Hb). rewrite (bump_at _ _ _ _ Hb), rest_at.
  destruct (is_whitespace b) eqn:Hw.
  { apply Hnext; [lia |]. left. rewrite (sub_one _ _ Hb). by repeat constructor. }
  case_bool_decide as Hsemi.
  { subst b. destruct (line_comment_at i Hi) as (j & -> & Hj & Hlt & Hbody). specialize (Hlt _ Hb).
    apply Hnext; [lia |]. apply line_gap; (done || lia). }
  destruct (_ && _) eqn:Hc; [| done].
  apply andb_true_iff in Hc as [->%bool_decide_eq_true Hc%bool_decide_eq_true].
  change (s !! S i = Some "|"%byte) in Hc.
  pose proof (lt_of_lookup _ _ Hc). rewrite (bump_at _ _ _ _ Hc), rest_at.
  destruct (block_comment_at (length s) 1 (S (S i))) as (j & ended & -> & Hj & Hcl);
    [rewrite length_drop; lia | lia | lia |].
  destruct ended.
  - apply Hnext; [lia |]. left.
    rewrite (sub_cons i j _ Hb), (sub_cons (S i) j _ Hc), <-(app_nil_r (sub _ j)) by lia.
    apply atm_block; [by apply Hcl | constructor].
  - exists j. eexists. split_and!; [done | lia | lia |].
    split; [exists i, j; split_and!; (done || lia) | lia].
Qed.

Lemma skip_at i : i ≤ length s → skips i (skip_whitespace_and_comments (at_ i)).
Proof. intros Hi. apply skip_loop_at; [rewrite rest_at; lia | done]. Qed.

(** ** Escapes *)

Lemma bump_opt i c : i ≤ length s →
  ∃ j, (if peek (at_ i) ≟ Some c then bump (at_ i) else at_ i) = at_ j ∧ i ≤ j ≤ length s ∧
       ((Byte.to_N c < 128)%N → at_char s i → at_char s j) ∧
       (s !! i = Some c ∧ j = S i ∨ s !! i ≠ Some c ∧ j = i).
Proof.
  intros Hi. case_bool_decide as Hc; rewrite peek_at in Hc; [| exists i; split_and!; (done || lia || auto)].
  rewrite (bump_at _ _ _ c Hc). exists (S i). pose proof (lt_of_lookup _ _ Hc).
  split_and!; [done | lia | lia | | by left]. intros. by eapply at_char_ascii.
Qed.

Lemma ascii_while p i : at_char s i → (∀ b, p b = true → (Byte.to_N b < 128)%N) →
  ∃ j, bump_while p (drop i s) (at_ i) = at_ j ∧ i ≤ j ≤ length s ∧ at_char s j ∧
       Forall (λ b, p b = true) (sub i j) ∧ (∀ b, s !! j = Some b → p b = false).
Proof.
  intros Ha Hp. destruct (at_char_ok s i Ha) as [_ Hi].
  destruct (bump_while_at p f s i Hi) as (j & -> & Hj & Hall & Hend).
  exists j. split_and!; [done | lia | lia | | done | done]. eapply ascii_run; [done | done |].
  eapply Forall_impl; [done |]. cbn. auto.
Qed.

(** What an escape of [i] consumed and stands for. *)
Notation piece_at P i := (λ j o, at_char s j ∧ P (sub i j) o (s !! j)).

Lemma hex_escape_at i b : at_char s i → s !! i = Some b → b = "x"%byte ∨ b = "X"%byte →
  reads i i (piece_at hex_piece i) (hex_escape (at_ i) i).
Proof.
  intros Ha Hb Hx. assert (Byte.to_N b < 128)%N as Hl by (by destruct Hx as [-> | ->]).
  unfold hex_escape. rewrite (bump_at _ _ _ b Hb), rest_at. cbn [lx_pos lx_src].
  pose proof (lt_of_lookup _ _ Hb). pose proof (at_char_ascii s i b Ha Hb Hl) as Ha1.
  destruct (ascii_while is_hexdigit (S i) Ha1 ltac:(auto with ascii)) as (j & -> & Hj & Haj & Hds & Hend).
  destruct (bump_opt j ";"%byte ltac:(lia)) as (k & -> & Hk & Hak & Hsemi). specialize (Hak ltac:(done) Haj).
  cbn [lx_pos lx_src].
  assert (∀ e, lex_error_span e = span (at_ k) i k →
               reads i i (piece_at hex_piece i) (Some (at_ k, inl e) : option (Lexer * (LexError + N)))) as Hbad.
  { intros e He. eapply reads_error; [exact He | lia..]. }
  case_bool_decide as Hne; [by apply Hbad |]. rewrite slice_at_char by (done || lia).
  destruct (u32_from_str_radix _ _) as [cp|] eqn:Hcp; [| by apply Hbad].
  destruct (char_from_u32 cp) as [c|] eqn:Hc; [| by apply Hbad].
  apply reads_ok; [lia |]. split; [done |]. exists b, (sub (S i) j), cp.
  split_and!; [done | | done | done | done |].
  { intros Hnil%(f_equal length). rewrite length_take, length_drop in Hnil. cbn in Hnil. lia. }
  rewrite (sub_cons i k b Hb) by lia. destruct Hsemi as [[Hs1 ->]|[Hs1 ->]]; [left | by right].
  rewrite (sub_app (S i) j (S j)), (sub_one j _ Hs1) by lia. done.
Qed.

(** The blanks after a line ending. *)
Lemma skip_blanks_at i k nl : i ≤ k → at_char s k →
  (∃ b1, sub i k = b1 ++ nl ∧ Forall (λ b, is_blank b = true) b1) →
  nl = [x0d] ∨ nl = [x0d; newline] ∨ nl = [newline] →
  reads i i (λ j (_ : unit), at_char s j ∧ continued (sub i j) (s !! j))
    (Some (bump_while is_blank (rest (at_ k)) (at_ k), inr ())).
Proof.
  intros Hk Hak (b1 & Hsub & Hb1) Hnl. rewrite rest_at.
  destruct (ascii_while is_blank k Hak ltac:(auto with ascii)) as (m & -> & Hm & Ham & Hb2 & Hend).
  apply reads_ok; [lia |]. split; [done |]. exists b1, nl, (sub k m).
  rewrite (sub_app i k m), Hsub, <-app_assoc by lia. by split_and!.
Qed.

Lemma line_continuation_at i : at_char s i →
  reads i i (λ j (_ : unit), at_char s j ∧ continued (sub i j) (s !! j)) (line_continuation (at_ i) i).
Proof.
  intros Ha. destruct (at_char_ok s i Ha) as [_ Hi]. unfold line_continuation. rewrite rest_at.
  destruct (ascii_while is_blank i Ha ltac:(auto with ascii)) as (j & -> & Hj & Haj & Hb1 & _).
  rewrite peek_at. case_bool_decide as Hcr.
  { rewrite (bump_at _ _ _ _ Hcr). pose proof (lt_of_lookup _ _ Hcr).
    pose proof (at_char_ascii s j _ Haj Hcr ltac:(done)) as Ha1.
    destruct (bump_opt (S j) newline ltac:(lia)) as (k & -> & Hk & Hak & Hnl).
    specialize (Hak ltac:(done) Ha1). destruct Hnl as [[Hnl ->]|[_ ->]].
    - apply (skip_blanks_at i _ [x0d; newline]); [lia | done | | auto]. exists (sub i j). split; [| done].
      by rewrite (sub_app i j (S (S j))), (sub_cons j _ _ Hcr), (sub_one _ _ Hnl) by lia.
    - apply (skip_blanks_at i _ [x0d]); [lia | done | | auto]. exists (sub i j). split; [| done].
      by rewrite (sub_app i j (S j)), (sub_one _ _ Hcr) by lia. }
  case_bool_decide as Hlf.
  { rewrite (bump_at _ _ _ _ Hlf). apply (skip_blanks_at i _ [newline]); [lia | by eapply at_char_ascii | | auto].
    exists (sub i j). split; [| done]. by rewrite (sub_app i j (S j)), (sub_one _ _ Hlf) by lia. }
  eapply reads_error; (done || cbn; lia).
Qed.

Lemma escaped_ascii table b c :
  forallb (λ b, implb (bool_decide (is_Some (escaped table b))) (is_ascii b)) all_bytes = true →
  escaped table b = Some c → (Byte.to_N b < 128)%N.
Proof.
  intros Hall Hb. eapply ascii_class; [exact Hall |]. apply bool_decide_eq_true_2. by rewrite Hb.
Qed.

Lemma map_escape (P : bytes → bytes → option byte → Prop) i (r : option (Lexer * (LexError + N))) :
  (∀ e c next, hex_piece e c next → P e (encode_char c) next) →
  reads i i (piece_at hex_piece i) r →
  reads i i (piece_at P i)
    (match r with
     | Some (l, inr c) => Some (l, inr (encode_char c))
     | Some (l, inl e) => Some (l, inl e)
     | None => None
     end).
Proof.
  intros HP (j & [e|c] & -> & Hj & Hx); eexists _, _; (split_and!; [done | lia | lia |]); [done |].
  destruct Hx. split; [done | by apply HP].
Qed.

Lemma or_byte (b c d : byte) : (b ≟ c) || (b ≟ d) = true → b = c ∨ b = d.
Proof. intros [Hx%bool_decide_eq_true|Hx%bool_decide_eq_true]%orb_true_iff; auto. Qed.

Lemma string_escape_at i : at_char s i → reads i i (piece_at string_piece i) (string_escape (at_ i)).
Proof.
  intros Ha. destruct (at_char_ok s i Ha) as [_ Hi]. unfold string_escape. cbn [lx_pos]. rewrite peek_at.
  destruct (s !! i) as [b|] eqn:Hb; [| eapply reads_error; (done || cbn; lia)].
  pose proof (lt_of_lookup _ _ Hb). destruct (escaped string_escapes b) as [c|] eqn:He.
  { rewrite (bump_at _ _ _ b Hb). apply reads_ok; [lia |]. split.
    - eapply at_char_ascii; [done | done |]. eapply escaped_ascii; [| done]. by vm_compute.
    - left. exists b, c. by rewrite (sub_one _ _ Hb). }
  destruct ((b ≟ "x"%byte) || (b ≟ "X"%byte)) eqn:Hx.
  { apply map_escape, (hex_escape_at i b Ha Hb); [| by apply or_byte]. intros e c next Hp. right. left. eauto. }
  destruct ((b ≟ newline) || (b ≟ x0d) || is_blank b); [| eapply reads_error; (done || cbn; lia)].
  destruct (line_continuation_at i Ha) as (j & [e|u] & -> & Hj & Hr); eexists _, _;
    (split_and!; [done | lia | lia |]); [done |].
  destruct Hr. split; [done |]. right. by right.
Qed.

Lemma pipe_escape_at i : at_char s i → reads i i (piece_at pipe_piece i) (pipe_escape (at_ i)).
Proof.
  intros Ha. destruct (at_char_ok s i Ha) as [_ Hi]. unfold pipe_escape. cbn [lx_pos]. rewrite peek_at.
  destruct (s !! i) as [b|] eqn:Hb; [| eapply reads_error; (done || cbn; lia)].
  pose proof (lt_of_lookup _ _ Hb). destruct (escaped pipe_escapes b) as [c|] eqn:He.
  { rewrite (bump_at _ _ _ b Hb). apply reads_ok; [lia |]. split.
    - eapply at_char_ascii; [done | done |]. eapply escaped_ascii; [| done]. by vm_compute.
    - left. exists b, c. by rewrite (sub_one _ _ Hb). }
  destruct ((b ≟ "x"%byte) || (b ≟ "X"%byte)) eqn:Hx; [| eapply reads_error; (done || cbn; lia)].
  apply map_escape, (hex_escape_at i b Ha Hb); [| by apply or_byte]. intros e c next Hp. right. eauto.
Qed.

(** A character of a string: its first byte tells it from the quote. *)
Lemma read_char_at i b : at_char s i → s !! i = Some b →
  ∃ j c, read_char_at_pos (at_ i) = Some (at_ j, c) ∧ i < j ≤ length s ∧ at_char s j ∧
    sub i j = encode_char c ∧
    ∀ q, (Byte.to_N q < 128)%N → b ≠ q → Forall (λ b, b ≠ q) (encode_char c).
Proof.
  intros Ha Hb. destruct (at_char_next s i b Ha Hb) as (c & bs & Hc & He & Hn & Htk & Haj).
  unfold read_char_at_pos. cbn [lx_src lx_pos]. rewrite slice_from_at_char, Hn by done.
  exists (i + len_utf8 c), c. destruct (at_char_ok _ _ Haj) as [_ Hj].
  split_and!; [done | | done | done | |].
  - unfold len_utf8. rewrite He. cbn. lia.
  - replace (i + len_utf8 c - i) with (len_utf8 c) by lia. done.
  - intros q Hq Hbq. destruct (encode_char_shape c Hc) as (b' & bs' & He' & _ & Hbs).
    rewrite He in He'. injection He' as <- <-. rewrite He. constructor; [done |].
    eapply Forall_impl; [exact Hbs |]. cbn. intros x Hx ->.
    apply ascii_not_continuation in Hq. congruence.
Qed.

(** ** Tokens *)

Context {B R : Type} `{BigInt B} `{BigRational R B}.

Notation Token := (Token B R).

(** A token that ends at [j], spelled by the bytes of its span. *)
Definition token_end (start j : nat) (a : Token * Span) : Prop :=
  a.2 = span (at_ j) start j ∧ token_text a.1 (sub start j) (s !! j).

(** [reads] for the functions that also return a symbol table. *)
Definition lexes (syms : SymbolTable) (start i : nat)
    (r : option (Lexer * SymbolTable * (LexError + Token * Span))) : Prop :=
  ∃ j syms' x, r = Some (at_ j, syms', x) ∧ i ≤ j ≤ length s ∧
    match x with
    | inr a => a.2 = span (at_ j) start j ∧ spelled syms a.1 (sub start j) (s !! j) syms'
    | inl e => inside start j e
    end.

Lemma keep_at start i syms r : reads start i (token_end start) r → lexes syms start i (keep syms r).
Proof.
  intros (j & x & -> & Hj & Hx). exists j, syms, x. split_and!; [done | lia | lia |].
  destruct x as [e|a]; [done |]. destruct Hx. split; [done |]. by left.
Qed.

Lemma ok_at start i j t :
  i ≤ j ≤ length s → token_text t (sub start j) (s !! j) →
  reads start i (token_end start) (ok (at_ j) start t).
Proof. intros. by apply reads_ok. Qed.

Lemma one_byte_at start i b syms t :
  s !! i = Some b → token_text t (sub start (S i)) (s !! S i) →
  lexes syms start (S i) (one_byte (at_ i) syms start t).
Proof.
  intros Hb Ht. unfold one_byte. rewrite (bump_at _ _ _ b Hb). pose proof (lt_of_lookup _ _ Hb).
  apply keep_at, ok_at; [lia | done].
Qed.

Lemma string_loop_at fuel start i out : length s < fuel + i → at_char s i → start ≤ i →
  reads start i (λ j a, a.2 = span (at_ j) start j ∧
      ∃ v, a.1 = TString (out ++ v) ∧ quoted_text dquote string_piece (sub i j) v)
    (string_loop (B := B) (R := R) fuel (at_ i) start out).
Proof.
  revert i out. induction fuel as [|fuel IH]; intros i out Hf Ha Hst; destruct (at_char_ok s i Ha) as [_ Hi]; [lia |].
  cbn [string_loop]. rewrite peek_at. destruct (s !! i) as [b|] eqn:Hb; [| eapply reads_error; (done || cbn; lia)].
  pose proof (lt_of_lookup _ _ Hb). rewrite (bump_at _ _ _ b Hb).
  case_bool_decide as Hq.
  { subst b. unfold ok. apply reads_ok; [lia |]. split; [done |]. exists []. rewrite app_nil_r, (sub_one _ _ Hb).
    split; [done | constructor]. }
  case_bool_decide as Hbs.
  - subst b. destruct (string_escape_at (S i)) as (j & [e|o] & -> & Hj & Hx); [by eapply at_char_ascii | |].
    { exists j, (inl e). split_and!; [done | lia | lia |]. eapply inside_weaken; [| done]. lia. }
    destruct Hx as [Haj Hp]. eapply reads_weaken; [| | | apply (IH j (out ++ o))]; [done | lia | | lia | done | lia].
    intros k a Hk (Hsp & v & -> & Hv). split; [done |]. exists (o ++ v). rewrite app_assoc. split; [done |].
    assert (j < k) by (destruct (decide (j = k)) as [->|]; [rewrite sub_refl in Hv; inversion Hv | lia]).
    rewrite (sub_cons i k _ Hb), (sub_app (S i) j k) by lia.
    apply quoted_escape; [by rewrite sub_head | done].
  - destruct (read_char_at i b Ha Hb) as (j & c & -> & Hj & Haj & Hsub & Hc).
    eapply reads_weaken; [| | | apply (IH j (out ++ encode_char c))]; [done | lia | | lia | done | lia].
    intros k a Hk (Hsp & v & -> & Hv). split; [done |]. exists (encode_char c ++ v).
    rewrite app_assoc. split; [done |]. rewrite (sub_app i j k), Hsub by lia. apply quoted_bytes; [| done].
    apply Forall_and. split; by apply Hc.
Qed.

Lemma read_string_at i : at_char s i → s !! i = Some dquote → reads i (S i) (token_end i) (read_string (at_ i) i).
Proof.
  intros Ha Hb. unfold read_string. rewrite (bump_at _ _ _ _ Hb), rest_at, length_drop.
  pose proof (lt_of_lookup _ _ Hb).
  eapply reads_weaken; [| | | apply (string_loop_at _ i (S i) [])];
    [done | done | | lia | by eapply at_char_ascii | lia].
  intros j a Hj (Hsp & v & Ht & Hv). split; [done |]. rewrite Ht.
  rewrite (sub_cons i j _ Hb) by lia. by apply sp_string.
Qed.

(** An identifier, of the name that its text stands for. *)
Lemma intern_at start i j syms text name : start ≤ j ≤ length s → i ≤ j →
  text = sub start j → names_symbol text name (s !! j) →
  lexes syms start i (let '(syms, sym) := SymbolTable.intern syms name in
                 Some (at_ j, syms, inr (TIdentifier sym, span (at_ j) start j))).
Proof.
  intros Hj Hij -> Hn. destruct (SymbolTable.intern syms name) as [syms' sym] eqn:Hi. eexists j, syms', _.
  split_and!; [done | lia | lia |]. split; [done |]. right. by exists sym, name.
Qed.

Lemma lexes_weaken syms start i i' r : i' ≤ i → lexes syms start i r → lexes syms start i' r.
Proof. intros Hi (j & syms' & x & -> & Hj & Hx). exists j, syms', x. split_and!; (done || lia). Qed.

(** A loop on a quoted name, which has read [out] so far. *)
Definition quotes (syms : SymbolTable) (start i : nat) (out : bytes)
    (r : option (Lexer * SymbolTable * (LexError + Token * Span))) : Prop :=
  ∃ j syms' x, r = Some (at_ j, syms', x) ∧ i ≤ j ≤ length s ∧
    match x with
    | inr a => a.2 = span (at_ j) start j ∧
        ∃ sym v, a.1 = TIdentifier sym ∧ quoted_text "|"%byte pipe_piece (sub i j) v ∧
                 SymbolTable.intern syms (out ++ v) = (syms', sym)
    | inl e => inside start j e
    end.

Lemma quotes_more syms start i j out o r :
  i < j → (∀ k v, j < k → quoted_text "|"%byte pipe_piece (sub j k) v →
             quoted_text "|"%byte pipe_piece (sub i k) (o ++ v)) →
  quotes syms start j (out ++ o) r → quotes syms start i out r.
Proof.
  intros Hij Hq (k & syms' & x & -> & Hk & Hx). exists k, syms', x. split_and!; [done | lia | lia |].
  destruct x as [e|a]; [done |]. destruct Hx as (Hsp & sym & v & Ht & Hv & Hi). split; [done |].
  exists sym, (o ++ v). rewrite app_assoc. split_and!; [done | | done]. apply Hq; [| done].
  destruct (decide (j = k)) as [->|]; [| lia]. rewrite sub_refl in Hv. inversion Hv.
Qed.

Lemma pipe_loop_at fuel start i syms out : length s < fuel + i → at_char s i → start ≤ i →
  quotes syms start i out (pipe_loop fuel (at_ i) syms start out).
Proof.
  revert i out. induction fuel as [|fuel IH]; intros i out Hf Ha Hst; destruct (at_char_ok s i Ha) as [_ Hi]; [lia |].
  cbn [pipe_loop]. rewrite peek_at. destruct (s !! i) as [b|] eqn:Hb.
  2:{ exists i, syms. eexists. split_and!; [done | lia | lia |]. by exists start, i. }
  pose proof (lt_of_lookup _ _ Hb). rewrite (bump_at _ _ _ b Hb). cbn [lx_pos lx_src]. rewrite rest_at.
  case_bool_decide as Hq.
  { subst b. destruct (SymbolTable.intern syms out) as [syms' sym] eqn:Hin. eexists (S i), syms', _.
    split_and!; [done | lia | lia |]. split; [done |]. exists sym, []. rewrite app_nil_r, (sub_one _ _ Hb).
    split_and!; [done | constructor | done]. }
  case_bool_decide as Hbs.
  - subst b. destruct (pipe_escape_at (S i)) as (j & [e|o] & -> & Hj & Hx); [by eapply at_char_ascii | |].
    { exists j, syms, (inl e). split_and!; [done | lia | lia |]. eapply inside_weaken; [| done]. lia. }
    destruct Hx as [Haj Hp]. apply (quotes_more _ _ i j out o); [lia | | apply IH; (done || lia)].
    intros k v Hk Hv. rewrite (sub_cons i k _ Hb), (sub_app (S i) j k) by lia.
    apply quoted_escape; [by rewrite sub_head | done].
  - destruct (bump_while_at continuation f s (S i)) as (j & -> & Hj & Hall & Hend); [lia |]. cbn [lx_pos lx_src].
    assert (at_char s j) as Haj by (apply stop_at_char; (done || lia)).
    rewrite slice_at_char by (done || lia).
    apply (quotes_more _ _ i j out (sub i j)); [lia | | apply IH; (done || lia)].
    intros k v Hk Hv. rewrite (sub_app i j k) by lia. apply quoted_bytes; [| done].
    rewrite (sub_cons i j b Hb) by lia. constructor; [done |]. eapply Forall_impl; [exact Hall |].
    cbn. intros c Hc. split; intros ->; by vm_compute in Hc.
Qed.

Lemma read_pipe_identifier_at i syms : at_char s i → s !! i = Some "|"%byte →
  lexes syms i (S i) (read_pipe_identifier (at_ i) syms i).
Proof.
  intros Ha Hb. unfold read_pipe_identifier. rewrite (bump_at _ _ _ _ Hb), rest_at, length_drop.
  pose proof (lt_of_lookup _ _ Hb).
  destruct (pipe_loop_at (S (length s - S i)) i (S i) syms []) as (j & syms' & x & -> & Hj & Hx);
    [lia | by eapply at_char_ascii | lia |].
  exists j, syms', x. split_and!; [done | lia | lia |]. destruct x as [e|a]; [done |].
  destruct Hx as (Hsp & sym & v & Ht & Hv & Hin). split; [done |]. right. exists sym, v.
  split_and!; [done | | done]. rewrite (sub_cons i j _ Hb) by lia. by apply names_quoted.
Qed.

Lemma to_delimiter_at i : i ≤ length s →
  ∃ j, to_delimiter (at_ i) = at_ j ∧ i ≤ j ≤ length s ∧ at_char s j ∧
       (∀ b, s !! i = Some b → is_delimiter b = false → i < j) ∧
       no_delimiter (sub i j) ∧ delimited (s !! j).
Proof.
  intros Hi. unfold to_delimiter. rewrite rest_at.
  destruct (bump_while_at (λ b, negb (is_delimiter b)) f s i Hi) as (j & -> & Hj & Hall & Hend).
  assert (delimited (s !! j)) as Hdel.
  { intros b Hb. specialize (Hend b Hb). by apply negb_false_iff in Hend. }
  exists j. split_and!; [done | lia | lia | | | | done].
  - apply stop_at_char; [done | lia |]. intros b Hb. by apply ascii_not_continuation, delimiter_ascii, Hdel.
  - intros b Hb Hd. destruct (decide (i = j)) as [->|]; [| lia].
    specialize (Hend b Hb). rewrite Hd in Hend. done.
  - eapply Forall_impl; [exact Hall |]. cbn. intros b. apply negb_true_iff.
Qed.

Lemma read_identifier_at i b syms : at_char s i → s !! i = Some b → is_delimiter b = false →
  (∀ j, i < j → no_delimiter (sub i j) → delimited (s !! j) → bare_name (sub i j)) →
  lexes syms i (S i) (read_identifier (at_ i) syms i).
Proof.
  intros Ha Hb Hd Hname. destruct (at_char_ok s i Ha) as [_ Hi].
  destruct (to_delimiter_at i Hi) as (j & Hto & Hj & Haj & Hlt & Hno & Hdel). specialize (Hlt b Hb Hd).
  unfold read_identifier. rewrite Hto. cbn [lx_src lx_pos]. rewrite slice_at_char by (done || lia).
  apply (intern_at _ _ _ _ (sub i j)); [lia | lia | done |]. apply names_plain; auto.
Qed.

Lemma read_character_at i : at_char s i → s !! i = Some "#"%byte → s !! S i = Some "\"%byte →
  reads i (S (S i)) (token_end i) (read_character (at_ (S i)) i).
Proof.
  intros Ha Hh Hb. unfold read_character. rewrite (bump_at _ _ _ _ Hb). pose proof (lt_of_lookup _ _ Hb).
  assert (at_char s (S (S i))) as Ha2 by (eapply at_char_ascii; [by eapply at_char_ascii | done | done]).
  cbn [lx_pos]. destruct (s !! S (S i)) as [c|] eqn:Hc.
  - rewrite (bump_at _ _ _ c Hc). apply lt_of_lookup in Hc as Hlt.
    destruct (to_delimiter_at (S (S (S i)))) as (j & -> & Hj & Haj & _ & Hno & Hdel); [lia |].
    cbn [lx_pos lx_src]. rewrite slice_at_char, (sub_cons (S (S i)) j c) by (done || lia).
    destruct (character_of_name _) as [n|] eqn:Hn; [| eapply reads_error; (done || cbn; lia)].
    apply ok_at; [lia |].
    rewrite (sub_cons i j _ Hh), (sub_cons (S i) j _ Hb), (sub_cons (S (S i)) j c) by (done || lia).
    by apply sp_character.
  - rewrite (bump_end _ _ _ Hc). destruct (to_delimiter_at (S (S i))) as (j & -> & Hj & Haj & _); [lia |].
    apply lookup_ge_None in Hc. assert (j = S (S i)) as -> by lia. cbn [lx_pos lx_src].
    rewrite slice_at_char, sub_refl by (done || lia). change (character_of_name []) with (None (A := N)).
    eapply reads_error; (done || cbn; lia).
Qed.

(** The byte after a decimal number is no digit, unless it is a special one. *)
Definition number_ends (start j : nat) : Prop :=
  ∀ b, s !! j = Some b → is_digit b = true →
    ∃ p, sub start j = p ++ lit "inf.0" ∨ sub start j = p ++ lit "nan.0".

Lemma number_token_at start j : at_char s start → at_char s j → start ≤ j → number_ends start j →
  reads start j (token_end start) (number_token (at_ j) start).
Proof.
  intros Hst Haj Hle Hend. destruct (at_char_ok s j Haj) as [_ Hj].
  unfold number_token. cbn [lx_pos lx_src]. rewrite slice_at_char by done.
  destruct (parse_number _) as [n|] eqn:Hn; [| eapply reads_error; (done || cbn; lia)].
  apply ok_at; [lia |]. by apply sp_number, number_decimal.
Qed.

Lemma number_loop_at n d sl e i : length (drop i s) ≤ n → at_char s i →
  ∃ j, number_loop (drop i s) d sl e (at_ i) = at_ j ∧ i ≤ j ∧ at_char s j ∧
       (∀ b, s !! i = Some b → is_digit b = true ∨ b = "."%byte ∧ d = false ∧ sl = false → i < j) ∧
       (∀ b, s !! j = Some b → is_digit b = false).
Proof.
  revert d sl e i. induction n as [|n IH]; intros d sl e i Hn Ha.
  { assert (drop i s = []) as Hd by (apply nil_length_inv; lia). rewrite Hd.
    apply drop_nil_inv in Hd.
    exists i. split_and!; [done | done | done | |]; intros b Hb%lookup_lt_Some; lia. }
  destruct (drop i s) as [|b r] eqn:Hr.
  { apply drop_nil_inv in Hr.
    exists i. split_and!; [done | done | done | |]; intros b Hb%lookup_lt_Some; lia. }
  pose proof (lookup_of_drop _ _ _ _ Hr) as Hb. pose proof (drop_step _ _ _ _ Hr) as Hr1. cbn in Hn.
  assert (∀ d sl e, (Byte.to_N b < 128)%N → ∃ j, number_loop r d sl e (at_ (S i)) = at_ j ∧
            i ≤ j ∧ at_char s j ∧ i < j ∧
            (∀ b, s !! j = Some b → is_digit b = false)) as Hone.
  { intros d' sl' e' Hl. destruct (IH d' sl' e' (S i)) as (j & Heq & Hj & Haj & _ & Hend);
      [rewrite Hr1; lia | by eapply at_char_ascii |].
    rewrite Hr1 in Heq. exists j. split_and!; [done | lia | done | lia | done]. }
  cbn [number_loop]. rewrite (bump_at _ _ _ b Hb).
  assert (∀ d' sl' e', (Byte.to_N b < 128)%N → ∃ j, number_loop r d' sl' e' (at_ (S i)) = at_ j ∧
            i ≤ j ∧ at_char s j ∧
            (∀ b, s !! i = Some b → is_digit b = true ∨ b = "."%byte ∧ d = false ∧ sl = false → i < j) ∧
            (∀ b, s !! j = Some b → is_digit b = false)) as Hgo.
  { intros d' sl' e' Hl. destruct (Hone d' sl' e' Hl) as (j & ? & ? & ? & ? & ?). exists j. by split_and!. }
  destruct (is_digit b) eqn:Hdig; [apply Hgo; auto with ascii |].
  destruct (b ≟ "."%byte) eqn:Hdot; [apply bool_decide_eq_true in Hdot as ->|]; cbn [andb].
  { destruct d, sl; cbn; try (by apply Hgo); exists i;
      (split_and!; [done | done | done | | congruence]); intros b ? [?|(_ & ? & ?)]; congruence. }
  apply bool_decide_eq_false in Hdot.
  assert (∀ b', s !! i = Some b' → is_digit b' = true ∨ b' = "."%byte ∧ d = false ∧ sl = false → i < i) as Hstop.
  { intros b' ? [?|(? & _)]; congruence. }
  destruct (b ≟ "/"%byte) eqn:Hsl; [apply bool_decide_eq_true in Hsl as ->|]; cbn [andb].
  { destruct (negb sl && negb d); [by apply Hgo |]. cbn. exists i. split_and!; (done || congruence). }
  destruct ((b ≟ "e"%byte) || (b ≟ "E"%byte)) eqn:He; cbn [andb].
  2:{ exists i. split_and!; (done || congruence). }
  assert (Byte.to_N b < 128)%N as Hl.
  { apply orb_true_iff in He as [->%bool_decide_eq_true| ->%bool_decide_eq_true]; done. }
  destruct (negb e); cbn; [| exists i; split_and!; (done || congruence)].
  destruct r as [|c r]; [exists (S i); split_and!; [done | lia | by eapply at_char_ascii | lia |];
    apply drop_nil_inv in Hr1; intros b' Hb'%lookup_lt_Some; lia |].
  destruct (is_sign c) eqn:Hsign; [| by apply Hgo].
  pose proof (lookup_of_drop _ _ _ _ Hr1) as Hc. rewrite (bump_at _ _ _ c Hc).
  pose proof (drop_step _ _ _ _ Hr1) as Hr2. cbn in Hn.
  destruct (IH true sl true (S (S i))) as (j & Heq & Hj & Haj & _ & Hend);
    [rewrite Hr2; lia | eapply at_char_ascii; [by eapply at_char_ascii | done | auto with ascii] |].
  rewrite Hr2 in Heq. exists j. split_and!; [done | lia | done | lia | done].
Qed.

Lemma sign_opt_at i : at_char s i →
  ∃ j, (match peek (at_ i) with Some b => if is_sign b then bump (at_ i) else at_ i | None => at_ i end) = at_ j ∧
       i ≤ j ≤ length s ∧ at_char s j ∧ (∀ b, s !! i = Some b → if is_sign b then j = S i else j = i).
Proof.
  intros Ha. destruct (at_char_ok s i Ha) as [_ Hi]. rewrite peek_at. destruct (s !! i) as [b|] eqn:Hb.
  2:{ exists i. split_and!; (done || lia). }
  pose proof (lt_of_lookup _ _ Hb). destruct (is_sign b) eqn:Hsign.
  - rewrite (bump_at _ _ _ b Hb). exists (S i). split_and!; [done | lia | lia | |].
    + eapply at_char_ascii; [done | done | auto with ascii].
    + intros b' [= <-]. by rewrite Hsign.
  - exists i. split_and!; [done | lia | lia | done |]. intros b' [= <-]. by rewrite Hsign.
Qed.

(** The literals [inf.0] and [nan.0] are five ASCII bytes. *)
Lemma special_at start i : is_special (get_range s i 5) = true → at_char s i → start ≤ i →
  bump (bump (bump (bump (bump (at_ i))))) = at_ (i + 5) ∧ at_char s (i + 5) ∧ number_ends start (i + 5) ∧
  (sub i (i + 5) = lit "inf.0" ∨ sub i (i + 5) = lit "nan.0").
Proof.
  unfold is_special, get_range. intros Hsp Ha Hst. destruct (i + 5 <=? length s) eqn:Hle; [| done].
  apply Nat.leb_le in Hle. assert (i + 5 - i = 5) as H5 by lia.
  assert (sub i (i + 5) = lit "inf.0" ∨ sub i (i + 5) = lit "nan.0") as Htk.
  { rewrite H5. apply orb_true_iff in Hsp as [Hx%bool_decide_eq_true|Hx%bool_decide_eq_true]; injection Hx; auto. }
  split_and!; [| | | done].
  - assert (∀ k, k < 5 → bump (at_ (k + i)) = at_ (S k + i)) as Hb.
    { intros k Hk. destruct (lookup_lt_is_Some_2 s (k + i)) as [b Hb]; [lia |]. by rewrite (bump_at _ _ _ b Hb). }
    change (at_ i) with (at_ (0 + i)). rewrite !Hb by lia. f_equal. lia.
  - apply (ascii_run s i); [done | lia |]. destruct Htk as [-> | ->]; by repeat constructor.
  - intros b _ _. exists (sub start i). rewrite (sub_app start i (i + 5)) by lia.
    destruct Htk as [-> | ->]; auto.
Qed.

(** After an optional sign: a special literal, or what the loop consumes,
    which is at least a first digit or dot. *)
Lemma number_from_at start i k : at_char s start → at_char s k → start ≤ k →
  i ≤ k ∨ i = S k ∧ (∃ b, s !! k = Some b ∧ (is_digit b = true ∨ b = "."%byte)) →
  reads start i (token_end start)
    (if is_special (get_range s k 5) then number_token (bump (bump (bump (bump (bump (at_ k)))))) start
     else number_token (number_loop (rest (at_ k)) false false false (at_ k)) start).
Proof.
  intros Hst Hak Hle Hik. destruct (is_special (get_range s k 5)) eqn:Hsp.
  - destruct (special_at start k Hsp Hak Hle) as (-> & Ha5 & Hend & _).
    eapply reads_weaken; [| | | apply (number_token_at start (k + 5))]; (done || lia).
  - rewrite rest_at. destruct (number_loop_at (length s) false false false k)
      as (j & -> & Hj & Haj & Hgo & Hend); [rewrite length_drop; lia | done |].
    assert (i ≤ j) as Hij.
    { destruct Hik as [?|(-> & b & Hb & Hd)]; [lia |]. assert (k < j); [| lia].
      apply (Hgo b Hb). destruct Hd; auto. }
    eapply reads_weaken; [| | | apply (number_token_at start j)]; try (done || lia).
    intros b Hb Hd. apply Hend in Hb. congruence.
Qed.

Lemma read_number_at start i : at_char s start → at_char s i → start ≤ i →
  reads start i (token_end start) (read_number (at_ i) start).
Proof.
  intros Hst Ha Hle. unfold read_number.
  destruct (sign_opt_at i Ha) as (k & -> & Hk & Hak & _). cbn [lx_src lx_pos].
  apply number_from_at; (done || lia).
Qed.

(** A number that begins with a sign, a digit or a dot. *)
Lemma number_at i b : at_char s i → s !! i = Some b →
  is_sign b = true ∨ is_digit b = true ∨ b = "."%byte →
  reads i (S i) (token_end i) (read_number (at_ i) i).
Proof.
  intros Ha Hb Hd. unfold read_number.
  destruct (sign_opt_at i Ha) as (k & -> & Hk & Hak & Hki). specialize (Hki b Hb). cbn [lx_src lx_pos].
  destruct (is_sign b) eqn:Hsign; subst k; (apply number_from_at; [done | done | lia |]); [lia |].
  right. split; [done |]. exists b. destruct Hd as [?|?]; [done | by split].
Qed.

Lemma read_radix_number_at i b radix :
  at_char s i → s !! i = Some "#"%byte → s !! S i = Some b → radix_of b radix →
  reads i (S (S i)) (token_end i) (read_radix_number (at_ (S i)) i radix).
Proof.
  intros Ha Hh Hb Hr. unfold read_radix_number. rewrite (bump_at _ _ _ b Hb).
  pose proof (lt_of_lookup _ _ Hb).
  assert ((Byte.to_N b < 128)%N ∧ radix ∈ [2; 8; 16]%N) as [Hl Hr8].
  { destruct Hr as [[[-> | ->] ->]|[[[-> | ->] ->]|[[-> | ->] ->]]]; (split; [done | set_solver]). }
  assert (at_char s (S (S i))) as Ha2 by (eapply at_char_ascii; [by eapply at_char_ascii | done | done]).
  cbn [lx_pos].
  destruct (sign_opt_at (S (S i)) Ha2) as (k & -> & Hk & Hak & _). rewrite rest_at.
  destruct (ascii_while (radix_digit radix) k Hak) as (j & -> & Hj & Haj & _ & Hend);
    [intros; by eapply radix_digit_ascii |].
  cbn [lx_pos lx_src]. rewrite slice_at_char by (done || lia).
  destruct (_ || _ || _) eqn:Hbad; [eapply reads_error; (done || cbn; lia) |].
  apply orb_false_iff in Hbad as [[?%bool_decide_eq_false ?%bool_decide_eq_false]%orb_false_iff
    ?%bool_decide_eq_false].
  destruct (parse_radix_integer _ _) as [n|] eqn:Hn; [| eapply reads_error; (done || cbn; lia)].
  apply ok_at; [lia |]. rewrite (sub_cons i j _ Hh), (sub_cons (S i) j _ Hb) by lia.
  by apply sp_number, (number_radix b radix).
Qed.

(** ** The dispatcher *)

Lemma unexpected_at start i j c syms : start ≤ i → i ≤ j ≤ length s →
  lexes syms start i (Some (at_ j, syms, inl (UnexpectedChar c (span (at_ j) start j)))).
Proof.
  intros Hst Hj. exists j, syms. eexists. split_and!; [done | lia | lia |].
  exists start, j. split_and!; (done || lia).
Qed.

Ltac ascii_choice Hx := destruct (or_byte _ _ _ Hx) as [-> | ->]; done.

(** Two bytes that are a token whatever comes next. *)
Lemma two_bytes_at i b c syms t : s !! i = Some b → s !! S i = Some c →
  (∀ next, token_text t [b; c] next) → lexes syms i (S i) (one_byte (at_ (S i)) syms i t).
Proof.
  intros Hb Hc Ht. eapply lexes_weaken; [| eapply one_byte_at; [done |]]; [lia |].
  by rewrite (sub_cons i _ b Hb), (sub_one _ _ Hc) by lia.
Qed.

Lemma read_hash_at i syms : at_char s i → s !! i = Some "#"%byte →
  lexes syms i (S i) (read_hash (at_ i) syms i).
Proof.
  intros Ha Hb. unfold read_hash. rewrite (bump_at _ _ _ _ Hb). pose proof (lt_of_lookup _ _ Hb).
  pose proof (at_char_ascii s i _ Ha Hb ltac:(done)) as Ha1. cbn [lx_pos lx_src]. rewrite peek_at.
  assert (∀ c, lexes syms i (S i) (Some (at_ (S i), syms, inl (UnexpectedChar c (span (at_ (S i)) i (S i)))))) as Hun.
  { intros c. apply unexpected_at; lia. }
  destruct (s !! S i) as [b|] eqn:Hb1; [| apply Hun]. pose proof (lt_of_lookup _ _ Hb1).
  repeat (case_bool_decide as Hx; [subst b; first [by eapply two_bytes_at; [done | done |]; intros; constructor |
    eapply lexes_weaken; [| apply keep_at, read_character_at; (done || lia)]; lia] | clear Hx]).
  assert (∀ radix, radix_of b radix →
            lexes syms i (S i) (keep syms (read_radix_number (at_ (S i)) i radix))) as Hrad.
  { intros radix Hr. eapply lexes_weaken; [| by eapply keep_at, read_radix_number_at]. lia. }
  destruct ((b ≟ "x"%byte) || (b ≟ "X"%byte)) eqn:Hx;
    [apply Hrad; left; by split; [apply or_byte |] | clear Hx].
  destruct ((b ≟ "b"%byte) || (b ≟ "B"%byte)) eqn:Hx;
    [apply Hrad; right; left; by split; [apply or_byte |] | clear Hx].
  destruct ((b ≟ "o"%byte) || (b ≟ "O"%byte)) eqn:Hx;
    [apply Hrad; right; right; by split; [apply or_byte |] | clear Hx].
  destruct ((b ≟ "d"%byte) || (b ≟ "D"%byte)) eqn:Hx.
  { rewrite (bump_at _ _ _ b Hb1). eapply lexes_weaken; [| apply keep_at, read_number_at]; [lia | done | | lia].
    eapply at_char_ascii; [done | done | ascii_choice Hx]. }
  clear Hx. destruct ((b ≟ "u"%byte) && _ && _) eqn:Hu.
  { apply andb_true_iff in Hu as [[->%bool_decide_eq_true H8%bool_decide_eq_true]%andb_true_iff
      Hpar%bool_decide_eq_true]. rewrite (bump_at _ _ _ _ Hb1).
    replace (S i + 1) with (S (S i)) in H8 by lia. replace (S i + 2) with (S (S (S i))) in Hpar by lia.
    rewrite (bump_at _ _ _ _ H8). eapply lexes_weaken; [| eapply one_byte_at; [done |]]; [lia |].
    rewrite (sub_cons i _ _ Hb), (sub_cons _ _ _ Hb1), (sub_cons _ _ _ H8), (sub_one _ _ Hpar) by lia.
    constructor. }
  clear Hu. case_bool_decide as Hx; [subst b | apply Hun]. rewrite (bump_at _ _ _ _ Hb1).
  destruct (to_delimiter_at (S (S i))) as (j & -> & Hj & Haj & _ & Hno & Hdel); [lia |]. cbn [lx_pos lx_src].
  rewrite slice_at_char by (done || lia).
  apply (intern_at _ _ _ _ (sub i j)); [lia | lia | done |].
  rewrite (sub_cons i j _ Hb), (sub_cons (S i) j _ Hb1) by lia. by apply names_keyword.
Qed.

Lemma sign_not_delimiter b : is_sign b = true → is_delimiter b = false.
Proof.
  intros Hd. pose proof (by_bytes (λ b, implb (is_sign b) (negb (is_delimiter b))) ltac:(by vm_compute) b) as Hc.
  cbn in Hc. rewrite Hd in Hc. by apply negb_true_iff in Hc.
Qed.

Lemma initial_not_delimiter b : is_initial_ident b = true → is_delimiter b = false.
Proof.
  intros Hd. pose proof (by_bytes (λ b, implb (is_initial_ident b) (negb (is_delimiter b)))
    ltac:(by vm_compute) b) as Hc.
  cbn in Hc. rewrite Hd in Hc. by apply negb_true_iff in Hc.
Qed.

(** A text of five bytes up to a delimiter is what the look-ahead sees. *)
Lemma lookahead i j text : sub i j = text → length text = 5 → i ≤ j ≤ length s → delimited (s !! j) →
  get_range s i 5 = Some text ∧
  match s !! (i + 5) with Some b => is_delimiter b | None => true end = true.
Proof.
  intros Hsub Hlen Hj Hdel. assert (j = i + 5) as ->.
  { rewrite <-Hsub, length_take, length_drop in Hlen. lia. }
  unfold get_range. rewrite (proj2 (Nat.leb_le _ _)) by lia.
  replace (i + 5 - i) with 5 in Hsub by lia. rewrite Hsub. split; [done |].
  destruct (s !! (i + 5)) as [b|]; [by apply Hdel | done].
Qed.

Lemma sign_name i b j : s !! i = Some b → is_sign b = true → i < j ≤ length s →
  no_delimiter (sub i j) → delimited (s !! j) →
  (∀ c, s !! S i = Some c → is_digit c = false ∧ c ≠ "."%byte) →
  (is_special (get_range s (S i) 5) = false ∨
   match s !! (S i + 5) with Some b => is_delimiter b | None => true end = false) →
  bare_name (sub i j).
Proof.
  intros Hb Hsg Hj Hno Hdel Hnum Hsp. rewrite (sub_cons i j b Hb) by lia. right. left.
  split_and!; [done | | |].
  - intros Hr. destruct (lookahead (S i) j _ Hr eq_refl ltac:(lia) Hdel) as [Hg Hf].
    rewrite Hg, Hf in Hsp. by destruct Hsp.
  - intros Hr. destruct (lookahead (S i) j _ Hr eq_refl ltac:(lia) Hdel) as [Hg Hf].
    rewrite Hg, Hf in Hsp. by destruct Hsp.
  - intros c Hc. destruct (decide (j = S i)) as [->|]; [by rewrite sub_refl in Hc |].
    rewrite sub_head in Hc by lia. by apply Hnum.
Qed.

Lemma sign_token_at i b syms : at_char s i → s !! i = Some b → is_sign b = true →
  lexes syms i (S i) (sign_token (at_ i) syms i).
Proof.
  intros Ha Hb Hd. unfold sign_token.
  pose proof (keep_at i (S i) syms _ (number_at i b Ha Hb (or_introl Hd))) as Hnum.
  assert ((∀ c, s !! S i = Some c → is_digit c = false ∧ c ≠ "."%byte) →
    (is_special (get_range s (S i) 5) = false ∨
     match s !! (S i + 5) with Some b => is_delimiter b | None => true end = false) →
    lexes syms i (S i) (read_identifier (at_ i) syms i)) as Hid.
  { intros Hc Hsp. apply (read_identifier_at i b); [done | done | by apply sign_not_delimiter |].
    intros j Hj Hno Hdel. destruct (decide (j ≤ length s)) as [Hl|Hl]; [by apply (sign_name i b) |].
    rewrite (sub_app i (length s) j), (drop_ge s (length s)), take_nil, app_nil_r in * by
      (apply lookup_lt_Some in Hb; lia).
    apply (sign_name i b); [done | done | apply lookup_lt_Some in Hb; lia | done | | done | done].
    intros c Hcs. rewrite lookup_ge_None_2 in Hcs by lia. done. }
  unfold peek2. cbn [lx_src lx_pos].
  destruct (s !! S i) as [c|] eqn:Hc.
  - destruct (is_digit c || (c ≟ "."%byte)) eqn:Hdot; [done |].
    apply orb_false_iff in Hdot as [Hdig Hdot%bool_decide_eq_false].
    destruct (is_special _ && _) eqn:Hsp; [done |]. apply Hid; [by intros ? [= <-] |].
    by apply andb_false_iff in Hsp.
  - apply Hid; [done |]. left. apply lookup_ge_None in Hc. unfold get_range.
    by rewrite (proj2 (Nat.leb_gt _ _)) by lia.
Qed.

Lemma dot_token_at i syms : at_char s i → s !! i = Some "."%byte →
  lexes syms i (S i) (dot_token (at_ i) syms i).
Proof.
  intros Ha Hb. unfold dot_token, peek2. cbn [lx_src lx_pos].
  assert (delimited (s !! S i) → lexes syms i (S i) (one_byte (at_ i) syms i TDot)) as Hone.
  { intros Hd. eapply one_byte_at; [done |]. rewrite (sub_one _ _ Hb). by constructor. }
  destruct (s !! S i) as [c|] eqn:Hc; [| by apply Hone].
  destruct (is_digit c) eqn:Hdig; [apply keep_at, (number_at i "."%byte Ha Hb); auto |].
  destruct (is_delimiter c) eqn:Hdel; [apply Hone; by intros ? [= <-] |].
  apply (read_identifier_at i "."%byte); [done | done | done |]. intros j Hj Hno Hd.
  destruct (decide (j = S i)) as [->|].
  { rewrite Hc in Hd. specialize (Hd c eq_refl). congruence. }
  rewrite (sub_cons i j _ Hb) by lia. right. right. split; [done |]. exists c.
  by rewrite sub_head by lia.
Qed.

Lemma token_at_at i b syms : s !! i = Some b → lexes syms i (S i) (token_at (at_ i) syms b).
Proof.
  intros Hb. pose proof (lt_of_lookup _ _ Hb).
  assert ((Byte.to_N b < 128)%N → at_char s i) as Hasc by (intros; by eapply ascii_at_char).
  unfold token_at. cbn [lx_pos]. rewrite (bump_at _ _ _ b Hb).
  assert (∀ t, token_text t [b] (s !! S i) → lexes syms i (S i) (one_byte (at_ i) syms i t)) as Hone.
  { intros t Ht. eapply one_byte_at; [done |]. by rewrite (sub_one _ _ Hb). }
  repeat (case_bool_decide as Hx; [subst b; first [by apply Hone; constructor |
    by apply keep_at, read_string_at, Hb; apply Hasc | by apply read_hash_at, Hb; apply Hasc |
    rewrite peek_at; case_bool_decide as Hat; [| by apply Hone; constructor];
    by eapply two_bytes_at; [done | done |]; intros; constructor] | clear Hx]).
  destruct (is_digit b) eqn:Hd; [apply keep_at; apply (number_at i b); auto with ascii |].
  destruct (is_sign b) eqn:Hsg; [eapply sign_token_at; eauto with ascii |].
  case_bool_decide as Hx; [subst b; by apply dot_token_at, Hb; apply Hasc | clear Hx].
  case_bool_decide as Hx; [subst b; by apply read_pipe_identifier_at, Hb; apply Hasc | clear Hx].
  destruct (is_initial_ident b) eqn:Hin; [| apply unexpected_at; cbn; lia].
  eapply read_identifier_at; eauto using initial_not_delimiter with ascii.
  intros j Hj _ _. rewrite (sub_cons i j b Hb) by lia. by left.
Qed.

(** What a call of [next_token] does: it consumes at least a byte unless only
    white space and comments are left, and the token it returns is spelled by
    the bytes of its span. *)
Definition token_result (syms syms' : SymbolTable) (i j : nat) (x : LexError + Token * Span) : Prop :=
  match x with
  | inr (t, sp) => ∃ a, i ≤ a ≤ j ∧ sp = span (at_ j) a j ∧
      match t with
      | TEof => a = length s ∧ j = length s ∧ trailing (sub i a) ∧ syms' = syms
      | _ => a < j ∧ atmosphere (sub i a) ∧ spelled syms t (sub a j) (s !! j) syms'
      end
  | inl e => inside i j e ∧ i < j
  end.

Lemma spelled_not_eof syms t text next syms' : spelled (B := B) (R := R) syms t text next syms' → t ≠ TEof.
Proof. intros [[Ht _]|(sym & name & -> & _)]; [by destruct Ht | done]. Qed.

Lemma next_token_at i syms : i ≤ length s →
  ∃ j syms' x, next_token (at_ i) syms = Some (at_ j, syms', x) ∧ i ≤ j ≤ length s ∧
    token_result syms syms' i j x.
Proof.
  intros Hi. unfold next_token. destruct (skip_at i Hi) as (k & [e|u] & -> & Hk & He).
  { exists k, syms, (inl e). by split_and!; [| lia..|]. }
  destruct He as [Htr Hatm]. rewrite peek_at. destruct (s !! k) as [b|] eqn:Hb.
  - destruct (token_at_at k b syms Hb) as (j & syms' & x & -> & Hj & Hx).
    exists j, syms', x. split_and!; [done | lia | lia |]. destruct x as [e|[t sp]]; cbn.
    + split; [eapply inside_weaken; [| done] |]; lia.
    + destruct Hx as [Hsp Ht]. exists k. split_and!; [lia | lia | done |].
      apply lookup_lt_Some in Hb. pose proof (spelled_not_eof _ _ _ _ _ Ht).
      destruct t; try done; (split_and!; [lia | auto | done]).
  - apply lookup_ge_None in Hb. eexists k, syms, _. split_and!; [done | lia | lia |].
    exists k. split_and!; (done || lia).
Qed.

(** Tokens that follow one another from [i] to the end of the text: before
    each there are white space and comments only, and it is spelled by the
    bytes of its span, its name being interned if it is an identifier; the
    last is the end-of-file token, at the end of the text. *)
Fixpoint laid (i : nat) (syms : SymbolTable) (tokens : list (Token * Span)) (syms' : SymbolTable) : Prop :=
  match tokens with
  | [] => False
  | (t, sp) :: tokens =>
      ∃ a j, i ≤ a ≤ j ∧ j ≤ length s ∧ sp = span (at_ j) a j ∧
        match t with
        | TEof => a = length s ∧ j = length s ∧ tokens = [] ∧ trailing (sub i a) ∧ syms' = syms
        | _ => a < j ∧ atmosphere (sub i a) ∧
            ∃ syms1, spelled syms t (sub a j) (s !! j) syms1 ∧ laid j syms1 tokens syms'
        end
  end.

Definition lexed_text (errors : list LexError) (i : nat) (syms syms' : SymbolTable)
    (r : list LexError + list (Token * Span)) (tokens : list (Token * Span)) : Prop :=
  match r with
  | inr all => errors = [] ∧ ∃ more, all = tokens ++ more ∧ laid i syms more syms'
  | inl all => all ≠ [] ∧ ∃ more, all = errors ++ more ∧ Forall (inside i (length s)) more
  end.

Lemma lex_loop_laid fuel i syms tokens errors : length s < fuel + i → i ≤ length s →
  ∃ syms' r, lex_loop fuel (at_ i) syms tokens errors = Some (syms', r) ∧
    lexed_text errors i syms syms' r tokens.
Proof.
  revert i syms tokens errors. induction fuel as [|fuel IH]; intros i syms tokens errors Hf Hi; [lia |].
  cbn [lex_loop]. destruct (next_token_at i syms Hi) as (j & syms' & [e|[t sp]] & -> & Hj & Hx).
  - destruct Hx as [(a & b & He & Hab & Hbj) Hij].
    destruct (IH j syms' tokens (errors ++ [e])) as (syms2 & r & -> & Hr); [lia | lia |].
    exists syms2, r. split; [done |]. destruct r as [all|all]; destruct Hr as [H1 (more & -> & Hm)];
      [| by destruct errors].
    split; [done |]. exists (e :: more). rewrite <-app_assoc. split; [done |]. constructor.
    + exists a, b. split_and!; (done || lia).
    + eapply Forall_impl; [done |]. intros. by apply (inside_weaken j); [lia |].
  - destruct Hx as (a & Ha & -> & Ht). destruct (decide (a < j)) as [Haj|Haj].
    + assert (t ≠ TEof ∧ atmosphere (sub i a) ∧ spelled syms t (sub a j) (s !! j) syms')
        as (Hne & Hatm & Hsp) by (destruct t; try (by destruct Ht as (? & ? & ?)); lia).
      destruct (IH j syms' (tokens ++ [(t, span (at_ j) a j)]) errors) as (syms2 & r & Heq & Hr); [lia | lia |].
      exists syms2, r. split; [by destruct t |]. destruct r as [all|all]; destruct Hr as [H1 (more & -> & Hm)].
      * split; [done |]. exists more. split; [done |]. eapply Forall_impl; [done |].
        intros. by apply (inside_weaken j); [lia |].
      * split; [done |]. eexists. rewrite <-app_assoc. split; [done |]. exists a, j.
        split_and!; [lia | lia | lia | done |]. destruct t; try done; by eauto.
    + assert (t = TEof) as -> by (destruct t; try done; lia). destruct Ht as (Hae & Hje & Htr & ->).
      eexists syms, _. split; [done |]. destruct errors as [|e errors].
      * split; [done |]. eexists. split; [done |]. exists a, j. split_and!; (done || lia).
      * split; [done |]. exists []. by rewrite app_nil_r.
Qed.

(** C26: lexing a string returns. Either every token was read: the text is
    cut up into the tokens' spans, in order and none of them empty, with
    nothing but white space and comments before each token and after the last;
    each token is the one that the bytes of its span spell, given the byte
    that follows (parentheses and quotes, numbers with the value of their
    text, strings and characters with their escapes decoded, identifiers by
    interning their names in order); and the end-of-file token is at the end
    of the text. Or there are errors, all of them within the text. *)
Theorem lex_all_covers_text syms :
  ∃ syms' r, lex_all f s syms = Some (syms', r) ∧
    match r with
    | inr tokens => laid 0 syms tokens syms'
    | inl errors => errors ≠ [] ∧ Forall (inside 0 (length s)) errors
    end.
Proof.
  destruct (lex_loop_laid (S (length s)) 0 syms [] []) as (syms' & r & Hl & Hr); [lia | lia |].
  exists syms', r. split; [done |]. destruct r; destruct Hr as [H1 (more & -> & Hm)]; by try split.
Qed.

End facts.
