(* ===== verification/Reader.v ===== *)
(** * The reader

    [crates/cs-parse/src/lib.rs]: from tokens to datums, with one token of
    lookahead.  As in [Lexer], [None] stands for a panic or for running out of
    fuel, and the reader after an error is part of the result.  [read_fuel] is
    what a text needs; [ReaderFacts] shows that it is enough. *)

From stdpp Require Import base numbers gmap list.
From Stdlib Require Import ZArith Strings.Byte.
From S2P Require Import Prelude RaftTypes Float64 BigNum Number Text Symbols Diag Lexer.

Local Open Scope crab_scope.
Local Open Scope N_scope.

(** [enum Datum]. *)
#[warnings="-register-all"]
Inductive Datum (B R : Type) :=
  | DBoolean (b : bool) (s : Span)
  | DNumber (n : Number B R) (s : Span)
  | DCharacter (c : N) (s : Span)
  | DString (t : bytes) (s : Span)
  | DSymbol (sym : N) (s : Span)
  | DNull (s : Span)
  | DPair (a d : Datum B R) (s : Span)
  | DVector (items : list (Datum B R)) (s : Span)
  | DByteVector (t : bytes) (s : Span).

Arguments DBoolean {B R} b s.
Arguments DNumber {B R} n s.
Arguments DCharacter {B R} c s.
Arguments DString {B R} t s.
Arguments DSymbol {B R} sym s.
Arguments DNull {B R} s.
Arguments DPair {B R} a d s.
Arguments DVector {B R} items s.
Arguments DByteVector {B R} t s.

(** [enum ReaderError]. *)
Inductive ReaderError :=
  | LexFailure (e : LexError)
  | UnexpectedToken (span : Span) (what : bytes)
  | UnclosedList (span : Span)
  | Incomplete.

Definition reader_error_span (e : ReaderError) : Span :=
  match e with
  | LexFailure e => lex_error_span e
  | UnexpectedToken s _ | UnclosedList s => s
  | Incomplete => dummy_span
  end.

Definition reader_error_message (e : ReaderError) : bytes :=
  match e with
  | LexFailure e => lex_error_message e
  | UnexpectedToken _ what => lit "unexpected " ++ what
  | UnclosedList _ => lit "unclosed list"
  | Incomplete => lit "incomplete input"
  end.

Section reader.
Context {B R : Type} `{BigInt B} `{BigRational R B}.

Notation Token := (Token B R).
Notation Datum := (Datum B R).

Definition datum_span (d : Datum) : Span :=
  match d with
  | DBoolean _ s | DNumber _ s | DCharacter _ s | DString _ s | DSymbol _ s | DNull s
  | DPair _ _ s | DVector _ s | DByteVector _ s => s
  end.

(** ** Printing a datum *)

(** A loop that writes a space before every item but the first. *)
Fixpoint spaced (l : list bytes) : bytes :=
  match l with
  | [] => []
  | [t] => t
  | t :: l => t ++ lit " " ++ spaced l
  end.

(** The loop of [format_datum] over a list continues with the rest of the list:
    [in_list] is whether [d] is such a rest.  The name of a symbol that the
    table does not have is a panic of the code. *)
Section format.
Context (shortest : f64 → bytes) (syms : SymbolTable).

Fixpoint format (in_list : bool) (d : Datum) : option bytes :=
  let dotted (t : bytes) := if in_list then lit " . " ++ t else t in
  match d with
  | DBoolean b _ => Some (dotted (if b then lit "#t" else lit "#f"))
  | DNumber n _ => Some (dotted (display shortest n))
  | DCharacter c _ => Some (dotted (lit "#\" ++ encode_char c))
  | DString t _ => Some (dotted ([dquote] ++ t ++ [dquote]))
  | DSymbol s _ => dotted <$> SymbolTable.name syms s
  | DNull _ => Some (if in_list then [] else lit "()")
  | DPair a d _ =>
      car ← format false a;
      cdr ← format true d;
      mret (if in_list then lit " " ++ car ++ cdr else lit "(" ++ car ++ cdr ++ lit ")")
  | DVector items _ =>
      ts ← mapM (format false) items;
      mret (dotted (lit "#(" ++ spaced ts ++ lit ")"))
  | DByteVector t _ =>
      Some (dotted (lit "#u8(" ++ spaced ((λ b, decimal (Byte.to_N b)) <$> t) ++ lit ")"))
  end.

(** [Datum::format_with]. *)
Definition format_datum : Datum → option bytes := format false.

End format.

(** ** The reader *)

(** [struct Reader]. *)
Record Reader := MkReader {
  rd_lexer : Lexer;
  rd_peeked : option (Token * Span);
}.

Definition reader_new (file : FileId) (src : bytes) : Reader := MkReader (lexer_new file src) None.

(** What a method of the reader returns, and the operator [?]. *)
Definition Read (A : Type) : Type := option (Reader * SymbolTable * (ReaderError + A)).

Definition returns {A} (r : Reader) (syms : SymbolTable) (x : A) : Read A := Some (r, syms, inr x).

Definition throws {A} (r : Reader) (syms : SymbolTable) (e : ReaderError) : Read A := Some (r, syms, inl e).

Definition and_then {A C} (m : Read A) (k : Reader → SymbolTable → A → Read C) : Read C :=
  match m with
  | Some (r, syms, inr x) => k r syms x
  | Some (r, syms, inl e) => throws r syms e
  | None => None
  end.

Definition lexed (m : option (Lexer * SymbolTable * (LexError + Token * Span))) : Read (Token * Span) :=
  match m with
  | Some (l, syms, inr t) => returns (MkReader l None) syms t
  | Some (l, syms, inl e) => throws (MkReader l None) syms (LexFailure e)
  | None => None
  end.

Definition next_tok (r : Reader) (syms : SymbolTable) : Read (Token * Span) :=
  match rd_peeked r with
  | Some t => returns (MkReader (rd_lexer r) None) syms t
  | None => lexed (next_token (rd_lexer r) syms)
  end.

Definition peek_tok (r : Reader) (syms : SymbolTable) : Read (Token * Span) :=
  match rd_peeked r with
  | Some t => returns r syms t
  | None =>
      and_then (lexed (next_token (rd_lexer r) syms)) (λ r syms t,
        returns (MkReader (rd_lexer r) (Some t)) syms t)
  end.

(** [read_required], on what [read] returned. *)
Definition required (prev : Span) (m : Read (option Datum)) : Read Datum :=
  and_then m (λ r syms d,
    match d with
    | Some d => returns r syms d
    | None => throws r syms (UnexpectedToken prev (lit "EOF"))
    end).

(** The list of the items and a tail, each pair with the span of its parts. *)
Definition build_list (items : list Datum) (tail : Datum) : Datum :=
  foldr (λ item acc, DPair item acc (merge (datum_span item) (datum_span acc))) tail items.

Definition closed_list (items : list Datum) (close full : Span) : Datum :=
  match build_list items (DNull close) with
  | DNull _ => DNull full
  | DPair a b _ => DPair a b full
  | other => other
  end.

Definition dotted_list (items : list Datum) (tail : Datum) (full : Span) : Datum :=
  match build_list items tail with
  | DPair a b _ => DPair a b full
  | other => other
  end.

(** [read_quote_form], after its datum. *)
Definition quote_form (name : bytes) (sp : Span) (r : Reader) (syms : SymbolTable) (inner : Datum) : Read Datum :=
  let inner_span := datum_span inner in
  let '(syms, sym) := SymbolTable.intern syms name in
  returns r syms (DPair (DSymbol sym sp) (DPair inner (DNull inner_span) inner_span) (merge sp inner_span)).

Fixpoint bytevector_loop (fuel : nat) (r : Reader) (syms : SymbolTable) (open : Span) (acc : bytes) : Read Datum :=
  match fuel with
  | O => None
  | S fuel =>
      and_then (peek_tok r syms) (λ r syms t,
        let '(tok, sp) := t in
        match tok with
        | RParen | RBracket =>
            and_then (next_tok r syms) (λ r syms _, returns r syms (DByteVector acc (merge open sp)))
        | TEof => throws r syms (UnclosedList open)
        | TNumber n =>
            and_then (next_tok r syms) (λ r syms _,
              match n with
              | Fixnum v =>
                  if bool_decide (0 ≤ v ≤ 255)%Z
                  then bytevector_loop fuel r syms open (acc ++ [byte_of (Z.to_N v)])
                  else throws r syms (UnexpectedToken sp
                         (lit "byte literal " ++ decimal_Z v ++ lit " out of 0..=255"))
              | _ => throws r syms (UnexpectedToken sp
                       (lit "bytevector element must be an exact byte (0..=255)"))
              end)
        | _ => throws r syms (UnexpectedToken sp (lit "bytevector element must be a byte literal"))
        end)
  end.

(** [read], [read_token] and the loops of [read_list] and [read_vector]. *)
Fixpoint read (fuel : nat) (r : Reader) (syms : SymbolTable) : Read (option Datum) :=
  match fuel with
  | O => None
  | S fuel =>
      and_then (next_tok r syms) (λ r syms t,
        let '(tok, sp) := t in
        match tok with
        | TEof => returns r syms None
        | HashSemi =>
            and_then (required sp (read fuel r syms)) (λ r syms _, read fuel r syms)
        | _ => and_then (read_token fuel r syms tok sp) (λ r syms d, returns r syms (Some d))
        end)
  end
with read_token (fuel : nat) (r : Reader) (syms : SymbolTable) (tok : Token) (sp : Span) : Read Datum :=
  match fuel with
  | O => None
  | S fuel =>
      let quote name := and_then (required sp (read fuel r syms)) (quote_form name sp) in
      match tok with
      | TBoolean b => returns r syms (DBoolean b sp)
      | TNumber n => returns r syms (DNumber n sp)
      | TCharacter c => returns r syms (DCharacter c sp)
      | TString s => returns r syms (DString s sp)
      | TIdentifier s => returns r syms (DSymbol s sp)
      | LParen | LBracket => list_loop fuel r syms sp []
      | HashLParen => vector_loop fuel r syms sp []
      | HashU8LParen => bytevector_loop fuel r syms sp []
      | TQuote => quote (lit "quote")
      | TQuasiQuote => quote (lit "quasiquote")
      | TUnquote => quote (lit "unquote")
      | TUnquoteSplicing => quote (lit "unquote-splicing")
      | RParen | RBracket => throws r syms (UnexpectedToken sp (lit "closing paren without opener"))
      | TDot => throws r syms (UnexpectedToken sp (lit "'.' outside of list"))
      | HashSemi | TEof => None
      end
  end
with list_loop (fuel : nat) (r : Reader) (syms : SymbolTable) (open : Span) (items : list Datum) : Read Datum :=
  match fuel with
  | O => None
  | S fuel =>
      and_then (peek_tok r syms) (λ r syms t,
        let '(tok, sp) := t in
        match tok with
        | RParen | RBracket =>
            and_then (next_tok r syms) (λ r syms _,
              returns r syms (closed_list items sp (merge open sp)))
        | TDot =>
            and_then (next_tok r syms) (λ r syms _,
              and_then (required sp (read fuel r syms)) (λ r syms cdr,
                and_then (next_tok r syms) (λ r syms t,
                  let '(close_tok, close) := t in
                  match close_tok with
                  | RParen | RBracket => returns r syms (dotted_list items cdr (merge open close))
                  | _ => throws r syms (UnexpectedToken close (lit "expected ')' after dotted tail"))
                  end)))
        | TEof => throws r syms (UnclosedList open)
        | _ =>
            and_then (read fuel r syms) (λ r syms d,
              match d with
              | Some d => list_loop fuel r syms open (items ++ [d])
              | None => throws r syms (UnclosedList open)
              end)
        end)
  end
with vector_loop (fuel : nat) (r : Reader) (syms : SymbolTable) (open : Span) (items : list Datum) : Read Datum :=
  match fuel with
  | O => None
  | S fuel =>
      and_then (peek_tok r syms) (λ r syms t,
        let '(tok, sp) := t in
        match tok with
        | RParen | RBracket =>
            and_then (next_tok r syms) (λ r syms _, returns r syms (DVector items (merge open sp)))
        | TEof => throws r syms (UnclosedList open)
        | _ =>
            and_then (required open (read fuel r syms)) (λ r syms d,
              vector_loop fuel r syms open (items ++ [d]))
        end)
  end.

(** Fuel for a text: every token costs at most three calls. *)
Definition read_fuel (src : bytes) : nat := 3 * length src + 3.

Fixpoint read_all_loop (fuel : nat) (depth : nat) (r : Reader) (syms : SymbolTable) (data : list Datum) :
    option (SymbolTable * (list ReaderError + list Datum)) :=
  match fuel with
  | O => None
  | S fuel =>
      match read depth r syms with
      | None => None
      | Some (r, syms, inr (Some d)) => read_all_loop fuel depth r syms (data ++ [d])
      | Some (r, syms, inr None) => Some (syms, inr data)
      | Some (r, syms, inl e) => Some (syms, inl [e])
      end
  end.

Definition read_all (file : FileId) (src : bytes) (syms : SymbolTable) :
    option (SymbolTable * (list ReaderError + list Datum)) :=
  read_all_loop (S (length src)) (read_fuel src) (reader_new file src) syms [].

End reader.
