(* ===== verification/ReaderFacts.v ===== *)
(** * The reader returns

    On a valid text [read_all] neither panics nor runs out of fuel: a token is
    consumed at least every third call, and every token consumes a byte. *)

From stdpp Require Import base numbers gmap list.
From Stdlib Require Import ZArith Strings.Byte.
From S2P Require Import Prelude RaftTypes Float64 BigNum Number Text Symbols Diag Lexer LexerFacts Reader.

Local Open Scope crab_scope.
Local Open Scope nat_scope.

(** ** The equations of the mutual recursion *)

Section equations.
Context {B R : Type} `{BigInt B} `{BigRational R B}.

Lemma read_S fuel (r : Reader (B := B) (R := R)) syms :
  read (S fuel) r syms =
  and_then (next_tok r syms) (λ r syms t,
    let '(tok, sp) := t in
    match tok with
    | TEof => returns r syms None
    | HashSemi => and_then (required sp (read fuel r syms)) (λ r syms _, read fuel r syms)
    | _ => and_then (read_token fuel r syms tok sp) (λ r syms d, returns r syms (Some d))
    end).
Proof. done. Qed.

Lemma list_loop_S fuel (r : Reader (B := B) (R := R)) syms open items :
  list_loop (S fuel) r syms open items =
  and_then (peek_tok r syms) (λ r syms t,
    let '(tok, sp) := t in
    match tok with
    | RParen | RBracket =>
        and_then (next_tok r syms) (λ r syms _, returns r syms (closed_list items sp (merge open sp)))
    | TDot =>
        and_then (next_tok r syms) (λ r syms _,
          and_then (required sp (read fuel r syms)) (λ r syms cdr,
            and_then (next_tok r syms) (λ r syms t,
              let '(close_tok, close) := t in
              match close_tok with
              | RParen | RBracket => returns r syms (dotted_list items cdr (merge open close))
              | _ => throws r syms (UnexpectedToken close (lit "expected ')' after dotted tail"))
              end)))
    | TEof => throws r syms (UnclosedList open)
    | _ =>
        and_then (read fuel r syms) (λ r syms d,
          match d with
          | Some d => list_loop fuel r syms open (items ++ [d])
          | None => throws r syms (UnclosedList open)
          end)
    end).
Proof. done. Qed.

Lemma vector_loop_S fuel (r : Reader (B := B) (R := R)) syms open items :
  vector_loop (S fuel) r syms open items =
  and_then (peek_tok r syms) (λ r syms t,
    let '(tok, sp) := t in
    match tok with
    | RParen | RBracket =>
        and_then (next_tok r syms) (λ r syms _, returns r syms (DVector items (merge open sp)))
    | TEof => throws r syms (UnclosedList open)
    | _ =>
        and_then (required open (read fuel r syms)) (λ r syms d,
          vector_loop fuel r syms open (items ++ [d]))
    end).
Proof. done. Qed.

End equations.

Section facts.
Context {B R : Type} `{BigInt B} `{BigRational R B}.
Context (f : FileId) (s : bytes) (Hs : str_ok s).

Notation Token := (Token B R).
Notation Datum := (Datum B R).
Notation Reader := (Reader (B := B) (R := R)).
Notation Read := (Read (B := B) (R := R)).
Notation at_ i := (MkLexer f s i).

(** The bytes left, and one for a token that was looked at. *)
Definition weight (t : option (Token * Span)) : nat :=
  match t with Some (TEof, _) | None => 0 | Some _ => 1 end.

Definition left (r : Reader) : nat := length s - lx_pos (rd_lexer r) + weight (rd_peeked r).

Definition reading (r : Reader) : Prop := ∃ i, rd_lexer r = at_ i ∧ i ≤ length s.

(** A call that returns; [post] holds of the reader after it and its result. *)
Definition done_with {A} (post : Reader → A → Prop) (m : Read A) : Prop :=
  ∃ r syms x, m = Some (r, syms, x) ∧ reading r ∧
              match x with inr a => post r a | inl _ => True end.

Lemma done_returns {A} (post : Reader → A → Prop) r syms a :
  reading r → post r a → done_with post (returns r syms a).
Proof. intros. by exists r, syms, (inr a). Qed.

Lemma done_throws {A} (post : Reader → A → Prop) r syms e :
  reading r → done_with post (throws r syms e).
Proof. intros. by exists r, syms, (inl e). Qed.

Lemma done_then {A C} (post : Reader → A → Prop) (post' : Reader → C → Prop) m k :
  done_with post m →
  (∀ r syms a, reading r → post r a → done_with post' (k r syms a)) →
  done_with post' (and_then m k).
Proof.
  intros (r & syms & [e|a] & -> & Hr & Ha) Hk; cbn; [by apply done_throws | by apply Hk].
Qed.

Lemma done_weaken {A} (post post' : Reader → A → Prop) m :
  (∀ r a, post r a → post' r a) → done_with post m → done_with post' m.
Proof. intros Hp (r & syms & [e|a] & -> & Hr & Ha); eexists _, _, _; eauto. Qed.

(** A token read, with what it takes off the text. *)
Definition took (n : nat) (r : Reader) (t : Token * Span) : Prop :=
  match t.1 with TEof => left r ≤ n | _ => S (left r) ≤ n end.

Lemma next_tok_done r syms : reading r →
  done_with (λ r' t, rd_peeked r' = None ∧ took (left r) r' t) (next_tok r syms).
Proof.
  intros (i & Hl & Hi). destruct r as [l p]. cbn in Hl. subst l. unfold next_tok, left. cbn.
  destruct p as [[t sp]|].
  - apply done_returns; [by exists i |]. split; [done |]. unfold took, left. cbn. destruct t; lia.
  - destruct (next_token_at f s Hs i syms Hi) as (j & syms' & [e|[t sp]] & -> & Hj & Hx); cbn.
    + apply done_throws. exists j. split; [done | lia].
    + destruct Hx as (a & Ha & _ & Ht). apply done_returns; [exists j; split; [done | lia] |].
      split; [done |]. unfold took, left. cbn. destruct t; lia.
Qed.

(** A token looked at: the next call of [next_tok] gives it. *)
Lemma peek_tok_done r syms : reading r →
  done_with (λ r' t, rd_peeked r' = Some t ∧ left r' ≤ left r) (peek_tok r syms).
Proof.
  intros (i & Hl & Hi). destruct r as [l p]. cbn in Hl. subst l. unfold peek_tok, left. cbn.
  destruct p as [[t sp]|].
  - apply done_returns; [by exists i |]. by split.
  - destruct (next_token_at f s Hs i syms Hi) as (j & syms' & [e|[t sp]] & -> & Hj & Hx); cbn.
    + apply done_throws. exists j. split; [done | lia].
    + destruct Hx as (a & Ha & _ & Ht). apply done_returns; [exists j; split; [done | lia] |].
      split; [done |]. unfold left. cbn. destruct t; cbn in *; lia.
Qed.

Lemma next_peeked r t : rd_peeked r = Some t → ∀ syms,
  next_tok r syms = returns (MkReader (rd_lexer r) None) syms t.
Proof. intros Ht syms. unfold next_tok. by rewrite Ht. Qed.

Lemma left_peeked r t : rd_peeked r = Some t →
  left r = left (MkReader (rd_lexer r) None) + weight (Some t).
Proof. intros Ht. unfold left. rewrite Ht. cbn. lia. Qed.

(** What [read] takes off the text: a datum takes something. *)
Definition read_post (n : nat) (r : Reader) (d : option Datum) : Prop :=
  match d with Some _ => S (left r) ≤ n | None => left r ≤ n end.

Definition at_most {A} (n : nat) (r : Reader) (_ : A) : Prop := left r ≤ n.

Lemma required_done n prev m :
  done_with (read_post n) m → done_with (λ r _, S (left r) ≤ n) (required prev m).
Proof.
  intros Hm. eapply done_then; [done |]. intros r syms [d|] Hr Hd; [by apply done_returns | by apply done_throws].
Qed.

Lemma quote_form_done name sp n r syms d :
  reading r → left r ≤ n → done_with (at_most n) (quote_form name sp r syms d).
Proof.
  intros Hr Hn. unfold quote_form. destruct (SymbolTable.intern syms name). by apply done_returns.
Qed.

Lemma bytevector_loop_done fuel r syms open acc :
  reading r → left r < fuel → done_with (at_most (left r)) (bytevector_loop fuel r syms open acc).
Proof.
  revert r syms acc. induction fuel as [|fuel IH]; intros r syms acc Hr Hf; [lia |]. cbn [bytevector_loop].
  eapply done_then; [by apply peek_tok_done |]. intros r' syms' [tok sp] Hr' [Hp Hle].
  pose proof (left_peeked _ _ Hp) as Hw. assert (reading (MkReader (rd_lexer r') None)) as Hr2 by done.
  destruct tok; try (by apply done_throws); rewrite (next_peeked _ _ Hp); cbn [and_then returns].
  - apply done_returns; [done |]. unfold at_most. cbn in Hw. lia.
  - apply done_returns; [done |]. unfold at_most. cbn in Hw. lia.
  - destruct n; try (by apply done_throws). case_bool_decide; [| by apply done_throws]. cbn in Hw.
    eapply done_weaken; [| apply IH; [done | lia]]. unfold at_most. intros. lia.
Qed.

(** The mutual recursion: what each function needs of its fuel. *)
Definition reads_within (fuel : nat) : Prop :=
  (∀ r syms, reading r → 3 * left r < fuel → done_with (read_post (left r)) (read fuel r syms)) ∧
  (∀ r syms tok sp, reading r → 3 * left r + 2 < fuel → tok ≠ HashSemi → tok ≠ TEof →
     done_with (at_most (left r)) (read_token fuel r syms tok sp)) ∧
  (∀ r syms open items, reading r → 3 * left r + 1 < fuel →
     done_with (at_most (left r)) (list_loop fuel r syms open items)) ∧
  (∀ r syms open items, reading r → 3 * left r + 1 < fuel →
     done_with (at_most (left r)) (vector_loop fuel r syms open items)).

Lemma read_step fuel : reads_within fuel → ∀ r syms, reading r → 3 * left r < S fuel →
  done_with (read_post (left r)) (read (S fuel) r syms).
Proof.
  intros (IHr & IHt & _) r syms Hr Hf. rewrite read_S.
  eapply done_then; [by apply next_tok_done |]. intros r' syms' [tok sp] Hr' [_ Ht].
  assert (tok ≠ TEof → S (left r') ≤ left r) as Hlt by (by destruct tok).
  assert (tok ≠ HashSemi → tok ≠ TEof →
    done_with (read_post (left r)) (and_then (read_token fuel r' syms' tok sp) (λ r syms d, returns r syms (Some d)))) as Htok.
  { intros H1 H2. specialize (Hlt H2). eapply done_then; [apply IHt; (done || lia) |].
    intros r2 syms2 d Hr2 Hd. apply done_returns; [done |]. unfold at_most in Hd. cbn. lia. }
  destruct tok; try (by apply Htok); [| by apply done_returns].
  specialize (Hlt ltac:(done)). eapply done_then; [apply required_done, IHr; (done || lia) |].
  intros r2 syms2 d Hr2 Hle. cbn in Hle. eapply done_weaken; [| apply IHr; [done | lia]].
  intros r3 [d3|]; cbn; lia.
Qed.

Lemma read_token_step fuel : reads_within fuel → ∀ r syms tok sp, reading r → 3 * left r + 2 < S fuel →
  tok ≠ HashSemi → tok ≠ TEof → done_with (at_most (left r)) (read_token (S fuel) r syms tok sp).
Proof.
  intros (IHr & _ & IHl & IHv) r syms tok sp Hr Hf H1 H2. cbn [read_token].
  assert (∀ name, done_with (at_most (left r)) (and_then (required sp (read fuel r syms)) (quote_form name sp))) as Hq.
  { intros name. eapply done_then; [apply required_done, IHr; (done || lia) |].
    intros r2 syms2 d Hr2 Hd. cbn in Hd. apply quote_form_done; [done | lia]. }
  destruct tok; try done; try (apply done_returns; [done | unfold at_most; lia]);
    try (by apply done_throws); try apply Hq;
    (apply IHl || apply IHv || apply bytevector_loop_done); (done || lia).
Qed.

Lemma list_loop_step fuel : reads_within fuel → ∀ r syms open items, reading r → 3 * left r + 1 < S fuel →
  done_with (at_most (left r)) (list_loop (S fuel) r syms open items).
Proof.
  intros (IHr & _ & IHl & _) r syms open items Hr Hf. rewrite list_loop_S.
  eapply done_then; [by apply peek_tok_done |]. intros r' syms' [tok sp] Hr' [Hp Hle].
  pose proof (left_peeked _ _ Hp) as Hw. assert (reading (MkReader (rd_lexer r') None)) as Hr2 by done.
  assert (done_with (at_most (left r)) (and_then (read fuel r' syms') (λ r syms d,
            match d with
            | Some d => list_loop fuel r syms open (items ++ [d])
            | None => throws r syms (UnclosedList open)
            end))) as Hitem.
  { eapply done_then; [apply IHr; (done || lia) |]. intros r3 syms3 [d|] Hr3 Hd; [| by apply done_throws].
    cbn in Hd. eapply done_weaken; [| apply IHl; [done | lia]]. unfold at_most. intros. lia. }
  destruct tok; try done; try (by apply done_throws); rewrite (next_peeked _ _ Hp); cbn [and_then returns];
    cbn in Hw.
  - apply done_returns; [done |]. unfold at_most. lia.
  - apply done_returns; [done |]. unfold at_most. lia.
  - eapply done_then; [apply required_done, IHr; (done || lia) |]. intros r3 syms3 cdr Hr3 Hd. cbn in Hd.
    eapply done_then; [by apply next_tok_done |]. intros r4 syms4 [ct cs] Hr4 [_ Ht].
    assert (left r4 ≤ left r3) by (unfold took in Ht; destruct ct; cbn in Ht; lia).
    destruct ct; try (by apply done_throws); apply done_returns; (done || unfold at_most; lia).
Qed.

Lemma vector_loop_step fuel : reads_within fuel → ∀ r syms open items, reading r → 3 * left r + 1 < S fuel →
  done_with (at_most (left r)) (vector_loop (S fuel) r syms open items).
Proof.
  intros (IHr & _ & _ & IHv) r syms open items Hr Hf. rewrite vector_loop_S.
  eapply done_then; [by apply peek_tok_done |]. intros r' syms' [tok sp] Hr' [Hp Hle].
  pose proof (left_peeked _ _ Hp) as Hw. assert (reading (MkReader (rd_lexer r') None)) as Hr2 by done.
  assert (done_with (at_most (left r)) (and_then (required open (read fuel r' syms')) (λ r syms d,
            vector_loop fuel r syms open (items ++ [d])))) as Hitem.
  { eapply done_then; [apply required_done, IHr; (done || lia) |]. intros r3 syms3 d Hr3 Hd. cbn in Hd.
    eapply done_weaken; [| apply IHv; [done | lia]]. unfold at_most. intros. lia. }
  destruct tok; try done; try (by apply done_throws); rewrite (next_peeked _ _ Hp); cbn [and_then returns];
    cbn in Hw; (apply done_returns; [done |]); unfold at_most; lia.
Qed.

Lemma reads_within_all fuel : reads_within fuel.
Proof.
  induction fuel as [|fuel IH]; [split_and!; intros; lia |].
  split_and!; [by apply read_step | by apply read_token_step | by apply list_loop_step | by apply vector_loop_step].
Qed.

Lemma read_done fuel r syms : reading r → 3 * left r < fuel → done_with (read_post (left r)) (read fuel r syms).
Proof. apply reads_within_all. Qed.

Lemma read_all_loop_counts fuel r syms data : reading r → left r < fuel → left r ≤ length s →
  ∃ syms' x, read_all_loop fuel (read_fuel s) r syms data = Some (syms', x) ∧
    match x with inl errors => length errors = 1 | inr all => length all ≤ length data + left r end.
Proof.
  revert r syms data. induction fuel as [|fuel IH]; intros r syms data Hr Hf Hl; [lia |]. cbn [read_all_loop].
  destruct (read_done (read_fuel s) r syms Hr) as (r' & syms' & [e|[d|]] & -> & Hr' & Hx);
    [unfold read_fuel; lia | by eexists _, _ | | eexists _, _; split; [done | cbn; lia]].
  cbn in Hx. destruct (IH r' syms' (data ++ [d])) as (syms2 & x & -> & Hc); [done | lia | lia |].
  exists syms2, x. split; [done |]. destruct x; [done |]. rewrite length_app in Hc. cbn in Hc. lia.
Qed.

(** C27: reading a string returns, with its data or with one error (the depth of the
    machine stack apart, which the model does not bound), and at most one datum
    per byte of text. *)
Theorem read_all_returns syms :
  ∃ syms' r, read_all f s syms = Some (syms', r) ∧
    match r with inl errors => length errors = 1 | inr data => length data ≤ length s end.
Proof.
  destruct (read_all_loop_counts (S (length s)) (reader_new f s) syms []) as (syms' & r & Hl & Hr);
    [exists 0; split; [done | lia] | unfold left; cbn; lia | unfold left; cbn; lia |].
  exists syms', r. split; [done |]. destruct r; [done |]. unfold left in Hr; cbn in Hr. lia.
Qed.

End facts.
