(* ===== verification/LexerText.v ===== *)
(** * The tokens of a text

    What the lexer reads from the text of a token: identifiers, integers and
    fractions, characters, string literals and punctuation.  A text [t] stands
    at position [i] of the source when [drop i s = t ++ k], and an atom ends
    where [k] begins with a delimiter. *)

From stdpp Require Import base numbers gmap list.
From Stdlib Require Import ZArith QArith Strings.Byte.
From S2P Require Import Prelude RaftTypes Float64 BigNum Number NumberFacts Text Symbols Diag Lexer LexerFacts.

Local Open Scope crab_scope.
Local Open Scope nat_scope.

(** What may follow an atom. *)
Definition ends (k : bytes) : Prop := match k with [] => True | b :: _ => is_delimiter b = true end.

(** A text that begins no white space and no comment. *)
Definition solid (t : bytes) : bool :=
  match t with
  | [] => false
  | b :: r => negb (is_whitespace b) && negb (b ≟ ";"%byte) &&
              negb ((b ≟ "#"%byte) && (head r ≟ Some "|"%byte))
  end.

Section text.
Context (f : FileId) (s : bytes) (Hs : str_ok s).

Notation at_ i := (MkLexer f s i).

Lemma drop_app_step {A} (l : list A) i t k : drop i l = t ++ k → drop (i + length t) l = k.
Proof. intros Hd. rewrite <-drop_drop, Hd. by rewrite drop_app_length. Qed.

Lemma lookup_after {A} (l : list A) i t k : drop i l = t ++ k → l !! (i + length t) = head k.
Proof.
  intros Hd%drop_app_step. destruct k as [|x k]; [| by eapply lookup_of_drop].
  apply lookup_ge_None. by apply drop_nil_inv in Hd.
Qed.

Lemma text_bound i t k : drop i s = t ++ k → t ≠ [] → i + length t ≤ length s.
Proof.
  intros Hd Ht. apply (f_equal length) in Hd. rewrite length_drop, length_app in Hd.
  destruct t; [done |]. cbn in *. lia.
Qed.

Lemma take_text i t k : drop i s = t ++ k → take (i + length t - i) (drop i s) = t.
Proof. intros Hd. rewrite Hd. replace (i + length t - i) with (length t) by lia. apply take_app_length. Qed.

Lemma ends_at_char i t k : drop i s = t ++ k → t ≠ [] → ends k → at_char s (i + length t).
Proof.
  intros Hd Ht Hk. apply stop_at_char; [done | by eapply text_bound |].
  intros b Hb. rewrite (lookup_after _ _ _ _ Hd) in Hb. destruct k as [|c k]; [done |].
  injection Hb as ->. by apply ascii_not_continuation, delimiter_ascii.
Qed.

Lemma head_at_char i b t k : drop i s = (b :: t) ++ k → (Byte.to_N b < 128)%N → at_char s i.
Proof. intros Hd Hb. eapply ascii_at_char; [done | by eapply lookup_of_drop | done]. Qed.

(** ** White space *)

Lemma skip_solid i t k : drop i s = t ++ k → t ≠ [] → solid (t ++ k) = true →
  skip_whitespace_and_comments (at_ i) = Some (at_ i, inr ()).
Proof.
  intros Hd Ht Hsol. unfold skip_whitespace_and_comments. cbn [skip_loop]. rewrite peek_at.
  destruct t as [|b t]; [done |]. rewrite (lookup_of_drop _ _ b (t ++ k)) by done.
  cbn in Hsol. apply andb_true_iff in Hsol as [[Hw Hc]%andb_true_iff Hh].
  apply negb_true_iff in Hw, Hc, Hh. rewrite Hw, Hc.
  assert (peek2 (at_ i) = head (t ++ k)) as Hp.
  { unfold peek2. cbn. pose proof (lookup_after s i [b] (t ++ k) Hd) as Hl. by rewrite Nat.add_1_r in Hl. }
  by rewrite Hp, Hh.
Qed.

(** Skipping goes on after a byte of white space. *)
Lemma skip_space i b : s !! i = Some b → is_whitespace b = true →
  skip_whitespace_and_comments (at_ i) = skip_whitespace_and_comments (at_ (S i)).
Proof.
  intros Hb Hw. unfold skip_whitespace_and_comments. rewrite !rest_at, (lookup_drop_cons _ _ _ Hb).
  cbn [length]. remember (S (length (drop (S i) s))) as fuel. cbn [skip_loop].
  by rewrite peek_at, Hb, Hw, (bump_at _ _ _ _ Hb).
Qed.

(** White space before a token: none, or one space. *)
Definition gap (ws : bytes) : Prop := ws = [] ∨ ws = lit " ".

Context {B R : Type} `{HB : BigInt B, HBL : !BigIntLaws B, HR : !BigRational R B, HRL : !BigRationalLaws R B}.

Notation num := (Number B R).
Notation Token := (Token B R).

Lemma next_token_gap i ws b t k syms :
  gap ws → drop i s = ws ++ (b :: t) ++ k → solid ((b :: t) ++ k) = true →
  next_token (B := B) (R := R) (at_ i) syms = token_at (at_ (i + length ws)) syms b.
Proof.
  intros Hws Hd Hsol. unfold next_token.
  assert (skip_whitespace_and_comments (at_ i) = Some (at_ (i + length ws), inr ())) as ->.
  { destruct Hws as [-> | ->].
    - cbn [length]. rewrite Nat.add_0_r. by apply (skip_solid i (b :: t) k).
    - change (drop i s = " "%byte :: (b :: t) ++ k) in Hd.
      rewrite (skip_space i " "%byte) by (done || by eapply lookup_of_drop). rewrite Nat.add_1_r.
      apply (skip_solid _ (b :: t) k); [by eapply drop_step | done..]. }
  rewrite peek_at, (lookup_after s i ws ((b :: t) ++ k)) by done. done.
Qed.

Lemma next_token_end i ws syms : gap ws → drop i s = ws →
  next_token (B := B) (R := R) (at_ i) syms = Some (at_ (i + length ws), syms, inr (TEof, span (at_ 0) (i + length ws) (i + length ws))).
Proof.
  intros Hws Hd. unfold next_token.
  assert (∀ j, drop j s = [] → skip_whitespace_and_comments (at_ j) = Some (at_ j, inr ()) ∧ s !! j = None) as Hend.
  { intros j Hj. assert (s !! j = None) as Hn by (apply lookup_ge_None; by apply drop_nil_inv).
    unfold skip_whitespace_and_comments. cbn [skip_loop]. by rewrite peek_at, Hn. }
  assert (skip_whitespace_and_comments (at_ i) = Some (at_ (i + length ws), inr ()) ∧ s !! (i + length ws) = None)
    as [-> Hn].
  { destruct Hws as [-> | ->].
    - cbn. rewrite Nat.add_0_r. by apply Hend.
    - change (drop i s = [" "%byte]) in Hd. rewrite (skip_space i " "%byte) by (done || by eapply lookup_of_drop). rewrite Nat.add_1_r.
      apply Hend. by eapply drop_step. }
  by rewrite peek_at, Hn.
Qed.

(** ** Punctuation *)

Lemma one_byte_text i b k syms t : drop i s = b :: k →
  one_byte (B := B) (R := R) (at_ i) syms i t = Some (at_ (S i), syms, inr (t, span (at_ 0) i (S i))).
Proof. intros Hd. unfold one_byte. by rewrite (bump_at _ _ _ b) by (by eapply lookup_of_drop). Qed.

(** ** Identifiers *)

(** A name that is read as an identifier. *)
Definition plain_name (t : bytes) : bool :=
  match t with
  | [] => false
  | b :: r =>
      forallb (λ b, negb (is_delimiter b)) t &&
      (is_initial_ident b ||
       (is_sign b && match r with
                     | [] => true
                     | c :: _ => negb (is_digit c) && negb (c ≟ "."%byte) && negb (is_special (Some r))
                     end) ||
       ((b ≟ "."%byte) && match r with [] => false | c :: _ => negb (is_digit c) end))
  end.

Lemma to_delimiter_text i t k : drop i s = t ++ k → Forall (λ b, is_delimiter b = false) t → ends k →
  to_delimiter (at_ i) = at_ (i + length t).
Proof.
  intros Hd Ht Hk. unfold to_delimiter. rewrite rest_at. eapply bump_while_prefix; [done | |].
  - eapply Forall_impl; [done |]. intros b Hb. by rewrite Hb.
  - destruct k as [|b k]; [done |]. cbn in Hk. by rewrite Hk.
Qed.

Lemma read_identifier_text i b t k syms sym :
  drop i s = (b :: t) ++ k → (Byte.to_N b < 128)%N →
  Forall (λ b, is_delimiter b = false) (b :: t) → ends k →
  SymbolTable.lookup_name syms (b :: t) = Some sym →
  read_identifier (B := B) (R := R) (at_ i) syms i =
  Some (at_ (i + length (b :: t)), syms, inr (TIdentifier sym, span (at_ 0) i (i + length (b :: t)))).
Proof.
  intros Hd Hb Ht Hk Hsym. unfold read_identifier. rewrite (to_delimiter_text i (b :: t) k) by done.
  cbn [lx_src lx_pos].
  rewrite slice_at_char; [| by eapply head_at_char | by eapply ends_at_char | lia].
  by rewrite (take_text i (b :: t) k), (intern_found _ _ _ Hsym).
Qed.

Lemma token_at_initial l syms b : is_initial_ident b = true →
  token_at (B := B) (R := R) l syms b = read_identifier l syms (lx_pos l).
Proof. by destruct b. Qed.

Lemma token_at_sign l syms b : is_sign b = true →
  token_at (B := B) (R := R) l syms b = sign_token l syms (lx_pos l).
Proof. by destruct b. Qed.

Lemma token_at_digit l syms b : is_digit b = true →
  token_at (B := B) (R := R) l syms b = keep syms (read_number l (lx_pos l)).
Proof. by destruct b. Qed.

(** The literals [inf.0] and [nan.0] hold no delimiter. *)
Lemma special_bytes r : is_special (Some r) = true →
  length r = 5 ∧ Forall (λ b, is_delimiter b = false) r.
Proof.
  unfold is_special. intros [Hx%bool_decide_eq_true|Hx%bool_decide_eq_true]%orb_true_iff; injection Hx as ->;
    (split; [done | by repeat constructor]).
Qed.

(** After a sign, a name that is not one of the literals is none of them with a
    delimiter after it. *)
Lemma not_special j r k : drop j s = r ++ k → Forall (λ b, is_delimiter b = false) r → ends k →
  is_special (Some r) = false →
  is_special (get_range s j 5) &&
  match s !! (j + 5) with Some b => is_delimiter b | None => true end = false.
Proof.
  intros Hd Hr Hk Hns. unfold get_range. destruct (j + 5 <=? length s) eqn:Hle; [| done].
  apply Nat.leb_le in Hle.
  destruct (is_special (Some (take 5 (drop j s)))) eqn:Hsp; [| done]. cbn [andb].
  destruct (special_bytes _ Hsp) as [_ Hnd]. rewrite Hd in Hnd, Hsp.
  destruct (lt_eq_lt_dec (length r) 5) as [[Hlt|Heq]|Hgt].
  - exfalso. rewrite take_app_ge in Hnd by lia. apply Forall_app in Hnd as [_ Hnd].
    apply (f_equal length) in Hd. rewrite length_drop, length_app in Hd.
    destruct k as [|c k]; cbn in Hd; [lia |]. destruct (5 - length r) eqn:Hn; [lia |]. cbn in Hnd.
    inversion_clear Hnd. cbn in Hk. congruence.
  - exfalso. rewrite <-Heq, take_app_length in Hsp. congruence.
  - rewrite <-lookup_drop, Hd, lookup_app_l by lia.
    destruct (lookup_lt_is_Some_2 r 5) as [b Hb]; [lia |]. rewrite Hb.
    exact (Forall_lookup_1 _ _ _ _ Hr Hb).
Qed.

Lemma peek2_text i b t k : drop i s = (b :: t) ++ k → peek2 (at_ i) = head (t ++ k).
Proof. intros Hd. unfold peek2. cbn. pose proof (lookup_after s i [b] (t ++ k) Hd) as Hl. by rewrite Nat.add_1_r in Hl. Qed.

Lemma delimiter_not_number b : is_delimiter b = true → is_digit b || (b ≟ "."%byte) = false.
Proof. by destruct b. Qed.

Lemma sign_kind b : is_sign b = true → is_initial_ident b = false ∧ (b ≟ "."%byte) = false.
Proof. by destruct b. Qed.

Lemma sign_identifier_text i b r k syms sym :
  drop i s = (b :: r) ++ k → is_sign b = true → plain_name (b :: r) = true →
  Forall (λ b, is_delimiter b = false) (b :: r) → ends k →
  SymbolTable.lookup_name syms (b :: r) = Some sym →
  sign_token (B := B) (R := R) (at_ i) syms i =
  Some (at_ (i + length (b :: r)), syms, inr (TIdentifier sym, span (at_ 0) i (i + length (b :: r)))).
Proof.
  intros Hd Hb Hp Ht Hk Hsym. rewrite <-(read_identifier_text i b r k syms sym) by (done || by apply sign_ascii).
  assert (drop (S i) s = r ++ k) as Hd1 by (by eapply drop_step).
  assert (is_special (Some r) = false ∧
          match r ++ k with [] => True | c :: _ => is_digit c || (c ≟ "."%byte) = false end) as [Hns Hc].
  { cbn in Hp. rewrite Hb in Hp. apply andb_true_iff in Hp as [_ Hp].
    destruct (sign_kind b Hb) as [Hi Hdot].
    rewrite Hi, Hdot in Hp. cbn in Hp. rewrite orb_false_r in Hp. destruct r as [|c r].
    - split; [done |]. cbn. destruct k as [|c k]; [done |]. by apply delimiter_not_number.
    - apply andb_true_iff in Hp as [[H1 H2]%andb_true_iff H3].
      apply negb_true_iff in H1, H2, H3. split; [done |]. cbn. by rewrite H1, H2. }
  unfold sign_token. rewrite (peek2_text i b r k Hd). inversion_clear Ht as [|?? _ Hr]. cbn [lx_src lx_pos].
  rewrite (not_special (S i) r k) by done. destruct (r ++ k) as [|c t]; [done |]. cbn [head]. by rewrite Hc.
Qed.

Lemma dot_identifier_text i r k syms sym :
  drop i s = ("."%byte :: r) ++ k → plain_name ("."%byte :: r) = true →
  Forall (λ b, is_delimiter b = false) ("."%byte :: r) → ends k →
  SymbolTable.lookup_name syms ("."%byte :: r) = Some sym →
  dot_token (B := B) (R := R) (at_ i) syms i =
  Some (at_ (i + length ("."%byte :: r)), syms, inr (TIdentifier sym, span (at_ 0) i (i + length ("."%byte :: r)))).
Proof.
  intros Hd Hp Ht Hk Hsym. rewrite <-(read_identifier_text i "."%byte r k syms sym) by done.
  unfold dot_token. rewrite (peek2_text i _ r k Hd). cbn in Hp. apply andb_true_iff in Hp as [_ Hp].
  destruct r as [|c r]; [done |]. cbn in Hp. cbn [app head]. apply negb_true_iff in Hp. rewrite Hp.
  inversion_clear Ht as [|?? _ Hr]. inversion_clear Hr as [|?? Hc _]. by rewrite Hc.
Qed.

(** A plain name is read as its symbol. *)
Lemma identifier_text i ws t k syms sym :
  gap ws → drop i s = ws ++ t ++ k → plain_name t = true → ends k →
  SymbolTable.lookup_name syms t = Some sym →
  next_token (B := B) (R := R) (at_ i) syms =
  Some (at_ (i + length ws + length t), syms,
        inr (TIdentifier sym, span (at_ 0) (i + length ws) (i + length ws + length t))).
Proof.
  intros Hws Hd Hp Hk Hsym. destruct t as [|b r]; [done |].
  assert (drop (i + length ws) s = (b :: r) ++ k) as Hd1 by (by eapply drop_app_step).
  assert (Forall (λ b, is_delimiter b = false) (b :: r)) as Ht.
  { apply Forall_forall. intros c Hc. cbn [plain_name] in Hp. apply andb_true_iff in Hp as [Hp _].
    rewrite forallb_forall in Hp. apply list_elem_of_In, Hp in Hc. by apply negb_true_iff in Hc. }
  assert (is_initial_ident b = true ∨ is_sign b = true ∨ b = "."%byte) as Hb.
  { cbn [plain_name] in Hp. apply andb_true_iff in Hp as [_ [[Hi|[Hsg _]%andb_true_iff]%orb_true_iff|
      [Hdot%bool_decide_eq_true _]%andb_true_iff]%orb_true_iff]; auto. }
  rewrite (next_token_gap i ws b r k) by (done || by destruct b; destruct Hb as [|[|]]).
  destruct Hb as [Hi|[Hsg| ->]].
  - rewrite token_at_initial by done. apply (read_identifier_text _ b r k); auto with ascii.
  - rewrite token_at_sign by done. by apply sign_identifier_text with k.
  - by apply dot_identifier_text with k.
Qed.

End text.
