(* ===== verification/LexerAtoms.v ===== *)
(** * Numbers, characters and strings in a text

    The literals that printing produces are read as what was printed: integers
    of any size, fractions with small parts, characters and the bodies of
    string literals. *)

From stdpp Require Import base numbers gmap list.
From Stdlib Require Import ZArith QArith Strings.Byte.
From S2P Require Import Prelude RaftTypes Float64 BigNum Number NumberFacts Text Symbols Diag Lexer LexerFacts LexerText.

Local Open Scope crab_scope.
Local Open Scope nat_scope.

(** ** Decimal numerals *)

Lemma digit_char_digit d : (d < 10)%N → is_digit (digit_char d) = true.
Proof.
  intros Hd. assert (d ∈ [0; 1; 2; 3; 4; 5; 6; 7; 8; 9]%N) as Hin by (rewrite !elem_of_cons; lia).
  repeat (apply elem_of_cons in Hin as [->|Hin]; [by vm_compute |]). by apply elem_of_nil in Hin.
Qed.

Lemma decimal_digits n : decimal n ≠ [] ∧ Forall (λ b, is_digit b = true) (decimal n).
Proof.
  destruct (decimal_spec n) as [_ (c & t & Hd & _)]. split; [by rewrite Hd |]. clear c t Hd. unfold decimal.
  destruct (digits_le_val (S (N.to_nat (N.size n))) 10 n) as [Hall _]; [lia | |].
  { rewrite Nat2N.inj_succ, N2Nat.id, N.pow_succ_r'. pose proof (N.size_gt n). lia. }
  destruct (digits_le _ _ _) as [|d ds]; [by repeat constructor |].
  rewrite Forall_forall in Hall. apply Forall_forall. intros b Hb.
  rewrite elem_of_reverse in Hb. apply list_elem_of_fmap in Hb as (e & -> & He). by apply digit_char_digit, Hall.
Qed.

(** The text of an integer: an optional minus sign and digits. *)
Definition numeral (t : bytes) : Prop :=
  ∃ sg ds, t = sg ++ ds ∧ (sg = [] ∨ sg = lit "-") ∧ ds ≠ [] ∧ Forall (λ b, is_digit b = true) ds.

Lemma decimal_Z_numeral z : numeral (decimal_Z z).
Proof.
  unfold decimal_Z. destruct (decimal_digits (Z.abs_N z)) as [Hne Hall].
  case_bool_decide; [exists (lit "-") | exists []]; exists (decimal (Z.abs_N z)); auto.
Qed.

(** A fraction: an integer, a slash and digits. *)
Definition numeric (t : bytes) : Prop :=
  numeral t ∨ ∃ t1 ds, t = t1 ++ lit "/" ++ ds ∧ numeral t1 ∧ ds ≠ [] ∧ Forall (λ b, is_digit b = true) ds.

Section atoms.
Context (f : FileId) (s : bytes) (Hs : str_ok s).

Notation at_ i := (MkLexer f s i).

Lemma number_loop_digits i ds k d sl e : drop i s = ds ++ k → Forall (λ b, is_digit b = true) ds →
  number_loop (drop i s) d sl e (at_ i) = number_loop (drop (i + length ds) s) d sl e (at_ (i + length ds)).
Proof.
  intros Hd Hds. revert i Hd. induction Hds as [|b ds Hb _ IH]; intros i Hd; [cbn; by rewrite Nat.add_0_r |].
  rewrite Hd at 1. cbn [app number_loop]. rewrite Hb.
  assert (drop (S i) s = ds ++ k) as Hd1 by (by eapply drop_step).
  rewrite (bump_at _ _ _ b) by (by eapply lookup_of_drop). rewrite <-Hd1, (IH (S i) Hd1).
  by replace (i + length (b :: ds)) with (S i + length ds) by (cbn; lia).
Qed.

Lemma delimiter_stops b r d sl e l : is_delimiter b = true → number_loop (b :: r) d sl e l = l.
Proof. by destruct b. Qed.

Lemma number_loop_ends k d sl e l : ends k → number_loop k d sl e l = l.
Proof. destruct k; [done |]. apply delimiter_stops. Qed.

Lemma digit_not_special b t : is_digit b = true → is_special (Some (b :: t)) = false.
Proof.
  intros Hb. destruct (is_special _) eqn:Hsp; [| done]. unfold is_special in Hsp.
  apply orb_true_iff in Hsp as [Hx%bool_decide_eq_true|Hx%bool_decide_eq_true]; injection Hx as -> _; done.
Qed.

Lemma range_not_special i b r : drop i s = b :: r → is_digit b = true → is_special (get_range s i 5) = false.
Proof.
  intros Hd Hb. unfold get_range. destruct (_ <=? _); [| done]. rewrite Hd. by apply digit_not_special.
Qed.

Lemma digit_not_sign b : is_digit b = true → is_sign b = false.
Proof. by destruct b. Qed.

(** The loop of [read_number] runs over the whole text of a number. *)
Lemma number_loop_text i ds fr k : drop i s = ds ++ fr ++ k → Forall (λ b, is_digit b = true) ds → ends k →
  (fr = [] ∨ ∃ es, fr = lit "/" ++ es ∧ Forall (λ b, is_digit b = true) es) →
  number_loop (drop i s) false false false (at_ i) = at_ (i + length ds + length fr).
Proof.
  intros Hd Hds Hk Hfr. rewrite (number_loop_digits i ds (fr ++ k)) by done.
  pose proof (drop_app_step _ _ _ _ Hd) as Hd1. destruct Hfr as [->|(es & -> & Hes)].
  - rewrite Hd1, number_loop_ends by done. cbn. by rewrite Nat.add_0_r.
  - change (drop (i + length ds) s = "/"%byte :: es ++ k) in Hd1. rewrite Hd1.
    cbn [number_loop]. change (is_digit "/"%byte) with false. change ("/"%byte ≟ "."%byte) with false.
    change ("/"%byte ≟ "/"%byte) with true. cbn [andb negb].
    rewrite (bump_at _ _ _ "/"%byte) by (by eapply lookup_of_drop).
    pose proof (drop_step _ _ _ _ Hd1) as Hd2. rewrite <-Hd2, (number_loop_digits _ es k) by done.
    rewrite (drop_app_step _ _ _ _ Hd2), number_loop_ends by done. f_equal. cbn. lia.
Qed.

Context {B R : Type} `{HB : BigInt B, HBL : !BigIntLaws B, HR : !BigRational R B, HRL : !BigRationalLaws R B}.

Notation num := (Number B R).
Notation Token := (Token B R).

Lemma numeric_parts t : numeric t →
  ∃ sg ds fr, t = sg ++ ds ++ fr ∧ (sg = [] ∨ sg = lit "-") ∧ ds ≠ [] ∧ Forall (λ b, is_digit b = true) ds ∧
    (fr = [] ∨ ∃ es, fr = lit "/" ++ es ∧ Forall (λ b, is_digit b = true) es).
Proof.
  intros [(sg & ds & -> & Hsg & Hne & Hds)|(t1 & es & -> & (sg & ds & -> & Hsg & Hne & Hds) & _ & Hes)].
  - exists sg, ds, []. rewrite app_nil_r. auto 10.
  - exists sg, ds, (lit "/" ++ es). rewrite <-app_assoc. eauto 10.
Qed.

Lemma read_number_text i t k : drop i s = t ++ k → numeric t → ends k →
  read_number (B := B) (R := R) (at_ i) i = number_token (at_ (i + length t)) i.
Proof.
  intros Hd (sg & ds & fr & -> & Hsg & Hne & Hds & Hfr)%numeric_parts Hk. unfold read_number.
  destruct ds as [|b ds]; [done |]. pose proof Hds as Hds0. apply Forall_cons in Hds0 as [Hb _].
  assert ((match peek (at_ i) with Some b => if is_sign b then bump (at_ i) else at_ i | None => at_ i end) =
          at_ (i + length sg)) as ->.
  { rewrite peek_at. destruct Hsg as [-> | ->].
    - rewrite (lookup_of_drop s i b (ds ++ fr ++ k)) by (rewrite Hd, <-!app_assoc; done).
      rewrite (digit_not_sign b Hb). cbn. by rewrite Nat.add_0_r.
    - assert (s !! i = Some "-"%byte) as Hm
        by exact (lookup_of_drop s i "-"%byte (((b :: ds) ++ fr) ++ k) Hd).
      rewrite Hm, (bump_at _ _ _ _ Hm). change (is_sign "-"%byte) with true. cbn. by rewrite Nat.add_1_r. }
  rewrite <-!app_assoc in Hd. pose proof (drop_app_step _ _ _ _ Hd) as Hd1. cbn [lx_src lx_pos].
  rewrite (range_not_special (i + length sg) b (ds ++ fr ++ k)) by done. rewrite rest_at.
  rewrite (number_loop_text _ (b :: ds) fr k) by done. f_equal. f_equal. rewrite !length_app. lia.
Qed.

(** A number literal is read as the number its text denotes. *)
Lemma number_text i ws t k syms n :
  gap ws → drop i s = ws ++ t ++ k → numeric t → ends k → parse_number (B := B) (R := R) t = Some n →
  next_token (B := B) (R := R) (at_ i) syms =
  Some (at_ (i + length ws + length t), syms,
        inr (TNumber n, span (at_ 0) (i + length ws) (i + length ws + length t))).
Proof.
  intros Hws Hd Hnum Hk Hp. pose proof (drop_app_step _ _ _ _ Hd) as Hd1. set (j := i + length ws) in *.
  assert (keep syms (read_number (B := B) (R := R) (at_ j) j) =
    Some (at_ (j + length t), syms, inr (TNumber n, span (at_ 0) j (j + length t)))) as Hread.
  { rewrite (read_number_text j t k) by done. destruct (numeric_parts t Hnum) as (sg & ds & fr & Ht & Hsg & Hne & Hds & _).
    assert (∃ b r, t = b :: r ∧ (Byte.to_N b < 128)%N) as (b & r & -> & Hb).
    { destruct ds as [|b ds]; [done |]. apply Forall_cons in Hds as [Hb _]. destruct Hsg as [-> | ->].
      - exists b, (ds ++ fr). split; [done | by apply digit_ascii].
      - by exists "-"%byte, ((b :: ds) ++ fr). }
    unfold number_token. cbn [lx_src lx_pos].
    rewrite slice_at_char; [| by eapply head_at_char | by eapply ends_at_char | lia].
    by rewrite (take_text s j (b :: r) k), Hp by done. }
  destruct (numeric_parts t Hnum) as (sg & ds & fr & -> & Hsg & Hne & Hds & _).
  destruct ds as [|b ds]; [done |]. apply Forall_cons in Hds as [Hb _]. destruct Hsg as [-> | ->].
  - rewrite (next_token_gap _ _ i ws b (ds ++ fr) k) by (done || by destruct b).
    by rewrite token_at_digit by done.
  - rewrite (next_token_gap _ _ i ws "-"%byte ((b :: ds) ++ fr) k) by done.
    rewrite token_at_sign by done. unfold sign_token. cbn [lx_pos].
    rewrite (peek2_text _ _ j "-"%byte ((b :: ds) ++ fr) k) by done. cbn [app head]. by rewrite Hb.
Qed.

(** ** The number a text denotes *)

Definition numeric_byte (b : byte) : bool := is_digit b || (b ≟ "-"%byte) || (b ≟ "/"%byte).

Lemma digits_numeric ds : Forall (λ b, is_digit b = true) ds → forallb numeric_byte ds = true.
Proof.
  intros Hds. apply forallb_forall. intros b Hb%list_elem_of_In. rewrite Forall_forall in Hds.
  unfold numeric_byte. by rewrite (Hds b Hb).
Qed.

Lemma numeric_bytes t : numeric t → forallb numeric_byte t = true.
Proof.
  intros (sg & ds & fr & -> & Hsg & _ & Hds & Hfr)%numeric_parts. rewrite !forallb_app, (digits_numeric ds Hds).
  destruct Hsg as [-> | ->], Hfr as [->|(es & -> & Hes)]; try done; by rewrite forallb_app, (digits_numeric es Hes).
Qed.

(** A numeric text is none of the special literals. *)
Lemma parse_numeric t : numeric t →
  parse_number (B := B) (R := R) t =
  match list_find (λ b, b = "/"%byte) t with
  | Some (k, _) =>
      match i64_from_str_radix (take k t) 10, i64_from_str_radix (drop (S k) t) 10 with
      | Some n, Some d =>
          if d ≟ 0%Z then None
          else match div (Fixnum n) (Fixnum d) with Some (inr q) => Some q | _ => None end
      | _, _ => None
      end
  | None => parse_decimal_integer t
  end.
Proof.
  intros Ht%numeric_bytes. unfold parse_number.
  assert (∀ u, forallb numeric_byte u = false → (t ≟ u) = false) as Hne.
  { intros u Hu. apply bool_decide_eq_false_2. congruence. }
  assert (∀ b, numeric_byte b = false → one_of t b = false) as Hno.
  { intros b Hb. apply bool_decide_eq_false_2. intros Hin%list_elem_of_In.
    rewrite forallb_forall in Ht. apply Ht in Hin. congruence. }
  rewrite !Hne by done. cbn [orb]. rewrite !Hno by done. cbn [orb].
  destruct (list_find _ t) as [[k b]|]; [| done].
  destruct (i64_from_str_radix (take k t) 10); [| done]. by destruct (i64_from_str_radix _ 10).
Qed.

Lemma numeral_no_slash t : numeral t → Forall (λ b, b ≠ "/"%byte) t.
Proof.
  intros (sg & ds & -> & Hsg & _ & Hds). apply Forall_app. split.
  - destruct Hsg as [-> | ->]; by repeat constructor.
  - eapply Forall_impl; [done |]. cbn. by intros b Hb ->.
Qed.

Lemma parse_integer_text z (n : num) : denotes n (inject_Z z) → parse_number (decimal_Z z) = Some n.
Proof.
  intros Hn. rewrite parse_numeric by (left; apply decimal_Z_numeral).
  assert (list_find (λ b, b = "/"%byte) (decimal_Z z) = None) as ->.
  { apply list_find_None, numeral_no_slash, decimal_Z_numeral. }
  rewrite <-(display_integer (λ _, []) n z Hn). by eapply parse_display_integer.
Qed.

Lemma parse_i64 z : in_i64 z → i64_from_str_radix (decimal_Z z) 10 = Some z.
Proof.
  intros Hz. unfold i64_from_str_radix, checked. rewrite signed_digits_decimal. by rewrite decide_True.
Qed.

Lemma split_fraction t1 t2 : Forall (λ b, b ≠ "/"%byte) t1 →
  list_find (λ b, b = "/"%byte) (t1 ++ lit "/" ++ t2) = Some (length t1, "/"%byte).
Proof.
  intros Ht. apply list_find_Some. split_and!; [by apply list_lookup_middle | done |].
  intros j y Hj Hlt. rewrite lookup_app_l in Hj by done. exact (Forall_lookup_1 _ _ _ _ Ht Hj).
Qed.

(** The parts of a fraction are read back when both fit a fixnum. *)
Lemma parse_fraction_text (r : R) :
  rat_is_integer r = false → in_i64 (big_val (rat_numer r)) → in_i64 (big_val (rat_denom r)) →
  parse_number (decimal_Z (big_val (rat_numer r)) ++ lit "/" ++ decimal_Z (big_val (rat_denom r))) =
  Some (Rat r : num).
Proof.
  intros Hr Hn Hd. set (a := big_val (rat_numer r)) in *. set (d := big_val (rat_denom r)) in *.
  pose proof (rat_denom_pos r) as Hpos. fold d in Hpos.
  rewrite parse_numeric.
  2:{ right. exists (decimal_Z a), (decimal_Z d). split; [done |]. split; [apply decimal_Z_numeral |].
      unfold decimal_Z. rewrite bool_decide_eq_false_2 by lia. apply decimal_digits. }
  rewrite split_fraction by (apply numeral_no_slash, decimal_Z_numeral).
  rewrite take_app_length, (parse_i64 a) by done.
  replace (drop (S (length (decimal_Z a))) (decimal_Z a ++ lit "/" ++ decimal_Z d)) with (decimal_Z d).
  2:{ replace (S (length (decimal_Z a))) with (length (decimal_Z a) + 1) by lia.
      by rewrite <-drop_drop, drop_app_length. }
  rewrite parse_i64 by done. rewrite bool_decide_eq_false_2 by lia.
  pose proof (div_denotes (B := B) (R := R) _ _ _ _ (denotes_fixnum a Hn) (denotes_fixnum d Hd)) as Hq.
  rewrite inject_Z_nonzero in Hq by lia. destruct Hq as (q & -> & Hq). f_equal.
  apply (denotes_inj q (Rat r) _ (rat_val r) Hq).
  - split; [done |]. by exists (rat_val r).
  - unfold rat_val, ratio. fold a d. symmetry. rewrite (Qmake_Qdiv a (Z.to_pos d)). by rewrite Z2Pos.id.
Qed.

(** Numbers that printing and reading give back. *)
Definition readable_number (n : num) : Prop :=
  (∃ z, denotes n (inject_Z z)) ∨
  ∃ r, n = Rat r ∧ rat_is_integer r = false ∧
       in_i64 (big_val (rat_numer r)) ∧ in_i64 (big_val (rat_denom r)).

Lemma display_readable shortest n : readable_number n →
  numeric (display shortest n) ∧ parse_number (display shortest n) = Some n.
Proof.
  intros [(z & Hz)|(r & -> & Hr & Hn & Hd)].
  - rewrite (display_integer shortest n z Hz). split; [left; apply decimal_Z_numeral |].
    by apply parse_integer_text.
  - cbn. rewrite !big_to_string_val. split; [| by apply parse_fraction_text]. right.
    eexists _, _. split; [done |]. split; [apply decimal_Z_numeral |].
    unfold decimal_Z. pose proof (rat_denom_pos r). rewrite bool_decide_eq_false_2 by lia. apply decimal_digits.
Qed.

(** ** Characters *)

(** A single character is its own name. *)
Lemma character_of_encoding c : scalar c → character_of_name (encode_char c) = Some c.
Proof.
  intros Hc. pose proof (next_char_encode c [] Hc) as Hn. rewrite app_nil_r in Hn.
  destruct (encode_char_shape c Hc) as (b & bs & He & Hb & Hbs).
  unfold character_of_name. destruct (find _ char_names) as [e|] eqn:Hf.
  - exfalso. apply find_some in Hf as [Hin Heq%bool_decide_eq_true]. rewrite He in Heq.
    assert (∃ a a' r, e.1 = a :: a' :: r ∧ continuation a' = false) as (a & a' & r & Hr & Ha).
    { cbn in Hin. repeat (destruct Hin as [<-|Hin]; [by do 3 eexists |]). done. }
    rewrite Hr in Heq. injection Heq as -> <-. apply Forall_cons in Hbs as [? _]. congruence.
  - cbn [fmap option_fmap option_map].
    assert (count_chars (encode_char c) ≟ 1 = true) as Hcnt by (apply bool_decide_eq_true_2; by apply count_encode).
    destruct (encode_char c) as [|x r] eqn:Hx; [done |]. injection He as <- <-.
    assert (x = "x"%byte → r = []) as Hxr.
    { intros ->. by destruct (encode_char_ascii_inv c "x"%byte r Hc Hx ltac:(done)). }
    destruct x; try (by rewrite Hcnt, Hn). by rewrite (Hxr eq_refl) in *.
Qed.

Lemma continuation_not_delimiter b : continuation b = true → is_delimiter b = false.
Proof. by destruct b. Qed.

(** A hash, a backslash and a name that only its first byte can end early. *)
Lemma character_name_text i ws b bs c k syms :
  gap ws → drop i s = ws ++ lit "#\" ++ (b :: bs) ++ k → Forall (λ b, is_delimiter b = false) bs → ends k →
  character_of_name (b :: bs) = Some c →
  next_token (B := B) (R := R) (at_ i) syms =
  Some (at_ (i + length ws + length (lit "#\" ++ b :: bs)), syms,
        inr (TCharacter c, span (at_ 0) (i + length ws) (i + length ws + length (lit "#\" ++ b :: bs)))).
Proof.
  intros Hws Hd Hbs Hk Hc. pose proof (drop_app_step _ _ _ _ Hd) as Hd1. set (j := i + length ws) in *.
  rewrite (next_token_gap _ _ i ws "#"%byte ("\"%byte :: b :: bs) k) by done. fold j.
  change (drop j s = "#"%byte :: "\"%byte :: (b :: bs) ++ k) in Hd1.
  pose proof (drop_step _ _ _ _ Hd1) as Hd2. pose proof (drop_step _ _ _ _ Hd2) as Hd3.
  pose proof (lookup_of_drop _ _ _ _ Hd1) as Hl1. pose proof (lookup_of_drop _ _ _ _ Hd2) as Hl2.
  change (token_at (at_ j) syms "#"%byte) with (read_hash (B := B) (R := R) (at_ j) syms j). unfold read_hash.
  rewrite (bump_at _ _ _ _ Hl1), peek_at, Hl2. change ("\"%byte ≟ "\"%byte) with true. cbn [bool_decide decide_rel].
  unfold read_character. rewrite (bump_at _ _ _ _ Hl2). cbn [lx_pos].
  rewrite (bump_at _ _ _ b) by (by eapply lookup_of_drop).
  rewrite (to_delimiter_text _ _ (S (S (S j))) bs k) by (done || by eapply drop_step). cbn [lx_pos lx_src].
  assert (S (S (S j)) + length bs = S (S j) + length (b :: bs)) as -> by (cbn; lia).
  rewrite slice_at_char; [| by eapply ascii_at_char | by eapply ends_at_char | lia].
  rewrite (take_text s (S (S j)) (b :: bs) k), Hc by done. unfold ok, keep, span. cbn [lx_file lx_pos].
  by replace (S (S j) + length (b :: bs)) with (j + length (lit "#\" ++ b :: bs)) by (rewrite length_app; cbn; lia).
Qed.

Lemma character_text i ws c k syms :
  gap ws → drop i s = ws ++ lit "#\" ++ encode_char c ++ k → scalar c → ends k →
  next_token (B := B) (R := R) (at_ i) syms =
  Some (at_ (i + length ws + length (lit "#\" ++ encode_char c)), syms,
        inr (TCharacter c, span (at_ 0) (i + length ws) (i + length ws + length (lit "#\" ++ encode_char c)))).
Proof.
  intros Hws Hd Hc Hk. pose proof (character_of_encoding c Hc) as Hname.
  destruct (encode_char_shape c Hc) as (b & bs & He & Hb & Hbs). rewrite He in *.
  apply (character_name_text i ws b bs c k); try done.
  eapply Forall_impl; [done | apply continuation_not_delimiter].
Qed.

(** ** String literals *)

(** A body of a string literal and the characters it stands for. *)
Inductive spells : bytes → list N → Prop :=
  | spells_nil : spells [] []
  | spells_char c t cs : scalar c → c ≠ 34%N → c ≠ 92%N → spells t cs → spells (encode_char c ++ t) (c :: cs)
  | spells_escape e c t cs : escaped string_escapes e = Some c → spells t cs →
      spells ("\"%byte :: e :: t) (c :: cs).

Lemma string_loop_text fuel start i t cs k out :
  spells t cs → at_char s i → drop i s = t ++ dquote :: k → length t < fuel →
  string_loop (B := B) (R := R) fuel (at_ i) start out =
  ok (at_ (S (i + length t))) start (TString (out ++ utf8 cs)).
Proof.
  intros Hsp. revert fuel i out. induction Hsp as [|c t cs Hc H34 H92 Hsp IH|e c t cs He Hsp IH];
    intros fuel i out Ha Hd Hf; (destruct fuel as [|fuel]; [lia |]); cbn [string_loop].
  - cbn in Hd. rewrite peek_at, (lookup_of_drop _ _ _ _ Hd), bool_decide_eq_true_2 by done.
    rewrite (bump_at _ _ _ dquote) by (by eapply lookup_of_drop). cbn. by rewrite app_nil_r, Nat.add_0_r.
  - rewrite <-app_assoc in Hd. destruct (encode_char_shape c Hc) as (b & bs & Hb & _).
    assert (s !! i = Some b) as Hl by (eapply lookup_of_drop; rewrite Hd, Hb; done).
    destruct (at_char_next s i b Ha Hl) as (c' & bs' & _ & _ & Hn & _ & Ha').
    rewrite Hd, (next_char_encode c _ Hc) in Hn. injection Hn as <-.
    assert (b ≠ dquote ∧ b ≠ "\"%byte) as [Hq Hbs].
    { split; intros ->; destruct (encode_char_ascii_inv c _ bs Hc Hb ltac:(done)) as [_ ->]; done. }
    rewrite peek_at, Hl, !bool_decide_eq_false_2 by done.
    unfold read_char_at_pos. cbn [lx_src lx_pos].
    rewrite slice_from_at_char by done. rewrite Hd, (next_char_encode c _ Hc).
    assert (drop (i + len_utf8 c) s = t ++ dquote :: k) as Hd1 by (by eapply drop_app_step).
    change ((at_ i) <| lx_pos ::= (λ p, p + len_utf8 c) |>) with (at_ (i + len_utf8 c)).
    rewrite (IH fuel _ _ Ha' Hd1) by (rewrite length_app, Hb in Hf; cbn in Hf; lia).
    rewrite length_app, utf8_cons, app_assoc. unfold len_utf8. by rewrite Nat.add_assoc.
  - cbn [app] in Hd. pose proof (lookup_of_drop _ _ _ _ Hd) as Hl. pose proof (drop_step _ _ _ _ Hd) as Hd1.
    pose proof (lookup_of_drop _ _ _ _ Hd1) as Hl1. pose proof (drop_step _ _ _ _ Hd1) as Hd2.
    rewrite peek_at, Hl. change ("\"%byte ≟ dquote) with false. change ("\"%byte ≟ "\"%byte) with true. cbn iota.
    rewrite (bump_at _ _ _ _ Hl). unfold string_escape. cbn [lx_pos]. rewrite peek_at, Hl1, He, (bump_at _ _ _ _ Hl1).
    assert (at_char s (S (S i))) as Ha2.
    { eapply at_char_ascii; [by eapply at_char_ascii | done |]. eapply escaped_ascii; [| done]. by vm_compute. }
    rewrite (IH fuel _ _ Ha2 Hd2) by (cbn in Hf; lia). rewrite utf8_cons, app_assoc.
    by replace (S (i + length ("\"%byte :: e :: t))) with (S (S (S i) + length t)) by (cbn; lia).
Qed.

Lemma string_text i ws t cs k syms :
  gap ws → drop i s = ws ++ (dquote :: t ++ [dquote]) ++ k → spells t cs →
  next_token (B := B) (R := R) (at_ i) syms =
  Some (at_ (i + length ws + length (dquote :: t ++ [dquote])), syms,
        inr (TString (utf8 cs), span (at_ 0) (i + length ws) (i + length ws + length (dquote :: t ++ [dquote])))).
Proof.
  intros Hws Hd Hsp. pose proof (drop_app_step _ _ _ _ Hd) as Hd1. set (j := i + length ws) in *.
  rewrite (next_token_gap _ _ i ws dquote (t ++ [dquote]) k) by done. fold j.
  cbn [app] in Hd1. rewrite <-app_assoc in Hd1. pose proof (lookup_of_drop _ _ _ _ Hd1) as Hl.
  pose proof (drop_step _ _ _ _ Hd1) as Hd2. pose proof (text_bound s j [dquote] _ Hd1 ltac:(done)) as Hj. cbn in Hj.
  change (token_at (at_ j) syms dquote) with (keep syms (read_string (B := B) (R := R) (at_ j) j)).
  unfold read_string. rewrite (bump_at _ _ _ _ Hl), rest_at.
  rewrite (string_loop_text _ j (S j) t cs k); [| done | by eapply ascii_at_char | done |].
  2:{ rewrite Hd2, length_app. cbn. lia. }
  unfold ok, keep, span. cbn [lx_file lx_pos app].
  by replace (S (S j + length t)) with (j + length (dquote :: t ++ [dquote])) by (cbn; rewrite length_app; cbn; lia).
Qed.

End atoms.
