(* ===== verification/ReaderText.v ===== *)
(** * Reading what was printed

    [format_datum] followed by [read_all] gives the datum back, up to the spans:
    for datums of booleans, integers and small fractions, characters, strings
    without quotes and backslashes, symbols with plain names, lists, dotted
    lists, vectors and bytevectors, of any size and depth. *)

From stdpp Require Import base numbers gmap list.
From Stdlib Require Import ZArith QArith Strings.Byte.
From S2P Require Import Prelude RaftTypes Float64 BigNum Number NumberFacts Text Symbols Diag Lexer LexerFacts LexerText LexerAtoms Reader ReaderFacts.

Local Open Scope crab_scope.
Local Open Scope nat_scope.

Section datums.
Context {B R : Type} `{HB : BigInt B, HBL : !BigIntLaws B, HR : !BigRational R B, HRL : !BigRationalLaws R B}.
Context (syms : SymbolTable).

Notation Token := (Token B R).
Notation Datum := (Datum B R).

(** Induction over a datum and the items of its vectors. *)
Lemma datum_induction (P : Datum → Prop) :
  (∀ b s, P (DBoolean b s)) → (∀ n s, P (DNumber n s)) → (∀ c s, P (DCharacter c s)) →
  (∀ t s, P (DString t s)) → (∀ y s, P (DSymbol y s)) → (∀ s, P (DNull s)) →
  (∀ a d s, P a → P d → P (DPair a d s)) → (∀ l s, Forall P l → P (DVector l s)) →
  (∀ t s, P (DByteVector t s)) → ∀ d, P d.
Proof.
  intros H1 H2 H3 H4 H5 H6 H7 H8 H9. fix IH 1. intros [b s|n s|c s|t s|y s|s|a d s|l s|t s];
    [apply H1 | apply H2 | apply H3 | apply H4 | apply H5 | apply H6 | apply H7; apply IH | apply H8 | apply H9].
  induction l as [|x l IHl]; constructor; [apply IH | apply IHl].
Qed.

(** A datum without its spans. *)
Fixpoint unspan (d : Datum) : Datum :=
  match d with
  | DBoolean b _ => DBoolean b dummy_span
  | DNumber n _ => DNumber n dummy_span
  | DCharacter c _ => DCharacter c dummy_span
  | DString t _ => DString t dummy_span
  | DSymbol y _ => DSymbol y dummy_span
  | DNull _ => DNull dummy_span
  | DPair a d _ => DPair (unspan a) (unspan d) dummy_span
  | DVector l _ => DVector (unspan <$> l) dummy_span
  | DByteVector t _ => DByteVector t dummy_span
  end.

(** ** Texts of datums *)

(** Datums that are one token or a bytevector. *)
Definition atomic (d : Datum) : bool :=
  match d with DNull _ | DPair _ _ _ | DVector _ _ => false | _ => true end.

(** Datums built from atoms that satisfy [ok]. *)
#[warnings="-register-all"]
Inductive built (ok : Datum → Prop) : Datum → Prop :=
  | built_atom d : atomic d = true → ok d → built ok d
  | built_null s : built ok (DNull s)
  | built_pair a d s : built ok a → built ok d → built ok (DPair a d s)
  | built_vector l s : Forall (built ok) l → built ok (DVector l s).

(** The text of a datum from the texts of its atoms, as both printers lay it
    out; [in_list] is whether the datum is the rest of a list. *)
Fixpoint render (atom : Datum → option bytes) (in_list : bool) (d : Datum) : option bytes :=
  match d with
  | DNull _ => Some (if in_list then [] else lit "()")
  | DPair a d _ =>
      car ← render atom false a;
      cdr ← render atom true d;
      mret (if in_list then lit " " ++ car ++ cdr else lit "(" ++ car ++ cdr ++ lit ")")
  | DVector l _ =>
      ts ← mapM (render atom false) l;
      mret (let t := lit "#(" ++ spaced ts ++ lit ")" in if in_list then lit " . " ++ t else t)
  | _ => t ← atom d; mret (if in_list then lit " . " ++ t else t)
  end.

(** ** The text that is printed is valid *)

Lemma str_ok_app t u : str_ok t → str_ok u → str_ok (t ++ u).
Proof. intros (cs & Hc & ->) (ds & Hd & ->). exists (cs ++ ds). by rewrite Forall_app, utf8_app. Qed.

Lemma str_ok_ascii t : Forall (λ b, (Byte.to_N b < 128)%N) t → str_ok t.
Proof.
  induction 1 as [|b t Hb _ (cs & Hc & ->)]; [by exists [] |]. exists (Byte.to_N b :: cs). split.
  - constructor; [| done]. unfold scalar. lia.
  - by rewrite utf8_cons, encode_ascii_byte.
Qed.

Lemma str_ok_encode c : scalar c → str_ok (encode_char c).
Proof. intros Hc. exists [c]. rewrite utf8_cons, app_nil_r. by split; [constructor |]. Qed.

Lemma numeric_str_ok t : numeric t → str_ok t.
Proof.
  intros Ht%numeric_bytes. apply str_ok_ascii, Forall_forall. intros b Hb%list_elem_of_In.
  rewrite forallb_forall in Ht. specialize (Ht b Hb). by destruct b.
Qed.

Lemma spaced_ok ts : Forall str_ok ts → str_ok (spaced ts).
Proof.
  induction 1 as [|t ts Ht Hts IH]; [by exists [] |]. destruct ts as [|u ts]; [done |].
  change (spaced (t :: u :: ts)) with (t ++ lit " " ++ spaced (u :: ts)).
  apply str_ok_app; [done |]. apply str_ok_app; [by apply str_ok_ascii; repeat constructor | done].
Qed.

Lemma decimal_ok n : str_ok (decimal n).
Proof.
  apply str_ok_ascii. destruct (decimal_digits n) as [_ Hd]. eapply Forall_impl; [done | apply digit_ascii].
Qed.

Ltac lit_ok := apply str_ok_ascii; by repeat constructor.

Section render.
Context (atom : Datum → option bytes) (ok : Datum → Prop).

Lemma render_atom in_list d u : atomic d = true → render atom in_list d = Some u →
  ∃ t, atom d = Some t ∧ u = if in_list then lit " . " ++ t else t.
Proof.
  intros Hd. destruct d; try done; cbn [render]; intros (v & Hv & [= <-])%bind_Some; by exists v.
Qed.

Lemma render_pair in_list a d s u : render atom in_list (DPair a d s) = Some u →
  ∃ car cdr, render atom false a = Some car ∧ render atom true d = Some cdr ∧
             u = if in_list then lit " " ++ car ++ cdr else lit "(" ++ car ++ cdr ++ lit ")".
Proof.
  cbn [render]. intros (car & Ha & (cdr & Hd & Hu)%bind_Some)%bind_Some. exists car, cdr. by injection Hu as <-.
Qed.

Lemma render_vector in_list l s u : render atom in_list (DVector l s) = Some u →
  ∃ ts, Forall2 (λ d t, render atom false d = Some t) l ts ∧
        u = if in_list then lit " . " ++ lit "#(" ++ spaced ts ++ lit ")" else lit "#(" ++ spaced ts ++ lit ")".
Proof.
  cbn [render]. intros (ts & Hts%mapM_Some & Hu)%bind_Some. exists ts. by injection Hu as <-.
Qed.

Lemma dotted_ok (in_list : bool) t : str_ok t → str_ok (if in_list then lit " . " ++ t else t : bytes).
Proof. intros Ht. destruct in_list; [apply str_ok_app; [lit_ok | done] | done]. Qed.

Lemma render_ok d : (∀ d t, ok d → atom d = Some t → str_ok t) → built ok d →
  ∀ in_list t, render atom in_list d = Some t → str_ok t.
Proof.
  intros Hatom. assert (∀ d, atomic d = true → built ok d → ∀ in_list t, render atom in_list d = Some t → str_ok t) as Hat.
  { intros d0 Ha Hb in_list t (u & Hu & ->)%render_atom; [| done]. apply dotted_ok.
    inversion Hb; subst; try done. by eapply Hatom. }
  induction d as [| | | | |s|a d s IHa IHd|l s IHl|] using datum_induction; try (by apply Hat); intros Hr in_list u Hu.
  - injection Hu as <-. destruct in_list; [by exists [] | lit_ok].
  - inversion Hr; subst; [done |]. apply render_pair in Hu as (car & cdr & Ha & Hd & ->).
    assert (str_ok (car ++ cdr)) as Hcc by (apply str_ok_app; eauto).
    destruct in_list; [apply (str_ok_app (lit " ")); [lit_ok | done] |].
    apply (str_ok_app (lit "(")); [lit_ok |]. rewrite app_assoc. apply str_ok_app; [done | lit_ok].
  - inversion Hr as [| | |?? Hl]; subst; [done |]. apply render_vector in Hu as (ts & Hts & ->).
    apply dotted_ok, (str_ok_app (lit "#(")); [lit_ok |]. apply str_ok_app; [apply spaced_ok | lit_ok].
    clear -IHl Hl Hts. induction Hts as [|d t l ts Hd _ IH]; [constructor |].
    inversion_clear IHl. inversion_clear Hl. constructor; eauto.
Qed.

(** The rest of a list begins with a space, or is empty. *)
Lemma tail_ends d t k : render atom true d = Some t → ends (t ++ lit ")" ++ k).
Proof.
  destruct (atomic d) eqn:Ha; [intros (u & _ & ->)%render_atom; done |]. destruct d; try done.
  - by intros [= <-].
  - by intros (car & cdr & _ & _ & ->)%render_pair.
  - by intros (ts & _ & ->)%render_vector.
Qed.

End render.

(** ** Reading at a position of the source *)

Section source.
Context (f : FileId) (s : bytes) (Hs : str_ok s).

Notation at_ i := (MkLexer f s i).
Notation rd i := (MkReader (B := B) (R := R) (at_ i) None).

(** The next token at [i] ends at [j]. *)
Definition tok (i j : nat) (t : Token) : Prop :=
  ∃ sp, next_token (at_ i) syms = Some (at_ j, syms, inr (t, sp)).

Lemma tok_next i j t : tok i j t → ∃ sp, next_tok (rd i) syms = returns (rd j) syms (t, sp).
Proof. intros (sp & Hn). exists sp. unfold next_tok. cbn. by rewrite Hn. Qed.

(** After looking at a token, the reader behaves as before. *)
Lemma tok_peek i j t : tok i j t →
  ∃ sp r, peek_tok (rd i) syms = returns r syms (t, sp) ∧ next_tok r syms = returns (rd j) syms (t, sp) ∧
          (∀ fuel, read fuel r syms = read fuel (rd i) syms).
Proof.
  intros (sp & Hn). exists sp, (MkReader (at_ j) (Some (t, sp))). split_and!.
  - unfold peek_tok. cbn. by rewrite Hn.
  - done.
  - assert (next_tok (rd i) syms = next_tok (MkReader (at_ j) (Some (t, sp))) syms) as Heq.
    { unfold next_tok. cbn. by rewrite Hn. }
    intros [|fuel]; [done |]. by rewrite !read_S, Heq.
Qed.

Lemma at_pos {A} i j (x : A) : i = j → returns (rd i) syms x = returns (rd j) syms x.
Proof. by intros ->. Qed.

(** Tokens that begin a datum. *)
Definition begins (t : Token) : bool :=
  match t with RParen | RBracket | TDot | TEof | HashSemi => false | _ => true end.

(** A datum without parts: its token gives it. *)
Lemma atom_read fuel i j t d : tok i j t → begins t = true →
  (∀ fuel sp, ∃ d', read_token (S fuel) (rd j) syms t sp = returns (rd j) syms d' ∧ unspan d' = unspan d) →
  2 ≤ fuel → ∃ d', read fuel (rd i) syms = returns (rd j) syms (Some d') ∧ unspan d' = unspan d.
Proof.
  intros Ht Hb Hd Hf. destruct (tok_next i j t Ht) as (sp & Hn).
  destruct fuel as [|[|fuel]]; [lia | lia |]. destruct (Hd fuel sp) as (d' & Hr & Hu). exists d'. split; [| done].
  rewrite read_S, Hn. cbn [and_then returns]. destruct t; try done; by rewrite Hr.
Qed.

(** *** Punctuation *)

Lemma punct_tok i ws b k t : gap ws → drop i s = ws ++ b :: k → solid (b :: k) = true →
  (∀ l, token_at l syms b = one_byte (B := B) (R := R) l syms (lx_pos l) t) → tok i (i + length ws + 1) t.
Proof.
  intros Hws Hd Hsol Ht. pose proof (drop_app_step _ _ _ _ Hd) as Hd1. eexists.
  rewrite (next_token_gap f s i ws b [] k) by done. rewrite Ht, (one_byte_text f s _ b k) by done.
  by rewrite Nat.add_1_r.
Qed.

Lemma lparen_tok i ws k : gap ws → drop i s = ws ++ lit "(" ++ k → tok i (i + length ws + 1) LParen.
Proof. intros. by apply punct_tok with "("%byte k. Qed.

Lemma rparen_tok i k : drop i s = lit ")" ++ k → tok i (i + 1) RParen.
Proof.
  intros Hd. replace (i + 1) with (i + length (A := byte) [] + 1) by (cbn; lia).
  apply punct_tok with ")"%byte k; [by left | done..].
Qed.

(** The dot of a dotted list, which a space follows. *)
Lemma dot_tok i k : drop i s = lit " . " ++ k → tok i (i + 2) TDot.
Proof.
  intros Hd. assert (drop i s = lit " " ++ [ "."%byte ] ++ " "%byte :: k) as Hd' by done.
  pose proof (drop_app_step _ _ _ _ Hd') as Hd1. cbn in Hd1. eexists.
  rewrite (next_token_gap f s i (lit " ") "."%byte [] (" "%byte :: k)) by (done || by right).
  change (i + length (lit " ")) with (i + 1).
  change (token_at (at_ (i + 1)) syms "."%byte) with (dot_token (B := B) (R := R) (at_ (i + 1)) syms (i + 1)).
  unfold dot_token. rewrite (peek2_text f s (i + 1) "."%byte [] (" "%byte :: k)) by done. cbn [app head].
  change (is_digit " "%byte) with false. change (is_delimiter " "%byte) with true. cbn iota.
  rewrite (one_byte_text f s (i + 1) "."%byte (" "%byte :: k)) by done. by replace (i + 2) with (S (i + 1)) by lia.
Qed.

(** A hash and a byte that is a token with it. *)
Lemma hash_tok i ws b k t : gap ws → drop i s = ws ++ ["#"%byte; b] ++ k →
  (∀ l start, peek (bump l) = Some b →
     read_hash (B := B) (R := R) l syms start = one_byte (bump l) syms start t) →
  b ≠ "|"%byte → tok i (i + length ws + 2) t.
Proof.
  intros Hws Hd Ht Hb. pose proof (drop_app_step _ _ _ _ Hd) as Hd1. set (j := i + length ws) in *.
  change (drop j s = "#"%byte :: b :: k) in Hd1. pose proof (drop_step _ _ _ _ Hd1) as Hd2.
  pose proof (lookup_of_drop _ _ _ _ Hd1) as Hl1. pose proof (lookup_of_drop _ _ _ _ Hd2) as Hl2. eexists.
  rewrite (next_token_gap f s i ws "#"%byte [b] k); [| done | done |].
  2:{ change (negb (Some b ≟ Some "|"%byte) = true). rewrite bool_decide_eq_false_2; [done |]. by intros [= ->]. }
  fold j. change (token_at (at_ j) syms "#"%byte) with (read_hash (B := B) (R := R) (at_ j) syms j).
  rewrite Ht, (bump_at _ _ _ _ Hl1) by (by rewrite (bump_at _ _ _ _ Hl1)).
  unfold one_byte, ok, keep. rewrite (bump_at _ _ _ _ Hl2). by replace (j + 2) with (S (S j)) by lia.
Qed.

Ltac hash_case := intros l start Hp; unfold read_hash; by rewrite Hp.

Lemma true_tok i ws k : gap ws → drop i s = ws ++ lit "#t" ++ k → tok i (i + length ws + 2) (TBoolean true).
Proof. intros. apply (hash_tok i ws "t"%byte k); [done | done | hash_case | done]. Qed.

Lemma false_tok i ws k : gap ws → drop i s = ws ++ lit "#f" ++ k → tok i (i + length ws + 2) (TBoolean false).
Proof. intros. apply (hash_tok i ws "f"%byte k); [done | done | hash_case | done]. Qed.

Lemma vector_tok i ws k : gap ws → drop i s = ws ++ lit "#(" ++ k → tok i (i + length ws + 2) HashLParen.
Proof. intros. apply (hash_tok i ws "("%byte k); [done | done | hash_case | done]. Qed.

Lemma bytevector_tok i ws k : gap ws → drop i s = ws ++ lit "#u8(" ++ k → tok i (i + length ws + 4) HashU8LParen.
Proof.
  intros Hws Hd. pose proof (drop_app_step _ _ _ _ Hd) as Hd1. set (j := i + length ws) in *.
  change (drop j s = "#"%byte :: "u"%byte :: "8"%byte :: "("%byte :: k) in Hd1.
  pose proof (drop_step _ _ _ _ Hd1) as Hd2. pose proof (drop_step _ _ _ _ Hd2) as Hd3. pose proof (drop_step _ _ _ _ Hd3) as Hd4.
  pose proof (lookup_of_drop _ _ _ _ Hd1) as Hl1. pose proof (lookup_of_drop _ _ _ _ Hd2) as Hl2.
  pose proof (lookup_of_drop _ _ _ _ Hd3) as Hl3. pose proof (lookup_of_drop _ _ _ _ Hd4) as Hl4. eexists.
  rewrite (next_token_gap f s i ws "#"%byte (lit "u8(") k) by done. fold j.
  change (token_at (at_ j) syms "#"%byte) with (read_hash (B := B) (R := R) (at_ j) syms j).
  unfold read_hash. rewrite (bump_at _ _ _ _ Hl1), peek_at, Hl2. cbn [lx_src lx_pos].
  replace (S j + 1) with (S (S j)) by lia. replace (S j + 2) with (S (S (S j))) by lia. rewrite Hl3, Hl4.
  rewrite (bump_at _ _ _ _ Hl2), (bump_at _ _ _ _ Hl3). unfold one_byte, ok, keep. rewrite (bump_at _ _ _ _ Hl4).
  by replace (j + 4) with (S (S (S (S j)))) by lia.
Qed.

(** *** The statement *)

(** Reading at the text [t] of [d] gives [d] and ends after [t]. *)
Definition text_reads (d : Datum) (t : bytes) : Prop :=
  ∀ i ws k, gap ws → drop i s = ws ++ t ++ k → ends k →
    t ≠ [] ∧ (∃ j x, tok i j x ∧ begins x = true) ∧
    ∀ fuel, 3 * (length s - i) < fuel →
      ∃ d', read fuel (rd i) syms = returns (rd (i + length ws + length t)) syms (Some d') ∧
            unspan d' = unspan d.

(** The list of some items and a tail, without spans. *)
Definition plain_list (items : list Datum) (tail : Datum) : Datum :=
  foldr (λ x acc, DPair (unspan x) acc dummy_span) (unspan tail) items.

(** The loop of a list at the text [t] of the rest [d]. *)
Definition tail_reads (d : Datum) (t : bytes) : Prop :=
  ∀ i k fuel open items, items ≠ [] → drop i s = t ++ lit ")" ++ k → 3 * (length s - i) + 1 < fuel →
    ∃ d', list_loop fuel (rd i) syms open items = returns (rd (i + length t + 1)) syms d' ∧
          unspan d' = plain_list items d.

Lemma atom_text d t :
  (∀ i ws k, gap ws → drop i s = ws ++ t ++ k → ends k →
     ∃ x, tok i (i + length ws + length t) x ∧ begins x = true ∧
          ∀ fuel r sp, ∃ d', read_token (S fuel) r syms x sp = returns r syms d' ∧ unspan d' = unspan d) →
  t ≠ [] → text_reads d t.
Proof.
  intros Ht Hne i ws k Hws Hd Hk. destruct (Ht i ws k Hws Hd Hk) as (x & Hx & Hb & Hr).
  split_and!; [done | by eexists _, _ |]. intros fuel Hf. eapply atom_read; [done | done | by intros; apply Hr |].
  pose proof (f_equal length Hd) as Hl. rewrite length_drop, !length_app in Hl.
  assert (0 < length t) by (destruct t; [done | cbn; lia]). lia.
Qed.

(** ** Lists *)

Lemma unspan_build items tail : unspan (build_list items tail) = plain_list items tail.
Proof. unfold build_list, plain_list. induction items as [|x items IH]; [done |]. cbn. by rewrite IH. Qed.

Lemma unspan_closed items close full : items ≠ [] → unspan (closed_list items close full) = plain_list items (DNull close).
Proof.
  intros Hne. unfold closed_list. pose proof (unspan_build items (DNull close)) as Hu.
  destruct items as [|x items]; [done |]. cbn in *. by rewrite <-Hu.
Qed.

Lemma unspan_dotted items tail full : items ≠ [] → unspan (dotted_list items tail full) = plain_list items tail.
Proof.
  intros Hne. unfold dotted_list. pose proof (unspan_build items tail) as Hu.
  destruct items as [|x items]; [done |]. cbn in *. by rewrite <-Hu.
Qed.

Lemma plain_list_snoc items x d sp : plain_list (items ++ [x]) d = plain_list items (DPair x d sp).
Proof. unfold plain_list. by rewrite foldr_app. Qed.

Lemma plain_list_same items d d' : unspan d = unspan d' → plain_list items d = plain_list items d'.
Proof. intros Hu. unfold plain_list. by rewrite Hu. Qed.

Lemma null_tail sp : tail_reads (DNull sp) [].
Proof.
  intros i k fuel open items Hne Hd Hf. destruct fuel as [|fuel]; [lia |]. rewrite list_loop_S.
  destruct (tok_peek i _ _ (rparen_tok i k Hd)) as (sp' & r & -> & Hn & _). cbn [and_then returns].
  rewrite Hn. cbn [and_then returns length]. rewrite Nat.add_0_r. eexists. split; [done |]. by rewrite unspan_closed.
Qed.

Lemma dotted_tail d t : text_reads d t → tail_reads d (lit " . " ++ t).
Proof.
  intros Ht i k fuel open items Hne Hd Hf. destruct fuel as [|fuel]; [lia |]. rewrite list_loop_S.
  rewrite <-app_assoc in Hd. destruct (tok_peek i _ _ (dot_tok i _ Hd)) as (sp & r & -> & Hn & _).
  cbn [and_then returns]. rewrite Hn. cbn [and_then returns].
  assert (drop (i + 2) s = lit " " ++ t ++ lit ")" ++ k) as Hd2.
  { exact (drop_app_step s i (lit " .") (lit " " ++ t ++ lit ")" ++ k) Hd). }
  destruct (Ht (i + 2) (lit " ") (lit ")" ++ k) (or_intror eq_refl) Hd2 ltac:(done)) as (_ & _ & Hread).
  destruct (Hread fuel) as (d' & -> & Hu); [lia |]. cbn [required and_then returns].
  assert (drop (i + 2 + length (lit " ") + length t) s = lit ")" ++ k) as Hd3.
  { apply (drop_app_step s _ t). by apply (drop_app_step s _ (lit " ")). }
  destruct (tok_next _ _ _ (rparen_tok _ _ Hd3)) as (sp2 & ->). cbn [and_then returns].
  exists (dotted_list items d' (merge open sp2)). split.
  - apply at_pos. rewrite length_app. cbn. lia.
  - rewrite unspan_dotted by done. by apply plain_list_same.
Qed.

(** An item of a list and what follows it. *)
Lemma item_reads a d car cdr i ws k fuel open items sp :
  text_reads a car → tail_reads d cdr → (∀ k, ends (cdr ++ lit ")" ++ k)) → gap ws →
  drop i s = ws ++ car ++ cdr ++ lit ")" ++ k → 3 * (length s - i) + 1 < fuel →
  ∃ d', list_loop fuel (rd i) syms open items =
        returns (rd (i + length ws + length car + length cdr + 1)) syms d' ∧
        unspan d' = plain_list items (DPair a d sp).
Proof.
  intros Ha Hd He Hws Hdrop Hf. destruct fuel as [|fuel]; [lia |]. rewrite list_loop_S.
  destruct (Ha i ws _ Hws Hdrop (He k)) as (Hne & (j & x & Hx & Hb) & Hread).
  destruct (tok_peek i j x Hx) as (sp' & r & -> & _ & Hr). cbn [and_then returns].
  destruct (Hread fuel) as (a' & Hra & Hu); [lia |].
  assert (drop (i + length ws + length car) s = cdr ++ lit ")" ++ k) as Hd2.
  { apply (drop_app_step s _ car). by apply (drop_app_step s _ ws). }
  assert (0 < length car) by (destruct car; [done | cbn; lia]).
  pose proof (f_equal length Hdrop) as Hl. rewrite length_drop, !length_app in Hl.
  destruct (Hd (i + length ws + length car) k fuel open (items ++ [a']) ltac:(by destruct items) Hd2 ltac:(lia))
    as (d' & Hd' & Hu').
  exists d'. split.
  - destruct x; try done; rewrite Hr, Hra; cbn [and_then returns]; exact Hd'.
  - rewrite Hu', (plain_list_snoc items a' d sp). apply plain_list_same. cbn. by rewrite Hu.
Qed.

Lemma pair_tail a d car cdr sp :
  text_reads a car → tail_reads d cdr → (∀ k, ends (cdr ++ lit ")" ++ k)) →
  tail_reads (DPair a d sp) (lit " " ++ car ++ cdr).
Proof.
  intros Ha Hd He i k fuel open items Hne Hdrop Hf. rewrite <-!app_assoc in Hdrop.
  destruct (item_reads a d car cdr i (lit " ") k fuel open items sp) as (d' & -> & Hu); try done; [by right |].
  exists d'. split; [| done]. apply at_pos. rewrite !length_app. cbn. lia.
Qed.

Lemma pair_text a d car cdr sp :
  text_reads a car → tail_reads d cdr → (∀ k, ends (cdr ++ lit ")" ++ k)) →
  text_reads (DPair a d sp) (lit "(" ++ car ++ cdr ++ lit ")").
Proof.
  intros Ha Hd He i ws k Hws Hdrop Hk. rewrite <-!app_assoc in Hdrop.
  pose proof (lparen_tok i ws _ Hws Hdrop) as Htok.
  split_and!; [done | by eexists _, _ |]. intros fuel Hf.
  destruct (tok_next _ _ _ Htok) as (sp' & Hn).
  assert (drop (i + length ws + 1) s = car ++ cdr ++ lit ")" ++ k) as Hd2.
  { apply (drop_app_step s _ (lit "(")). by apply (drop_app_step s _ ws). }
  pose proof (f_equal length Hdrop) as Hl. rewrite length_drop, !length_app in Hl. cbn in Hl.
  destruct fuel as [|[|fuel]]; [lia | lia |]. rewrite read_S, Hn. cbn [and_then returns].
  destruct (item_reads a d car cdr (i + length ws + 1) [] k fuel sp' [] sp) as (d' & Hd' & Hu); try done;
    [by left | lia |].
  exists d'. split; [| done]. change (read_token (S fuel) (rd (i + length ws + 1)) syms LParen sp')
    with (list_loop fuel (rd (i + length ws + 1)) syms sp' []). rewrite Hd'. cbn [and_then returns].
  apply at_pos. rewrite !length_app. cbn. lia.
Qed.

Lemma null_text sp : text_reads (DNull sp) (lit "()").
Proof.
  intros i ws k Hws Hdrop Hk.
  assert (drop i s = ws ++ lit "(" ++ lit ")" ++ k) as Hdrop' by done.
  pose proof (lparen_tok i ws _ Hws Hdrop') as Htok. split_and!; [done | by eexists _, _ |]. intros fuel Hf.
  destruct (tok_next _ _ _ Htok) as (sp' & Hn).
  assert (drop (i + length ws + 1) s = lit ")" ++ k) as Hd2.
  { apply (drop_app_step s _ (lit "(")). by apply (drop_app_step s _ ws). }
  pose proof (f_equal length Hdrop') as Hl. rewrite length_drop, !length_app in Hl. cbn in Hl.
  destruct fuel as [|[|[|fuel]]]; [lia | lia | lia |]. rewrite read_S, Hn. cbn [and_then returns].
  change (read_token (S (S fuel)) (rd (i + length ws + 1)) syms LParen sp')
    with (list_loop (S fuel) (rd (i + length ws + 1)) syms sp' []). rewrite list_loop_S.
  destruct (tok_peek _ _ _ (rparen_tok _ _ Hd2)) as (sp2 & r & -> & Hn2 & _). cbn [and_then returns].
  rewrite Hn2. cbn [and_then returns]. exists (DNull (merge sp' sp2)). split; [| done].
  apply at_pos. cbn. lia.
Qed.

(** ** Vectors and bytevectors *)

(** Items separated by spaces, the first after [ws]. *)
Fixpoint spaced_from (ws : bytes) (ts : list bytes) : bytes :=
  match ts with [] => [] | t :: ts => ws ++ t ++ spaced_from (lit " ") ts end.

Lemma spaced_spaced_from ts : spaced ts = spaced_from [] ts.
Proof.
  assert (∀ t ts, spaced (t :: ts) = t ++ spaced_from (lit " ") ts) as Hcons.
  { intros t l. revert t. induction l as [|u l IH]; intros t; [cbn; by rewrite app_nil_r |].
    change (spaced (t :: u :: l)) with (t ++ lit " " ++ spaced (u :: l)). by rewrite IH. }
  destruct ts as [|t ts]; [done |]. apply Hcons.
Qed.

Lemma spaced_ends ts k : ends (spaced_from (lit " ") ts ++ lit ")" ++ k).
Proof. by destruct ts. Qed.

Lemma gap_nil : gap [].
Proof. by left. Qed.

Lemma gap_space : gap (lit " ").
Proof. by right. Qed.

Lemma vector_items l ts : Forall2 text_reads l ts → ∀ i ws k fuel open acc, gap ws →
  drop i s = spaced_from ws ts ++ lit ")" ++ k → 3 * (length s - i) + 1 < fuel →
  ∃ l' sp, vector_loop fuel (rd i) syms open acc =
           returns (rd (i + length (spaced_from ws ts) + 1)) syms (DVector (acc ++ l') sp) ∧
           unspan <$> l' = unspan <$> l.
Proof.
  induction 1 as [|d t l ts Ht Hts IH]; intros i ws k fuel open acc Hws Hdrop Hf;
    (destruct fuel as [|fuel]; [lia |]); rewrite vector_loop_S; cbn [spaced_from] in *.
  - destruct (tok_peek i _ _ (rparen_tok i k Hdrop)) as (sp & r & -> & Hn & _). cbn [and_then returns].
    rewrite Hn. cbn [and_then returns length]. exists [], (merge open sp). by rewrite app_nil_r, Nat.add_0_r.
  - rewrite <-!app_assoc in Hdrop.
    destruct (Ht i ws _ Hws Hdrop (spaced_ends ts k)) as (Hne & (j & x & Hx & Hb) & Hread).
    destruct (tok_peek i j x Hx) as (sp' & r & -> & _ & Hr). cbn [and_then returns].
    destruct (Hread fuel) as (d' & Hrd & Hu); [lia |].
    assert (drop (i + length ws + length t) s = spaced_from (lit " ") ts ++ lit ")" ++ k) as Hd2.
    { apply (drop_app_step s _ t). by apply (drop_app_step s _ ws). }
    assert (0 < length t) by (destruct t; [done | cbn; lia]).
    pose proof (f_equal length Hdrop) as Hl. rewrite length_drop, !length_app in Hl.
    destruct (IH (i + length ws + length t) (lit " ") k fuel open (acc ++ [d']) gap_space Hd2 ltac:(lia))
      as (l' & sp & Hloop & Hul).
    exists (d' :: l'), sp. split; [| cbn; by rewrite Hu, Hul].
    assert (required open (read fuel r syms) = returns (rd (i + length ws + length t)) syms d') as Hreq
      by (unfold required; by rewrite Hr, Hrd).
    rewrite <-app_assoc in Hloop. cbn [app] in Hloop. destruct x; try done; rewrite Hreq; cbn [and_then returns];
      rewrite Hloop; apply at_pos; rewrite !length_app; lia.
Qed.

Lemma vector_text l ts sp : Forall2 text_reads l ts →
  text_reads (DVector l sp) (lit "#(" ++ spaced ts ++ lit ")").
Proof.
  intros Hts i ws k Hws Hdrop Hk. rewrite spaced_spaced_from in *. rewrite <-!app_assoc in Hdrop.
  pose proof (vector_tok i ws _ Hws Hdrop) as Htok. split_and!; [done | by eexists _, _ |]. intros fuel Hf.
  destruct (tok_next _ _ _ Htok) as (sp' & Hn).
  assert (drop (i + length ws + 2) s = spaced_from [] ts ++ lit ")" ++ k) as Hd2.
  { apply (drop_app_step s _ (lit "#(")). by apply (drop_app_step s _ ws). }
  pose proof (f_equal length Hdrop) as Hl. rewrite length_drop, !length_app in Hl. cbn in Hl.
  destruct fuel as [|[|fuel]]; [lia | lia |]. rewrite read_S, Hn. cbn [and_then returns].
  destruct (vector_items l ts Hts (i + length ws + 2) [] k fuel sp' [] gap_nil Hd2 ltac:(lia)) as (l' & sp2 & Hloop & Hu).
  exists (DVector l' sp2). split; [| cbn; by rewrite Hu].
  change (read_token (S fuel) (rd (i + length ws + 2)) syms HashLParen sp')
    with (vector_loop fuel (rd (i + length ws + 2)) syms sp' []). rewrite Hloop. cbn [and_then returns app].
  apply at_pos. rewrite !length_app. cbn. lia.
Qed.

(** The byte a numeral below 256 denotes. *)
Lemma byte_number (b : byte) : parse_number (B := B) (R := R) (decimal (Byte.to_N b)) = Some (Fixnum (Z.of_N (Byte.to_N b))).
Proof.
  replace (decimal (Byte.to_N b)) with (decimal_Z (Z.of_N (Byte.to_N b))).
  - apply parse_integer_text, denotes_fixnum. pose proof (Byte.to_N_bounded b) as Hb. cbn in Hb.
    unfold in_i64, i64_min, i64_max. lia.
  - unfold decimal_Z. rewrite bool_decide_eq_false_2 by lia. f_equal. lia.
Qed.

Lemma bytevector_items t : ∀ i ws k fuel open acc, gap ws →
  drop i s = spaced_from ws ((λ b, decimal (Byte.to_N b)) <$> t) ++ lit ")" ++ k → length s - i < fuel →
  ∃ sp, bytevector_loop fuel (rd i) syms open acc =
        returns (rd (i + length (spaced_from ws ((λ b, decimal (Byte.to_N b)) <$> t)) + 1)) syms
                (DByteVector (acc ++ t) sp).
Proof.
  induction t as [|b t IH]; intros i ws k fuel open acc Hws Hdrop Hf;
    (destruct fuel as [|fuel]; [lia |]); cbn [bytevector_loop]; cbn [fmap list_fmap spaced_from] in *.
  - destruct (tok_peek i _ _ (rparen_tok i k Hdrop)) as (sp & r & -> & Hn & _). cbn [and_then returns].
    rewrite Hn. cbn [and_then returns length]. exists (merge open sp). by rewrite app_nil_r, Nat.add_0_r.
  - rewrite <-!app_assoc in Hdrop. set (u := decimal (Byte.to_N b)) in *.
    destruct (decimal_digits (Byte.to_N b)) as [Hne Hdig]. fold u in Hne, Hdig.
    assert (numeric u) as Hnum by (left; by exists [], u; auto).
    assert (tok i (i + length ws + length u) (TNumber (Fixnum (Z.of_N (Byte.to_N b))))) as Htok.
    { eexists. by apply (number_text f s Hs i ws u _ syms _ Hws Hdrop Hnum (spaced_ends _ k) (byte_number b)). }
    destruct (tok_peek _ _ _ Htok) as (sp & r & -> & Hn & _). cbn [and_then returns].
    rewrite Hn. cbn [and_then returns]. pose proof (Byte.to_N_bounded b) as Hb. cbn in Hb.
    rewrite bool_decide_eq_true_2 by lia. rewrite N2Z.id, byte_of_to_N.
    assert (drop (i + length ws + length u) s =
            spaced_from (lit " ") ((λ b, decimal (Byte.to_N b)) <$> t) ++ lit ")" ++ k) as Hd2.
    { apply (drop_app_step s _ u). by apply (drop_app_step s _ ws). }
    assert (0 < length u) by (destruct u; [done | cbn; lia]).
    pose proof (f_equal length Hdrop) as Hl. rewrite length_drop, !length_app in Hl.
    destruct (IH (i + length ws + length u) (lit " ") k fuel open (acc ++ [b]) gap_space Hd2 ltac:(lia)) as (sp2 & Hloop).
    exists sp2. rewrite Hloop, <-app_assoc. apply at_pos. rewrite !length_app. lia.
Qed.

Lemma bytevector_text t sp :
  text_reads (DByteVector t sp) (lit "#u8(" ++ spaced ((λ b, decimal (Byte.to_N b)) <$> t) ++ lit ")").
Proof.
  intros i ws k Hws Hdrop Hk. rewrite spaced_spaced_from in *. rewrite <-!app_assoc in Hdrop.
  pose proof (bytevector_tok i ws _ Hws Hdrop) as Htok. split_and!; [done | by eexists _, _ |]. intros fuel Hf.
  destruct (tok_next _ _ _ Htok) as (sp' & Hn). set (u := spaced_from [] _) in *.
  assert (drop (i + length ws + 4) s = u ++ lit ")" ++ k) as Hd2.
  { apply (drop_app_step s _ (lit "#u8(")). by apply (drop_app_step s _ ws). }
  pose proof (f_equal length Hdrop) as Hl. rewrite length_drop, !length_app in Hl. cbn in Hl.
  destruct fuel as [|[|fuel]]; [lia | lia |]. rewrite read_S, Hn. cbn [and_then returns].
  destruct (bytevector_items t (i + length ws + 4) [] k fuel sp' [] gap_nil Hd2 ltac:(lia)) as (sp2 & Hloop).
  exists (DByteVector t sp2). split; [| done].
  change (read_token (S fuel) (rd (i + length ws + 4)) syms HashU8LParen sp')
    with (bytevector_loop fuel (rd (i + length ws + 4)) syms sp' []). rewrite Hloop. cbn [and_then returns app].
  apply at_pos. fold u. rewrite !length_app. cbn. lia.
Qed.

(** ** Every datum of readable atoms *)

Lemma render_reads (atom : Datum → option bytes) (ok : Datum → Prop) d :
  (∀ d t, atomic d = true → ok d → atom d = Some t → text_reads d t) → built ok d →
  (∀ t, render atom false d = Some t → text_reads d t) ∧
  (∀ t, render atom true d = Some t → tail_reads d t).
Proof.
  intros Hatom. assert (∀ d, atomic d = true → built ok d →
    (∀ t, render atom false d = Some t → text_reads d t) ∧ (∀ t, render atom true d = Some t → tail_reads d t)) as Hat.
  { intros d0 Ha Hb. assert (ok d0) as Hok by (by inversion Hb; subst).
    split; intros t (u & Hu & ->)%render_atom; try done; [by apply Hatom | by apply dotted_tail, Hatom]. }
  induction d as [| | | | |sp|a d sp IHa IHd|l sp IHl|] using datum_induction; try (by apply Hat); intros Hr.
  - split; intros t [= <-]; [apply null_text | apply null_tail].
  - inversion Hr as [| |??? Ha Hd|]; subst; [done |]. destruct (IHa Ha) as [IHa1 _], (IHd Hd) as [_ IHd2].
    split; intros t (car & cdr & Hcar & Hcdr & ->)%render_pair; [apply pair_text | apply pair_tail]; auto;
      intros k; by eapply tail_ends.
  - inversion Hr as [| | |?? Hl]; subst; [done |].
    assert (∀ ts, Forall2 (λ d t, render atom false d = Some t) l ts → Forall2 text_reads l ts) as Hts.
    { intros ts. clear -IHl Hl. revert ts. induction IHl as [|d l Hd _ IH]; intros ts Hts; inversion_clear Hts; [constructor |].
      inversion_clear Hl. constructor; [by apply Hd | by apply IH]. }
    split; intros t (ts & Hf & ->)%render_vector; [| apply dotted_tail]; apply vector_text; auto.
Qed.

(** ** The atoms *)

Lemma boolean_text b sp : text_reads (DBoolean b sp) (if b then lit "#t" else lit "#f").
Proof.
  apply atom_text; [| by destruct b]. intros i ws k Hws Hdrop Hk.
  exists (TBoolean b). split_and!; [| done | by eauto]. destruct b; [by eapply true_tok | by eapply false_tok].
Qed.

Lemma number_text_reads shortest n sp : readable_number n → text_reads (DNumber n sp) (display shortest n).
Proof.
  intros Hn. destruct (display_readable shortest n Hn) as [Hnum Hparse]. apply atom_text.
  - intros i ws k Hws Hdrop Hk. exists (TNumber n). split_and!; [| done | by eauto].
    eexists. by apply (number_text f s Hs i ws _ k).
  - destruct (numeric_parts _ Hnum) as (sg & ds & fr & -> & _ & Hne & _). by destruct sg, ds.
Qed.

Lemma character_reads c sp : scalar c → text_reads (DCharacter c sp) (lit "#\" ++ encode_char c).
Proof.
  intros Hc. apply atom_text; [| done]. intros i ws k Hws Hdrop Hk.
  exists (TCharacter c). split_and!; [| done | by eauto].
  rewrite <-app_assoc in Hdrop. eexists. by apply (character_text f s Hs i ws c k).
Qed.

Lemma string_reads t cs sp : spells t cs → text_reads (DString (utf8 cs) sp) (dquote :: t ++ [dquote]).
Proof.
  intros Hsp. apply atom_text; [| done]. intros i ws k Hws Hdrop Hk.
  exists (TString (utf8 cs)). split_and!; [| done | by eauto]. eexists. by apply (string_text f s Hs i ws t cs k).
Qed.

Lemma symbol_known y n : table_ok syms → SymbolTable.name syms y = Some n → SymbolTable.lookup_name syms n = Some y.
Proof. intros Ht Hn. apply lookup_name_names; [done |]. by rewrite <-name_names. Qed.

Lemma symbol_reads y n sp : table_ok syms → SymbolTable.name syms y = Some n → plain_name n = true →
  text_reads (DSymbol y sp) n.
Proof.
  intros Ht Hn Hp. apply atom_text; [| by intros ->]. intros i ws k Hws Hdrop Hk.
  exists (TIdentifier y). split_and!; [| done | by eauto].
  eexists. apply (identifier_text f s Hs i ws _ k); try done. by apply symbol_known.
Qed.

End source.

(** Texts that are valid and read back are read back by [read_all]. *)
Lemma read_all_text file d t : str_ok t → text_reads file t d t →
  ∃ d', read_all file t syms = Some (syms, inr [d']) ∧ unspan d' = unspan d.
Proof.
  intros Hok Hreads. destruct (Hreads 0 [] []) as (Hne & _ & Hread); [by left | by rewrite app_nil_r | done |].
  destruct (Hread (read_fuel t)) as (d' & Hd' & Hu); [unfold read_fuel; lia |]. exists d'. split; [| done].
  unfold read_all. destruct t as [|b t]; [done |]. cbn [length read_all_loop]. unfold reader_new, lexer_new.
  rewrite Hd'. cbn [returns]. remember (b :: t) as u.
  destruct (tok_next file u _ _ TEof (ex_intro _ _ (next_token_end file u (length u) [] syms gap_nil
    ltac:(by rewrite drop_all)))) as (sp & Hn).
  assert (∃ n, read_fuel u = S n) as [n ->] by (exists (3 * length u + 2); unfold read_fuel; lia).
  change (0 + length (A := byte) [] + length u) with (length u). rewrite read_S, Hn. done.
Qed.

Lemma render_roundtrip (atom : Datum → option bytes) (ok : Datum → Prop) file d t :
  (∀ d t, ok d → atom d = Some t → str_ok t) →
  (∀ s d t, str_ok s → atomic d = true → ok d → atom d = Some t → text_reads file s d t) →
  built ok d → render atom false d = Some t →
  ∃ d', read_all file t syms = Some (syms, inr [d']) ∧ unspan d' = unspan d.
Proof.
  intros Hstr Hatom Hb Ht. assert (str_ok t) as Hok by (by eapply render_ok).
  apply read_all_text; [done |]. apply (render_reads file t atom ok d); [| done | done].
  intros. by eapply Hatom.
Qed.

(** ** [format_datum] *)

Definition format_atom (shortest : f64 → bytes) (d : Datum) : option bytes :=
  match d with
  | DBoolean b _ => Some (if b then lit "#t" else lit "#f")
  | DNumber n _ => Some (display shortest n)
  | DCharacter c _ => Some (lit "#\" ++ encode_char c)
  | DString t _ => Some ([dquote] ++ t ++ [dquote])
  | DSymbol s _ => SymbolTable.name syms s
  | DByteVector t _ => Some (lit "#u8(" ++ spaced ((λ b, decimal (Byte.to_N b)) <$> t) ++ lit ")")
  | _ => None
  end.

Lemma format_render shortest d : ∀ in_list, format shortest syms in_list d = render (format_atom shortest) in_list d.
Proof.
  induction d as [| | | | | |a d s IHa IHd|l s IHl|] using datum_induction; intros in_list; cbn [format render]; try done.
  - by rewrite IHa, IHd.
  - f_equal. induction IHl as [|d l Hd _ IH]; [done |]. cbn. by rewrite Hd, IH.
Qed.

(** A string that needs no escapes. *)
Definition plain_string (t : bytes) : Prop :=
  ∃ cs, t = utf8 cs ∧ Forall (λ c, scalar c ∧ c ≠ 34%N ∧ c ≠ 92%N) cs.

(** Atoms whose text is read back. *)
Definition readable_atom (d : Datum) : Prop :=
  match d with
  | DNumber n _ => readable_number n
  | DCharacter c _ => scalar c
  | DString t _ => plain_string t
  | DSymbol y _ => ∃ n, SymbolTable.name syms y = Some n ∧ plain_name n = true ∧ str_ok n
  | _ => True
  end.

Lemma plain_spells t : plain_string t → ∃ cs, t = utf8 cs ∧ spells t cs.
Proof.
  intros (cs & -> & Hcs). exists cs. split; [done |].
  induction Hcs as [|c cs (Hc & H34 & H92) _ IH]; [constructor |]. rewrite utf8_cons. by constructor.
Qed.

Lemma plain_str_ok t : plain_string t → str_ok t.
Proof.
  intros (cs & -> & Hcs). exists cs. split; [| done]. eapply Forall_impl; [done |]. by intros c [Hc _].
Qed.

Lemma format_atom_ok shortest d t : readable_atom d → format_atom shortest d = Some t → str_ok t.
Proof.
  destruct d as [b s|n s|c s|u s|y s|s|a d s|l s|u s]; cbn [readable_atom format_atom]; try done; intros Hr Ht.
  - injection Ht as <-. destruct b; lit_ok.
  - injection Ht as <-. apply numeric_str_ok. by apply display_readable.
  - injection Ht as <-. apply (str_ok_app (lit "#\")); [lit_ok | by apply str_ok_encode].
  - injection Ht as <-. apply (str_ok_app [dquote]); [lit_ok |]. apply str_ok_app; [by apply plain_str_ok | lit_ok].
  - destruct Hr as (n & Hn & _ & Hok). by simplify_eq.
  - injection Ht as <-. apply (str_ok_app (lit "#u8(")); [lit_ok |]. apply str_ok_app; [apply spaced_ok | lit_ok].
    apply Forall_fmap, Forall_forall. intros. apply decimal_ok.
Qed.

Lemma format_atom_reads shortest file s d t : table_ok syms → str_ok s → atomic d = true →
  readable_atom d → format_atom shortest d = Some t → text_reads file s d t.
Proof.
  intros Hsyms Hs. destruct d as [b sp|n sp|c sp|u sp|y sp|sp|a d sp|l sp|u sp]; cbn [readable_atom format_atom];
    try done; intros _ Hr Ht.
  - injection Ht as <-. by apply boolean_text.
  - injection Ht as <-. by apply number_text_reads.
  - injection Ht as <-. by apply character_reads.
  - injection Ht as <-. destruct (plain_spells u Hr) as (cs & -> & Hsp). by apply string_reads.
  - destruct Hr as (n & Hn & Hp & _). simplify_eq. by apply symbol_reads.
  - injection Ht as <-. by apply bytevector_text.
Qed.

(** C25: reading a printed datum gives it back, up to the spans, and nothing else;
    no symbol is added to the table.  The datum is built of pairs, empty
    lists, vectors and bytevectors from atoms whose text is theirs alone:
    strings without quotes and backslashes (which are printed as they are),
    symbols of the table whose names lex as identifiers, integers, fractions
    with 64-bit parts, characters and booleans. *)
Theorem read_format_roundtrip shortest file d t :
  table_ok syms → built readable_atom d → format_datum shortest syms d = Some t →
  ∃ d', read_all file t syms = Some (syms, inr [d']) ∧ unspan d' = unspan d.
Proof.
  intros Hsyms Hb Ht. unfold format_datum in Ht. rewrite format_render in Ht.
  eapply render_roundtrip; [intros; by eapply format_atom_ok | | exact Hb | exact Ht].
  intros. by eapply format_atom_reads.
Qed.

End datums.
