(* ===== verification/Writer.v ===== *)
(** * Writing values

    The external representation of values, [Value::write_to] of
    [crates/cs-core/src/value.rs], and the values of datums, [Datum::to_value] of
    [crates/cs-parse/src/lib.rs].  The writer remembers the pairs and vectors
    it is inside of, so that it ends on cyclic data; [write_fuel] is enough for
    any heap, as [WriterFacts] shows.

    [None] stands for a panic: a symbol of another table, or a dangling
    address, which the types of the code exclude.  What a port is is not part
    of the heap of [GcHeap], so it is an argument, and so is how the standard
    library prints a flonum with a fraction and quotes a path. *)

From stdpp Require Import base numbers gmap sorting list fin_sets.
From Stdlib Require Import ZArith Strings.Byte.
From S2P Require Import Prelude RaftTypes Float64 BigNum Number Trial GcHeap Equal Text Symbols Diag Lexer Reader.

Local Open Scope crab_scope.
Local Open Scope N_scope.

(** [enum WriteMode]. *)
Inductive WriteMode := Write | Display.

(** [enum Port], as far as it shows. *)
Inductive PortKind :=
  | StringInput
  | StringOutput
  | ByteVectorInput
  | ByteVectorOutput
  | FileOutput (path : bytes)
  | Stdout.

(** [escape_string], on the characters of the string: only ASCII characters are
    replaced, so it works on bytes. *)
Definition escape_byte (b : byte) : bytes :=
  if b ≟ dquote then ["\"%byte; dquote]
  else if b ≟ "\"%byte then ["\"%byte; "\"%byte]
  else if b ≟ x0a then ["\"%byte; "n"%byte]
  else if b ≟ x09 then ["\"%byte; "t"%byte]
  else if b ≟ x0d then ["\"%byte; "r"%byte]
  else [b].

Definition escape_string (s : bytes) : bytes := s ≫= escape_byte.

(** A character in write mode. *)
Definition write_char (c : N) : bytes :=
  lit "#\" ++ (if c ≟ 32 then lit "space"
               else if c ≟ 10 then lit "newline"
               else if c ≟ 9 then lit "tab"
               else if c ≟ 13 then lit "return"
               else if c ≟ 0 then lit "nul"
               else encode_char c).

Section writer.
Context {B R : Type} `{BigInt B} `{BigRational R B}.
Context (shortest : f64 → bytes) (quote_path : bytes → bytes) (port_kind : addr → PortKind).

Notation Value := (Value (Leaf B R)).
Notation Pair := (Pair (Leaf B R)).
Notation Heap := (gmap addr (Cell (Leaf B R))).
Notation Datum := (Datum B R).

(** ** The writer *)

Section heap.
Context (h : Heap) (syms : SymbolTable) (mode : WriteMode).

Definition write_leaf (l : Leaf B R) : option bytes :=
  match l with
  | Eof => Some (lit "#<eof>")
  | Boolean b => Some (if b then lit "#t" else lit "#f")
  | Character c => Some (match mode with Write => write_char c | Display => encode_char c end)
  | Numeric n => Some (display shortest n)
  | Symbol s => SymbolTable.name syms s
  | Identifier name _ => SymbolTable.name syms name
  end.

Definition write_string (s : bytes) : bytes :=
  match mode with Write => [dquote] ++ escape_string s ++ [dquote] | Display => s end.

Definition write_port (k : PortKind) : bytes :=
  match k with
  | StringInput => lit "#<input-port>"
  | StringOutput => lit "#<output-port>"
  | ByteVectorInput => lit "#<binary-input-port>"
  | ByteVectorOutput => lit "#<binary-output-port>"
  | FileOutput path => lit "#<file-output-port " ++ quote_path path ++ lit ">"
  | Stdout => lit "#<stdout-port>"
  end.

Definition write_bytes (s : bytes) : bytes :=
  lit "#vu8(" ++ spaced ((λ b, decimal (Byte.to_N b)) <$> s) ++ lit ")".

(** The loop over the items of a vector, with a space before all but the first. *)
Definition write_items (write : Value → gset addr → option (bytes * gset addr)) :=
  fix go (sep : bytes) (items : list Value) (visited : gset addr) : option (bytes * gset addr) :=
    match items with
    | [] => Some ([], visited)
    | v :: items =>
        '(t, visited) ← write v visited;
        '(u, visited) ← go (lit " ") items visited;
        mret (sep ++ t ++ u, visited)
    end.

(** [write_to_visited] with [write_pair]; [pair_loop] is the loop of
    [write_pair_inner] from the car and the cdr it holds.  The result has the
    set of visited addresses, which the code passes by reference. *)
Fixpoint write_value (fuel : nat) (v : Value) (visited : gset addr) : option (bytes * gset addr) :=
  match fuel with
  | O => None
  | S fuel =>
      match v with
      | VNull => Some (lit "()", visited)
      | VUnspecified => Some (lit "#<unspecified>", visited)
      | VLeaf l => t ← write_leaf l; mret (t, visited)
      | VString a => s ← string_at h a; mret (write_string s, visited)
      | VPair a =>
          if decide (a ∈ visited) then Some (lit "(...)", visited)
          else
            p ← pair_at h a;
            '(t, visited) ← pair_loop fuel (car h p) (cdr h p) ({[a]} ∪ visited);
            mret (lit "(" ++ t ++ lit ")", visited ∖ {[a]})
      | VVector a =>
          if decide (a ∈ visited) then Some (lit "#(...)", visited)
          else
            vec ← vector_at h a;
            '(t, visited) ← write_items (write_value fuel) [] (vc_items vec) ({[a]} ∪ visited);
            mret (lit "#(" ++ t ++ lit ")", visited ∖ {[a]})
      | VByteVector a => s ← bytevector_at h a; mret (write_bytes s, visited)
      | VHashtable a =>
          t ← table_at h a;
          mret (lit "#<hashtable size=" ++ decimal (N.of_nat (length (ht_items t))) ++ lit ">", visited)
      | VPort a => Some (write_port (port_kind a), visited)
      | VPromise _ => Some (lit "#<promise>", visited)
      end
  end
with pair_loop (fuel : nat) (cur_car cur_cdr : Value) (visited : gset addr) : option (bytes * gset addr) :=
  match fuel with
  | O => None
  | S fuel =>
      '(t, visited) ← write_value fuel cur_car visited;
      match cur_cdr with
      | VNull => mret (t, visited)
      | VPair next =>
          if decide (next ∈ visited) then mret (t ++ lit " . #<cycle>", visited)
          else
            p ← pair_at h next;
            '(u, visited) ← pair_loop fuel (car h p) (cdr h p) ({[next]} ∪ visited);
            mret (t ++ lit " " ++ u, visited)
      | other =>
          '(u, visited) ← write_value fuel other visited;
          mret (t ++ lit " . " ++ u, visited)
      end
  end.

(** Two calls for each cell that can be entered, and one for the value. *)
Definition write_fuel : nat := 2 * size h + 1.

(** [Value::write_to]. *)
Definition write_to (v : Value) : option bytes := fst <$> write_value write_fuel v ∅.

End heap.

(** [Value::format_with]. *)
Definition format_with (h : Heap) (v : Value) (syms : SymbolTable) (mode : WriteMode) : option bytes :=
  write_to h syms mode v.

(** ** From datums to values *)

(** The heap, and the side table of the spans of pairs. *)
Record Store := MkStore { s_heap : Heap; s_spans : gmap addr Span }.

(** [Gc::new], with no sweep pending: a new cell with one owner. *)
Definition gc_new (o : Object (Leaf B R)) (s : Store) : addr * Store :=
  let a := fresh (dom (s_heap s)) in (a, MkStore (<[a := MkCell 1 o]> (s_heap s)) (s_spans s)).

(** [Pair::with_source]. *)
Definition with_source (a d : Value) (sp : Span) (s : Store) : addr * Store :=
  let '(p, s) := gc_new (pair_new a d) s in (p, MkStore (s_heap s) (<[p := sp]> (s_spans s))).

(** The items of a vector, from the left. *)
Definition map_values (f : Datum → Store → Value * Store) :=
  fix go (l : list Datum) (s : Store) : list Value * Store :=
    match l with
    | [] => ([], s)
    | d :: l => let '(v, s) := f d s in let '(vs, s) := go l s in (v :: vs, s)
    end.

(** [Datum::to_value]. *)
Fixpoint to_value (d : Datum) (s : Store) : Value * Store :=
  match d with
  | DBoolean b _ => (VLeaf (Boolean b), s)
  | DNumber n _ => (VLeaf (Numeric n), s)
  | DCharacter c _ => (VLeaf (Character c), s)
  | DString t _ => let '(a, s) := gc_new (OString t) s in (VString a, s)
  | DSymbol y _ => (VLeaf (Symbol y), s)
  | DNull _ => (VNull, s)
  | DPair a d sp =>
      let '(car_v, s) := to_value a s in
      let '(cdr_v, s) := to_value d s in
      let '(p, s) := with_source car_v cdr_v sp s in
      (VPair p, s)
  | DVector l _ =>
      let '(vs, s) := map_values to_value l s in
      let '(a, s) := gc_new (OVector (MkVector vs ∅)) s in
      (VVector a, s)
  | DByteVector t _ => let '(a, s) := gc_new (OByteVector t) s in (VByteVector a, s)
  end.

End writer.
