(* ===== verification/WriterFacts.v ===== *)
(** * The writer ends

    Writing a value of any heap, cyclic or not, returns: each nested call is
    inside one more pair or vector than its caller, and a heap has finitely
    many. *)

From stdpp Require Import base numbers gmap sorting list fin_sets.
From Stdlib Require Import ZArith Strings.Byte.
From S2P Require Import Prelude RaftTypes Float64 BigNum Number Trial GcHeap GcFacts Equal Text Symbols Diag Lexer Reader Writer.

Local Open Scope crab_scope.
Local Open Scope nat_scope.

Section facts.
Context {B R : Type} `{BigInt B} `{BigRational R B}.
Context (shortest : f64 → bytes) (quote_path : bytes → bytes) (port_kind : addr → PortKind).
Context (h : gmap addr (Cell (Leaf B R))) (syms : SymbolTable) (mode : WriteMode).

Notation Value := (Value (Leaf B R)).
Notation write_value := (write_value shortest quote_path port_kind h syms mode).
Notation pair_loop := (pair_loop shortest quote_path port_kind h syms mode).

(** ** The equations of the mutual recursion *)

Lemma write_pair_S fuel a visited :
  write_value (S fuel) (VPair a) visited =
  if decide (a ∈ visited) then Some (lit "(...)", visited)
  else
    p ← pair_at h a;
    '(t, visited) ← pair_loop fuel (car h p) (cdr h p) ({[a]} ∪ visited);
    mret (lit "(" ++ t ++ lit ")", visited ∖ {[a]}).
Proof. done. Qed.

Lemma write_vector_S fuel a visited :
  write_value (S fuel) (VVector a) visited =
  if decide (a ∈ visited) then Some (lit "#(...)", visited)
  else
    vec ← vector_at h a;
    '(t, visited) ← write_items (write_value fuel) [] (vc_items vec) ({[a]} ∪ visited);
    mret (lit "#(" ++ t ++ lit ")", visited ∖ {[a]}).
Proof. done. Qed.

Lemma pair_loop_S fuel a d visited :
  pair_loop (S fuel) a d visited =
  '(t, visited) ← write_value fuel a visited;
  match d with
  | VNull => mret (t, visited)
  | VPair next =>
      if decide (next ∈ visited) then mret (t ++ lit " . #<cycle>", visited)
      else
        p ← pair_at h next;
        '(u, visited) ← pair_loop fuel (car h p) (cdr h p) ({[next]} ∪ visited);
        mret (t ++ lit " " ++ u, visited)
  | other =>
      '(u, visited) ← write_value fuel other visited;
      mret (t ++ lit " . " ++ u, visited)
  end.
Proof. done. Qed.

(** ** Termination *)

(** A value whose address is a cell of its kind, and whose symbol is known. *)
Definition shown (v : Value) : Prop :=
  match v with
  | VLeaf (Symbol s) | VLeaf (Identifier s _) => is_Some (SymbolTable.name syms s)
  | VString a => is_Some (string_at h a)
  | VByteVector a => is_Some (bytevector_at h a)
  | VPair a => is_Some (pair_at h a)
  | VVector a => is_Some (vector_at h a)
  | VHashtable a => is_Some (table_at h a)
  | _ => True
  end.

(** The values of pairs and vectors are such values. *)
Definition all_shown : Prop :=
  (∀ a p, pair_at h a = Some p → shown (car h p) ∧ shown (cdr h p)) ∧
  (∀ a v, vector_at h a = Some v → Forall shown (vc_items v)).

Context (Hall : all_shown).

(** The cells that can still be entered. *)
Definition unvisited (visited : gset addr) : nat := size (dom h ∖ visited).

Lemma unvisited_mono v w : v ⊆ w → unvisited w ≤ unvisited v.
Proof. intros Hvw. unfold unvisited. apply subseteq_size. set_solver. Qed.

Lemma unvisited_enter a visited : a ∈ dom h → a ∉ visited → unvisited ({[a]} ∪ visited) < unvisited visited.
Proof. intros Ha Hv. unfold unvisited. apply subset_size. set_solver. Qed.

(** A call that returns and forgets no address it was given. *)
Definition writes (visited : gset addr) (r : option (bytes * gset addr)) : Prop :=
  ∃ t visited', r = Some (t, visited') ∧ visited ⊆ visited'.

Lemma writes_ok visited t : writes visited (Some (t, visited)).
Proof. by exists t, visited. Qed.

Lemma write_items_cons (write : Value → gset addr → option (bytes * gset addr)) sep v items visited :
  write_items write sep (v :: items) visited =
  '(t, visited) ← write v visited; '(u, visited) ← write_items write (lit " ") items visited;
  mret (sep ++ t ++ u, visited).
Proof. done. Qed.

Lemma write_items_total fuel n :
  (∀ v visited, shown v → unvisited visited ≤ n → writes visited (write_value fuel v visited)) →
  ∀ items sep visited, Forall shown items → unvisited visited ≤ n →
    writes visited (write_items (write_value fuel) sep items visited).
Proof.
  intros Hw items. induction items as [|v items IH]; intros sep visited Hi Hn; [apply writes_ok |].
  apply Forall_cons in Hi as [Hv Hi]. destruct (Hw v visited Hv Hn) as (t & v1 & Heq & Hsub).
  rewrite write_items_cons, Heq. cbn [mbind option_bind]. pose proof (unvisited_mono _ _ Hsub).
  destruct (IH (lit " ") v1 Hi ltac:(lia)) as (u & v2 & -> & Hsub2). eexists _, _. split; [done |]. set_solver.
Qed.

Lemma write_total fuel :
  (∀ v visited, shown v → 2 * unvisited visited + 1 ≤ fuel → writes visited (write_value fuel v visited)) ∧
  (∀ a d visited, shown a → shown d → 2 * unvisited visited + 2 ≤ fuel →
     writes visited (pair_loop fuel a d visited)).
Proof.
  induction fuel as [|fuel [IHw IHl]]; [split; intros; lia |]. split.
  - intros v visited Hv Hf. destruct v as [| |l|a|a|a|a|a|a|a]; cbn in Hv; try apply writes_ok.
    + cbn. assert (is_Some (write_leaf shortest syms mode l)) as [t ->] by (by destruct l; done || eexists).
      apply writes_ok.
    + destruct Hv as [s Hs]. cbn. rewrite Hs. apply writes_ok.
    + destruct Hv as [s Hs]. cbn. rewrite Hs. apply writes_ok.
    + rewrite write_pair_S. case_decide as Hin; [apply writes_ok |]. destruct Hv as [p Hp]. rewrite Hp. cbn [mbind option_bind].
      destruct Hall as [Hpairs _]. destruct (Hpairs a p Hp) as [Hcar Hcdr].
      pose proof (unvisited_enter a visited (pair_at_dom a p Hp) Hin).
      destruct (IHl (car h p) (cdr h p) ({[a]} ∪ visited)) as (t & v2 & -> & Hsub); [done | done | lia |].
      eexists _, _. split; [done |]. set_solver.
    + rewrite write_vector_S. case_decide as Hin; [apply writes_ok |]. destruct Hv as [vec Hp]. rewrite Hp. cbn [mbind option_bind].
      destruct Hall as [_ Hvecs]. pose proof (unvisited_enter a visited (vector_at_dom a vec Hp) Hin).
      destruct (write_items_total fuel (unvisited visited - 1)) with (items := vc_items vec) (sep := [] : bytes)
        (visited := {[a]} ∪ visited) as (t & v2 & -> & Hsub);
        [intros v w Hv Hn; apply IHw; [done | lia] | by eapply Hvecs | lia |].
      eexists _, _. split; [done |]. set_solver.
    + destruct Hv as [t Ht]. cbn. rewrite Ht. apply writes_ok.
  - intros a d visited Ha Hd Hf. rewrite pair_loop_S.
    destruct (IHw a visited Ha ltac:(lia)) as (t & v1 & -> & Hsub). cbn [mbind option_bind].
    pose proof (unvisited_mono _ _ Hsub) as Hle.
    assert (writes visited (mret (t, v1))) as Hend by (by exists t, v1).
    assert (writes visited ('(u, v2) ← write_value fuel d v1; mret (t ++ lit " . " ++ u, v2))) as Hdot.
    { destruct (IHw d v1 Hd ltac:(lia)) as (u & v2 & -> & Hsub2). eexists _, _. split; [done |]. set_solver. }
    destruct d as [| | | | |next| | | |]; try done. case_decide as Hin; [by eexists _, _ |].
    destruct Hd as [p Hp]. rewrite Hp. cbn [mbind option_bind].
    destruct Hall as [Hpairs _]. destruct (Hpairs _ p Hp) as [Hcar Hcdr].
    pose proof (unvisited_enter next v1 (pair_at_dom next p Hp) Hin).
    destruct (IHl (car h p) (cdr h p) ({[next]} ∪ v1)) as (u & v2 & -> & Hsub2); [done | done | lia |].
    eexists _, _. split; [done |]. set_solver.
Qed.

(** C28: writing a value returns, on every heap whose addresses and symbols are
    those of cells and of the table, whatever cycles the heap has. *)
Theorem writing_terminates v : shown v → is_Some (write_to shortest quote_path port_kind h syms mode v).
Proof.
  intros Hv. unfold write_to, write_fuel.
  destruct (proj1 (write_total (2 * size h + 1)) v ∅ Hv) as (t & v1 & -> & _); [| by eexists].
  unfold unvisited. rewrite difference_empty_L, size_dom. lia.
Qed.

End facts.
