(* ===== verification/WriterText.v ===== *)
(** * Writing the value of a datum, and reading it back

    [Datum::to_value] builds a tree of new cells; writing such a tree in write
    mode gives a text that [read_all] reads as the datum again. *)

From stdpp Require Import base numbers gmap sorting list fin_sets.
From Stdlib Require Import ZArith QArith Strings.Byte.
From S2P Require Import Prelude RaftTypes Float64 BigNum Number NumberFacts Trial GcHeap GcFacts Equal Text Symbols Diag Lexer LexerFacts LexerText LexerAtoms Reader ReaderFacts ReaderText Writer WriterFacts.

Local Open Scope crab_scope.
Local Open Scope nat_scope.

Section trees.
Context {B R : Type} `{HB : BigInt B, HBL : !BigIntLaws B, HR : !BigRational R B, HRL : !BigRationalLaws R B}.

Notation Value := (Value (Leaf B R)).
Notation Heap := (gmap addr (Cell (Leaf B R))).
Notation Store := (Store (B := B) (R := R)).
Notation Datum := (Datum B R).

(** ** Trees of cells *)

(** [v] is the tree of the datum in the heap; [F] are its pairs and vectors,
    none of which it shares. *)
Inductive tree (h : Heap) : Value → Datum → gset addr → Prop :=
  | tree_boolean b s : tree h (VLeaf (Boolean b)) (DBoolean b s) ∅
  | tree_number n s : tree h (VLeaf (Numeric n)) (DNumber n s) ∅
  | tree_character c s : tree h (VLeaf (Character c)) (DCharacter c s) ∅
  | tree_symbol y s : tree h (VLeaf (Symbol y)) (DSymbol y s) ∅
  | tree_null s : tree h VNull (DNull s) ∅
  | tree_string a t s : string_at h a = Some t → tree h (VString a) (DString t s) ∅
  | tree_bytes a t s : bytevector_at h a = Some t → tree h (VByteVector a) (DByteVector t s) ∅
  | tree_pair a va vd d e s F G :
      pair_at h a = Some (MkPair va vd None None) → tree h va d F → tree h vd e G →
      a ∉ F ∪ G → F ## G → tree h (VPair a) (DPair d e s) ({[a]} ∪ (F ∪ G))
  | tree_vector a vs l s F :
      vector_at h a = Some (MkVector vs ∅) → trees h vs l F → a ∉ F →
      tree h (VVector a) (DVector l s) ({[a]} ∪ F)
with trees (h : Heap) : list Value → list Datum → gset addr → Prop :=
  | trees_nil : trees h [] [] ∅
  | trees_cons v vs d l F G : tree h v d F → trees h vs l G → F ## G → trees h (v :: vs) (d :: l) (F ∪ G).

Scheme tree_mut := Induction for tree Sort Prop with trees_mut := Induction for trees Sort Prop.
Combined Scheme tree_trees_ind from tree_mut, trees_mut.

Lemma pair_at_mono (h h' : Heap) a p : h ⊆ h' → pair_at h a = Some p → pair_at h' a = Some p.
Proof.
  intros Hsub. unfold pair_at. destruct (h !! a) as [c|] eqn:Ha; [| done]. by rewrite (lookup_weaken _ _ _ _ Ha Hsub).
Qed.

Lemma vector_at_mono (h h' : Heap) a p : h ⊆ h' → vector_at h a = Some p → vector_at h' a = Some p.
Proof.
  intros Hsub. unfold vector_at. destruct (h !! a) as [c|] eqn:Ha; [| done]. by rewrite (lookup_weaken _ _ _ _ Ha Hsub).
Qed.

Lemma string_at_mono (h h' : Heap) a p : h ⊆ h' → string_at h a = Some p → string_at h' a = Some p.
Proof.
  intros Hsub. unfold string_at. destruct (h !! a) as [c|] eqn:Ha; [| done]. by rewrite (lookup_weaken _ _ _ _ Ha Hsub).
Qed.

Lemma bytevector_at_mono (h h' : Heap) a p : h ⊆ h' → bytevector_at h a = Some p → bytevector_at h' a = Some p.
Proof.
  intros Hsub. unfold bytevector_at. destruct (h !! a) as [c|] eqn:Ha; [| done]. by rewrite (lookup_weaken _ _ _ _ Ha Hsub).
Qed.

(** A tree stays one in a larger heap. *)
Lemma tree_mono (h h' : Heap) : h ⊆ h' →
  (∀ v d F, tree h v d F → tree h' v d F) ∧ (∀ vs l F, trees h vs l F → trees h' vs l F).
Proof.
  intros Hsub. apply (tree_trees_ind h (λ v d F _, tree h' v d F) (λ vs l F _, trees h' vs l F));
    intros; econstructor; eauto using pair_at_mono, vector_at_mono, string_at_mono, bytevector_at_mono.
Qed.

(** ** The value of a datum is a tree *)

Lemma gc_new_spec o (s : Store) a s' : gc_new o s = (a, s') →
  a ∉ dom (s_heap s) ∧ s_heap s' = <[a := MkCell 1 o]> (s_heap s) ∧ s_heap s ⊆ s_heap s'.
Proof.
  intros [= <- <-]. assert (fresh (dom (s_heap s)) ∉ dom (s_heap s)) as Hf by apply is_fresh.
  split_and!; [done | done |]. apply insert_subseteq. by apply not_elem_of_dom.
Qed.

(** What building a value does to the heap: it adds a tree of new cells. *)
Definition adds (s : Store) (F : gset addr) (s' : Store) : Prop :=
  s_heap s ⊆ s_heap s' ∧ F ## dom (s_heap s) ∧ F ⊆ dom (s_heap s').

Lemma adds_none (s s' : Store) : s_heap s ⊆ s_heap s' → adds s ∅ s'.
Proof. intros. split_and!; [done | set_solver | set_solver]. Qed.

Lemma adds_trans (s1 s2 s3 : Store) F G : adds s1 F s2 → adds s2 G s3 → adds s1 (F ∪ G) s3 ∧ F ## G.
Proof.
  intros (H12 & HF & HF2) (H23 & HG & HG3). apply subseteq_dom in H12 as D12. apply subseteq_dom in H23 as D23.
  split; [split_and!; [by etrans | set_solver | set_solver] | set_solver].
Qed.

Lemma adds_cell (s1 s2 s3 : Store) F o a : adds s1 F s2 → gc_new o s2 = (a, s3) →
  adds s1 ({[a]} ∪ F) s3 ∧ a ∉ F ∧ s_heap s2 ⊆ s_heap s3 ∧ s_heap s3 !! a = Some (MkCell 1 o).
Proof.
  intros (H12 & HF & HF2) Hnew. destruct (gc_new_spec _ _ _ _ Hnew) as (Ha & Hs & Hsub).
  apply subseteq_dom in H12 as D12. split_and!; [split_and! | set_solver | done |].
  - by etrans.
  - set_solver.
  - rewrite Hs, dom_insert_L. set_solver.
  - rewrite Hs. by rewrite lookup_insert_eq.
Qed.

Lemma map_values_cons (g : Datum → Store → Value * Store) d l s :
  map_values g (d :: l) s = let '(v, s) := g d s in let '(vs, s) := map_values g l s in (v :: vs, s).
Proof. done. Qed.

Lemma to_value_tree d : ∀ s v s', to_value d s = (v, s') → ∃ F, tree (s_heap s') v d F ∧ adds s F s'.
Proof.
  induction d as [b sp|n sp|c sp|t sp|y sp|sp|a d sp IHa IHd|l sp IHl|t sp] using datum_induction;
    intros s v s' Hv; cbn [to_value] in Hv; try (simplify_eq; exists ∅; split; [by constructor | by apply adds_none]).
  - destruct (gc_new (OString t) s) as [a s1] eqn:Hn. simplify_eq.
    destruct (gc_new_spec _ _ _ _ Hn) as (Ha & Hs & Hsub). exists ∅. split; [| by apply adds_none].
    constructor. unfold string_at. by rewrite Hs, lookup_insert_eq.
  - destruct (to_value a s) as [va s1] eqn:Hva. destruct (to_value d s1) as [vd s2] eqn:Hvd. unfold with_source in Hv.
    destruct (gc_new (pair_new va vd) s2) as [p s3] eqn:Hn. simplify_eq. cbn [s_heap].
    destruct (IHa s va s1 Hva) as (F & HF & AF). destruct (IHd s1 vd s2 Hvd) as (G & HG & AG).
    destruct (adds_trans _ _ _ _ _ AF AG) as [Ad Hdisj].
    destruct (adds_cell _ _ _ _ _ _ Ad Hn) as (Ad3 & Hp & Hsub & Hl).
    destruct AG as (Hsub2 & _). exists ({[p]} ∪ (F ∪ G)). split; [| done].
    eapply tree_pair; [unfold pair_at; by rewrite Hl | | | done | done].
    + eapply tree_mono; [| done]. by etrans.
    + by eapply tree_mono.
  - assert (∀ s vs s', map_values to_value l s = (vs, s') → ∃ F, trees (s_heap s') vs l F ∧ adds s F s') as Hl.
    { clear s v s' Hv sp. induction IHl as [|d l Hd _ IH]; intros s vs s' Hv.
      - cbn in Hv. simplify_eq. exists ∅. split; [constructor | by apply adds_none].
      - rewrite map_values_cons in Hv. destruct (to_value d s) as [v s1] eqn:Hv1.
        destruct (map_values to_value l s1) as [ws s2] eqn:Hv2. simplify_eq.
        destruct (Hd s v s1 Hv1) as (F & HF & AF). destruct (IH s1 ws s' Hv2) as (G & HG & AG).
        destruct (adds_trans _ _ _ _ _ AF AG) as [Ad Hdisj]. destruct AG as (Hsub & _).
        exists (F ∪ G). split; [| done]. constructor; [by eapply tree_mono | done | done]. }
    destruct (map_values to_value l s) as [vs s1] eqn:Hvs.
    destruct (gc_new (OVector (MkVector vs ∅)) s1) as [a s2] eqn:Hn. simplify_eq.
    destruct (Hl s vs s1 Hvs) as (F & HF & AF). destruct (adds_cell _ _ _ _ _ _ AF Hn) as (Ad & Ha & Hsub & Hla).
    exists ({[a]} ∪ F). split; [| done].
    eapply tree_vector; [unfold vector_at; by rewrite Hla | by eapply tree_mono | done].
  - destruct (gc_new (OByteVector t) s) as [a s1] eqn:Hn. simplify_eq.
    destruct (gc_new_spec _ _ _ _ Hn) as (Ha & Hs & Hsub). exists ∅. split; [| by apply adds_none].
    constructor. unfold bytevector_at. by rewrite Hs, lookup_insert_eq.
Qed.

(** ** The text of a tree *)

Section text.
Context (shortest : f64 → bytes) (quote_path : bytes → bytes) (port_kind : addr → PortKind).
Context (h : Heap) (syms : SymbolTable).

Notation write_value := (write_value shortest quote_path port_kind h syms Write).
Notation pair_loop := (pair_loop shortest quote_path port_kind h syms Write).

(** The text of an atom in write mode. *)
Definition write_atom (d : Datum) : option bytes :=
  match d with
  | DBoolean b _ => Some (if b then lit "#t" else lit "#f")
  | DNumber n _ => Some (display shortest n)
  | DCharacter c _ => Some (write_char c)
  | DString t _ => Some ([dquote] ++ escape_string t ++ [dquote])
  | DSymbol s _ => SymbolTable.name syms s
  | DByteVector t _ => Some (write_bytes t)
  | _ => None
  end.

(** What [pair_loop] does with the cdr it holds. *)
Definition write_tail (fuel : nat) (d : Value) (visited : gset addr) : option (bytes * gset addr) :=
  match d with
  | VNull => Some ([], visited)
  | VPair next =>
      if decide (next ∈ visited) then Some (lit " . #<cycle>", visited)
      else
        p ← pair_at h next;
        '(u, visited) ← pair_loop fuel (car h p) (cdr h p) ({[next]} ∪ visited);
        mret (lit " " ++ u, visited)
  | other =>
      '(u, visited) ← write_value fuel other visited;
      mret (lit " . " ++ u, visited)
  end.

Lemma pair_loop_tail fuel a d visited :
  pair_loop (S fuel) a d visited =
  '(t, visited) ← write_value fuel a visited;
  '(u, visited) ← write_tail fuel d visited;
  mret (t ++ u, visited).
Proof.
  rewrite pair_loop_S. destruct (write_value fuel a visited) as [[t v]|]; [| done]. cbn [mbind option_bind].
  destruct d as [| | | | |next| | | |]; cbn [write_tail mbind option_bind]; try (by destruct (write_value fuel _ v) as [[u w]|]).
  - by rewrite app_nil_r.
  - case_decide; [done |]. destruct (pair_at h next) as [p|]; [| done]. cbn [mbind option_bind].
    by destruct (pair_loop fuel _ _ _) as [[u w]|].
Qed.

(** A call that writes [t] and adds only addresses of [F]. *)
Definition writes_text (t : bytes) (F visited : gset addr) (r : option (bytes * gset addr)) : Prop :=
  ∃ visited', r = Some (t, visited') ∧ visited ⊆ visited' ∧ visited' ⊆ visited ∪ F.

Lemma writes_text_same t visited : writes_text t ∅ visited (Some (t, visited)).
Proof. exists visited. set_solver. Qed.

Lemma grow_trans (v v1 v2 F G : gset addr) :
  v ⊆ v1 → v1 ⊆ v ∪ F → v1 ⊆ v2 → v2 ⊆ v1 ∪ G → v ⊆ v2 ∧ v2 ⊆ v ∪ (F ∪ G).
Proof. intros ????. split; set_solver. Qed.

(** The pair of two trees, entered at its address. *)
Lemma pair_loop_trees fuel va vd F G a visited ta td :
  (∀ visited fuel, F ## visited → 2 * size F + 1 ≤ fuel → writes_text ta F visited (write_value fuel va visited)) →
  (∀ visited fuel, G ## visited → 2 * size G + 1 ≤ fuel → writes_text td G visited (write_tail fuel vd visited)) →
  a ∉ F ∪ G → F ## G → {[a]} ∪ (F ∪ G) ## visited → 2 * size (F ∪ G) + 2 ≤ fuel →
  writes_text (ta ++ td) (F ∪ G) ({[a]} ∪ visited) (pair_loop fuel va vd ({[a]} ∪ visited)).
Proof.
  intros HW HL Ha Hdisj Hvis Hf. rewrite size_union in Hf by done.
  destruct fuel as [|fuel]; [lia |]. rewrite pair_loop_tail.
  destruct (HW ({[a]} ∪ visited) fuel) as (v1 & -> & Hs1 & Hs1'); [set_solver | lia |]. cbn [mbind option_bind].
  destruct (HL v1 fuel) as (v2 & -> & Hs2 & Hs2'); [set_solver | lia |]. cbn [mbind option_bind].
  exists v2. split; [done |]. by eapply grow_trans.
Qed.

(** Writing [v] as the datum [d], whole and as the rest of a list. *)
Definition writes_datum (v : Value) (d : Datum) (F : gset addr) : Prop :=
  (∀ t visited fuel, render write_atom false d = Some t → F ## visited → 2 * size F + 1 ≤ fuel →
     writes_text t F visited (write_value fuel v visited)) ∧
  (∀ t visited fuel, render write_atom true d = Some t → F ## visited → 2 * size F + 1 ≤ fuel →
     writes_text t F visited (write_tail fuel v visited)).

Definition writes_data (vs : list Value) (l : list Datum) (F : gset addr) : Prop :=
  ∀ ts sep visited fuel, Forall2 (λ d t, render write_atom false d = Some t) l ts →
    F ## visited → 2 * size F + 1 ≤ fuel →
    writes_text (spaced_from sep ts) F visited (write_items (write_value fuel) sep vs visited).

Lemma write_atom_tree v d : (∀ next, v ≠ VPair next) → v ≠ VNull → atomic d = true →
  (∀ fuel visited, write_value (S fuel) v visited = t ← write_atom d; mret (t, visited)) → writes_datum v d ∅.
Proof.
  intros Hnp Hnn Ha Hw. split; intros t visited fuel Ht _ Hf; (destruct fuel as [|fuel]; [lia |]);
    destruct (render_atom write_atom _ d t Ha Ht) as (u & Hu & ->).
  - rewrite Hw, Hu. apply writes_text_same.
  - assert (write_tail (S fuel) v visited = '(u, w) ← write_value (S fuel) v visited; mret (lit " . " ++ u, w)) as ->.
    { destruct v; try done. by destruct (Hnp a). }
    rewrite Hw, Hu. apply writes_text_same.
Qed.

Lemma write_pair_tree a va vd d e s F G :
  pair_at h a = Some (MkPair va vd None None) → writes_datum va d F → writes_datum vd e G →
  a ∉ F ∪ G → F ## G → writes_datum (VPair a) (DPair d e s) ({[a]} ∪ (F ∪ G)).
Proof.
  intros Hp [WF _] [_ LG] Ha Hdisj.
  assert (size ({[a]} ∪ (F ∪ G)) = S (size (F ∪ G))) as Hsz by (rewrite size_union, size_singleton by set_solver; lia).
  split; intros t visited fuel (ta & td & Hta & Htd & ->)%render_pair Hvis Hf; rewrite Hsz in Hf.
  - destruct fuel as [|fuel]; [lia |]. rewrite write_pair_S, decide_False by set_solver. rewrite Hp.
    destruct (pair_loop_trees fuel va vd F G a visited ta td) as (v1 & Heq & Hs1 & Hs2);
      try done; [by intros; apply WF | by intros; apply LG | lia |].
    cbn [mbind option_bind car cdr pr_car_weak pr_cdr_weak pr_car pr_cdr]. rewrite Heq. cbn [mbind option_bind].
    eexists. split; [by rewrite <-app_assoc |]. split; set_solver.
  - cbn [write_tail]. rewrite decide_False by set_solver. rewrite Hp.
    destruct (pair_loop_trees fuel va vd F G a visited ta td) as (v1 & Heq & Hs1 & Hs2);
      try done; [by intros; apply WF | by intros; apply LG | lia |].
    cbn [mbind option_bind car cdr pr_car_weak pr_cdr_weak pr_car pr_cdr]. rewrite Heq. cbn [mbind option_bind].
    eexists. split; [done |]. split; set_solver.
Qed.

Lemma write_vector_tree a vs l s F :
  vector_at h a = Some (MkVector vs ∅) → writes_data vs l F → a ∉ F →
  writes_datum (VVector a) (DVector l s) ({[a]} ∪ F).
Proof.
  intros Hv IH Ha.
  assert (size ({[a]} ∪ F) = S (size F)) as Hsz by (rewrite size_union, size_singleton by set_solver; lia).
  assert (∀ ts visited fuel, Forall2 (λ d t, render write_atom false d = Some t) l ts → {[a]} ∪ F ## visited →
    2 * S (size F) + 1 ≤ fuel →
    writes_text (lit "#(" ++ spaced ts ++ lit ")") ({[a]} ∪ F) visited (write_value fuel (VVector a) visited)) as Hvec.
  { intros ts visited fuel Hts Hvis Hf. destruct fuel as [|fuel]; [lia |].
    rewrite write_vector_S, decide_False by set_solver. rewrite Hv. cbn [mbind option_bind vc_items].
    destruct (IH ts [] ({[a]} ∪ visited) fuel Hts) as (v1 & -> & Hs1 & Hs2); [set_solver | lia |].
    cbn [mbind option_bind]. rewrite spaced_spaced_from. eexists. split; [done |]. split; set_solver. }
  split; intros t visited fuel (ts & Hts & ->)%render_vector Hvis Hf; rewrite Hsz in Hf; [by apply Hvec |].
  cbn [write_tail]. destruct (Hvec ts visited fuel Hts Hvis Hf) as (v1 & -> & Hs1 & Hs2). by exists v1.
Qed.

Lemma write_cons_trees v vs d l F G :
  writes_datum v d F → writes_data vs l G → F ## G → writes_data (v :: vs) (d :: l) (F ∪ G).
Proof.
  intros [WF _] IH Hdisj ts sep visited fuel Hts Hvis Hf.
  inversion_clear Hts as [|? t ? ts' Ht Hts']. rewrite size_union in Hf by done. rewrite write_items_cons.
  destruct (WF t visited fuel Ht) as (v1 & -> & Hs1 & Hs1'); [set_solver | lia |]. cbn [mbind option_bind].
  destruct (IH ts' (lit " ") v1 fuel Hts') as (v2 & -> & Hs2 & Hs2'); [set_solver | lia |]. cbn [mbind option_bind].
  exists v2. split; [done |]. by eapply grow_trans.
Qed.

Lemma write_tree :
  (∀ v d F, tree h v d F → writes_datum v d F) ∧ (∀ vs l F, trees h vs l F → writes_data vs l F).
Proof.
  apply (tree_trees_ind h (λ v d F _, writes_datum v d F) (λ vs l F _, writes_data vs l F)).
  - intros. by apply write_atom_tree.
  - intros. by apply write_atom_tree.
  - intros. by apply write_atom_tree.
  - intros. by apply write_atom_tree.
  - intros s. split; intros t visited fuel [= <-] _ Hf; (destruct fuel as [|fuel]; [lia |]); apply writes_text_same.
  - intros a t s Hs. apply write_atom_tree; try done. intros. cbn. by rewrite Hs.
  - intros a t s Hs. apply write_atom_tree; try done. intros. cbn. by rewrite Hs.
  - intros. by apply write_pair_tree with va vd.
  - intros. by apply write_vector_tree with vs.
  - intros ts sep visited fuel Hts _ _. inversion_clear Hts. apply writes_text_same.
  - intros. by apply write_cons_trees.
Qed.

End text.

(** ** Written atoms are read back *)

Lemma escape_plain b : b ∉ [dquote; "\"%byte; x0a; x09; x0d] → escape_byte b = [b].
Proof.
  intros Hb. rewrite !not_elem_of_cons in Hb. destruct Hb as (H1 & H2 & H3 & H4 & H5 & _).
  unfold escape_byte. by rewrite !bool_decide_eq_false_2 by done.
Qed.

Lemma escape_string_app t u : escape_string (t ++ u) = escape_string t ++ escape_string u.
Proof. apply bind_app. Qed.

Lemma escape_bytes t : Forall (λ b, b ∉ [dquote; "\"%byte; x0a; x09; x0d]) t → escape_string t = t.
Proof.
  induction 1 as [|b t Hb _ IH]; [done |]. unfold escape_string in *. cbn [mbind list_bind].
  by rewrite (escape_plain b Hb), IH.
Qed.

(** Bytes of a character that is none of the escaped ones. *)
Lemma encode_plain c : scalar c → c ∉ [34; 92; 10; 9; 13]%N →
  Forall (λ b, b ∉ [dquote; "\"%byte; x0a; x09; x0d]) (encode_char c).
Proof.
  intros Hc Hn. destruct (encode_char_shape c Hc) as (b & bs & He & Hb & Hbs). rewrite He. constructor.
  - intros Hin. assert (Byte.to_N b < 128 ∧ Byte.to_N b ∈ [34; 92; 10; 9; 13])%N as [Hl Hin'].
    { repeat (apply elem_of_cons in Hin as [->|Hin]; [split; [done | by vm_compute; set_solver] |]).
      by apply elem_of_nil in Hin. }
    destruct (encode_char_ascii_inv c b bs Hc He Hl) as [_ ->]. done.
  - eapply Forall_impl; [done |]. intros x Hx Hin.
    repeat (apply elem_of_cons in Hin as [->|Hin]; [done |]). by apply elem_of_nil in Hin.
Qed.

(** The escaped form of any string spells it. *)
Lemma escape_spells cs : Forall scalar cs → spells (escape_string (utf8 cs)) cs.
Proof.
  induction 1 as [|c cs Hc _ IH]; [constructor |]. rewrite utf8_cons, escape_string_app.
  destruct (decide (c ∈ [34; 92; 10; 9; 13]%N)) as [Hin|Hn].
  - repeat (apply elem_of_cons in Hin as [->|Hin]; [by apply spells_escape |]). by apply elem_of_nil in Hin.
  - rewrite (escape_bytes _ (encode_plain c Hc Hn)). apply spells_char; [done | set_solver | set_solver | done].
Qed.

Definition writable_atom (syms : SymbolTable) (d : Datum) : Prop :=
  match d with
  | DNumber n _ => readable_number n
  | DCharacter c _ => scalar c
  | DString t _ => str_ok t
  | DSymbol y _ => ∃ n, SymbolTable.name syms y = Some n ∧ plain_name n = true ∧ str_ok n
  | DByteVector _ _ => False
  | _ => True
  end.

(** A named character, which holds no delimiter. *)
Lemma named_reads syms file s b bs c sp : str_ok s →
  Forall (λ b, is_delimiter b = false) bs → character_of_name (b :: bs) = Some c →
  text_reads syms file s (DCharacter c sp) (lit "#\" ++ b :: bs).
Proof.
  intros Hs Hbs Hc. apply atom_text; [| done]. intros i ws k Hws Hdrop Hk.
  exists (TCharacter c). split_and!; [| done | by eauto]. rewrite <-app_assoc in Hdrop.
  eexists. by apply (character_name_text file s Hs i ws b bs c k).
Qed.

Lemma write_char_reads syms file s c sp : str_ok s → scalar c → text_reads syms file s (DCharacter c sp) (write_char c).
Proof.
  intros Hs Hc. unfold write_char.
  repeat (case_bool_decide as Heq; [subst c; by apply named_reads; [| repeat constructor |] | clear Heq]).
  by apply character_reads.
Qed.

Lemma write_char_ok c : scalar c → str_ok (write_char c).
Proof.
  intros Hc. apply str_ok_app; [apply str_ok_ascii; by repeat constructor |].
  repeat (case_bool_decide; [apply str_ok_ascii; by repeat constructor |]). by apply str_ok_encode.
Qed.

Lemma spells_ok t cs : spells t cs → str_ok t.
Proof.
  induction 1 as [|c t cs Hc _ _ _ IH|e c t cs He _ IH]; [by exists [] | |].
  - apply str_ok_app; [by apply str_ok_encode | done].
  - apply (str_ok_app ["\"%byte; e]); [| done]. apply str_ok_ascii. repeat constructor.
    eapply escaped_ascii; [| done]. by vm_compute.
Qed.

Lemma write_atom_ok shortest syms d t : writable_atom syms d → write_atom shortest syms d = Some t → str_ok t.
Proof.
  destruct d as [b s|n s|c s|u s|y s|s|a d s|l s|u s]; cbn [writable_atom write_atom]; try done; intros Hr Ht.
  - injection Ht as <-. apply str_ok_ascii. by destruct b; repeat constructor.
  - injection Ht as <-. apply numeric_str_ok. by apply display_readable.
  - injection Ht as <-. by apply write_char_ok.
  - injection Ht as <-. destruct Hr as (cs & Hcs & ->). apply (str_ok_app [dquote]); [apply str_ok_ascii; by repeat constructor |].
    apply str_ok_app; [by eapply spells_ok, escape_spells | apply str_ok_ascii; by repeat constructor].
  - destruct Hr as (n & Hn & _ & Hok). by simplify_eq.
Qed.

Lemma write_atom_reads shortest syms file s d t : table_ok syms → str_ok s → atomic d = true →
  writable_atom syms d → write_atom shortest syms d = Some t → text_reads syms file s d t.
Proof.
  intros Hsyms Hs. destruct d as [b sp|n sp|c sp|u sp|y sp|sp|a d sp|l sp|u sp]; cbn [writable_atom write_atom];
    try done; intros _ Hr Ht.
  - injection Ht as <-. by apply boolean_text.
  - injection Ht as <-. by apply number_text_reads.
  - injection Ht as <-. by apply write_char_reads.
  - injection Ht as <-. destruct Hr as (cs & Hcs & ->). by apply string_reads, escape_spells.
  - destruct Hr as (n & Hn & Hp & _). simplify_eq. by apply symbol_reads.
Qed.

Lemma render_total (atom : Datum → option bytes) (ok : Datum → Prop) d :
  (∀ d, atomic d = true → ok d → is_Some (atom d)) → built ok d → ∀ in_list, is_Some (render atom in_list d).
Proof.
  intros Hatom. assert (∀ d, atomic d = true → built ok d → ∀ in_list, is_Some (render atom in_list d)) as Hat.
  { intros d0 Ha Hb in_list. assert (ok d0) as Hok by (by inversion Hb; subst).
    destruct (Hatom d0 Ha Hok) as [t Ht]. destruct d0; try done; cbn [render]; rewrite Ht; by eexists. }
  induction d as [| | | | |sp|a d sp IHa IHd|l sp IHl|] using datum_induction; try (by apply Hat); intros Hr in_list.
  - by eexists.
  - inversion Hr as [| |??? Ha Hd|]; subst; [done |]. cbn [render].
    destruct (IHa Ha false) as [car ->], (IHd Hd true) as [cdr ->]. by eexists.
  - inversion Hr as [| | |?? Hl]; subst; [done |]. cbn [render].
    assert (is_Some (mapM (render atom false) l)) as [ts ->]; [| by eexists].
    apply mapM_is_Some. clear -IHl Hl. induction IHl as [|d l Hd _ IH]; [constructor |].
    inversion_clear Hl. constructor; [by apply Hd | by apply IH].
Qed.

Lemma tree_dom (h : Heap) : (∀ v d F, tree h v d F → F ⊆ dom h) ∧ (∀ vs l F, trees h vs l F → F ⊆ dom h).
Proof.
  apply (tree_trees_ind h (λ _ _ F _, F ⊆ dom h) (λ _ _ F _, F ⊆ dom h)); intros; try (clear; set_solver).
  - apply pair_at_dom in e0. set_solver.
  - apply vector_at_dom in e. set_solver.
  - set_solver.
Qed.

Section roundtrip.
Context (shortest : f64 → bytes) (quote_path : bytes → bytes) (port_kind : addr → PortKind) (syms : SymbolTable).

(** C24: the value of a datum, written in write mode and read again, is the datum:
    the cells that [to_value] makes, the writer that keeps track of them, the
    lexer and the reader compose to the identity, up to spans. *)
Theorem write_read_roundtrip file d s v s' :
  table_ok syms → built (writable_atom syms) d → to_value d s = (v, s') →
  ∃ t d', format_with shortest quote_path port_kind (s_heap s') v syms Write = Some t ∧
          read_all file t syms = Some (syms, inr [d']) ∧ unspan d' = unspan d.
Proof.
  intros Hsyms Hb Hv. destruct (to_value_tree d s v s' Hv) as (F & HF & _).
  destruct (render_total (write_atom shortest syms) (writable_atom syms) d) with (in_list := false) as [t Ht]; [| done |].
  { intros d0 Ha Hw. destruct d0; try done; try (by eexists). destruct Hw as (n & Hn & _). by exists n. }
  destruct (proj1 (proj1 (write_tree shortest quote_path port_kind (s_heap s') syms) v d F HF) t ∅
    (write_fuel (s_heap s')) Ht) as (w & Hw & _); [set_solver | |].
  { unfold write_fuel. pose proof (subseteq_size _ _ (proj1 (tree_dom (s_heap s')) v d F HF)) as Hsz.
    rewrite size_dom in Hsz. lia. }
  destruct (render_roundtrip syms (write_atom shortest syms) (writable_atom syms) file d t) as (d' & Hd' & Hu);
    [intros; by eapply write_atom_ok | intros; by eapply write_atom_reads | done | done |].
  exists t, d'. split_and!; [| done | done]. unfold format_with, write_to. by rewrite Hw.
Qed.

End roundtrip.

End trees.
