(* ===== verification/ReaderExample.v ===== *)
(** * Reading and writing at work

    The theorems about symbols, diagnostics, the lexer, the reader and the
    writer applied to concrete texts and heaps, and texts on which the code does
    not do what its comments say: the prefix [#d], characters in hexadecimal
    with a semicolon, a datum comment at the end of a list, and written values
    that do not read back. *)

From stdpp Require Import base numbers gmap list.
From Stdlib Require Import ZArith QArith Qcanon Strings.Byte.
From S2P Require Import Prelude RaftTypes Float64 BigNum Number NumberFacts Trial GcHeap Equal.
From S2P Require Import Text Symbols Diag Lexer LexerFacts Reader ReaderFacts LexerText LexerAtoms ReaderText.
From S2P Require Import Writer WriterFacts WriterText.

Local Open Scope crab_scope.
Local Open Scope N_scope.

#[local] Notation leaf := (Leaf Z Qc).
#[local] Notation value := (Value leaf).
#[local] Notation heap := (gmap addr (Cell leaf)).
#[local] Notation datum := (Datum Z Qc).

Definition no_flonums : f64 → bytes := λ _, [].

(** ** Symbols and source positions *)

Definition two_names : SymbolTable := intern_all SymbolTable.new [lit "quote"; lit "x"].

Lemma interned_ok t n : table_ok t → has_room t → table_ok (SymbolTable.intern t n).1.
Proof. intros Ht Hr. destruct (SymbolTable.intern t n) as [t' s] eqn:Hi. by eapply intern_names_spec. Qed.

Lemma two_names_ok : table_ok two_names.
Proof. apply interned_ok; [apply interned_ok; [apply new_ok | by vm_compute] | by vm_compute]. Qed.

Lemma interner_refines_list_witness :
  (names (SymbolTable.intern two_names (lit "y")).1, 2) = intern_names [lit "quote"; lit "x"] (lit "y").
Proof.
  pose proof (interner_refines_list two_names (lit "y") _ _ two_names_ok ltac:(by vm_compute) eq_refl)
    as (_ & _ & Hs & _).
  exact Hs.
Defined.

Lemma base_symbols_shared_witness :
  ∃ n, SymbolTable.name (intern_all (SymbolTable.with_base two_names) [lit "y"]) 1 = Some n ∧
       SymbolTable.name (intern_all (SymbolTable.with_base two_names) [lit "z"]) 1 = Some n.
Proof.
  destruct (base_symbols_shared two_names [lit "y"] [lit "z"] 1 two_names_ok) as [_ Hs].
  destruct (Hs ltac:(by vm_compute)) as (n & H1 & H2 & _). by exists n.
Defined.

(** A file of two lines. *)
Definition two_lines : bytes := lit "(a" ++ [x0a] ++ lit " b)".

Definition one_file : list SourceFile := (add [] (lit "t.scm") two_lines).1.

Lemma line_col_walks_text_witness :
  line_col one_file (MkSpan 0 4 5) = Some (walk (take 4 two_lines)) ∧ walk (take 4 two_lines) = (2, 2).
Proof.
  split; [| by vm_compute].
  by apply (line_col_walks_text [] (lit "t.scm") two_lines one_file 0 4 5); [by vm_compute.. | vm_compute; lia].
Defined.

Lemma ascii_text t : forallb (λ b, bool_decide (Byte.to_N b < 128)) t = true → str_ok t.
Proof.
  intros Ht. apply str_ok_ascii, Forall_forall. intros b Hb.
  rewrite forallb_forall in Ht. specialize (Ht b). rewrite <-list_elem_of_In in Ht.
  exact (bool_decide_eq_true_1 _ (Ht Hb)).
Qed.

Lemma one_file_ok : Forall file_ok one_file.
Proof. apply Forall_singleton. by split. Qed.

Lemma one_file_str : Forall (λ f, str_ok (sf_contents f)) one_file.
Proof. apply Forall_singleton. by apply ascii_text. Qed.

Lemma foreign_spans_render_witness :
  is_Some (render_with (error (lit "elsewhere") (MkSpan 0 90 95)) one_file false).
Proof.
  destruct (foreign_spans_render one_file (error (lit "elsewhere") (MkSpan 0 90 95)) false one_file_ok one_file_str)
    as [H _]; [by vm_compute | by vm_compute | exact H].
Defined.

(** ** Lexing and reading *)

Definition lex_sample : bytes := lit "(f |g h| 1/2 #\a) ;c".

Lemma lex_all_covers_text_witness :
  (∃ syms r, lex_all (B := Z) (R := Qc) 0 lex_sample two_names = Some (syms, r) ∧
    match r with
    | inr tokens => laid 0 lex_sample 0 two_names tokens syms
    | inl errors => errors ≠ [] ∧ Forall (inside 0 lex_sample 0 (length lex_sample)) errors
    end) ∧
  match lex_all (B := Z) (R := Qc) 0 lex_sample two_names with
  | Some (_, inr tokens) => length tokens = 7%nat
  | _ => False
  end.
Proof.
  split; [| by vm_compute].
  exact (lex_all_covers_text 0 lex_sample (ascii_text lex_sample eq_refl) two_names).
Defined.

Lemma read_all_returns_witness :
  ∃ syms r, read_all (B := Z) (R := Qc) 0 (lit "(1 . #(2)) '") two_names = Some (syms, r) ∧
    match r with inl errors => length errors = 1%nat | inr data => (length data ≤ 12)%nat end.
Proof. exact (read_all_returns 0 (lit "(1 . #(2)) '") (ascii_text (lit "(1 . #(2)) '") eq_refl) two_names). Defined.

(** The list [(quote #(x "a\n") . 1/2)], with no spans. *)
Definition no_span : Span := dummy_span.

Definition half : Number Z Qc := Rat (Q2Qc (1 # 2)).

Definition sample (text : bytes) : datum :=
  DPair (DSymbol 0 no_span)
    (DPair (DVector [DSymbol 1 no_span; DString text no_span] no_span)
      (DPair (DNumber half no_span) (DNumber (Fixnum 7) no_span) no_span) no_span) no_span.

Lemma half_readable : readable_number half.
Proof. right. exists (Q2Qc (1 # 2)). by split_and!. Qed.

Lemma seven_readable : readable_number (Fixnum 7 : Number Z Qc).
Proof. left. exists 7%Z. by apply denotes_fixnum. Qed.

Lemma sample_built (ok : datum → Prop) text :
  ok (DSymbol 0 no_span) → ok (DSymbol 1 no_span) → ok (DString text no_span) →
  (∀ n, readable_number n → ok (DNumber n no_span)) → built ok (sample text).
Proof.
  intros H0 H1 Ht Hn.
  apply built_pair; [by apply built_atom |]. apply built_pair; [apply built_vector; repeat constructor; done |].
  apply built_pair; (apply built_atom; [done |]; apply Hn); [apply half_readable | apply seven_readable].
Qed.

Lemma known_symbol y n : SymbolTable.name two_names y = Some n → plain_name n = true →
  forallb (λ b, bool_decide (Byte.to_N b < 128)) n = true →
  ∃ n, SymbolTable.name two_names y = Some n ∧ plain_name n = true ∧ str_ok n.
Proof. intros. exists n. split_and!; [done | done | by apply ascii_text]. Qed.

Lemma read_format_roundtrip_witness :
  ∃ t d', format_datum no_flonums two_names (sample (lit "a")) = Some t ∧
          read_all 0 t two_names = Some (two_names, inr [d']) ∧ unspan d' = unspan (sample (lit "a")).
Proof.
  destruct (format_datum no_flonums two_names (sample (lit "a"))) as [t|] eqn:Ht; [| by vm_compute in Ht].
  destruct (read_format_roundtrip two_names no_flonums 0 (sample (lit "a")) t two_names_ok) as (d' & H1 & H2);
    [| exact Ht | by exists t, d'].
  apply sample_built; [by apply (known_symbol 0 (lit "quote")) | by apply (known_symbol 1 (lit "x")) | | done].
  exists [97]. split; [done |]. apply Forall_singleton. split; [apply (bool_decide_unpack (scalar 97)); by vm_compute | done].
Defined.

(** ** Writing *)

Definition paths : bytes → bytes := λ p, p.
Definition ports : addr → PortKind := λ _, Stdout.
Definition empty_store : Store (B := Z) (R := Qc) := MkStore ∅ ∅.

(** A string with a quote and a line break in it. *)
Definition awkward : bytes := [dquote; x0a].

Lemma write_read_roundtrip_witness :
  ∃ t d', format_with no_flonums paths ports (s_heap (to_value (sample awkward) empty_store).2)
            (to_value (sample awkward) empty_store).1 two_names Write = Some t ∧
          read_all 0 t two_names = Some (two_names, inr [d']) ∧ unspan d' = unspan (sample awkward).
Proof.
  apply (write_read_roundtrip no_flonums paths ports two_names 0 (sample awkward) empty_store);
    [apply two_names_ok | | by destruct (to_value _ _)].
  apply sample_built; [by apply (known_symbol 0 (lit "quote")) | by apply (known_symbol 1 (lit "x")) | | done].
  by apply ascii_text.
Defined.

Definition fixed (z : Z) : value := VLeaf (Numeric (Fixnum z)).

(** A circular list. *)
Definition circle : heap := {[ 1 := MkCell 2 (pair_new (fixed 7) (VPair 1)) ]}.

Lemma writing_terminates_witness : is_Some (write_to no_flonums paths ports circle two_names Write (VPair 1)).
Proof.
  apply (writing_terminates no_flonums paths ports circle two_names Write); [| by eexists].
  split; intros a x Hx; unfold pair_at, vector_at, circle in Hx;
    (destruct (decide (a = 1)) as [->|Hn]; [| by rewrite lookup_singleton_ne in Hx]);
    rewrite lookup_singleton_eq in Hx; [| done].
  injection Hx as <-. split; [done | by eexists].
Defined.

(** ** Texts the reader does not read *)

Definition read_text (t : bytes) : option (list ReaderError + list datum) := snd <$> read_all 0 t two_names.

Definition integer (z : Z) : datum := DNumber (Fixnum z) no_span.

Definition pair_of (a b : datum) : datum := DPair a (DPair b (DNull no_span) no_span) no_span.

(** The comment on [#d] says that the prefix is consumed and the number read
    normally; the text that is parsed still has the prefix, so that every such
    number is an error. *)
Theorem decimal_prefix_rejected :
  ∃ sp, read_text (lit "#d10") = Some (inl [LexFailure (BadNumber sp (lit "#d10"))]).
Proof. eexists. by vm_compute. Qed.

(** The comment on characters in hexadecimal says that a semicolon after the
    digits is accepted; it begins a comment, here of the rest of the list. *)
Theorem hex_character_begins_comment :
  ∃ sp, read_text (lit "(#\x41; 1)") = Some (inl [UnclosedList sp]).
Proof. eexists. by vm_compute. Qed.

(** A datum comment is read wherever a datum is, but the last element of a list
    or vector cannot be one. *)
Theorem trailing_datum_comment_rejected :
  (∃ d, read_text (lit "(1 #;2 3)") = Some (inr [d]) ∧ unspan d = unspan (pair_of (integer 1) (integer 3))) ∧
  ∃ sp what, read_text (lit "(1 #;2)") = Some (inl [UnexpectedToken sp what]).
Proof. split; [eexists; split; [by vm_compute |] | do 2 eexists]; by vm_compute. Qed.

(** ** Values the writer writes and the reader does not read *)

(** The list [((1 2) (1 2))] whose elements are the same list. *)
Definition sharing : heap := {[
  1 := MkCell 1 (pair_new (VPair 3) (VPair 2));
  2 := MkCell 1 (pair_new (VPair 3) VNull);
  3 := MkCell 2 (pair_new (fixed 1) (VPair 4));
  4 := MkCell 1 (pair_new (fixed 2) VNull) ]}.

(** A list without cycles in which a tail is shared is written with a cycle
    marker: the addresses of the tails of an element stay in the visited set
    after the element has been written. *)
Theorem shared_tail_written_as_cycle :
  write_to no_flonums paths ports sharing two_names Write (VPair 1) = Some (lit "((1 2) (1 . #<cycle>))").
Proof. by vm_compute. Qed.

Definition buffer : heap := {[ 1 := MkCell 1 (OByteVector [x01; x02]) ]}.

(** Bytevectors are written with the prefix [#vu8], which the lexer refuses. *)
Theorem bytevector_not_read_back :
  ∃ t e, write_to no_flonums paths ports buffer two_names Write (VByteVector 1) = Some t ∧
         read_text t = Some (inl [LexFailure e]).
Proof. do 2 eexists. split; [by vm_compute |]. by vm_compute. Qed.

(** A rational whose denominator does not fit 64 bits is written as a fraction
    that the lexer refuses. *)
Theorem long_fraction_not_read_back :
  ∃ t sp, write_to no_flonums paths ports ∅ two_names Write
            (VLeaf (Numeric (Rat (Q2Qc (1 # 100000000000000000000)))) : value) = Some t ∧
          read_text t = Some (inl [LexFailure (BadNumber sp t)]).
Proof. do 2 eexists. split; [by vm_compute |]. by vm_compute. Qed.
