(* ===== verification/Rir.v ===== *)
(** * The register IR

    [crates/cs-rir/src/lib.rs]: the SSA-shaped intermediate representation that
    the optimiser works on, with all its instructions; the verifier of
    [src/verify.rs]; and the walkers of [src/inline.rs], which visit the values
    of an instruction.

    A walker takes a closure that may change the value it is given and its own
    captured variables: [f v s] is the value it leaves and its new state.  The
    [unreachable!] of the walker of instructions is [None].  A [Value] and a
    [BlockId] are their numbers. *)

From stdpp Require Import base numbers gmap list.
From Stdlib Require Import ZArith Strings.Byte.
From S2P Require Import Prelude RaftTypes Float64 Text.

Local Open Scope crab_scope.
Local Open Scope N_scope.

Notation Value := N (only parsing).
Notation BlockId := N (only parsing).

(** ** Instructions *)

Module Ty.
Inductive t :=
  | Fixnum | Flonum | Boolean | Character | Pair | Vector | String | ByteVector | Procedure
  | Symbol | Null | Any.
End Ty.

Module Const.
Inductive t :=
  | Fixnum (z : Z)
  | Flonum (x : f64)
  | Boolean (b : bool)
  | Character (c : N)
  | Null
  | Unspecified
  | Eof
  | Symbol (s : N)
  | StringRef (i : N)
  | String (s : bytes).
End Const.

Module Inst.
Inductive t :=
  | LoadConst (d : Value) (c : Const.t)
  | Add (d a b : Value)
  | Sub (d a b : Value)
  | Mul (d a b : Value)
  | Div (d a b : Value)
  | FlonumAdd (d a b : Value)
  | FlonumSub (d a b : Value)
  | FlonumMul (d a b : Value)
  | FlonumDiv (d a b : Value)
  | FlonumLt (d a b : Value)
  | FlonumEq (d a b : Value)
  | FlonumSqrt (d a : Value)
  | FlonumSin (d a : Value)
  | FlonumCos (d a : Value)
  | FlonumTan (d a : Value)
  | FlonumLog (d a : Value)
  | FlonumExp (d a : Value)
  | FlonumAsin (d a : Value)
  | FlonumAcos (d a : Value)
  | FlonumAtan (d a : Value)
  | FlonumLog2 (d a b : Value)
  | FlonumAtan2 (d a b : Value)
  | FlonumExpt (d a b : Value)
  | FlEvenP (d a : Value)
  | FlOddP (d a : Value)
  | BitwiseBitCount (d a : Value)
  | BitwiseLength (d a : Value)
  | FxFirstBitSet (d a : Value)
  | StringTitlecase (d a : Value)
  | StringHash (d a : Value)
  | SymbolHash (d a : Value)
  | BitwiseArithShiftLeft (d a b : Value)
  | BitwiseArithShiftRight (d a b : Value)
  | BitwiseBitSetP (d a b : Value)
  | FlonumAbs (d a : Value)
  | FlonumMax (d a b : Value)
  | FlonumMin (d a b : Value)
  | FlonumFloor (d a : Value)
  | FlonumCeil (d a : Value)
  | FlonumTrunc (d a : Value)
  | FlonumRound (d a : Value)
  | Lt (d a b : Value)
  | Eq (d a b : Value)
  | Call (d callee : Value) (args : list Value)
  | CallSelf (d : Value) (args : list Value)
  | CallGeneral (d callee : Value) (args : list Value)
  | CallBuiltin (d : Value) (name : bytes) (args : list Value)
  | EnvLookup (d : Value) (sym : N)
  | EnvLookupAny (d : Value) (sym : N)
  | EnvSet (sym : N) (a : Value)
  | EnvDefineLocal (sym : N) (a : Value)
  | VecAlloc (d a b : Value)
  | VecRef (d a b : Value)
  | VecSet (d a b c : Value)
  | VecLength (d a : Value)
  | VecP (d a : Value)
  | StrAlloc (d a b : Value)
  | StrRef (d a b : Value)
  | StrLength (d a : Value)
  | StrP (d a : Value)
  | StrEq (d a b : Value)
  | StrLt (d a b : Value)
  | StrGt (d a b : Value)
  | StrLe (d a b : Value)
  | StrGe (d a b : Value)
  | StrCiEq (d a b : Value)
  | StrCiLt (d a b : Value)
  | StrCiGt (d a b : Value)
  | StrCiLe (d a b : Value)
  | StrCiGe (d a b : Value)
  | StringToVector (d a : Value)
  | VectorToString (d a : Value)
  | EqualAny (d a b : Value)
  | NumberToString (d a : Value)
  | StringToNumber (d a : Value)
  | Substring (d a b c : Value)
  | Length (d a : Value)
  | ListP (d a : Value)
  | Reverse (d a : Value)
  | Memq (d a b : Value)
  | Assq (d a b : Value)
  | SetCar (d a b : Value)
  | SetCdr (d a b : Value)
  | Memv (d a b : Value)
  | Assv (d a b : Value)
  | Member (d a b : Value)
  | Assoc (d a b : Value)
  | ListTail (d a b : Value)
  | ListRef (d a b : Value)
  | ListCopy (d a : Value)
  | ListSet (d a b c : Value)
  | BvP (d a : Value)
  | BvLength (d a : Value)
  | BvU8Ref (d a b : Value)
  | BvS8Ref (d a b : Value)
  | BvU16NativeRef (d a b : Value)
  | BvS16NativeRef (d a b : Value)
  | BvU32NativeRef (d a b : Value)
  | BvS32NativeRef (d a b : Value)
  | BvIeeeSingleNativeRef (d a b : Value)
  | BvIeeeDoubleNativeRef (d a b : Value)
  | BvU64NativeRef (d a b : Value)
  | BvS64NativeRef (d a b : Value)
  | BvAlloc (d a b : Value)
  | VecBuild (d : Value) (args : list Value)
  | StrBuild (d : Value) (args : list Value)
  | BvBuild (d : Value) (args : list Value)
  | StrAppend (d : Value) (args : list Value)
  | ListAppend (d : Value) (args : list Value)
  | VecAppend (d : Value) (args : list Value)
  | BvAppend (d : Value) (args : list Value)
  | BvU8Set (d a b c : Value)
  | BvS8Set (d a b c : Value)
  | BvU16NativeSet (d a b c : Value)
  | BvS16NativeSet (d a b c : Value)
  | BvU32NativeSet (d a b c : Value)
  | BvS32NativeSet (d a b c : Value)
  | BvIeeeSingleNativeSet (d a b c : Value)
  | BvIeeeDoubleNativeSet (d a b c : Value)
  | BvU64NativeSet (d a b c : Value)
  | BvS64NativeSet (d a b c : Value)
  | VecFill (d a b : Value)
  | BvFill (d a b : Value)
  | StrSet (d a b c : Value)
  | StrFill (d a b : Value)
  | StrCopy (d a : Value)
  | VecCopy (d a : Value)
  | BvCopy (d a : Value)
  | ProcedureP (d a : Value)
  | PortP (d a : Value)
  | InputPortP (d a : Value)
  | OutputPortP (d a : Value)
  | BinaryPortP (d a : Value)
  | TextualPortP (d a : Value)
  | OutputPortOpenP (d a : Value)
  | PortEofP (d a : Value)
  | PortHasSetPortPositionP (d a : Value)
  | PortPosition (d a : Value)
  | PromiseP (d a : Value)
  | HashtableP (d a : Value)
  | HashtableSize (d a : Value)
  | HashtableMutableP (d a : Value)
  | HashtableKeys (d a : Value)
  | HashtableValues (d a : Value)
  | HashtableClear (d a : Value)
  | EqualHash (d a : Value)
  | HashtableToAlist (d a : Value)
  | FileExistsP (d a : Value)
  | CurrentSecond (d : Value)
  | CurrentJiffy (d : Value)
  | AppendReverse (d a b : Value)
  | AlistCopy (d a : Value)
  | Delete (d a b : Value)
  | DeleteDuplicates (d a : Value)
  | MakePromise (d a : Value)
  | ForceForced (d a : Value)
  | HashtableContainsP (d a b : Value)
  | HashtableDelete (d a b : Value)
  | HashtableSet (d a b c : Value)
  | HashtableRef (d a b c : Value)
  | HashtableCopy (d a : Value)
  | VecCopySlice (d a b c : Value)
  | BvCopySlice (d a b c : Value)
  | EofObject (d : Value)
  | StringReplaceFirst (d a b c : Value)
  | BvFillSlice (d a b c x : Value)
  | VecFillSlice (d a b c x : Value)
  | StrFillSlice (d a b c x : Value)
  | ExactNonNegIntP (d a : Value)
  | BytevectorEqP (d a b : Value)
  | VectorEqP (d a b : Value)
  | Div0 (d a b : Value)
  | HashtableHashFn (d a : Value)
  | MakeHashtableEqual (d : Value)
  | MakeHashtableEq (d : Value)
  | MakeHashtableEqv (d : Value)
  | VecCopyFrom (d a b : Value)
  | BvCopyFrom (d a b : Value)
  | StrCopyFrom (d a b : Value)
  | BvFillFrom (d a b c : Value)
  | VecFillFrom (d a b c : Value)
  | StrFillFrom (d a b c : Value)
  | VectorToStringSlice (d a b c : Value)
  | StringToVectorSlice (d a b c : Value)
  | VectorToListSlice (d a b c : Value)
  | StringToListSlice (d a b c : Value)
  | BytevectorToListSlice (d a b c : Value)
  | NumberToStringRadix (d a b : Value)
  | StringToNumberRadix (d a b : Value)
  | MakeListUnspec (d a : Value)
  | MakeVectorUnspec (d a : Value)
  | VectorToListSliceFrom (d a b : Value)
  | StringToListSliceFrom (d a b : Value)
  | BytevectorToListSliceFrom (d a b : Value)
  | VectorToStringSliceFrom (d a b : Value)
  | StringToVectorSliceFrom (d a b : Value)
  | VecCopyBangFrom (d a b c x : Value)
  | BvCopyBangFrom (d a b c x : Value)
  | StrCopyBangFrom (d a b c x : Value)
  | VecCopyBangSlice (d a b c x y : Value)
  | BvCopyBangSlice (d a b c x y : Value)
  | StrCopyBangSlice (d a b c x y : Value)
  | Mod0 (d a b : Value)
  | DivEuclid (d a b : Value)
  | ModEuclid (d a b : Value)
  | EofP (d a : Value)
  | SymbolP (d a : Value)
  | CharP (d a : Value)
  | BoolP (d a : Value)
  | FixnumP (d a : Value)
  | FlonumP (d a : Value)
  | CharAlphabeticP (d a : Value)
  | CharNumericP (d a : Value)
  | CharWhitespaceP (d a : Value)
  | CharUpcase (d a : Value)
  | CharDowncase (d a : Value)
  | CharUpperCaseP (d a : Value)
  | CharLowerCaseP (d a : Value)
  | CharFoldcase (d a : Value)
  | CharTitlecase (d a : Value)
  | DigitValue (d a : Value)
  | VectorToList (d a : Value)
  | ListToVector (d a : Value)
  | StringToList (d a : Value)
  | ListToString (d a : Value)
  | SymbolToString (d a : Value)
  | StringToSymbol (d a : Value)
  | MakeClosure (d : Value) (idx : N)
  | Quotient (d a b : Value)
  | FloorQuotient (d a b : Value)
  | FlonumIsNan (d a : Value)
  | FlonumIsInfinite (d a : Value)
  | FlonumIsFinite (d a : Value)
  | FlonumIsInteger (d a : Value)
  | StringReverse (d a : Value)
  | StringUpcase (d a : Value)
  | StringDowncase (d a : Value)
  | StringFoldcase (d a : Value)
  | StringContains (d a b : Value)
  | StringPrefixP (d a b : Value)
  | StringSuffixP (d a b : Value)
  | StringJoin (d a b : Value)
  | StringSplit (d a b : Value)
  | StringPad (d a b : Value)
  | StringPadRight (d a b : Value)
  | StringTrim (d a : Value)
  | StringTrimLeft (d a : Value)
  | StringTrimRight (d a : Value)
  | StringReplaceAll (d a b c : Value)
  | BytevectorToU8List (d a : Value)
  | U8ListToBytevector (d a : Value)
  | StringToUtf8 (d a : Value)
  | Utf8ToString (d a : Value)
  | StringContainsRight (d a b : Value)
  | StringIndex (d a b : Value)
  | StringIndexRight (d a b : Value)
  | StringTake (d a b : Value)
  | StringDrop (d a b : Value)
  | StringTakeRight (d a b : Value)
  | StringDropRight (d a b : Value)
  | MakeList (d a b : Value)
  | IotaN (d a : Value)
  | IotaNs (d a b : Value)
  | IotaNss (d a b c : Value)
  | LastPair (d a : Value)
  | Last (d a : Value)
  | Take (d a b : Value)
  | Drop (d a b : Value)
  | NullListP (d a : Value)
  | Concatenate (d a : Value)
  | NotPairP (d a : Value)
  | ProperListP (d a : Value)
  | DottedListP (d a : Value)
  | CircularListP (d a : Value)
  | VecCopyBang (d a b c : Value)
  | BvCopyBang (d a b c : Value)
  | StrCopyBang (d a b c : Value)
  | Remainder (d a b : Value)
  | Modulo (d a b : Value)
  | Gcd (d a b : Value)
  | Lcm (d a b : Value)
  | Expt (d a b : Value)
  | ArithShift (d a b : Value)
  | BitAnd (d a b : Value)
  | BitOr (d a b : Value)
  | BitXor (d a b : Value)
  | BitNot (d a : Value)
  | AbsFixnum (d a : Value)
  | MaxFixnum (d a b : Value)
  | MinFixnum (d a b : Value)
  | Param (d : Value) (i : N)
  | Move (d a : Value)
  | IntCharBitcast (d a : Value)
  | CharToInt (d a : Value)
  | FixToFlo (d a : Value)
  | Cons (d a : Value) (a_tag : N) (b : Value) (b_tag : N)
  | ConsRegion (d a : Value) (a_tag : N) (b : Value) (b_tag : N)
  | Car (d a : Value)
  | Cdr (d a : Value)
  | PairP (d a : Value)
  | NullP (d a : Value)
  | AnyClone (d a : Value)
  | AnyDrop (a : Value)
  | BoxTyped (d a : Value) (tag : N)
  | AnyToFix (d a : Value)
  | AnyToBool (d a : Value)
  | AnyToFlo (d a : Value)
  | EqAny (d a b : Value)
  | AnyTruthy (d a : Value)
  | DeoptCheck (a : Value) (ty : Ty.t)
  | NotBoolean (d a : Value).
End Inst.

Inductive Term :=
  | Return (v : Value)
  | Jump (target : BlockId) (args : list Value)
  | Branch (cond : Value) (then_target else_target : BlockId) (args : list Value).

Record Block := MkBlock {
  bk_id : BlockId;
  bk_params : list (Value * Ty.t);
  bk_insts : list Inst.t;
  bk_terminator : Term }.

#[export] Instance Block_eta : Eta Block := λ b,
  MkBlock (bk_id b) (bk_params b) (bk_insts b) (bk_terminator b).

Record Function := MkFunction {
  fn_name : bytes;
  fn_params : list (Value * Ty.t);
  fn_entry : BlockId;
  fn_blocks : list Block;
  fn_return_type : Ty.t;
  fn_lambda_index : option nat;
  fn_captures : list N;
  fn_name_sym : option N;
  fn_param_syms : list N;
  fn_self_binding_sym : option N }.

#[export] Instance Function_eta : Eta Function := λ f,
  MkFunction (fn_name f) (fn_params f) (fn_entry f) (fn_blocks f) (fn_return_type f) (fn_lambda_index f)
    (fn_captures f) (fn_name_sym f) (fn_param_syms f) (fn_self_binding_sym f).

Definition function_new (name : bytes) : Function :=
  MkFunction name [] 0 [] Ty.Fixnum None [] None [] None.

Definition block_count (f : Function) : nat := length (fn_blocks f).

Definition inst_count (f : Function) : nat := sum_list_with (λ b, length (bk_insts b)) (fn_blocks f).

Definition builds_closures (f : Function) : bool :=
  existsb (λ i, match i with Inst.MakeClosure _ _ => true | _ => false end) (fn_blocks f ≫= bk_insts).

Definition has_env_define_local (f : Function) : bool :=
  existsb (λ i, match i with Inst.EnvDefineLocal _ _ => true | _ => false end) (fn_blocks f ≫= bk_insts).

(** ** Walkers *)

Section walker.
Context {S : Type}.

Definition visit1 (k : Value → Inst.t) (f : Value → S → Value * S) (d : Value) (s : S) : Inst.t * S :=
  let '(d, s) := f d s in (k d, s).

Definition visit2 (k : Value → Value → Inst.t) (f : Value → S → Value * S) (d a : Value) (s : S) : Inst.t * S :=
  let '(d, s) := f d s in let '(a, s) := f a s in (k d a, s).

Definition visit3 (k : Value → Value → Value → Inst.t) (f : Value → S → Value * S) (d a b : Value) (s : S) :
    Inst.t * S :=
  let '(d, s) := f d s in let '(a, s) := f a s in let '(b, s) := f b s in (k d a b, s).

Definition visit4 (k : Value → Value → Value → Value → Inst.t) (f : Value → S → Value * S) (d a b c : Value)
    (s : S) : Inst.t * S :=
  let '(d, s) := f d s in let '(a, s) := f a s in let '(b, s) := f b s in let '(c, s) := f c s in
  (k d a b c, s).

Fixpoint visit_list (f : Value → S → Value * S) (l : list Value) (s : S) : list Value * S :=
  match l with
  | [] => ([], s)
  | a :: l => let '(a, s) := f a s in let '(l, s) := visit_list f l s in (a :: l, s)
  end.

Definition visit1_list (k : Value → list Value → Inst.t) (f : Value → S → Value * S) (d : Value)
    (args : list Value) (s : S) : Inst.t * S :=
  let '(d, s) := f d s in let '(args, s) := visit_list f args s in (k d args, s).

Definition visit2_list (k : Value → Value → list Value → Inst.t) (f : Value → S → Value * S) (d a : Value)
    (args : list Value) (s : S) : Inst.t * S :=
  let '(d, s) := f d s in let '(a, s) := f a s in let '(args, s) := visit_list f args s in (k d a args, s).

Definition for_each_value_in_inst (f : Value → S → Value * S) (i : Inst.t) (s : S) : option (Inst.t * S) :=
  match i with
  | Inst.LoadConst d c => Some (visit1 (λ d, Inst.LoadConst d c) f d s)
  | Inst.Add d a b => Some (visit3 Inst.Add f d a b s)
  | Inst.Sub d a b => Some (visit3 Inst.Sub f d a b s)
  | Inst.Mul d a b => Some (visit3 Inst.Mul f d a b s)
  | Inst.Div d a b => Some (visit3 Inst.Div f d a b s)
  | Inst.FlonumAdd d a b => Some (visit3 Inst.FlonumAdd f d a b s)
  | Inst.FlonumSub d a b => Some (visit3 Inst.FlonumSub f d a b s)
  | Inst.FlonumMul d a b => Some (visit3 Inst.FlonumMul f d a b s)
  | Inst.FlonumDiv d a b => Some (visit3 Inst.FlonumDiv f d a b s)
  | Inst.FlonumLt d a b => Some (visit3 Inst.FlonumLt f d a b s)
  | Inst.FlonumEq d a b => Some (visit3 Inst.FlonumEq f d a b s)
  | Inst.FlonumMax d a b => Some (visit3 Inst.FlonumMax f d a b s)
  | Inst.FlonumMin d a b => Some (visit3 Inst.FlonumMin f d a b s)
  | Inst.FlonumExpt d a b => Some (visit3 Inst.FlonumExpt f d a b s)
  | Inst.Lt d a b => Some (visit3 Inst.Lt f d a b s)
  | Inst.Eq d a b => Some (visit3 Inst.Eq f d a b s)
  | Inst.Quotient d a b => Some (visit3 Inst.Quotient f d a b s)
  | Inst.Remainder d a b => Some (visit3 Inst.Remainder f d a b s)
  | Inst.Modulo d a b => Some (visit3 Inst.Modulo f d a b s)
  | Inst.FloorQuotient d a b => Some (visit3 Inst.FloorQuotient f d a b s)
  | Inst.Gcd d a b => Some (visit3 Inst.Gcd f d a b s)
  | Inst.Lcm d a b => Some (visit3 Inst.Lcm f d a b s)
  | Inst.BitAnd d a b => Some (visit3 Inst.BitAnd f d a b s)
  | Inst.BitOr d a b => Some (visit3 Inst.BitOr f d a b s)
  | Inst.BitXor d a b => Some (visit3 Inst.BitXor f d a b s)
  | Inst.BitwiseArithShiftLeft d a b => Some (visit3 Inst.BitwiseArithShiftLeft f d a b s)
  | Inst.BitwiseArithShiftRight d a b => Some (visit3 Inst.BitwiseArithShiftRight f d a b s)
  | Inst.BitwiseBitSetP d a b => Some (visit3 Inst.BitwiseBitSetP f d a b s)
  | Inst.EqAny d a b => Some (visit3 Inst.EqAny f d a b s)
  | Inst.EqualAny d a b => Some (visit3 Inst.EqualAny f d a b s)
  | Inst.VecRef d a b => Some (visit3 Inst.VecRef f d a b s)
  | Inst.StrRef d a b => Some (visit3 Inst.StrRef f d a b s)
  | Inst.FlonumSqrt d a => Some (visit2 Inst.FlonumSqrt f d a s)
  | Inst.FlonumAbs d a => Some (visit2 Inst.FlonumAbs f d a s)
  | Inst.FlonumFloor d a => Some (visit2 Inst.FlonumFloor f d a s)
  | Inst.FlonumCeil d a => Some (visit2 Inst.FlonumCeil f d a s)
  | Inst.FlonumTrunc d a => Some (visit2 Inst.FlonumTrunc f d a s)
  | Inst.FlonumRound d a => Some (visit2 Inst.FlonumRound f d a s)
  | Inst.FlonumSin d a => Some (visit2 Inst.FlonumSin f d a s)
  | Inst.FlonumCos d a => Some (visit2 Inst.FlonumCos f d a s)
  | Inst.FlonumTan d a => Some (visit2 Inst.FlonumTan f d a s)
  | Inst.FlonumLog d a => Some (visit2 Inst.FlonumLog f d a s)
  | Inst.FlonumExp d a => Some (visit2 Inst.FlonumExp f d a s)
  | Inst.FlonumAsin d a => Some (visit2 Inst.FlonumAsin f d a s)
  | Inst.FlonumAcos d a => Some (visit2 Inst.FlonumAcos f d a s)
  | Inst.FlonumAtan d a => Some (visit2 Inst.FlonumAtan f d a s)
  | Inst.FlEvenP d a => Some (visit2 Inst.FlEvenP f d a s)
  | Inst.FlOddP d a => Some (visit2 Inst.FlOddP f d a s)
  | Inst.BitwiseBitCount d a => Some (visit2 Inst.BitwiseBitCount f d a s)
  | Inst.BitwiseLength d a => Some (visit2 Inst.BitwiseLength f d a s)
  | Inst.FxFirstBitSet d a => Some (visit2 Inst.FxFirstBitSet f d a s)
  | Inst.FixToFlo d a => Some (visit2 Inst.FixToFlo f d a s)
  | Inst.IntCharBitcast d a => Some (visit2 Inst.IntCharBitcast f d a s)
  | Inst.CharToInt d a => Some (visit2 Inst.CharToInt f d a s)
  | Inst.VecLength d a => Some (visit2 Inst.VecLength f d a s)
  | Inst.VecP d a => Some (visit2 Inst.VecP f d a s)
  | Inst.StrLength d a => Some (visit2 Inst.StrLength f d a s)
  | Inst.StrP d a => Some (visit2 Inst.StrP f d a s)
  | Inst.AnyToFix d a => Some (visit2 Inst.AnyToFix f d a s)
  | Inst.AnyToBool d a => Some (visit2 Inst.AnyToBool f d a s)
  | Inst.AnyToFlo d a => Some (visit2 Inst.AnyToFlo f d a s)
  | Inst.AnyTruthy d a => Some (visit2 Inst.AnyTruthy f d a s)
  | Inst.Move d a => Some (visit2 Inst.Move f d a s)
  | Inst.BoxTyped d a tag => Some (visit2 (λ d a, Inst.BoxTyped d a tag) f d a s)
  | Inst.DeoptCheck a ty => Some (visit1 (λ a, Inst.DeoptCheck a ty) f a s)
  | Inst.NotBoolean d a => Some (visit2 Inst.NotBoolean f d a s)
  | Inst.ArithShift d a b => Some (visit3 Inst.ArithShift f d a b s)
  | Inst.Expt d a b => Some (visit3 Inst.Expt f d a b s)
  | Inst.Length d a => Some (visit2 Inst.Length f d a s)
  | Inst.AnyDrop a => Some (visit1 Inst.AnyDrop f a s)
  | Inst.MakeClosure d k => Some (visit1 (λ d, Inst.MakeClosure d k) f d s)
  | Inst.Call d callee args => Some (visit2_list (Inst.Call) f d callee args s)
  | Inst.CallGeneral d callee args => Some (visit2_list (Inst.CallGeneral) f d callee args s)
  | Inst.CallBuiltin d name args => Some (visit1_list (λ d, Inst.CallBuiltin d name) f d args s)
  | Inst.CallSelf d args => Some (visit1_list Inst.CallSelf f d args s)
  | Inst.EnvLookup d k => Some (visit1 (λ d, Inst.EnvLookup d k) f d s)
  | Inst.EnvLookupAny d k => Some (visit1 (λ d, Inst.EnvLookupAny d k) f d s)
  | Inst.EnvSet sym a => Some (visit1 (Inst.EnvSet sym) f a s)
  | Inst.EnvDefineLocal sym a => Some (visit1 (Inst.EnvDefineLocal sym) f a s)
  | Inst.VecAlloc d a b => Some (visit3 Inst.VecAlloc f d a b s)
  | Inst.VecSet d a b c => Some (visit4 Inst.VecSet f d a b c s)
  | Inst.Cons d a ta b tb => Some (visit3 (λ d a b, Inst.Cons d a ta b tb) f d a b s)
  | Inst.ConsRegion d a ta b tb => Some (visit3 (λ d a b, Inst.ConsRegion d a ta b tb) f d a b s)
  | Inst.Car d a => Some (visit2 Inst.Car f d a s)
  | Inst.Cdr d a => Some (visit2 Inst.Cdr f d a s)
  | Inst.AnyClone d a => Some (visit2 Inst.AnyClone f d a s)
  | Inst.PairP d a => Some (visit2 Inst.PairP f d a s)
  | Inst.NullP d a => Some (visit2 Inst.NullP f d a s)
  | Inst.ProcedureP d a => Some (visit2 Inst.ProcedureP f d a s)
  | Inst.SymbolP d a => Some (visit2 Inst.SymbolP f d a s)
  | Inst.FixnumP d a => Some (visit2 Inst.FixnumP f d a s)
  | Inst.FlonumP d a => Some (visit2 Inst.FlonumP f d a s)
  | _ => None
  end.

Definition for_each_value_in_term (f : Value → S → Value * S) (t : Term) (s : S) : Term * S :=
  match t with
  | Return v => let '(v, s) := f v s in (Return v, s)
  | Jump target args => let '(args, s) := visit_list f args s in (Jump target args, s)
  | Branch cond t e args =>
      let '(cond, s) := f cond s in let '(args, s) := visit_list f args s in (Branch cond t e args, s)
  end.

Definition for_each_block_in_term (f : BlockId → S → BlockId * S) (t : Term) (s : S) : Term * S :=
  match t with
  | Return v => (Return v, s)
  | Jump b args => let '(b, s) := f b s in (Jump b args, s)
  | Branch c t e args => let '(t, s) := f t s in let '(e, s) := f e s in (Branch c t e args, s)
  end.

End walker.

Definition value_walker_covers (i : Inst.t) : bool :=
  match i with
  | Inst.LoadConst _ _ | Inst.Add _ _ _ | Inst.Sub _ _ _ | Inst.Mul _ _ _ | Inst.Div _ _ _
  | Inst.FlonumAdd _ _ _ | Inst.FlonumSub _ _ _ | Inst.FlonumMul _ _ _ | Inst.FlonumDiv _ _ _
  | Inst.FlonumLt _ _ _ | Inst.FlonumEq _ _ _ | Inst.FlonumMax _ _ _ | Inst.FlonumMin _ _ _
  | Inst.FlonumExpt _ _ _ | Inst.Lt _ _ _ | Inst.Eq _ _ _ | Inst.Quotient _ _ _ | Inst.Remainder _ _ _
  | Inst.Modulo _ _ _ | Inst.FloorQuotient _ _ _ | Inst.Gcd _ _ _ | Inst.Lcm _ _ _ | Inst.BitAnd _ _ _
  | Inst.BitOr _ _ _ | Inst.BitXor _ _ _ | Inst.BitwiseArithShiftLeft _ _ _
  | Inst.BitwiseArithShiftRight _ _ _ | Inst.BitwiseBitSetP _ _ _ | Inst.EqAny _ _ _ | Inst.EqualAny _ _ _
  | Inst.VecRef _ _ _ | Inst.StrRef _ _ _ | Inst.FlonumSqrt _ _ | Inst.FlonumAbs _ _ | Inst.FlonumFloor _ _
  | Inst.FlonumCeil _ _ | Inst.FlonumTrunc _ _ | Inst.FlonumRound _ _ | Inst.FlonumSin _ _
  | Inst.FlonumCos _ _ | Inst.FlonumTan _ _ | Inst.FlonumLog _ _ | Inst.FlonumExp _ _ | Inst.FlonumAsin _ _
  | Inst.FlonumAcos _ _ | Inst.FlonumAtan _ _ | Inst.FlEvenP _ _ | Inst.FlOddP _ _
  | Inst.BitwiseBitCount _ _ | Inst.BitwiseLength _ _ | Inst.FxFirstBitSet _ _ | Inst.FixToFlo _ _
  | Inst.IntCharBitcast _ _ | Inst.CharToInt _ _ | Inst.VecLength _ _ | Inst.VecP _ _ | Inst.StrLength _ _
  | Inst.StrP _ _ | Inst.AnyToFix _ _ | Inst.AnyToBool _ _ | Inst.AnyToFlo _ _ | Inst.AnyTruthy _ _
  | Inst.Move _ _ | Inst.BoxTyped _ _ _ | Inst.DeoptCheck _ _ | Inst.NotBoolean _ _ | Inst.ArithShift _ _ _
  | Inst.Expt _ _ _ | Inst.Length _ _ | Inst.AnyDrop _ | Inst.MakeClosure _ _ | Inst.Call _ _ _
  | Inst.CallGeneral _ _ _ | Inst.CallBuiltin _ _ _ | Inst.CallSelf _ _ | Inst.EnvLookup _ _
  | Inst.EnvLookupAny _ _ | Inst.EnvSet _ _ | Inst.EnvDefineLocal _ _ | Inst.VecAlloc _ _ _
  | Inst.VecSet _ _ _ _ | Inst.Cons _ _ _ _ _ | Inst.ConsRegion _ _ _ _ _ | Inst.Car _ _ | Inst.Cdr _ _
  | Inst.AnyClone _ _ | Inst.PairP _ _ | Inst.NullP _ _ | Inst.ProcedureP _ _ | Inst.SymbolP _ _
  | Inst.FixnumP _ _ | Inst.FlonumP _ _ => true
  | _ => false
  end.

Definition is_inline_supported (i : Inst.t) : bool :=
  match i with
  | Inst.LoadConst _ _ | Inst.Add _ _ _ | Inst.Sub _ _ _ | Inst.Mul _ _ _ | Inst.Div _ _ _
  | Inst.FlonumAdd _ _ _ | Inst.FlonumSub _ _ _ | Inst.FlonumMul _ _ _ | Inst.FlonumDiv _ _ _
  | Inst.FlonumLt _ _ _ | Inst.FlonumEq _ _ _ | Inst.FlonumMax _ _ _ | Inst.FlonumMin _ _ _
  | Inst.FlonumExpt _ _ _ | Inst.Lt _ _ _ | Inst.Eq _ _ _ | Inst.Quotient _ _ _ | Inst.Remainder _ _ _
  | Inst.Modulo _ _ _ | Inst.FloorQuotient _ _ _ | Inst.Gcd _ _ _ | Inst.Lcm _ _ _ | Inst.BitAnd _ _ _
  | Inst.BitOr _ _ _ | Inst.BitXor _ _ _ | Inst.BitwiseArithShiftLeft _ _ _
  | Inst.BitwiseArithShiftRight _ _ _ | Inst.BitwiseBitSetP _ _ _ | Inst.EqAny _ _ _ | Inst.EqualAny _ _ _
  | Inst.VecRef _ _ _ | Inst.StrRef _ _ _ | Inst.FlonumSqrt _ _ | Inst.FlonumAbs _ _ | Inst.FlonumFloor _ _
  | Inst.FlonumCeil _ _ | Inst.FlonumTrunc _ _ | Inst.FlonumRound _ _ | Inst.FlonumSin _ _
  | Inst.FlonumCos _ _ | Inst.FlonumTan _ _ | Inst.FlonumLog _ _ | Inst.FlonumExp _ _ | Inst.FlonumAsin _ _
  | Inst.FlonumAcos _ _ | Inst.FlonumAtan _ _ | Inst.FlEvenP _ _ | Inst.FlOddP _ _
  | Inst.BitwiseBitCount _ _ | Inst.BitwiseLength _ _ | Inst.FxFirstBitSet _ _ | Inst.FixToFlo _ _
  | Inst.IntCharBitcast _ _ | Inst.CharToInt _ _ | Inst.VecLength _ _ | Inst.VecP _ _ | Inst.StrLength _ _
  | Inst.StrP _ _ | Inst.AnyToFix _ _ | Inst.AnyToBool _ _ | Inst.AnyToFlo _ _ | Inst.AnyTruthy _ _
  | Inst.Move _ _ | Inst.BoxTyped _ _ _ | Inst.DeoptCheck _ _ => true
  | _ => false
  end.

Definition is_term_inline_supported (t : Term) : bool :=
  match t with Return _ | Jump _ _ | Branch _ _ _ _ => true end.

(** ** The verifier *)

Inductive VerifyError :=
  | MissingEntry (entry : BlockId)
  | DanglingTarget (from target : BlockId)
  | DuplicateDefinition (value : Value).

(** [inst_dst] of [verify.rs], which knows some instructions only. *)
Definition verified_dst (i : Inst.t) : option Value :=
  match i with
  | Inst.LoadConst v _ | Inst.Add v _ _ | Inst.Sub v _ _ | Inst.Mul v _ _ | Inst.Div v _ _
  | Inst.FlonumAdd v _ _ | Inst.FlonumSub v _ _ | Inst.FlonumMul v _ _ | Inst.FlonumDiv v _ _
  | Inst.FlonumLt v _ _ | Inst.FlonumEq v _ _ | Inst.FlonumSqrt v _ => Some v
  | _ => None
  end.

(** The closure [see_def] on values in turn. *)
Fixpoint see_defs (vs : list Value) (defined : gset Value) : VerifyError + gset Value :=
  match vs with
  | [] => inr defined
  | v :: vs => if decide (v ∈ defined) then inl (DuplicateDefinition v) else see_defs vs ({[v]} ∪ defined)
  end.

Definition verify_term (known : gset BlockId) (b : Block) : option VerifyError :=
  let dangling t := if decide (t ∈ known) then None else Some (DanglingTarget (bk_id b) t) in
  match bk_terminator b with
  | Return _ => None
  | Jump t _ => dangling t
  | Branch _ t e _ => match dangling t with Some err => Some err | None => dangling e end
  end.

Fixpoint verify_blocks (known : gset BlockId) (bs : list Block) (defined : gset Value) : VerifyError + unit :=
  match bs with
  | [] => inr ()
  | b :: bs =>
      match see_defs ((bk_params b).*1 ++ omap verified_dst (bk_insts b)) defined with
      | inl err => inl err
      | inr defined =>
          match verify_term known b with
          | Some err => inl err
          | None => verify_blocks known bs defined
          end
      end
  end.

Definition verify (f : Function) : VerifyError + unit :=
  let known := list_to_set (bk_id <$> fn_blocks f) : gset BlockId in
  if decide (fn_entry f ∈ known) then
    match see_defs (fn_params f).*1 ∅ with
    | inl err => inl err
    | inr defined => verify_blocks known (fn_blocks f) defined
    end
  else inl (MissingEntry (fn_entry f)).
