(* ===== verification/RirValues.v ===== *)
(** * The registers of an instruction

    Every instruction of [crates/cs-rir/src/lib.rs] is an operation on values
    in registers, whether the walkers of [src/inline.rs] know it or not.
    [operands] lists the registers that an instruction names, in the order of
    its fields, and [rename] gives them other numbers.  [RirFacts] shows that
    the walker agrees with both on the instructions it covers. *)

From stdpp Require Import base numbers list.
From S2P Require Import Prelude Rir.

Local Open Scope crab_scope.

(** The values of [enum Inst], the destination first where there is one. *)
Definition operands (i : Inst.t) : list Value :=
  match i with
  | Inst.LoadConst d _ | Inst.EnvLookup d _ | Inst.EnvLookupAny d _ | Inst.EnvSet _ d
  | Inst.EnvDefineLocal _ d | Inst.CurrentSecond d | Inst.CurrentJiffy d | Inst.EofObject d
  | Inst.MakeHashtableEqual d | Inst.MakeHashtableEq d | Inst.MakeHashtableEqv d | Inst.MakeClosure d _
  | Inst.Param d _ | Inst.AnyDrop d | Inst.DeoptCheck d _ => [d]
  | Inst.Add d a b | Inst.Sub d a b | Inst.Mul d a b | Inst.Div d a b | Inst.FlonumAdd d a b
  | Inst.FlonumSub d a b | Inst.FlonumMul d a b | Inst.FlonumDiv d a b | Inst.FlonumLt d a b
  | Inst.FlonumEq d a b | Inst.FlonumLog2 d a b | Inst.FlonumAtan2 d a b | Inst.FlonumExpt d a b
  | Inst.BitwiseArithShiftLeft d a b | Inst.BitwiseArithShiftRight d a b | Inst.BitwiseBitSetP d a b
  | Inst.FlonumMax d a b | Inst.FlonumMin d a b | Inst.Lt d a b | Inst.Eq d a b | Inst.VecAlloc d a b
  | Inst.VecRef d a b | Inst.StrAlloc d a b | Inst.StrRef d a b | Inst.StrEq d a b | Inst.StrLt d a b
  | Inst.StrGt d a b | Inst.StrLe d a b | Inst.StrGe d a b | Inst.StrCiEq d a b | Inst.StrCiLt d a b
  | Inst.StrCiGt d a b | Inst.StrCiLe d a b | Inst.StrCiGe d a b | Inst.EqualAny d a b | Inst.Memq d a b
  | Inst.Assq d a b | Inst.SetCar d a b | Inst.SetCdr d a b | Inst.Memv d a b | Inst.Assv d a b
  | Inst.Member d a b | Inst.Assoc d a b | Inst.ListTail d a b | Inst.ListRef d a b | Inst.BvU8Ref d a b
  | Inst.BvS8Ref d a b | Inst.BvU16NativeRef d a b | Inst.BvS16NativeRef d a b
  | Inst.BvU32NativeRef d a b | Inst.BvS32NativeRef d a b | Inst.BvIeeeSingleNativeRef d a b
  | Inst.BvIeeeDoubleNativeRef d a b | Inst.BvU64NativeRef d a b | Inst.BvS64NativeRef d a b
  | Inst.BvAlloc d a b | Inst.VecFill d a b | Inst.BvFill d a b | Inst.StrFill d a b
  | Inst.AppendReverse d a b | Inst.Delete d a b | Inst.HashtableContainsP d a b
  | Inst.HashtableDelete d a b | Inst.BytevectorEqP d a b | Inst.VectorEqP d a b | Inst.Div0 d a b
  | Inst.VecCopyFrom d a b | Inst.BvCopyFrom d a b | Inst.StrCopyFrom d a b
  | Inst.NumberToStringRadix d a b | Inst.StringToNumberRadix d a b | Inst.VectorToListSliceFrom d a b
  | Inst.StringToListSliceFrom d a b | Inst.BytevectorToListSliceFrom d a b
  | Inst.VectorToStringSliceFrom d a b | Inst.StringToVectorSliceFrom d a b | Inst.Mod0 d a b
  | Inst.DivEuclid d a b | Inst.ModEuclid d a b | Inst.Quotient d a b | Inst.FloorQuotient d a b
  | Inst.StringContains d a b | Inst.StringPrefixP d a b | Inst.StringSuffixP d a b
  | Inst.StringJoin d a b | Inst.StringSplit d a b | Inst.StringPad d a b | Inst.StringPadRight d a b
  | Inst.StringContainsRight d a b | Inst.StringIndex d a b | Inst.StringIndexRight d a b
  | Inst.StringTake d a b | Inst.StringDrop d a b | Inst.StringTakeRight d a b
  | Inst.StringDropRight d a b | Inst.MakeList d a b | Inst.IotaNs d a b | Inst.Take d a b
  | Inst.Drop d a b | Inst.Remainder d a b | Inst.Modulo d a b | Inst.Gcd d a b | Inst.Lcm d a b
  | Inst.Expt d a b | Inst.ArithShift d a b | Inst.BitAnd d a b | Inst.BitOr d a b | Inst.BitXor d a b
  | Inst.MaxFixnum d a b | Inst.MinFixnum d a b | Inst.Cons d a _ b _ | Inst.ConsRegion d a _ b _
  | Inst.EqAny d a b => [d; a; b]
  | Inst.FlonumSqrt d a | Inst.FlonumSin d a | Inst.FlonumCos d a | Inst.FlonumTan d a
  | Inst.FlonumLog d a | Inst.FlonumExp d a | Inst.FlonumAsin d a | Inst.FlonumAcos d a
  | Inst.FlonumAtan d a | Inst.FlEvenP d a | Inst.FlOddP d a | Inst.BitwiseBitCount d a
  | Inst.BitwiseLength d a | Inst.FxFirstBitSet d a | Inst.StringTitlecase d a | Inst.StringHash d a
  | Inst.SymbolHash d a | Inst.FlonumAbs d a | Inst.FlonumFloor d a | Inst.FlonumCeil d a
  | Inst.FlonumTrunc d a | Inst.FlonumRound d a | Inst.VecLength d a | Inst.VecP d a
  | Inst.StrLength d a | Inst.StrP d a | Inst.StringToVector d a | Inst.VectorToString d a
  | Inst.NumberToString d a | Inst.StringToNumber d a | Inst.Length d a | Inst.ListP d a
  | Inst.Reverse d a | Inst.ListCopy d a | Inst.BvP d a | Inst.BvLength d a | Inst.StrCopy d a
  | Inst.VecCopy d a | Inst.BvCopy d a | Inst.ProcedureP d a | Inst.PortP d a | Inst.InputPortP d a
  | Inst.OutputPortP d a | Inst.BinaryPortP d a | Inst.TextualPortP d a | Inst.OutputPortOpenP d a
  | Inst.PortEofP d a | Inst.PortHasSetPortPositionP d a | Inst.PortPosition d a | Inst.PromiseP d a
  | Inst.HashtableP d a | Inst.HashtableSize d a | Inst.HashtableMutableP d a | Inst.HashtableKeys d a
  | Inst.HashtableValues d a | Inst.HashtableClear d a | Inst.EqualHash d a | Inst.HashtableToAlist d a
  | Inst.FileExistsP d a | Inst.AlistCopy d a | Inst.DeleteDuplicates d a | Inst.MakePromise d a
  | Inst.ForceForced d a | Inst.HashtableCopy d a | Inst.ExactNonNegIntP d a | Inst.HashtableHashFn d a
  | Inst.MakeListUnspec d a | Inst.MakeVectorUnspec d a | Inst.EofP d a | Inst.SymbolP d a
  | Inst.CharP d a | Inst.BoolP d a | Inst.FixnumP d a | Inst.FlonumP d a | Inst.CharAlphabeticP d a
  | Inst.CharNumericP d a | Inst.CharWhitespaceP d a | Inst.CharUpcase d a | Inst.CharDowncase d a
  | Inst.CharUpperCaseP d a | Inst.CharLowerCaseP d a | Inst.CharFoldcase d a | Inst.CharTitlecase d a
  | Inst.DigitValue d a | Inst.VectorToList d a | Inst.ListToVector d a | Inst.StringToList d a
  | Inst.ListToString d a | Inst.SymbolToString d a | Inst.StringToSymbol d a | Inst.FlonumIsNan d a
  | Inst.FlonumIsInfinite d a | Inst.FlonumIsFinite d a | Inst.FlonumIsInteger d a
  | Inst.StringReverse d a | Inst.StringUpcase d a | Inst.StringDowncase d a | Inst.StringFoldcase d a
  | Inst.StringTrim d a | Inst.StringTrimLeft d a | Inst.StringTrimRight d a
  | Inst.BytevectorToU8List d a | Inst.U8ListToBytevector d a | Inst.StringToUtf8 d a
  | Inst.Utf8ToString d a | Inst.IotaN d a | Inst.LastPair d a | Inst.Last d a | Inst.NullListP d a
  | Inst.Concatenate d a | Inst.NotPairP d a | Inst.ProperListP d a | Inst.DottedListP d a
  | Inst.CircularListP d a | Inst.BitNot d a | Inst.AbsFixnum d a | Inst.Move d a
  | Inst.IntCharBitcast d a | Inst.CharToInt d a | Inst.FixToFlo d a | Inst.Car d a | Inst.Cdr d a
  | Inst.PairP d a | Inst.NullP d a | Inst.AnyClone d a | Inst.BoxTyped d a _ | Inst.AnyToFix d a
  | Inst.AnyToBool d a | Inst.AnyToFlo d a | Inst.AnyTruthy d a | Inst.NotBoolean d a => [d; a]
  | Inst.Call d a l | Inst.CallGeneral d a l => d :: a :: l
  | Inst.CallSelf d l | Inst.CallBuiltin d _ l | Inst.VecBuild d l | Inst.StrBuild d l
  | Inst.BvBuild d l | Inst.StrAppend d l | Inst.ListAppend d l | Inst.VecAppend d l | Inst.BvAppend d l => d :: l
  | Inst.VecSet d a b c | Inst.Substring d a b c | Inst.ListSet d a b c | Inst.BvU8Set d a b c
  | Inst.BvS8Set d a b c | Inst.BvU16NativeSet d a b c | Inst.BvS16NativeSet d a b c
  | Inst.BvU32NativeSet d a b c | Inst.BvS32NativeSet d a b c | Inst.BvIeeeSingleNativeSet d a b c
  | Inst.BvIeeeDoubleNativeSet d a b c | Inst.BvU64NativeSet d a b c | Inst.BvS64NativeSet d a b c
  | Inst.StrSet d a b c | Inst.HashtableSet d a b c | Inst.HashtableRef d a b c
  | Inst.VecCopySlice d a b c | Inst.BvCopySlice d a b c | Inst.StringReplaceFirst d a b c
  | Inst.BvFillFrom d a b c | Inst.VecFillFrom d a b c | Inst.StrFillFrom d a b c
  | Inst.VectorToStringSlice d a b c | Inst.StringToVectorSlice d a b c | Inst.VectorToListSlice d a b c
  | Inst.StringToListSlice d a b c | Inst.BytevectorToListSlice d a b c | Inst.StringReplaceAll d a b c
  | Inst.IotaNss d a b c | Inst.VecCopyBang d a b c | Inst.BvCopyBang d a b c | Inst.StrCopyBang d a b c => [d; a; b; c]
  | Inst.BvFillSlice d a b c x | Inst.VecFillSlice d a b c x | Inst.StrFillSlice d a b c x
  | Inst.VecCopyBangFrom d a b c x | Inst.BvCopyBangFrom d a b c x | Inst.StrCopyBangFrom d a b c x => [d; a; b; c; x]
  | Inst.VecCopyBangSlice d a b c x y | Inst.BvCopyBangSlice d a b c x y
  | Inst.StrCopyBangSlice d a b c x y => [d; a; b; c; x; y]
  end.

Definition rename (g : Value → Value) (i : Inst.t) : Inst.t :=
  match i with
  | Inst.LoadConst d k => Inst.LoadConst (g d) k
  | Inst.Add d a b => Inst.Add (g d) (g a) (g b)
  | Inst.Sub d a b => Inst.Sub (g d) (g a) (g b)
  | Inst.Mul d a b => Inst.Mul (g d) (g a) (g b)
  | Inst.Div d a b => Inst.Div (g d) (g a) (g b)
  | Inst.FlonumAdd d a b => Inst.FlonumAdd (g d) (g a) (g b)
  | Inst.FlonumSub d a b => Inst.FlonumSub (g d) (g a) (g b)
  | Inst.FlonumMul d a b => Inst.FlonumMul (g d) (g a) (g b)
  | Inst.FlonumDiv d a b => Inst.FlonumDiv (g d) (g a) (g b)
  | Inst.FlonumLt d a b => Inst.FlonumLt (g d) (g a) (g b)
  | Inst.FlonumEq d a b => Inst.FlonumEq (g d) (g a) (g b)
  | Inst.FlonumSqrt d a => Inst.FlonumSqrt (g d) (g a)
  | Inst.FlonumSin d a => Inst.FlonumSin (g d) (g a)
  | Inst.FlonumCos d a => Inst.FlonumCos (g d) (g a)
  | Inst.FlonumTan d a => Inst.FlonumTan (g d) (g a)
  | Inst.FlonumLog d a => Inst.FlonumLog (g d) (g a)
  | Inst.FlonumExp d a => Inst.FlonumExp (g d) (g a)
  | Inst.FlonumAsin d a => Inst.FlonumAsin (g d) (g a)
  | Inst.FlonumAcos d a => Inst.FlonumAcos (g d) (g a)
  | Inst.FlonumAtan d a => Inst.FlonumAtan (g d) (g a)
  | Inst.FlonumLog2 d a b => Inst.FlonumLog2 (g d) (g a) (g b)
  | Inst.FlonumAtan2 d a b => Inst.FlonumAtan2 (g d) (g a) (g b)
  | Inst.FlonumExpt d a b => Inst.FlonumExpt (g d) (g a) (g b)
  | Inst.FlEvenP d a => Inst.FlEvenP (g d) (g a)
  | Inst.FlOddP d a => Inst.FlOddP (g d) (g a)
  | Inst.BitwiseBitCount d a => Inst.BitwiseBitCount (g d) (g a)
  | Inst.BitwiseLength d a => Inst.BitwiseLength (g d) (g a)
  | Inst.FxFirstBitSet d a => Inst.FxFirstBitSet (g d) (g a)
  | Inst.StringTitlecase d a => Inst.StringTitlecase (g d) (g a)
  | Inst.StringHash d a => Inst.StringHash (g d) (g a)
  | Inst.SymbolHash d a => Inst.SymbolHash (g d) (g a)
  | Inst.BitwiseArithShiftLeft d a b => Inst.BitwiseArithShiftLeft (g d) (g a) (g b)
  | Inst.BitwiseArithShiftRight d a b => Inst.BitwiseArithShiftRight (g d) (g a) (g b)
  | Inst.BitwiseBitSetP d a b => Inst.BitwiseBitSetP (g d) (g a) (g b)
  | Inst.FlonumAbs d a => Inst.FlonumAbs (g d) (g a)
  | Inst.FlonumMax d a b => Inst.FlonumMax (g d) (g a) (g b)
  | Inst.FlonumMin d a b => Inst.FlonumMin (g d) (g a) (g b)
  | Inst.FlonumFloor d a => Inst.FlonumFloor (g d) (g a)
  | Inst.FlonumCeil d a => Inst.FlonumCeil (g d) (g a)
  | Inst.FlonumTrunc d a => Inst.FlonumTrunc (g d) (g a)
  | Inst.FlonumRound d a => Inst.FlonumRound (g d) (g a)
  | Inst.Lt d a b => Inst.Lt (g d) (g a) (g b)
  | Inst.Eq d a b => Inst.Eq (g d) (g a) (g b)
  | Inst.Call d a l => Inst.Call (g d) (g a) (g <$> l)
  | Inst.CallSelf d l => Inst.CallSelf (g d) (g <$> l)
  | Inst.CallGeneral d a l => Inst.CallGeneral (g d) (g a) (g <$> l)
  | Inst.CallBuiltin d k l => Inst.CallBuiltin (g d) k (g <$> l)
  | Inst.EnvLookup d k => Inst.EnvLookup (g d) k
  | Inst.EnvLookupAny d k => Inst.EnvLookupAny (g d) k
  | Inst.EnvSet k d => Inst.EnvSet k (g d)
  | Inst.EnvDefineLocal k d => Inst.EnvDefineLocal k (g d)
  | Inst.VecAlloc d a b => Inst.VecAlloc (g d) (g a) (g b)
  | Inst.VecRef d a b => Inst.VecRef (g d) (g a) (g b)
  | Inst.VecSet d a b c => Inst.VecSet (g d) (g a) (g b) (g c)
  | Inst.VecLength d a => Inst.VecLength (g d) (g a)
  | Inst.VecP d a => Inst.VecP (g d) (g a)
  | Inst.StrAlloc d a b => Inst.StrAlloc (g d) (g a) (g b)
  | Inst.StrRef d a b => Inst.StrRef (g d) (g a) (g b)
  | Inst.StrLength d a => Inst.StrLength (g d) (g a)
  | Inst.StrP d a => Inst.StrP (g d) (g a)
  | Inst.StrEq d a b => Inst.StrEq (g d) (g a) (g b)
  | Inst.StrLt d a b => Inst.StrLt (g d) (g a) (g b)
  | Inst.StrGt d a b => Inst.StrGt (g d) (g a) (g b)
  | Inst.StrLe d a b => Inst.StrLe (g d) (g a) (g b)
  | Inst.StrGe d a b => Inst.StrGe (g d) (g a) (g b)
  | Inst.StrCiEq d a b => Inst.StrCiEq (g d) (g a) (g b)
  | Inst.StrCiLt d a b => Inst.StrCiLt (g d) (g a) (g b)
  | Inst.StrCiGt d a b => Inst.StrCiGt (g d) (g a) (g b)
  | Inst.StrCiLe d a b => Inst.StrCiLe (g d) (g a) (g b)
  | Inst.StrCiGe d a b => Inst.StrCiGe (g d) (g a) (g b)
  | Inst.StringToVector d a => Inst.StringToVector (g d) (g a)
  | Inst.VectorToString d a => Inst.VectorToString (g d) (g a)
  | Inst.EqualAny d a b => Inst.EqualAny (g d) (g a) (g b)
  | Inst.NumberToString d a => Inst.NumberToString (g d) (g a)
  | Inst.StringToNumber d a => Inst.StringToNumber (g d) (g a)
  | Inst.Substring d a b c => Inst.Substring (g d) (g a) (g b) (g c)
  | Inst.Length d a => Inst.Length (g d) (g a)
  | Inst.ListP d a => Inst.ListP (g d) (g a)
  | Inst.Reverse d a => Inst.Reverse (g d) (g a)
  | Inst.Memq d a b => Inst.Memq (g d) (g a) (g b)
  | Inst.Assq d a b => Inst.Assq (g d) (g a) (g b)
  | Inst.SetCar d a b => Inst.SetCar (g d) (g a) (g b)
  | Inst.SetCdr d a b => Inst.SetCdr (g d) (g a) (g b)
  | Inst.Memv d a b => Inst.Memv (g d) (g a) (g b)
  | Inst.Assv d a b => Inst.Assv (g d) (g a) (g b)
  | Inst.Member d a b => Inst.Member (g d) (g a) (g b)
  | Inst.Assoc d a b => Inst.Assoc (g d) (g a) (g b)
  | Inst.ListTail d a b => Inst.ListTail (g d) (g a) (g b)
  | Inst.ListRef d a b => Inst.ListRef (g d) (g a) (g b)
  | Inst.ListCopy d a => Inst.ListCopy (g d) (g a)
  | Inst.ListSet d a b c => Inst.ListSet (g d) (g a) (g b) (g c)
  | Inst.BvP d a => Inst.BvP (g d) (g a)
  | Inst.BvLength d a => Inst.BvLength (g d) (g a)
  | Inst.BvU8Ref d a b => Inst.BvU8Ref (g d) (g a) (g b)
  | Inst.BvS8Ref d a b => Inst.BvS8Ref (g d) (g a) (g b)
  | Inst.BvU16NativeRef d a b => Inst.BvU16NativeRef (g d) (g a) (g b)
  | Inst.BvS16NativeRef d a b => Inst.BvS16NativeRef (g d) (g a) (g b)
  | Inst.BvU32NativeRef d a b => Inst.BvU32NativeRef (g d) (g a) (g b)
  | Inst.BvS32NativeRef d a b => Inst.BvS32NativeRef (g d) (g a) (g b)
  | Inst.BvIeeeSingleNativeRef d a b => Inst.BvIeeeSingleNativeRef (g d) (g a) (g b)
  | Inst.BvIeeeDoubleNativeRef d a b => Inst.BvIeeeDoubleNativeRef (g d) (g a) (g b)
  | Inst.BvU64NativeRef d a b => Inst.BvU64NativeRef (g d) (g a) (g b)
  | Inst.BvS64NativeRef d a b => Inst.BvS64NativeRef (g d) (g a) (g b)
  | Inst.BvAlloc d a b => Inst.BvAlloc (g d) (g a) (g b)
  | Inst.VecBuild d l => Inst.VecBuild (g d) (g <$> l)
  | Inst.StrBuild d l => Inst.StrBuild (g d) (g <$> l)
  | Inst.BvBuild d l => Inst.BvBuild (g d) (g <$> l)
  | Inst.StrAppend d l => Inst.StrAppend (g d) (g <$> l)
  | Inst.ListAppend d l => Inst.ListAppend (g d) (g <$> l)
  | Inst.VecAppend d l => Inst.VecAppend (g d) (g <$> l)
  | Inst.BvAppend d l => Inst.BvAppend (g d) (g <$> l)
  | Inst.BvU8Set d a b c => Inst.BvU8Set (g d) (g a) (g b) (g c)
  | Inst.BvS8Set d a b c => Inst.BvS8Set (g d) (g a) (g b) (g c)
  | Inst.BvU16NativeSet d a b c => Inst.BvU16NativeSet (g d) (g a) (g b) (g c)
  | Inst.BvS16NativeSet d a b c => Inst.BvS16NativeSet (g d) (g a) (g b) (g c)
  | Inst.BvU32NativeSet d a b c => Inst.BvU32NativeSet (g d) (g a) (g b) (g c)
  | Inst.BvS32NativeSet d a b c => Inst.BvS32NativeSet (g d) (g a) (g b) (g c)
  | Inst.BvIeeeSingleNativeSet d a b c => Inst.BvIeeeSingleNativeSet (g d) (g a) (g b) (g c)
  | Inst.BvIeeeDoubleNativeSet d a b c => Inst.BvIeeeDoubleNativeSet (g d) (g a) (g b) (g c)
  | Inst.BvU64NativeSet d a b c => Inst.BvU64NativeSet (g d) (g a) (g b) (g c)
  | Inst.BvS64NativeSet d a b c => Inst.BvS64NativeSet (g d) (g a) (g b) (g c)
  | Inst.VecFill d a b => Inst.VecFill (g d) (g a) (g b)
  | Inst.BvFill d a b => Inst.BvFill (g d) (g a) (g b)
  | Inst.StrSet d a b c => Inst.StrSet (g d) (g a) (g b) (g c)
  | Inst.StrFill d a b => Inst.StrFill (g d) (g a) (g b)
  | Inst.StrCopy d a => Inst.StrCopy (g d) (g a)
  | Inst.VecCopy d a => Inst.VecCopy (g d) (g a)
  | Inst.BvCopy d a => Inst.BvCopy (g d) (g a)
  | Inst.ProcedureP d a => Inst.ProcedureP (g d) (g a)
  | Inst.PortP d a => Inst.PortP (g d) (g a)
  | Inst.InputPortP d a => Inst.InputPortP (g d) (g a)
  | Inst.OutputPortP d a => Inst.OutputPortP (g d) (g a)
  | Inst.BinaryPortP d a => Inst.BinaryPortP (g d) (g a)
  | Inst.TextualPortP d a => Inst.TextualPortP (g d) (g a)
  | Inst.OutputPortOpenP d a => Inst.OutputPortOpenP (g d) (g a)
  | Inst.PortEofP d a => Inst.PortEofP (g d) (g a)
  | Inst.PortHasSetPortPositionP d a => Inst.PortHasSetPortPositionP (g d) (g a)
  | Inst.PortPosition d a => Inst.PortPosition (g d) (g a)
  | Inst.PromiseP d a => Inst.PromiseP (g d) (g a)
  | Inst.HashtableP d a => Inst.HashtableP (g d) (g a)
  | Inst.HashtableSize d a => Inst.HashtableSize (g d) (g a)
  | Inst.HashtableMutableP d a => Inst.HashtableMutableP (g d) (g a)
  | Inst.HashtableKeys d a => Inst.HashtableKeys (g d) (g a)
  | Inst.HashtableValues d a => Inst.HashtableValues (g d) (g a)
  | Inst.HashtableClear d a => Inst.HashtableClear (g d) (g a)
  | Inst.EqualHash d a => Inst.EqualHash (g d) (g a)
  | Inst.HashtableToAlist d a => Inst.HashtableToAlist (g d) (g a)
  | Inst.FileExistsP d a => Inst.FileExistsP (g d) (g a)
  | Inst.CurrentSecond d => Inst.CurrentSecond (g d)
  | Inst.CurrentJiffy d => Inst.CurrentJiffy (g d)
  | Inst.AppendReverse d a b => Inst.AppendReverse (g d) (g a) (g b)
  | Inst.AlistCopy d a => Inst.AlistCopy (g d) (g a)
  | Inst.Delete d a b => Inst.Delete (g d) (g a) (g b)
  | Inst.DeleteDuplicates d a => Inst.DeleteDuplicates (g d) (g a)
  | Inst.MakePromise d a => Inst.MakePromise (g d) (g a)
  | Inst.ForceForced d a => Inst.ForceForced (g d) (g a)
  | Inst.HashtableContainsP d a b => Inst.HashtableContainsP (g d) (g a) (g b)
  | Inst.HashtableDelete d a b => Inst.HashtableDelete (g d) (g a) (g b)
  | Inst.HashtableSet d a b c => Inst.HashtableSet (g d) (g a) (g b) (g c)
  | Inst.HashtableRef d a b c => Inst.HashtableRef (g d) (g a) (g b) (g c)
  | Inst.HashtableCopy d a => Inst.HashtableCopy (g d) (g a)
  | Inst.VecCopySlice d a b c => Inst.VecCopySlice (g d) (g a) (g b) (g c)
  | Inst.BvCopySlice d a b c => Inst.BvCopySlice (g d) (g a) (g b) (g c)
  | Inst.EofObject d => Inst.EofObject (g d)
  | Inst.StringReplaceFirst d a b c => Inst.StringReplaceFirst (g d) (g a) (g b) (g c)
  | Inst.BvFillSlice d a b c x => Inst.BvFillSlice (g d) (g a) (g b) (g c) (g x)
  | Inst.VecFillSlice d a b c x => Inst.VecFillSlice (g d) (g a) (g b) (g c) (g x)
  | Inst.StrFillSlice d a b c x => Inst.StrFillSlice (g d) (g a) (g b) (g c) (g x)
  | Inst.ExactNonNegIntP d a => Inst.ExactNonNegIntP (g d) (g a)
  | Inst.BytevectorEqP d a b => Inst.BytevectorEqP (g d) (g a) (g b)
  | Inst.VectorEqP d a b => Inst.VectorEqP (g d) (g a) (g b)
  | Inst.Div0 d a b => Inst.Div0 (g d) (g a) (g b)
  | Inst.HashtableHashFn d a => Inst.HashtableHashFn (g d) (g a)
  | Inst.MakeHashtableEqual d => Inst.MakeHashtableEqual (g d)
  | Inst.MakeHashtableEq d => Inst.MakeHashtableEq (g d)
  | Inst.MakeHashtableEqv d => Inst.MakeHashtableEqv (g d)
  | Inst.VecCopyFrom d a b => Inst.VecCopyFrom (g d) (g a) (g b)
  | Inst.BvCopyFrom d a b => Inst.BvCopyFrom (g d) (g a) (g b)
  | Inst.StrCopyFrom d a b => Inst.StrCopyFrom (g d) (g a) (g b)
  | Inst.BvFillFrom d a b c => Inst.BvFillFrom (g d) (g a) (g b) (g c)
  | Inst.VecFillFrom d a b c => Inst.VecFillFrom (g d) (g a) (g b) (g c)
  | Inst.StrFillFrom d a b c => Inst.StrFillFrom (g d) (g a) (g b) (g c)
  | Inst.VectorToStringSlice d a b c => Inst.VectorToStringSlice (g d) (g a) (g b) (g c)
  | Inst.StringToVectorSlice d a b c => Inst.StringToVectorSlice (g d) (g a) (g b) (g c)
  | Inst.VectorToListSlice d a b c => Inst.VectorToListSlice (g d) (g a) (g b) (g c)
  | Inst.StringToListSlice d a b c => Inst.StringToListSlice (g d) (g a) (g b) (g c)
  | Inst.BytevectorToListSlice d a b c => Inst.BytevectorToListSlice (g d) (g a) (g b) (g c)
  | Inst.NumberToStringRadix d a b => Inst.NumberToStringRadix (g d) (g a) (g b)
  | Inst.StringToNumberRadix d a b => Inst.StringToNumberRadix (g d) (g a) (g b)
  | Inst.MakeListUnspec d a => Inst.MakeListUnspec (g d) (g a)
  | Inst.MakeVectorUnspec d a => Inst.MakeVectorUnspec (g d) (g a)
  | Inst.VectorToListSliceFrom d a b => Inst.VectorToListSliceFrom (g d) (g a) (g b)
  | Inst.StringToListSliceFrom d a b => Inst.StringToListSliceFrom (g d) (g a) (g b)
  | Inst.BytevectorToListSliceFrom d a b => Inst.BytevectorToListSliceFrom (g d) (g a) (g b)
  | Inst.VectorToStringSliceFrom d a b => Inst.VectorToStringSliceFrom (g d) (g a) (g b)
  | Inst.StringToVectorSliceFrom d a b => Inst.StringToVectorSliceFrom (g d) (g a) (g b)
  | Inst.VecCopyBangFrom d a b c x => Inst.VecCopyBangFrom (g d) (g a) (g b) (g c) (g x)
  | Inst.BvCopyBangFrom d a b c x => Inst.BvCopyBangFrom (g d) (g a) (g b) (g c) (g x)
  | Inst.StrCopyBangFrom d a b c x => Inst.StrCopyBangFrom (g d) (g a) (g b) (g c) (g x)
  | Inst.VecCopyBangSlice d a b c x y => Inst.VecCopyBangSlice (g d) (g a) (g b) (g c) (g x) (g y)
  | Inst.BvCopyBangSlice d a b c x y => Inst.BvCopyBangSlice (g d) (g a) (g b) (g c) (g x) (g y)
  | Inst.StrCopyBangSlice d a b c x y => Inst.StrCopyBangSlice (g d) (g a) (g b) (g c) (g x) (g y)
  | Inst.Mod0 d a b => Inst.Mod0 (g d) (g a) (g b)
  | Inst.DivEuclid d a b => Inst.DivEuclid (g d) (g a) (g b)
  | Inst.ModEuclid d a b => Inst.ModEuclid (g d) (g a) (g b)
  | Inst.EofP d a => Inst.EofP (g d) (g a)
  | Inst.SymbolP d a => Inst.SymbolP (g d) (g a)
  | Inst.CharP d a => Inst.CharP (g d) (g a)
  | Inst.BoolP d a => Inst.BoolP (g d) (g a)
  | Inst.FixnumP d a => Inst.FixnumP (g d) (g a)
  | Inst.FlonumP d a => Inst.FlonumP (g d) (g a)
  | Inst.CharAlphabeticP d a => Inst.CharAlphabeticP (g d) (g a)
  | Inst.CharNumericP d a => Inst.CharNumericP (g d) (g a)
  | Inst.CharWhitespaceP d a => Inst.CharWhitespaceP (g d) (g a)
  | Inst.CharUpcase d a => Inst.CharUpcase (g d) (g a)
  | Inst.CharDowncase d a => Inst.CharDowncase (g d) (g a)
  | Inst.CharUpperCaseP d a => Inst.CharUpperCaseP (g d) (g a)
  | Inst.CharLowerCaseP d a => Inst.CharLowerCaseP (g d) (g a)
  | Inst.CharFoldcase d a => Inst.CharFoldcase (g d) (g a)
  | Inst.CharTitlecase d a => Inst.CharTitlecase (g d) (g a)
  | Inst.DigitValue d a => Inst.DigitValue (g d) (g a)
  | Inst.VectorToList d a => Inst.VectorToList (g d) (g a)
  | Inst.ListToVector d a => Inst.ListToVector (g d) (g a)
  | Inst.StringToList d a => Inst.StringToList (g d) (g a)
  | Inst.ListToString d a => Inst.ListToString (g d) (g a)
  | Inst.SymbolToString d a => Inst.SymbolToString (g d) (g a)
  | Inst.StringToSymbol d a => Inst.StringToSymbol (g d) (g a)
  | Inst.MakeClosure d k => Inst.MakeClosure (g d) k
  | Inst.Quotient d a b => Inst.Quotient (g d) (g a) (g b)
  | Inst.FloorQuotient d a b => Inst.FloorQuotient (g d) (g a) (g b)
  | Inst.FlonumIsNan d a => Inst.FlonumIsNan (g d) (g a)
  | Inst.FlonumIsInfinite d a => Inst.FlonumIsInfinite (g d) (g a)
  | Inst.FlonumIsFinite d a => Inst.FlonumIsFinite (g d) (g a)
  | Inst.FlonumIsInteger d a => Inst.FlonumIsInteger (g d) (g a)
  | Inst.StringReverse d a => Inst.StringReverse (g d) (g a)
  | Inst.StringUpcase d a => Inst.StringUpcase (g d) (g a)
  | Inst.StringDowncase d a => Inst.StringDowncase (g d) (g a)
  | Inst.StringFoldcase d a => Inst.StringFoldcase (g d) (g a)
  | Inst.StringContains d a b => Inst.StringContains (g d) (g a) (g b)
  | Inst.StringPrefixP d a b => Inst.StringPrefixP (g d) (g a) (g b)
  | Inst.StringSuffixP d a b => Inst.StringSuffixP (g d) (g a) (g b)
  | Inst.StringJoin d a b => Inst.StringJoin (g d) (g a) (g b)
  | Inst.StringSplit d a b => Inst.StringSplit (g d) (g a) (g b)
  | Inst.StringPad d a b => Inst.StringPad (g d) (g a) (g b)
  | Inst.StringPadRight d a b => Inst.StringPadRight (g d) (g a) (g b)
  | Inst.StringTrim d a => Inst.StringTrim (g d) (g a)
  | Inst.StringTrimLeft d a => Inst.StringTrimLeft (g d) (g a)
  | Inst.StringTrimRight d a => Inst.StringTrimRight (g d) (g a)
  | Inst.StringReplaceAll d a b c => Inst.StringReplaceAll (g d) (g a) (g b) (g c)
  | Inst.BytevectorToU8List d a => Inst.BytevectorToU8List (g d) (g a)
  | Inst.U8ListToBytevector d a => Inst.U8ListToBytevector (g d) (g a)
  | Inst.StringToUtf8 d a => Inst.StringToUtf8 (g d) (g a)
  | Inst.Utf8ToString d a => Inst.Utf8ToString (g d) (g a)
  | Inst.StringContainsRight d a b => Inst.StringContainsRight (g d) (g a) (g b)
  | Inst.StringIndex d a b => Inst.StringIndex (g d) (g a) (g b)
  | Inst.StringIndexRight d a b => Inst.StringIndexRight (g d) (g a) (g b)
  | Inst.StringTake d a b => Inst.StringTake (g d) (g a) (g b)
  | Inst.StringDrop d a b => Inst.StringDrop (g d) (g a) (g b)
  | Inst.StringTakeRight d a b => Inst.StringTakeRight (g d) (g a) (g b)
  | Inst.StringDropRight d a b => Inst.StringDropRight (g d) (g a) (g b)
  | Inst.MakeList d a b => Inst.MakeList (g d) (g a) (g b)
  | Inst.IotaN d a => Inst.IotaN (g d) (g a)
  | Inst.IotaNs d a b => Inst.IotaNs (g d) (g a) (g b)
  | Inst.IotaNss d a b c => Inst.IotaNss (g d) (g a) (g b) (g c)
  | Inst.LastPair d a => Inst.LastPair (g d) (g a)
  | Inst.Last d a => Inst.Last (g d) (g a)
  | Inst.Take d a b => Inst.Take (g d) (g a) (g b)
  | Inst.Drop d a b => Inst.Drop (g d) (g a) (g b)
  | Inst.NullListP d a => Inst.NullListP (g d) (g a)
  | Inst.Concatenate d a => Inst.Concatenate (g d) (g a)
  | Inst.NotPairP d a => Inst.NotPairP (g d) (g a)
  | Inst.ProperListP d a => Inst.ProperListP (g d) (g a)
  | Inst.DottedListP d a => Inst.DottedListP (g d) (g a)
  | Inst.CircularListP d a => Inst.CircularListP (g d) (g a)
  | Inst.VecCopyBang d a b c => Inst.VecCopyBang (g d) (g a) (g b) (g c)
  | Inst.BvCopyBang d a b c => Inst.BvCopyBang (g d) (g a) (g b) (g c)
  | Inst.StrCopyBang d a b c => Inst.StrCopyBang (g d) (g a) (g b) (g c)
  | Inst.Remainder d a b => Inst.Remainder (g d) (g a) (g b)
  | Inst.Modulo d a b => Inst.Modulo (g d) (g a) (g b)
  | Inst.Gcd d a b => Inst.Gcd (g d) (g a) (g b)
  | Inst.Lcm d a b => Inst.Lcm (g d) (g a) (g b)
  | Inst.Expt d a b => Inst.Expt (g d) (g a) (g b)
  | Inst.ArithShift d a b => Inst.ArithShift (g d) (g a) (g b)
  | Inst.BitAnd d a b => Inst.BitAnd (g d) (g a) (g b)
  | Inst.BitOr d a b => Inst.BitOr (g d) (g a) (g b)
  | Inst.BitXor d a b => Inst.BitXor (g d) (g a) (g b)
  | Inst.BitNot d a => Inst.BitNot (g d) (g a)
  | Inst.AbsFixnum d a => Inst.AbsFixnum (g d) (g a)
  | Inst.MaxFixnum d a b => Inst.MaxFixnum (g d) (g a) (g b)
  | Inst.MinFixnum d a b => Inst.MinFixnum (g d) (g a) (g b)
  | Inst.Param d k => Inst.Param (g d) k
  | Inst.Move d a => Inst.Move (g d) (g a)
  | Inst.IntCharBitcast d a => Inst.IntCharBitcast (g d) (g a)
  | Inst.CharToInt d a => Inst.CharToInt (g d) (g a)
  | Inst.FixToFlo d a => Inst.FixToFlo (g d) (g a)
  | Inst.Cons d a k b t => Inst.Cons (g d) (g a) k (g b) t
  | Inst.ConsRegion d a k b t => Inst.ConsRegion (g d) (g a) k (g b) t
  | Inst.Car d a => Inst.Car (g d) (g a)
  | Inst.Cdr d a => Inst.Cdr (g d) (g a)
  | Inst.PairP d a => Inst.PairP (g d) (g a)
  | Inst.NullP d a => Inst.NullP (g d) (g a)
  | Inst.AnyClone d a => Inst.AnyClone (g d) (g a)
  | Inst.AnyDrop d => Inst.AnyDrop (g d)
  | Inst.BoxTyped d a k => Inst.BoxTyped (g d) (g a) k
  | Inst.AnyToFix d a => Inst.AnyToFix (g d) (g a)
  | Inst.AnyToBool d a => Inst.AnyToBool (g d) (g a)
  | Inst.AnyToFlo d a => Inst.AnyToFlo (g d) (g a)
  | Inst.EqAny d a b => Inst.EqAny (g d) (g a) (g b)
  | Inst.AnyTruthy d a => Inst.AnyTruthy (g d) (g a)
  | Inst.DeoptCheck d k => Inst.DeoptCheck (g d) k
  | Inst.NotBoolean d a => Inst.NotBoolean (g d) (g a)
  end.

(** Renaming keeps the instruction and renames its registers. *)
Lemma operands_rename g i : operands (rename g i) = g <$> operands i.
Proof. by destruct i. Qed.

Lemma rename_rename g k i : rename g (rename k i) = rename (g ∘ k) i.
Proof. destruct i; cbn; try reflexivity; by rewrite <-list_fmap_compose. Qed.
