(* ===== verification/RirSem.v ===== *)
(** * What a register program means

    The meaning of the instructions of [Rir] as the comments of
    [crates/cs-rir/src/lib.rs] give it, for the representation in which every
    register holds a whole value (the uniform tier).  Constants, moves, fixnum
    arithmetic that does not overflow and the operations on pairs are defined
    here; every other one of the 311 instructions is an operation of the
    runtime on the registers that [RirValues] lists, the class [Runtime], of
    which only memory safety is assumed ([RuntimeLaws]): it reads and changes
    what it can reach, and hands out no reference to what is not there.

    An instruction acts on the values of its operands; which registers they are
    in does not matter.  An operation may fail (an error, or a return to the
    interpreter), which ends the run of the function without a value. *)

From stdpp Require Import base numbers gmap list relations.
From Stdlib Require Import ZArith Strings.Byte.
From S2P Require Import Prelude RaftTypes Float64 Text Rir RirValues.

Local Open Scope crab_scope.

Definition loc := positive.

(** ** Values and the runtime *)

Inductive val (X : Type) :=
  | VFix (z : Z)
  | VBool (b : bool)
  | VNull
  | VPair (p : loc)
  | VOther (x : X).

Arguments VFix {X} z.
Arguments VBool {X} b.
Arguments VNull {X}.
Arguments VPair {X} p.
Arguments VOther {X} x.

(** Other values [X], the rest of the memory [E], what they refer to, and the
    operations: the instruction with its registers erased, the operands, the
    pairs and the rest before, the result if there is one, and both after. *)
Class Runtime (X E : Type) := {
  other_refs : X → gset loc;
  rest_refs : E → gset loc;
  operation : Inst.t → list (val X) → gmap loc (val X * val X) → E →
              option (val X) → gmap loc (val X * val X) → E → Prop;
}.

Section refs.
Context {X E : Type} `{Runtime X E}.

Definition refs (v : val X) : gset loc :=
  match v with VPair p => {[p]} | VOther x => other_refs x | _ => ∅ end.

Definition args_refs (l : list (val X)) : gset loc := ⋃ (refs <$> l).

(** The references of values and memory are to pairs that are there. *)
Definition inside (h : gmap loc (val X * val X)) (v : val X) : Prop := refs v ⊆ dom h.

Definition pairs_inside (h : gmap loc (val X * val X)) (k : gmap loc (val X * val X)) : Prop :=
  map_Forall (λ _ c, inside h c.1 ∧ inside h c.2) k.

Definition safe (h : gmap loc (val X * val X)) (e : E) : Prop := pairs_inside h h ∧ rest_refs e ⊆ dom h.

End refs.

(** Operations keep memory safe and free nothing; pairs that nothing refers to
    are left alone and do not matter, whether they are there or not. *)
Class RuntimeLaws (X E : Type) `{Runtime X E} := {
  operation_safe i args h e o h' e' :
    safe h e → Forall (inside h) args → operation i args h e o h' e' →
    dom h ⊆ dom h' ∧ safe h' e' ∧ (∀ v, o = Some v → inside h' v);
  operation_local i args h k e o h' e' :
    k ##ₘ h → safe h e → Forall (inside h) args → operation i args (h ∪ k) e o h' e' →
    ∃ h2, h' = h2 ∪ k ∧ k ##ₘ h2 ∧ operation i args h e o h2 e';
  operation_frame i args h k e o h2 e' :
    k ##ₘ h → k ##ₘ h2 → safe h e → Forall (inside h) args → operation i args h e o h2 e' →
    operation i args (h ∪ k) e o (h2 ∪ k) e';
}.

(** ** Instructions *)

(** The instructions whose first register is not a destination. *)
Definition defines (i : Inst.t) : bool :=
  match i with
  | Inst.DeoptCheck _ _ | Inst.AnyDrop _ | Inst.EnvSet _ _ | Inst.EnvDefineLocal _ _ => false
  | _ => true
  end.

Definition dst (i : Inst.t) : option Value := if defines i then head (operands i) else None.

Definition srcs (i : Inst.t) : list Value := if defines i then tail (operands i) else operands i.

(** The instruction without its registers. *)
Definition erased (i : Inst.t) : Inst.t := rename (λ _, 0%N) i.

Section sem.
Context {X E : Type} `{Runtime X E}.

Notation val := (val X).
Notation pairs := (gmap loc (val * val)).

Definition is_pair (v : val) : bool := match v with VPair _ => true | _ => false end.
Definition is_null (v : val) : bool := match v with VNull => true | _ => false end.

(** Only false is false. *)
Definition truthy (v : val) : bool := match v with VBool false => false | _ => true end.

(** What an instruction does with the values of its operands: it gives a value,
    allocates a pair, reads a slot of a pair, or runs an operation. *)
Inductive meaning :=
  | MValue (v : val)
  | MAllocate (x y : val)
  | MRead (p : loc) (slot : val * val → val)
  | MOperation.

Definition arith (z : Z) : meaning := if decide (in_i64 z) then MValue (VFix z) else MOperation.

Definition meaning_of (i : Inst.t) (args : list val) : meaning :=
  match i, args with
  | Inst.LoadConst _ (Const.Fixnum z), [] => MValue (VFix z)
  | Inst.LoadConst _ (Const.Boolean b), [] => MValue (VBool b)
  | Inst.LoadConst _ Const.Null, [] => MValue VNull
  | Inst.Move _ _, [x] => MValue x
  | Inst.Add _ _ _, [VFix x; VFix y] => arith (x + y)
  | Inst.Sub _ _ _, [VFix x; VFix y] => arith (x - y)
  | Inst.Mul _ _ _, [VFix x; VFix y] => arith (x * y)
  | Inst.Cons _ _ _ _ _, [x; y] | Inst.ConsRegion _ _ _ _ _, [x; y] => MAllocate x y
  | Inst.Car _ _, [VPair p] => MRead p fst
  | Inst.Cdr _ _, [VPair p] => MRead p snd
  | Inst.PairP _ _, [x] => MValue (VBool (is_pair x))
  | Inst.NullP _ _, [x] => MValue (VBool (is_null x))
  | _, _ => MOperation
  end.

Definition acts (i : Inst.t) (args : list val) (h : pairs) (e : E) (o : option val) (h' : pairs) (e' : E) : Prop :=
  match meaning_of i args with
  | MValue v => o = Some v ∧ h' = h ∧ e' = e
  | MAllocate x y => ∃ p, h !! p = None ∧ o = Some (VPair p) ∧ h' = <[p := (x, y)]> h ∧ e' = e
  | MRead p slot => ∃ c, h !! p = Some c ∧ o = Some (slot c) ∧ h' = h ∧ e' = e
  | MOperation => operation i args h e o h' e'
  end.

(** ** Runs *)

(** The registers, the pairs, the rest of the memory, and the pairs that the run
    has allocated in a region. *)
Record state := MkState { st_regs : gmap Value val; st_pairs : pairs; st_rest : E; st_region : gset loc }.

Definition in_region (i : Inst.t) (o : option val) (r : gset loc) : gset loc :=
  match i, o with Inst.ConsRegion _ _ _ _ _, Some (VPair p) => {[p]} ∪ r | _, _ => r end.

(** One instruction: the registers after it, unless it failed. *)
Definition inst_step (i : Inst.t) (s : state) (o : option val) (s' : state) : Prop :=
  ∃ args, mapM (λ v, st_regs s !! v) (srcs i) = Some args ∧
    acts (erased i) args (st_pairs s) (st_rest s) o (st_pairs s') (st_rest s') ∧
    st_region s' = in_region i o (st_region s) ∧
    st_regs s' = match o, dst i with Some r, Some d => <[d := r]> (st_regs s) | _, _ => st_regs s end.

(** Where a run is, or how it ended. *)
Inductive config :=
  | Running (block inst : nat) (s : state)
  | Returned (v : val) (s : state)
  | Failed (s : state).

(** The position of the block of that number. *)
Definition block_index (f : Function) (id : BlockId) : option nat :=
  fst <$> list_find (λ b, bk_id b = id) (fn_blocks f).

Definition bind_params (params : list (Value * Ty.t)) (args : list val) (regs : gmap Value val) :
    option (gmap Value val) :=
  if decide (length params = length args)
  then Some (foldl (λ m x, <[x.1 := x.2]> m) regs (zip params.*1 args)) else None.

(** A jump to a block with arguments for its parameters. *)
Definition goes (f : Function) (target : BlockId) (args : list Value) (s : state) (c : config) : Prop :=
  ∃ j b vs regs, block_index f target = Some j ∧ fn_blocks f !! j = Some b ∧
    mapM (λ v, st_regs s !! v) args = Some vs ∧ bind_params (bk_params b) vs (st_regs s) = Some regs ∧
    c = Running j 0 (MkState regs (st_pairs s) (st_rest s) (st_region s)).

Definition term_step (f : Function) (t : Term) (s : state) (c : config) : Prop :=
  match t with
  | Return v => ∃ x, st_regs s !! v = Some x ∧ c = Returned x s
  | Jump target args => goes f target args s c
  | Branch cond t e args =>
      ∃ x, st_regs s !! cond = Some x ∧ goes f (if truthy x then t else e) args s c
  end.

Definition step (f : Function) (c c' : config) : Prop :=
  match c with
  | Running j n s =>
      ∃ b, fn_blocks f !! j = Some b ∧
        match bk_insts b !! n with
        | Some i => ∃ o s', inst_step i s o s' ∧
            c' = match o with Some _ => Running j (S n) s' | None => Failed s' end
        | None => n = length (bk_insts b) ∧ term_step f (bk_terminator b) s c'
        end
  | _ => False
  end.

(** The start of a call. *)
Definition starts (f : Function) (args : list val) (h : pairs) (e : E) (c : config) : Prop :=
  ∃ j regs, block_index f (fn_entry f) = Some j ∧ bind_params (fn_params f) args ∅ = Some regs ∧
    c = Running j 0 (MkState regs h e ∅).

Definition ended (c : config) : Prop := match c with Running _ _ _ => False | _ => True end.

(** A call that ends. *)
Definition runs (f : Function) (args : list val) (h : pairs) (e : E) (c : config) : Prop :=
  ∃ c0, starts f args h e c0 ∧ rtc (step f) c0 c ∧ ended c.

End sem.
