(* ===== verification/RirFacts.v ===== *)
(** * Facts about the register IR

    The walker of [Rir] visits a list of values and rebuilds the instruction
    from what the closure leaves of them; what it covers is what
    [value_walker_covers] says.  What the verifier accepts is well formed.
    Instructions act alike whatever unreachable pairs are in memory. *)

From stdpp Require Import base numbers gmap list relations.
From Stdlib Require Import ZArith Strings.Byte.
From S2P Require Import Prelude RaftTypes Float64 Text Rir RirValues RirSem.

Local Open Scope crab_scope.
Local Open Scope nat_scope.

(** ** The walker *)

(** The values that the walker visits, and the instruction it leaves when its
    closure renames them. *)
Definition collect (v : Value) (l : list Value) : Value * list Value := (v, l ++ [v]).

Definition values_in (i : Inst.t) : option (list Value) := snd <$> for_each_value_in_inst collect i [].

Definition renamed (g : Value → Value) (i : Inst.t) : option Inst.t :=
  fst <$> for_each_value_in_inst (λ v (s : unit), (g v, s)) i ().

(** An instruction is a shape filled with the values that the walker visits. *)
Definition fills (k : list Value → Inst.t) (n : nat) : Prop :=
  ∀ vs, length vs = n → operands (k vs) = vs ∧
    (∀ g, rename g (k vs) = k (g <$> vs)) ∧
    ∀ S (f : Value → S → Value * S) s,
      for_each_value_in_inst f (k vs) s = Some (k (visit_list f vs s).1, (visit_list f vs s).2).

Ltac open_list :=
  match goal with
  | H : length ?l = S _ |- _ => destruct l as [|? ?]; [discriminate H | cbn [length] in H; injection H as H]
  | H : length ?l = 0 |- _ => apply nil_length_inv in H; subst l
  end.

Ltac walk :=
  cbn; unfold visit1, visit2, visit3, visit4, visit1_list, visit2_list;
  repeat match goal with
  | |- context [?f ?v ?s] =>
      lazymatch type of (f v s) with (N * _)%type => destruct (f v s) as [? ?]; cbn end
  end.

Ltac shape l k :=
  exists l, k; split; [reflexivity |]; intros vs Hl; cbn [length] in Hl; repeat open_list;
  split; [reflexivity |]; split; [intros g; reflexivity |]; intros S f s; walk; try reflexivity;
  by destruct (visit_list f _ _).

Lemma walker_shape i : value_walker_covers i = true → ∃ vs k, i = k vs ∧ fills k (length vs).
Proof.
  destruct i; intros Hc; try discriminate Hc; clear Hc.
  all: lazymatch goal with
  | |- ∃ _ _, Inst.AnyDrop ?a = _ ∧ _ => shape [a] (λ l, Inst.AnyDrop (nth 0 l 0%N))
  | |- ∃ _ _, Inst.LoadConst ?a ?c = _ ∧ _ => shape [a] (λ l, Inst.LoadConst (nth 0 l 0%N) c)
  | |- ∃ _ _, Inst.BoxTyped ?a ?b ?c = _ ∧ _ => shape [a; b] (λ l, Inst.BoxTyped (nth 0 l 0%N) (nth 1 l 0%N) c)
  | |- ∃ _ _, Inst.DeoptCheck ?a ?c = _ ∧ _ => shape [a] (λ l, Inst.DeoptCheck (nth 0 l 0%N) c)
  | |- ∃ _ _, Inst.MakeClosure ?a ?c = _ ∧ _ => shape [a] (λ l, Inst.MakeClosure (nth 0 l 0%N) c)
  | |- ∃ _ _, Inst.EnvLookup ?a ?c = _ ∧ _ => shape [a] (λ l, Inst.EnvLookup (nth 0 l 0%N) c)
  | |- ∃ _ _, Inst.EnvLookupAny ?a ?c = _ ∧ _ => shape [a] (λ l, Inst.EnvLookupAny (nth 0 l 0%N) c)
  | |- ∃ _ _, Inst.EnvSet ?c ?a = _ ∧ _ => shape [a] (λ l, Inst.EnvSet c (nth 0 l 0%N))
  | |- ∃ _ _, Inst.EnvDefineLocal ?c ?a = _ ∧ _ => shape [a] (λ l, Inst.EnvDefineLocal c (nth 0 l 0%N))
  | |- ∃ _ _, Inst.Call ?a ?b ?l = _ ∧ _ =>
      shape (a :: b :: l) (λ l, Inst.Call (nth 0 l 0%N) (nth 1 l 0%N) (drop 2 l))
  | |- ∃ _ _, Inst.CallGeneral ?a ?b ?l = _ ∧ _ =>
      shape (a :: b :: l) (λ l, Inst.CallGeneral (nth 0 l 0%N) (nth 1 l 0%N) (drop 2 l))
  | |- ∃ _ _, Inst.CallBuiltin ?a ?b ?l = _ ∧ _ =>
      shape (a :: l) (λ l, Inst.CallBuiltin (nth 0 l 0%N) b (drop 1 l))
  | |- ∃ _ _, Inst.CallSelf ?a ?l = _ ∧ _ => shape (a :: l) (λ l, Inst.CallSelf (nth 0 l 0%N) (drop 1 l))
  | |- ∃ _ _, Inst.Cons ?a ?b ?t ?c ?u = _ ∧ _ =>
      shape [a; b; c] (λ l, Inst.Cons (nth 0 l 0%N) (nth 1 l 0%N) t (nth 2 l 0%N) u)
  | |- ∃ _ _, Inst.ConsRegion ?a ?b ?t ?c ?u = _ ∧ _ =>
      shape [a; b; c] (λ l, Inst.ConsRegion (nth 0 l 0%N) (nth 1 l 0%N) t (nth 2 l 0%N) u)
  | |- ∃ _ _, Inst.VecSet ?a ?b ?c ?d = _ ∧ _ =>
      shape [a; b; c; d] (λ l, Inst.VecSet (nth 0 l 0%N) (nth 1 l 0%N) (nth 2 l 0%N) (nth 3 l 0%N))
  | |- ∃ _ _, ?C ?a ?b ?c = _ ∧ _ => shape [a; b; c] (λ l, C (nth 0 l 0%N) (nth 1 l 0%N) (nth 2 l 0%N))
  | |- ∃ _ _, ?C ?a ?b = _ ∧ _ => shape [a; b] (λ l, C (nth 0 l 0%N) (nth 1 l 0%N))
  end.
Qed.

Lemma walker_uncovered {S} (f : Value → S → Value * S) i s :
  value_walker_covers i = false → for_each_value_in_inst f i s = None.
Proof. by destruct i. Qed.

(** The walker of instructions and the predicate that guards it agree: it
    panics on no instruction that [value_walker_covers] accepts, and on every
    other one; the inliner's predicate accepts none but these. *)
Theorem walker_lockstep i :
  (value_walker_covers i = true ↔
     ∀ S (f : Value → S → Value * S) s, is_Some (for_each_value_in_inst f i s)) ∧
  (is_inline_supported i = true → value_walker_covers i = true).
Proof.
  split; [split |].
  - intros (vs & k & -> & Hk)%walker_shape S f s. destruct (Hk vs eq_refl) as (_ & _ & ->). by eexists.
  - intros Hs. destruct (value_walker_covers i) eqn:Hc; [done |].
    destruct (Hs unit (λ v s, (v, s)) ()) as [r Hr]. by rewrite walker_uncovered in Hr.
  - by destruct i.
Qed.

Lemma visit_collect vs acc : visit_list collect vs acc = (vs, acc ++ vs).
Proof.
  revert acc. induction vs as [|v vs IH]; intros acc; cbn; [by rewrite app_nil_r |].
  by rewrite IH, <-app_assoc.
Qed.

Lemma visit_rename g vs : visit_list (λ v (s : unit), (g v, s)) vs () = (g <$> vs, ()).
Proof. induction vs as [|v vs IH]; cbn; [done |]. by rewrite IH. Qed.

(** On what it covers the walker visits the registers of the instruction in
    their order and puts back what the closure leaves. *)
Lemma covered_parts i : value_walker_covers i = true →
  values_in i = Some (operands i) ∧ ∀ g, renamed g i = Some (rename g i).
Proof.
  intros (vs & k & -> & Hk)%walker_shape. destruct (Hk vs eq_refl) as (Hop & Hren & Hwalk). split.
  - unfold values_in. by rewrite Hwalk, visit_collect, Hop.
  - intros g. unfold renamed. by rewrite Hwalk, visit_rename, Hren.
Qed.

(** Renaming keeps the instruction and renames its registers. *)
Lemma rename_parts g i :
  erased (rename g i) = erased i ∧ srcs (rename g i) = g <$> srcs i ∧ dst (rename g i) = g <$> dst i ∧
  defines (rename g i) = defines i.
Proof.
  assert (defines (rename g i) = defines i) as Hd by (by destruct i).
  unfold erased, srcs, dst. rewrite rename_rename, operands_rename, Hd. split_and!; [done | | | done].
  - destruct (defines i); [| done]. by destruct (operands i).
  - destruct (defines i); [| done]. by destruct (operands i).
Qed.

Lemma renamed_parts g i j : renamed g i = Some j →
  value_walker_covers i = true ∧ erased j = erased i ∧ srcs j = g <$> srcs i ∧ dst j = g <$> dst i ∧
  defines j = defines i.
Proof.
  intros Hj. destruct (value_walker_covers i) eqn:Hc.
  - destruct (covered_parts i Hc) as [_ Hren]. rewrite Hren in Hj. injection Hj as <-.
    split; [done |]. apply rename_parts.
  - unfold renamed in Hj. by rewrite walker_uncovered in Hj.
Qed.

(** ** What instructions do to memory *)

Section acts.
Context {X E : Type} `{HL : RuntimeLaws X E}.

Notation val := (val X).
Notation pairs := (gmap loc (val * val)).
Implicit Types (h k : pairs) (e : E) (args : list val).

Lemma meaning_value i args v : meaning_of i args = MValue v → v ∈ args ∨ refs v = ∅.
Proof.
  destruct i; try discriminate; destruct args as [|x [|y [|z args]]]; try discriminate; cbn;
    try (destruct x; try discriminate); try (destruct y; try discriminate);
    try (unfold arith; destruct (decide _); try discriminate);
    try (destruct c; try discriminate); intros [= <-]; first [by right | left; apply list_elem_of_here].
Qed.

Lemma meaning_allocate i args x y : meaning_of i args = MAllocate x y → args = [x; y].
Proof.
  destruct i; try discriminate; destruct args as [|x' [|y' [|z args]]]; try discriminate; cbn;
    try (destruct x'; try discriminate); try (destruct y'; try discriminate);
    try (unfold arith; destruct (decide _); try discriminate);
    try (destruct c; try discriminate); by intros [= <- <-].
Qed.

Lemma meaning_read i args p slot :
  meaning_of i args = MRead p slot → args = [VPair p] ∧ (slot = fst ∨ slot = snd).
Proof.
  destruct i; try discriminate; destruct args as [|x' [|y' [|z args]]]; try discriminate; cbn;
    try (destruct x'; try discriminate); try (destruct y'; try discriminate);
    try (unfold arith; destruct (decide _); try discriminate);
    try (destruct c; try discriminate); intros [= <- <-]; auto.
Qed.

Lemma inside_mono h h' v : dom h ⊆ dom h' → inside h v → inside h' v.
Proof. unfold inside. set_solver. Qed.

Lemma pairs_inside_mono h h' k : dom h ⊆ dom h' → pairs_inside h k → pairs_inside h' k.
Proof. intros Hd Hk p c Hp. destruct (Hk p c Hp). split; by eapply inside_mono. Qed.

Lemma safe_insert h e p x y : h !! p = None → safe h e → inside h x → inside h y →
  safe (<[p := (x, y)]> h) e.
Proof.
  intros Hp [Hh He] Hx Hy. assert (dom h ⊆ dom (<[p := (x, y)]> h)) as Hd by (rewrite dom_insert_L; set_solver).
  split; [| set_solver]. apply map_Forall_insert; [done |].
  split; [split; by eapply inside_mono | by eapply pairs_inside_mono].
Qed.

Lemma slot_inside h e p c (slot : val * val → val) : safe h e → h !! p = Some c → slot = fst ∨ slot = snd →
  inside h (slot c).
Proof. intros [Hh _] Hp Hs. destruct (Hh p c Hp). by destruct Hs as [-> | ->]. Qed.

Lemma acts_safe i args h e o h' e' : safe h e → Forall (inside h) args → acts i args h e o h' e' →
  dom h ⊆ dom h' ∧ safe h' e' ∧ (∀ v, o = Some v → inside h' v).
Proof.
  intros Hs Ha. unfold acts. destruct (meaning_of i args) as [v|x y|p slot|] eqn:Hm.
  - intros (-> & -> & ->). split_and!; [done | done |]. intros ? [= <-].
    destruct (meaning_value _ _ _ Hm) as [Hin|Hr]; [by eapply Forall_forall in Hin | unfold inside; set_solver].
  - intros (p & Hp & -> & -> & ->). apply meaning_allocate in Hm as ->.
    inversion_clear Ha as [|? ? Hx Ha']. inversion_clear Ha' as [|? ? Hy _].
    assert (dom h ⊆ dom (<[p := (x, y)]> h)) as Hd by (rewrite dom_insert_L; set_solver).
    split_and!; [done | by apply safe_insert |]. intros ? [= <-]. unfold inside. cbn. rewrite dom_insert_L. set_solver.
  - intros (c & Hp & -> & -> & ->). apply meaning_read in Hm as [_ Hslot].
    split_and!; [done | done |]. intros ? [= <-]. by eapply slot_inside.
  - by apply operation_safe.
Qed.

(** Pairs that nothing refers to can be taken away. *)
Lemma acts_local i args h k e o h' e' :
  k ##ₘ h → safe h e → Forall (inside h) args → acts i args (h ∪ k) e o h' e' →
  ∃ h2, h' = h2 ∪ k ∧ k ##ₘ h2 ∧ acts i args h e o h2 e'.
Proof.
  intros Hk Hs Ha. unfold acts. destruct (meaning_of i args) as [v|x y|p slot|] eqn:Hm.
  - intros (-> & -> & ->). by exists h.
  - intros (p & [Hp Hpk]%lookup_union_None & -> & -> & ->). exists (<[p := (x, y)]> h).
    split_and!; [by rewrite insert_union_l | by apply map_disjoint_insert_r | by exists p].
  - intros (c & Hc & -> & -> & ->). exists h. split_and!; [done | done |]. exists c. split_and!; try done.
    apply meaning_read in Hm as [-> _]. inversion_clear Ha as [|? ? Hp _].
    assert (p ∈ dom h) as [c' Hc']%elem_of_dom by (unfold inside in Hp; cbn in Hp; set_solver).
    by rewrite lookup_union_l' in Hc.
  - by apply operation_local.
Qed.

(** Pairs that nothing refers to can be there. *)
Lemma acts_frame i args h k e o h2 e' :
  k ##ₘ h → k ##ₘ h2 → safe h e → Forall (inside h) args → acts i args h e o h2 e' →
  acts i args (h ∪ k) e o (h2 ∪ k) e'.
Proof.
  intros Hk Hk2 Hs Ha. unfold acts. destruct (meaning_of i args) as [v|x y|p slot|] eqn:Hm.
  - by intros (-> & -> & ->).
  - intros (p & Hp & -> & -> & ->). exists p. apply map_disjoint_insert_r in Hk2 as [Hpk _].
    split_and!; [by apply lookup_union_None | done | by rewrite insert_union_l | done].
  - intros (c & Hc & -> & -> & ->). exists c. split_and!; try done. by apply lookup_union_Some_l.
  - by apply operation_frame.
Qed.

End acts.

(** ** The verifier *)

Definition block_defs (b : Block) : list Value := (bk_params b).*1 ++ omap verified_dst (bk_insts b).

Definition block_targets (b : Block) : list BlockId :=
  match bk_terminator b with Return _ => [] | Jump t _ => [t] | Branch _ t e _ => [t; e] end.

Lemma see_defs_ok vs defined :
  (∃ d, see_defs vs defined = inr d ∧ d = list_to_set vs ∪ defined) ↔ NoDup vs ∧ ∀ v, v ∈ vs → v ∉ defined.
Proof.
  revert defined. induction vs as [|v vs IH]; intros defined; cbn [see_defs].
  - split; [intros _; split; [constructor | by intros ? ?%elem_of_nil] |]. intros _. eexists. split; [done | set_solver].
  - destruct (decide (v ∈ defined)) as [Hv|Hv].
    + split; [by intros (? & ? & _) |]. intros [_ Hn]. by destruct (Hn v (list_elem_of_here _ _)).
    + rewrite list_to_set_cons.
      rewrite NoDup_cons. specialize (IH ({[v]} ∪ defined)).
      assert (list_to_set vs ∪ ({[v]} ∪ defined) = {[v]} ∪ list_to_set vs ∪ defined) as Heq by set_solver.
      rewrite <-Heq, IH. set_solver.
Qed.

Lemma see_defs_inr vs defined d : see_defs vs defined = inr d → d = list_to_set vs ∪ defined.
Proof.
  revert defined. induction vs as [|v vs IH]; intros defined; cbn [see_defs]; [intros [= <-]; set_solver |].
  destruct (decide _); [done |]. intros Hd%IH. rewrite list_to_set_cons. set_solver.
Qed.

Lemma verify_term_ok known b : verify_term known b = None ↔ ∀ t, t ∈ block_targets b → t ∈ known.
Proof.
  unfold verify_term, block_targets. destruct (bk_terminator b) as [v|t args|c t e args];
    repeat case_decide; set_solver.
Qed.

Lemma verify_blocks_ok known bs defined :
  verify_blocks known bs defined = inr () ↔
  NoDup (bs ≫= block_defs) ∧ (∀ v, v ∈ bs ≫= block_defs → v ∉ defined) ∧
  ∀ b t, b ∈ bs → t ∈ block_targets b → t ∈ known.
Proof.
  revert defined. induction bs as [|b bs IH]; intros defined; cbn [verify_blocks mbind list_bind].
  { split; [intros _; split_and!; [constructor | set_solver | set_solver] | done]. }
  fold (block_defs b). pose proof (see_defs_ok (block_defs b) defined) as Hsee.
  destruct (see_defs (block_defs b) defined) as [err|d] eqn:Hd.
  - split; [done |]. intros (Hn & Hv & _). apply NoDup_app in Hn as (Hn & _ & _).
    destruct Hsee as [_ [d [Hd' _]]]; [| done]. split; [done |]. intros v Hin. apply Hv. set_solver.
  - pose proof (see_defs_inr _ _ _ Hd) as ->. destruct Hsee as [[Hn Hv] _]; [by eexists |].
    pose proof (verify_term_ok known b) as Ht. destruct (verify_term known b) as [err|].
    + split; [done |]. intros (_ & _ & Hall). destruct Ht as [_ Ht]. discriminate Ht. intros t.
      apply Hall, list_elem_of_here.
    + rewrite IH, NoDup_app. destruct Ht as [Ht _]. specialize (Ht eq_refl).
      generalize dependent (bs ≫= block_defs). intros l _.
      setoid_rewrite elem_of_union. setoid_rewrite elem_of_list_to_set. setoid_rewrite elem_of_app.
      setoid_rewrite elem_of_cons. clear -Hn Hv Ht. naive_solver.
Qed.

(** C34: the verifier accepts exactly the functions that have their entry block,
    whose terminators go to blocks of the function, and that define no value
    twice, among the definitions that it knows of. *)
Theorem verify_accepts f :
  verify f = inr () ↔
  fn_entry f ∈ bk_id <$> fn_blocks f ∧
  NoDup ((fn_params f).*1 ++ (fn_blocks f ≫= block_defs)) ∧
  ∀ b t, b ∈ fn_blocks f → t ∈ block_targets b → t ∈ bk_id <$> fn_blocks f.
Proof.
  unfold verify. destruct (decide _) as [He|He]; rewrite elem_of_list_to_set in He; [| by split; [| intros [? _]]].
  pose proof (see_defs_ok (fn_params f).*1 ∅) as Hsee.
  destruct (see_defs (fn_params f).*1 ∅) as [err|d] eqn:Hd.
  - split; [done |]. intros (_ & Hn & _). apply NoDup_app in Hn as (Hn & _ & _).
    destruct Hsee as [_ [d [Hd' _]]]; [set_solver | done].
  - pose proof (see_defs_inr _ _ _ Hd) as ->. destruct Hsee as [[Hn _] _]; [by eexists |].
    rewrite verify_blocks_ok, NoDup_app. setoid_rewrite elem_of_list_to_set.
    setoid_rewrite elem_of_union. setoid_rewrite elem_of_list_to_set. clear -Hn He.
    generalize (fn_blocks f ≫= block_defs). intros l. split.
    2: { intros (_ & (_ & H2 & H3) & H4). split_and!; try done. intros x Hx [Hp|Hp%elem_of_empty]; [by eapply H2 | done]. }
    intros (H1 & H2 & H3). split_and!; try done. intros x Hx Hl. by destruct (H2 x Hl); left.
Qed.
