(* ===== verification/Opt.v ===== *)
(** * The optimiser

    [crates/cs-opt]: the passes of [src/passes] over the programs of [Rir]
    (constant folding, removal of dead blocks, scalar replacement of pairs,
    promotion of pairs to regions, and counting), and the registry and pipeline
    of [src/lib.rs] that select and order them.

    A pass returns [None] where the code would panic; [OptPipeline] shows that
    it never does.  The verification of each pass's result is behind
    a feature flag and not part of the pipeline here, and the lists of active
    and default passes, which are thread-local and global in the code, are
    arguments. *)

From stdpp Require Import base numbers gmap list.
From Stdlib Require Import ZArith Strings.Byte.
From S2P Require Import Prelude RaftTypes Float64 Text Rir.

Local Open Scope crab_scope.

(** ** Constant folding: [passes/constant_fold.rs] *)

(** [checked_add] and the like. *)
Definition checked (z : Z) : option Z := if decide (in_i64 z) then Some z else None.

Definition fold_inst (i : Inst.t) (fixnums : gmap Value Z) : option Inst.t :=
  let folded op d lhs rhs :=
    a ← fixnums !! lhs; b ← fixnums !! rhs; r ← checked (op a b);
    mret (Inst.LoadConst d (Const.Fixnum r)) in
  match i with
  | Inst.Add d lhs rhs => folded Z.add d lhs rhs
  | Inst.Sub d lhs rhs => folded Z.sub d lhs rhs
  | Inst.Mul d lhs rhs => folded Z.mul d lhs rhs
  | _ => None
  end.

(** A fixnum constant is remembered. *)
Definition record_fixnum (i : Inst.t) (fixnums : gmap Value Z) : gmap Value Z :=
  match i with Inst.LoadConst d (Const.Fixnum n) => <[d := n]> fixnums | _ => fixnums end.

Fixpoint fold_insts (insts : list Inst.t) (fixnums : gmap Value Z) : list Inst.t * nat :=
  match insts with
  | [] => ([], 0)
  | i :: insts =>
      match fold_inst i fixnums with
      | Some r => let '(insts, n) := fold_insts insts (record_fixnum r fixnums) in (r :: insts, S n)
      | None => let '(insts, n) := fold_insts insts (record_fixnum i fixnums) in (i :: insts, n)
      end
  end.

Definition fold_block (b : Block) : Block := b <| bk_insts := (fold_insts (bk_insts b) ∅).1 |>.

Definition constant_fold (f : Function) : Function * nat :=
  (f <| fn_blocks ::= fmap fold_block |>,
   sum_list_with (λ b, (fold_insts (bk_insts b) ∅).2) (fn_blocks f)).

(** ** Dead blocks: [passes/dead_block_elim.rs] *)

(** The targets of a terminator, the one that is popped first in front. *)
Definition targets (t : Term) : list BlockId :=
  match t with
  | Return _ => []
  | Jump t _ => [t]
  | Branch _ t e _ => [e; t]
  end.

(** The loop of [reachable_blocks]; the stack has its top in front. *)
Fixpoint reach_loop (fuel : nat) (f : Function) (stack : list BlockId) (reach : gset BlockId) :
    option (gset BlockId) :=
  match fuel with
  | O => None
  | S fuel =>
      match stack with
      | [] => Some reach
      | id :: stack =>
          if decide (id ∈ reach) then reach_loop fuel f stack reach
          else
            let reach := {[id]} ∪ reach in
            match list_find (λ b, bk_id b = id) (fn_blocks f) with
            | None => reach_loop fuel f stack reach
            | Some (_, b) => reach_loop fuel f (targets (bk_terminator b) ++ stack) reach
            end
      end
  end.

(** Each block is expanded once, and pushes two targets at most. *)
Definition reach_fuel (f : Function) : nat := 2 * length (fn_blocks f) + 2.

Definition reachable_blocks (f : Function) : option (gset BlockId) :=
  reach_loop (reach_fuel f) f [fn_entry f] ∅.

Definition dead_block_elim (f : Function) : option (Function * nat) :=
  reach ← reachable_blocks f;
  let f' := f <| fn_blocks ::= filter (λ b, bk_id b ∈ reach) |> in
  mret (f', length (fn_blocks f) - length (fn_blocks f')).

(** ** Uses of a value *)

(** The closure that looks for a value. *)
Definition looks_for (v x : Value) (found : bool) : Value * bool := (x, if decide (x = v) then true else found).

Definition inst_mentions (v : Value) (i : Inst.t) : option bool :=
  snd <$> for_each_value_in_inst (looks_for v) i false.

Definition term_mentions (v : Value) (t : Term) : bool := (for_each_value_in_term (looks_for v) t false).2.

Definition fully_covered (f : Function) : bool :=
  forallb (λ b, forallb value_walker_covers (bk_insts b) && is_term_inline_supported (bk_terminator b))
    (fn_blocks f).

(** The instructions of a function with their positions. *)
Definition enumerated (f : Function) : list (nat * nat * Inst.t) :=
  mjoin (imap (λ bi b, imap (λ ii i, (bi, ii, i)) (bk_insts b)) (fn_blocks f)).

(** [func.blocks[bi].insts[ii] = i]. *)
Definition set_inst (bi ii : nat) (i : Inst.t) (f : Function) : Function :=
  f <| fn_blocks ::= alter (λ b, b <| bk_insts ::= <[ii := i]> |>) bi |>.

Definition inst_at (f : Function) (bi ii : nat) : option Inst.t :=
  b ← fn_blocks f !! bi; bk_insts b !! ii.

(** ** Regions: [passes/escape_to_region.rs] *)

(** An instruction other than the one that defines [v]. *)
Definition inst_escapes (v : Value) (i : Inst.t) : option bool :=
  uses_v ← inst_mentions v i;
  mret (if uses_v : bool then
          match i with
          | Inst.Car _ p | Inst.Cdr _ p | Inst.PairP _ p | Inst.NullP _ p => bool_decide (p ≠ v)
          | _ => true
          end
        else false).

Fixpoint insts_escape (v : Value) (skip : option nat) (ii : nat) (insts : list Inst.t) : option bool :=
  match insts with
  | [] => Some false
  | i :: insts =>
      if decide (skip = Some ii) then insts_escape v skip (S ii) insts
      else
        e ← inst_escapes v i;
        if e : bool then Some true else insts_escape v skip (S ii) insts
  end.

Fixpoint blocks_escape (v : Value) (def_bi def_ii bi : nat) (bs : list Block) : option bool :=
  match bs with
  | [] => Some false
  | b :: bs =>
      if term_mentions v (bk_terminator b) then Some true
      else
        e ← insts_escape v (if decide (bi = def_bi) then Some def_ii else None) 0 (bk_insts b);
        if e : bool then Some true else blocks_escape v def_bi def_ii (S bi) bs
  end.

Definition cons_escapes (f : Function) (def_bi def_ii : nat) (v : Value) : option bool :=
  blocks_escape v def_bi def_ii 0 (fn_blocks f).

Definition cons_site (x : nat * nat * Inst.t) : option (nat * nat * Value) :=
  match x with
  | (bi, ii, Inst.Cons d _ _ _ _) => Some (bi, ii, d)
  | _ => None
  end.

(** The sites whose pair does not escape. *)
Fixpoint promotable (f : Function) (sites : list (nat * nat * Value)) : option (list (nat * nat)) :=
  match sites with
  | [] => Some []
  | (bi, ii, v) :: sites =>
      e ← cons_escapes f bi ii v;
      l ← promotable f sites;
      mret (if e : bool then l else (bi, ii) :: l)
  end.

Definition promote_at (f : Function) (x : nat * nat) : Function :=
  match inst_at f x.1 x.2 with
  | Some (Inst.Cons d car ct cdr dt) => set_inst x.1 x.2 (Inst.ConsRegion d car ct cdr dt) f
  | _ => f
  end.

Definition promote_non_escaping_cons (f : Function) : option (Function * nat) :=
  if fully_covered f then
    promote ← promotable f (omap cons_site (enumerated f));
    mret (foldl promote_at f promote, length promote)
  else Some (f, 0).

(** ** Scalar replacement: [passes/scalar_replace_cons.rs] *)

Inductive UseKind := UCar | UCdr | UPairP | UNullP.

Record ConsSite := MkConsSite { cs_bi : nat; cs_ii : nat; cs_dst : Value; cs_car : Value; cs_cdr : Value }.

(** The kind of a use that can be rewritten. *)
Definition use_kind (v : Value) (i : Inst.t) : option UseKind :=
  match i with
  | Inst.Car _ p => if decide (p = v) then Some UCar else None
  | Inst.Cdr _ p => if decide (p = v) then Some UCdr else None
  | Inst.PairP _ p => if decide (p = v) then Some UPairP else None
  | Inst.NullP _ p => if decide (p = v) then Some UNullP else None
  | _ => None
  end.

(** [Some None] is the early return of [None]. *)
Fixpoint insts_uses (v : Value) (skip : option nat) (bi ii : nat) (insts : list Inst.t) :
    option (option (list (nat * nat * UseKind))) :=
  match insts with
  | [] => Some (Some [])
  | i :: insts =>
      if decide (skip = Some ii) then insts_uses v skip bi (S ii) insts
      else
        uses_v ← inst_mentions v i;
        if uses_v : bool then
          match use_kind v i with
          | None => Some None
          | Some k => r ← insts_uses v skip bi (S ii) insts; Some (option_map (cons (bi, ii, k)) r)
          end
        else insts_uses v skip bi (S ii) insts
  end.

Fixpoint blocks_uses (v : Value) (def_bi def_ii bi : nat) (bs : list Block) :
    option (option (list (nat * nat * UseKind))) :=
  match bs with
  | [] => Some (Some [])
  | b :: bs =>
      if term_mentions v (bk_terminator b) then Some None
      else
        u ← insts_uses v (if decide (bi = def_bi) then Some def_ii else None) bi 0 (bk_insts b);
        match u with
        | None => Some None
        | Some u => r ← blocks_uses v def_bi def_ii (S bi) bs; Some (option_map (app u) r)
        end
  end.

Definition collect_eliminable_uses (f : Function) (def_bi def_ii : nat) (v : Value) :
    option (option (list (nat * nat * UseKind))) :=
  blocks_uses v def_bi def_ii 0 (fn_blocks f).

Definition scalar_site (x : nat * nat * Inst.t) : option ConsSite :=
  match x with
  | (bi, ii, Inst.Cons d car _ cdr _) => Some (MkConsSite bi ii d car cdr)
  | _ => None
  end.

(** One use, rewritten to the operand it reads. *)
Definition rewrite_use (site : ConsSite) (f : Function) (u : nat * nat * UseKind) : option Function :=
  let '(ubi, uii, kind) := u in
  i ← inst_at f ubi uii;
  d ← match i with
      | Inst.Car d _ | Inst.Cdr d _ | Inst.PairP d _ | Inst.NullP d _ => Some d
      | _ => None
      end;
  mret (set_inst ubi uii
          match kind with
          | UCar => Inst.Move d (cs_car site)
          | UCdr => Inst.Move d (cs_cdr site)
          | UPairP => Inst.LoadConst d (Const.Boolean true)
          | UNullP => Inst.LoadConst d (Const.Boolean false)
          end f).

Fixpoint rewrite_uses (site : ConsSite) (f : Function) (us : list (nat * nat * UseKind)) : option Function :=
  match us with
  | [] => Some f
  | u :: us => f ← rewrite_use site f u; rewrite_uses site f us
  end.

(** One site: the function after it, and whether the pair was eliminated. *)
Definition eliminate (f : Function) (site : ConsSite) : option (Function * bool) :=
  uses ← collect_eliminable_uses f (cs_bi site) (cs_ii site) (cs_dst site);
  match uses with
  | None => Some (f, false)
  | Some uses =>
      f ← rewrite_uses site f uses;
      mret (set_inst (cs_bi site) (cs_ii site) (Inst.Move (cs_dst site) (cs_car site)) f, true)
  end.

Fixpoint eliminate_all (f : Function) (sites : list ConsSite) : option (Function * nat) :=
  match sites with
  | [] => Some (f, 0)
  | site :: sites =>
      '(f, done) ← eliminate f site;
      '(f, n) ← eliminate_all f sites;
      mret (f, if done : bool then S n else n)
  end.

Definition scalar_replace_cons (f : Function) : option (Function * nat) :=
  if fully_covered f then eliminate_all f (omap scalar_site (enumerated f)) else Some (f, 0).

(** ** Registry and pipeline: [lib.rs] *)

Inductive Bucket := Early | Default | Late.

Definition priority (b : Bucket) : Z := match b with Early => -100 | Default => 0 | Late => 100 end.

Record PassStats := MkStats { ps_runs : gmap bytes nat; ps_mutations : gmap bytes nat }.

Definition bump_count (n : nat) (name : bytes) (m : gmap bytes nat) : gmap bytes nat :=
  <[name := (default 0 (m !! name) + n)%nat]> m.

Definition record_run (name : bytes) (s : PassStats) : PassStats :=
  MkStats (bump_count 1 name (ps_runs s)) (ps_mutations s).

Definition record_mutations (name : bytes) (n : nat) (s : PassStats) : PassStats :=
  MkStats (ps_runs s) (bump_count n name (ps_mutations s)).

(** [trait Pass]. *)
Record Pass := MkPass {
  pass_name : bytes;
  pass_bucket : Bucket;
  pass_run : Function → PassStats → option (Function * PassStats) }.

(** A pass that records its count; [always] when it does so for nothing too. *)
Definition counting (always : bool) (name : bytes) (r : option (Function * nat)) (s : PassStats) :
    option (Function * PassStats) :=
  '(f, n) ← r;
  mret (f, if always || bool_decide (0 < n)%nat then record_mutations name n s else s).

Definition ConstantFold : Pass := MkPass (lit "constant-fold") Early
  (λ f, counting true (lit "constant-fold") (Some (constant_fold f))).

Definition DeadBlockElim : Pass := MkPass (lit "dead-block-elim") Default
  (λ f, counting true (lit "dead-block-elim") (dead_block_elim f)).

Definition EscapeToRegion : Pass := MkPass (lit "escape-to-region") Default
  (λ f, counting false (lit "escape-to-region") (promote_non_escaping_cons f)).

Definition InstStats : Pass := MkPass (lit "inst-stats") Late
  (λ f s, Some (f, record_mutations (lit "inst-stats:blocks") (block_count f)
                     (record_mutations (lit "inst-stats") (inst_count f) s))).

Definition ScalarReplaceCons : Pass := MkPass (lit "scalar-replace-cons") Early
  (λ f, counting false (lit "scalar-replace-cons") (scalar_replace_cons f)).

Inductive RegisterError := InvalidName (name : bytes) | Duplicate (name : bytes).

Definition is_lower (b : byte) : bool := bool_decide (97 ≤ Byte.to_N b ≤ 122)%N.

Definition is_valid_pass_name (name : bytes) : bool :=
  match name with
  | [] => false
  | first :: rest =>
      is_lower first &&
      forallb (λ b, is_lower b || bool_decide (48 ≤ Byte.to_N b ≤ 57)%N || bool_decide (b = "-"%byte)) rest
  end.

(** [PassRegistry::register]. *)
Definition register (registry : gmap bytes Pass) (p : Pass) : RegisterError + gmap bytes Pass :=
  let name := pass_name p in
  if negb (is_valid_pass_name name) then inl (InvalidName name)
  else match registry !! name with
       | Some _ => inl (Duplicate name)
       | None => inr (<[name := p]> registry)
       end.

(** The registry keeps what was registered before an error. *)
Fixpoint register_all (registry : gmap bytes Pass) (ps : list Pass) : gmap bytes Pass * option RegisterError :=
  match ps with
  | [] => (registry, None)
  | p :: ps =>
      match register registry p with
      | inl e => (registry, Some e)
      | inr registry => register_all registry ps
      end
  end.

Definition register_builtins (registry : gmap bytes Pass) : gmap bytes Pass * option RegisterError :=
  register_all registry [ConstantFold; DeadBlockElim; EscapeToRegion; InstStats; ScalarReplaceCons].

(** [sort_by_key] on the priority, which is stable: insertion in front of the
    passes of the same or a later bucket, from the right. *)
Fixpoint insert_pass (p : Pass) (l : list Pass) : list Pass :=
  match l with
  | [] => [p]
  | q :: l => if decide (priority (pass_bucket p) ≤ priority (pass_bucket q))%Z then p :: q :: l
              else q :: insert_pass p l
  end.

Definition sort_passes (l : list Pass) : list Pass := foldr insert_pass [] l.

(** [PassPipeline::from_names]: the unknown names, or the passes in order. *)
Definition from_names (registry : gmap bytes Pass) (names : list bytes) : list bytes + list Pass :=
  match filter (λ n, registry !! n = None) names with
  | [] => inr (sort_passes (omap (λ n, registry !! n) names))
  | unknown => inl unknown
  end.

(** [PassPipeline::run]. *)
Fixpoint run_pipeline (ps : list Pass) (f : Function) (s : PassStats) : option (Function * PassStats) :=
  match ps with
  | [] => Some (f, s)
  | p :: ps => '(f, s) ← pass_run p f (record_run (pass_name p) s); run_pipeline ps f s
  end.

Definition run_active_pipeline_with (registry : gmap bytes Pass) (f : Function) (names : list bytes) :
    option Function :=
  match names with
  | [] => Some f
  | _ =>
      match from_names registry names with
      | inl _ => Some f
      | inr ps => fst <$> run_pipeline ps f (MkStats ∅ ∅)
      end
  end.

(** The default passes, then the active ones that are not among them. *)
Definition merge_names (default_on active : list bytes) : list bytes :=
  foldl (λ names n, if decide (n ∈ names) then names else names ++ [n]) default_on active.

Definition run_active_pipeline (registry : gmap bytes Pass) (default_on active : list bytes) (f : Function) :
    option Function :=
  run_active_pipeline_with registry f (merge_names default_on active).
