(* ===== verification/OptFacts.v ===== *)
(** * Constant folding and dead blocks

    Constant folding leaves the runs of a function as they are, and so does the
    removal of dead blocks, which keeps exactly the blocks that can be reached
    from the entry. *)

From stdpp Require Import base numbers gmap list relations fin_sets.
From Stdlib Require Import ZArith Strings.Byte.
From S2P Require Import Prelude RaftTypes Float64 Text Rir RirValues RirSem RirFacts Opt.

Local Open Scope crab_scope.
Local Open Scope nat_scope.

(** ** Runs in lockstep *)

(** Two step relations that agree, up to a relation of configurations, have the
    same runs. *)
Lemma rtc_simulation {A B} (R1 : relation A) (R2 : relation B) (I : A → B → Prop) a b :
  (∀ a b a', I a b → R1 a a' → ∃ b', R2 b b' ∧ I a' b') → I a b →
  ∀ a', rtc R1 a a' → ∃ b', rtc R2 b b' ∧ I a' b'.
Proof.
  intros Hsim Hab a' Hr. revert b Hab. induction Hr as [a|a a1 a' Hs _ IH]; intros b Hab; [by exists b; split |].
  destruct (Hsim _ _ _ Hab Hs) as (b1 & Hb & Hab1). destruct (IH b1 Hab1) as (b' & Hb' & HI).
  exists b'. split; [by eapply rtc_l | done].
Qed.

(** ** Constant folding *)

(** The constants known after some instructions. *)
Definition known_after (fixnums : gmap Value Z) (insts : list Inst.t) : gmap Value Z :=
  foldl (λ m i, record_fixnum (default i (fold_inst i m)) m) fixnums insts.

Lemma fold_insts_cons i insts m :
  (fold_insts (i :: insts) m).1 =
  default i (fold_inst i m) :: (fold_insts insts (record_fixnum (default i (fold_inst i m)) m)).1.
Proof. cbn [fold_insts]. destruct (fold_inst i m); cbn; by destruct (fold_insts insts _). Qed.

Lemma fold_insts_lookup insts m n :
  (fold_insts insts m).1 !! n = (λ i, default i (fold_inst i (known_after m (take n insts)))) <$> insts !! n.
Proof.
  revert m n. induction insts as [|i insts IH]; intros m n; [done |]. rewrite fold_insts_cons.
  destruct n as [|n]; [done |]. cbn. by rewrite IH.
Qed.

Lemma fold_insts_length insts m : length (fold_insts insts m).1 = length insts.
Proof. revert m. induction insts as [|i insts IH]; intros m; [done |]. rewrite fold_insts_cons. cbn. by rewrite IH. Qed.

Lemma fold_inst_Some i m r : fold_inst i m = Some r →
  ∃ d a b x y z op, m !! a = Some x ∧ m !! b = Some y ∧ in_i64 z ∧ z = op x y ∧
    r = Inst.LoadConst d (Const.Fixnum z) ∧
    ((i = Inst.Add d a b ∧ op = Z.add) ∨ (i = Inst.Sub d a b ∧ op = Z.sub) ∨ (i = Inst.Mul d a b ∧ op = Z.mul)).
Proof.
  destruct i as []; try done; cbn [fold_inst]; intros (x & Hx & (y & Hy & (z & Hz & Hr)%bind_Some)%bind_Some)%bind_Some;
    unfold checked in Hz; destruct (decide (in_i64 _)) as [Hi|]; try done; injection Hz as <-; injection Hr as <-;
    eexists _, _, _, x, y, _, _; (split_and!; [exact Hx | exact Hy | exact Hi | reflexivity | reflexivity | auto]).
Qed.

Lemma fold_inst_dst i m : dst (default i (fold_inst i m)) = dst i.
Proof.
  destruct (fold_inst i m) as [r|] eqn:Hr; [| done].
  by apply fold_inst_Some in Hr as (d & a & b & x & y & z & op & _ & _ & _ & _ & -> & [[-> _]|[[-> _]|[-> _]]]).
Qed.

Section folding.
Context {X E : Type} `{Runtime X E}.

Notation val := (val X).
Notation state := (@state X E).
Notation config := (@config X E).

(** The registers hold the constants that are known. *)
Definition holds (m : gmap Value Z) (regs : gmap Value val) : Prop :=
  ∀ v z, m !! v = Some z → regs !! v = Some (VFix z).

Lemma fold_inst_step i m (s : state) o s' : holds m (st_regs s) →
  inst_step i s o s' ↔ inst_step (default i (fold_inst i m)) s o s'.
Proof.
  intros Hm. destruct (fold_inst i m) as [r|] eqn:Hr; [| done]. cbn [default].
  apply fold_inst_Some in Hr as (d & a & b & x & y & z & op & Ha & Hb & Hz & -> & -> & Hi).
  apply Hm in Ha, Hb.
  assert (srcs i = [a; b] ∧ dst i = Some d ∧
          meaning_of (erased i) [VFix x; VFix y] = MValue (VFix (op x y) : val) ∧
          ∀ o r, in_region i (o : option val) r = r) as (Hs & Hd & Hmean & Hreg).
  { destruct Hi as [[-> ->]|[[-> ->]|[-> ->]]]; (split; [reflexivity |]); (split; [reflexivity |]);
      (split; [| reflexivity]); cbn; unfold arith; by rewrite decide_True. }
  unfold inst_step. rewrite Hs, Hd. cbn [mapM mbind option_bind]. split.
  - intros (args & Hargs & Hacts & Hr & Hregs).
    cbn in Hargs. rewrite Ha, Hb in Hargs. cbn in Hargs. injection Hargs as <-.
    unfold acts in Hacts. rewrite Hmean in Hacts. rewrite Hreg in Hr.
    exists []. by split_and!.
  - intros (args & [= <-] & Hacts & Hr & Hregs).
    exists [VFix x; VFix y]. cbn. rewrite Ha, Hb. unfold acts. rewrite Hmean, Hreg. eauto.
Qed.

Lemma record_fixnum_dst i m v z : record_fixnum i m !! v = Some z → dst i = Some v ∨ m !! v = Some z.
Proof.
  destruct i; auto. destruct c; auto. cbn. intros [[<- _]|[_ ?]]%lookup_insert_Some; auto.
Qed.

Lemma known_after_dst m insts v z : known_after m insts !! v = Some z →
  v ∈ omap dst insts ∨ m !! v = Some z.
Proof.
  revert m. induction insts as [|i insts IH]; intros m; cbn; [auto |]. intros [Hin|Hm]%IH.
  - left. destruct (dst i); [by apply elem_of_cons; right | done].
  - apply record_fixnum_dst in Hm as [Hd|Hm]; [| by right]. rewrite fold_inst_dst in Hd. left.
    rewrite Hd. apply list_elem_of_here.
Qed.

(** A definition after the known ones leaves them as they are. *)
Lemma holds_step i m (s : state) v s' : holds m (st_regs s) → (∀ x z, m !! x = Some z → dst i ≠ Some x) →
  inst_step i s (Some v) s' → holds (record_fixnum (default i (fold_inst i m)) m) (st_regs s').
Proof.
  intros Hm Hnew Hs%(fold_inst_step i m _ _ _ Hm). rewrite <-(fold_inst_dst i m) in Hnew.
  set (j := default i (fold_inst i m)) in *. clearbody j. clear i. rename j into i.
  destruct Hs as (args & Hargs & Hacts & _ & ->). intros x z Hx.
  assert (m !! x = Some z → (match dst i with Some d => <[d := v]> (st_regs s) | None => st_regs s end) !! x =
            Some (VFix z)) as Hold.
  { intros Hxm. specialize (Hnew x z Hxm). destruct (dst i); [| by apply Hm].
    rewrite lookup_insert_ne by congruence. by apply Hm. }
  destruct i; try (by apply Hold). destruct c; try (by apply Hold). cbn in Hx.
  apply lookup_insert_Some in Hx as [[<- <-]|[_ Hx]]; [| by apply Hold].
  injection Hargs as <-. destruct Hacts as ([= <-] & _). cbn. by rewrite lookup_insert_eq.
Qed.

(** Every value is defined once in its block. *)
Definition defined_once (f : Function) : Prop :=
  Forall (λ b, NoDup (omap dst (bk_insts b))) (fn_blocks f).

Lemma block_index_fold f id : block_index (constant_fold f).1 id = block_index f id.
Proof.
  unfold block_index. change (fn_blocks (constant_fold f).1) with (fold_block <$> fn_blocks f).
  generalize (fn_blocks f). intros bs. induction bs as [|b bs IH]; [done |]. cbn.
  change (bk_id (fold_block b)) with (bk_id b). destruct (decide (bk_id b = id)); cbn; [done |].
  destruct (list_find _ (fold_block <$> bs)) as [[? ?]|], (list_find _ bs) as [[? ?]|]; cbn in *; congruence.
Qed.

Lemma blocks_fold f j : fn_blocks (constant_fold f).1 !! j = fold_block <$> fn_blocks f !! j.
Proof. change (fn_blocks (constant_fold f).1) with (fold_block <$> fn_blocks f). apply list_lookup_fmap. Qed.

(** The constants that are known at a point of a run. *)
Definition constants_hold (f : Function) (c : config) : Prop :=
  match c with
  | Running j n s => ∀ b, fn_blocks f !! j = Some b → holds (known_after ∅ (take n (bk_insts b))) (st_regs s)
  | _ => True
  end.

Lemma holds_empty (regs : gmap Value val) : holds ∅ regs.
Proof. intros v z. by rewrite lookup_empty. Qed.

Lemma goes_fold f t args (s : state) c : goes f t args s c ↔ goes (constant_fold f).1 t args s c.
Proof.
  unfold goes. split.
  - intros (j & b & vs & regs & Hj & Hb & Hrest). exists j, (fold_block b), vs, regs.
    by rewrite block_index_fold, blocks_fold, Hb.
  - intros (j & b & vs & regs & Hj & Hb & Hrest). rewrite block_index_fold in Hj. rewrite blocks_fold in Hb.
    apply fmap_Some in Hb as (b0 & Hb & ->). by exists j, b0, vs, regs.
Qed.

Lemma term_step_fold f t (s : state) c : term_step f t s c ↔ term_step (constant_fold f).1 t s c.
Proof.
  destruct t; [done | apply goes_fold |]. cbn [term_step].
  split; intros (x & Hx & Hg); exists x; (split; [done |]).
  - exact (proj1 (goes_fold _ _ _ _ _) Hg).
  - exact (proj2 (goes_fold _ _ _ _ _) Hg).
Qed.

Lemma term_step_start f t (s : state) c : term_step f t s c → ∀ g, constants_hold g c.
Proof.
  assert (∀ t args, goes f t args s c → ∀ g, constants_hold g c) as Hg.
  { intros ? ? (j & b & vs & regs & _ & _ & _ & _ & ->) g b' _. apply holds_empty. }
  destruct t; cbn; [by intros (x & _ & ->) g | by apply Hg | intros (x & _ & ?); by eapply Hg].
Qed.

Lemma step_fold f c c' : constants_hold f c → step f c c' ↔ step (constant_fold f).1 c c'.
Proof.
  destruct c as [j n s|v s|s]; [| done | done]. cbn [constants_hold step]. intros Hh. rewrite blocks_fold.
  destruct (fn_blocks f !! j) as [b|] eqn:Hb; [| split; by intros (? & ? & _)].
  specialize (Hh b eq_refl). split.
  - intros (b' & [= <-] & Hs). exists (fold_block b). split; [done |].
    change (bk_insts (fold_block b)) with (fold_insts (bk_insts b) ∅).1. rewrite fold_insts_lookup.
    destruct (bk_insts b !! n) as [i|]; cbn; 
      [| rewrite fold_insts_length; split; [apply Hs | exact (proj1 (term_step_fold _ _ _ _) (proj2 Hs))]].
    destruct Hs as (o & s' & Hs & ->). exists o, s'. split; [| done]. by apply fold_inst_step.
  - intros (b' & [= <-] & Hs). exists b. split; [done |].
    change (bk_insts (fold_block b)) with (fold_insts (bk_insts b) ∅).1 in Hs. rewrite fold_insts_lookup in Hs.
    destruct (bk_insts b !! n) as [i|]; cbn in Hs;
      [| rewrite fold_insts_length in Hs; split; [apply Hs | exact (proj2 (term_step_fold _ _ _ _) (proj2 Hs))]].
    destruct Hs as (o & s' & Hs & ->). exists o, s'. split; [| done]. by apply fold_inst_step in Hs.
Qed.

Lemma constants_hold_step f c c' : defined_once f → constants_hold f c → step f c c' → constants_hold f c'.
Proof.
  intros Hf. destruct c as [j n s|v s|s]; [| done | done]. intros Hh (b & Hb & Hs). specialize (Hh b Hb).
  destruct (bk_insts b !! n) as [i|] eqn:Hi; [| destruct Hs as [_ Hs]; by eapply term_step_start].
  destruct Hs as ([v|] & s' & Hs & ->); [| done]. intros b' Hb'. rewrite Hb in Hb'. injection Hb' as <-.
  rewrite (take_S_r _ _ _ Hi). unfold known_after. rewrite foldl_app. cbn. fold (known_after ∅ (take n (bk_insts b))).
  eapply holds_step; [done | | done]. intros x z Hx Hd.
  apply known_after_dst in Hx as [Hx|Hx]; [| by rewrite lookup_empty in Hx].
  eapply Forall_lookup_1 in Hf; [| done]. cbn in Hf.
  rewrite <-(take_drop_middle _ _ _ Hi), omap_app in Hf. cbn in Hf. rewrite Hd in Hf.
  apply NoDup_app in Hf as (_ & Hf & _). apply (Hf x Hx), list_elem_of_here.
Qed.

Lemma constant_fold_runs f args h e c : defined_once f →
  runs f args h e c ↔ runs (constant_fold f).1 args h e c.
Proof.
  intros Hf. unfold runs, starts. setoid_rewrite block_index_fold.
  assert (∀ c0, constants_hold f c0 → rtc (step f) c0 c ↔ rtc (step (constant_fold f).1) c0 c) as Hrtc.
  { intros c0 Hc. split; intros Hr.
    - edestruct (rtc_simulation (step f) (step (constant_fold f).1) (λ a b, a = b ∧ constants_hold f a) c0 c0)
        as (? & ? & <- & _); [| done | exact Hr | done].
      intros a ? a' [<- Ha] Hs. exists a'. split; [exact (proj1 (step_fold _ _ _ Ha) Hs) | split; [done | by eapply constants_hold_step]].
    - edestruct (rtc_simulation (step (constant_fold f).1) (step f) (λ a b, a = b ∧ constants_hold f a) c0 c0)
        as (? & ? & <- & _); [| done | exact Hr | done].
      intros a ? a' [<- Ha] Hs%(proj2 (step_fold _ _ _ Ha)). exists a'. split; [done | split; [done | by eapply constants_hold_step]]. }
  split; intros (c0 & (j & regs & Hj & Hregs & ->) & Hr & He); (eexists; split; [by exists j, regs |]);
    (split; [| done]); apply Hrtc; try done; intros b _; apply holds_empty.
Qed.

(** Constant folding leaves the runs of a function as they are, when no
    block defines a value twice: the folded function returns the same values,
    fails where the original does, and leaves the same memory. *)
Theorem constant_fold_preserves f args h e c : defined_once f →
  runs f args h e c ↔ runs (constant_fold f).1 args h e c.
Proof. apply constant_fold_runs. Qed.

End folding.

(** ** Dead blocks *)

(** The block of a number jumps to another one. *)
Definition jumps (f : Function) (id t : BlockId) : Prop :=
  ∃ j b, list_find (λ b, bk_id b = id) (fn_blocks f) = Some (j, b) ∧ t ∈ targets (bk_terminator b).

Definition reachable (f : Function) (id : BlockId) : Prop := rtc (jumps f) (fn_entry f) id.

(** What is left to do: the stack, and the blocks that were not expanded. *)
Definition reach_measure (f : Function) (stack : list BlockId) (reach : gset BlockId) : nat :=
  length stack + 2 * size (list_to_set (bk_id <$> fn_blocks f) ∖ reach : gset BlockId).

Lemma targets_length t : length (targets t) ≤ 2.
Proof. destruct t; cbn; lia. Qed.

Lemma expanded_size (ids reach : gset BlockId) id : id ∈ ids → id ∉ reach →
  S (size (ids ∖ ({[id]} ∪ reach))) ≤ size (ids ∖ reach).
Proof.
  intros Hid Hr. rewrite (union_comm_L {[id]}), <-difference_difference_l_L.
  rewrite (size_difference (ids ∖ reach)) by set_solver. rewrite size_singleton.
  assert (size (ids ∖ reach) ≠ 0); [| lia]. apply size_non_empty_iff. set_solver.
Qed.

Lemma ids_size (ids : list BlockId) : size (list_to_set ids : gset BlockId) ≤ length ids.
Proof.
  induction ids as [|id ids IH]; [done |]. cbn [list_to_set length]. rewrite size_union_alt, size_singleton.
  assert (size (list_to_set ids ∖ {[id]} : gset BlockId) ≤ size (list_to_set ids : gset BlockId)); [| lia].
  apply subseteq_size. set_solver.
Qed.

Lemma found_in f id j b : list_find (λ b, bk_id b = id) (fn_blocks f) = Some (j, b) →
  id ∈ (list_to_set (bk_id <$> fn_blocks f) : gset BlockId).
Proof.
  intros (Hb & <- & _)%list_find_Some. apply elem_of_list_to_set, list_elem_of_fmap.
  exists b. split; [done |]. by eapply list_elem_of_lookup_2.
Qed.

(** The loop ends with the set that is closed under jumps. *)
Lemma reach_loop_spec fuel f stack reach : reach_measure f stack reach < fuel →
  (∀ id, id ∈ reach ∨ id ∈ stack → reachable f id) →
  (∀ id t, id ∈ reach → jumps f id t → t ∈ reach ∨ t ∈ stack) →
  ∃ r, reach_loop fuel f stack reach = Some r ∧ (∀ id, id ∈ reach ∨ id ∈ stack → id ∈ r) ∧
    (∀ id, id ∈ r → reachable f id) ∧ (∀ id t, id ∈ r → jumps f id t → t ∈ r).
Proof.
  revert stack reach. induction fuel as [|fuel IH]; intros stack reach Hm Hr Hc; [lia |]. cbn [reach_loop].
  destruct stack as [|id stack].
  { exists reach. split; [done |]. split; [by intros id [?|?%elem_of_nil] |]. split; [eauto |].
    intros id t Hid Hj. by destruct (Hc id t Hid Hj) as [?|?%elem_of_nil]. }
  unfold reach_measure in Hm. cbn [length] in Hm. setoid_rewrite elem_of_cons in Hr. setoid_rewrite elem_of_cons in Hc.
  destruct (decide (id ∈ reach)) as [Hin|Hin].
  { destruct (IH stack reach) as (r & Hl & Hsub & Hrest); [unfold reach_measure; lia | naive_solver | naive_solver |].
    exists r. split; [done |]. split; [| done]. setoid_rewrite elem_of_cons. naive_solver. }
  destruct (list_find _ _) as [[j b]|] eqn:Hf.
  - pose proof (expanded_size _ reach id (found_in _ _ _ _ Hf) Hin).
    pose proof (targets_length (bk_terminator b)).
    destruct (IH (targets (bk_terminator b) ++ stack) ({[id]} ∪ reach)) as (r & Hl & Hsub & Hrest).
    + unfold reach_measure. rewrite length_app. lia.
    + setoid_rewrite elem_of_app. setoid_rewrite elem_of_union. setoid_rewrite elem_of_singleton.
      assert (reachable f id) by naive_solver.
      intros id' [[->|?]|[Ht|?]]; [done | by auto | | by auto]. eapply rtc_r; [done |]. by exists j, b.
    + setoid_rewrite elem_of_app. setoid_rewrite elem_of_union. setoid_rewrite elem_of_singleton.
      intros id' t [->|Hid'] Hj; [| naive_solver]. destruct Hj as (j' & b' & Hf' & Ht). naive_solver.
    + exists r. split; [done |]. split; [| done]. setoid_rewrite elem_of_cons.
      setoid_rewrite elem_of_app in Hsub. setoid_rewrite elem_of_union in Hsub.
      setoid_rewrite elem_of_singleton in Hsub. naive_solver.
  - destruct (IH stack ({[id]} ∪ reach)) as (r & Hl & Hsub & Hrest).
    + unfold reach_measure.
      assert (size ((list_to_set (bk_id <$> fn_blocks f) : gset BlockId) ∖ ({[id]} ∪ reach)) ≤
              size ((list_to_set (bk_id <$> fn_blocks f) : gset BlockId) ∖ reach)) by (apply subseteq_size; set_solver).
      lia.
    + setoid_rewrite elem_of_union. setoid_rewrite elem_of_singleton. naive_solver.
    + setoid_rewrite elem_of_union. setoid_rewrite elem_of_singleton.
      intros id' t [->|Hid'] Hj; [| naive_solver]. destruct Hj as (j' & b' & Hf' & Ht). naive_solver.
    + exists r. split; [done |]. split; [| done]. setoid_rewrite elem_of_cons.
      setoid_rewrite elem_of_union in Hsub. setoid_rewrite elem_of_singleton in Hsub. naive_solver.
Qed.

Lemma reachable_blocks_spec f : ∃ r, reachable_blocks f = Some r ∧ ∀ id, id ∈ r ↔ reachable f id.
Proof.
  destruct (reach_loop_spec (reach_fuel f) f [fn_entry f] ∅) as (r & Hl & Hsub & Hr & Hc).
  - unfold reach_measure, reach_fuel. cbn [length].
    assert (size ((list_to_set (bk_id <$> fn_blocks f) : gset BlockId) ∖ ∅) ≤ length (fn_blocks f)); [| lia].
    rewrite difference_empty_L, <-(length_fmap bk_id). apply ids_size.
  - intros id [Hid|Hid%list_elem_of_singleton]; [set_solver | subst; constructor].
  - set_solver.
  - exists r. split; [done |]. intros id. split; [apply Hr |]. unfold reachable.
    assert (fn_entry f ∈ r) as He by (apply Hsub; right; apply list_elem_of_here).
    intros Hid. revert He. generalize (fn_entry f) Hid. clear Hid. intros e0 Hid.
    induction Hid as [|x y z Hj _ IH]; eauto.
Qed.

Lemma find_filter (P : Block → Prop) `{∀ b, Decision (P b)} id (bs : list Block) :
  (∀ b, bk_id b = id → P b) →
  snd <$> list_find (λ b, bk_id b = id) (filter P bs) = snd <$> list_find (λ b, bk_id b = id) bs.
Proof.
  intros HP. induction bs as [|b bs IH]; [done |]. cbn [list_find]. rewrite filter_cons.
  assert (∀ o : option (nat * Block), snd <$> (prod_map S (λ b, b) <$> o) = snd <$> o) as Hs by by intros [[]|].
  destruct (decide (bk_id b = id)) as [Hid|Hid].
  - rewrite decide_True by auto. cbn. by rewrite decide_True.
  - destruct (decide (P b)); cbn [list_find]; [rewrite decide_False by done |]; by rewrite ?Hs.
Qed.

(** The block a number stands for. *)
Definition block_of (f : Function) (id : BlockId) : option Block :=
  snd <$> list_find (λ b, bk_id b = id) (fn_blocks f).

Lemma block_of_index f id b :
  block_of f id = Some b ↔ ∃ j, block_index f id = Some j ∧ fn_blocks f !! j = Some b.
Proof.
  unfold block_of, block_index. split.
  - intros ([j b'] & Hf & ->)%fmap_Some. rewrite Hf. exists j. split; [done |]. by apply list_find_Some in Hf as [? _].
  - intros (j & ([j' b'] & Hf & ->)%fmap_Some & Hb). rewrite Hf. apply list_find_Some in Hf as [? _]. cbn in *. congruence.
Qed.

Section dead_blocks.
Context {X E : Type} `{Runtime X E}.
Context (f g : Function).
Hypothesis same_entry : fn_entry g = fn_entry f.
Hypothesis same_params : fn_params g = fn_params f.
Hypothesis same_blocks : ∀ id, reachable f id → block_of g id = block_of f id.

Notation config := (@config X E).
Notation state := (@state X E).

(** Both functions are in the block of the same number. *)
Definition same_place (c c' : config) : Prop :=
  match c, c' with
  | Running j n s, Running j' n' s' =>
      n = n' ∧ s = s' ∧ ∃ id b, reachable f id ∧ block_of f id = Some b ∧
        fn_blocks f !! j = Some b ∧ fn_blocks g !! j' = Some b
  | Running _ _ _, _ | _, Running _ _ _ => False
  | _, _ => c = c'
  end.

Lemma goes_same t args (s : state) c : reachable f t → goes f t args s c → ∃ c', goes g t args s c' ∧ same_place c c'.
Proof.
  intros Ht (j & b & vs & regs & Hj & Hb & Hvs & Hregs & ->).
  assert (block_of f t = Some b) as Hof by (apply block_of_index; eauto).
  destruct (proj1 (block_of_index g t b)) as (j' & Hj' & Hb'); [by rewrite same_blocks |].
  eexists. split; [by exists j', b, vs, regs |]. cbn. split_and!; [done | done | by exists t, b].
Qed.

Lemma step_same c c' d : same_place c d → step f c c' → ∃ d', step g d d' ∧ same_place c' d'.
Proof.
  destruct c as [j n s|v s|s]; try done. destruct d as [j' n' s'| |]; try done.
  intros (<- & <- & id & b & Hid & Hof & Hb & Hb') (b0 & Hb0 & Hs). rewrite Hb in Hb0. injection Hb0 as <-.
  assert (∀ t, t ∈ targets (bk_terminator b) → reachable f t) as Ht.
  { intros t Ht. eapply rtc_r; [exact Hid |]. unfold block_of in Hof. apply fmap_Some in Hof as ([i b'] & Hf & ->).
    by exists i, b'. }
  destruct (bk_insts b !! n) as [i|] eqn:Hi.
  - destruct Hs as (o & s' & Hs & ->). exists (match o with Some _ => Running j' (S n) s' | None => Failed s' end).
    split; [exists b; split; [done |]; rewrite Hi; by exists o, s' |].
    destruct o; [| done]. cbn. split_and!; [done | done | by exists id, b].
  - destruct Hs as (Hn & Hs). cut (∃ d', term_step g (bk_terminator b) s d' ∧ same_place c' d').
    { intros (d' & Hd & Hc). exists d'. split; [| done]. exists b. split; [done |]. by rewrite Hi. }
    destruct (bk_terminator b) as [v|t args|cond t e args]; cbn [term_step targets] in *.
    + destruct Hs as (x & Hx & ->). by exists (Returned x s); split; [exists x |].
    + apply goes_same; [apply Ht, list_elem_of_here | done].
    + destruct Hs as (x & Hx & Hs). eapply goes_same in Hs as (d' & Hg & Hc); [by exists d'; split; [exists x |] |].
      apply Ht. destruct (truthy x); set_solver.
Qed.

Lemma starts_same args h e c c' : starts f args h e c → step f c c' → ∃ d, starts g args h e d ∧ same_place c d.
Proof.
  intros (j & regs & Hj & Hregs & ->) (b & Hb & _).
  destruct (proj1 (block_of_index g (fn_entry f) b)) as (j' & Hj' & Hb').
  { rewrite same_blocks by constructor. apply block_of_index. eauto. }
  eexists. split; [exists j', regs; by rewrite same_entry, same_params |]. cbn. split_and!; [done | done |].
  exists (fn_entry f), b. split_and!; [constructor | | done | done]. apply block_of_index. eauto.
Qed.

Lemma ended_same c d : same_place c d → ended c → d = c.
Proof. by destruct c, d. Qed.

Lemma runs_same args h e c : runs f args h e c → runs g args h e c.
Proof.
  intros (c0 & Hs & Hr & He). assert (∃ c1, step f c0 c1) as [c1 Hc1].
  { inversion Hr as [|? c1 ? Hs1]; subst; [| by exists c1]. by destruct Hs as (? & ? & _ & _ & ->). }
  destruct (starts_same _ _ _ _ _ Hs Hc1) as (d0 & Hd0 & Hsame).
  destruct (rtc_simulation (step f) (step g) same_place c0 d0 (λ a b a' HI Hs, step_same a a' b HI Hs) Hsame c Hr)
    as (d & Hd & Hcd).
  rewrite (ended_same c d Hcd He) in Hd. by exists d0.
Qed.

End dead_blocks.

(** What is left has the blocks that can be reached, and they are reached in
    the same way. *)
Lemma kept_blocks f (r : gset BlockId) : (∀ id, id ∈ r ↔ reachable f id) →
  let g := f <| fn_blocks ::= filter (λ b, bk_id b ∈ r) |> in
  (∀ id, reachable f id → block_of g id = block_of f id) ∧ (∀ id, reachable g id ↔ reachable f id).
Proof.
  intros Hr g. assert (∀ id, reachable f id → block_of g id = block_of f id) as Hsame.
  { intros id Hid. unfold block_of. change (fn_blocks g) with (filter (λ b, bk_id b ∈ r) (fn_blocks f)).
    apply find_filter. intros b <-. by apply Hr. }
  assert (∀ id t, jumps f id t ↔ ∃ b, block_of f id = Some b ∧ t ∈ targets (bk_terminator b)) as Hj.
  { intros id t. unfold jumps, block_of. split; [intros (j & b & -> & Ht); by exists b |].
    intros (b & ([j b'] & Hf & ->)%fmap_Some & Ht). by exists j, b'. }
  assert (∀ id t, jumps g id t ↔ ∃ b, block_of g id = Some b ∧ t ∈ targets (bk_terminator b)) as Hjg.
  { intros id t. unfold jumps, block_of. split; [intros (j & b & -> & Ht); by exists b |].
    intros (b & ([j b'] & Hf & ->)%fmap_Some & Ht). by exists j, b'. }
  split; [done |]. intros id. unfold reachable. change (fn_entry g) with (fn_entry f). split; revert id.
  - apply rtc_ind_r; [constructor |]. intros x y Hx Hxy IH. eapply rtc_r; [exact IH |].
    apply Hj. apply Hjg in Hxy. by rewrite Hsame in Hxy.
  - apply rtc_ind_r; [constructor |]. intros x y Hx Hxy IH. eapply rtc_r; [exact IH |].
    apply Hjg. apply Hj in Hxy. by rewrite Hsame.
Qed.

Lemma dead_block_elim_spec `{Runtime X E} f :
  ∃ g n, dead_block_elim f = Some (g, n) ∧
    (∀ b, b ∈ fn_blocks g ↔ b ∈ fn_blocks f ∧ reachable f (bk_id b)) ∧
    fn_blocks g `sublist_of` fn_blocks f ∧ length (fn_blocks g) + n = length (fn_blocks f) ∧
    ∀ args h e c, runs f args h e c ↔ runs g args h e c.
Proof.
  destruct (reachable_blocks_spec f) as (r & Hr & Hid). unfold dead_block_elim. rewrite Hr. cbn.
  destruct (kept_blocks f r Hid) as [Hof Hreach].
  set (g := f <| fn_blocks ::= filter (λ b, bk_id b ∈ r) |>) in *.
  assert (fn_blocks g = filter (λ b, bk_id b ∈ r) (fn_blocks f)) as Hg by done.
  assert (fn_blocks g `sublist_of` fn_blocks f) as Hsub by (rewrite Hg; apply sublist_filter).
  eexists g, _. split; [done |]. split_and!; [| done | apply sublist_length in Hsub; lia |].
  - intros b. rewrite Hg, list_elem_of_filter, Hid. tauto.
  - intros args h e c. split; [by apply runs_same |]. apply (runs_same g f); try done.
    intros id Hid'. symmetry. apply Hof. by apply Hreach.
Qed.

(** C32: the removal of dead blocks keeps exactly the blocks that can be reached
    from the entry, in their order, reports how many it removed, and leaves
    the runs of the function as they are; the search for the reachable blocks
    always ends. *)
Theorem dead_block_elim_correct `{Runtime X E} f :
  ∃ g n, dead_block_elim f = Some (g, n) ∧
    (∀ b, b ∈ fn_blocks g ↔ b ∈ fn_blocks f ∧ reachable f (bk_id b)) ∧
    fn_blocks g `sublist_of` fn_blocks f ∧ length (fn_blocks g) + n = length (fn_blocks f) ∧
    ∀ args h e c, runs f args h e c ↔ runs g args h e c.
Proof. apply dead_block_elim_spec. Qed.
