(* ===== verification/Ssa.v ===== *)
(** * Single assignment

    The form of functions that the passes rely on and must preserve: no value
    is defined twice, and a value is used only where a definition of it has
    been passed.  The second part is stated by the values that are available
    at the start of each block.  Also what rewriting the instructions of a
    function, one by one in their places, does to it. *)

From stdpp Require Import base numbers gmap list relations fin_sets.
From Stdlib Require Import ZArith Strings.Byte.
From S2P Require Import Prelude RaftTypes Float64 Text Rir RirValues RirSem RirFacts Opt OptFacts.

Local Open Scope crab_scope.
Local Open Scope nat_scope.

(** ** The form *)

Definition defs_of (b : Block) : list Value := (bk_params b).*1 ++ omap dst (bk_insts b).

Definition definitions (f : Function) : list Value := (fn_params f).*1 ++ mjoin (defs_of <$> fn_blocks f).

Definition term_values (t : Term) : list Value :=
  match t with Return v => [v] | Jump _ args => args | Branch c _ _ args => c :: args end.

(** The values that are available in front of the [n]-th instruction. *)
Definition scope (avail : BlockId → gset Value) (b : Block) (n : nat) : gset Value :=
  avail (bk_id b) ∪ list_to_set (omap dst (take n (bk_insts b))).

Record ssa (f : Function) (avail : BlockId → gset Value) : Prop := {
  ssa_once : NoDup (definitions f);
  ssa_entry : avail (fn_entry f) ⊆ list_to_set (fn_params f).*1;
  ssa_edges : ∀ b b', b ∈ fn_blocks f → b' ∈ fn_blocks f → bk_id b' ∈ targets (bk_terminator b) →
    avail (bk_id b') ⊆ scope avail b (length (bk_insts b)) ∪ list_to_set (bk_params b').*1;
  ssa_uses : ∀ b n i x, b ∈ fn_blocks f → bk_insts b !! n = Some i → x ∈ srcs i → x ∈ scope avail b n;
  ssa_terms : ∀ b x, b ∈ fn_blocks f → x ∈ term_values (bk_terminator b) →
    x ∈ scope avail b (length (bk_insts b)) }.

(** ** One definition *)

Lemma NoDup_mjoin {A} (ls : list (list A)) i j l l' x : NoDup (mjoin ls) →
  ls !! i = Some l → ls !! j = Some l' → x ∈ l → x ∈ l' → i = j.
Proof.
  revert i j. induction ls as [|k ls IH]; intros i j Hnd Hi Hj Hx Hx'; [done |].
  cbn in Hnd. apply NoDup_app in Hnd as (_ & Hk & Hnd).
  assert (∀ i l, ls !! i = Some l → x ∈ l → x ∈ mjoin ls) as Hin.
  { intros i0 l0 Hl Hxl. apply list_elem_of_join. exists l0. split; [done |]. by eapply list_elem_of_lookup_2. }
  destruct i as [|i], j as [|j]; [done | | |].
  - injection Hi as ->. destruct (Hk x Hx). by eapply Hin.
  - injection Hj as ->. destruct (Hk x Hx'). by eapply Hin.
  - f_equal. by eapply IH.
Qed.

Lemma NoDup_mjoin_1 {A} (ls : list (list A)) l : NoDup (mjoin ls) → l ∈ ls → NoDup l.
Proof.
  induction ls as [|k ls IH]; [by intros _ ?%elem_of_nil |]. cbn. intros (Hk & _ & Hnd)%NoDup_app [->|Hl]%elem_of_cons; auto.
Qed.

Lemma omap_once {A B} (g : A → option B) (l : list A) i j x x' y : NoDup (omap g l) →
  l !! i = Some x → l !! j = Some x' → g x = Some y → g x' = Some y → i = j.
Proof.
  revert i j. induction l as [|z l IH]; intros i j Hnd Hi Hj Hy Hy'; [done |]. cbn in Hnd.
  assert (∀ i x, l !! i = Some x → g x = Some y → y ∈ omap g l) as Hin.
  { intros i0 x0 Hl Hg. apply list_elem_of_omap. exists x0. split; [by eapply list_elem_of_lookup_2 | done]. }
  destruct i as [|i], j as [|j]; [done | | |].
  - injection Hi as ->. rewrite Hy in Hnd. apply NoDup_cons in Hnd as [Hn _]. destruct Hn. by eapply Hin.
  - injection Hj as ->. rewrite Hy' in Hnd. apply NoDup_cons in Hnd as [Hn _]. destruct Hn. by eapply Hin.
  - f_equal. destruct (g z); [apply NoDup_cons in Hnd as [_ Hnd] |]; by eapply IH.
Qed.

Section once.
Context (f : Function).
Hypothesis once : NoDup (definitions f).

Lemma once_blocks : NoDup (mjoin (defs_of <$> fn_blocks f)).
Proof. by apply NoDup_app in once as (_ & _ & ?). Qed.

Lemma once_block b : b ∈ fn_blocks f → NoDup (defs_of b).
Proof. intros Hb. eapply NoDup_mjoin_1; [apply once_blocks |]. by apply list_elem_of_fmap_2. Qed.

Lemma same_block j j' b b' x : fn_blocks f !! j = Some b → fn_blocks f !! j' = Some b' →
  x ∈ defs_of b → x ∈ defs_of b' → j = j' ∧ b = b'.
Proof.
  intros Hj Hj' Hx Hx'. assert (j = j') as <-.
  { eapply NoDup_mjoin; [apply once_blocks | | | exact Hx | exact Hx']; rewrite list_lookup_fmap, ?Hj, ?Hj'; done. }
  split; congruence.
Qed.

Lemma inst_defs b n i x : bk_insts b !! n = Some i → dst i = Some x → x ∈ omap dst (bk_insts b).
Proof. intros Hi Hd. apply list_elem_of_omap. exists i. split; [by eapply list_elem_of_lookup_2 | done]. Qed.

(** A value has one defining instruction, or is one block's parameter, or is a
    parameter of the function. *)
Lemma one_inst j j' b b' n n' i i' x :
  fn_blocks f !! j = Some b → fn_blocks f !! j' = Some b' → bk_insts b !! n = Some i → bk_insts b' !! n' = Some i' →
  dst i = Some x → dst i' = Some x → j = j' ∧ b = b' ∧ n = n' ∧ i = i'.
Proof.
  intros Hj Hj' Hn Hn' Hd Hd'.
  destruct (same_block j j' b b' x) as [<- <-]; try done; [apply elem_of_app; right; by eapply inst_defs .. |].
  assert (n = n') as <-; [| split_and!; congruence].
  eapply (omap_once dst (bk_insts b)); try done.
  apply list_elem_of_lookup_2, once_block in Hj. by apply NoDup_app in Hj as (_ & _ & ?).
Qed.

Lemma inst_not_param j j' b b' n i x :
  fn_blocks f !! j = Some b → fn_blocks f !! j' = Some b' → bk_insts b !! n = Some i → dst i = Some x →
  x ∉ (bk_params b').*1.
Proof.
  intros Hj Hj' Hn Hd Hp.
  destruct (same_block j j' b b' x) as [<- <-]; try done; [apply elem_of_app; right; by eapply inst_defs | by apply elem_of_app; left |].
  apply list_elem_of_lookup_2, once_block, NoDup_app in Hj as (_ & Hj & _). apply (Hj x Hp). by eapply inst_defs.
Qed.

Lemma one_param j j' b b' x : fn_blocks f !! j = Some b → fn_blocks f !! j' = Some b' →
  x ∈ (bk_params b).*1 → x ∈ (bk_params b').*1 → b = b'.
Proof. intros. eapply (same_block j j' b b' x); try done; by apply elem_of_app; left. Qed.

Lemma not_fn_param j b x : fn_blocks f !! j = Some b → x ∈ defs_of b → x ∉ (fn_params f).*1.
Proof.
  intros Hj Hx Hp. apply NoDup_app in once as (_ & Hn & _). apply (Hn x Hp).
  apply list_elem_of_join. exists (defs_of b). split; [done |]. by apply list_elem_of_fmap_2, (list_elem_of_lookup_2 _ j).
Qed.

End once.

Lemma scope_S avail b n i : bk_insts b !! n = Some i →
  scope avail b (S n) = scope avail b n ∪ list_to_set (option_list (dst i)).
Proof.
  intros Hi. unfold scope. rewrite (take_S_r _ _ _ Hi), omap_app, list_to_set_app_L, union_assoc_L. by destruct (dst i) eqn:Hd; cbn; rewrite Hd.
Qed.

Lemma elem_of_scope avail b n x :
  x ∈ scope avail b n ↔ x ∈ avail (bk_id b) ∨ ∃ m i, m < n ∧ bk_insts b !! m = Some i ∧ dst i = Some x.
Proof.
  unfold scope. rewrite elem_of_union, elem_of_list_to_set, list_elem_of_omap. f_equiv. split.
  - intros (i & (m & Hm)%list_elem_of_lookup & Hd). apply lookup_take_Some in Hm as [Hm Hlt]. by exists m, i.
  - intros (m & i & Hlt & Hm & Hd). exists i. split; [| done]. apply list_elem_of_lookup. exists m.
    by apply lookup_take_Some.
Qed.

(** ** Rewriting instructions in their places *)

Definition map_block (rw : nat → Inst.t → Inst.t) (b : Block) : Block := b <| bk_insts ::= imap rw |>.

Definition map_insts (rw : nat → nat → Inst.t → Inst.t) (f : Function) : Function :=
  f <| fn_blocks ::= imap (λ j, map_block (rw j)) |>.

Lemma map_insts_blocks rw f : fn_blocks (map_insts rw f) = imap (λ j, map_block (rw j)) (fn_blocks f).
Proof. done. Qed.

Lemma map_insts_lookup rw f j : fn_blocks (map_insts rw f) !! j = map_block (rw j) <$> fn_blocks f !! j.
Proof. rewrite map_insts_blocks. exact (list_lookup_imap (λ j, map_block (rw j)) _ _). Qed.

Lemma map_block_lookup rw b n : bk_insts (map_block rw b) !! n = rw n <$> bk_insts b !! n.
Proof. exact (list_lookup_imap rw _ _). Qed.

Lemma map_block_length rw b : length (bk_insts (map_block rw b)) = length (bk_insts b).
Proof. apply length_imap. Qed.

Lemma inst_at_map rw f j n : inst_at (map_insts rw f) j n = rw j n <$> inst_at f j n.
Proof.
  unfold inst_at. rewrite map_insts_lookup. destruct (fn_blocks f !! j) as [b|]; [| done]. cbn.
  apply map_block_lookup.
Qed.

Lemma map_insts_ext rw rw' f : (∀ j n i, inst_at f j n = Some i → rw j n i = rw' j n i) →
  map_insts rw f = map_insts rw' f.
Proof.
  intros Heq. cut (imap (λ j, map_block (rw j)) (fn_blocks f) = imap (λ j, map_block (rw' j)) (fn_blocks f)).
  { intros Hb. destruct f; cbn in *. unfold map_insts, set_field. cbn. by rewrite Hb. }
  apply list_eq. intros j. rewrite !list_lookup_imap. destruct (fn_blocks f !! j) as [b|] eqn:Hj; [| done].
  cbn. f_equal. cut (imap (rw j) (bk_insts b) = imap (rw' j) (bk_insts b)).
  { intros Hb. destruct b; cbn in *. unfold map_block, set_field. cbn. by rewrite Hb. }
  apply list_eq. intros n. rewrite !list_lookup_imap. destruct (bk_insts b !! n) as [i|] eqn:Hn; [| done].
  cbn. f_equal. apply Heq. unfold inst_at. by rewrite Hj.
Qed.

Lemma map_insts_id f : map_insts (λ _ _ i, i) f = f.
Proof.
  assert (∀ bs, imap (λ _ : nat, map_block (λ _ i, i)) bs = bs) as Hb.
  { intros bs. apply list_eq. intros j. rewrite list_lookup_imap. destruct (bs !! j) as [b|]; [| done]. cbn. f_equal.
    assert (imap (λ _ i, i) (bk_insts b) = bk_insts b) as Hi.
    { apply list_eq. intros n. rewrite list_lookup_imap. by destruct (bk_insts b !! n). }
    destruct b. unfold map_block, set_field. cbn in *. by rewrite Hi. }
  destruct f. unfold map_insts, set_field. cbn. by rewrite Hb.
Qed.

Lemma map_insts_compose rw rw' f :
  map_insts rw' (map_insts rw f) = map_insts (λ j n i, rw' j n (rw j n i)) f.
Proof.
  assert (∀ bs, imap (λ j, map_block (rw' j)) (imap (λ j, map_block (rw j)) bs) =
                imap (λ j, map_block (λ n i, rw' j n (rw j n i))) bs) as Hb.
  { intros bs. apply list_eq. intros j. rewrite !list_lookup_imap. destruct (bs !! j) as [b|]; [| done]. cbn. f_equal.
    assert (imap (rw' j) (imap (rw j) (bk_insts b)) = imap (λ n i, rw' j n (rw j n i)) (bk_insts b)) as Hi.
    { apply list_eq. intros n. rewrite !list_lookup_imap. by destruct (bk_insts b !! n). }
    destruct b. unfold map_block, set_field. cbn in *. by rewrite Hi. }
  destruct f. unfold map_insts, set_field. cbn. by rewrite Hb.
Qed.

(** An assignment to one place. *)
Definition at_place (bi ii : nat) (i : Inst.t) (j n : nat) (i0 : Inst.t) : Inst.t :=
  if decide ((j, n) = (bi, ii)) then i else i0.

Lemma set_inst_map bi ii i f : set_inst bi ii i f = map_insts (at_place bi ii i) f.
Proof.
  assert (∀ b, b <| bk_insts ::= <[ii := i]> |> = map_block (at_place bi ii i bi) b) as Hi.
  { intros b. assert (<[ii := i]> (bk_insts b) = imap (at_place bi ii i bi) (bk_insts b)) as Hi.
    { apply list_eq. intros n. rewrite list_lookup_imap. unfold at_place. destruct (decide (n = ii)) as [->|Hn].
      - destruct (bk_insts b !! ii) eqn:Hl; cbn.
        + rewrite list_lookup_insert_eq by (by eapply lookup_lt_Some). by rewrite decide_True.
        + rewrite list_insert_ge by (by apply lookup_ge_None). done.
      - rewrite list_lookup_insert_ne by done. destruct (bk_insts b !! n); cbn; [| done].
        by rewrite decide_False by congruence. }
    destruct b. unfold map_block, set_field. cbn in *. by rewrite Hi. }
  assert (∀ bs, alter (λ b, b <| bk_insts ::= <[ii := i]> |>) bi bs = imap (λ j, map_block (at_place bi ii i j)) bs) as Hb.
  { intros bs. apply list_eq. intros j. rewrite list_lookup_imap. destruct (decide (j = bi)) as [->|Hj].
    - rewrite list_lookup_alter_eq. destruct (bs !! bi); cbn; [by rewrite Hi | done].
    - rewrite list_lookup_alter_ne by done. destruct (bs !! j) as [b|]; cbn; [| done]. f_equal.
      assert (imap (at_place bi ii i j) (bk_insts b) = bk_insts b) as Hb.
      { apply list_eq. intros n. rewrite list_lookup_imap. unfold at_place.
        destruct (bk_insts b !! n); cbn; [| done]. by rewrite decide_False by congruence. }
      destruct b. unfold map_block, set_field. cbn in *. by rewrite Hb. }
  destruct f. unfold map_insts, set_inst, set_field. cbn. f_equal. apply Hb.
Qed.

Lemma block_index_ids f g id : bk_id <$> fn_blocks f = bk_id <$> fn_blocks g → block_index f id = block_index g id.
Proof.
  unfold block_index. generalize (fn_blocks f) (fn_blocks g). intros bs. induction bs as [|b bs IH]; intros [|b' bs']; try done.
  cbn. intros [= Hid Hids]. specialize (IH bs' Hids). rewrite Hid. destruct (decide _); [done |].
  destruct (list_find _ bs) as [[? ?]|], (list_find _ bs') as [[? ?]|]; cbn in *; congruence.
Qed.

Lemma map_insts_ids rw f : bk_id <$> fn_blocks (map_insts rw f) = bk_id <$> fn_blocks f.
Proof.
  apply list_eq. intros j. rewrite !list_lookup_fmap, map_insts_lookup. by destruct (fn_blocks f !! j).
Qed.

Lemma map_insts_index rw f id : block_index (map_insts rw f) id = block_index f id.
Proof. apply block_index_ids, map_insts_ids. Qed.

Lemma block_index_id f id j b : block_index f id = Some j → fn_blocks f !! j = Some b → bk_id b = id.
Proof. intros ([j' b'] & (? & ? & _)%list_find_Some & ->)%fmap_Some Hb. cbn in *. congruence. Qed.

(** ** Rewriting that keeps the form *)

Lemma map_insts_definitions rw f : (∀ j n i, inst_at f j n = Some i → dst (rw j n i) = dst i) →
  ∀ j b, fn_blocks f !! j = Some b → ∀ n, omap dst (take n (bk_insts (map_block (rw j) b))) = omap dst (take n (bk_insts b)).
Proof.
  intros Hd j b Hj n. assert (∀ m i, bk_insts b !! m = Some i → dst (rw j m i) = dst i) as Hb.
  { intros m i Hm. apply Hd. unfold inst_at. by rewrite Hj. }
  change (bk_insts (map_block (rw j) b)) with (imap (rw j) (bk_insts b)). revert n Hb. generalize (rw j) (bk_insts b).
  intros r l. revert r. induction l as [|i l IH]; intros r n Hb; [by destruct n |]. destruct n as [|n]; [done |].
  cbn. rewrite (Hb 0 i eq_refl), (IH (r ∘ S)); [done |]. intros m i' Hm. by apply (Hb (S m)).
Qed.

Lemma map_insts_defs_of rw f : (∀ j n i, inst_at f j n = Some i → dst (rw j n i) = dst i) →
  definitions (map_insts rw f) = definitions f.
Proof.
  intros Hd. unfold definitions. f_equal. f_equal. apply list_eq. intros j. rewrite !list_lookup_fmap, map_insts_lookup.
  destruct (fn_blocks f !! j) as [b|] eqn:Hj; [| done]. cbn. f_equal. unfold defs_of. f_equal.
  pose proof (map_insts_definitions rw f Hd j b Hj (length (bk_insts b))) as Heq.
  rewrite !take_ge in Heq; rewrite ?map_block_length; done.
Qed.

Lemma map_insts_scope rw f avail : (∀ j n i, inst_at f j n = Some i → dst (rw j n i) = dst i) →
  ∀ j b n, fn_blocks f !! j = Some b → scope avail (map_block (rw j) b) n = scope avail b n.
Proof. intros Hd j b n Hj. unfold scope. by rewrite (map_insts_definitions rw f Hd j b Hj). Qed.

Lemma map_insts_elem rw f b' : b' ∈ fn_blocks (map_insts rw f) →
  ∃ j b, fn_blocks f !! j = Some b ∧ b' = map_block (rw j) b.
Proof.
  intros (j & Hj)%list_elem_of_lookup. rewrite map_insts_lookup in Hj. apply fmap_Some in Hj as (b & Hb & ->). by exists j, b.
Qed.

(** Rewriting keeps the form when destinations stay and operands are available
    for a larger choice of available values. *)
Lemma ssa_map f avail avail' rw : ssa f avail → (∀ j n i, inst_at f j n = Some i → dst (rw j n i) = dst i) →
  (∀ id, avail id ⊆ avail' id) → avail' (fn_entry f) ⊆ list_to_set (fn_params f).*1 →
  (∀ j b j' b', fn_blocks f !! j = Some b → fn_blocks f !! j' = Some b' → bk_id b' ∈ targets (bk_terminator b) →
     avail' (bk_id b') ⊆ scope avail' b (length (bk_insts b)) ∪ list_to_set (bk_params b').*1) →
  (∀ j b n i x, fn_blocks f !! j = Some b → bk_insts b !! n = Some i → x ∈ srcs (rw j n i) → x ∈ scope avail' b n) →
  ssa (map_insts rw f) avail'.
Proof.
  intros Hssa Hd Hsub Hentry Hedges Huses. split.
  - rewrite map_insts_defs_of by done. apply Hssa.
  - done.
  - intros b1 b2 (j1 & c1 & Hj1 & ->)%map_insts_elem (j2 & c2 & Hj2 & ->)%map_insts_elem Ht.
    rewrite (map_insts_scope rw f avail' Hd j1 c1 _ Hj1), map_block_length. by apply (Hedges j1 c1 j2 c2).
  - intros b n i x (j & c & Hj & ->)%map_insts_elem Hn Hx. rewrite (map_insts_scope rw f avail' Hd j c _ Hj).
    rewrite map_block_lookup in Hn. apply fmap_Some in Hn as (i0 & Hn & ->). by eapply Huses.
  - intros b x (j & c & Hj & ->)%map_insts_elem Hx. rewrite (map_insts_scope rw f avail' Hd j c _ Hj), map_block_length.
    assert (x ∈ scope avail c (length (bk_insts c))) as Hin
      by (apply (ssa_terms _ _ Hssa); [by eapply list_elem_of_lookup_2 | done]).
    unfold scope in *. specialize (Hsub (bk_id c)). set_solver.
Qed.

Lemma ssa_map_same f avail rw : ssa f avail → (∀ j n i, inst_at f j n = Some i → dst (rw j n i) = dst i) →
  (∀ j n i x, inst_at f j n = Some i → x ∈ srcs (rw j n i) → x ∈ srcs i) → ssa (map_insts rw f) avail.
Proof.
  intros Hssa Hd Hs. eapply ssa_map; try done; [apply Hssa | |].
  - intros j b j' b' Hj Hj' Ht. by apply (ssa_edges _ _ Hssa); [eapply list_elem_of_lookup_2 .. |].
  - intros j b n i x Hj Hn Hx. eapply (ssa_uses _ _ Hssa); [by eapply list_elem_of_lookup_2 | done |].
    eapply Hs; [| done]. unfold inst_at. by rewrite Hj.
Qed.

(** ** A checker *)

Definition ssa_check (f : Function) (avail : BlockId → gset Value) : bool :=
  bool_decide (NoDup (definitions f)) &&
  bool_decide (avail (fn_entry f) ⊆ list_to_set (fn_params f).*1) &&
  forallb (λ b,
    forallb (λ b', if decide (bk_id b' ∈ targets (bk_terminator b))
                   then bool_decide (avail (bk_id b') ⊆ scope avail b (length (bk_insts b)) ∪ list_to_set (bk_params b').*1)
                   else true) (fn_blocks f) &&
    forallb (λ z, forallb (λ x, bool_decide (x ∈ scope avail b z.1)) (srcs z.2)) (imap pair (bk_insts b)) &&
    forallb (λ x, bool_decide (x ∈ scope avail b (length (bk_insts b)))) (term_values (bk_terminator b)))
    (fn_blocks f).

Lemma ssa_check_sound f avail : ssa_check f avail = true → ssa f avail.
Proof.
  unfold ssa_check. rewrite !andb_true_iff, !bool_decide_eq_true, forallb_forall. intros [[Honce Hentry] Hb].
  assert (∀ b, b ∈ fn_blocks f → _) as Hb' by (intros b Hin; exact (Hb b (proj1 (list_elem_of_In _ _) Hin))).
  setoid_rewrite andb_true_iff in Hb'. setoid_rewrite andb_true_iff in Hb'. setoid_rewrite forallb_forall in Hb'.
  split; [done | done | | |].
  - intros b b' Hin Hin' Ht. destruct (Hb' b Hin) as [[He _] _]. specialize (He b' (proj1 (list_elem_of_In _ _) Hin')).
    rewrite decide_True in He by done. by apply bool_decide_eq_true in He.
  - intros b n i x Hin Hi Hx. destruct (Hb' b Hin) as [[_ Hu] _].
    assert (In (n, i) (imap pair (bk_insts b))) as Hni.
    { apply list_elem_of_In, elem_of_lookup_imap. by exists n, i. }
    specialize (Hu (n, i) Hni). cbn in Hu. rewrite forallb_forall in Hu.
    specialize (Hu x (proj1 (list_elem_of_In _ _) Hx)). by apply bool_decide_eq_true in Hu.
  - intros b x Hin Hx. destruct (Hb' b Hin) as [_ Ht]. specialize (Ht x (proj1 (list_elem_of_In _ _) Hx)).
    by apply bool_decide_eq_true in Ht.
Qed.
