(* ===== verification/OptScan.v ===== *)
(** * The scans for uses

    What the two scans for the uses of a pair find: both accept a pair when
    every instruction that mentions it only reads a slot of it or tests its
    type, and the scan of scalar replacement lists these instructions. *)

From stdpp Require Import base numbers gmap list relations fin_sets.
From Stdlib Require Import ZArith Strings.Byte.
From S2P Require Import Prelude RaftTypes Float64 Text Rir RirValues RirSem RirFacts Opt OptFacts Ssa.

Local Open Scope crab_scope.
Local Open Scope nat_scope.

(** ** Mentions *)

Lemma visit_looks_for v vs b : visit_list (looks_for v) vs b = (vs, b || bool_decide (v ∈ vs)).
Proof.
  revert b. induction vs as [|x vs IH]; intros b; cbn; [by rewrite orb_false_r |]. rewrite IH. f_equal.
  destruct (decide (x = v)) as [->|Hx].
  - rewrite (bool_decide_eq_true_2 (v ∈ v :: vs)) by apply list_elem_of_here. by rewrite orb_true_r.
  - f_equal. apply bool_decide_ext. rewrite elem_of_cons. naive_solver.
Qed.

Lemma inst_mentions_spec v i : value_walker_covers i = true → inst_mentions v i = Some (bool_decide (v ∈ operands i)).
Proof.
  intros (vs & k & -> & Hk)%walker_shape. destruct (Hk vs eq_refl) as (-> & _ & Hwalk).
  unfold inst_mentions. by rewrite Hwalk, visit_looks_for.
Qed.

Lemma term_mentions_spec v t : term_mentions v t = bool_decide (v ∈ term_values t).
Proof.
  unfold term_mentions. destruct t as [x|t args|c t e args]; cbn.
  - unfold looks_for. destruct (decide (x = v)) as [->|Hx]; symmetry;
      [apply bool_decide_eq_true_2, list_elem_of_here | apply bool_decide_eq_false_2]. set_solver.
  - by rewrite visit_looks_for.
  - destruct (decide (c = v)) as [->|Hx]; rewrite visit_looks_for; cbn [snd].
    + symmetry. apply bool_decide_eq_true_2, list_elem_of_here.
    + apply bool_decide_ext. rewrite elem_of_cons. naive_solver.
Qed.

Lemma values_parts i x : x ∈ operands i ↔ x ∈ srcs i ∨ dst i = Some x.
Proof.
  unfold srcs, dst. destruct (defines i); [| set_solver]. destruct (operands i) as [|y vs]; cbn; [set_solver |].
  rewrite elem_of_cons. naive_solver.
Qed.

(** ** Reads of a pair *)

Lemma use_kind_inst v i k : use_kind v i = Some k →
  ∃ d, i = match k with UCar => Inst.Car d v | UCdr => Inst.Cdr d v | UPairP => Inst.PairP d v | UNullP => Inst.NullP d v end.
Proof. destruct i; try done; cbn; (destruct (decide _) as [->|]; [| done]); intros [= <-]; by eexists. Qed.

Lemma use_kind_values v i k : use_kind v i = Some k → value_walker_covers i = true ∧ v ∈ operands i.
Proof. intros [d ->]%use_kind_inst. destruct k; cbn; (split; [done | set_solver]). Qed.

(** Apart from its definition, a pair is only read. *)
Definition only_read (f : Function) (bi ii : nat) (v : Value) : Prop :=
  (∀ j n i, inst_at f j n = Some i → (j, n) ≠ (bi, ii) → v ∈ operands i → is_Some (use_kind v i)) ∧
  (∀ j b, fn_blocks f !! j = Some b → v ∉ term_values (bk_terminator b)).

Lemma inst_escapes_spec v i : value_walker_covers i = true →
  ∃ e, inst_escapes v i = Some e ∧ (e = false ↔ (v ∈ operands i → is_Some (use_kind v i))).
Proof.
  intros Hc. unfold inst_escapes. rewrite inst_mentions_spec by done. cbn.
  destruct (decide (v ∈ operands i)) as [Hv|Hv];
    [rewrite bool_decide_eq_true_2 by done | rewrite bool_decide_eq_false_2 by done; eexists; split; [done | naive_solver]].
  eexists. split; [done |].
  destruct i; cbn [use_kind]; try (by split; [| intros [? ?]%(λ H, H Hv)]);
    (case_decide; [rewrite bool_decide_eq_false_2 by naive_solver; split; [by eexists | done]
                  | rewrite bool_decide_eq_true_2 by done; split; [done | intros [? ?]%(λ H, H Hv); done]]).
Qed.

(** ** The scan for escapes *)

Lemma places_cons (P : Inst.t → Prop) (skip : option nat) ii0 i insts :
  (∀ n i0, (i :: insts) !! n = Some i0 → skip ≠ Some (ii0 + n) → P i0) ↔
  (skip ≠ Some ii0 → P i) ∧ ∀ n i0, insts !! n = Some i0 → skip ≠ Some (S ii0 + n) → P i0.
Proof.
  split.
  - intros HP. split; [intros Hs; apply (HP 0); [done | by rewrite Nat.add_0_r] |].
    intros n i0 Hn Hs. apply (HP (S n)); [done |]. by replace (ii0 + S n) with (S ii0 + n) by lia.
  - intros [H0 HS] [|n] i0 Hn Hs; [injection Hn as <-; apply H0; by rewrite Nat.add_0_r in Hs |].
    apply (HS n); [done |]. by replace (S ii0 + n) with (ii0 + S n) by lia.
Qed.

(** The instruction that defines the pair is skipped. *)
Lemma skipped_place (bi0 def_bi def_ii n : nat) :
  (if decide (bi0 = def_bi) then Some def_ii else None) ≠ Some n ↔ (bi0, n) ≠ (def_bi, def_ii).
Proof. destruct (decide (bi0 = def_bi)); naive_solver. Qed.

Lemma insts_escape_spec v skip ii0 insts : forallb value_walker_covers insts = true →
  ∃ e, insts_escape v skip ii0 insts = Some e ∧
    (e = false ↔ ∀ n i, insts !! n = Some i → skip ≠ Some (ii0 + n) → v ∈ operands i → is_Some (use_kind v i)).
Proof.
  revert ii0. induction insts as [|i insts IH]; intros ii0; cbn [forallb insts_escape]; [intros _; by exists false |].
  intros [Hi Hc]%andb_prop. destruct (IH (S ii0) Hc) as (e & He & Hiff).
  pose proof (places_cons (λ i, v ∈ operands i → is_Some (use_kind v i)) skip ii0 i insts) as Hsplit. cbv beta in Hsplit.
  destruct (decide (skip = Some ii0)); [exists e; split; [done | rewrite Hsplit; naive_solver] |].
  destruct (inst_escapes_spec v i Hi) as ([] & -> & Hesc); cbn; eexists; (split; [done |]); rewrite Hsplit; naive_solver.
Qed.

Lemma blocks_escape_spec v def_bi def_ii bi0 bs :
  forallb (λ b, forallb value_walker_covers (bk_insts b) && is_term_inline_supported (bk_terminator b)) bs = true →
  ∃ e, blocks_escape v def_bi def_ii bi0 bs = Some e ∧
    (e = false ↔ (∀ j b n i, bs !! j = Some b → bk_insts b !! n = Some i → (bi0 + j, n) ≠ (def_bi, def_ii) →
                    v ∈ operands i → is_Some (use_kind v i)) ∧
                 ∀ j b, bs !! j = Some b → v ∉ term_values (bk_terminator b)).
Proof.
  revert bi0. induction bs as [|b bs IH]; intros bi0; cbn [forallb blocks_escape]; [intros _; by exists false |].
  intros [[Hi _]%andb_prop Hc]%andb_prop. destruct (IH (S bi0) Hc) as (e & He & Hiff).
  rewrite term_mentions_spec. destruct (bool_decide_reflect (v ∈ term_values (bk_terminator b))) as [Hv|Hv].
  { exists true. split; [done |]. split; [done |]. intros [_ Ht]. by destruct (Ht 0 b). }
  destruct (insts_escape_spec v (if decide (bi0 = def_bi) then Some def_ii else None) 0 (bk_insts b) Hi)
    as (e0 & He0 & Hiff0).
  rewrite He0, He. cbn.
  assert (e0 = false ↔ ∀ n i, bk_insts b !! n = Some i → (bi0, n) ≠ (def_bi, def_ii) →
            v ∈ operands i → is_Some (use_kind v i)) as Hiff1.
  { rewrite Hiff0. cbn. by setoid_rewrite skipped_place. }
  exists (if e0 then true else e). split; [by destruct e0 |]. split.
  - destruct e0; [done |]. intros [H1 H2]%Hiff. split; intros [|j] b' ; cbn; intros; simplify_eq; eauto.
    + eapply Hiff1; eauto. by rewrite Nat.add_0_r in *.
    + eapply (H1 j); eauto. by replace (S bi0 + j) with (bi0 + S j) by lia.
  - intros [H1 H2]. rewrite (proj2 Hiff1).
    + apply Hiff. split; [| intros j; apply (H2 (S j))]. intros j b' n i Hb Hn Hne. apply (H1 (S j) b' n i Hb Hn).
      by replace (bi0 + S j) with (S bi0 + j) by lia.
    + intros n i Hn Hne. apply (H1 0 b n i eq_refl Hn). by rewrite Nat.add_0_r.
Qed.

Lemma inst_at_block f j n i : inst_at f j n = Some i ↔ ∃ b, fn_blocks f !! j = Some b ∧ bk_insts b !! n = Some i.
Proof. unfold inst_at. split; [intros (b & Hb & Hn)%bind_Some; by exists b | intros (b & -> & Hn); done]. Qed.

Lemma cons_escapes_spec f bi ii v : fully_covered f = true →
  ∃ e, cons_escapes f bi ii v = Some e ∧ (e = false ↔ only_read f bi ii v).
Proof.
  intros Hc. destruct (blocks_escape_spec v bi ii 0 (fn_blocks f) Hc) as (e & He & Hiff).
  exists e. split; [done |]. rewrite Hiff. unfold only_read. setoid_rewrite inst_at_block. cbn. naive_solver.
Qed.

(** ** The scan of scalar replacement *)

(** The uses that are listed, from position [ii0] on. *)
Lemma insts_uses_spec v skip bi ii0 insts : forallb value_walker_covers insts = true →
  ∃ r, insts_uses v skip bi ii0 insts = Some r ∧ ∀ us, r = Some us →
    (∀ n i, insts !! n = Some i → skip ≠ Some (ii0 + n) → v ∈ operands i → is_Some (use_kind v i)) ∧
    (∀ j n k, (j, n, k) ∈ us ↔ j = bi ∧ skip ≠ Some n ∧ ii0 ≤ n ∧
       ∃ i, insts !! (n - ii0) = Some i ∧ use_kind v i = Some k) ∧ NoDup us.*1.
Proof.
  revert ii0. induction insts as [|i insts IH]; intros ii0; cbn [forallb insts_uses].
  { intros _. eexists. split; [done |]. intros us [= <-]. split_and!; [done | | constructor].
    intros j n k. rewrite elem_of_nil. naive_solver. }
  intros [Hi Hc]%andb_prop. destruct (IH (S ii0) Hc) as (r & Hr & Hspec). rewrite inst_mentions_spec by done.
  assert (∀ n k, ii0 ≤ n → (∃ i0, (i :: insts) !! (n - ii0) = Some i0 ∧ use_kind v i0 = Some k) ↔
            (n = ii0 ∧ use_kind v i = Some k) ∨
            (S ii0 ≤ n ∧ ∃ i0, insts !! (n - S ii0) = Some i0 ∧ use_kind v i0 = Some k)) as Hplace.
  { intros n k Hn. destruct (decide (n = ii0)) as [->|Hne].
    - rewrite Nat.sub_diag. cbn. split; [naive_solver |]. intros [[_ ?]|[? _]]; [by exists i | lia].
    - replace (n - ii0) with (S (n - S ii0)) by lia. cbn. split; [intros ?; right; split; [lia | done] |].
      intros [[? _]|[_ ?]]; [lia | done]. }
  pose proof (places_cons (λ i, v ∈ operands i → is_Some (use_kind v i)) skip ii0 i insts) as Hsplit. cbv beta in Hsplit.
  assert (∀ us, r = Some us → (skip = Some ii0 ∨ v ∉ operands i) →
    (∀ n i0, (i :: insts) !! n = Some i0 → skip ≠ Some (ii0 + n) → v ∈ operands i0 → is_Some (use_kind v i0)) ∧
    (∀ j n k, (j, n, k) ∈ us ↔ j = bi ∧ skip ≠ Some n ∧ ii0 ≤ n ∧
       ∃ i0, (i :: insts) !! (n - ii0) = Some i0 ∧ use_kind v i0 = Some k) ∧ NoDup us.*1) as Hskip.
  { intros us Hus Hs. destruct (Hspec us Hus) as (H1 & H2 & H3). split_and!; [| | done].
    - apply Hsplit. split; [naive_solver | done].
    - intros j n k. rewrite H2. split; [intros (-> & ? & ? & ?); split_and!; [done | done | lia | apply Hplace; [lia | by right]] |].
      intros (-> & Hne & Hle & Hin%Hplace); [| done].
      destruct Hin as [[-> Hk]|[? ?]]; [| by split_and!]. apply use_kind_values in Hk as [_ Hk]. naive_solver. }
  destruct (decide (skip = Some ii0)) as [Hs|Hs]; [exists r; split; [done |]; auto |]. cbn [mbind option_bind].
  destruct (bool_decide_reflect (v ∈ operands i)) as [Hv|Hv]; [| exists r; split; [done |]; auto].
  destruct (use_kind v i) as [k0|] eqn:Hk0; [| by exists None]. rewrite Hr. cbn. eexists. split; [done |].
  intros us' Hus'. destruct r as [us|]; [| done]. injection Hus' as <-.
  destruct (Hspec us eq_refl) as (H1 & H2 & H3). split_and!.
  - apply Hsplit. split; [by eexists | done].
  - intros j n k. rewrite elem_of_cons, H2. split.
    + intros [[= -> -> ->]|(-> & ? & ? & ?)]; (split_and!; [done | done | lia | apply Hplace; [lia |]]); auto.
    + intros (-> & Hne & Hle & [[-> Hk]|[? ?]]%Hplace); [left; congruence | right; by split_and! | done].
  - cbn. apply NoDup_cons. split; [| done]. intros ([[j n] k] & [= <- <-] & Hin%H2)%list_elem_of_fmap. lia.
Qed.

Lemma blocks_uses_spec v def_bi def_ii bi0 bs :
  forallb (λ b, forallb value_walker_covers (bk_insts b) && is_term_inline_supported (bk_terminator b)) bs = true →
  ∃ r, blocks_uses v def_bi def_ii bi0 bs = Some r ∧ ∀ us, r = Some us →
    ((∀ j b n i, bs !! j = Some b → bk_insts b !! n = Some i → (bi0 + j, n) ≠ (def_bi, def_ii) →
        v ∈ operands i → is_Some (use_kind v i)) ∧
     ∀ j b, bs !! j = Some b → v ∉ term_values (bk_terminator b)) ∧
    (∀ j n k, (j, n, k) ∈ us ↔ (j, n) ≠ (def_bi, def_ii) ∧ bi0 ≤ j ∧
       ∃ b i, bs !! (j - bi0) = Some b ∧ bk_insts b !! n = Some i ∧ use_kind v i = Some k) ∧ NoDup us.*1.
Proof.
  revert bi0. induction bs as [|b bs IH]; intros bi0; cbn [forallb blocks_uses].
  { intros _. eexists. split; [done |]. intros us [= <-]. split_and!; [done | done | | constructor].
    intros j n k. rewrite elem_of_nil. naive_solver. }
  intros [[Hi _]%andb_prop Hc]%andb_prop. destruct (IH (S bi0) Hc) as (r & Hr & Hspec).
  rewrite term_mentions_spec. destruct (bool_decide_reflect (v ∈ term_values (bk_terminator b))) as [Hv|Hv]; [by exists None |].
  destruct (insts_uses_spec v (if decide (bi0 = def_bi) then Some def_ii else None) bi0 0 (bk_insts b) Hi)
    as (r0 & Hr0 & Hspec0).
  rewrite Hr0, Hr. cbn. destruct r0 as [us0|]; [| by exists None].
  eexists. split; [done |]. intros us' Hus'. destruct r as [us|]; [| done]. injection Hus' as <-.
  destruct (Hspec us eq_refl) as ((H1 & H1') & H2 & H3). destruct (Hspec0 us0 eq_refl) as (G1 & G2 & G3).
  setoid_rewrite skipped_place in G1. setoid_rewrite skipped_place in G2. split_and!.
  - intros [|j] b' n i Hb Hn Hne; [injection Hb as <-; eapply G1; eauto; by rewrite Nat.add_0_r in Hne |].
    eapply (H1 j); eauto. by replace (S bi0 + j) with (bi0 + S j) by lia.
  - intros [|j] b' Hb; [by injection Hb as <- | by eapply H1'].
  - intros j n k. rewrite elem_of_app, G2, H2. rewrite Nat.sub_0_r. split.
    + intros [(-> & Hne & _ & i & Hn & Hk)|(Hne & Hle & Hex)]; (split_and!; [done | lia |]).
      * exists b, i. by rewrite Nat.sub_diag.
      * by replace (j - bi0) with (S (j - S bi0)) by lia.
    + intros (Hne & Hle & b' & i & Hb & Hn & Hk). destruct (decide (j = bi0)) as [->|Hj].
      * rewrite Nat.sub_diag in Hb. injection Hb as <-. left. split_and!; [done | done | lia | by exists i].
      * right. split_and!; [done | lia |]. exists b', i. by replace (j - bi0) with (S (j - S bi0)) in Hb by lia.
  - rewrite fmap_app. apply NoDup_app. split_and!; [done | | done].
    intros [j n] ([[j1 n1] k1] & [= <- <-] & Hin1%G2)%list_elem_of_fmap ([[j2 n2] k2] & [= <- <-] & Hin2%H2)%list_elem_of_fmap.
    lia.
Qed.

(** Both scans give up for the same pairs. *)
Lemma use_kind_escapes v i : inst_mentions v i = Some true →
  inst_escapes v i = Some (if use_kind v i then false else true).
Proof.
  intros Hm. unfold inst_escapes. rewrite Hm. cbn. f_equal. destruct i; cbn; try done;
    (case_decide; [by apply bool_decide_eq_false_2; intros ? | by apply bool_decide_eq_true_2]).
Qed.

Lemma insts_uses_escape v skip bi ii insts : insts_uses v skip bi ii insts = Some None → insts_escape v skip ii insts = Some true.
Proof.
  revert ii. induction insts as [|i insts IH]; intros ii; cbn [insts_uses insts_escape]; [done |].
  destruct (decide _); [apply IH |]. destruct (inst_mentions v i) as [[]|] eqn:Hm; cbn [mbind option_bind]; [| | done].
  - rewrite (use_kind_escapes v i Hm). destruct (use_kind v i); cbn; [| done].
    intros (r & Hr & Hn)%bind_Some. destruct r; [done |]. by apply IH.
  - intros Hu. unfold inst_escapes. rewrite Hm. cbn. by apply IH.
Qed.

Lemma blocks_uses_escape v def_bi def_ii bi bs :
  blocks_uses v def_bi def_ii bi bs = Some None → blocks_escape v def_bi def_ii bi bs = Some true ∨ blocks_escape v def_bi def_ii bi bs = None.
Proof.
  revert bi. induction bs as [|b bs IH]; intros bi; cbn [blocks_uses blocks_escape]; [done |].
  destruct (term_mentions _ _); [by left |]. intros (u & Hu & Hr)%bind_Some. destruct u as [u|].
  - destruct (insts_escape _ _ _ _) as [[]|]; cbn; [by left | | by right].
    apply bind_Some in Hr as (r & Hr & Hn). destruct r; [done |]. by apply IH.
  - rewrite (insts_uses_escape _ _ _ _ _ Hu). by left.
Qed.

Lemma collect_spec f bi ii v : fully_covered f = true →
  ∃ r, collect_eliminable_uses f bi ii v = Some r ∧ (r = None → ¬ only_read f bi ii v) ∧ ∀ us, r = Some us →
    only_read f bi ii v ∧
    (∀ j n k, (j, n, k) ∈ us ↔ (j, n) ≠ (bi, ii) ∧ ∃ i, inst_at f j n = Some i ∧ use_kind v i = Some k) ∧
    NoDup us.*1.
Proof.
  intros Hc. destruct (blocks_uses_spec v bi ii 0 (fn_blocks f) Hc) as (r & Hr & Hspec).
  exists r. split; [done |]. split.
  { intros ->. destruct (cons_escapes_spec f bi ii v Hc) as (e & He & Hiff). unfold cons_escapes in He.
    destruct (blocks_uses_escape v bi ii 0 (fn_blocks f) Hr) as [Ht|Ht]; rewrite Ht in He; [| done].
    injection He as <-. intros Ho%Hiff. done. }
  intros us Hus. destruct (Hspec us Hus) as ([H1 H1'] & H2 & H3).
  unfold only_read. setoid_rewrite inst_at_block. split_and!; [naive_solver | done | | done].
  intros j n k. rewrite H2, Nat.sub_0_r. split.
  - intros (Hne & _ & b & i & Hb & Hn & Hk). eauto 7.
  - intros (Hne & i & (b & Hb & Hn) & Hk). split_and!; [done | lia | by exists b, i].
Qed.
