(* ===== verification/RirRuns.v ===== *)
(** * Runs of register programs

    Facts on the runs of any function: memory stays safe and only grows, jumps
    bind parameters, and two functions that take the same steps up to a
    relation of states have the same results. *)

From stdpp Require Import base numbers gmap list relations fin_sets.
From Stdlib Require Import ZArith Strings.Byte.
From S2P Require Import Prelude RaftTypes Float64 Text Rir RirValues RirSem RirFacts Opt OptFacts Ssa.

Local Open Scope crab_scope.
Local Open Scope nat_scope.

Section runs.
Context {X E : Type} `{HL : RuntimeLaws X E}.

Notation val := (val X).
Notation pairs := (gmap loc (val * val)).
Notation state := (@state X E).
Notation config := (@config X E).
Implicit Types (s : state) (c : config) (regs : gmap Value val).

(** ** Parameters *)

Definition put (l : list (Value * val)) regs : gmap Value val := foldl (λ m x, <[x.1 := x.2]> m) regs l.

Lemma put_other l regs a : a ∉ l.*1 → put l regs !! a = regs !! a.
Proof.
  revert regs. induction l as [|[b w] l IH]; intros regs Ha; [done |]. cbn in Ha. apply not_elem_of_cons in Ha as [Hne Ha].
  cbn. unfold put in IH. by rewrite IH, lookup_insert_ne by done.
Qed.

Lemma put_agree l regs1 regs2 a : regs1 !! a = regs2 !! a → put l regs1 !! a = put l regs2 !! a.
Proof.
  revert regs1 regs2. induction l as [|[b w] l IH]; intros regs1 regs2 Ha; [done |]. apply IH. cbn.
  destruct (decide (a = b)) as [->|Hne]; [by rewrite !lookup_insert_eq | by rewrite !lookup_insert_ne].
Qed.

Lemma put_dom l regs : dom (put l regs) = dom regs ∪ list_to_set l.*1.
Proof.
  revert regs. induction l as [|[b w] l IH]; intros regs; cbn; [by rewrite union_empty_r_L |].
  unfold put in IH. rewrite IH, dom_insert_L. set_solver.
Qed.

Lemma put_all (P : val → Prop) l regs : map_Forall (λ _, P) regs → Forall P l.*2 → map_Forall (λ _, P) (put l regs).
Proof.
  revert regs. induction l as [|[b w] l IH]; intros regs Hr Hl; [done |]. cbn in Hl. inversion_clear Hl. apply IH; [| done].
  by apply map_Forall_insert_2.
Qed.

Lemma bind_params_put params args regs regs' : bind_params params args regs = Some regs' →
  length params = length args ∧ regs' = put (zip params.*1 args) regs ∧ (zip params.*1 args).*1 = params.*1 ∧
  (zip params.*1 args).*2 = args.
Proof.
  unfold bind_params. destruct (decide _) as [Hl|]; [| done]. intros [= <-]. split_and!; [done | done | |].
  - apply fst_zip. rewrite length_fmap. lia.
  - apply snd_zip. rewrite length_fmap. lia.
Qed.

Lemma bind_params_any params args regs : length params = length args →
  bind_params params args regs = Some (put (zip params.*1 args) regs).
Proof. intros Hl. unfold bind_params. by rewrite decide_True. Qed.

(** ** Operands *)

Lemma operands_inside (P : val → Prop) regs l args : map_Forall (λ _, P) regs →
  mapM (λ a, regs !! a) l = Some args → Forall P args.
Proof.
  intros Hr Hm%mapM_Some. induction Hm; constructor; [| done]. by eapply Hr.
Qed.

Lemma operands_agree regs1 regs2 l args : (∀ a, a ∈ l → regs1 !! a = regs2 !! a) →
  mapM (λ a, regs1 !! a) l = Some args → mapM (λ a, regs2 !! a) l = Some args.
Proof.
  rewrite !mapM_Some. intros Ha Hm. induction Hm as [|a w l args Hw Hm IH]; constructor.
  - rewrite <-Ha; [done | apply list_elem_of_here].
  - apply IH. intros b Hb. apply Ha. by right.
Qed.

Lemma operands_defined regs l args a : mapM (λ a, regs !! a) l = Some args → a ∈ l → a ∈ dom regs.
Proof.
  intros Hm%mapM_Some [n Hn]%list_elem_of_lookup. eapply Forall2_lookup_l in Hm as (w & Hw & Hr); [| done].
  by apply elem_of_dom_2 in Hr.
Qed.

(** ** Safe runs *)

Definition fine s : Prop := safe (st_pairs s) (st_rest s) ∧ map_Forall (λ _, inside (st_pairs s)) (st_regs s).

Definition state_of c : state := match c with Running _ _ s | Returned _ s | Failed s => s end.

Definition result_inside c : Prop :=
  match c with Returned w s => inside (st_pairs s) w | _ => True end.

Lemma regs_inside_mono (h h' : pairs) regs : dom h ⊆ dom h' → map_Forall (λ _, inside h) regs →
  map_Forall (λ _, inside h') regs.
Proof. intros Hd Hr a w Ha. eapply inside_mono; [done |]. by eapply Hr. Qed.

Lemma inst_step_fine i s o s' : inst_step i s o s' → fine s → fine s' ∧ dom (st_pairs s) ⊆ dom (st_pairs s').
Proof.
  intros (args & Hargs & Hacts & _ & Hregs) [Hs Hr].
  apply acts_safe in Hacts as (Hd & Hs' & Ho); [| done | by eapply (operands_inside (inside _))].
  split; [| done]. split; [done |]. rewrite Hregs.
  pose proof (regs_inside_mono _ _ _ Hd Hr) as Hr'.
  destruct o as [w|]; [| done]. destruct (dst i); [| done]. apply map_Forall_insert_2; [by apply Ho | done].
Qed.

Lemma goes_fine f t args s c : goes f t args s c → fine s → fine (state_of c) ∧ result_inside c ∧
  st_pairs (state_of c) = st_pairs s.
Proof.
  intros (j & b & vs & regs & _ & _ & Hvs & (_ & -> & _ & H2)%bind_params_put & ->) [Hs Hr]. cbn.
  split; [| done]. split; [done |]. apply put_all; [done |]. rewrite H2. by eapply operands_inside.
Qed.

Lemma step_fine f c c' : step f c c' → fine (state_of c) →
  fine (state_of c') ∧ result_inside c' ∧ dom (st_pairs (state_of c)) ⊆ dom (st_pairs (state_of c')).
Proof.
  destruct c as [j n s| |]; [| done | done]. intros (b & Hb & Hs) Hf. destruct (bk_insts b !! n) as [i|].
  - destruct Hs as (o & s' & Hs & ->). apply inst_step_fine in Hs as [Hf' Hd]; [| done].
    destruct o; by split_and!.
  - destruct Hs as [_ Hs]. destruct (bk_terminator b); cbn in Hs.
    + destruct Hs as (w & Hw & ->). split_and!; [done | | done]. destruct Hf as [_ Hr]. by apply (Hr _ _ Hw).
    + apply goes_fine in Hs as (? & ? & Hp); [| done]. rewrite Hp. by split_and!.
    + destruct Hs as (w & _ & Hs). apply goes_fine in Hs as (? & ? & Hp); [| done]. rewrite Hp. by split_and!.
Qed.

Lemma run_fine f c c' : rtc (step f) c c' → fine (state_of c) →
  fine (state_of c') ∧ dom (st_pairs (state_of c)) ⊆ dom (st_pairs (state_of c')).
Proof.
  induction 1 as [|c c1 c' Hs _ IH]; [done |]. intros Hf. apply step_fine in Hs as (Hf1 & _ & Hd1); [| done].
  destruct (IH Hf1). split; [done | set_solver].
Qed.

Lemma starts_fine f args (h : pairs) (e : E) c : starts f args h e c → safe h e → Forall (inside h) args → fine (state_of c).
Proof.
  intros (j & regs & _ & (_ & -> & _ & H2)%bind_params_put & ->) Hs Ha. split; [done |].
  apply put_all; [apply map_Forall_empty | by rewrite H2].
Qed.

(** ** Results *)

(** The same value and the same rest; the pairs of the first are those of the
    second and some more. *)
Definition same_state s1 s2 : Prop :=
  st_rest s1 = st_rest s2 ∧ ∃ k, k ##ₘ st_pairs s2 ∧ st_pairs s1 = st_pairs s2 ∪ k.

Definition same_result c1 c2 : Prop :=
  match c1, c2 with
  | Returned w1 s1, Returned w2 s2 => w1 = w2 ∧ same_state s1 s2
  | Failed s1, Failed s2 => same_state s1 s2
  | _, _ => False
  end.

(** Every result of one function is a result of the other, but for pairs that
    the second has not made. *)
Definition preserves (f g : Function) : Prop :=
  ∀ args (h : pairs) (e : E), safe h e → Forall (inside h) args →
    (∀ c, runs f args h e c → ∃ c', runs g args h e c' ∧ same_result c c') ∧
    (∀ c', runs g args h e c' → ∃ c, runs f args h e c ∧ same_result c c').

Lemma same_state_refl s : same_state s s.
Proof. split; [done |]. exists ∅. split; [apply map_disjoint_empty_l | by rewrite map_union_empty]. Qed.

Lemma same_state_trans s1 s2 s3 : same_state s1 s2 → same_state s2 s3 → same_state s1 s3.
Proof.
  intros [He (k & Hk & Hp)] [He' (k' & Hk' & Hp')]. split; [congruence |]. exists (k' ∪ k). rewrite Hp, Hp'. rewrite Hp' in Hk.
  apply map_disjoint_union_r in Hk as [Hk _]. split; [by apply map_disjoint_union_l_2 | by rewrite map_union_assoc].
Qed.

Lemma same_result_refl c : ended c → same_result c c.
Proof. destruct c; cbn; [done | by split; [| apply same_state_refl] | intros _; apply same_state_refl]. Qed.

Lemma same_result_trans c1 c2 c3 : same_result c1 c2 → same_result c2 c3 → same_result c1 c3.
Proof.
  destruct c1, c2, c3; try done; cbn; [intros [-> ?] [-> ?]; split; [done |] |]; by eapply same_state_trans.
Qed.

Lemma preserves_refl f : preserves f f.
Proof.
  intros args h e _ _. split; intros c Hc; exists c; (split; [done |]); apply same_result_refl;
    by destruct Hc as (c0 & _ & _ & ?).
Qed.

Lemma preserves_trans f g k : preserves f g → preserves g k → preserves f k.
Proof.
  intros Hfg Hgk args h e Hs Ha. destruct (Hfg args h e Hs Ha) as [F1 F2]. destruct (Hgk args h e Hs Ha) as [G1 G2]. split.
  - intros c Hc. destruct (F1 c Hc) as (c1 & Hc1 & Hr1). destruct (G1 c1 Hc1) as (c2 & Hc2 & Hr2).
    exists c2. split; [done | by eapply same_result_trans].
  - intros c Hc. destruct (G2 c Hc) as (c1 & Hc1 & Hr1). destruct (F2 c1 Hc1) as (c2 & Hc2 & Hr2).
    exists c2. split; [done | by eapply same_result_trans].
Qed.

Lemma preserves_iff f g : (∀ args h e c, runs f args h e c ↔ runs g args h e c) → preserves f g.
Proof.
  intros Hiff args h e Hs Ha. destruct (preserves_refl f args h e Hs Ha) as [F1 F2].
  split; intros c Hc; [destruct (F1 c Hc) as (c' & ? & ?) | destruct (F2 c) as (c' & ? & ?)]; try (by apply Hiff);
    exists c'; (split; [| done]); [by apply Hiff | done].
Qed.

End runs.
