(* ===== verification/OptCons.v ===== *)
(** * Scalar replacement

    The elimination of a pair that is only read leaves the runs of a function
    in single-assignment form as they are, except that the pair is not there:
    the function without it returns the same value, does the same to the rest
    of the memory, and its pairs are those of the original without some that
    nothing refers to.  This holds in both directions, so neither function can
    do what the other one cannot. *)

From stdpp Require Import base numbers gmap list relations fin_sets.
From Stdlib Require Import ZArith Strings.Byte.
From S2P Require Import Prelude RaftTypes Float64 Text Rir RirValues RirSem RirFacts Opt OptFacts Ssa OptScan RirRuns.

Local Open Scope crab_scope.
Local Open Scope nat_scope.

(** ** What elimination does *)

(** A read of the pair becomes a read of its operand. *)
Definition read_use (site : ConsSite) (i : Inst.t) : Inst.t :=
  match i with
  | Inst.Car d p => if decide (p = cs_dst site) then Inst.Move d (cs_car site) else i
  | Inst.Cdr d p => if decide (p = cs_dst site) then Inst.Move d (cs_cdr site) else i
  | Inst.PairP d p => if decide (p = cs_dst site) then Inst.LoadConst d (Const.Boolean true) else i
  | Inst.NullP d p => if decide (p = cs_dst site) then Inst.LoadConst d (Const.Boolean false) else i
  | _ => i
  end.

Definition elim_inst (site : ConsSite) (j n : nat) (i : Inst.t) : Inst.t :=
  if decide ((j, n) = (cs_bi site, cs_ii site)) then Inst.Move (cs_dst site) (cs_car site) else read_use site i.

Lemma read_use_None site i : use_kind (cs_dst site) i = None → read_use site i = i.
Proof. by destruct i; cbn; try case_decide. Qed.

Lemma rewrite_use_spec site f j n k i : inst_at f j n = Some i → use_kind (cs_dst site) i = Some k →
  rewrite_use site f (j, n, k) = Some (map_insts (at_place j n (read_use site i)) f).
Proof.
  intros Hi Hk. unfold rewrite_use. rewrite Hi. rewrite <-set_inst_map.
  destruct i; try done; cbn in *; (destruct (decide _); [| done]); by injection Hk as <-.
Qed.

Lemma rewrite_uses_spec site us f : NoDup us.*1 →
  (∀ j n k, (j, n, k) ∈ us → ∃ i, inst_at f j n = Some i ∧ use_kind (cs_dst site) i = Some k) →
  rewrite_uses site f us =
    Some (map_insts (λ j n i, if decide ((j, n) ∈ us.*1) then read_use site i else i) f).
Proof.
  revert f. induction us as [|[[j n] k] us IH]; intros f Hnd Hus; cbn [rewrite_uses].
  { f_equal. rewrite <-(map_insts_id f) at 1. apply map_insts_ext. intros j n i _. by rewrite decide_False by by intros ?%elem_of_nil. }
  cbn [fmap list_fmap fst] in Hnd. apply NoDup_cons in Hnd as [Hn Hnd].
  destruct (Hus j n k (list_elem_of_here _ _)) as (i & Hi & Hk). rewrite (rewrite_use_spec _ _ _ _ _ i) by done. cbn [mbind option_bind].
  rewrite IH; [| done |].
  - rewrite map_insts_compose. f_equal. apply map_insts_ext. intros j' n' i' Hi'. unfold at_place. cbn [fmap list_fmap fst].
    destruct (decide ((j', n') = (j, n))) as [[= -> ->]|Hne].
    + rewrite decide_False by done. rewrite decide_True by apply list_elem_of_here. congruence.
    + apply decide_ext. rewrite elem_of_cons. naive_solver.
  - intros j' n' k' Hin. destruct (Hus j' n' k') as (i' & Hi' & Hk'); [by right |]. exists i'. split; [| done].
    rewrite inst_at_map, Hi'. cbn. unfold at_place. rewrite decide_False; [done |]. intros [= -> ->].
    apply Hn, list_elem_of_fmap. by exists (j, n, k').
Qed.

(** The site of a pair. *)
Definition is_site (f : Function) (site : ConsSite) : Prop :=
  ∃ ct dt, inst_at f (cs_bi site) (cs_ii site) = Some (Inst.Cons (cs_dst site) (cs_car site) ct (cs_cdr site) dt).

Lemma eliminate_spec f site : fully_covered f = true → is_site f site →
  ∃ g ok, eliminate f site = Some (g, ok) ∧
    if ok : bool then only_read f (cs_bi site) (cs_ii site) (cs_dst site) ∧ g = map_insts (elim_inst site) f
    else ¬ only_read f (cs_bi site) (cs_ii site) (cs_dst site) ∧ g = f.
Proof.
  intros Hc (ct & dt & Hsite). unfold eliminate.
  destruct (collect_spec f (cs_bi site) (cs_ii site) (cs_dst site) Hc) as (r & Hr & Hnone & Hspec). rewrite Hr. cbn.
  destruct r as [us|]; [| exists f, false; by auto].
  destruct (Hspec us eq_refl) as (Hro & Hin & Hnd). rewrite rewrite_uses_spec; [| done | intros j n k [_ ?]%Hin; done].
  cbn. eexists _, true. split; [done |]. split; [done |]. rewrite set_inst_map, map_insts_compose. apply map_insts_ext.
  intros j n i Hi. unfold at_place, elim_inst. destruct (decide _) as [|Hne]; [done |].
  destruct (decide ((j, n) ∈ us.*1)) as [Hu|Hu]; [done |]. symmetry. apply read_use_None.
  destruct (use_kind _ i) as [k|] eqn:Hk; [| done]. destruct Hu. apply list_elem_of_fmap.
  exists (j, n, k). split; [done |]. apply Hin. split; [done |]. by exists i.
Qed.

Lemma read_use_dst site i : dst (read_use site i) = dst i.
Proof. by destruct i; cbn; try case_decide. Qed.

Lemma elim_inst_dst f site j n i : is_site f site → inst_at f j n = Some i → dst (elim_inst site j n i) = dst i.
Proof.
  intros (ct & dt & Hs) Hi. unfold elim_inst. destruct (decide _) as [[= -> ->]|]; [| apply read_use_dst].
  rewrite Hs in Hi. by injection Hi as <-.
Qed.

(** ** The order of definitions *)

(** In a run, whenever the pair is available its operands have not been defined
    again since it was made. *)
Section order.
Context (f : Function) (avail : BlockId → gset Value) (v x y : Value) (bi ii : nat) (ct dt : N).
Hypothesis form : ssa f avail.
Hypothesis made : inst_at f bi ii = Some (Inst.Cons v x ct y dt).

(** The pair is not available where an operand is defined. *)
Definition early (a : Value) : Prop :=
  (∀ j b n i, fn_blocks f !! j = Some b → bk_insts b !! n = Some i → dst i = Some a → v ∉ scope avail b n) ∧
  (∀ j b, fn_blocks f !! j = Some b → a ∈ (bk_params b).*1 → v ∉ avail (bk_id b)).

(** What holds of the registers that have been defined in front of an
    instruction. *)
Record ordered (b : Block) (n : nat) (defined : gset Value) : Prop := {
  od_scope : scope avail b n ⊆ defined;
  od_operands : v ∈ defined → x ∈ defined ∧ y ∈ defined;
  od_early : ∀ a, a = x ∨ a = y → a ∈ defined → early a }.

Lemma v_inst j b n i : fn_blocks f !! j = Some b → bk_insts b !! n = Some i → dst i = Some v →
  (j, n) = (bi, ii) ∧ i = Inst.Cons v x ct y dt.
Proof.
  intros Hj Hn Hd. apply inst_at_block in made as (b' & Hb' & Hi').
  by destruct (one_inst f (ssa_once _ _ form) _ _ _ _ _ _ _ _ _ Hj Hb' Hn Hi' Hd eq_refl) as (-> & -> & -> & ->).
Qed.

Lemma v_not_param j b : fn_blocks f !! j = Some b → v ∉ (bk_params b).*1.
Proof.
  intros Hj. apply inst_at_block in made as (b' & Hb' & Hi').
  exact (inst_not_param f (ssa_once _ _ form) _ _ _ _ _ _ _ Hb' Hj Hi' eq_refl).
Qed.

Lemma v_not_fn_param : v ∉ (fn_params f).*1.
Proof.
  apply inst_at_block in made as (b' & Hb' & Hi'). eapply (not_fn_param f (ssa_once _ _ form)); [done |].
  apply elem_of_app. right. by eapply inst_defs.
Qed.

Lemma v_srcs : srcs (Inst.Cons v x ct y dt) = [x; y].
Proof. done. Qed.

Lemma early_param a : a ∈ (fn_params f).*1 → early a.
Proof.
  intros Ha. split.
  - intros j b n i Hj Hn Hd _. eapply (not_fn_param f (ssa_once _ _ form)); [done | | done].
    apply elem_of_app. right. by eapply inst_defs.
  - intros j b Hj Hp _. eapply (not_fn_param f (ssa_once _ _ form)); [done | | done]. by apply elem_of_app; left.
Qed.

Lemma ordered_start b : bk_id b = fn_entry f → ordered b 0 (list_to_set (fn_params f).*1).
Proof.
  intros Hid. split.
  - intros a [Ha|(m & i & Hm & _)]%elem_of_scope; [| lia]. rewrite Hid in Ha. by apply (ssa_entry _ _ form).
  - intros Hv%elem_of_list_to_set. by destruct v_not_fn_param.
  - intros a _ Ha%elem_of_list_to_set. by apply early_param.
Qed.

Lemma ordered_ne b n defined : ordered b n defined → v ∈ defined → x ≠ v ∧ y ≠ v.
Proof.
  intros [_ Ho He] Hv. destruct (Ho Hv) as [Hx Hy].
  apply inst_at_block in made as (b' & Hb' & Hi').
  assert (∀ a, a = x ∨ a = y → a ∈ defined → a ≠ v) as Hne; [| auto].
  intros a Ha Hin ->. destruct (He v Ha Hin) as [Hinst _]. apply (Hinst _ _ _ _ Hb' Hi' eq_refl).
  eapply (ssa_uses _ _ form); [by eapply list_elem_of_lookup_2 | done |]. rewrite v_srcs. destruct Ha as [-> | ->]; set_solver.
Qed.

Lemma ordered_inst j b n i defined : fn_blocks f !! j = Some b → bk_insts b !! n = Some i →
  (∀ a, a ∈ srcs i → a ∈ defined) → ordered b n defined →
  ordered b (S n) (defined ∪ list_to_set (option_list (dst i))).
Proof.
  intros Hj Hn Hsrcs [Hs Ho He]. split.
  - rewrite (scope_S _ _ _ i) by done. set_solver.
  - intros [Hv|Hv]%elem_of_union; [set_solver |].
    destruct (dst i) as [d|] eqn:Hd; [| set_solver]. assert (d = v) as -> by set_solver.
    apply (v_inst j b n i Hj Hn) in Hd as [_ ->]. split; apply elem_of_union_l, Hsrcs; rewrite v_srcs; set_solver.
  - intros a Ha [Hin|Hin]%elem_of_union; [by apply He |].
    destruct (dst i) as [d|] eqn:Hd; [| set_solver]. assert (d = a) as -> by set_solver.
    assert (v ∉ scope avail b n) as Hv.
    { intros Hv. pose proof (Ho (Hs v Hv)) as [Hx Hy]. assert (a ∈ defined) as Hin' by (by destruct Ha as [-> | ->]).
      by apply (proj1 (He a Ha Hin') _ _ _ _ Hj Hn Hd). }
    split.
    + intros j' b' n' i' Hj' Hn' Hd'. by destruct (one_inst f (ssa_once _ _ form) _ _ _ _ _ _ _ _ _ Hj Hj' Hn Hn' Hd Hd') as (-> & -> & -> & ->).
    + intros j' b' Hj' Hp. by destruct (inst_not_param f (ssa_once _ _ form) _ _ _ _ _ _ _ Hj Hj' Hn Hd).
Qed.

Lemma scope_jump j b j' b' : fn_blocks f !! j = Some b → fn_blocks f !! j' = Some b' →
  bk_id b' ∈ targets (bk_terminator b) → v ∈ avail (bk_id b') → v ∈ scope avail b (length (bk_insts b)).
Proof.
  intros Hj Hj' Ht Hv. apply (ssa_edges _ _ form b b' (list_elem_of_lookup_2 _ _ _ Hj) (list_elem_of_lookup_2 _ _ _ Hj') Ht) in Hv.
  apply elem_of_union in Hv as [Hv|Hv%elem_of_list_to_set]; [done |]. by destruct (v_not_param j' b' Hj').
Qed.

Lemma ordered_jump j b j' b' defined : fn_blocks f !! j = Some b → fn_blocks f !! j' = Some b' →
  bk_id b' ∈ targets (bk_terminator b) → ordered b (length (bk_insts b)) defined →
  ordered b' 0 (defined ∪ list_to_set (bk_params b').*1).
Proof.
  intros Hj Hj' Ht [Hs Ho He]. split.
  - intros a [Ha|(m & i & Hm & _)]%elem_of_scope; [| lia].
    apply (ssa_edges _ _ form b b' (list_elem_of_lookup_2 _ _ _ Hj) (list_elem_of_lookup_2 _ _ _ Hj') Ht) in Ha. set_solver.
  - intros [Hv|Hv%elem_of_list_to_set]%elem_of_union; [set_solver | by destruct (v_not_param j' b' Hj')].
  - intros a Ha [Hin|Hin%elem_of_list_to_set]%elem_of_union; [by apply He |].
    assert (v ∉ avail (bk_id b')) as Hv.
    { intros Hv. pose proof (Ho (Hs v (scope_jump j b j' b' Hj Hj' Ht Hv))) as [Hx Hy].
      assert (a ∈ defined) as Hin' by (by destruct Ha as [-> | ->]). by apply (proj2 (He a Ha Hin') _ _ Hj' Hin). }
    split.
    + intros j2 b2 n2 i2 Hj2 Hn2 Hd2. by destruct (inst_not_param f (ssa_once _ _ form) _ _ _ _ _ _ _ Hj2 Hj' Hn2 Hd2).
    + intros j2 b2 Hj2 Hp2. by rewrite (one_param f (ssa_once _ _ form) _ _ _ _ _ Hj2 Hj' Hp2 Hin).
Qed.

(** Where the pair is still available, its operands have not been defined
    again. *)
Lemma kept_inst j b n i d defined : fn_blocks f !! j = Some b → bk_insts b !! n = Some i → dst i = Some d → d ≠ v →
  ordered b n defined → v ∈ scope avail b (S n) → v ∈ scope avail b n ∧ d ≠ x ∧ d ≠ y.
Proof.
  intros Hj Hn Hd Hne [Hs Ho He] Hv. rewrite (scope_S _ _ _ i), Hd in Hv by done. assert (v ∈ scope avail b n) as Hvn by set_solver.
  split; [done |]. destruct (Ho (Hs v Hvn)) as [Hx Hy].
  split; intros ->; [apply (He x) in Hx | apply (He y) in Hy]; auto; [by apply (proj1 Hx _ _ _ _ Hj Hn Hd) | by apply (proj1 Hy _ _ _ _ Hj Hn Hd)].
Qed.

Lemma kept_jump j b j' b' defined : fn_blocks f !! j = Some b → fn_blocks f !! j' = Some b' →
  bk_id b' ∈ targets (bk_terminator b) → ordered b (length (bk_insts b)) defined → v ∈ avail (bk_id b') →
  v ∈ scope avail b (length (bk_insts b)) ∧ x ∉ (bk_params b').*1 ∧ y ∉ (bk_params b').*1.
Proof.
  intros Hj Hj' Ht [Hs Ho He] Hv. pose proof (scope_jump _ _ _ _ Hj Hj' Ht Hv) as Hvn.
  split; [done |]. destruct (Ho (Hs v Hvn)) as [Hx Hy].
  split; intros Hp; [apply (He x) in Hx | apply (He y) in Hy]; auto; [by apply (proj2 Hx _ _ Hj' Hp) | by apply (proj2 Hy _ _ Hj' Hp)].
Qed.

End order.

(** ** One pair less *)

Section simulation.
Context {X E : Type} `{HL : RuntimeLaws X E}.
Context (f : Function) (avail : BlockId → gset Value) (site : ConsSite) (ct dt : N).

Notation v := (cs_dst site).
Notation x := (cs_car site).
Notation y := (cs_cdr site).
Notation g := (map_insts (elim_inst site) f).
Notation val := (val X).
Notation pairs := (gmap loc (val * val)).
Notation state := (@state X E).
Notation config := (@config X E).
Notation ordered := (ordered f avail v x y).
Implicit Types (s : state) (c : config) (regs : gmap Value val) (k : pairs).

Hypothesis form : ssa f avail.
Hypothesis made : inst_at f (cs_bi site) (cs_ii site) = Some (Inst.Cons v x ct y dt).
Hypothesis reads : only_read f (cs_bi site) (cs_ii site) v.

(** The second state is the first without the eliminated pairs [k]. *)
Record agrees (k : pairs) (s1 s2 : state) : Prop := {
  ag_pairs : st_pairs s1 = st_pairs s2 ∪ k;
  ag_apart : k ##ₘ st_pairs s2;
  ag_rest : st_rest s1 = st_rest s2;
  ag_region : st_region s1 = st_region s2;
  ag_fine : fine s2;
  ag_regs : ∀ a, a ≠ v → st_regs s1 !! a = st_regs s2 !! a }.

(** The pair holds the operands as they are now. *)
Definition synced (k : pairs) regs : Prop :=
  ∃ p w w', regs !! v = Some (VPair p) ∧ k !! p = Some (w, w') ∧ regs !! x = Some w ∧ regs !! y = Some w'.

Record at_point (b : Block) (n : nat) (k : pairs) (s1 s2 : state) : Prop := {
  pt_agrees : agrees k s1 s2;
  pt_ordered : ordered b n (dom (st_regs s1));
  pt_synced : v ∈ scope avail b n → synced k (st_regs s1) }.

Definition set_reg (d : Value) (w : val) s : state :=
  MkState (<[d := w]> (st_regs s)) (st_pairs s) (st_rest s) (st_region s).

(** An instruction that only gives a value. *)
Definition gives (i : Inst.t) s (d : Value) (w : val) : Prop :=
  ∀ o s', inst_step i s o s' ↔ o = Some w ∧ s' = set_reg d w s.

Lemma gives_value i s d w args : dst i = Some d →
  mapM (λ a, st_regs s !! a) (srcs i) = Some args → meaning_of (erased i) args = MValue w →
  (∀ o r, in_region i (o : option val) r = r) → gives i s d w.
Proof.
  intros Hd Ha Hm Hreg o [regs' h' e' r']. unfold inst_step. rewrite Hd. split.
  - intros (args1 & Ha1 & Hacts & Hr & Hregs). simplify_eq. unfold acts in Hacts. rewrite Hm in Hacts.
    destruct Hacts as (-> & Hh & He). split; [done |]. unfold set_reg. cbn in *. rewrite Hreg in Hr. by subst.
  - intros [-> [= -> -> -> ->]]. exists args. unfold acts. rewrite Hm, Hreg. by split_and!.
Qed.

Lemma gives_read i s d w args p (c : val * val) (slot : val * val → val) : dst i = Some d →
  mapM (λ a, st_regs s !! a) (srcs i) = Some args → meaning_of (erased i) args = MRead p slot →
  st_pairs s !! p = Some c → slot c = w → (∀ o r, in_region i (o : option val) r = r) → gives i s d w.
Proof.
  intros Hd Ha Hm Hp <- Hreg o [regs' h' e' r']. unfold inst_step. rewrite Hd. split.
  - intros (args1 & Ha1 & Hacts & Hr & Hregs). simplify_eq. unfold acts in Hacts. rewrite Hm in Hacts.
    destruct Hacts as (c' & Hc' & -> & Hh & He). rewrite Hp in Hc'. injection Hc' as <-.
    split; [done |]. unfold set_reg. cbn in *. rewrite Hreg in Hr. by subst.
  - intros [-> [= -> -> -> ->]]. exists args. unfold acts. rewrite Hm, Hreg. split_and!; try done.
    exists c. by split_and!.
Qed.

Lemma gives_move s d a w : st_regs s !! a = Some w → gives (Inst.Move d a) s d w.
Proof. intros Ha. eapply (gives_value _ _ _ _ [w]); try done. cbn. by rewrite Ha. Qed.

(** What a read of the pair gives, in the original and rewritten. *)
Definition read_value (kind : UseKind) (w w' : val) : val :=
  match kind with UCar => w | UCdr => w' | UPairP => VBool true | UNullP => VBool false end.

Lemma use_gives i kind s p w w' : use_kind v i = Some kind → st_regs s !! v = Some (VPair p) →
  st_pairs s !! p = Some (w, w') → ∃ d, dst i = Some d ∧ gives i s d (read_value kind w w').
Proof.
  intros [d ->]%use_kind_inst Hv Hp. exists d. assert (mapM (λ a, st_regs s !! a) [v] = Some [VPair p]) as Ha by (cbn; by rewrite Hv).
  destruct kind; (split; [done |]);
    [eapply (gives_read _ _ _ _ [VPair p]) | eapply (gives_read _ _ _ _ [VPair p])
     | eapply (gives_value _ _ _ _ [VPair p]) | eapply (gives_value _ _ _ _ [VPair p])]; done.
Qed.

Lemma read_use_gives i kind s w w' : use_kind v i = Some kind → st_regs s !! x = Some w → st_regs s !! y = Some w' →
  ∃ d, dst i = Some d ∧ gives (read_use site i) s d (read_value kind w w').
Proof.
  intros [d ->]%use_kind_inst Hx Hy. exists d.
  destruct kind; (split; [done |]); cbn [read_use]; rewrite decide_True by done;
    [by apply gives_move | by apply gives_move | by eapply (gives_value _ _ _ _ []) | by eapply (gives_value _ _ _ _ [])].
Qed.

Lemma agrees_set k s1 s2 d w : agrees k s1 s2 → inside (st_pairs s2) w → agrees k (set_reg d w s1) (set_reg d w s2).
Proof.
  intros [Hp Ha He Hr [Hs Hf] Hregs] Hw. split; try done.
  - split; [done |]. by apply map_Forall_insert_2.
  - intros a Hne. cbn. destruct (decide (a = d)) as [->|Hd]; [by rewrite !lookup_insert_eq |].
    rewrite !lookup_insert_ne by done. by apply Hregs.
Qed.

(** ** Instructions that do not mention the pair *)

Lemma other_forward i k s1 s2 o s1' : v ∉ operands i → agrees k s1 s2 → inst_step i s1 o s1' →
  ∃ s2', inst_step i s2 o s2' ∧ agrees k s1' s2'.
Proof.
  intros Hv [Hp Ha He Hr Hf Hregs] Hs. pose proof Hs as (args & Hargs & Hacts & Hreg & Hregs').
  assert (mapM (λ a, st_regs s2 !! a) (srcs i) = Some args) as Hargs2.
  { eapply operands_agree; [| done]. intros a Ha'. apply Hregs. intros ->. apply Hv, values_parts. by left. }
  rewrite Hp, He in Hacts.
  eapply acts_local in Hacts as (h2 & Hh & Hapart & Hacts2); [| done | apply Hf | by eapply operands_inside; [apply Hf |]].
  exists (MkState (match o, dst i with Some r, Some d => <[d := r]> (st_regs s2) | _, _ => st_regs s2 end)
            h2 (st_rest s1') (in_region i o (st_region s2))).
  match goal with |- inst_step i s2 o ?s2' ∧ _ => assert (inst_step i s2 o s2') as Hs2 by (by exists args) end.
  split; [done |]. split; cbn; try done; [by rewrite Hreg, Hr | by apply (inst_step_fine _ _ _ _ Hs2) |].
  intros a Hne. rewrite Hregs'. destruct o as [w|]; [| by apply Hregs]. destruct (dst i) as [d|]; [| by apply Hregs].
  destruct (decide (a = d)) as [->|Hd]; [by rewrite !lookup_insert_eq |]. rewrite !lookup_insert_ne by done. by apply Hregs.
Qed.

Lemma other_backward i k s1 s2 o s2' : v ∉ operands i → agrees k s1 s2 → inst_step i s2 o s2' → k ##ₘ st_pairs s2' →
  ∃ s1', inst_step i s1 o s1' ∧ agrees k s1' s2'.
Proof.
  intros Hv [Hp Ha He Hr Hf Hregs] Hs Hapart. pose proof Hs as (args & Hargs & Hacts & Hreg & Hregs').
  assert (mapM (λ a, st_regs s1 !! a) (srcs i) = Some args) as Hargs1.
  { eapply operands_agree; [| done]. intros a Ha'. symmetry. apply Hregs. intros ->. apply Hv, values_parts. by left. }
  eapply acts_frame in Hacts; [| exact Ha | exact Hapart | apply Hf | by eapply operands_inside; [apply Hf |]].
  exists (MkState (match o, dst i with Some r, Some d => <[d := r]> (st_regs s1) | _, _ => st_regs s1 end)
            (st_pairs s2' ∪ k) (st_rest s2') (in_region i o (st_region s1))).
  split; [exists args; rewrite Hp, He; by split_and! |].
  split; cbn; try done; [by rewrite Hreg, Hr | by apply (inst_step_fine _ _ _ _ Hs) |].
  intros a Hne. rewrite Hregs'. destruct o as [w|]; [| by apply Hregs]. destruct (dst i) as [d|]; [| by apply Hregs].
  destruct (decide (a = d)) as [->|Hd]; [by rewrite !lookup_insert_eq |]. rewrite !lookup_insert_ne by done. by apply Hregs.
Qed.

(** ** The instruction that makes the pair *)

Lemma cons_steps s o s' : inst_step (Inst.Cons v x ct y dt) s o s' ↔
  ∃ w w' p, st_regs s !! x = Some w ∧ st_regs s !! y = Some w' ∧ st_pairs s !! p = None ∧ o = Some (VPair p) ∧
    s' = MkState (<[v := VPair p]> (st_regs s)) (<[p := (w, w')]> (st_pairs s)) (st_rest s) (st_region s).
Proof.
  destruct s' as [regs' h' e' r']. unfold inst_step. cbn. split.
  - intros (args & Hargs & Hacts & Hr & Hregs).
    destruct (st_regs s !! x) as [w|] eqn:Hx; [| done]. destruct (st_regs s !! y) as [w'|] eqn:Hy; [| done].
    cbn in Hargs. injection Hargs as <-. destruct Hacts as (p & Hp & -> & -> & ->). exists w, w', p. by subst.
  - intros (w & w' & p & -> & -> & Hp & -> & [= -> -> -> ->]). exists [w; w']. cbn.
    split_and!; [done | by exists p | done | done].
Qed.

Lemma agrees_cons k s1 s2 p w w' : agrees k s1 s2 → st_pairs s1 !! p = None → inside (st_pairs s2) w →
  agrees (<[p := (w, w')]> k)
    (MkState (<[v := VPair p]> (st_regs s1)) (<[p := (w, w')]> (st_pairs s1)) (st_rest s1) (st_region s1))
    (set_reg v w s2).
Proof.
  intros [Hp Ha He Hr [Hs Hf] Hregs] Hnone Hw. rewrite Hp in Hnone. apply lookup_union_None in Hnone as [H2 _]. split; cbn; try done.
  - rewrite Hp. by rewrite insert_union_r.
  - by apply map_disjoint_insert_l_2.
  - split; [done |]. by apply map_Forall_insert_2.
  - intros a Hne. rewrite !lookup_insert_ne by done. by apply Hregs.
Qed.

(** ** Every instruction *)

Lemma inst_cases j b n i : fn_blocks f !! j = Some b → bk_insts b !! n = Some i →
  (i = Inst.Cons v x ct y dt ∧ elim_inst site j n i = Inst.Move v x) ∨
  (∃ kind, use_kind v i = Some kind ∧ elim_inst site j n i = read_use site i ∧ dst i ≠ Some v) ∨
  (v ∉ operands i ∧ elim_inst site j n i = i).
Proof.
  intros Hj Hn. assert (inst_at f j n = Some i) as Hat by (apply inst_at_block; by exists b).
  unfold elim_inst. destruct (decide ((j, n) = (cs_bi site, cs_ii site))) as [[= -> ->]|Hne].
  { left. split; [| done]. congruence. }
  right. destruct (decide (v ∈ operands i)) as [Hv|Hv].
  - left. destruct (proj1 reads j n i Hat Hne Hv) as [kind Hk]. exists kind. split_and!; [done | done |].
    intros Hd. by apply (v_inst f avail v x y _ _ ct dt form made j b n i Hj Hn) in Hd as [? _].
  - right. split; [done |]. apply read_use_None. destruct (use_kind v i) eqn:Hk; [| done].
    by apply use_kind_values in Hk as [_ ?].
Qed.

Lemma inst_step_dom i s r s' : inst_step i s (Some r) s' →
  dom (st_regs s') = dom (st_regs s) ∪ list_to_set (option_list (dst i)) ∧
  (∀ a, dst i ≠ Some a → st_regs s' !! a = st_regs s !! a) ∧ (∀ a, a ∈ srcs i → a ∈ dom (st_regs s)).
Proof.
  intros (args & Hargs & _ & _ & ->). split_and!.
  - destruct (dst i); cbn; [rewrite dom_insert_L |]; set_solver.
  - intros a Ha. destruct (dst i); [| done]. by rewrite lookup_insert_ne by congruence.
  - intros a Ha. by eapply operands_defined.
Qed.

Lemma after_inst j b n i k k' s1 s2 r s1' s2' : fn_blocks f !! j = Some b → bk_insts b !! n = Some i →
  at_point b n k s1 s2 → inst_step i s1 (Some r) s1' → agrees k' s1' s2' → k ⊆ k' →
  (dst i = Some v → synced k' (st_regs s1')) → at_point b (S n) k' s1' s2'.
Proof.
  intros Hj Hn [_ Hord Hsync] (Hdom & Hother & Hsrcs)%inst_step_dom Hag Hsub Hv. split; [done | |].
  - rewrite Hdom. eapply ordered_inst; eauto.
  - intros Hin. destruct (dst i) as [d|] eqn:Hd.
    + destruct (decide (d = v)) as [->|Hne]; [by apply Hv |].
      destruct (kept_inst f avail v x y _ _ ct dt form made j b n i d _ Hj Hn Hd Hne Hord Hin) as (Hin' & Hdx & Hdy).
      destruct (Hsync Hin') as (p & w & w' & H1 & H2 & H3 & H4). exists p, w, w'.
      rewrite !Hother by congruence. split_and!; try done. by eapply lookup_weaken.
    + rewrite (scope_S _ _ _ i), Hd in Hin by done. destruct Hsync as (p & w & w' & H1 & H2 & H3 & H4); [set_solver |].
      exists p, w, w'. rewrite !Hother by done. split_and!; try done. by eapply lookup_weaken.
Qed.

Lemma operand_inside k s1 s2 a w : agrees k s1 s2 → a ≠ v → st_regs s1 !! a = Some w →
  st_regs s2 !! a = Some w ∧ inside (st_pairs s2) w.
Proof. intros [_ _ _ _ [_ Hf] Hregs] Hne Ha. rewrite Hregs in Ha by done. split; [done |]. by apply (Hf _ _ Ha). Qed.

(** A read of the pair gives the same in both. *)
Lemma use_both j b n i kind k s1 s2 : fn_blocks f !! j = Some b → bk_insts b !! n = Some i → at_point b n k s1 s2 →
  use_kind v i = Some kind → ∃ d w, dst i = Some d ∧ gives i s1 d w ∧ gives (read_use site i) s2 d w ∧ inside (st_pairs s2) w.
Proof.
  intros Hj Hn [Hag Hord Hsync] Hk. assert (v ∈ scope avail b n) as Hv.
  { eapply (ssa_uses _ _ form); [by eapply list_elem_of_lookup_2 | done |]. destruct (use_kind_inst _ _ _ Hk) as [d ->].
    destruct kind; apply list_elem_of_here. }
  destruct (Hsync Hv) as (p & w & w' & Hrv & Hkp & Hx & Hy).
  destruct (ordered_ne f avail v x y _ _ ct dt form made b n _ Hord) as [Hnx Hny]; [by apply elem_of_dom_2 in Hrv |].
  destruct (operand_inside _ _ _ _ _ Hag Hnx Hx) as [Hx2 Hwx]. destruct (operand_inside _ _ _ _ _ Hag Hny Hy) as [Hy2 Hwy].
  destruct (use_gives i kind s1 p w w' Hk Hrv) as (d & Hd & Hg1).
  { rewrite (ag_pairs _ _ _ Hag). apply lookup_union_Some_r; [| done]. apply map_disjoint_sym, (ag_apart _ _ _ Hag). }
  destruct (read_use_gives i kind s2 w w' Hk Hx2 Hy2) as (d' & Hd' & Hg2). simplify_eq.
  exists d, (read_value kind w w'). split_and!; try done. destruct kind; try done; apply empty_subseteq.
Qed.

Lemma inst_forward j b n i k s1 s2 o s1' : fn_blocks f !! j = Some b → bk_insts b !! n = Some i → at_point b n k s1 s2 →
  inst_step i s1 o s1' →
  ∃ o' s2' k', inst_step (elim_inst site j n i) s2 o' s2' ∧ agrees k' s1' s2' ∧
    match o with Some _ => is_Some o' ∧ at_point b (S n) k' s1' s2' | None => o' = None end.
Proof.
  intros Hj Hn Hpt Hs. pose proof (pt_agrees _ _ _ _ _ Hpt) as Hag.
  destruct (inst_cases j b n i Hj Hn) as [(-> & ->)|[(kind & Hk & -> & Hd)|(Hv & ->)]].
  - pose proof Hs as (w & w' & p & Hx & Hy & Hp & -> & Hs1')%cons_steps.
    destruct (inst_step_dom _ _ _ _ Hs) as (Hdom & _ & _).
    pose proof (ordered_inst f avail v x y _ _ ct dt form made j b n _ _ Hj Hn (proj2 (proj2 (inst_step_dom _ _ _ _ Hs))) (pt_ordered _ _ _ _ _ Hpt)) as Hord.
    destruct (ordered_ne f avail v x y _ _ ct dt form made _ _ _ Hord) as [Hnx Hny]; [apply elem_of_union_r, elem_of_list_to_set, list_elem_of_here |].
    destruct (operand_inside _ _ _ _ _ Hag Hnx Hx) as [Hx2 Hwx].
    assert (agrees (<[p := (w, w')]> k) s1' (set_reg v w s2)) as Hag' by (subst s1'; by apply agrees_cons).
    exists (Some w), (set_reg v w s2), (<[p := (w, w')]> k). split_and!; [by apply (gives_move s2 v x w Hx2) | done | done |].
    eapply after_inst; try done.
    + apply insert_subseteq. rewrite (ag_pairs _ _ _ Hag) in Hp. by apply lookup_union_None in Hp as [_ ?].
    + intros _. subst s1'. exists p, w, w'. cbn. rewrite !lookup_insert_eq. by rewrite !lookup_insert_ne by done.
  - destruct (use_both j b n i kind k s1 s2 Hj Hn Hpt Hk) as (d & w & Hdd & Hg1 & Hg2 & Hw).
    apply Hg1 in Hs as Hs'. destruct Hs' as [-> ->]. pose proof (agrees_set _ _ _ d w Hag Hw) as Hag'.
    exists (Some w), (set_reg d w s2), k. split_and!; [by apply Hg2 | done | done |].
    by eapply after_inst.
  - destruct (other_forward i k s1 s2 o s1' Hv Hag Hs) as (s2' & Hs2 & Hag'). exists o, s2', k. split_and!; [done | done |].
    destruct o as [r|]; [| done]. split; [done |]. eapply after_inst; try done. intros Hd. destruct Hv. apply values_parts. by right.
Qed.

Lemma fresh_for (F : gset loc) k : dom k ## F → ∃ p, p ∉ F ∧ k !! p = None.
Proof. intros _. exists (fresh (F ∪ dom k)). pose proof (is_fresh (F ∪ dom k)). split; [set_solver |]. apply not_elem_of_dom. set_solver. Qed.

Lemma inst_backward (F : gset loc) j b n i k s1 s2 o' s2' : fn_blocks f !! j = Some b → bk_insts b !! n = Some i →
  at_point b n k s1 s2 → dom k ## F → inst_step (elim_inst site j n i) s2 o' s2' → dom (st_pairs s2') ⊆ F →
  ∃ o s1' k', inst_step i s1 o s1' ∧ dom k' ## F ∧ agrees k' s1' s2' ∧
    match o' with Some _ => is_Some o ∧ at_point b (S n) k' s1' s2' | None => o = None end.
Proof.
  intros Hj Hn Hpt HF Hs Hsub. pose proof (pt_agrees _ _ _ _ _ Hpt) as Hag.
  destruct (inst_cases j b n i Hj Hn) as [(-> & Helim)|[(kind & Hk & Helim & Hd)|(Hv & Helim)]]; rewrite Helim in Hs.
  - assert (∀ a, a ∈ [x; y] → a ∈ dom (st_regs s1)) as Hin.
    { intros a Ha. apply (od_scope _ _ _ _ _ _ _ _ (pt_ordered _ _ _ _ _ Hpt)).
      eapply (ssa_uses _ _ form); [by eapply list_elem_of_lookup_2 | done | done]. }
    destruct (proj1 (elem_of_dom _ _) (Hin x (list_elem_of_here _ _))) as [w Hx].
    destruct (proj1 (elem_of_dom _ _) (Hin y (list_elem_of_further _ _ _ (list_elem_of_here _ _)))) as [w' Hy].
    destruct (fresh_for F k HF) as (p & HpF & Hpk).
    assert (st_pairs s1 !! p = None) as Hp.
    { rewrite (ag_pairs _ _ _ Hag). apply lookup_union_None. split; [| done]. apply not_elem_of_dom. intros Hp.
      apply HpF, Hsub. apply inst_step_fine in Hs as [_ Hd]; [by apply Hd | apply (ag_fine _ _ _ Hag)]. }
    set (s1' := MkState (<[v := VPair p]> (st_regs s1)) (<[p := (w, w')]> (st_pairs s1)) (st_rest s1) (st_region s1)).
    assert (inst_step (Inst.Cons v x ct y dt) s1 (Some (VPair p)) s1') as Hs1 by (apply cons_steps; by exists w, w', p).
    pose proof (ordered_inst f avail v x y _ _ ct dt form made j b n _ _ Hj Hn Hin (pt_ordered _ _ _ _ _ Hpt)) as Hord.
    destruct (ordered_ne f avail v x y _ _ ct dt form made _ _ _ Hord) as [Hnx Hny]; [apply elem_of_union_r, elem_of_list_to_set, list_elem_of_here |].
    destruct (operand_inside _ _ _ _ _ Hag Hnx Hx) as [Hx2 Hwx].
    apply (gives_move s2 v x w Hx2) in Hs as [-> ->].
    pose proof (agrees_cons k s1 s2 p w w' Hag Hp Hwx) as Hag'. fold s1' in Hag'.
    exists (Some (VPair p)), s1', (<[p := (w, w')]> k). split_and!; [done | rewrite dom_insert_L; set_solver | done | done |].
    eapply after_inst; try done; [by apply insert_subseteq |].
    intros _. exists p, w, w'. cbn. rewrite !lookup_insert_eq. by rewrite !lookup_insert_ne by done.
  - destruct (use_both j b n i kind k s1 s2 Hj Hn Hpt Hk) as (d & w & Hdd & Hg1 & Hg2 & Hw).
    apply Hg2 in Hs as [-> ->]. pose proof (agrees_set _ _ _ d w Hag Hw) as Hag'.
    assert (inst_step i s1 (Some w) (set_reg d w s1)) as Hs1 by by apply Hg1.
    exists (Some w), (set_reg d w s1), k. split_and!; [done | done | done | done |].
    by eapply after_inst.
  - destruct (other_backward i k s1 s2 o' s2' Hv Hag Hs) as (s1' & Hs1 & Hag').
    { apply map_disjoint_dom. set_solver. }
    exists o', s1', k. split_and!; [done | done | done |].
    destruct o' as [r|]; [| done]. split; [done |]. eapply after_inst; try done. intros Hd. destruct Hv. apply values_parts. by right.
Qed.

(** ** Jumps and runs *)

(** Both functions are at the same place; the eliminated pairs are outside
    [F]. *)
Definition paired (F : gset loc) c1 c2 : Prop :=
  match c1, c2 with
  | Running j n s1, Running j' n' s2 =>
      j' = j ∧ n' = n ∧ ∃ b k, fn_blocks f !! j = Some b ∧ dom k ## F ∧ at_point b n k s1 s2
  | Returned w s1, Returned w' s2 => w' = w ∧ ∃ k, agrees k s1 s2
  | Failed s1, Failed s2 => ∃ k, agrees k s1 s2
  | _, _ => False
  end.

(** A jump of both. *)
Lemma enter j b j' b' k s1 s2 vs : fn_blocks f !! j = Some b → fn_blocks f !! j' = Some b' →
  bk_id b' ∈ targets (bk_terminator b) → at_point b (length (bk_insts b)) k s1 s2 → Forall (inside (st_pairs s2)) vs →
  length (bk_params b') = length vs →
  at_point b' 0 k (MkState (put (zip (bk_params b').*1 vs) (st_regs s1)) (st_pairs s1) (st_rest s1) (st_region s1))
    (MkState (put (zip (bk_params b').*1 vs) (st_regs s2)) (st_pairs s2) (st_rest s2) (st_region s2)).
Proof.
  intros Hj Hj' Ht [[Hp Ha He Hr [Hs Hf] Hregs] Hord Hsync] Hvs Hl.
  destruct (bind_params_put _ _ _ _ (bind_params_any (bk_params b') vs (st_regs s1) Hl)) as (_ & _ & Hfst & Hsnd).
  split.
  - split; cbn; try done; [split; [done |] | intros a Hne; by apply put_agree, Hregs].
    apply put_all; [done | by rewrite Hsnd].
  - cbn. rewrite put_dom, Hfst. by eapply (ordered_jump f avail v x y _ _ ct dt form made j b j' b').
  - cbn. intros Hin. unfold scope in Hin. rewrite take_0 in Hin. assert (v ∈ avail (bk_id b')) as Hv by set_solver.
    destruct (kept_jump f avail v x y _ _ ct dt form made j b j' b' _ Hj Hj' Ht Hord Hv) as (Hin' & Hx & Hy).
    destruct (Hsync Hin') as (p & w & w' & H1 & H2 & H3 & H4). exists p, w, w'.
    pose proof (v_not_param f avail v x y _ _ ct dt form made j' b' Hj') as Hvp.
    rewrite !put_other by (by rewrite Hfst). by split_and!.
Qed.

Lemma goes_both F j b t args k s1 s2 : fn_blocks f !! j = Some b → t ∈ targets (bk_terminator b) → v ∉ args →
  at_point b (length (bk_insts b)) k s1 s2 → dom k ## F →
  (∀ c1, goes f t args s1 c1 → ∃ c2, goes g t args s2 c2 ∧ paired F c1 c2) ∧
  (∀ c2, goes g t args s2 c2 → ∃ c1, goes f t args s1 c1 ∧ paired F c1 c2).
Proof.
  intros Hj Ht Hv Hpt HF. pose proof (ag_regs _ _ _ (pt_agrees _ _ _ _ _ Hpt)) as Hregs.
  destruct (ag_fine _ _ _ (pt_agrees _ _ _ _ _ Hpt)) as [_ Hf]. split.
  - intros c1 (j' & b' & vs & regs & Hi & Hb & Hvs & Hbind & ->). pose proof (block_index_id _ _ _ _ Hi Hb) as Hid.
    apply bind_params_put in Hbind as (Hl & -> & _ & _).
    eapply operands_agree in Hvs; [| intros a Ha; apply Hregs; by intros ->].
    eexists. split.
    + exists j', (map_block (elim_inst site j') b'), vs, (put (zip (bk_params b').*1 vs) (st_regs s2)).
      rewrite map_insts_index, map_insts_lookup, Hb. split_and!; try done. by apply bind_params_any.
    + cbn. split_and!; [done | done |]. exists b', k. split_and!; [done | done |].
      eapply (enter j b j' b'); try done; [by rewrite Hid | by eapply operands_inside].
  - intros c2 (j' & b2 & vs & regs & Hi & Hb2 & Hvs & Hbind & ->). rewrite map_insts_index in Hi.
    rewrite map_insts_lookup in Hb2. apply fmap_Some in Hb2 as (b' & Hb & ->). pose proof (block_index_id _ _ _ _ Hi Hb) as Hid.
    apply (bind_params_put (bk_params b')) in Hbind as (Hl & -> & _ & _).
    assert (mapM (λ a, st_regs s1 !! a) args = Some vs) as Hvs1.
    { eapply operands_agree; [| exact Hvs]. intros a Ha. symmetry. apply Hregs. by intros ->. }
    eexists. split.
    + exists j', b', vs, (put (zip (bk_params b').*1 vs) (st_regs s1)). split_and!; try done. by apply bind_params_any.
    + cbn. split_and!; [done | done |]. exists b', k. split_and!; [done | done |].
      eapply (enter j b j' b'); try done; [by rewrite Hid | by eapply operands_inside].
Qed.

Lemma term_both F j b k s1 s2 : fn_blocks f !! j = Some b → at_point b (length (bk_insts b)) k s1 s2 → dom k ## F →
  (∀ c1, term_step f (bk_terminator b) s1 c1 → ∃ c2, term_step g (bk_terminator b) s2 c2 ∧ paired F c1 c2) ∧
  (∀ c2, term_step g (bk_terminator b) s2 c2 → ∃ c1, term_step f (bk_terminator b) s1 c1 ∧ paired F c1 c2).
Proof.
  intros Hj Hpt HF. pose proof (proj2 reads j b Hj) as Hv. pose proof (pt_agrees _ _ _ _ _ Hpt) as Hag.
  pose proof (ag_regs _ _ _ Hag) as Hregs.
  assert (∀ t args, t ∈ targets (bk_terminator b) → (∀ a, a ∈ args → a ∈ term_values (bk_terminator b)) →
    (∀ c1, goes f t args s1 c1 → ∃ c2, goes g t args s2 c2 ∧ paired F c1 c2) ∧
    (∀ c2, goes g t args s2 c2 → ∃ c1, goes f t args s1 c1 ∧ paired F c1 c2)) as Hgoes.
  { intros t args Ht Ha. eapply goes_both; eauto. }
  destruct (bk_terminator b) as [a|t args|a t e args]; cbn [term_step targets term_values] in *.
  - rewrite Hregs by set_solver. split; intros c (w & Hw & ->); eexists; (split; [by exists w |]); cbn; eauto.
  - apply Hgoes; [apply list_elem_of_here | done].
  - rewrite Hregs by set_solver.
    split; intros c (w & Hw & Hg); (eapply Hgoes in Hg as (c' & Hg & Hp); [by exists c'; split; [exists w |] | | by right]);
      destruct (truthy w); set_solver.
Qed.

Lemma step_forward c1 c1' c2 : paired ∅ c1 c2 → step f c1 c1' → ∃ c2', step g c2 c2' ∧ paired ∅ c1' c2'.
Proof.
  destruct c1 as [j n s1| |]; [| done | done]. destruct c2 as [j' n' s2| |]; try done.
  intros (-> & -> & b & k & Hb & HF & Hpt) (b0 & Hb0 & Hs). rewrite Hb in Hb0. injection Hb0 as <-.
  assert (∀ c2', match elim_inst site j n <$> bk_insts b !! n with
            | Some i => ∃ o s', inst_step i s2 o s' ∧ c2' = match o with Some _ => Running j (S n) s' | None => Failed s' end
            | None => n = length (bk_insts b) ∧ term_step g (bk_terminator b) s2 c2' end → step g (Running j n s2) c2') as Hstep.
  { intros c2' Hc. exists (map_block (elim_inst site j) b). rewrite map_insts_lookup, Hb. split; [done |].
    by rewrite map_block_lookup, map_block_length. }
  destruct (bk_insts b !! n) as [i|] eqn:Hn.
  - destruct Hs as (o & s1' & Hs & ->).
    destruct (inst_forward j b n i k s1 s2 o s1' Hb Hn Hpt Hs) as (o' & s2' & k' & Hs2 & Hag & Ho).
    eexists. split; [apply Hstep; by exists o', s2' |].
    destruct o as [r|]; [destruct Ho as [[r' ->] Hpt'] | subst o'; by exists k'].
    cbn. split_and!; [done | done |]. exists b, k'. split_and!; [done | set_solver | done].
  - destruct Hs as [-> Hs]. destruct (term_both ∅ j b k s1 s2 Hb Hpt HF) as [Hfw _].
    destruct (Hfw c1' Hs) as (c2' & Hc2 & Hp). exists c2'. split; [by apply Hstep | done].
Qed.

Lemma step_backward F c1 c2 c2' : paired F c1 c2 → step g c2 c2' → dom (st_pairs (state_of c2')) ⊆ F →
  ∃ c1', step f c1 c1' ∧ paired F c1' c2'.
Proof.
  destruct c2 as [j' n' s2| |]; [| done | done]. destruct c1 as [j n s1| |]; try done.
  intros (-> & -> & b & k & Hb & HF & Hpt) (b2 & Hb2 & Hs) Hsub. rewrite map_insts_lookup, Hb in Hb2. injection Hb2 as <-.
  rewrite map_block_lookup, map_block_length in Hs. change (bk_terminator (map_block (elim_inst site j) b)) with (bk_terminator b) in Hs.
  destruct (bk_insts b !! n) as [i|] eqn:Hn; cbn [fmap option_fmap option_map] in Hs.
  - destruct Hs as (o' & s2' & Hs & ->).
    destruct (inst_backward F j b n i k s1 s2 o' s2' Hb Hn Hpt HF Hs) as (o & s1' & k' & Hs1 & HF' & Hag & Ho).
    { by destruct o'. }
    eexists. split; [exists b; split; [done |]; rewrite Hn; by exists o, s1' |].
    destruct o' as [r|]; [destruct Ho as [[r' ->] Hpt'] | subst o; by exists k'].
    cbn. split_and!; [done | done |]. by exists b, k'.
  - destruct Hs as [-> Hs]. destruct (term_both F j b k s1 s2 Hb Hpt HF) as [_ Hbw].
    destruct (Hbw c2' Hs) as (c1' & Hc1 & Hp). exists c1'. split; [| done]. exists b. split; [done |]. by rewrite Hn.
Qed.

Lemma run_backward c1 c2 c2' : rtc (step g) c2 c2' → fine (state_of c2) →
  paired (dom (st_pairs (state_of c2'))) c1 c2 →
  ∃ c1', rtc (step f) c1 c1' ∧ paired (dom (st_pairs (state_of c2'))) c1' c2'.
Proof.
  intros Hr. revert c1. induction Hr as [c2|c2 c3 c2' Hs Hr IH]; intros c1 Hf Hp; [by exists c1 |].
  destruct (step_fine _ _ _ Hs Hf) as (Hf3 & _ & _). destruct (run_fine _ _ _ Hr Hf3) as [_ Hd].
  destruct (step_backward _ _ _ _ Hp Hs Hd) as (c1'' & Hs1 & Hp1). destruct (IH c1'' Hf3 Hp1) as (c1' & Hr1 & Hp').
  exists c1'. split; [by eapply rtc_l | done].
Qed.

Lemma paired_result F c1 c2 : paired F c1 c2 → ended c1 ∨ ended c2 → ended c1 ∧ ended c2 ∧ same_result c1 c2.
Proof.
  assert (∀ k s1 s2, agrees k s1 s2 → same_state s1 s2) as Hsame.
  { intros k s1 s2 [Hp Ha He _ _ _]. split; [done |]. by exists k. }
  destruct c1, c2; try done; cbn; [by intros _ [] | intros (-> & k & Ha) _ | intros (k & Ha) _]; split_and!; eauto.
Qed.

Lemma starts_both F args h e c : safe h e → Forall (inside h) args → starts f args h e c →
  (∃ b, match c with Running j _ _ => fn_blocks f !! j = Some b | _ => False end) → starts g args h e c ∧ paired F c c.
Proof.
  intros Hs Ha Hst [b Hb]. pose proof (starts_fine f args h e c Hst Hs Ha) as Hf. destruct Hst as (j & regs & Hj & Hbind & ->).
  split; [exists j, regs; by rewrite map_insts_index |]. cbn. split_and!; [done | done |]. exists b, ∅.
  split_and!; [done | set_solver |]. pose proof (block_index_id _ _ _ _ Hj Hb) as Hid.
  apply bind_params_put in Hbind as (_ & -> & Hfst & _). split.
  - split; cbn; try done; [by rewrite map_union_empty | apply map_disjoint_empty_l].
  - cbn. rewrite put_dom, Hfst, dom_empty_L, union_empty_l_L. by eapply (ordered_start f avail v x y _ _ ct dt form made).
  - intros [Hv|(m & i & Hm & _)]%elem_of_scope; [| lia]. rewrite Hid in Hv.
    apply (ssa_entry _ _ form), elem_of_list_to_set in Hv. by destruct (v_not_fn_param f avail v x y _ _ ct dt form made).
Qed.

(** One elimination leaves the results as they are. *)
Lemma elim_preserves : preserves f g.
Proof.
  intros args h e Hs Ha. split.
  - intros c (c0 & Hst & Hr & He).
    destruct (starts_both ∅ args h e c0 Hs Ha Hst) as [Hst' Hp0].
    { destruct Hst as (j & regs & _ & _ & ->). inversion Hr as [|? c1 ? Hs1]; subst; [done |].
      destruct Hs1 as (b & Hb & _). by exists b. }
    destruct (rtc_simulation (step f) (step g) (paired ∅) c0 c0 (λ a b a' HI Hs, step_forward a a' b HI Hs) Hp0 c Hr)
      as (c' & Hr' & Hp).
    apply paired_result in Hp as (_ & He' & Hsame); [| by left]. exists c'. split; [| done]. by exists c0.
  - intros c' (c0 & Hst & Hr & He).
    assert (starts f args h e c0) as Hstf.
    { destruct Hst as (j & regs & Hj & Hb & ->). exists j, regs. by rewrite map_insts_index in Hj. }
    destruct (starts_both (dom (st_pairs (state_of c'))) args h e c0 Hs Ha Hstf) as [_ Hp0].
    { destruct Hst as (j & regs & _ & _ & ->). inversion Hr as [|? c1 ? Hs1]; subst; [done |].
      destruct Hs1 as (b & Hb & _). rewrite map_insts_lookup in Hb. apply fmap_Some in Hb as (b' & Hb & _). by exists b'. }
    destruct (run_backward c0 c0 c' Hr (starts_fine g args h e c0 Hst Hs Ha) Hp0) as (c & Hrf & Hp).
    apply paired_result in Hp as (He' & _ & Hsame); [| by right]. exists c. split; [| done]. by exists c0.
Qed.

End simulation.

(** ** The form is kept *)

(** The operands of the pair are available where it is. *)
Definition with_operands (site : ConsSite) (avail : BlockId → gset Value) (id : BlockId) : gset Value :=
  if decide (cs_dst site ∈ avail id) then avail id ∪ {[cs_car site; cs_cdr site]} else avail id.

Section form.
Context (f : Function) (avail : BlockId → gset Value) (site : ConsSite) (ct dt : N).

Notation v := (cs_dst site).
Notation x := (cs_car site).
Notation y := (cs_cdr site).

Hypothesis form : ssa f avail.
Hypothesis made : inst_at f (cs_bi site) (cs_ii site) = Some (Inst.Cons v x ct y dt).
Hypothesis reads : only_read f (cs_bi site) (cs_ii site) v.

Lemma with_operands_sub id : avail id ⊆ with_operands site avail id.
Proof. unfold with_operands. destruct (decide _); set_solver. Qed.

Lemma scope_sub b m n : m ≤ n → scope avail b m ⊆ scope (with_operands site avail) b n.
Proof.
  intros Hmn a. rewrite !elem_of_scope. intros [Ha|(l & i & Hl & Hi & Hd)]; [left; by apply with_operands_sub |].
  right. exists l, i. split_and!; [lia | done | done].
Qed.

Lemma operands_scope j b n a : fn_blocks f !! j = Some b → v ∈ scope avail b n → a = x ∨ a = y →
  a ∈ scope (with_operands site avail) b n.
Proof.
  intros Hj [Hv|(m & i & Hm & Hi & Hd)]%elem_of_scope Ha.
  - apply elem_of_scope. left. unfold with_operands. rewrite decide_True by done. set_solver.
  - apply (scope_sub b m n); [lia |]. apply (v_inst f avail v x y _ _ ct dt form made j b m i Hj Hi) in Hd as [_ ->].
    eapply (ssa_uses _ _ form); [by eapply list_elem_of_lookup_2 | done |]. cbn. destruct Ha as [-> | ->]; set_solver.
Qed.

Lemma read_use_srcs i a : a ∈ srcs (read_use site i) → a ∈ srcs i ∨ (v ∈ srcs i ∧ (a = x ∨ a = y)).
Proof.
  destruct i; cbn [read_use]; try (by left); (case_decide; [subst | by left]); cbn; set_solver.
Qed.

Lemma elim_ssa : ssa (map_insts (elim_inst site) f) (with_operands site avail).
Proof.
  apply (ssa_map f avail); [done | | apply with_operands_sub | | |].
  - intros j n i Hi. eapply elim_inst_dst; [by exists ct, dt | done].
  - unfold with_operands. rewrite decide_False; [by apply form |].
    intros Hv%(ssa_entry _ _ form)%elem_of_list_to_set. by apply (v_not_fn_param f avail v x y _ _ ct dt form made).
  - intros j b j' b' Hj Hj' Ht a Ha. unfold with_operands in Ha. destruct (decide _) as [Hv|Hv].
    + apply elem_of_union in Ha as [Ha|Ha].
      * apply (ssa_edges _ _ form b b' (list_elem_of_lookup_2 _ _ _ Hj) (list_elem_of_lookup_2 _ _ _ Hj') Ht) in Ha.
        pose proof (scope_sub b (length (bk_insts b)) (length (bk_insts b)) (le_n _)). set_solver.
      * apply elem_of_union_l. eapply operands_scope; [done | | set_solver].
        by eapply (scope_jump f avail v x y _ _ ct dt form made j b j' b').
    + apply (ssa_edges _ _ form b b' (list_elem_of_lookup_2 _ _ _ Hj) (list_elem_of_lookup_2 _ _ _ Hj') Ht) in Ha.
      pose proof (scope_sub b (length (bk_insts b)) (length (bk_insts b)) (le_n _)). set_solver.
  - intros j b n i a Hj Hn Ha. assert (∀ a, a ∈ srcs i → a ∈ scope avail b n) as Hsrcs.
    { intros a' Ha'. eapply (ssa_uses _ _ form); [by eapply list_elem_of_lookup_2 | done | done]. }
    unfold elim_inst in Ha. destruct (decide _) as [[= -> ->]|Hne].
    + apply (scope_sub b (cs_ii site)); [done |]. apply Hsrcs. apply inst_at_block in made as (b' & Hb' & Hi'). simplify_eq.
      cbn in *. set_solver.
    + apply read_use_srcs in Ha as [Ha|[Hv Ha]]; [apply (scope_sub b n); auto |]. eapply operands_scope; eauto.
Qed.

End form.

(** ** All sites *)

Definition sites (f : Function) : list ConsSite := omap scalar_site (enumerated f).

Definition place (s : ConsSite) : nat * nat := (cs_bi s, cs_ii s).

Lemma enumerated_elem f j n i : (j, n, i) ∈ enumerated f ↔ inst_at f j n = Some i.
Proof.
  unfold enumerated. rewrite list_elem_of_join, inst_at_block. split.
  - intros (l & Hin & (j' & b & -> & Hb)%elem_of_lookup_imap). apply elem_of_lookup_imap in Hin as (n' & i' & [= -> -> ->] & Hi).
    by exists b.
  - intros (b & Hb & Hi). eexists. split; [| apply elem_of_lookup_imap; by exists j, b].
    apply elem_of_lookup_imap. by exists n, i.
Qed.

Lemma places_once (h : nat → nat) (bs : list Block) : (∀ a b, h a = h b → a = b) →
  NoDup (mjoin (imap (λ bi b, imap (λ ii i, (h bi, ii, i)) (bk_insts b)) bs)).*1.
Proof.
  revert h. induction bs as [|b bs IH]; intros h Hh; [constructor |]. cbn. rewrite fmap_app. apply NoDup_app. split_and!.
  - apply NoDup_alt. intros m m' [j n]. rewrite !list_lookup_fmap, !list_lookup_imap.
    destruct (bk_insts b !! m), (bk_insts b !! m'); cbn; naive_solver.
  - intros [j n] ([[? ?] ?] & [= <- <-] & (? & ? & [= -> -> ->] & _)%elem_of_lookup_imap)%list_elem_of_fmap.
    intros ([[? ?] ?] & [= <- <-] & (l & Hin & (? & ? & -> & _)%elem_of_lookup_imap)%list_elem_of_join)%list_elem_of_fmap.
    apply elem_of_lookup_imap in Hin as (? & ? & [= Heq%Hh ? ?] & _). done.
  - apply (IH (h ∘ S)). intros a b' Hab%Hh. lia.
Qed.

Lemma sites_elem f s : s ∈ sites f ↔ is_site f s.
Proof.
  unfold sites, is_site. rewrite list_elem_of_omap. split.
  - intros ([[j n] i] & Hin%enumerated_elem & Hs). destruct i; try done. injection Hs as <-. cbn. eauto.
  - intros (ct & dt & Hi). exists (cs_bi s, cs_ii s, Inst.Cons (cs_dst s) (cs_car s) ct (cs_cdr s) dt).
    split; [by apply enumerated_elem | by destruct s].
Qed.

Lemma sites_once f : NoDup (place <$> sites f).
Proof.
  pose proof (places_once (λ j, j) (fn_blocks f) (λ _ _ H, H)) as Hn. unfold sites.
  change (mjoin _) with (enumerated f) in Hn. induction (enumerated f) as [|[[j n] i] l IH]; [constructor |].
  cbn in Hn. apply NoDup_cons in Hn as [Hj Hn]. specialize (IH Hn). cbn.
  destruct i; try done. cbn. apply NoDup_cons. split; [| done]. intros (s & Hp & Hs)%list_elem_of_fmap. apply Hj.
  apply list_elem_of_omap in Hs as ([[j' n'] i'] & Hin & Hs). apply list_elem_of_fmap. exists (j', n', i'). split; [| done].
  destruct i'; try done. injection Hs as <-. done.
Qed.

Lemma enumerated_map rw f : enumerated (map_insts rw f) = (λ z, (z.1.1, z.1.2, rw z.1.1 z.1.2 z.2)) <$> enumerated f.
Proof.
  unfold enumerated. rewrite map_insts_blocks.
  change (λ j, map_block (rw j)) with (λ j, map_block (rw ((λ a, a) j))).
  assert (∀ (h : nat → nat) bs,
    mjoin (imap (λ bi b, imap (λ ii i, (h bi, ii, i)) (bk_insts b)) (imap (λ j, map_block (rw (h j))) bs)) =
    (λ z, (z.1.1, z.1.2, rw z.1.1 z.1.2 z.2)) <$> mjoin (imap (λ bi b, imap (λ ii i, (h bi, ii, i)) (bk_insts b)) bs)) as Hh; [| apply (Hh (λ a, a))].
  intros h bs. revert h. induction bs as [|b bs IH]; intros h; [done |]. cbn. rewrite fmap_app. f_equal.
  - apply list_eq. intros n. rewrite list_lookup_fmap, !list_lookup_imap, map_block_lookup. by destruct (bk_insts b !! n).
  - apply (IH (h ∘ S)).
Qed.

(** One elimination takes away its own site and no other. *)
Lemma sites_elim f site : sites (map_insts (elim_inst site) f) = filter (λ s, place s ≠ place site) (sites f).
Proof.
  unfold sites. rewrite enumerated_map. induction (enumerated f) as [|[[j n] i] l IH]; [done |]. cbn.
  unfold elim_inst at 1. destruct (decide _) as [Heq|Hne]; cbn.
  - rewrite IH. destruct i; try done. cbn. rewrite decide_False; [done |]. intros Hn. by apply Hn.
  - destruct i; cbn [read_use]; try (case_decide; exact IH); try exact IH. cbn. rewrite decide_True by done. by rewrite IH.
Qed.

Lemma filter_others {A B} `{EqDecision B} (p : A → B) (l : list A) a : NoDup (p <$> l) → a ∈ l →
  length l = S (length (filter (λ z, p z ≠ p a) l)).
Proof.
  induction l as [|z l IH]; [by intros _ ?%elem_of_nil |]. cbn [fmap list_fmap]. intros [Hz Hn]%NoDup_cons Ha.
  destruct (decide (p z = p a)) as [Heq|Hne].
  - rewrite filter_cons_False by auto. cbn. f_equal. clear IH Ha.
    assert (∀ z', z' ∈ l → p z' ≠ p a) as Hall.
    { intros z' Hz' Hp. apply Hz. rewrite Heq, <-Hp. by apply list_elem_of_fmap_2. }
    clear Hz Hn Heq. induction l as [|z' l IH]; [done |]. rewrite filter_cons_True by (apply Hall, list_elem_of_here).
    cbn. f_equal. apply IH. intros z'' Hz''. apply Hall. by right.
  - rewrite filter_cons_True by done. cbn. f_equal. apply IH; [done |]. apply elem_of_cons in Ha as [->|?]; done.
Qed.

Lemma fully_covered_map rw f : fully_covered f = true →
  (∀ j n i, inst_at f j n = Some i → value_walker_covers i = true → value_walker_covers (rw j n i) = true) →
  fully_covered (map_insts rw f) = true.
Proof.
  unfold fully_covered. rewrite !forallb_forall. intros Hc Hrw b' (j & b & Hj & ->)%list_elem_of_In%map_insts_elem.
  assert (In b (fn_blocks f)) as Hin by (by apply list_elem_of_In; eapply list_elem_of_lookup_2).
  apply Hc, andb_prop in Hin as [Hi Ht]. apply andb_true_intro. split; [| done].
  rewrite forallb_forall in *. intros i' (n & Hn)%list_elem_of_In%list_elem_of_lookup.
  rewrite map_block_lookup in Hn. apply fmap_Some in Hn as (i & Hn & ->).
  apply (Hrw j); [unfold inst_at; by rewrite Hj |]. apply Hi, list_elem_of_In. by eapply list_elem_of_lookup_2.
Qed.

Section all_sites.
Context {X E : Type} `{HL : RuntimeLaws X E}.

Lemma eliminate_all_spec l f avail : ssa f avail → fully_covered f = true → NoDup (place <$> l) → (∀ s, s ∈ l → is_site f s) →
  ∃ g n, eliminate_all f l = Some (g, n) ∧ preserves (X := X) (E := E) f g ∧ (∃ avail', ssa g avail') ∧
    length (sites f) = length (sites g) + n ∧
    (n = 0 → g = f ∧ ∀ s, s ∈ l → ¬ only_read f (cs_bi s) (cs_ii s) (cs_dst s)).
Proof.
  revert f avail. induction l as [|s l IH]; intros f avail Hssa Hc Hn Hl; cbn [eliminate_all].
  { exists f, 0. split_and!; [done | apply preserves_refl | by exists avail | lia |]. intros _. split; [done |]. by intros s ?%elem_of_nil. }
  cbn in Hn. apply NoDup_cons in Hn as [Hs Hn]. pose proof (Hl s (list_elem_of_here _ _)) as Hsite.
  destruct (eliminate_spec f s Hc Hsite) as (f1 & [] & He & Hspec); rewrite He; cbn [mbind option_bind].
  - destruct Hspec as [Hread ->]. pose proof Hsite as (ct & dt & Hmade).
    destruct (IH (map_insts (elim_inst s) f) (with_operands s avail)) as (g & n & Hg & Hp & Hssa' & Hcount & _).
    + by eapply elim_ssa.
    + apply fully_covered_map; [done |]. intros j n i _ Hi. unfold elim_inst. destruct (decide _); [done |].
      by destruct i; cbn; try case_decide.
    + done.
    + intros s' Hs'. apply sites_elem. rewrite sites_elim. apply list_elem_of_filter. split.
      * intros Heq. apply Hs. rewrite <-Heq. by apply list_elem_of_fmap_2.
      * apply sites_elem, Hl. by right.
    + exists g, (S n). rewrite Hg. split_and!; [done | | done | | done].
      * eapply preserves_trans; [by eapply elim_preserves | done].
      * rewrite (filter_others place (sites f) s (sites_once f)) by by apply sites_elem.
        rewrite <-sites_elim. lia.
  - destruct Hspec as [Hnread ->]. destruct (IH f avail Hssa Hc Hn) as (g & n & Hg & Hp & Hssa' & Hcount & Hzero); [intros s' ?; apply Hl; by right |].
    exists g, n. rewrite Hg. split_and!; [done | done | done | done |]. intros H0. destruct (Hzero H0) as [Heq Hnone].
    split; [done |]. intros s' [->|Hs']%elem_of_cons; [done | by apply Hnone].
Qed.

Lemma scalar_replace_cons_spec f avail : ssa f avail →
  ∃ g n, scalar_replace_cons f = Some (g, n) ∧ preserves (X := X) (E := E) f g ∧ (∃ avail', ssa g avail') ∧
    length (sites f) = length (sites g) + n ∧
    if fully_covered f then n = 0 → g = f ∧ ∀ s, is_site f s → ¬ only_read f (cs_bi s) (cs_ii s) (cs_dst s)
    else g = f ∧ n = 0.
Proof.
  intros Hssa. unfold scalar_replace_cons. destruct (fully_covered f) eqn:Hc.
  - destruct (eliminate_all_spec (sites f) f avail Hssa Hc (sites_once f)) as (g & n & Hg & Hp & Hs & Hl & Hz);
      [intros s ?; by apply sites_elem |].
    exists g, n. split_and!; try done. intros H0. destruct (Hz H0) as [-> Hnone].
    split; [done |]. intros s Hs'%sites_elem. by apply Hnone.
  - exists f, 0. split_and!; [done | apply preserves_refl | by exists avail | lia | done | done].
Qed.

(** C30: scalar replacement preserves what a function in single-assignment form
    computes, and its form: every run of the original has one of the result
    that ends with the same value and the same memory, but for pairs that
    nothing refers to and that the result did not make, and the other way
    round.  It never panics and it counts the pairs it has eliminated.  When
    the walker covers the whole function it leaves the function alone only if
    every pair is used for more than to be read; otherwise it leaves it alone
    whatever its pairs are used for. *)
Theorem scalar_replace_cons_correct f avail : ssa f avail →
  ∃ g n, scalar_replace_cons f = Some (g, n) ∧ preserves (X := X) (E := E) f g ∧ (∃ avail', ssa g avail') ∧
    length (sites f) = length (sites g) + n ∧
    if fully_covered f then n = 0 → g = f ∧ ∀ s, is_site f s → ¬ only_read f (cs_bi s) (cs_ii s) (cs_dst s)
    else g = f ∧ n = 0.
Proof. apply scalar_replace_cons_spec. Qed.

End all_sites.
