(* ===== verification/OptRegion.v ===== *)
(** * Pairs in regions

    The promotion of pairs that do not escape changes nothing but where they
    are allocated, and at the end of a run nothing that is left refers to a
    pair of the region, so the region can be reset. *)

From stdpp Require Import base numbers gmap list relations fin_sets.
From Stdlib Require Import ZArith Strings.Byte.
From S2P Require Import Prelude RaftTypes Float64 Text Rir RirValues RirSem RirFacts Opt OptFacts Ssa OptScan RirRuns OptCons.

Local Open Scope crab_scope.
Local Open Scope nat_scope.

(** ** What promotion does *)

Definition in_a_region (i : Inst.t) : Inst.t :=
  match i with Inst.Cons d a ct b dt => Inst.ConsRegion d a ct b dt | _ => i end.

Definition promote_inst (l : list (nat * nat)) (j n : nat) (i : Inst.t) : Inst.t :=
  if decide ((j, n) ∈ l) then in_a_region i else i.

Lemma promote_at_map f j n : promote_at f (j, n) = map_insts (promote_inst [(j, n)]) f.
Proof.
  assert (∀ i, inst_at f j n = Some i → in_a_region i = i → f = map_insts (promote_inst [(j, n)]) f) as Hsame.
  { intros i Hi Heq. rewrite <-(map_insts_id f) at 1. apply map_insts_ext. intros j' n' i' Hi'. unfold promote_inst.
    destruct (decide _) as [[= -> ->]%list_elem_of_singleton|]; [| done]. congruence. }
  unfold promote_at. cbn [fst snd]. destruct (inst_at f j n) as [i|] eqn:Hi.
  - destruct i; try (by eapply Hsame). rewrite set_inst_map. apply map_insts_ext. intros j' n' i' Hi'.
    unfold promote_inst, at_place. destruct (decide ((j', n') = (j, n))) as [[= -> ->]|Hne].
    + rewrite decide_True by apply list_elem_of_here. simplify_eq. done.
    + rewrite decide_False by (by rewrite list_elem_of_singleton). done.
  - rewrite <-(map_insts_id f) at 1. apply map_insts_ext. intros j' n' i' Hi'. unfold promote_inst.
    destruct (decide _) as [[= -> ->]%list_elem_of_singleton|]; [congruence | done].
Qed.

Lemma promote_all_map l f : foldl promote_at f l = map_insts (promote_inst l) f.
Proof.
  revert f. induction l as [|[j n] l IH]; intros f; cbn [foldl].
  - rewrite <-(map_insts_id f) at 1. apply map_insts_ext. intros j n i _. unfold promote_inst.
    by rewrite decide_False by by intros ?%elem_of_nil.
  - rewrite IH, promote_at_map, map_insts_compose. apply map_insts_ext. intros j' n' i _. unfold promote_inst.
    destruct (decide ((j', n') ∈ [(j, n)])) as [Heq%list_elem_of_singleton|Hne%not_elem_of_cons].
    + rewrite (decide_True (P := (j', n') ∈ (j, n) :: l)) by (rewrite Heq; apply list_elem_of_here).
      destruct (decide _); [by destruct i | done].
    + apply decide_ext. rewrite elem_of_cons. naive_solver.
Qed.

Lemma promotable_spec f l : fully_covered f = true →
  ∃ ps, promotable f l = Some ps ∧ ps `sublist_of` l.*1 ∧
    ∀ j n, (j, n) ∈ ps ↔ ∃ v, (j, n, v) ∈ l ∧ only_read f j n v.
Proof.
  intros Hc. induction l as [|[[j n] v] l (ps & Hps & Hsub & Hin)]; cbn [promotable].
  { exists []. split_and!; [done | done |]. intros j n. rewrite elem_of_nil. setoid_rewrite elem_of_nil. naive_solver. }
  destruct (cons_escapes_spec f j n v Hc) as (e & He & Hiff). rewrite He, Hps. cbn.
  eexists. split; [done |]. split; [destruct e; by constructor |].
  intros j' n'. setoid_rewrite elem_of_cons. destruct e.
  - rewrite Hin. split; [naive_solver |]. intros (v' & [[= -> -> ->]|Hv] & Ho); [by apply Hiff in Ho | by exists v'].
  - rewrite elem_of_cons, Hin. pose proof (proj1 Hiff eq_refl) as Ho. split.
    + intros [[= -> ->]|(v' & ? & ?)]; [exists v; auto | exists v'; auto].
    + intros (v' & [[= -> -> ->]|Hv] & Ho'); [by left | right; by exists v'].
Qed.

Lemma cons_places f : (omap cons_site (enumerated f)).*1 = place <$> sites f.
Proof. unfold sites. induction (enumerated f) as [|[[j n] []] l IH]; cbn; try done. by rewrite IH. Qed.

Lemma cons_sites f j n v : (j, n, v) ∈ omap cons_site (enumerated f) ↔
  ∃ a ct b dt, inst_at f j n = Some (Inst.Cons v a ct b dt).
Proof.
  rewrite list_elem_of_omap. split.
  - intros ([[j' n'] i] & Hin%enumerated_elem & Hs). destruct i; try done. injection Hs as <- <- <-. eauto.
  - intros (a & ct & b & dt & Hi). exists (j, n, Inst.Cons v a ct b dt). split; [by apply enumerated_elem | done].
Qed.

(** In a function that the walker covers, the pairs that are only read, and
    no others, are promoted; any other function is left alone. *)
Definition to_promote (f : Function) (j n : nat) : Prop :=
  fully_covered f = true ∧ ∃ d a ct b dt, inst_at f j n = Some (Inst.Cons d a ct b dt) ∧ only_read f j n d.

Lemma promote_spec f : ∃ ps, promote_non_escaping_cons f = Some (map_insts (promote_inst ps) f, length ps) ∧
  NoDup ps ∧ ∀ j n, (j, n) ∈ ps ↔ to_promote f j n.
Proof.
  unfold promote_non_escaping_cons, to_promote. destruct (fully_covered f) eqn:Hc.
  - destruct (promotable_spec f (omap cons_site (enumerated f)) Hc) as (ps & Hps & Hsub & Hin). exists ps. rewrite Hps. cbn.
    rewrite promote_all_map. setoid_rewrite cons_sites in Hin. split_and!; [done | |].
    + eapply sublist_NoDup; [| exact Hsub]. rewrite cons_places. apply sites_once.
    + intros j n. rewrite Hin. naive_solver.
  - exists []. split_and!; [| constructor | intros j n; rewrite elem_of_nil; naive_solver].
    do 2 f_equal. rewrite <-(map_insts_id f) at 1.
    apply map_insts_ext. intros j n i _. unfold promote_inst. by rewrite decide_False by by intros ?%elem_of_nil.
Qed.

(** ** The same runs *)

(** The same instruction, but for the place of a pair. *)
Definition alike (i i' : Inst.t) : Prop := in_a_region i = in_a_region i'.

Lemma alike_cases i i' : alike i i' →
  i = i' ∨ ∃ d a ct b dt, (i = Inst.Cons d a ct b dt ∧ i' = Inst.ConsRegion d a ct b dt) ∨
                          (i = Inst.ConsRegion d a ct b dt ∧ i' = Inst.Cons d a ct b dt).
Proof.
  unfold alike. intros Heq.
  assert (∀ i, (in_a_region i = i) ∨ ∃ d a ct b dt, i = Inst.Cons d a ct b dt) as Hc.
  { intros []; auto. right. eauto 8. }
  destruct (Hc i) as [Hi|(d & a & ct & b & dt & Hi)], (Hc i') as [Hi'|(d' & a' & ct' & b' & dt' & Hi')].
  - left. congruence.
  - right. subst i'. cbn in Heq. rewrite Hi in Heq. eauto 10.
  - right. subst i. cbn in Heq. rewrite Hi' in Heq. eauto 10.
  - subst. cbn in Heq. left. by injection Heq as -> -> -> -> ->.
Qed.

Record alike_function (f g : Function) : Prop := {
  al_entry : fn_entry g = fn_entry f;
  al_params : fn_params g = fn_params f;
  al_ids : bk_id <$> fn_blocks f = bk_id <$> fn_blocks g;
  al_blocks : ∀ j b, fn_blocks f !! j = Some b → ∃ b', fn_blocks g !! j = Some b' ∧
    bk_params b' = bk_params b ∧ bk_terminator b' = bk_terminator b ∧ Forall2 alike (bk_insts b) (bk_insts b') }.

Lemma promoted_alike ps f : alike_function f (map_insts (promote_inst ps) f) ∧ alike_function (map_insts (promote_inst ps) f) f.
Proof.
  assert (∀ j n i, alike i (promote_inst ps j n i)) as Hal.
  { intros j n i. unfold promote_inst, alike. destruct (decide _); [| done]. by destruct i. }
  assert (∀ j b, Forall2 alike (bk_insts b) (bk_insts (map_block (promote_inst ps j) b))) as HF.
  { intros j b. apply Forall2_same_length_lookup. split; [symmetry; apply map_block_length |].
    intros n i i' Hi. rewrite map_block_lookup, Hi. by intros [= <-]. }
  split; split; try done; try (by rewrite map_insts_ids).
  - intros j b Hb. exists (map_block (promote_inst ps j) b). rewrite map_insts_lookup, Hb. by split_and!.
  - intros j b' Hb'. rewrite map_insts_lookup in Hb'. apply fmap_Some in Hb' as (b & Hb & ->). exists b. split_and!; try done.
    apply Forall2_flip. eapply Forall2_impl; [apply HF |]. by intros i i' ->.
Qed.

Section same_runs.
Context {X E : Type} `{HL : RuntimeLaws X E}.

Notation val := (val X).
Notation state := (@state X E).
Notation config := (@config X E).

(** The same state, but for which pairs are in the region. *)
Definition eq_region (s1 s2 : state) : Prop :=
  st_regs s1 = st_regs s2 ∧ st_pairs s1 = st_pairs s2 ∧ st_rest s1 = st_rest s2.

Lemma alike_step i i' s1 s2 o s1' : alike i i' → eq_region s1 s2 → inst_step i s1 o s1' →
  ∃ s2', inst_step i' s2 o s2' ∧ eq_region s1' s2'.
Proof.
  intros Hal (Hregs & Hp & He) (args & Hargs & Hacts & Hr & Hregs').
  exists (MkState (st_regs s1') (st_pairs s1') (st_rest s1') (in_region i' o (st_region s2))).
  split; [| done]. rewrite Hregs in Hargs, Hregs'. rewrite Hp, He in Hacts.
  apply alike_cases in Hal as [<-|(d & a & ct & b & dt & [[-> ->]|[-> ->]])]; [by exists args | |];
    (exists args; split_and!; try done);
    cbn in Hargs; destruct (st_regs s2 !! a); cbn in Hargs; try done; destruct (st_regs s2 !! b); cbn in Hargs; try done;
    injection Hargs as <-; done.
Qed.

Definition eq_config (c1 c2 : config) : Prop :=
  match c1, c2 with
  | Running j n s1, Running j' n' s2 => j = j' ∧ n = n' ∧ eq_region s1 s2
  | Returned w s1, Returned w' s2 => w = w' ∧ eq_region s1 s2
  | Failed s1, Failed s2 => eq_region s1 s2
  | _, _ => False
  end.

Lemma alike_goes f g t args s1 s2 c1 : alike_function f g → eq_region s1 s2 → goes f t args s1 c1 →
  ∃ c2, goes g t args s2 c2 ∧ eq_config c1 c2.
Proof.
  intros [_ _ Hids Hbs] (Hregs & Hp & He) (j & b & vs & regs & Hj & Hb & Hvs & Hbind & ->).
  destruct (Hbs j b Hb) as (b' & Hb' & Hpar & _ & _). rewrite Hregs in *.
  eexists. split; [exists j, b', vs, regs; rewrite <-(block_index_ids f g) by done; by rewrite Hpar |].
  by cbn.
Qed.

Lemma alike_run_step f g c1 c2 c1' : alike_function f g → eq_config c1 c2 → step f c1 c1' →
  ∃ c2', step g c2 c2' ∧ eq_config c1' c2'.
Proof.
  intros Hal. destruct c1 as [j n s1| |]; [| done | done]. destruct c2 as [j' n' s2| |]; try done.
  intros (<- & <- & Heq) (b & Hb & Hs). destruct (al_blocks _ _ Hal j b Hb) as (b' & Hb' & _ & Ht & HF).
  assert (∀ c2', match bk_insts b' !! n with
            | Some i => ∃ o s', inst_step i s2 o s' ∧ c2' = match o with Some _ => Running j (S n) s' | None => Failed s' end
            | None => n = length (bk_insts b') ∧ term_step g (bk_terminator b') s2 c2' end → step g (Running j n s2) c2') as Hstep.
  { intros c2' Hc. by exists b'. }
  destruct (bk_insts b !! n) as [i|] eqn:Hn.
  - destruct Hs as (o & s1' & Hs & ->). destruct (Forall2_lookup_l _ _ _ _ _ HF Hn) as (i' & Hi' & Hai).
    destruct (alike_step i i' s1 s2 o s1' Hai Heq Hs) as (s2' & Hs2 & Heq').
    eexists. split; [apply Hstep; rewrite Hi'; by exists o, s2' |]. by destruct o.
  - destruct Hs as [Hlen Hs]. pose proof (Forall2_length _ _ _ HF) as Hlen'.
    assert (bk_insts b' !! n = None) as Hn' by (apply lookup_ge_None; lia). rewrite Hn', Ht in Hstep.
    cut (∃ c2', term_step g (bk_terminator b) s2 c2' ∧ eq_config c1' c2').
    { intros (c2' & Hc & Hec). exists c2'. split; [| done]. apply Hstep. split; [lia | done]. }
    destruct Heq as (Hregs & Hp & He). destruct (bk_terminator b) as [a|t args|a t e args]; cbn [term_step] in *.
    + destruct Hs as (w & Hw & ->). exists (Returned w s2). split; [exists w; by rewrite <-Hregs | by cbn].
    + by eapply alike_goes.
    + destruct Hs as (w & Hw & Hs). eapply alike_goes in Hs as (c2' & Hc & Hec); [| done | by split_and!].
      exists c2'. split; [| done]. exists w. by rewrite <-Hregs.
Qed.

Lemma alike_runs f g args h e c : alike_function f g → runs f args h e c →
  ∃ c', runs g args h e c' ∧ eq_config c c'.
Proof.
  intros Hal (c0 & (j & regs & Hj & Hbind & ->) & Hr & He).
  assert (eq_config (Running j 0 (MkState regs h e ∅)) (Running j 0 (MkState regs h e ∅))) as H0 by done.
  destruct (rtc_simulation (step f) (step g) eq_config _ _ (λ a b a' HI Hs, alike_run_step f g a b a' Hal HI Hs) H0 c Hr) as (c' & Hr' & Hc).
  exists c'. split; [| done]. eexists. split; [| split; [exact Hr' | by destruct c, c']].
  exists j, regs. rewrite (al_entry _ _ Hal), (al_params _ _ Hal), <-(block_index_ids f g) by apply Hal. done.
Qed.

Lemma eq_config_result c c' : ended c → eq_config c c' → same_result c c' ∧ same_result c' c.
Proof.
  assert (∀ s1 s2 : state, eq_region s1 s2 → same_state s1 s2 ∧ same_state s2 s1) as Hs.
  { intros [r1 h1 e1 g1] [r2 h2 e2 g2] (? & ? & ?). cbn in *. subst.
    split; (split; [done |]); exists ∅; (split; [apply map_disjoint_empty_l | cbn; by rewrite map_union_empty]). }
  destruct c, c'; try done; cbn; intros _; [intros [-> Heq] | intros Heq]; destruct (Hs _ _ Heq); auto.
Qed.

Lemma alike_preserves f g : alike_function f g → alike_function g f → preserves (X := X) (E := E) f g.
Proof.
  intros Hfg Hgf args h e _ _. split; intros c Hc; pose proof Hc as (_ & _ & _ & He).
  - destruct (alike_runs f g args h e c Hfg Hc) as (c' & Hc' & Heq). exists c'. by split; [| apply (eq_config_result c c')].
  - destruct (alike_runs g f args h e c Hgf Hc) as (c' & Hc' & Heq). exists c'. by split; [| apply (eq_config_result c c')].
Qed.

End same_runs.

(** ** The region is dead at the end *)

Definition region_values (g : Function) : list Value :=
  omap (λ z, match z.2 with Inst.ConsRegion d _ _ _ _ => Some d | _ => None end) (enumerated g).

Lemma region_values_elem g v : v ∈ region_values g ↔ ∃ j n a ct b dt, inst_at g j n = Some (Inst.ConsRegion v a ct b dt).
Proof.
  unfold region_values. rewrite list_elem_of_omap. split.
  - intros ([[j n] i] & Hin%enumerated_elem & Hs). destruct i; try done. injection Hs as <-. eauto 8.
  - intros (j & n & a & ct & b & dt & Hi). eexists (j, n, _). split; [by apply enumerated_elem | done].
Qed.

Section region.
Context {X E : Type} `{HL : RuntimeLaws X E}.
Context (g : Function).

Notation val := (val X).
Notation pairs := (gmap loc (val * val)).
Notation state := (@state X E).
Notation config := (@config X E).
Implicit Types (h k : pairs).

Hypothesis once : NoDup (definitions g).
Hypothesis dead : ∀ j n v a ct b dt, inst_at g j n = Some (Inst.ConsRegion v a ct b dt) → only_read g j n v.

(** A pair is not its own operand. *)
Definition own_free (v : Value) : Prop :=
  ∀ j n a ct b dt, inst_at g j n = Some (Inst.ConsRegion v a ct b dt) → a ≠ v ∧ b ≠ v.

(** The pairs [h] outside of the region and those in it, [k]: only the registers
    of promoted pairs refer to the latter. *)
Record region_inv h k (s : state) : Prop := {
  ri_pairs : st_pairs s = h ∪ k;
  ri_apart : k ##ₘ h;
  ri_dom : dom k = st_region s;
  ri_safe : safe h (st_rest s);
  ri_contents : pairs_inside h k;
  ri_in : ∀ v w, v ∈ region_values g → st_regs s !! v = Some w → own_free v ∧ ∃ p, w = VPair p ∧ p ∈ dom k;
  ri_out : ∀ a w, a ∉ region_values g → st_regs s !! a = Some w → inside h w }.

Lemma def_not_region j n i d : inst_at g j n = Some i → dst i = Some d →
  (∀ a ct b dt, i ≠ Inst.ConsRegion d a ct b dt) → d ∉ region_values g.
Proof.
  intros (b1 & Hb1 & Hi1)%inst_at_block Hd Hne (j2 & n2 & a & ct & b & dt & (b2 & Hb2 & Hi2)%inst_at_block)%region_values_elem.
  destruct (one_inst g once _ _ _ _ _ _ _ _ _ Hb1 Hb2 Hi1 Hi2 Hd eq_refl) as (_ & _ & _ & ->). by eapply Hne.
Qed.

(** What an instruction mentions of the promoted pairs. *)
Lemma region_mention j n i v : inst_at g j n = Some i → v ∈ region_values g → v ∈ operands i →
  is_Some (use_kind v i) ∨ ∃ a ct b dt, i = Inst.ConsRegion v a ct b dt.
Proof.
  intros Hi (j' & n' & a & ct & b & dt & Hr)%region_values_elem Hv.
  destruct (decide ((j, n) = (j', n'))) as [[= -> ->]|Hne].
  - right. rewrite Hi in Hr. injection Hr as ->. eauto.
  - left. by eapply (proj1 (dead _ _ _ _ _ _ _ Hr) j n).
Qed.

Lemma region_cons h k s j n v a ct b dt o s' : region_inv h k s → inst_at g j n = Some (Inst.ConsRegion v a ct b dt) →
  inst_step (Inst.ConsRegion v a ct b dt) s o s' → ∃ k', region_inv h k' s'.
Proof.
  intros [Hp Ha Hd Hs Hc Hin Hout] Hi (args & Hargs & Hacts & Hreg & Hregs').
  cbn in Hargs. destruct (st_regs s !! a) as [w|] eqn:Hw; [| done]. destruct (st_regs s !! b) as [w'|] eqn:Hw'; [| done].
  cbn in Hargs. injection Hargs as <-. destruct Hacts as (p & Hpn & -> & Hp' & He').
  assert (v ∈ region_values g) as Hv by (apply region_values_elem; eauto 8).
  assert (∀ c u, c = a ∨ c = b → st_regs s !! c = Some u → c ∉ region_values g) as Hplain.
  { intros c u Hcab Hu Hcr. destruct (region_mention j n _ c Hi Hcr) as [[kind Hk]|(a' & ct' & b' & dt' & Heq)]; [| done |].
    - apply values_parts. left. cbn. destruct Hcab as [-> | ->]; set_solver.
    - injection Heq as -> -> -> -> ->. destruct (Hin c u Hcr Hu) as [Hof _]. destruct (Hof _ _ _ _ _ _ Hi). naive_solver. }
  assert (a ≠ v ∧ b ≠ v) as [Hav Hbv].
  { split; intros ->; [eapply (Hplain v w) | eapply (Hplain v w')]; auto. }
  rewrite Hp in Hpn. apply lookup_union_None in Hpn as [Hph Hpk].
  exists (<[p := (w, w')]> k). split.
  - rewrite Hp', Hp. by rewrite insert_union_r.
  - by apply map_disjoint_insert_l_2.
  - rewrite dom_insert_L, Hd, Hreg. done.
  - by rewrite He'.
  - apply map_Forall_insert_2; [| done]. split; cbn; eauto.
  - intros v' u Hv' Hu. rewrite Hregs' in Hu. cbn in Hu. apply lookup_insert_Some in Hu as [[<- <-]|[Hne Hu]].
    + split; [| exists p; split; [done | rewrite dom_insert_L; set_solver]]. intros j' n' a' ct' b' dt' Hi'.
      apply inst_at_block in Hi as (b1 & Hb1 & Hi1). apply inst_at_block in Hi' as (b2 & Hb2 & Hi2).
      destruct (one_inst g once _ _ _ _ _ _ _ _ _ Hb1 Hb2 Hi1 Hi2 eq_refl eq_refl) as (_ & _ & _ & [= <- <- <- <-]). done.
    + destruct (Hin v' u Hv' Hu) as [? (p' & ? & ?)]. split; [done |]. exists p'. split; [done | rewrite dom_insert_L; set_solver].
  - intros c u Hc' Hu. rewrite Hregs' in Hu. cbn in Hu. apply lookup_insert_Some in Hu as [[<- _]|[_ Hu]]; [done | by eapply Hout].
Qed.

Lemma region_set h k s d w : region_inv h k s → d ∉ region_values g → inside h w → region_inv h k (set_reg d w s).
Proof.
  intros [Hp Ha Hd Hs Hc Hin Hout] Hdr Hw. split; cbn; try done.
  - intros v u Hv [[<- _]|[_ Hu]]%lookup_insert_Some; [done | by eapply Hin].
  - intros a u Ha' [[<- <-]|[_ Hu]]%lookup_insert_Some; [done | by eapply Hout].
Qed.

Lemma region_use h k s j n i v kind o s' : region_inv h k s → inst_at g j n = Some i → v ∈ region_values g →
  use_kind v i = Some kind → inst_step i s o s' → region_inv h k s'.
Proof.
  intros Hinv Hi Hv Hk Hs. pose proof Hinv as [Hp Ha Hd Hsafe Hc Hin Hout].
  assert (is_Some (st_regs s !! v)) as [u Hu].
  { destruct Hs as (args & Hargs & _). apply elem_of_dom. eapply operands_defined; [done |].
    destruct (use_kind_inst _ _ _ Hk) as [d ->]. destruct kind; apply list_elem_of_here. }
  destruct (Hin v u Hv Hu) as [_ (p & -> & [[w w'] Hkp]%elem_of_dom)].
  destruct (use_gives (MkConsSite 0 0 v 0%N 0%N) i kind s p w w' Hk Hu) as (d & Hdi & Hg).
  { rewrite Hp. apply lookup_union_Some_r; [by apply map_disjoint_sym | done]. }
  apply Hg in Hs as [-> ->]. apply region_set; [done | |].
  - destruct (use_kind_inst _ _ _ Hk) as [d' Heq]. eapply (def_not_region j n i d Hi Hdi); subst i; by destruct kind.
  - destruct (Hc p (w, w') Hkp). destruct kind; try done; apply empty_subseteq.
Qed.

Lemma region_other h k s j n i o s' : region_inv h k s → inst_at g j n = Some i →
  (∀ d a ct b dt, i ≠ Inst.ConsRegion d a ct b dt) → (∀ v, v ∈ srcs i → v ∉ region_values g) →
  inst_step i s o s' → ∃ h', region_inv h' k s'.
Proof.
  intros [Hp Ha Hd Hs Hc Hin Hout] Hi Hne Hsrcs (args & Hargs & Hacts & Hreg & Hregs').
  assert (Forall (inside h) args) as Hargs'.
  { apply mapM_Some in Hargs. clear -Hargs Hsrcs Hout. induction Hargs as [|a w l args Hw Hl IH]; constructor.
    - eapply Hout; [| done]. apply Hsrcs, list_elem_of_here.
    - apply IH. intros v Hv. apply Hsrcs. by right. }
  rewrite Hp in Hacts. destruct (acts_local _ _ _ _ _ _ _ _ Ha Hs Hargs' Hacts) as (h2 & Hp' & Ha' & Hacts2).
  destruct (acts_safe _ _ _ _ _ _ _ Hs Hargs' Hacts2) as (Hsub & Hs' & Ho). exists h2. split; try done.
  - rewrite Hd, Hreg. destruct i; try done. by destruct (Hne d a a_tag b b_tag).
  - by eapply pairs_inside_mono.
  - intros v w Hv Hw. rewrite Hregs' in Hw. destruct o as [r|]; [| by eapply Hin].
    destruct (dst i) as [d|] eqn:Hdi; [| by eapply Hin].
    apply lookup_insert_Some in Hw as [[<- _]|[_ Hw]]; [| by eapply Hin].
    by destruct (def_not_region j n i d Hi Hdi (Hne d)).
  - intros a w Har Hw. rewrite Hregs' in Hw.
    assert (st_regs s !! a = Some w → inside h2 w) as Hold by (intros Hw'; eapply inside_mono; [done | by eapply Hout]).
    destruct o as [r|]; [| by apply Hold]. destruct (dst i) as [d|]; [| by apply Hold].
    apply lookup_insert_Some in Hw as [[<- <-]|[_ Hw]]; [by apply Ho | by apply Hold].
Qed.

Lemma region_inst h k s j n i o s' : region_inv h k s → inst_at g j n = Some i → inst_step i s o s' →
  ∃ h' k', region_inv h' k' s'.
Proof.
  intros Hinv Hi Hs.
  destruct (decide (Exists (λ v, v ∈ region_values g) (srcs i))) as [(v & Hv & Hr)%Exists_exists|Hn].
  - destruct (region_mention j n i v Hi Hr) as [[kind Hk]|(a & ct & b & dt & ->)]; [apply values_parts; by left | |].
    + exists h, k. by eapply region_use.
    + destruct (region_cons h k s j n v a ct b dt o s' Hinv Hi Hs) as [k' Hk]. by exists h, k'.
  - assert (∀ v, v ∈ srcs i → v ∉ region_values g) as Hsrcs.
    { intros v Hv Hr. apply Hn, Exists_exists. by exists v. }
    assert ((∃ d a ct b dt, i = Inst.ConsRegion d a ct b dt) ∨ ∀ d a ct b dt, i ≠ Inst.ConsRegion d a ct b dt) as [Hc|Hne].
    { destruct i; try (by right). left. eauto 8. }
    + destruct Hc as (d & a & ct & b & dt & ->).
      destruct (region_cons h k s j n d a ct b dt o s' Hinv Hi Hs) as [k' Hk]. by exists h, k'.
    + destruct (region_other h k s j n i o s' Hinv Hi Hne Hsrcs Hs) as [h' Hh]. by exists h', k.
Qed.

(** The pairs that are left when the region is reset. *)
Definition outside (s : state) : pairs := filter (λ z, z.1 ∉ st_region s) (st_pairs s).

Lemma outside_inv h k s : region_inv h k s → outside s = h.
Proof.
  intros [Hp Ha Hd _ _ _ _]. unfold outside. rewrite Hp, <-Hd. apply map_eq. intros p.
  destruct (h !! p) as [c|] eqn:Hc.
  - apply map_lookup_filter_Some. split; [by apply lookup_union_Some_l |]. cbn. apply not_elem_of_dom.
    by eapply map_disjoint_Some_r.
  - apply map_lookup_filter_None. right. intros c [Hc'|Hc']%lookup_union_Some; [congruence | | done].
    cbn. intros Hn. apply Hn. by eapply elem_of_dom_2.
Qed.

(** Nothing that is left refers to the region. *)
Definition region_dead (c : config) : Prop :=
  match c with
  | Returned w s => safe (outside s) (st_rest s) ∧ inside (outside s) w
  | Failed s => safe (outside s) (st_rest s)
  | Running _ _ _ => True
  end.

Definition region_config (c : config) : Prop := (∃ h k, region_inv h k (state_of c)) ∧ region_dead c.

Lemma region_goes h k s j b t args c : region_inv h k s → fn_blocks g !! j = Some b →
  (∀ a, a ∈ args → a ∈ term_values (bk_terminator b)) → goes g t args s c → region_config c.
Proof.
  intros [Hp Ha Hd Hs Hc Hin Hout] Hj Hargs (j' & b' & vs & regs & Hj' & Hb' & Hvs & (Hl & -> & Hfst & Hsnd)%bind_params_put & ->).
  split; [| done]. exists h, k. split; cbn; try done.
  - intros v w Hv Hw. rewrite put_other in Hw; [by eapply Hin |]. rewrite Hfst.
    apply region_values_elem in Hv as (j2 & n2 & a & ct & b2 & dt & (b3 & Hb3 & Hi3)%inst_at_block).
    exact (inst_not_param g once _ _ _ _ _ _ _ Hb3 Hb' Hi3 eq_refl).
  - assert (Forall (inside h) vs) as Hvs'.
    { apply mapM_Some in Hvs. assert (∀ a, a ∈ args → a ∉ region_values g) as Hplain.
      { intros a Ha' (j2 & n2 & x & ct & y & dt & Hr)%region_values_elem.
        apply (proj2 (dead _ _ _ _ _ _ _ Hr) j b Hj). by apply Hargs. }
      clear -Hvs Hplain Hout. induction Hvs as [|a w l vs Hw Hl IH]; constructor.
      - eapply Hout; [| done]. apply Hplain, list_elem_of_here.
      - apply IH. intros a' Ha'. apply Hplain. by right. }
    intros a w Har Hw. revert a w Har Hw.
    assert (∀ l (regs : gmap Value val), (∀ a w, a ∉ region_values g → regs !! a = Some w → inside h w) → Forall (inside h) l.*2 →
      ∀ a w, a ∉ region_values g → put l regs !! a = Some w → inside h w) as Hput.
    { clear. intros l. induction l as [|[a0 w0] l IH]; intros regs Hr Hl; [done |]. cbn in Hl. inversion_clear Hl. apply IH; [| done].
      intros a w Har [[<- <-]|[_ Hw]]%lookup_insert_Some; [done | by eapply Hr]. }
    apply Hput; [done | by rewrite Hsnd].
Qed.

Lemma region_step c c' : region_config c → step g c c' → region_config c'.
Proof.
  intros [(h & k & Hinv) _]. destruct c as [j n s| |]; [| done | done]. cbn in Hinv. intros (b & Hb & Hs).
  destruct (bk_insts b !! n) as [i|] eqn:Hn.
  - destruct Hs as (o & s' & Hs & ->).
    destruct (region_inst h k s j n i o s' Hinv) as (h' & k' & Hinv'); [apply inst_at_block; by exists b | done |].
    destruct o; (split; [by exists h', k' |]); cbn; [done |]. rewrite (outside_inv _ _ _ Hinv'). apply Hinv'.
  - destruct Hs as [_ Hs]. destruct (bk_terminator b) as [a|t args|a t e args] eqn:Ht; cbn [term_step] in Hs.
    + destruct Hs as (w & Hw & ->). split; [by exists h, k |]. cbn. rewrite (outside_inv _ _ _ Hinv). split; [apply Hinv |].
      eapply (ri_out _ _ _ Hinv); [| done]. intros (j2 & n2 & x & ct & y & dt & Hr)%region_values_elem.
      apply (proj2 (dead _ _ _ _ _ _ _ Hr) j b Hb). rewrite Ht. apply list_elem_of_here.
    + eapply region_goes; [done | done | | done]. by rewrite Ht.
    + destruct Hs as (w & _ & Hs). eapply region_goes; [done | done | | done]. rewrite Ht. by right.
Qed.

Lemma region_runs args h e c : safe h e → Forall (inside h) args → runs g args h e c → region_dead c.
Proof.
  intros Hs Ha (c0 & Hst & Hr & _). cut (region_config c); [by intros [_ ?] |]. cut (region_config c0).
  { intros H0. clear Hst. induction Hr as [|c0 c1 c Hs1 _ IH]; [done |]. apply IH. by eapply region_step. }
  pose proof (starts_fine g args h e c0 Hst Hs Ha) as [_ Hf]. destruct Hst as (j & regs & _ & Hbind & ->).
  split; [| done]. exists h, ∅. split; cbn; try done.
  - by rewrite map_union_empty.
  - apply map_disjoint_empty_l.
  - intros v w (j2 & n2 & x & ct & y & dt & (b3 & Hb3 & Hi3)%inst_at_block)%region_values_elem Hw.
    apply bind_params_put in Hbind as (_ & -> & Hfst & _). exfalso.
    assert (v ∉ (fn_params g).*1) as Hv.
    { eapply (not_fn_param g once); [done |]. apply elem_of_app. right. by eapply inst_defs. }
    rewrite put_other in Hw by (by rewrite Hfst). by rewrite lookup_empty in Hw.
  - intros a w _ Hw. by apply (Hf a w).
Qed.

End region.

(** ** The pass *)

Lemma promoted_only_read ps f j n v : only_read f j n v → only_read (map_insts (promote_inst ps) f) j n v.
Proof.
  intros [Hi Ht]. split.
  - intros j' n' i' Hi' Hne Hv. rewrite inst_at_map in Hi'. apply fmap_Some in Hi' as (i & Hi' & ->).
    assert (operands (promote_inst ps j' n' i) = operands i ∧ use_kind v (promote_inst ps j' n' i) = use_kind v i) as [Heq ->].
    { unfold promote_inst. destruct (decide _); [| done]. by destruct i. }
    rewrite Heq in Hv. by eapply Hi.
  - intros j' b' Hb'. rewrite map_insts_lookup in Hb'. apply fmap_Some in Hb' as (b & Hb & ->). exact (Ht _ _ Hb).
Qed.

Lemma promoted_parts ps j n i : dst (promote_inst ps j n i) = dst i ∧ srcs (promote_inst ps j n i) = srcs i.
Proof. unfold promote_inst. destruct (decide _); [| done]. by destruct i. Qed.

Section pass.
Context {X E : Type} `{HL : RuntimeLaws X E}.

Lemma promote_preserves f : ∃ g n, promote_non_escaping_cons f = Some (g, n) ∧ preserves (X := X) (E := E) f g ∧
  ∀ avail, ssa f avail → ssa g avail.
Proof.
  destruct (promote_spec f) as (ps & Hps & _). eexists _, _. split; [done |]. destruct (promoted_alike ps f).
  split; [by apply alike_preserves |]. intros avail Hssa. apply ssa_map_same; [done | |].
  - intros j n i _. apply promoted_parts.
  - intros j n i a _. by rewrite (proj2 (promoted_parts ps j n i)).
Qed.

(** What stays of a function when its instructions are rewritten. *)
Definition same_frame (f g : Function) : Prop :=
  g = f <| fn_blocks := fn_blocks g |> ∧
  Forall2 (λ b b', bk_id b' = bk_id b ∧ bk_params b' = bk_params b ∧ bk_terminator b' = bk_terminator b ∧
                   length (bk_insts b') = length (bk_insts b)) (fn_blocks f) (fn_blocks g).

Lemma map_insts_frame rw f : same_frame f (map_insts rw f).
Proof.
  split; [done |]. apply Forall2_same_length_lookup. rewrite map_insts_blocks, length_imap. split; [done |].
  intros j b b' Hb. rewrite list_lookup_imap, Hb. intros [= <-]. split_and!; try done. apply map_block_length.
Qed.

(** C31: the promotion of pairs that do not escape changes nothing but where
    they are allocated, and that of the pairs that are only read: the frame of
    the function (its name, parameters, entry, and the numbers, parameters,
    terminators and lengths of its blocks) stays, an instruction at a place of
    [ps] becomes the allocation in the region of the same pair, and every other
    instruction stays; the places of [ps] are, when the walker covers the whole
    function, those of the pairs that are only read, and otherwise none; their
    number is counted; and results are kept. If the function defines no value
    twice and had no pair in a region, then at the end of every run of the
    result nothing that is left - the result, the other pairs and the rest of
    the memory - refers to a pair of the region. *)
Theorem escape_to_region_correct f :
  ∃ g ps, promote_non_escaping_cons f = Some (g, length ps) ∧ NoDup ps ∧
    (∀ j n, (j, n) ∈ ps ↔ fully_covered f = true ∧
       ∃ d a ct b dt, inst_at f j n = Some (Inst.Cons d a ct b dt) ∧ only_read f j n d) ∧
    same_frame f g ∧
    (∀ j n i, inst_at f j n = Some i → inst_at g j n = Some (if decide ((j, n) ∈ ps) then in_a_region i else i)) ∧
    preserves (X := X) (E := E) f g ∧
    (NoDup (definitions f) →
     (∀ j n d a ct b dt, inst_at f j n ≠ Some (Inst.ConsRegion d a ct b dt)) →
     ∀ args (h : gmap loc (val X * val X)) (e : E) c, safe h e → Forall (inside h) args → runs g args h e c → region_dead c).
Proof.
  destruct (promote_spec f) as (ps & Hps & Hnd & Hin). eexists _, ps. split; [done |].
  destruct (promoted_alike ps f). split_and!; [done | done | apply map_insts_frame | | by apply alike_preserves |].
  - intros j n i Hi. by rewrite inst_at_map, Hi.
  - intros Honce Hplain args h e c. apply region_runs.
    + rewrite map_insts_defs_of; [done |]. intros j n i _. apply promoted_parts.
    + intros j n v a ct b dt Hi. apply promoted_only_read. rewrite inst_at_map in Hi. apply fmap_Some in Hi as (i & Hi & Heq).
      unfold promote_inst in Heq. destruct (decide _) as [Hd|]; [| by destruct (Hplain j n v a ct b dt); subst].
      apply Hin in Hd as (_ & v' & a' & ct' & b' & dt' & Hi' & Ho). rewrite Hi in Hi'. injection Hi' as ->.
      by injection Heq as -> -> -> -> ->.
Qed.

End pass.
