(* ===== verification/OptPipeline.v ===== *)
(** * The pipeline

    Every pass keeps single-assignment form and the results of a function, and
    so does every pipeline of them, whatever the names it is made from.  The
    passes of a pipeline run in the order of their buckets and, within one, of
    their names in the list. *)

From stdpp Require Import base numbers gmap list relations fin_sets sorting.
From Stdlib Require Import ZArith Strings.Byte.
From S2P Require Import Prelude RaftTypes Float64 Text Rir RirValues RirSem RirFacts Opt OptFacts Ssa OptScan RirRuns OptCons OptRegion.

Local Open Scope crab_scope.
Local Open Scope nat_scope.

(** ** The form after each pass *)

Lemma ssa_defined_once f avail : ssa f avail → defined_once f.
Proof.
  intros Hssa. apply Forall_forall. intros b Hb. apply (once_block f (ssa_once _ _ Hssa)) in Hb.
  by apply NoDup_app in Hb as (_ & _ & ?).
Qed.

(** Constant folding, place by place. *)
Definition folded_at (f : Function) (j n : nat) (i : Inst.t) : Inst.t :=
  match fn_blocks f !! j with
  | Some b => default i (fold_inst i (known_after ∅ (take n (bk_insts b))))
  | None => i
  end.

Lemma constant_fold_map f : (constant_fold f).1 = map_insts (folded_at f) f.
Proof.
  assert (fold_block <$> fn_blocks f = imap (λ j, map_block (folded_at f j)) (fn_blocks f)) as Hb.
  { apply list_eq. intros j. rewrite list_lookup_fmap, list_lookup_imap. destruct (fn_blocks f !! j) as [b|] eqn:Hj; [| done].
    cbn. f_equal. assert ((fold_insts (bk_insts b) ∅).1 = imap (folded_at f j) (bk_insts b)) as Hi.
    { apply list_eq. intros n. rewrite fold_insts_lookup, list_lookup_imap. unfold folded_at. rewrite Hj.
      by destruct (bk_insts b !! n). }
    destruct b. unfold fold_block, map_block, set_field. cbn in *. by rewrite Hi. }
  destruct f. unfold constant_fold, map_insts, set_field. cbn in *. by rewrite Hb.
Qed.

Lemma constant_fold_ssa f avail : ssa f avail → ssa (constant_fold f).1 avail.
Proof.
  intros Hssa. rewrite constant_fold_map.
  assert (∀ i m, dst (default i (fold_inst i m)) = dst i ∧ ∀ x, x ∈ srcs (default i (fold_inst i m)) → x ∈ srcs i) as Hf.
  { intros i m. split; [apply fold_inst_dst |]. intros x. destruct (fold_inst i m) as [r|] eqn:Hr; [| done].
    apply fold_inst_Some in Hr as (d & a & b & u & w & z & op & _ & _ & _ & _ & -> & _). intros Hx. by apply elem_of_nil in Hx. }
  apply ssa_map_same; [done | |]; intros j n i; [intros _ | intros x _]; unfold folded_at; destruct (fn_blocks f !! j); try done; apply Hf.
Qed.

Lemma ssa_sub f g avail : ssa f avail → fn_entry g = fn_entry f → fn_params g = fn_params f →
  fn_blocks g `sublist_of` fn_blocks f → ssa g avail.
Proof.
  intros [Honce Hentry Hedges Huses Hterms] He Hp Hsub.
  assert (∀ b, b ∈ fn_blocks g → b ∈ fn_blocks f) as Hin by (intros b Hb; by eapply elem_of_submseteq, sublist_submseteq).
  split; [| by rewrite He, Hp | by auto | by eauto | by auto].
  eapply sublist_NoDup; [exact Honce |]. unfold definitions. rewrite Hp. apply sublist_app; [done |].
  clear -Hsub. induction Hsub as [|b l1 l2 _ IH|b l1 l2 _ IH]; cbn; [done | by apply sublist_app | by apply sublist_inserts_l].
Qed.

(** ** Sound passes *)

Section sound.
Context {X E : Type} `{HL : RuntimeLaws X E}.

(** A pass that never panics and keeps the form and the results. *)
Definition sound_pass (p : Pass) : Prop :=
  ∀ f avail s, ssa f avail → ∃ g s', pass_run p f s = Some (g, s') ∧ preserves (X := X) (E := E) f g ∧ ∃ avail', ssa g avail'.

Lemma constant_fold_sound : sound_pass ConstantFold.
Proof.
  intros f avail s Hssa. eexists _, _. split; [done |]. split; [| exists avail; by apply constant_fold_ssa].
  apply preserves_iff. intros args h e c. apply constant_fold_runs. by eapply ssa_defined_once.
Qed.

Lemma dead_block_elim_sound : sound_pass DeadBlockElim.
Proof.
  intros f avail s Hssa. destruct (dead_block_elim_spec (X := X) (E := E) f) as (g & n & Hg & _ & Hsub & _ & Hruns).
  eexists g, _. cbn [pass_run DeadBlockElim]. rewrite Hg. split; [done |]. split; [by apply preserves_iff |].
  exists avail. unfold dead_block_elim in Hg. apply bind_Some in Hg as (r & _ & [= <- _]). by apply (ssa_sub f).
Qed.

Lemma escape_to_region_sound : sound_pass EscapeToRegion.
Proof.
  intros f avail s Hssa. destruct (promote_preserves (X := X) (E := E) f) as (g & n & Hg & Hp & Hs).
  eexists g, _. cbn [pass_run EscapeToRegion]. rewrite Hg. split; [done |]. split; [done |]. exists avail. by apply Hs.
Qed.

Lemma inst_stats_sound : sound_pass InstStats.
Proof. intros f avail s Hssa. eexists f, _. split; [done |]. split; [apply preserves_refl | by exists avail]. Qed.

Lemma scalar_replace_cons_sound : sound_pass ScalarReplaceCons.
Proof.
  intros f avail s Hssa. destruct (scalar_replace_cons_spec (X := X) (E := E) f avail Hssa) as (g & n & Hg & Hp & Hs & _).
  eexists g, _. cbn [pass_run ScalarReplaceCons]. rewrite Hg. by split_and!.
Qed.

Definition builtins : gmap bytes Pass := (register_builtins ∅).1.

Lemma register_all_values registry ps n p : (register_all registry ps).1 !! n = Some p → registry !! n = Some p ∨ p ∈ ps.
Proof.
  revert registry. induction ps as [|q ps IH]; intros registry; cbn [register_all]; [by left |].
  destruct (register registry q) as [err|registry'] eqn:Hq; [by left |]. intros [Hn|Hn]%IH; [| right; by right].
  unfold register in Hq. destruct (negb _); [done |]. destruct (registry !! pass_name q); [done |]. injection Hq as <-.
  apply lookup_insert_Some in Hn as [[_ <-]|[_ Hn]]; [right; apply list_elem_of_here | by left].
Qed.

Lemma builtins_sound : map_Forall (λ _, sound_pass) builtins.
Proof.
  intros n p Hp. assert (p = ConstantFold ∨ p = DeadBlockElim ∨ p = EscapeToRegion ∨ p = InstStats ∨ p = ScalarReplaceCons) as Hc.
  { apply register_all_values in Hp as [Hp|Hp]; [by rewrite lookup_empty in Hp |].
    rewrite !elem_of_cons in Hp. destruct Hp as [?|[?|[?|[?|[?|?%elem_of_nil]]]]]; auto. done. }
  destruct Hc as [->|[->|[->|[->| ->]]]]; [apply constant_fold_sound | apply dead_block_elim_sound | apply escape_to_region_sound
    | apply inst_stats_sound | apply scalar_replace_cons_sound].
Qed.

Lemma run_pipeline_sound ps f avail s : Forall sound_pass ps → ssa f avail →
  ∃ g s', run_pipeline ps f s = Some (g, s') ∧ preserves (X := X) (E := E) f g ∧ ∃ avail', ssa g avail'.
Proof.
  intros Hps. revert f avail s. induction Hps as [|p ps Hp _ IH]; intros f avail s Hssa; cbn [run_pipeline].
  - eexists f, s. split; [done |]. split; [apply preserves_refl | by exists avail].
  - destruct (Hp f avail (record_run (pass_name p) s) Hssa) as (f1 & s1 & -> & Hp1 & avail1 & Hssa1). cbn.
    destruct (IH f1 avail1 s1 Hssa1) as (g & s' & Hg & Hpg & Hs). exists g, s'. split_and!; [done | by eapply preserves_trans | done].
Qed.

End sound.

(** ** The order of passes *)

Definition bucket_le (p q : Pass) : Prop := (priority (pass_bucket p) ≤ priority (pass_bucket q))%Z.

Lemma insert_pass_perm p l : insert_pass p l ≡ₚ p :: l.
Proof. induction l as [|q l IH]; [done |]. cbn. destruct (decide _); [done |]. rewrite IH. apply Permutation_swap. Qed.

Lemma sort_passes_perm l : sort_passes l ≡ₚ l.
Proof. induction l as [|p l IH]; [done |]. cbn. by rewrite insert_pass_perm, IH. Qed.

Lemma insert_pass_sorted p l : StronglySorted bucket_le l → StronglySorted bucket_le (insert_pass p l).
Proof.
  induction 1 as [|q l Hs IH Hq]; cbn; [by repeat constructor |]. destruct (decide _) as [Hle|Hle].
  - constructor; [by constructor |]. constructor; [done |]. eapply Forall_impl; [done |]. unfold bucket_le. intros r Hr. lia.
  - constructor; [done |]. rewrite insert_pass_perm. constructor; [unfold bucket_le; lia | done].
Qed.

Lemma sort_passes_sorted l : StronglySorted bucket_le (sort_passes l).
Proof. induction l as [|p l IH]; cbn; [constructor | by apply insert_pass_sorted]. Qed.

(** The passes of one bucket. *)
Definition of_bucket (b : Bucket) (l : list Pass) : list Pass :=
  filter (λ p, priority (pass_bucket p) = priority b) l.

Lemma insert_pass_bucket b p l : of_bucket b (insert_pass p l) = of_bucket b (p :: l).
Proof.
  induction l as [|q l IH]; [done |]. cbn [insert_pass]. destruct (decide _) as [Hle|Hle]; [done |].
  unfold of_bucket in *. rewrite filter_cons, IH, !filter_cons.
  repeat destruct (decide _); try done. lia.
Qed.

Lemma sort_passes_stable b l : of_bucket b (sort_passes l) = of_bucket b l.
Proof.
  induction l as [|p l IH]; [done |]. cbn [sort_passes foldr]. fold (sort_passes l). rewrite insert_pass_bucket.
  unfold of_bucket in *. by rewrite !filter_cons, IH.
Qed.

(** A pipeline made from names is refused with the names that are not
    registered, in their order, when there are any; otherwise it has the pass
    of every name, in the order of the buckets and, within a bucket, of the
    names. *)
Theorem from_names_orders registry names :
  match from_names registry names with
  | inl unknown => unknown ≠ [] ∧ unknown = filter (λ n, registry !! n = None) names
  | inr ps =>
      (∀ n, n ∈ names → is_Some (registry !! n)) ∧ ps ≡ₚ omap (λ n, registry !! n) names ∧
      StronglySorted bucket_le ps ∧ ∀ b, of_bucket b ps = of_bucket b (omap (λ n, registry !! n) names)
  end.
Proof.
  unfold from_names. destruct (filter _ names) as [|n l] eqn:Hf; [| done].
  split_and!; [| apply sort_passes_perm | apply sort_passes_sorted | intros b; apply sort_passes_stable].
  intros n Hn. destruct (registry !! n) eqn:Hr; [done |].
  assert (n ∈ filter (λ n, registry !! n = None) names) as Hin by (by apply list_elem_of_filter).
  rewrite Hf in Hin. by apply elem_of_nil in Hin.
Qed.

Lemma from_names_sound `{HL : RuntimeLaws X E} names ps : from_names builtins names = inr ps →
  Forall (sound_pass (X := X) (E := E)) ps.
Proof.
  unfold from_names. destruct (filter _ names); [| done]. intros [= <-]. rewrite sort_passes_perm.
  apply Forall_forall. intros p (m & _ & Hm)%list_elem_of_omap. by apply (builtins_sound m).
Qed.

(** C29: whatever passes are on, the optimiser returns a function in
    single-assignment form, if it was given one, with the same results: every
    run of either function has one of the other that ends with the same value
    and the same memory, but for pairs that nothing refers to.  It does not
    panic. *)
Theorem pipeline_preserves `{HL : RuntimeLaws X E} f avail default_on active : ssa f avail →
  ∃ g, run_active_pipeline builtins default_on active f = Some g ∧ preserves (X := X) (E := E) f g ∧ ∃ avail', ssa g avail'.
Proof.
  intros Hssa. unfold run_active_pipeline, run_active_pipeline_with.
  assert (∃ g, Some f = Some g ∧ preserves (X := X) (E := E) f g ∧ ∃ avail', ssa g avail') as Hsame.
  { exists f. split; [done |]. split; [apply preserves_refl | by exists avail]. }
  destruct (merge_names default_on active) as [|n names]; [done |].
  destruct (from_names builtins (n :: names)) as [u|ps] eqn:Hf; [done |].
  destruct (run_pipeline_sound (X := X) (E := E) ps f avail (MkStats ∅ ∅)) as (g & s' & Hg & Hp & Hs); [| done |].
  - by eapply from_names_sound.
  - exists g. rewrite Hg. by split_and!.
Qed.
