(* ===== verification/Inline.v ===== *)
(** * The inliner

    [crates/cs-rir/src/inline.rs]: which callees are inlined, and how the block
    of a callee is spliced into the caller's; and the part of
    [crates/cs-vm/src/jit_translate.rs] that drives it once the callee has been
    translated ([demote_env_to_ssa_in_first_block] and [try_inline_leaf_callee]).

    The numbers of values and blocks are [u32]; a checked addition that
    overflows panics, which is [None], as does an index out of range. *)

From stdpp Require Import base numbers gmap list.
From Stdlib Require Import ZArith Strings.Byte.
From S2P Require Import Prelude RaftTypes Float64 Text Rir.

Local Open Scope crab_scope.
Local Open Scope N_scope.

(** ** Eligibility *)

Definition MAX_INLINE_INSTS : nat := 20.

Inductive InlineRejection :=
  | TooLarge (inst_count limit : nat)
  | HasInternalCall
  | HasMakeClosure
  | HasEnvMutation
  | MultipleReturns (count : nat)
  | NoReturn
  | UnsupportedInst (name : bytes)
  | UnsupportedTerm (name : bytes).

Record InlineMetadata := MkMetadata {
  md_inst_count : nat;
  md_block_count : nat;
  md_max_value : N;
  md_max_block : N;
  md_return_block : BlockId;
  md_return_value : Value }.

(** The destinations that the analyser knows. *)
Definition inst_dst (i : Inst.t) : option Value :=
  match i with
  | Inst.EnvSet _ _ | Inst.EnvDefineLocal _ _ | Inst.DeoptCheck _ _ => None
  | Inst.LoadConst v _ | Inst.Add v _ _ | Inst.Sub v _ _ | Inst.Mul v _ _ | Inst.Div v _ _
  | Inst.FlonumAdd v _ _ | Inst.FlonumSub v _ _ | Inst.FlonumMul v _ _ | Inst.FlonumDiv v _ _
  | Inst.FlonumLt v _ _ | Inst.FlonumEq v _ _ | Inst.Lt v _ _ | Inst.Eq v _ _ | Inst.FlonumSqrt v _
  | Inst.FlonumAbs v _ | Inst.FlonumFloor v _ | Inst.FlonumCeil v _ | Inst.FlonumTrunc v _
  | Inst.FlonumRound v _ | Inst.EnvLookup v _ | Inst.EnvLookupAny v _ | Inst.VecRef v _ _
  | Inst.VecLength v _ | Inst.VecP v _ | Inst.BoxTyped v _ _ | Inst.AnyToFix v _ | Inst.AnyToBool v _
  | Inst.AnyToFlo v _ | Inst.AnyTruthy v _ => Some v
  | _ => None
  end.

Definition inst_variant_name (i : Inst.t) : bytes :=
  match i with
  | Inst.LoadConst _ _ => lit "LoadConst"
  | Inst.Add _ _ _ => lit "Add"
  | Inst.Sub _ _ _ => lit "Sub"
  | Inst.Mul _ _ _ => lit "Mul"
  | Inst.Div _ _ _ => lit "Div"
  | Inst.FlonumAdd _ _ _ => lit "FlonumAdd"
  | Inst.FlonumSub _ _ _ => lit "FlonumSub"
  | Inst.FlonumMul _ _ _ => lit "FlonumMul"
  | Inst.FlonumDiv _ _ _ => lit "FlonumDiv"
  | Inst.Lt _ _ _ => lit "Lt"
  | Inst.Eq _ _ _ => lit "Eq"
  | Inst.FlonumLt _ _ _ => lit "FlonumLt"
  | Inst.FlonumEq _ _ _ => lit "FlonumEq"
  | Inst.Call _ _ _ => lit "Call"
  | Inst.CallSelf _ _ => lit "CallSelf"
  | Inst.CallGeneral _ _ _ => lit "CallGeneral"
  | Inst.EnvLookup _ _ => lit "EnvLookup"
  | Inst.EnvLookupAny _ _ => lit "EnvLookupAny"
  | Inst.EnvSet _ _ => lit "EnvSet"
  | Inst.EnvDefineLocal _ _ => lit "EnvDefineLocal"
  | Inst.MakeClosure _ _ => lit "MakeClosure"
  | Inst.VecAlloc _ _ _ => lit "VecAlloc"
  | Inst.VecSet _ _ _ _ => lit "VecSet"
  | Inst.StrAlloc _ _ _ => lit "StrAlloc"
  | Inst.BoxTyped _ _ _ => lit "BoxTyped"
  | Inst.DeoptCheck _ _ => lit "DeoptCheck"
  | _ => lit "<other>"
  end.

Definition term_variant_name (t : Term) : bytes :=
  match t with
  | Return _ => lit "Return"
  | Jump _ _ => lit "Jump"
  | Branch _ _ _ _ => lit "Branch"
  end.

(** One instruction: why it is refused, or the new maximum. *)
Definition analyze_inst (i : Inst.t) (max_value : N) : InlineRejection + N :=
  match i with
  | Inst.Call _ _ _ | Inst.CallSelf _ _ | Inst.CallGeneral _ _ _ | Inst.CallBuiltin _ _ _ => inl HasInternalCall
  | Inst.MakeClosure _ _ => inl HasMakeClosure
  | Inst.EnvSet _ _ | Inst.EnvDefineLocal _ _ => inl HasEnvMutation
  | Inst.EnvLookup _ _ | Inst.EnvLookupAny _ _ => inl (UnsupportedInst (lit "EnvLookup*"))
  | _ =>
      if is_inline_supported i
      then inr match inst_dst i with Some d => N.max max_value d | None => max_value end
      else inl (UnsupportedInst (inst_variant_name i))
  end.

Fixpoint analyze_insts (insts : list Inst.t) (max_value : N) : InlineRejection + N :=
  match insts with
  | [] => inr max_value
  | i :: insts =>
      match analyze_inst i max_value with
      | inl r => inl r
      | inr max_value => analyze_insts insts max_value
      end
  end.

(** The variables of the loop over the blocks. *)
Record Scan := MkScan {
  sc_max_value : N;
  sc_max_block : N;
  sc_return_count : nat;
  sc_return : option (BlockId * Value) }.

Definition analyze_block (b : Block) (s : Scan) : InlineRejection + Scan :=
  let max_value := foldl (λ m p, N.max m p.1) (sc_max_value s) (bk_params b) in
  let max_block := N.max (sc_max_block s) (bk_id b) in
  match analyze_insts (bk_insts b) max_value with
  | inl r => inl r
  | inr max_value =>
      if is_term_inline_supported (bk_terminator b) then
        inr match bk_terminator b with
            | Return v => MkScan max_value max_block (S (sc_return_count s)) (Some (bk_id b, v))
            | _ => MkScan max_value max_block (sc_return_count s) (sc_return s)
            end
      else inl (UnsupportedTerm (term_variant_name (bk_terminator b)))
  end.

Fixpoint analyze_blocks (bs : list Block) (s : Scan) : InlineRejection + Scan :=
  match bs with
  | [] => inr s
  | b :: bs =>
      match analyze_block b s with
      | inl r => inl r
      | inr s => analyze_blocks bs s
      end
  end.

Definition analyze_for_inline (f : Function) : InlineRejection + InlineMetadata :=
  if decide (MAX_INLINE_INSTS < inst_count f)%nat then inl (TooLarge (inst_count f) MAX_INLINE_INSTS)
  else
    let s := MkScan (foldl (λ m p, N.max m p.1) 0 (fn_params f)) (foldl (λ m b, N.max m (bk_id b)) 0 (fn_blocks f)) 0 None in
    match analyze_blocks (fn_blocks f) s with
    | inl r => inl r
    | inr s =>
        match sc_return_count s, sc_return s with
        | 0%nat, _ => inl NoReturn
        | 1%nat, Some (b, v) =>
            inr (MkMetadata (inst_count f) (block_count f) (sc_max_value s) (sc_max_block s) b v)
        | n, _ => inl (MultipleReturns n)
        end
    end.

(** ** Splicing *)

Definition u32_max : N := 4294967295.

Definition checked_add (a b : N) : option N := if decide (a + b ≤ u32_max) then Some (a + b) else None.

(** [ValueRemap] and [BlockRemap]. *)
Record Remap := MkRemap { base : N }.

Definition remap (r : Remap) (v : N) : option N := checked_add v (base r).

Record SpliceRequest := MkSplice {
  param_subst : list Value;
  value_offset : N;
  block_offset : N }.

Definition remap_value (r : SpliceRequest) (v : Value) (n_params : N) : option Value :=
  if decide (v < n_params) then param_subst r !! N.to_nat v else checked_add (v - n_params) (value_offset r).

Definition remap_block (r : SpliceRequest) (b : BlockId) : option BlockId := checked_add b (block_offset r).

(** The closure that the walker runs; its state tells whether it has not
    panicked. *)
Definition remaps (r : SpliceRequest) (n_params : N) (v : Value) (ok : bool) : Value * bool :=
  match remap_value r v n_params with Some w => (w, ok) | None => (v, false) end.

Definition splice_inst (r : SpliceRequest) (n_params : N) (i : Inst.t) : option Inst.t :=
  match for_each_value_in_inst (remaps r n_params) i true with Some (i, true) => Some i | _ => None end.

Definition splice_single_block (caller_block_insts : list Inst.t) (callee : Function) (metadata : InlineMetadata)
    (splice : SpliceRequest) : option (list Inst.t * Value) :=
  let n_params := N.of_nat (length (fn_params callee)) in
  callee_block ← fn_blocks callee !! 0%nat;
  cloned ← mapM (splice_inst splice n_params) (bk_insts callee_block);
  v ← remap_value splice (md_return_value metadata) n_params;
  Some (caller_block_insts ++ cloned, v).

(** ** The driver: [jit_translate.rs] *)

(** The loop of [resolve]: at most one step more than there are aliases. *)
Fixpoint resolve_loop (n : nat) (cur : Value) (alias : gmap Value Value) : Value :=
  match n with
  | O => cur
  | S n =>
      match alias !! cur with
      | Some next => if decide (next = cur) then cur else resolve_loop n next alias
      | None => cur
      end
  end.

Definition resolve (v : Value) (alias : gmap Value Value) : Value := resolve_loop (S (size alias)) v alias.

(** [None] is a panic of the walker, and [Some None] the return of [false]. *)
Fixpoint demote_insts (insts : list Inst.t) (sym_to_src alias : gmap N Value) :
    option (option (list Inst.t * gmap Value Value)) :=
  match insts with
  | [] => Some (Some ([], alias))
  | Inst.EnvDefineLocal sym src :: insts => demote_insts insts (<[sym := resolve src alias]> sym_to_src) alias
  | Inst.EnvLookupAny d sym :: insts | Inst.EnvLookup d sym :: insts =>
      match sym_to_src !! sym with
      | Some src => demote_insts insts sym_to_src (<[d := src]> alias)
      | None => Some None
      end
  | other :: insts =>
      other ← (if is_inline_supported other
               then fst <$> for_each_value_in_inst (λ v (s : unit), (resolve v alias, s)) other ()
               else Some other);
      r ← demote_insts insts sym_to_src alias;
      Some (option_map (λ z, (other :: z.1, z.2)) r)
  end.

Definition demote_env_to_ssa_in_first_block (f : Function) : option (option Function) :=
  match fn_blocks f with
  | [] => Some (Some f)
  | b :: bs =>
      r ← demote_insts (bk_insts b) ∅ ∅;
      Some (option_map (λ z : list Inst.t * gmap Value Value,
        let t := (for_each_value_in_term (λ v (s : unit), (resolve v z.2, s)) (bk_terminator b) ()).1 in
        f <| fn_blocks := (b <| bk_insts := z.1 |> <| bk_terminator := t |>) :: bs |>) r)
  end.

Definition saturating_add (a b : N) : N := N.min (a + b) u32_max.

(** [try_inline_leaf_callee] from the translated callee on: the caller's
    instructions, the value of the result and the next number, unless the callee
    is not inlined. *)
Definition splice_leaf_callee (callee_rir : Function) (raw_args : list Value) (insts : list Inst.t) (next_value_id : N) :
    option (option (list Inst.t * Value * N)) :=
  if decide (length (fn_blocks callee_rir) ≠ 1%nat) then Some None
  else
    demoted ← demote_env_to_ssa_in_first_block callee_rir;
    match demoted with
    | None => Some None
    | Some callee_rir =>
        match analyze_for_inline callee_rir with
        | inl _ => Some None
        | inr md =>
            let n_params := N.of_nat (length (fn_params callee_rir)) in
            let base := next_value_id in
            '(insts, result) ← splice_single_block insts callee_rir md (MkSplice raw_args base 0);
            let highest_used := saturating_add base (md_max_value md - n_params) in
            Some (Some (insts, result, (highest_used + 1) mod (u32_max + 1)))
        end
    end.
