(* ===== verification/InlineFacts.v ===== *)
(** * Inlining a leaf

    The spliced block does in the caller what a call of the callee does: it
    gives the same results with the same memory, and leaves the caller's
    registers alone.  The numbers that the splice takes are those the driver
    skips when the analyser knows every destination; when it does not, the
    caller's next value has the number of one of the callee's. *)

From stdpp Require Import base numbers gmap list relations fin_sets.
From Stdlib Require Import ZArith Strings.Byte.
From S2P Require Import Prelude RaftTypes Float64 Text Rir RirValues RirSem RirFacts Opt OptFacts Ssa OptScan RirRuns Inline.

Local Open Scope crab_scope.
Local Open Scope N_scope.

(** ** What the analyser accepts *)

Lemma analyze_inst_inr i m m' : analyze_inst i m = inr m' →
  is_inline_supported i = true ∧ m' = match inst_dst i with Some d => N.max m d | None => m end.
Proof. destruct i; cbn; try done; by intros [= <-]. Qed.

Lemma analyze_insts_inr insts m m' : analyze_insts insts m = inr m' →
  Forall (λ i, is_inline_supported i = true) insts ∧ m ≤ m' ∧ ∀ i d, i ∈ insts → inst_dst i = Some d → d ≤ m'.
Proof.
  revert m. induction insts as [|i insts IH]; intros m; cbn [analyze_insts].
  { intros [= <-]. split_and!; [constructor | lia | by intros i d ?%elem_of_nil]. }
  destruct (analyze_inst i m) as [r|m1] eqn:Hi; [done |]. apply analyze_inst_inr in Hi as [Hsup Hm1].
  intros (HF & Hle & Hd)%IH. split_and!; [by constructor | destruct (inst_dst i); lia |].
  intros i' d [->|Hi']%elem_of_cons Hdst; [rewrite Hdst in Hm1; lia | by eapply Hd].
Qed.

Lemma foldl_max_le {A} (k : A → N) (l : list A) m :
  m ≤ foldl (λ m p, N.max m (k p)) m l ∧ ∀ p, p ∈ l → k p ≤ foldl (λ m p, N.max m (k p)) m l.
Proof.
  revert m. induction l as [|q l IH]; intros m; cbn; [split; [lia | by intros p ?%elem_of_nil] |].
  destruct (IH (N.max m (k q))) as [H1 H2]. split; [lia |]. intros p [->|Hp]%elem_of_cons; [lia | by apply H2].
Qed.

(** What it knows is right. *)
Lemma inst_dst_dst i : inst_dst i = None ∨ inst_dst i = dst i.
Proof. destruct i; auto. Qed.

(** A callee of one block that is accepted ends with the return of the value in
    the metadata, and all its instructions can be remapped. *)
Lemma analyze_single f b md : fn_blocks f = [b] → analyze_for_inline f = inr md →
  bk_terminator b = Return (md_return_value md) ∧ Forall (λ i, is_inline_supported i = true) (bk_insts b) ∧
  (∀ i d, i ∈ bk_insts b → inst_dst i = Some d → d ≤ md_max_value md) ∧
  (∀ p, p ∈ (bk_params b).*1 → p ≤ md_max_value md) ∧ (∀ p, p ∈ (fn_params f).*1 → p ≤ md_max_value md).
Proof.
  intros Hb. unfold analyze_for_inline. destruct (decide _); [done |]. rewrite Hb. cbn [analyze_blocks].
  unfold analyze_block. cbn [sc_max_value].
  set (m0 := foldl (λ m p, N.max m p.1) 0 (fn_params f)).
  set (m1 := foldl (λ m p, N.max m p.1) m0 (bk_params b)).
  destruct (analyze_insts (bk_insts b) m1) as [r|m2] eqn:Hi; [done |]. apply analyze_insts_inr in Hi as (HF & Hle & Hd).
  destruct (bk_terminator b) as [v| |] eqn:Ht; [| done | done]. intros [= <-]. cbn.
  split_and!; [done | done | done | |].
  - intros p (q & -> & Hq)%list_elem_of_fmap.
    assert (q.1 ≤ m1) by exact (proj2 (foldl_max_le (fst : N * Ty.t → N) (bk_params b) m0) q Hq). lia.
  - intros p (q & -> & Hq)%list_elem_of_fmap.
    assert (q.1 ≤ m0) by exact (proj2 (foldl_max_le (fst : N * Ty.t → N) (fn_params f) 0) q Hq).
    assert (m0 ≤ m1) by exact (proj1 (foldl_max_le (fst : N * Ty.t → N) (bk_params b) m0)). lia.
Qed.

(** ** Remapping *)

Lemma visit_remaps r n vs ok :
  (visit_list (remaps r n) vs ok).2 = ok && bool_decide (Forall (λ v, is_Some (remap_value r v n)) vs) ∧
  (Forall (λ v, is_Some (remap_value r v n)) vs →
     (visit_list (remaps r n) vs ok).1 = (λ v, default v (remap_value r v n)) <$> vs).
Proof.
  revert ok. induction vs as [|v vs IH]; intros ok; [by rewrite bool_decide_eq_true_2, andb_true_r by constructor |].
  cbn. unfold remaps at 1 3. destruct (remap_value r v n) as [w|] eqn:Hv.
  - destruct (IH ok) as [H2 H1]. destruct (visit_list (remaps r n) vs ok) as [vs' ok'] eqn:He. cbn in *. split.
    + rewrite H2. f_equal. apply bool_decide_ext. rewrite Forall_cons, Hv. naive_solver.
    + intros HF. apply Forall_cons in HF as [_ HF]. by rewrite H1.
  - destruct (IH false) as [H2 H1]. destruct (visit_list (remaps r n) vs false) as [vs' ok'] eqn:He. cbn in *. split.
    + rewrite H2. symmetry. rewrite bool_decide_eq_false_2; [by rewrite andb_false_r |].
      rewrite Forall_cons, Hv. by intros [[? ?] _].
    + intros HF. apply Forall_cons in HF as [[? HF] _]. congruence.
Qed.

Lemma splice_inst_spec r n i : value_walker_covers i = true →
  (∀ v, v ∈ operands i → is_Some (remap_value r v n)) →
  splice_inst r n i = renamed (λ v, default v (remap_value r v n)) i ∧ is_Some (splice_inst r n i).
Proof.
  intros Hc Hall. destruct (covered_parts i Hc) as [_ ->].
  destruct (walker_shape i Hc) as (vs & k & -> & Hk). destruct (Hk vs eq_refl) as (Hop & Hren & Hwalk).
  rewrite Hop in Hall. rewrite Hren.
  assert (Forall (λ v, is_Some (remap_value r v n)) vs) as HF by (by apply Forall_forall).
  destruct (visit_remaps r n vs true) as [H2 H1]. unfold splice_inst. rewrite Hwalk.
  rewrite H2, bool_decide_eq_true_2, H1 by done. cbn. by split.
Qed.

(** ** The callee and the spliced block *)

(** A callee of one block in single-assignment form, whose parameters have the
    first numbers. *)
Record leaf (callee : Function) (b : Block) (avail : BlockId → gset Value) : Prop := {
  lf_block : fn_blocks callee = [b];
  lf_entry : bk_id b = fn_entry callee;
  lf_params : (fn_params callee).*1 = N.of_nat <$> seq 0 (length (fn_params callee));
  lf_ssa : ssa callee avail }.

Section splice.
Context {X E : Type} `{Runtime X E}.
Context (callee : Function) (b : Block) (avail : BlockId → gset Value) (md : InlineMetadata).
Context (args : list Value) (offset : N).

Notation val := (val X).
Notation state := (@state X E).
Notation config := (@config X E).
Notation n_params := (N.of_nat (length (fn_params callee))).
Notation request := (MkSplice args offset 0).

Hypothesis one : leaf callee b avail.
Hypothesis accepted : analyze_for_inline callee = inr md.
Hypothesis arity : length args = length (fn_params callee).
Hypothesis below : ∀ a, a ∈ args → a < offset.
Hypothesis room : ∀ v, v ∈ definitions callee → v - n_params + offset ≤ u32_max.

Definition moved (v : Value) : Value := default v (remap_value request v n_params).

Lemma definitions_leaf v : v ∈ definitions callee ↔ v < n_params ∨ v ∈ defs_of b.
Proof.
  unfold definitions. rewrite (lf_block _ _ _ one). cbn. rewrite app_nil_r, elem_of_app, (lf_params _ _ _ one).
  rewrite list_elem_of_fmap. setoid_rewrite elem_of_seq. split; [| intros [Hv|?]; [| by right]].
  - intros [(k & -> & Hk)|?]; [left; lia | by right].
  - left. exists (N.to_nat v). lia.
Qed.

Lemma moved_Some v : v ∈ definitions callee → remap_value request v n_params = Some (moved v).
Proof.
  intros Hv. unfold moved, remap_value. destruct (decide (v < n_params)) as [Hlt|Hge]; cbn [param_subst value_offset].
  - destruct (lookup_lt_is_Some_2 args (N.to_nat v)) as [w Hw]; [lia |]. by rewrite Hw.
  - unfold checked_add. by rewrite decide_True by by apply room.
Qed.

(** The callee's own values are moved apart from one another and from the
    caller's. *)
Lemma moved_def d : n_params ≤ d → d ∈ definitions callee → moved d = d - n_params + offset.
Proof.
  intros Hd Hin. unfold moved, remap_value. rewrite decide_False by lia. unfold checked_add. cbn [value_offset].
  by rewrite decide_True by by apply room.
Qed.

Lemma moved_apart a d : a ∈ definitions callee → d ∈ definitions callee → n_params ≤ d → a ≠ d → moved a ≠ moved d.
Proof.
  intros Ha Hd Hle Hne. rewrite (moved_def d) by done. destruct (decide (a < n_params)) as [Hlt|Hge].
  - unfold moved, remap_value. rewrite decide_True by done. cbn [param_subst].
    destruct (lookup_lt_is_Some_2 args (N.to_nat a)) as [w Hw]; [lia |]. rewrite Hw. cbn.
    pose proof (below w (list_elem_of_lookup_2 _ _ _ Hw)). lia.
  - rewrite (moved_def a) by (lia || done). lia.
Qed.

Lemma in_blocks : b ∈ fn_blocks callee.
Proof. rewrite (lf_block _ _ _ one). apply list_elem_of_here. Qed.

Lemma scope_defs n v : v ∈ scope avail b n → v ∈ definitions callee.
Proof.
  intros [Hv|(m & i & _ & Hi & Hd)]%elem_of_scope.
  - rewrite (lf_entry _ _ _ one) in Hv. apply (ssa_entry _ _ (lf_ssa _ _ _ one)), elem_of_list_to_set in Hv.
    by apply elem_of_app; left.
  - apply definitions_leaf. right. apply elem_of_app. right. by eapply inst_defs.
Qed.

Lemma inst_def n i d : bk_insts b !! n = Some i → dst i = Some d → d ∈ definitions callee ∧ n_params ≤ d ∧
  d ∉ scope avail b n.
Proof.
  intros Hi Hd. assert (d ∈ defs_of b) as Hdb by (apply elem_of_app; right; by eapply inst_defs).
  assert (fn_blocks callee !! 0%nat = Some b) as Hb by (by rewrite (lf_block _ _ _ one)).
  pose proof (ssa_once _ _ (lf_ssa _ _ _ one)) as Honce.
  pose proof (not_fn_param callee Honce 0 b d Hb Hdb) as Hnp. split_and!.
  - apply definitions_leaf. by right.
  - rewrite (lf_params _ _ _ one) in Hnp. destruct (decide (d < n_params)) as [Hlt|]; [| lia]. destruct Hnp.
    apply list_elem_of_fmap. exists (N.to_nat d). rewrite elem_of_seq. lia.
  - intros [Hv|(m & i' & Hm & Hi' & Hd')]%elem_of_scope.
    + rewrite (lf_entry _ _ _ one) in Hv. by apply (ssa_entry _ _ (lf_ssa _ _ _ one)), elem_of_list_to_set in Hv.
    + destruct (one_inst callee Honce _ _ _ _ _ _ _ _ _ Hb Hb Hi Hi' Hd Hd') as (_ & _ & -> & _). lia.
Qed.

Lemma inst_values n i v : bk_insts b !! n = Some i → v ∈ operands i → v ∈ definitions callee.
Proof.
  intros Hi [Hv|Hv]%values_parts; [| by eapply inst_def].
  eapply scope_defs. by eapply (ssa_uses _ _ (lf_ssa _ _ _ one)); [apply in_blocks | |].
Qed.

Lemma inst_covered n i : bk_insts b !! n = Some i → value_walker_covers i = true.
Proof.
  intros Hi. destruct (analyze_single callee b md (lf_block _ _ _ one) accepted) as (_ & HF & _).
  eapply Forall_lookup_1 in HF; [| done]. by destruct i.
Qed.

Lemma splice_inst_at n i : bk_insts b !! n = Some i →
  ∃ i', splice_inst request n_params i = Some i' ∧ renamed moved i = Some i'.
Proof.
  intros Hi. destruct (splice_inst_spec request n_params i (inst_covered n i Hi)) as [Heq [i' Hi']].
  { intros v Hv. rewrite moved_Some; [done |]. by eapply inst_values. }
  exists i'. split; [done |]. by rewrite <-Hi', Heq.
Qed.

(** ** The same steps *)

(** The caller's registers hold what the callee's do, at the moved numbers. *)
Record mirrors (s0 : state) (n : nat) (s1 s2 : state) : Prop := {
  mi_regs : ∀ a, a ∈ scope avail b n → is_Some (st_regs s1 !! a) ∧ st_regs s2 !! moved a = st_regs s1 !! a;
  mi_caller : ∀ a, a < offset → st_regs s2 !! a = st_regs s0 !! a;
  mi_pairs : st_pairs s2 = st_pairs s1;
  mi_rest : st_rest s2 = st_rest s1 }.

Lemma operands_moved (regs1 regs2 : gmap Value val) l : (∀ a, a ∈ l → regs2 !! moved a = regs1 !! a) →
  mapM (λ a, regs2 !! a) (moved <$> l) = mapM (λ a, regs1 !! a) l.
Proof.
  induction l as [|a l IH]; intros Hl; [done |]. cbn. rewrite Hl by apply list_elem_of_here.
  rewrite IH; [done |]. intros c Hc. apply Hl. by right.
Qed.

Lemma mirror_step s0 n i i' s1 s2 : bk_insts b !! n = Some i → renamed moved i = Some i' → mirrors s0 n s1 s2 →
  (∀ o s1', inst_step i s1 o s1' → ∃ s2', inst_step i' s2 o s2' ∧ if o then mirrors s0 (S n) s1' s2'
     else st_pairs s2' = st_pairs s1' ∧ st_rest s2' = st_rest s1' ∧ st_regs s2' = st_regs s2) ∧
  (∀ o s2', inst_step i' s2 o s2' → ∃ s1', inst_step i s1 o s1' ∧ if o then mirrors s0 (S n) s1' s2'
     else st_pairs s2' = st_pairs s1' ∧ st_rest s2' = st_rest s1' ∧ st_regs s2' = st_regs s2).
Proof.
  intros Hi (Hc & Her & Hsrcs & Hdst & _)%renamed_parts [Hregs Hcaller Hp He].
  assert (∀ a, a ∈ srcs i → a ∈ scope avail b n) as Hscope.
  { intros a Ha. by eapply (ssa_uses _ _ (lf_ssa _ _ _ one)); [apply in_blocks | |]. }
  assert (mapM (λ a, st_regs s2 !! a) (srcs i') = mapM (λ a, st_regs s1 !! a) (srcs i)) as Hargs.
  { rewrite Hsrcs. apply operands_moved. intros a Ha. by apply Hregs, Hscope. }
  assert (∀ o h' e' r1 r2, let regs1 := match o, dst i with Some r, Some d => <[d := r]> (st_regs s1) | _, _ => st_regs s1 end in
    let regs2 := match o, dst i' with Some r, Some d => <[d := r]> (st_regs s2) | _, _ => st_regs s2 end in
    if o : option val then mirrors s0 (S n) (MkState regs1 h' e' r1) (MkState regs2 h' e' r2) else regs2 = st_regs s2) as Hmirror.
  { intros [w|] h' e' r1 r2; [| done]. rewrite Hdst. split; cbn; try done.
    - intros a Ha. rewrite (scope_S _ _ _ i Hi) in Ha. destruct (dst i) as [d|] eqn:Hd; cbn.
      + destruct (decide (a = d)) as [->|Hne]; [by rewrite !lookup_insert_eq |].
        assert (a ∈ scope avail b n) as Ha' by set_solver. destruct (inst_def n i d Hi Hd) as (Hdd & Hle & _).
        assert (moved a ≠ moved d) as Hm by (apply moved_apart; try done; by eapply scope_defs).
        rewrite !lookup_insert_ne by done. by apply Hregs.
      + apply Hregs. set_solver.
    - intros a Ha. destruct (dst i) as [d|] eqn:Hd; cbn; [| by apply Hcaller].
      destruct (inst_def n i d Hi Hd) as (Hdd & Hle & _). rewrite lookup_insert_ne; [by apply Hcaller |].
      rewrite moved_def by done. lia. }
  split.
  - intros o s1' (vs & Hvs & Hacts & Hr & Hregs'). eexists (MkState _ (st_pairs s1') (st_rest s1') _). split.
    + exists vs. rewrite Her, Hargs, Hp, He. split_and!; [done | done | reflexivity | reflexivity].
    + specialize (Hmirror o (st_pairs s1') (st_rest s1') (st_region s1') (in_region i' o (st_region s2))). cbv zeta in Hmirror.
      rewrite <-Hregs' in Hmirror. destruct s1'. destruct o; [exact Hmirror | done].
  - intros o s2' (vs & Hvs & Hacts & Hr & Hregs'). eexists (MkState _ (st_pairs s2') (st_rest s2') _). split.
    + exists vs. rewrite <-Her, <-Hargs, <-Hp, <-He. split_and!; [done | done | reflexivity | reflexivity].
    + specialize (Hmirror o (st_pairs s2') (st_rest s2') (in_region i o (st_region s1)) (st_region s2')). cbv zeta in Hmirror.
      rewrite <-Hregs' in Hmirror. destruct s2'. destruct o; [exact Hmirror | done].
Qed.

(** ** The same results *)

(** Instructions one after another; [false] when one of them fails. *)
Inductive execs : list Inst.t → state → bool → state → Prop :=
  | execs_nil s : execs [] s true s
  | execs_fail i l s s' : inst_step i s None s' → execs (i :: l) s false s'
  | execs_cons i l s w s1 ok s' : inst_step i s (Some w) s1 → execs l s1 ok s' → execs (i :: l) s ok s'.

(** The end of the spliced block and of the call. *)
Definition spliced (s0 : state) (res : Value) (c : config) (ok : bool) (s' : state) : Prop :=
  (∀ a, a < offset → st_regs s' !! a = st_regs s0 !! a) ∧
  st_pairs s' = st_pairs (state_of c) ∧ st_rest s' = st_rest (state_of c) ∧
  match c with
  | Returned w _ => ok = true ∧ st_regs s' !! res = Some w
  | Failed _ => ok = false
  | Running _ _ _ => False
  end.

Lemma callee_step n i s1 c : bk_insts b !! n = Some i →
  step callee (Running 0 n s1) c ↔
  ∃ o s', inst_step i s1 o s' ∧ c = match o with Some _ => Running 0 (S n) s' | None => Failed s' end.
Proof.
  intros Hi. cbn. rewrite (lf_block _ _ _ one). cbn. split.
  - intros (b' & [= <-] & Hs). by rewrite Hi in Hs.
  - intros Hs. exists b. by rewrite Hi.
Qed.

Lemma callee_return n s1 c : bk_insts b !! n = None → n = length (bk_insts b) →
  step callee (Running 0 n s1) c ↔ ∃ w, st_regs s1 !! md_return_value md = Some w ∧ c = Returned w s1.
Proof.
  intros Hi Hn. destruct (analyze_single callee b md (lf_block _ _ _ one) accepted) as (Ht & _).
  cbn. rewrite (lf_block _ _ _ one). cbn. split.
  - intros (b' & [= <-] & Hs). rewrite Hi, Ht in Hs. by destruct Hs as [_ Hs].
  - intros Hs. exists b. by rewrite Hi, Ht.
Qed.

Lemma ended_stays f (c c' : config) : ended c → rtc (step f) c c' → c' = c.
Proof. intros He Hr. inversion Hr as [|? c1 ? Hs]; subst; [done |]. by destruct c. Qed.

Lemma return_scope : md_return_value md ∈ scope avail b (length (bk_insts b)).
Proof.
  destruct (analyze_single callee b md (lf_block _ _ _ one) accepted) as (Ht & _).
  apply (ssa_terms _ _ (lf_ssa _ _ _ one)); [apply in_blocks |]. rewrite Ht. apply list_elem_of_here.
Qed.

Lemma rest_forward s0 body l n s1 s2 c : mapM (splice_inst request n_params) (bk_insts b) = Some body →
  drop n body = l → (n ≤ length (bk_insts b))%nat → mirrors s0 n s1 s2 → rtc (step callee) (Running 0 n s1) c → ended c →
  ∃ ok s', execs l s2 ok s' ∧ spliced s0 (moved (md_return_value md)) c ok s'.
Proof.
  intros Hbody. apply mapM_Some in Hbody as HF. pose proof (Forall2_length _ _ _ HF) as Hlen.
  revert n s1 s2. induction l as [|i' l IH]; intros n s1 s2 Hl Hn Hm Hr He;
    (inversion Hr as [|? c1 ? Hs Hr']; subst; [done |]).
  - apply (f_equal length) in Hl. rewrite length_drop in Hl. cbn in Hl. assert (n = length (bk_insts b)) as -> by lia.
    apply callee_return in Hs as (w & Hw & ->); [| by apply lookup_ge_None | done].
    apply ended_stays in Hr' as ->; [| done]. exists true, s2. split; [constructor |]. destruct Hm as [Hregs Hcaller Hp Hrest].
    split_and!; try done. rewrite <-Hw. by apply Hregs, return_scope.
  - assert (body !! n = Some i') as Hi'.
    { rewrite <-(Nat.add_0_r n), <-lookup_drop, Hl. done. }
    destruct (Forall2_lookup_r _ _ _ _ _ HF Hi') as (i & Hi & Hsp).
    apply (callee_step n i) in Hs as (o & s1' & Hs & ->); [| done].
    destruct (splice_inst_at n i Hi) as (i2 & Hi2 & Hren). assert (i2 = i') as -> by congruence.
    destruct (mirror_step s0 n i i' s1 s2 Hi Hren Hm) as [Hfw _]. destruct (Hfw o s1' Hs) as (s2' & Hs2 & Hres).
    destruct o as [w|].
    + destruct (IH (S n) s1' s2') as (ok & s' & Hex & Hsp'); [| by apply lookup_lt_Some in Hi; lia | done | done | done |].
      { rewrite <-Nat.add_1_r, <-drop_drop, Hl. done. }
      exists ok, s'. split; [by eapply execs_cons | done].
    + apply ended_stays in Hr' as ->; [| done]. exists false, s2'. split; [by constructor |]. destruct Hres as (Hp & Hrest & Hregs).
      split_and!; try done. intros a Ha. rewrite Hregs. by apply Hm.
Qed.

Lemma rest_backward s0 body l n s1 s2 ok s' : mapM (splice_inst request n_params) (bk_insts b) = Some body →
  drop n body = l → (n ≤ length (bk_insts b))%nat → mirrors s0 n s1 s2 → execs l s2 ok s' →
  ∃ c, rtc (step callee) (Running 0 n s1) c ∧ ended c ∧ spliced s0 (moved (md_return_value md)) c ok s'.
Proof.
  intros Hbody. apply mapM_Some in Hbody as HF. pose proof (Forall2_length _ _ _ HF) as Hlen.
  revert n s1 s2. induction l as [|i' l IH]; intros n s1 s2 Hl Hn Hm Hex.
  - apply (f_equal length) in Hl. rewrite length_drop in Hl. cbn in Hl. assert (n = length (bk_insts b)) as -> by lia.
    inversion Hex; subst. destruct Hm as [Hregs Hcaller Hp Hrest]. destruct (Hregs _ return_scope) as [[w Hw] Hmoved].
    exists (Returned w s1). split_and!; [| done | split_and!; try done; cbn; by rewrite Hmoved].
    eapply rtc_once, callee_return; [by apply lookup_ge_None | done |].
    by exists w.
  - assert (body !! n = Some i') as Hi'.
    { rewrite <-(Nat.add_0_r n), <-lookup_drop, Hl. done. }
    destruct (Forall2_lookup_r _ _ _ _ _ HF Hi') as (i & Hi & Hsp).
    destruct (splice_inst_at n i Hi) as (i2 & Hi2 & Hren). assert (i2 = i') as -> by congruence.
    destruct (mirror_step s0 n i i' s1 s2 Hi Hren Hm) as [_ Hbw].
    inversion Hex as [|? ? ? ? Hs|? ? ? w s2' ? ? Hs Hex']; subst; destruct (Hbw _ _ Hs) as (s1' & Hs1 & Hres).
    + destruct Hres as (Hp & Hrest & Hregs). exists (Failed s1'). split_and!; [| done | split_and!; try done].
      * eapply rtc_once, (callee_step n i); [done |]. by exists None, s1'.
      * intros a Ha. rewrite Hregs. by apply Hm.
    + destruct (IH (S n) s1' s2') as (c & Hr & He & Hsp'); [| by apply lookup_lt_Some in Hi; lia | done | done |].
      { rewrite <-Nat.add_1_r, <-drop_drop, Hl. done. }
      exists c. split_and!; [| done | done]. eapply rtc_l; [| done]. apply (callee_step n i); [done |]. by exists (Some w), s1'.
Qed.

Lemma mirrors_start s vals regs r : mapM (λ a, st_regs s !! a) args = Some vals →
  bind_params (fn_params callee) vals ∅ = Some regs →
  mirrors s 0 (MkState regs (st_pairs s) (st_rest s) r) s.
Proof.
  intros Hvals (_ & -> & Hfst & Hsnd)%bind_params_put. split; cbn; try done.
  intros a Ha. assert (a ∈ (fn_params callee).*1) as Hin.
  { apply elem_of_scope in Ha as [Ha|(m & i & Hm & _)]; [| lia]. rewrite (lf_entry _ _ _ one) in Ha.
    by apply (ssa_entry _ _ (lf_ssa _ _ _ one)), elem_of_list_to_set in Ha. }
  assert (a < n_params) as Hlt.
  { rewrite (lf_params _ _ _ one) in Hin. apply list_elem_of_fmap in Hin as (k & -> & Hk). apply elem_of_seq in Hk. lia. }
  assert ((fn_params callee).*1 !! N.to_nat a = Some a) as Hpa.
  { rewrite (lf_params _ _ _ one), list_lookup_fmap, lookup_seq_lt by lia. cbn. f_equal. lia. }
  apply mapM_Some in Hvals as HF. pose proof (Forall2_length _ _ _ HF) as Hlen.
  destruct (lookup_lt_is_Some_2 args (N.to_nat a)) as [w Hw]; [lia |].
  destruct (Forall2_lookup_l _ _ _ _ _ HF Hw) as (u & Hu & Hwu).
  assert (moved a = w) as ->.
  { unfold moved, remap_value. rewrite decide_True by done. cbn. by rewrite Hw. }
  assert (NoDup (zip (fn_params callee).*1 vals).*1) as Hnd.
  { rewrite Hfst. pose proof (ssa_once _ _ (lf_ssa _ _ _ one)) as Honce. by apply NoDup_app in Honce as (? & _ & _). }
  assert ((zip (fn_params callee).*1 vals) !! N.to_nat a = Some (a, u)) as Hz.
  { apply lookup_zip_with_Some. by exists a, u. }
  assert (put (zip (fn_params callee).*1 vals) ∅ !! a = Some u) as ->; [| by split].
  apply list_elem_of_lookup_2 in Hz. clear -Hz Hnd. generalize (∅ : gmap Value val).
  induction (zip (fn_params callee).*1 vals) as [|[a0 u0] l IH]; intros m; [by apply elem_of_nil in Hz |].
  cbn in Hnd. apply NoDup_cons in Hnd as [Hn Hnd]. apply elem_of_cons in Hz as [[= <- <-]|Hz]; [| by apply IH].
  cbn. change (put l (<[a := u]> m) !! a = Some u). rewrite put_other by done. by rewrite lookup_insert_eq.
Qed.

(** ** The numbers it takes *)

(** The number that the driver goes on from. *)
Definition next_number : N := (saturating_add offset (md_max_value md - n_params) + 1) mod (u32_max + 1).

(** The splice keeps the order of the instructions and moves what they define. *)
Lemma spliced_insts insts0 insts res : splice_single_block insts0 callee md request = Some (insts, res) →
  ∃ body, insts = insts0 ++ body ∧ length body = length (bk_insts b) ∧
    ∀ n i i', bk_insts b !! n = Some i → body !! n = Some i' → dst i' = moved <$> dst i.
Proof.
  intros Hsp. unfold splice_single_block in Hsp. rewrite (lf_block _ _ _ one) in Hsp.
  cbn [lookup list_lookup mbind option_bind] in Hsp. apply bind_Some in Hsp as (body & Hbody & Hsp).
  apply bind_Some in Hsp as (v & _ & [= <- _]). apply mapM_Some in Hbody. exists body.
  split_and!; [done | symmetry; by eapply Forall2_length |]. intros n i i' Hi Hi'.
  destruct (splice_inst_at n i Hi) as (i2 & Hi2 & Hren). pose proof (Forall2_lookup_lr _ _ _ _ _ _ Hbody Hi Hi') as Heq.
  cbn in Heq. assert (i2 = i') as -> by congruence. by apply renamed_parts in Hren as (_ & _ & _ & Hdst & _).
Qed.

(** The numbers that the spliced instructions define. *)
Lemma spliced_numbers insts0 insts res : splice_single_block insts0 callee md request = Some (insts, res) →
  ∃ body, insts = insts0 ++ body ∧ ∀ d, (∃ i, i ∈ body ∧ dst i = Some d) ↔
    ∃ i d0, i ∈ bk_insts b ∧ dst i = Some d0 ∧ n_params ≤ d0 ∧ d = d0 - n_params + offset.
Proof.
  intros (body & -> & Hlen & Hdst)%spliced_insts. exists body. split; [done |]. intros d. split.
  - intros (i' & (n & Hi')%list_elem_of_lookup & Hd).
    destruct (lookup_lt_is_Some_2 (bk_insts b) n) as [i Hi]; [apply lookup_lt_Some in Hi'; lia |].
    rewrite (Hdst n i i' Hi Hi') in Hd. apply fmap_Some in Hd as (d0 & Hd0 & ->).
    destruct (inst_def n i d0 Hi Hd0) as (Hdef & Hle & _). exists i, d0. rewrite moved_def by done.
    split_and!; try done. by eapply list_elem_of_lookup_2.
  - intros (i & d0 & (n & Hi)%list_elem_of_lookup & Hd0 & Hle & ->).
    destruct (lookup_lt_is_Some_2 body n) as [i' Hi']; [apply lookup_lt_Some in Hi; lia |].
    exists i'. split; [by eapply list_elem_of_lookup_2 |]. rewrite (Hdst n i i' Hi Hi'), Hd0. cbn.
    by rewrite moved_def by (done || by eapply inst_def).
Qed.

(** The first number that the driver takes for free, as the callee numbers its
    values: one above the highest that the analyser has seen. *)
Definition first_unseen : N := N.max (md_max_value md) n_params + 1.

(** The driver's next number is that of the first unseen one. *)
Lemma next_number_unseen : offset + (md_max_value md - n_params) < u32_max →
  next_number = first_unseen - n_params + offset.
Proof. intros Hr. unfold next_number, first_unseen, saturating_add. rewrite N.min_l, N.mod_small by lia. lia. Qed.

(** What defines an unseen number is an instruction the analyser does not know. *)
Lemma unseen_unknown i d : i ∈ bk_insts b → dst i = Some d → first_unseen ≤ d → inst_dst i = None.
Proof.
  intros Hi Hd Hle. destruct (inst_dst_dst i) as [|Hk]; [done |]. rewrite Hd in Hk. destruct (analyze_single callee b md (lf_block _ _ _ one) accepted) as (_ & _ & Hmax & _).
  pose proof (Hmax i d Hi Hk). unfold first_unseen in Hle. lia.
Qed.

(** The numbers of the spliced instructions are between the caller's and the
    next one, if the analyser knows the destination of every instruction. *)
Theorem known_numbers_fresh insts0 body res : splice_single_block insts0 callee md request = Some (insts0 ++ body, res) →
  (∀ i, i ∈ bk_insts b → inst_dst i = dst i) → offset + (md_max_value md - n_params) < u32_max →
  ∀ i d, i ∈ body → dst i = Some d → offset ≤ d < next_number.
Proof.
  intros (body' & <-%app_inv_head & Hnum)%spliced_numbers Hknown Hroom i d Hi Hd.
  destruct (proj1 (Hnum d)) as (i0 & d0 & Hi0 & Hd0 & Hle & ->); [by exists i |].
  assert (¬ first_unseen ≤ d0) as Hlt.
  { intros Hge. pose proof (unseen_unknown i0 d0 Hi0 Hd0 Hge) as Hn. rewrite (Hknown i0 Hi0) in Hn. congruence. }
  rewrite next_number_unseen by done. unfold first_unseen in *. lia.
Qed.


(** C33: splicing a leaf callee of one block does not panic when the numbers fit,
    and the spliced instructions do in the caller what a call does: they fail
    exactly when the callee fails and return what it returns, with the same
    pairs and the same rest of the memory, and leave the caller's registers as
    they were. *)
Theorem splice_runs_callee insts0 (s : state) vals : mapM (λ a, st_regs s !! a) args = Some vals →
  ∃ body res, splice_single_block insts0 callee md request = Some (insts0 ++ body, res) ∧
    (∀ c, runs callee vals (st_pairs s) (st_rest s) c → ∃ ok s', execs body s ok s' ∧ spliced s res c ok s') ∧
    (∀ ok s', execs body s ok s' → ∃ c, runs callee vals (st_pairs s) (st_rest s) c ∧ spliced s res c ok s').
Proof.
  intros Hvals. assert (is_Some (mapM (splice_inst request n_params) (bk_insts b))) as [body Hbody].
  { apply mapM_is_Some, Forall_forall. intros i (n & Hn)%list_elem_of_lookup. destruct (splice_inst_at n i Hn) as (i' & Hi' & _).
    by exists i'. }
  exists body, (moved (md_return_value md)). split.
  { unfold splice_single_block. rewrite (lf_block _ _ _ one). cbn [lookup list_lookup mbind option_bind]. rewrite Hbody. cbn.
    rewrite moved_Some; [done |]. eapply scope_defs, return_scope. }
  assert (block_index callee (fn_entry callee) = Some 0%nat) as Hidx.
  { unfold block_index. rewrite (lf_block _ _ _ one). cbn. by rewrite decide_True by apply one. }
  split.
  - intros c (c0 & (j & regs & Hj & Hbind & ->) & Hr & He). rewrite Hidx in Hj. injection Hj as <-.
    eapply (rest_forward s body body 0); [done | done | lia | by eapply mirrors_start | done | done].
  - intros ok s' Hex. assert (is_Some (bind_params (fn_params callee) vals ∅)) as [regs Hbind].
    { rewrite bind_params_any; [done |]. apply mapM_Some, Forall2_length in Hvals. lia. }
    destruct (rest_backward s body body 0 (MkState regs (st_pairs s) (st_rest s) ∅) s ok s') as (c & Hr & He & Hsp);
      [done | done | lia | by eapply mirrors_start | done |].
    exists c. split; [| done]. eexists. split; [by exists 0%nat, regs | by split].
Qed.

End splice.
