(* ===== verification/OptExample.v ===== *)
(** * Optimised and inlined: examples

    A runtime whose operations all fail, a function with a pair that is only
    read on both ways of a branch, and callees that are spliced. *)

From stdpp Require Import base numbers gmap list relations fin_sets.
From Stdlib Require Import ZArith Strings.Byte.
From S2P Require Import Prelude RaftTypes Float64 Text Rir RirValues RirSem RirFacts Opt OptFacts Ssa OptScan RirRuns OptCons OptRegion OptPipeline Inline InlineFacts.

Local Open Scope crab_scope.
Local Open Scope N_scope.

(** ** A runtime *)

(** Every operation fails and leaves the memory as it is. *)
#[local] Instance failing : Runtime Empty_set unit := {|
  other_refs := λ x : Empty_set, match x return gset loc with end;
  rest_refs := λ _, ∅;
  operation := λ _ _ h e o h' e', o = None ∧ h' = h ∧ e' = e |}.

#[local] Instance failing_laws : RuntimeLaws Empty_set unit.
Proof.
  split; cbn.
  - intros i args h e o h' e' Hs _ (-> & -> & ->). by split_and!.
  - intros i args h k e o h' e' Hk _ _ (-> & -> & ->). by exists h.
  - intros i args h k e o h2 e' _ _ _ _ (-> & -> & ->). done.
Qed.

Lemma empty_safe : safe (∅ : gmap loc (val Empty_set * val Empty_set)) ().
Proof. split; [apply map_Forall_empty | set_solver]. Qed.

(** ** A pair on two ways *)

Definition block (id : BlockId) (insts : list Inst.t) (t : Term) : Block := MkBlock id [] insts t.

(** [(if (pair? p) (car p) (cdr p))] with [p] the pair of the two arguments, and a
    block that is never reached. *)
Definition branching : Function :=
  (function_new (lit "f")) <| fn_params := [(0, Ty.Any); (1, Ty.Any)] |>
    <| fn_blocks := [block 0 [Inst.Cons 2 0 0 1 0; Inst.PairP 3 2] (Branch 3 1 2 []);
                     block 1 [Inst.Car 4 2] (Return 4); block 2 [Inst.Cdr 5 2] (Return 5);
                     block 3 [Inst.LoadConst 6 (Const.Fixnum 2); Inst.Add 7 6 6] (Return 7)] |>.

Definition branching_avail (id : BlockId) : gset Value :=
  if decide (id = 0) then {[0; 1]} else {[0; 1; 2; 3]}.

Lemma branching_ssa : ssa branching branching_avail.
Proof. apply ssa_check_sound. vm_compute. reflexivity. Qed.

(** Without the pair. *)
Definition branching_scalar : Function :=
  branching <| fn_blocks := [block 0 [Inst.Move 2 0; Inst.LoadConst 3 (Const.Boolean true)] (Branch 3 1 2 []);
                     block 1 [Inst.Move 4 0] (Return 4); block 2 [Inst.Move 5 1] (Return 5);
                     block 3 [Inst.LoadConst 6 (Const.Fixnum 2); Inst.Add 7 6 6] (Return 7)] |>.

Lemma scalar_replace_cons_correct_witness :
  scalar_replace_cons branching = Some (branching_scalar, 1%nat) ∧
  ∃ g n, scalar_replace_cons branching = Some (g, n) ∧ preserves (X := Empty_set) (E := unit) branching g ∧
    (∃ avail', ssa g avail') ∧ length (sites branching) = (length (sites g) + n)%nat ∧
    if fully_covered branching
    then n = 0%nat → g = branching ∧ ∀ s, is_site branching s → ¬ only_read branching (cs_bi s) (cs_ii s) (cs_dst s)
    else g = branching ∧ n = 0%nat.
Proof. split; [vm_compute; reflexivity |]. apply (scalar_replace_cons_correct branching branching_avail), branching_ssa. Defined.

Lemma branching_no_region j n d a ct b dt : inst_at branching j n ≠ Some (Inst.ConsRegion d a ct b dt).
Proof. by destruct j as [|[|[|[|j]]]], n as [|[|[|n]]]. Qed.

Lemma escape_to_region_correct_witness :
  (snd <$> promote_non_escaping_cons branching) = Some 1%nat ∧ fully_covered branching = true ∧
  NoDup (definitions branching) ∧ (∀ j n d a ct b dt, inst_at branching j n ≠ Some (Inst.ConsRegion d a ct b dt)) ∧
  ∃ g ps, promote_non_escaping_cons branching = Some (g, length ps) ∧ NoDup ps ∧
    (∀ j n, (j, n) ∈ ps ↔ fully_covered branching = true ∧
       ∃ d a ct b dt, inst_at branching j n = Some (Inst.Cons d a ct b dt) ∧ only_read branching j n d) ∧
    same_frame branching g ∧
    (∀ j n i, inst_at branching j n = Some i → inst_at g j n = Some (if decide ((j, n) ∈ ps) then in_a_region i else i)) ∧
    preserves (X := Empty_set) (E := unit) branching g ∧
    (NoDup (definitions branching) →
     (∀ j n d a ct b dt, inst_at branching j n ≠ Some (Inst.ConsRegion d a ct b dt)) →
     ∀ args (h : gmap loc (val Empty_set * val Empty_set)) (e : unit) c, safe h e → Forall (inside h) args →
       runs g args h e c → region_dead c).
Proof.
  split; [vm_compute; reflexivity |]. split; [vm_compute; reflexivity |].
  split; [exact (ssa_once _ _ branching_ssa) |]. split; [exact branching_no_region |].
  apply (escape_to_region_correct branching).
Defined.

(** [(begin (string-upcase a) (if (pair? p) (car p) (cdr p)))]: the walker does
    not know the first instruction, the passes that fold and drop blocks do. *)
Definition upcasing : Function :=
  branching <| fn_blocks := [block 0 [Inst.StringUpcase 8 0; Inst.Cons 2 0 0 1 0; Inst.PairP 3 2] (Branch 3 1 2 []);
                     block 1 [Inst.Car 4 2] (Return 4); block 2 [Inst.Cdr 5 2] (Return 5);
                     block 3 [Inst.LoadConst 6 (Const.Fixnum 2); Inst.Add 7 6 6] (Return 7)] |>.

Definition upcasing_avail (id : BlockId) : gset Value :=
  if decide (id = 0) then {[0; 1]} else {[0; 1; 2; 3; 8]}.

Lemma upcasing_ssa : ssa upcasing upcasing_avail.
Proof. apply ssa_check_sound. vm_compute. reflexivity. Qed.

Definition some_passes : list bytes := [lit "dead-block-elim"; lit "constant-fold"].

Lemma pipeline_preserves_witness :
  fully_covered upcasing = false ∧
  (∃ g, run_active_pipeline builtins [lit "scalar-replace-cons"] some_passes branching = Some g ∧
     preserves (X := Empty_set) (E := unit) branching g ∧ ∃ avail', ssa g avail') ∧
  ∃ g, run_active_pipeline builtins [lit "scalar-replace-cons"] some_passes upcasing = Some g ∧
    preserves (X := Empty_set) (E := unit) upcasing g ∧ ∃ avail', ssa g avail'.
Proof.
  split; [vm_compute; reflexivity |]. split.
  - apply (pipeline_preserves branching branching_avail [lit "scalar-replace-cons"] some_passes), branching_ssa.
  - apply (pipeline_preserves upcasing upcasing_avail [lit "scalar-replace-cons"] some_passes), upcasing_ssa.
Defined.

(** The block that is never reached is gone, and the pair with it where the
    walker covers the function. *)
Example pipeline_result :
  run_active_pipeline builtins [lit "scalar-replace-cons"] some_passes branching =
    Some (branching <| fn_blocks := take 3 (fn_blocks branching_scalar) |>) ∧
  run_active_pipeline builtins [lit "scalar-replace-cons"] some_passes upcasing =
    Some (upcasing <| fn_blocks := take 3 (fn_blocks upcasing) |>).
Proof. split; vm_compute; reflexivity. Qed.

(** ** Inlining *)

(** One more than the product of the arguments: every destination is known. *)
Definition plus_leaf : Function :=
  (function_new (lit "g")) <| fn_params := [(0, Ty.Fixnum); (1, Ty.Fixnum)] |>
    <| fn_blocks := [block 0 [Inst.Mul 2 0 1; Inst.LoadConst 3 (Const.Fixnum 1); Inst.Add 4 2 3] (Return 4)] |>.

(** [(modulo (quotient a b) b)]: no destination is known. *)
Definition modulo_leaf : Function :=
  (function_new (lit "q")) <| fn_params := [(0, Ty.Fixnum); (1, Ty.Fixnum)] |>
    <| fn_blocks := [block 0 [Inst.Quotient 2 0 1; Inst.Modulo 3 2 1] (Return 3)] |>.

Definition leaf_avail (id : BlockId) : gset Value := {[0; 1]}.

Definition leaf_block (f : Function) : Block := default (block 0 [] (Return 0)) (fn_blocks f !! 0%nat).

Lemma plus_leaf_leaf : leaf plus_leaf (leaf_block plus_leaf) leaf_avail.
Proof. split; try done. apply ssa_check_sound. vm_compute. reflexivity. Qed.

Definition plus_metadata : InlineMetadata := MkMetadata 3 1 4 0 0 4.

(** The caller calls it with its values 10 and 11, and has used the numbers below
    20. *)
Definition caller_state : @state Empty_set unit := MkState {[10 := VFix 6; 11 := VFix 7]} ∅ () ∅.

Lemma splice_runs_callee_witness :
  splice_single_block [] plus_leaf plus_metadata (MkSplice [10; 11] 20 0) =
    Some ([Inst.Mul 20 10 11; Inst.LoadConst 21 (Const.Fixnum 1); Inst.Add 22 20 21], 22) ∧
  ∃ body res, splice_single_block [] plus_leaf plus_metadata (MkSplice [10; 11] 20 0) = Some ([] ++ body, res) ∧
    (∀ c, runs plus_leaf [VFix 6; VFix 7] (st_pairs caller_state) (st_rest caller_state) c →
       ∃ ok s', execs body caller_state ok s' ∧ spliced 20 caller_state res c ok s') ∧
    (∀ ok s', execs body caller_state ok s' →
       ∃ c, runs plus_leaf [VFix 6; VFix 7] (st_pairs caller_state) (st_rest caller_state) c ∧
            spliced 20 caller_state res c ok s').
Proof.
  split; [vm_compute; reflexivity |].
  refine (splice_runs_callee plus_leaf (leaf_block plus_leaf) leaf_avail plus_metadata [10; 11] 20 plus_leaf_leaf _ _ _ _
            [] caller_state [VFix 6; VFix 7] _).
  - vm_compute. reflexivity.
  - reflexivity.
  - intros a Ha. rewrite !elem_of_cons in Ha. destruct Ha as [->|[->|Ha%elem_of_nil]]; [lia | lia | done].
  - assert (Forall (λ v, v - 2 + 20 ≤ u32_max) (definitions plus_leaf)) as HF.
    { apply (bool_decide_unpack (Forall (λ v, v - 2 + 20 ≤ u32_max) (definitions plus_leaf))). vm_compute. exact I. }
    intros v Hv. rewrite Forall_forall in HF. by apply (HF v Hv).
  - vm_compute. reflexivity.
Defined.

Lemma modulo_leaf_leaf : leaf modulo_leaf (leaf_block modulo_leaf) leaf_avail.
Proof. split; try done. apply ssa_check_sound. vm_compute. reflexivity. Qed.

(** The analyser has seen the parameters only. *)
Definition modulo_metadata : InlineMetadata := MkMetadata 2 1 1 0 0 3.

Definition modulo_spliced : list Inst.t := [Inst.Quotient 20 10 11; Inst.Modulo 21 20 11].

