(* ===== verification/Findings.v ===== *)
(** * Where the code falls short of its documentation

    Concrete runs and general facts that show behaviour the code's own
    comments rule out: a replicated log that loses committed entries once
    compaction is on, a linearizable read that misses a committed write, a
    snapshot that rewinds the state machine, an acknowledgement for a command
    that was never committed, and EPaxos groups of even size or of one. *)

From stdpp Require Import base numbers gmap sorting list.
From Stdlib Require Import Strings.Byte.
From S2P Require Import Prelude RaftTypes RaftStore RaftNode RaftNet RaftRefine RaftExample Sim Epaxos EpaxosExample Codec Net Driver.

Local Open Scope N_scope.
Local Open Scope crab_scope.

(** ** Raft *)

(** The default configuration with compaction after every applied entry. *)
Definition compacting : Config := MkConfig 5 10 1 1.

(** A snapshot no newer than the replica's own is acknowledged with the end
    of the replica's log, whatever that log holds. *)
Lemma stale_snapshot_ack {SM S} `{StateMachine SM} `{LawfulStore S} (n : RaftNode SM S)
    term leader lii lit conf data seq :
  store_wf (rn_store n) → rn_current_term n ≤ term → lii ≤ base_index (rn_store n) →
  (handle_install_snapshot term leader lii lit conf data seq n).2 =
    [(leader, AppendEntriesResp term true (last_log_index n) 0 seq)].
Proof.
  intros Hwf Ht Hb. unfold handle_install_snapshot. rewrite decide_False by lia.
  assert (rn_current_term (become_follower term (Some leader) n) = term ∧
    base_index (rn_store (become_follower term (Some leader) n)) = base_index (rn_store n) ∧
    last_log_index (become_follower term (Some leader) n) = last_log_index n) as (-> & -> & ->).
  { unfold become_follower, last_log_index, persist_hard_state, reset_election_timer, next_rand.
    case_bool_decide; fields_goal; [|done]. split; [done |].
    match goal with |- context [save_hard_state ?s ?h] =>
      destruct (save_hard_state_spec s h Hwf) as (Hw & Hl & Hbi & _) end.
    by rewrite !last_index_spec, Hl, Hbi. }
  by rewrite decide_True.
Qed.

(** Replica [1] is elected and everybody compacts the first entry.  [1]
    appends the commands [a] and [c], which nobody hears of; [2] is elected by
    [3] and appends its entry and the commands [b] and [d], which nobody hears
    of; [1] is elected again by [3].  Three of its heartbeats fail at [2], the
    third failure takes [next_index] back to the snapshot, and [2] answers the
    snapshot that [1] then sends. *)
Definition before_ack_run : list action :=
  replicate 8 (ATick 1) ++ (ADeliver <$> seq 0 8) ++ [ATick 1] ++ (ADeliver <$> seq 8 4) ++
  [APropose 1 [x61]; APropose 1 [x63]] ++ replicate 9 (ATick 2) ++
  [ADeliver 16; ADeliver 18; APropose 2 [x62]; APropose 2 [x64]; ADeliver 17] ++
  replicate 6 (ATick 1) ++
  [ADeliver 26; ADeliver 28; ATick 1; ATick 1; ADeliver 30; ADeliver 32; ADeliver 34;
   ADeliver 35; ADeliver 36; ADeliver 37; ADeliver 40].

(** The answer of [2] to the snapshot. *)
Definition stale_ack : Message := AppendEntriesResp 3 true 4 0 7.

(** [2] is elected by [3] once more and replicates its log to it. *)
Definition after_ack_run : list action :=
  replicate 10 (ATick 2) ++
  [ADeliver 42; ADeliver 44; ADeliver 45; ADeliver 47; ADeliver 48; ADeliver 49].

Definition before_ack : net tape MemLogStore :=
  run_schedule trio compacting [] before_ack_run (net_init trio compacting [] MemLogStore_new).

Definition after_ack : net tape MemLogStore :=
  put before_ack 1 (on_message 2 stale_ack (n_nodes before_ack 1)).

Definition diverged : net tape MemLogStore :=
  run_schedule trio compacting [] after_ack_run after_ack.

Definition payload_at (s : net tape MemLogStore) (i : ReplicaId) (k : Index) : option EntryPayload :=
  e_payload <$> entry_at (n_nodes s i) k.


(** Replica [1] commits a command with the help of [2] alone.  [2], which does
    not know of the commit, is elected by [3] and asked for a read; the
    heartbeat that confirms its leadership is refused by [3] for its log, but
    counts. *)
Definition commit_run : list action :=
  replicate 8 (ATick 1) ++
  [ADeliver 1; ADeliver 2; ADeliver 4; ADeliver 5; APropose 1 [x61]; ADeliver 7; ADeliver 8].

Definition read_run : list action :=
  replicate 12 (ATick 2) ++ [ADeliver 9; ADeliver 11; ARead 2 1 []; ADeliver 14; ADeliver 16].

(** C40: a ReadIndex read can miss a committed write. The command [a] is
    committed and applied at replica [1] before the read is issued at the new
    leader [2], whose answer is the state without it. *)
Theorem stale_read :
  let before := trio_run commit_run trio_init in
  let after := trio_run read_run before in
  net_reach trio Config_default [] MemLogStore_new before ∧
  rtc (netstep trio Config_default []) before after ∧
  rn_commit_index (n_nodes before 1) = 2 ∧ rn_sm (n_nodes before 1) = [x61] ∧
  rn_ready_reads (n_nodes before 2) = [] ∧
  rn_ready_reads (n_nodes after 2) = [(1, ReadValue [])].
Proof.
  intros before after. split; [apply trio_reach |]. split; [apply run_schedule_steps |].
  split_and!; vm_compute; reflexivity.
Qed.

Lemma become_follower_keeps {SM S} `{StateMachine SM} `{RaftLogStore S}
    term leader (n : RaftNode SM S) :
  let n' := become_follower term leader n in
  rn_sm n' = rn_sm n ∧ rn_last_applied n' = rn_last_applied n ∧
  rn_commit_index n' = rn_commit_index n.
Proof.
  cbn zeta. unfold become_follower.
  match goal with |- context [reset_election_timer ?x] =>
    destruct (reset_spec x) as (a & b & ->) end.
  case_bool_decide; cbn zeta; unfold persist_hard_state; fields_goal; done.
Qed.

Lemma persist_recompute_keeps {SM S} `{StateMachine SM} `{RaftLogStore S} (n : RaftNode SM S) :
  let n' := recompute_config (persist_hard_state n) in
  rn_sm n' = rn_sm n ∧ rn_last_applied n' = rn_last_applied n ∧
  rn_commit_index n' = rn_commit_index n.
Proof. unfold recompute_config, persist_hard_state. cbn zeta. by fields_goal. Qed.

(** Installing a snapshot below what has been applied rewinds the state
    machine but not [last_applied]: the entries in between are lost from the
    state and are never applied again. *)
Theorem install_snapshot_rewinds {SM S} `{StateMachine SM} `{RaftLogStore S}
    term leader lii lit conf data read_seq (n : RaftNode SM S) :
  rn_current_term n ≤ term →
  base_index (rn_store (become_follower term (Some leader) n)) < lii →
  lii ≤ rn_last_applied n → rn_last_applied n ≤ rn_commit_index n →
  let n' := (handle_install_snapshot term leader lii lit conf data read_seq n).1 in
  rn_sm n' = sm_restore (rn_sm n) data ∧ rn_last_applied n' = rn_last_applied n ∧
  rn_commit_index n' = rn_commit_index n.
Proof.
  intros Ht Hb Hl Hc. unfold handle_install_snapshot.
  rewrite decide_False by lia. cbn zeta. rewrite decide_False by lia.
  destruct (become_follower_keeps term (Some leader) n) as (Hs1 & Ha1 & Hc1).
  set (n1 := become_follower term (Some leader) n) in *. clearbody n1.
  set (n2 := if decide (term_at n1 lii ≠ Some lit) then _ else n1).
  assert (rn_sm n2 = rn_sm n ∧ rn_last_applied n2 = rn_last_applied n ∧
    rn_commit_index n2 = rn_commit_index n) as (Hs2 & Ha2 & Hc2).
  { unfold n2. case_decide; fields_goal; done. }
  clearbody n2. cbn [fst].
  match goal with |- context [persist_hard_state ?x] =>
    destruct (persist_recompute_keeps x) as (-> & -> & ->) end.
  fields_goal. rewrite Hs2, Ha2, Hc2. split_and!; [done | lia | lia].
Qed.

(** A replica that has applied two commands. *)
Definition applied_two : RaftNode tape MemLogStore :=
  (on_message 1 (AppendEntries 1 1 0 0
     [MkEntry 1 1 (Command [x61]); MkEntry 1 2 (Command [x62])] 2 1)
     (new_with_store 2 trio Config_default [] MemLogStore_new)).1.

Lemma install_snapshot_rewinds_witness :
  rn_sm applied_two = [x61; x62] ∧
  rn_sm (handle_install_snapshot 1 1 1 1 (Simple trio) [x61] 2 applied_two).1 = [x61] ∧
  rn_last_applied (handle_install_snapshot 1 1 1 1 (Simple trio) [x61] 2 applied_two).1 = 2.
Proof.
  split; [vm_compute; reflexivity |].
  destruct (install_snapshot_rewinds 1 1 1 1 (Simple trio) [x61] 2 applied_two)
    as (Hs & Hl & _); [vm_compute; (reflexivity || discriminate).. |].
  split; [rewrite Hs | rewrite Hl]; vm_compute; reflexivity.
Defined.

(** ** The driver *)

(** Replica [1] is elected by [2] and proposes [a], which nobody receives.  [2]
    is elected by [3], proposes [b] and commits it. *)
Definition overwrite_run : list action :=
  replicate 8 (ATick 1) ++ [ADeliver 1; ADeliver 2; APropose 1 [x61]] ++
  replicate 9 (ATick 2) ++
  [ADeliver 7; ADeliver 9; ADeliver 10; ADeliver 12; APropose 2 [x62]; ADeliver 13; ADeliver 15;
   ATick 2].

Definition vote_for_1 : Message := RequestVoteResp 1 true.

Definition entries_of_2 : Message :=
  AppendEntries 2 2 0 0 [MkEntry 2 1 Noop; MkEntry 2 2 (Command [x62])] 2 3.

(** The driver of replica [1] in that run: elected, asked by actor [100] to
    replicate [a] as request [7], then caught up by [2]. *)
Definition overwritten_driver : option (RaftDriver tape MemLogStore SimEndpoint) :=
  let d := Nat.iter 8 driver_tick driver_1 in
  '(d, _) ← driver_poll (H2 := layout64) (arrive 2 vote_for_1 d);
  let '(_, d) := propose_with_reply [x61] 100 7 d in
  fst <$> driver_poll (H2 := layout64) (arrive 2 entries_of_2 d).

(** A proposer can be told that its command was applied when another one
    was. The proposals awaiting their commit are keyed by index alone and are
    not dropped when leadership is lost: actor [100] receives the
    acknowledgement of its request with the result of [b], while [a] is in no
    log. The two frames the driver receives are packets of a run of the
    cluster. *)
Theorem false_acknowledgement :
  let s := trio_run overwrite_run trio_init in
  net_reach trio Config_default [] MemLogStore_new s ∧
  (2, 1, vote_for_1) ∈ n_sent s ∧ (2, 1, entries_of_2) ∈ n_sent s ∧
  ∃ d, overwritten_driver = Some d ∧
    rd_mail d = [(100, NoteApplied 7 [x62])] ∧
    live (rn_store (rd_node d)) = [MkEntry 2 1 Noop; MkEntry 2 2 (Command [x62])].
Proof.
  intros s. split; [apply trio_reach |].
  split; [apply (list_elem_of_lookup_2 _ 15%nat); vm_compute; reflexivity |].
  split; [apply (list_elem_of_lookup_2 _ 0%nat); vm_compute; reflexivity |].
  destruct overwritten_driver as [d|] eqn:Hd; [|vm_compute in Hd; discriminate].
  exists d. split; [done |].
  change d with (default d (Some d)). rewrite <-Hd. split; vm_compute; reflexivity.
Qed.

(** ** EPaxos *)

(** In a group of two replicas the fast-path quorum is zero, so the first
    reply commits whatever it says: two interfering commands proposed at the
    same time are executed in opposite orders. *)
Theorem two_replicas_diverge :
  let c := kv_deliver (kv_propose 1 [x07; x02] (kv_propose 0 [x07; x01] (inr (kv_group 2)))) in
  interferes (SM := kv_log) [] [x07; x01] [x07; x02] = true ∧
  kv_executed c 0 = Some [[x07; x01]; [x07; x02]] ∧
  kv_executed c 1 = Some [[x07; x02]; [x07; x01]].
Proof. split_and!; vm_compute; reflexivity. Qed.

(** A group of one replica never executes anything: only a reply can
    commit, and nobody replies. *)
Theorem single_replica_never_executes {SM} `{EpaxosStateMachine SM} (r r' : EpaxosReplica SM) cmds :
  ep_replicas r = [ep_id r] →
  r' = foldl (λ r c, (epropose c r).1) r cmds →
  ep_sm r' = ep_sm r ∧ ep_replicas r' = [ep_id r'] ∧
  ∀ c, (epropose c r').2 = [].
Proof.
  intros Hr ->. assert (∀ r1 : EpaxosReplica SM, ep_replicas r1 = [ep_id r1] →
    ∀ c, (epropose c r1).2 = [] ∧ ep_sm (epropose c r1).1 = ep_sm r1 ∧
      ep_replicas (epropose c r1).1 = [ep_id (epropose c r1).1]) as Hstep.
  { intros r1 Hr1 c. unfold epropose. destruct (deps_and_seq _ _ _) as [q ds].
    cbn [fst snd]. destruct (record_keeps (MkInstance (ep_id r1) (ep_next_slot r1)) c q ds
      PreAccepted 0 (r1 <| ep_next_slot ::= λ s, s + 1 |>)) as (Hs & Hi & Hv & _).
    unfold epeers. fields_goal. rewrite Hs, Hi, Hv. fields_goal. rewrite Hr1.
    rewrite filter_cons, decide_False by auto. done. }
  revert r Hr. induction cmds as [|c cmds IH]; intros r Hr; cbn [foldl].
  - split_and!; [done | done |]. intros c. by apply Hstep.
  - destruct (Hstep r Hr c) as (_ & Hs & Hr'). destruct (IH _ Hr') as (Heq & ? & ?).
    split_and!; [by rewrite Heq | done | done].
Qed.

Lemma single_replica_never_executes_witness :
  ∃ r : EpaxosReplica kv_log, new_replica 0 [0] [] = Some r ∧
    ep_sm (foldl (λ r c, (epropose c r).1) r [[x07]; [x08]]) = ep_sm r.
Proof.
  eexists. split; [vm_compute; reflexivity |].
  eapply (single_replica_never_executes _ _ [[x07]; [x08]]); [vm_compute; reflexivity | reflexivity].
Defined.
